(* ===== verification/_CoqProject ===== *)
-Q . S2P
Prelude.v
Collections.v
Types.v
Policy.v
Redaction.v
Diagnostics.v
Extension.v
Reduction.v
Record.v
Cursor.v
QueryPaging.v
Index.v
Telemetry.v
TelemetryFlush.v
Store.v
Retention.v
Recovery.v
Listing.v
Framing.v
Bes.v
Capture.v
Scheduler.v
Text.v
Runner.v
StarlarkValue.v
Sanitize.v
Artifacts.v
Outcome.v
BazelText.v
Starlark.v
Evidence.v
Inspection.v
TestEvidence.v
Response.v
Tasks.v
Execution.v
Service.v
Server.v
CaptureEvidence.v
OutputBaseLock.v
Process.v
Coordination.v
Files.v
Config.v
Agent.v
AgentRun.v
CorpusSanitize.v
Corpus.v
CorpusReplay.v
