(* ===== verification/Prelude.v ===== *)
(** * bazel-mcp: a verification of its core

    bazel-mcp is a server that runs Bazel for coding agents.  A request names a
    workspace and a Bazel command; the server checks it against a policy, runs
    Bazel with a command line of its own making, captures the Build Event
    Protocol (BEP) stream and the logs, reduces them to a short summary, and
    keeps the evidence in a store that later calls page through.

    ** The parts of the program and where they are modelled

    - crates/bazel-mcp-types: requests, records, summaries, the lifecycle state
      machine, deferred results: [Types.v].
    - crates/bazel-mcp-policy: reserved flags, workspace and output-base paths,
      executables, environment: [Policy.v]; regular-expression redaction with a
      byte bound: [Redaction.v].
    - crates/bazel-mcp-bep: varints and length-delimited frames, the incremental
      decoder: [Framing.v].
    - crates/bazel-mcp-reducer: diagnostics and their budget (build.rs):
      [Diagnostics.v]; the lines Bazel itself writes (diagnostics/): [BazelText.v];
      custom reducers, their selectors and the pipeline (extension.rs):
      [Extension.v]; the values of the Starlark reducers and their serialized
      length, and how a reducer is loaded, called and its answer parsed
      (starlark.rs): [StarlarkValue.v], [Starlark.v]; the accumulator over build
      events and the summary it finishes with (build.rs): [Reduction.v].
    - crates/bazel-mcp-store: durable records and their split into header and
      details: [Record.v]; the in-memory index with its accounting: [Index.v];
      batched telemetry as interleaved steps: [Telemetry.v], its flush task and
      the flush at shutdown: [TelemetryFlush.v]; the operations on invocations
      and deferred results (storage.rs, deferred_repository.rs): [Store.v];
      retention and garbage collection: [Retention.v]; opening a store after a
      crash: [Recovery.v]; cursors: [Cursor.v]; paging of logs and query rows:
      [QueryPaging.v]; listings: [Listing.v]; several processes over one cache
      (coordination.rs and the order of writes, announcements and index changes
      elsewhere): [Coordination.v]; paths, atomic replacement of files, leftovers
      and the trash (files.rs, recovery.rs): [Files.v].
    - crates/bazel-mcp-bes: the local Build Event Service that Bazel streams to,
      with its registration and acknowledgement protocol: [Bes.v].
    - crates/bazel-mcp-runner: live capture of the event stream (capture.rs):
      [Capture.v], how a capture ends and what the reduction is given of it
      (capture.rs, execution.rs): [CaptureEvidence.v]; permits, locks and the
      registry of live invocations (scheduler.rs, and the acquisition order of
      service.rs): [Scheduler.v]; the lock of an output base between processes:
      [OutputBaseLock.v]; configuration, admission checks, drivers and command
      lines (service.rs, driver.rs, path_args.rs, execution.rs): [Runner.v]; the
      texts that leave the server (execution.rs, service.rs): [Sanitize.v]; which
      artifacts are opened, and coverage reports: [Artifacts.v]; reduction of
      captured evidence to a completion (execution.rs): [Outcome.v]; failed-test
      logs and their snapshot (test_evidence.rs): [TestEvidence.v]; the phases of
      an execution, its single durable commit and the recovery from a failed
      phase (execution.rs): [Execution.v]; submission, worker, supervisor and
      cancellation (service.rs, version.rs, cancel.rs): [Service.v]; the version
      probe, the named pipe and the progress report: [Process.v]; the lines kept
      of a failure, and the views an invocation is inspected through
      (inspection.rs): [Evidence.v], [Inspection.v].
    - crates/bazel-mcp-server: results encoded and shrunk to a budget (result.rs):
      [Response.v]; tasks and the negotiated protocols (tasks.rs, protocol.rs):
      [Tasks.v]; the handler of the tools and task methods (handler.rs):
      [Server.v]; the configuration of all parts (config.rs): [Config.v]; agent
      mode, its arguments and its run (agent.rs): [Agent.v], [AgentRun.v].
    - crates/bazel-mcp-reducer-cases: sanitizing recorded evidence: [CorpusSanitize.v];
      manifests and their discovery: [Corpus.v]; expectations, replay and the
      verification of a case: [CorpusReplay.v].

    A request comes in through [Server] or [AgentRun], is admitted and scheduled by
    [Service] over [Scheduler], executed by [Execution] (whose environment
    [CaptureEvidence] and [TestEvidence] fill in), reduced by [Outcome] over
    [Reduction], [BazelText] and [Starlark], committed by [Store], and read back
    through [Inspection] and [Response].

    [Prelude.v] (this file) holds results with their monad, saturating machine
    integers, bytes and strings and the shared tactics; [Collections.v] the
    lemmas on lists, sorting and finite maps; [Text.v] the operations of Rust's
    [str] that the source uses.

    ** How code is represented

    Fallible functions return [result E A], and [x ← e; k] is [let x = e?; k].
    Machine integers are [Z], with the saturating operations of the source
    written out ([u64_add], [u32_add], [i64_sub], ...).  Byte strings are [list Z]
    or [string] (a [string] is the UTF-8 bytes of a Rust [str]).  Hash maps and
    B-tree maps are [gmap]; a [Vec] is a list.

    Loops are structural or have fuel.  Fuel is the length of the input plus a
    constant in [Framing], [QueryPaging], [Extension] and [Reduction], the number
    of items a result can still lose in [Response] and [Server], the number of
    tests in the paging of missing logs ([TestEvidence]), and the number of cells
    of the heap in [StarlarkValue]; each is shown to be enough, as a theorem that
    the function returns (or, for the one loop that does not end, that it does
    not).  Loops that wait for something outside (polls, timers, attempts) run
    over the list of what they observe, and their theorems say which observation
    ends them ([OutputBaseLock], [Server], [TelemetryFlush]).

    Concurrent parts ([Scheduler], [Bes], [Telemetry], [OutputBaseLock],
    [Coordination], [Files]) are step relations over a shared state, and their
    theorems are about all reachable states; the runner's handlers run in a state
    monad over the store and the scheduler, where every store call may fail before
    or after it took effect ([Execution.Fault]).

    Code outside the repository is an interface: the file system
    ([Policy.FileSystem]), regular expressions ([Redaction]), serialized sizes
    ([Store.Serializer]), terminal normalisation ([Outcome.TerminalText]), hashes and
    encodings ([Cursor], [Capture]), JSON, XML and TOML ([Evidence], [TestEvidence],
    [OutputBaseLock], [Config]), the encoders of results ([Response.Wire]), the
    reducers of compiler and test logs ([BazelText], [TestEvidence]), the Starlark
    interpreter ([Starlark]).  Their laws are the fields of the class, and every
    theorem that uses one has an example with a concrete instance.

    ** What the theorems show

    - Framing, capture, BES: decoding does not depend on how the stream is cut
      into chunks, inverts encoding and stays within its limits; Bazel is
      acknowledged only after the frames were accepted; what capture wrote is
      what was streamed, and whatever carried the stream, the reduction is given
      the same events.
    - Store: the index always agrees with the disk, also across processes, where
      a refresh that is declined had nothing to load; a terminal outcome is
      final; telemetry is never lost by an interleaving and a flush settles;
      retention never removes a protected result; a file is replaced in one
      piece, whatever fails; opening a store after a crash recovers; listings and
      pages cover every record once.
    - Policy, configuration and command lines: what an accepted request can
      reach, that every reserved flag on the command line is the server's, and
      that a configuration that loads keeps its cache outside the workspaces.
    - Reduction: budgets are kept, failures of custom reducers are isolated,
      glob selection is the declarative match, summaries and run outcomes say what
      the events said, and no text of a summary shows the workspace path.
    - Scheduling and execution: mutual exclusion per output base, in a process
      and between processes, limits, no deadlock; every accepted submission ends
      with a terminal record in the store.
    - Inspection and server: pages cover the evidence, results fit their budget,
      the execution policy is respected, a cancelled task stays cancelled, and
      agent mode runs exactly what it was given.
    - Corpus: verifying a recorded case accepts exactly the cases that keep their
      contract.

    Some theorems show that the code does not do what it means to:
    [Service.worker_failure_leaves_queued], [Response.summary_inspection_hangs],
    [Inspection.coverage_fallback_cursor_rejected],
    [TelemetryFlush.failed_flush_is_forgotten] and
    [Coordination.CoordinationExamples.late_announcement_keeps_deleted].

    ** Not modelled

    - crates/bazel-mcp-server/src/lib.rs and main.rs, which connect the parts to the
      MCP library, to signals and to a timer; starting processes, delivering
      signals, file permissions, sockets and polling intervals, which are the
      operating system's and appear as what the modelled code is told of them.
    - Generated protobuf code, the gRPC transport and codec, build scripts and
      serde derives: library code and glue to it.
    - crates/bazel-mcp-store/src/metrics.rs (counters nothing reads but the
      benchmarks), crates/bazel-mcp-reducer/src/query.rs (called by a benchmark
      only), log messages.
    - crates/bazel-mcp-benchmark and the command line and live runs of
      crates/bazel-mcp-reducer-cases: measurements and tools around the program,
      made of processes and wall-clock time.
*)

From stdpp Require Export base decidable option list list_numbers gmap strings numbers sorting.
From Stdlib Require Export ZArith Lia ZifyBool.
From Stdlib Require Import Ascii.

#[global] Open Scope Z_scope.

(** ** Results

    Rust's [Result<A, E>].  The monad instances give the [x ← e; k] notation,
    which reads as the source's [let x = e?; k]. *)
Inductive result (E A : Type) : Type :=
| Ok (a : A)
| Err (e : E).
Arguments Ok {E A} _.
Arguments Err {E A} _.

#[export] Instance result_ret {E} : MRet (result E) := fun _ a => Ok a.
#[export] Instance result_bind {E} : MBind (result E) :=
  fun _ _ f r => match r with Ok a => f a | Err e => Err e end.
#[export] Instance result_fmap {E} : FMap (result E) :=
  fun _ _ f r => match r with Ok a => Ok (f a) | Err e => Err e end.

Definition is_ok {E A} (r : result E A) : bool :=
  match r with Ok _ => true | Err _ => false end.

(** [Option::ok_or]. *)
Definition ok_or {E A} (o : option A) (e : E) : result E A :=
  match o with Some a => Ok a | None => Err e end.

(** [Result::ok]. *)
Definition ok_option {E A} (r : result E A) : option A :=
  match r with Ok a => Some a | Err _ => None end.

(** An early return of an error guarded by a condition:
    [if c { return Err(e) }]. *)
Definition reject_if {E} (c : bool) (e : E) : result E unit :=
  if c then Err e else Ok tt.

#[export] Instance result_eq_dec {E A} `{EqDecision E, EqDecision A} :
  EqDecision (result E A).
Proof. solve_decision. Defined.

#[export] Instance Ok_inj {E A} : Inj (=) (=) (@Ok E A).
Proof. by intros a b [= ->]. Qed.

Lemma bind_Ok_inv {E A B} (r : result E A) (f : A → result E B) b :
  (r ≫= f) = Ok b → ∃ a, r = Ok a ∧ f a = Ok b.
Proof. destruct r; [eauto|done]. Qed.

Lemma bind_Err_inv {E A B} (r : result E A) (f : A → result E B) e :
  (r ≫= f) = Err e → r = Err e ∨ ∃ a, r = Ok a ∧ f a = Err e.
Proof. destruct r; [right; eauto|left; naive_solver]. Qed.

Lemma reject_if_Ok {E} c (e : E) u : reject_if c e = Ok u ↔ c = false.
Proof. destruct c, u; naive_solver. Qed.

Lemma reject_if_Err {E} c (e e' : E) : reject_if c e = Err e' ↔ c = true ∧ e = e'.
Proof. destruct c; naive_solver. Qed.

Lemma ok_or_Ok {E A} (o : option A) (e : E) a : ok_or o e = Ok a ↔ o = Some a.
Proof. destruct o; naive_solver. Qed.

(** [for x in xs { check(x)? }]: the first error of the traversal. *)
Fixpoint for_each {E A} (check : A → result E unit) (xs : list A) : result E unit :=
  match xs with
  | [] => Ok tt
  | x :: rest => check x ≫= fun _ => for_each check rest
  end.

Lemma for_each_Ok {E A} (check : A → result E unit) xs :
  for_each check xs = Ok tt ↔ Forall (fun x => check x = Ok tt) xs.
Proof.
  induction xs as [|x xs IH]; simpl; [split; auto|].
  rewrite Forall_cons, <- IH.
  destruct (check x) as [[]|e] eqn:Hx; simpl; naive_solver.
Qed.

Lemma for_each_Err {E A} (check : A → result E unit) xs e :
  for_each check xs = Err e ↔
  ∃ pre x post, xs = pre ++ x :: post ∧
    Forall (fun y => check y = Ok tt) pre ∧ check x = Err e.
Proof.
  split.
  - induction xs as [|x xs IH]; simpl; [done|].
    intros [Hx|([] & Hx & Hrest)]%bind_Err_inv.
    + exists [], x, xs. split_and!; [done|constructor|done].
    + destruct (IH Hrest) as (pre & y & post & -> & Hpre & Hy).
      exists (x :: pre), y, post. split_and!; [done|by constructor|done].
  - intros (pre & x & post & -> & Hpre & Hx).
    induction Hpre as [|y pre Hy _ IH]; simpl; [by rewrite Hx|by rewrite Hy].
Qed.

(** ** Machine integers

    Every machine integer is a [Z] kept in the range of its type; the source
    uses saturating operators at the places where it could leave the range, and
    these are their definitions.  The development is for the 64-bit targets the
    program is released for, so [usize] is [u64]. *)
Definition u8_max : Z := 255.
Definition u32_max : Z := 2 ^ 32 - 1.
Definition u64_max : Z := 2 ^ 64 - 1.
Definition usize_max : Z := u64_max.
Definition i64_min : Z := - 2 ^ 63.
Definition i64_max : Z := 2 ^ 63 - 1.

Definition is_u8 (z : Z) : Prop := 0 ≤ z ≤ u8_max.
Definition is_u32 (z : Z) : Prop := 0 ≤ z ≤ u32_max.
Definition is_u64 (z : Z) : Prop := 0 ≤ z ≤ u64_max.
Definition is_i64 (z : Z) : Prop := i64_min ≤ z ≤ i64_max.

(** [u64::saturating_add], [saturating_sub], [saturating_mul]. *)
Definition u64_add (a b : Z) : Z := Z.min (a + b) u64_max.
Definition u64_sub (a b : Z) : Z := Z.max (a - b) 0.
Definition u64_mul (a b : Z) : Z := Z.min (a * b) u64_max.

(** [i64::saturating_add], [saturating_sub]. *)
Definition i64_add (a b : Z) : Z := Z.max i64_min (Z.min (a + b) i64_max).
Definition i64_sub (a b : Z) : Z := Z.max i64_min (Z.min (a - b) i64_max).

(** [u64::try_from(i64).unwrap_or(u64::MAX)] and
    [i64::try_from(wide).unwrap_or(i64::MAX)]. *)
Definition u64_try_from_or_max (z : Z) : Z := if decide (0 ≤ z ≤ u64_max) then z else u64_max.
Definition i64_try_from_or_max (z : Z) : Z :=
  if decide (i64_min ≤ z ≤ i64_max) then z else i64_max.

(** [Ord::clamp]: it panics ([None]) when the lower bound exceeds the upper. *)
Definition clamp (x lo hi : Z) : option Z :=
  if lo <=? hi then Some (Z.max lo (Z.min x hi)) else None.

(** Unfolds the width constants and saturating operators and calls [lia]. *)
Ltac width :=
  unfold is_u8, is_u32, is_u64, is_i64, u64_add, u64_sub, u64_mul, i64_add, i64_sub,
    u64_try_from_or_max, i64_try_from_or_max,
    usize_max, u8_max, u32_max, u64_max, i64_min, i64_max in *;
  repeat case_decide; try lia.

Lemma u64_add_range a b : is_u64 a → is_u64 b → is_u64 (u64_add a b).
Proof. width. Qed.
Lemma u64_sub_range a b : is_u64 a → is_u64 b → is_u64 (u64_sub a b).
Proof. width. Qed.
Lemma u64_mul_range a b : is_u64 a → is_u64 b → is_u64 (u64_mul a b).
Proof. width. Qed.
Lemma i64_add_range a b : is_i64 (i64_add a b).
Proof. width. Qed.
Lemma i64_sub_range a b : is_i64 (i64_sub a b).
Proof. width. Qed.
Lemma u64_add_exact a b : 0 ≤ a → 0 ≤ b → a + b ≤ u64_max → u64_add a b = a + b.
Proof. width. Qed.
Lemma u64_sub_exact a b : b ≤ a → u64_sub a b = a - b.
Proof. width. Qed.

Create HintDb width discriminated.
#[export] Hint Resolve u64_add_range u64_sub_range u64_mul_range i64_add_range i64_sub_range
  : width.

(** ** Strings

    A Rust [str] is the sequence of its UTF-8 bytes: a [string], one [ascii]
    (eight bits) per byte, so [String.length] is [str::len]. *)
Definition byte_of (c : ascii) : Z := Z.of_N (N_of_ascii c).
Definition str_len (s : string) : Z := Z.of_nat (String.length s).

(** [str::as_bytes]. *)
Fixpoint bytes_of (s : string) : list Z :=
  match s with
  | EmptyString => []
  | String c rest => byte_of c :: bytes_of rest
  end.

(** The string of some bytes ([String::from_utf8_unchecked]). *)
Fixpoint string_of_bytes (bytes : list Z) : string :=
  match bytes with
  | [] => EmptyString
  | byte :: rest => String (ascii_of_N (Z.to_N byte)) (string_of_bytes rest)
  end.

(** [str::strip_prefix] and [str::starts_with] for a string pattern. *)
Fixpoint strip_prefix (p s : string) : option string :=
  match p, s with
  | EmptyString, _ => Some s
  | String a p', String b s' => if Ascii.eqb a b then strip_prefix p' s' else None
  | String _ _, EmptyString => None
  end.

Definition starts_with (s p : string) : bool :=
  match strip_prefix p s with Some _ => true | None => false end.

(** [u8::to_ascii_lowercase] and [str::eq_ignore_ascii_case]. *)
Definition lower_byte (b : Z) : Z := if (65 <=? b) && (b <=? 90) then b + 32 else b.
Definition eq_ignore_ascii_case (a b : string) : bool :=
  bool_decide (map lower_byte (bytes_of a) = map lower_byte (bytes_of b)).

(** [str::split_once] for an ASCII character. *)
Fixpoint split_once (c : ascii) (s : string) : option (string * string) :=
  match s with
  | EmptyString => None
  | String a rest =>
      if Ascii.eqb a c then Some (EmptyString, rest)
      else match split_once c rest with
           | Some (l, r) => Some (String a l, r)
           | None => None
           end
  end.

Lemma strip_prefix_Some p s r : strip_prefix p s = Some r ↔ s = (p +:+ r).
Proof.
  revert s. induction p as [|a p IH]; intros s; [simpl; naive_solver|].
  destruct s as [|b s]; simpl; [split; intros; discriminate|].
  destruct (Ascii.eqb_spec a b) as [->|Hne].
  - rewrite IH. split; [by intros ->|by intros [= ->]].
  - split; [done|]. by intros [= -> _].
Qed.

Lemma starts_with_true s p : starts_with s p = true ↔ ∃ r, s = (p +:+ r).
Proof.
  unfold starts_with. destruct (strip_prefix p s) as [r|] eqn:Hp.
  - apply strip_prefix_Some in Hp. naive_solver.
  - split; [done|]. intros [r Hr]. apply strip_prefix_Some in Hr. congruence.
Qed.

Lemma str_len_nonneg s : 0 ≤ str_len s.
Proof. unfold str_len. lia. Qed.

Lemma length_bytes_of s : Z.of_nat (length (bytes_of s)) = str_len s.
Proof. unfold str_len. induction s; simpl; lia. Qed.

Lemma byte_of_range c : is_u8 (byte_of c).
Proof.
  unfold byte_of. pose proof (N_ascii_bounded c). width.
Qed.

Lemma bytes_of_string_of_bytes bytes : Forall is_u8 bytes → bytes_of (string_of_bytes bytes) = bytes.
Proof.
  induction 1 as [|byte rest Hbyte _ IH]; simpl; [done|]. rewrite IH. f_equal.
  unfold byte_of. rewrite N_ascii_embedding by (unfold is_u8, u8_max in *; lia).
  unfold is_u8 in *. lia.
Qed.

Lemma bytes_of_u8 s : Forall is_u8 (bytes_of s).
Proof. induction s; simpl; constructor; [apply byte_of_range|done]. Qed.

Lemma bytes_of_inj s t : bytes_of s = bytes_of t → s = t.
Proof.
  revert t. induction s as [|a s IH]; intros [|b t]; simpl; try done.
  intros [= Hab Hst]. f_equal; [|by apply IH].
  unfold byte_of in Hab. apply N2Z.inj in Hab.
  by rewrite <- (ascii_N_embedding a), <- (ascii_N_embedding b), Hab.
Qed.

(** ** Generic list facts *)
(** Destructs the scrutinee of a [match] in the goal or in a hypothesis,
    keeping its equation. *)
Ltac case_eqn :=
  match goal with
  | |- context [match ?x with _ => _ end] => destruct x eqn:?
  | H : context [match ?x with _ => _ end] |- _ => destruct x eqn:?
  end.

(** Splits a hypothesis [m ≫= f = Ok b] into its steps. *)
Ltac inv_ok :=
  repeat match goal with
  | H : (_ ≫= _) = Ok _ |- _ => apply bind_Ok_inv in H as (? & ? & H)
  | H : reject_if _ _ = Ok _ |- _ => apply reject_if_Ok in H
  | H : ok_or _ _ = Ok _ |- _ => apply ok_or_Ok in H
  end.
