(* ===== verification/Collections.v ===== *)
(** * Ordered collections

    What the reducers and the store use of the standard library's ordered
    collections: the bytewise order of [str], stable sorting ([sort_by],
    [sort_by_key]), removal of consecutive duplicates ([dedup_by]) and the
    iteration order of a [BTreeMap] with string keys. *)

From S2P Require Import Prelude.

(** ** The order of strings *)

Fixpoint bytes_ltb (a b : list Z) : bool :=
  match a, b with
  | _, [] => false
  | [], _ :: _ => true
  | x :: a, y :: b => (x <? y) || ((x =? y) && bytes_ltb a b)
  end.
Definition str_ltb (a b : string) : bool := bytes_ltb (bytes_of a) (bytes_of b).
Definition str_leb (a b : string) : bool := negb (str_ltb b a).
Definition str_lt (a b : string) : Prop := str_ltb a b = true.

Lemma bytes_ltb_irrefl a : bytes_ltb a a = false.
Proof. induction a as [|x a IH]; [done|]. cbn. by rewrite Z.ltb_irrefl, Z.eqb_refl, IH. Qed.

Lemma bytes_ltb_trans a b c : bytes_ltb a b = true → bytes_ltb b c = true → bytes_ltb a c = true.
Proof.
  revert b c. induction a as [|x a IH]; intros [|y b] [|z c]; try done. cbn.
  rewrite !orb_true_iff, !andb_true_iff, !Z.ltb_lt, !Z.eqb_eq.
  intros [?|[-> ?]] [?|[-> ?]]; [left; lia|by left|by left|]. right. split; [done|]. by eapply IH.
Qed.

Lemma bytes_ltb_total a b : bytes_ltb a b = true ∨ a = b ∨ bytes_ltb b a = true.
Proof.
  revert b. induction a as [|x a IH]; intros [|y b]; cbn; auto.
  rewrite !orb_true_iff, !andb_true_iff, !Z.ltb_lt, !Z.eqb_eq.
  destruct (Z.lt_trichotomy x y) as [?|[->|?]]; [auto| |auto].
  destruct (IH b) as [?|[->|?]]; auto 6.
Qed.

#[export] Instance str_lt_dec a b : Decision (str_lt a b).
Proof. unfold str_lt. apply _. Defined.
#[export] Instance str_lt_trans : Transitive str_lt.
Proof. intros a b c. apply bytes_ltb_trans. Qed.
#[export] Instance str_lt_irrefl : Irreflexive str_lt.
Proof. intros a. unfold complement, str_lt, str_ltb. by rewrite bytes_ltb_irrefl. Qed.
#[export] Instance str_lt_strict : StrictOrder str_lt.
Proof. split; apply _. Qed.
#[export] Instance str_lt_trichotomy : TrichotomyT str_lt.
Proof.
  intros a b. destruct (decide (str_lt a b)) as [H|H]; [left; left; exact H|].
  destruct (decide (a = b)) as [->|Hne]; [by left; right|]. right.
  destruct (bytes_ltb_total (bytes_of a) (bytes_of b)) as [?|[Heq|?]]; [done| |done].
  by apply bytes_of_inj in Heq.
Defined.

Lemma str_leb_lt a b : str_leb a b = true ↔ str_lt a b ∨ a = b.
Proof.
  unfold str_leb. rewrite negb_true_iff. destruct (trichotomyT str_lt a b) as [[H|H]|H].
  - split; [auto|]. intros _. destruct (str_ltb b a) eqn:Hba; [|done].
    exfalso. apply (irreflexivity str_lt a). by transitivity b.
  - subst. split; [auto|]. intros _. by destruct (str_ltb b b) eqn:?; [destruct (irreflexivity str_lt b)|].
  - rewrite H. split; [done|]. intros [H'| ->]; [|by destruct (irreflexivity str_lt b)].
    exfalso. apply (irreflexivity str_lt a). by transitivity b.
Qed.

(** ** Stable sorting *)

Section stable_sort.
Context {A : Type} (leb : A → A → bool).

Fixpoint insert_sorted (x : A) (l : list A) : list A :=
  match l with
  | [] => [x]
  | y :: rest => if leb x y then x :: l else y :: insert_sorted x rest
  end.

(** [sort_by] and [sort_by_key]: equal elements keep their order. *)
Definition stable_sort (l : list A) : list A := foldr insert_sorted [] l.

Definition Leb (a b : A) : Prop := leb a b = true.

Lemma insert_sorted_perm x l : insert_sorted x l ≡ₚ x :: l.
Proof.
  induction l as [|y l IH]; [done|]. cbn. destruct (leb x y); [done|]. rewrite IH. apply Permutation_swap.
Qed.

Lemma stable_sort_perm l : stable_sort l ≡ₚ l.
Proof. induction l as [|x l IH]; [done|]. cbn. by rewrite insert_sorted_perm, IH. Qed.

Context (Htrans : ∀ a b c, leb a b = true → leb b c = true → leb a c = true).
Context (Htotal : ∀ a b, leb a b = true ∨ leb b a = true).

Lemma insert_sorted_sorted x l : StronglySorted Leb l → StronglySorted Leb (insert_sorted x l).
Proof.
  induction 1 as [|y l Hl IH Hall]; cbn; [repeat constructor|]. destruct (leb x y) eqn:Hxy.
  - constructor; [by constructor|]. constructor; [done|].
    eapply Forall_impl; [exact Hall|]. intros z. by apply Htrans.
  - constructor; [done|]. rewrite insert_sorted_perm. constructor; [|done].
    unfold Leb. destruct (Htotal x y); congruence.
Qed.

Lemma stable_sort_sorted l : StronglySorted Leb (stable_sort l).
Proof. induction l as [|x l IH]; [constructor|]. by apply insert_sorted_sorted. Qed.

(** Elements that are mutually below each other keep their order. *)
Lemma stable_sort_stable (P : A → Prop) `{!∀ x, Decision (P x)} l :
  (∀ x y, P x → P y → leb x y = true) → filter P (stable_sort l) = filter P l.
Proof.
  intros HP. assert (∀ x l, filter P (insert_sorted x l) = filter P (x :: l)) as Hinsert.
  { clear l. intros x l. induction l as [|y l IH]; [done|]. cbn [insert_sorted].
    destruct (leb x y) eqn:Hxy; [done|]. rewrite filter_cons, IH, !filter_cons.
    repeat case_decide; try done. rewrite HP in Hxy by done. done. }
  induction l as [|x l IH]; [done|]. cbn [stable_sort foldr]. rewrite Hinsert, !filter_cons.
  change (foldr insert_sorted [] l) with (stable_sort l). by rewrite IH.
Qed.
End stable_sort.

Arguments Leb {A} leb a b /.

(** ** Sorting by a label, and removing consecutive duplicates *)

Section labelled.
Context {A : Type} (label : A → string).

Definition sort_by_label : list A → list A := stable_sort (fun a b => str_leb (label a) (label b)).

(** [dedup_by(|left, right| left.label == right.label)]: an element is dropped
    when its label is that of the last one kept. *)
Fixpoint dedup_after (last : option string) (l : list A) : list A :=
  match l with
  | [] => []
  | x :: rest =>
      if bool_decide (Some (label x) = last) then dedup_after last rest
      else x :: dedup_after (Some (label x)) rest
  end.
Definition dedup_by_label : list A → list A := dedup_after None.

Definition by_label (l : list A) : Prop := StronglySorted str_lt (map label l).

Abbreviation LabelLeb := (Leb (fun a b => str_leb (label a) (label b))).

Lemma sort_by_label_sorted l : StronglySorted LabelLeb (sort_by_label l).
Proof.
  apply stable_sort_sorted.
  - intros a b c. rewrite !str_leb_lt. intros [H1|H1] [H2|H2]; [left; by etrans|left; congruence|left; congruence|right; congruence].
  - intros a b. rewrite !str_leb_lt. destruct (trichotomyT str_lt (label a) (label b)) as [[?|?]|?]; auto.
Qed.

Lemma dedup_after_sublist last l : dedup_after last l `sublist_of` l.
Proof.
  revert last. induction l as [|x l IH]; intros last; cbn; [done|].
  case_bool_decide; [by apply sublist_cons|by apply sublist_skip].
Qed.

Lemma dedup_after_by_label last l :
  StronglySorted LabelLeb l →
  (∀ y, y ∈ l → match last with None => True | Some k => str_leb k (label y) = true end) →
  by_label (dedup_after last l) ∧
  (∀ y, y ∈ dedup_after last l → match last with None => True | Some k => str_lt k (label y) end).
Proof.
  intros Hs. revert last. induction Hs as [|x l Hl IH Hall]; intros last Hlast; cbn.
  { split; [constructor|]. set_solver. }
  rewrite Forall_forall in Hall. case_bool_decide as Heq.
  { subst last. apply IH. intros y Hy. by apply Hall. }
  destruct (IH (Some (label x))) as [Hsorted Habove]; [intros y Hy; by apply Hall|].
  assert (match last with None => True | Some k => str_lt k (label x) end) as Hx.
  { destruct last as [k|]; [|done]. specialize (Hlast x ltac:(set_solver)).
    apply str_leb_lt in Hlast as [?|Hk]; [done|]. congruence. }
  split.
  - unfold by_label. cbn. constructor; [exact Hsorted|]. apply Forall_forall.
    intros k (y & -> & Hy)%list_elem_of_fmap. by apply Habove in Hy.
  - intros y [->|Hy]%elem_of_cons; [done|]. apply Habove in Hy.
    destruct last as [k|]; [|done]. by etrans.
Qed.

(** Sorting and removing duplicates leaves one element per label, in the order
    of the labels. *)
Lemma dedup_sort_by_label l : by_label (dedup_by_label (sort_by_label l)).
Proof. by apply dedup_after_by_label; [apply sort_by_label_sorted|]. Qed.

Definition with_label (k : string) (x : A) : Prop := label x = k.
#[global] Instance with_label_dec k x : Decision (with_label k x).
Proof. unfold with_label. apply _. Defined.

Lemma dedup_after_first last l k :
  StronglySorted LabelLeb l →
  (∀ y, y ∈ l → match last with None => True | Some j => str_leb j (label y) = true end) →
  Some k ≠ last →
  head (filter (with_label k) (dedup_after last l)) = head (filter (with_label k) l).
Proof.
  intros Hs. revert last. induction Hs as [|x l Hl IH Hall]; intros last Hlast Hk; [done|]. cbn [dedup_after].
  rewrite Forall_forall in Hall. case_bool_decide as Heq.
  - rewrite (filter_cons _ x), decide_False by (unfold with_label; congruence).
    apply IH; [set_solver|done].
  - rewrite !filter_cons. case_decide as Hx; [done|].
    apply IH; [intros y Hy; by apply Hall|]. intros [= ->]. by apply Hx.
Qed.

(** The element that is kept for a label is the first one of the input. *)
Lemma dedup_sort_first l k :
  head (filter (with_label k) (dedup_by_label (sort_by_label l))) = head (filter (with_label k) l).
Proof.
  unfold dedup_by_label. rewrite dedup_after_first by (done || apply sort_by_label_sorted).
  unfold sort_by_label. rewrite stable_sort_stable; [done|].
  intros x y -> ->. apply str_leb_lt. by right.
Qed.

(** A list that is already in order is left alone. *)
Lemma sort_by_label_id l : by_label l → sort_by_label l = l.
Proof.
  unfold by_label, sort_by_label. induction l as [|x l IH]; [done|]. cbn [map].
  intros [Hs Hall]%StronglySorted_inv. cbn [stable_sort foldr]. fold (stable_sort (fun a b => str_leb (label a) (label b)) l).
  rewrite IH by done. destruct l as [|y l]; [done|]. cbn.
  apply Forall_inv in Hall. assert (str_leb (label x) (label y) = true) as -> by (apply str_leb_lt; auto).
  done.
Qed.

(** With distinct labels, sorting alone gives the order. *)
Lemma sort_by_label_strict l : NoDup (map label l) → by_label (sort_by_label l).
Proof.
  intros Hnd. unfold by_label. pose proof (sort_by_label_sorted l) as Hs.
  assert (NoDup (map label (sort_by_label l))) as Hnd' by (unfold sort_by_label; by rewrite stable_sort_perm).
  induction Hs as [|x l' Hl IH Hall]; [constructor|]. cbn [map] in *.
  apply NoDup_cons in Hnd' as [Hx Hnd']. constructor; [by apply IH|].
  apply Forall_forall. intros k Hk. pose proof Hk as (y & -> & Hy)%list_elem_of_fmap.
  rewrite Forall_forall in Hall. apply Hall in Hy. cbn in Hy. apply str_leb_lt in Hy as [?|Heq]; [done|].
  exfalso. apply Hx. by rewrite Heq.
Qed.

Lemma sort_by_label_elem l x : x ∈ sort_by_label l ↔ x ∈ l.
Proof. unfold sort_by_label. by rewrite stable_sort_perm. Qed.

Lemma sort_by_label_first l k :
  head (filter (with_label k) (sort_by_label l)) = head (filter (with_label k) l).
Proof.
  unfold sort_by_label. rewrite stable_sort_stable; [done|]. intros x y -> ->. apply str_leb_lt. by right.
Qed.

Lemma by_label_NoDup l : by_label l → NoDup (map label l).
Proof.
  unfold by_label. induction 1 as [|k ks Hs IH Hall]; constructor; [|done].
  intros Hk. rewrite Forall_forall in Hall. apply Hall in Hk. by apply (irreflexivity str_lt k).
Qed.

Lemma head_filter_label l k : k ∈ map label l ↔ is_Some (head (filter (with_label k) l)).
Proof.
  rewrite list_elem_of_fmap. split.
  - intros (x & -> & Hx). destruct (filter (with_label (label x)) l) as [|y l'] eqn:Heq; [|by eexists].
    assert (x ∈ filter (with_label (label x)) l) as Hin by (by apply list_elem_of_filter). rewrite Heq in Hin. set_solver.
  - destruct (filter (with_label k) l) as [|y l'] eqn:Heq; [by intros []|]. intros _.
    assert (y ∈ filter (with_label k) l) as [Hk Hy]%list_elem_of_filter by (rewrite Heq; set_solver).
    by exists y.
Qed.
End labelled.

(** ** Iteration over a [BTreeMap] with string keys *)

Definition btree_items {A} (m : gmap string A) : list (string * A) :=
  sort_by_label fst (map_to_list m).

Lemma btree_items_elem {A} (m : gmap string A) k v : (k, v) ∈ btree_items m ↔ m !! k = Some v.
Proof. unfold btree_items, sort_by_label. by rewrite stable_sort_perm, elem_of_map_to_list. Qed.

Lemma btree_items_keys {A} (m : gmap string A) : NoDup (map fst (btree_items m)).
Proof. unfold btree_items, sort_by_label. rewrite stable_sort_perm. apply NoDup_fst_map_to_list. Qed.

(** [BTreeSet::insert] as a filter: the first element of every key is kept. *)
Section unique.
Context {A K : Type} `{EqDecision K} (key : A → K).

Fixpoint unique_after (seen : list K) (l : list A) : list A :=
  match l with
  | [] => []
  | x :: rest =>
      if bool_decide (key x ∈ seen) then unique_after seen rest
      else x :: unique_after (key x :: seen) rest
  end.

Lemma unique_after_keys seen l k :
  k ∈ map key (unique_after seen l) ↔ k ∈ map key l ∧ k ∉ seen.
Proof.
  revert seen. induction l as [|x l IH]; intros seen; cbn; [set_solver|].
  case_bool_decide; cbn; rewrite !elem_of_cons, IH; [set_solver|]. rewrite not_elem_of_cons.
  destruct (decide (k = key x)); [subst; naive_solver|naive_solver].
Qed.

Lemma unique_after_NoDup seen l : NoDup (map key (unique_after seen l)).
Proof.
  revert seen. induction l as [|x l IH]; intros seen; cbn; [constructor|].
  case_bool_decide; [done|]. cbn. constructor; [|done]. rewrite unique_after_keys. set_solver.
Qed.

Lemma unique_after_sublist seen l : unique_after seen l `sublist_of` l.
Proof.
  revert seen. induction l as [|x l IH]; intros seen; cbn; [done|].
  case_bool_decide; [by apply sublist_cons|by apply sublist_skip].
Qed.
End unique.

(** A loop over a filtered list keeps an invariant. *)
Lemma foldl_filter_invariant {A S} (P : S → Prop) (Q : A → Prop) `{!∀ x, Decision (Q x)} (f : S → A → S) l s :
  (∀ s a, a ∈ l → Q a → P s → P (f s a)) → P s → P (foldl f s (filter Q l)).
Proof.
  intros Hstep. revert s. induction l as [|a l IH]; intros s Hs; [done|]. rewrite filter_cons.
  assert (∀ s a, a ∈ l → Q a → P s → P (f s a)) as Htail by (intros; apply Hstep; [by right|done|done]).
  case_decide; [|by apply IH]. cbn [foldl]. apply IH; [done|]. apply Hstep; [by left|done|done].
Qed.
