(* ===== verification/Types.v ===== *)
(** * Domain types (crates/bazel-mcp-types)

    Commands, the invocation lifecycle, deferred results, pagination requests and
    the summary records the other components exchange.  The clock is an argument
    of the operations that read it. *)

From S2P Require Import Prelude.

(** ** Commands (command.rs) *)

Inductive CommandClass : Type := BuildLike | RunClass | QueryClass | Informational | Unsafe | Unknown.

Inductive BazelCommand : Type :=
| Build | Test | Coverage | Query | Cquery | Aquery | Info | Version | Help | Mod
| MobileInstall | Clean | Shutdown | Run | Custom (value : string).

#[export] Instance CommandClass_eq_dec : EqDecision CommandClass.
Proof. solve_decision. Defined.
#[export] Instance BazelCommand_eq_dec : EqDecision BazelCommand.
Proof. solve_decision. Defined.

Definition class (c : BazelCommand) : CommandClass :=
  match c with
  | Build | Test | Coverage | MobileInstall => BuildLike
  | Run => RunClass
  | Query | Cquery | Aquery => QueryClass
  | Info | Version | Help | Mod => Informational
  | Clean | Shutdown => Unsafe
  | Custom _ => Unknown
  end.

Definition command_as_str (c : BazelCommand) : string :=
  match c with
  | Build => "build"
  | Test => "test"
  | Coverage => "coverage"
  | Query => "query"
  | Cquery => "cquery"
  | Aquery => "aquery"
  | Info => "info"
  | Version => "version"
  | Help => "help"
  | Mod => "mod"
  | MobileInstall => "mobile-install"
  | Clean => "clean"
  | Shutdown => "shutdown"
  | Run => "run"
  | Custom value => value
  end.

(** The arms of [FromStr for BazelCommand], in order. *)
Definition named_commands : list (string * BazelCommand) :=
  [("build", Build); ("test", Test); ("coverage", Coverage); ("query", Query);
   ("cquery", Cquery); ("aquery", Aquery); ("info", Info); ("version", Version);
   ("help", Help); ("mod", Mod); ("mobile-install", MobileInstall); ("clean", Clean);
   ("shutdown", Shutdown); ("run", Run)].

Definition command_from_str (value : string) : BazelCommand :=
  match find (fun arm => bool_decide (arm.1 = value)) named_commands with
  | Some (_, command) => command
  | None => Custom value
  end.

(** ** Invocations (invocation.rs) *)

(** A UUID as its 128-bit number, which is also its order. *)
Abbreviation InvocationId := Z (only parsing).
Abbreviation PathBuf := string (only parsing).

(** [unix_timestamp_ms], given what [elapsed().map(as_millis)] returned. *)
Definition unix_timestamp_ms (elapsed_ms : option Z) : Z :=
  i64_try_from_or_max (default 0 elapsed_ms).

Record InvocationRequest : Type := MkRequest {
  request_id : InvocationId;
  workspace : PathBuf;
  startup_arguments : list string;
  command : BazelCommand;
  arguments : list string;
  target : option string;
  program_arguments : list string;
  timeout_ms : option Z;
  environment : gmap string string;
  requested_at_ms : Z;
}.

Definition new_request (id : InvocationId) (now : Z) (workspace : PathBuf)
    (command : BazelCommand) (arguments : list string) : InvocationRequest :=
  MkRequest id workspace [] command arguments None [] None ∅ now.

Inductive InvocationState : Type :=
| Queued | Starting | Running | Succeeded | Failed | Cancelled | TimedOut | Interrupted.

#[export] Instance InvocationState_eq_dec : EqDecision InvocationState.
Proof. solve_decision. Defined.

Definition state_as_str (s : InvocationState) : string :=
  match s with
  | Queued => "queued"
  | Starting => "starting"
  | Running => "running"
  | Succeeded => "succeeded"
  | Failed => "failed"
  | Cancelled => "cancelled"
  | TimedOut => "timed_out"
  | Interrupted => "interrupted"
  end.

Definition is_terminal (s : InvocationState) : bool :=
  match s with
  | Succeeded | Failed | Cancelled | TimedOut | Interrupted => true
  | _ => false
  end.

Record StateTransitionError : Type := MkTransitionError {
  current : InvocationState;
  next : InvocationState;
}.

Definition validate_transition (s next : InvocationState) : result StateTransitionError unit :=
  let valid :=
    match s, next with
    | Queued, (Starting | Cancelled | Interrupted) => true
    | Starting, (Running | Failed | Cancelled | TimedOut | Interrupted) => true
    | Running, (Succeeded | Failed | Cancelled | TimedOut | Interrupted) => true
    | _, _ => false
    end in
  if valid then Ok tt else Err (MkTransitionError s next).

Inductive Termination : Type :=
| Exit (code : Z)
| Signal (signal : Z)
| Timeout
| OutputLimit (maximum_bytes : Z)
| TerminationCancelled
| SpawnFailure (message : string)
| TerminationInterrupted.

Record InvocationMetrics : Type := MkMetrics {
  raw_output_bytes : Z;
  bep_bytes : Z;
  bep_events : Z;
  model_visible_bytes : Z;
  progress_notifications : Z;
  inspect_calls : Z;
  queue_ms : Z;
  output_base_lock_wait_ms : Z;
  bazel_wall_ms : Z;
  reduction_ms : Z;
}.
Definition default_metrics : InvocationMetrics := MkMetrics 0 0 0 0 0 0 0 0 0 0.

(** ** Results (result.rs, diagnostic.rs, test.rs, coverage.rs, query.rs, artifact.rs) *)

(** An [f64], as its bit pattern: the modelled code only moves it. *)
Abbreviation f64 := Z (only parsing).

Inductive Severity : Type := SevError | SevWarning | SevNote.
Inductive DiagnosticCategory : Type :=
| CatWorkspace | CatLoading | CatAnalysis | CatVisibility | CatAction | CatCompilation
| CatTest | CatBazel | CatUnknown.

Record DiagnosticLocation : Type := MkLocation {
  location_path : string; location_line : option Z; location_column : option Z;
}.

Record Diagnostic : Type := MkDiagnostic {
  severity : Severity;
  category : DiagnosticCategory;
  message : string;
  location : option DiagnosticLocation;
  diagnostic_target : option string;
  action : option string;
  repetition_count : Z;
}.

Inductive TestStatus : Type :=
| TestPassed | TestFailed | TestFlaky | TestSkipped | TestTimedOut | TestIncomplete | TestRemote.

Record TestCase : Type := MkTestCase {
  case_name : string; case_status : TestStatus;
  case_duration_ms : option Z; case_message : option string;
}.

Record TestResult : Type := MkTestResult {
  test_label : string;
  test_status : TestStatus;
  duration_ms : option Z;
  attempts : Z;
  shard : option Z;
  cases : list TestCase;
  test_log_available : bool;
  test_log_unavailable_reason : option string;
}.

Record CoverageFile : Type := MkCoverageFile {
  coverage_path : string; file_lines_found : Z; file_lines_hit : Z; file_percent : f64;
}.

Record CoverageSummary : Type := MkCoverage {
  lines_found : Z; lines_hit : Z; coverage_percent : f64; files : list CoverageFile;
}.

Record QueryRow : Type := MkQueryRow { ordinal : Z; value : string }.

Inductive ArtifactKind : Type := File | Directory | TestLog | CoverageArtifact | Remote.
Record Artifact : Type := MkArtifact {
  artifact_name : string; artifact_kind : ArtifactKind; uri : string;
  size_bytes : option Z; locally_available : bool;
}.

Inductive RunOutcome : Type :=
| BuildFailed | NotLaunched | RunSucceeded | ProgramFailed | CancelledDuringBuild
| CancelledDuringProgram | TimedOutDuringBuild | TimedOutDuringProgram
| OutputLimitDuringBuild | OutputLimitDuringProgram.

Record RunSummary : Type := MkRunSummary {
  run_target : string; outcome : RunOutcome;
  program_exit_code : option Z; output_excerpt : list string;
}.

Inductive InspectHint : Type :=
| HintDiagnostics | HintTests | HintTestLog | HintCoverage | HintArtifacts | HintQueryResults | HintLog.

Record TargetCounts : Type := MkTargetCounts {
  requested : Z; targets_succeeded : Z; targets_failed : Z;
}.
Record TestCounts : Type := MkTestCounts {
  passed : Z; tests_failed : Z; flaky : Z; skipped : Z; incomplete : Z;
}.
Record TargetResult : Type := MkTargetResult { target_label : string; target_success : bool }.

Record InvocationSummary : Type := MkSummary {
  success : bool;
  headline : string;
  targets : list TargetResult;
  target_counts : TargetCounts;
  diagnostics : list Diagnostic;
  tests : list TestResult;
  test_counts : TestCounts;
  coverage : option CoverageSummary;
  query_sample : list QueryRow;
  query_result_count : option Z;
  elapsed_ms : Z;
  truncated : bool;
  inspect_hint : option InspectHint;
}.

Record InvocationRecord : Type := MkRecord {
  request : InvocationRequest;
  state : InvocationState;
  started_at_ms : option Z;
  finished_at_ms : option Z;
  termination : option Termination;
  summary : option InvocationSummary;
  run : option RunSummary;
  metrics : InvocationMetrics;
  canonical_arguments : option (list string);
  cancellation_reason : option string;
}.

Definition queued (request : InvocationRequest) : InvocationRecord :=
  MkRecord request Queued None None None None None default_metrics None None.

(** [InvocationRecord::transition], at the clock reading [now]. *)
Definition transition (now : Z) (next : InvocationState) (r : InvocationRecord)
    : result StateTransitionError InvocationRecord :=
  _ ← validate_transition (state r) next;
  Ok (MkRecord (request r) next
        (if decide (next = Running) then Some now else started_at_ms r)
        (if is_terminal next then Some now else finished_at_ms r)
        (termination r) (summary r) (run r) (metrics r)
        (canonical_arguments r) (cancellation_reason r)).

(** ** Deferred results (deferred.rs) *)

Inductive DeferredRetrieval : Type := SeparateResult | InlineResult.
#[export] Instance DeferredRetrieval_eq_dec : EqDecision DeferredRetrieval.
Proof. solve_decision. Defined.

Definition retrieval_as_str (r : DeferredRetrieval) : string :=
  match r with SeparateResult => "separate_result" | InlineResult => "inline_result" end.

Inductive ResultDisposition : Type :=
| Attached
| Deferred (retrieval : DeferredRetrieval) (expires_at_ms : Z).

Inductive DeferredTerminalState : Type := DeferredCancelled.
Inductive DeferredFailureKind : Type := QueueFailure | ExecutionFailure | InternalFailure.
Record DeferredFailure : Type := MkDeferredFailure {
  failure_kind : DeferredFailureKind; redacted_message : string;
}.

Record DeferredResultRecord : Type := MkDeferred {
  invocation_id : InvocationId;
  retrieval : DeferredRetrieval;
  created_at_ms : Z;
  updated_at_ms : Z;
  expires_at_ms : Z;
  cancellation_requested_at_ms : option Z;
  terminal_override : option DeferredTerminalState;
  failure : option DeferredFailure;
}.

Definition new_deferred (invocation_id : InvocationId) (retrieval : DeferredRetrieval)
    (created_at_ms expires_at_ms : Z) : DeferredResultRecord :=
  MkDeferred invocation_id retrieval created_at_ms created_at_ms
    (Z.max expires_at_ms (i64_add created_at_ms 1)) None None None.

Definition configured_ttl_ms (d : DeferredResultRecord) : Z :=
  Z.max (i64_sub (expires_at_ms d) (updated_at_ms d)) 1.

(** [extend_terminal_expiry]: the mutated record and whether it changed. *)
Definition extend_terminal_expiry (terminal_at_ms : Z) (d : DeferredResultRecord)
    : DeferredResultRecord * bool :=
  let required := i64_add terminal_at_ms (configured_ttl_ms d) in
  if expires_at_ms d <? required then
    (MkDeferred (invocation_id d) (retrieval d) (created_at_ms d)
       (Z.max terminal_at_ms (updated_at_ms d)) required
       (cancellation_requested_at_ms d) (terminal_override d) (failure d), true)
  else (d, false).

Definition advertised_ttl_ms (d : DeferredResultRecord) : Z :=
  u64_try_from_or_max (i64_sub (expires_at_ms d) (created_at_ms d)).

Definition is_expired (now_ms : Z) (invocation_terminal : bool) (d : DeferredResultRecord) : bool :=
  invocation_terminal && (expires_at_ms d <=? now_ms).

Record DeferredResultView : Type := MkDeferredView {
  deferred : DeferredResultRecord; invocation : InvocationRecord;
}.

(** ** Pagination (pagination.rs) *)

Record PageRequest : Type := MkPageRequest {
  cursor : option string; item_limit : Z; scan_limit : Z;
}.
Definition default_page_request : PageRequest := MkPageRequest None 50 1000.
Definition new_page_request (cursor : option string) (item_limit : Z) : PageRequest :=
  MkPageRequest cursor item_limit (scan_limit default_page_request).

Record Page (T : Type) : Type := MkPage {
  items : list T;
  total_count : option Z;
  filtered_count : option Z;
  next_cursor : option string;
  page_truncated : bool;
  item_cursors : list string;
}.
Arguments MkPage {T} _ _ _ _ _ _.
Arguments items {T} _.
Arguments total_count {T} _.
Arguments filtered_count {T} _.
Arguments next_cursor {T} _.
Arguments page_truncated {T} _.
Arguments item_cursors {T} _.

(** * Theorems *)

(** ** Commands *)

Lemma find_arm_string value arm :
  find (fun arm => bool_decide (arm.1 = value)) named_commands = Some arm →
  arm.1 = value ∧ command_as_str arm.2 = value.
Proof.
  intros [Hin Hv]%find_some. apply bool_decide_eq_true in Hv. split; [done|]. subst value.
  repeat (destruct Hin as [<-|Hin]; [done|]). destruct Hin.
Qed.

Lemma command_from_str_custom value :
  command_from_str value = Custom value ↔ value ∉ named_commands.*1.
Proof.
  unfold command_from_str.
  destruct (find (fun arm => bool_decide (arm.1 = value)) named_commands) as [[n d]|] eqn:Hf.
  - pose proof (find_arm_string _ _ Hf) as [Hn Hd]. apply find_some in Hf as [Hin _].
    cbn in Hn, Hd. subst n. split.
    + intros ->. repeat (destruct Hin as [[=]|Hin]). destruct Hin.
    + intros []. apply list_elem_of_fmap. exists (value, d). split; [done|]. by apply list_elem_of_In.
  - split; [|done]. intros _ ([n d] & -> & Hin)%list_elem_of_fmap.
    pose proof (find_none _ _ Hf (n, d) (proj1 (list_elem_of_In _ _) Hin)) as Hd.
    by apply bool_decide_eq_false in Hd.
Qed.

(** A [Custom] command that [FromStr] would read as a named one. *)
Definition shadowed (c : BazelCommand) : Prop :=
  ∃ value, c = Custom value ∧ value ∈ named_commands.*1.

(** Parsing a command and printing it gives the string back, and printing
    a command and parsing it gives the command back unless it is a [Custom]
    spelled like a built-in command. *)
Theorem command_string_roundtrip (s : string) (c : BazelCommand) :
  command_as_str (command_from_str s) = s ∧
  (command_from_str (command_as_str c) = c ↔ ¬ shadowed c).
Proof.
  split.
  - unfold command_from_str. destruct (find _ _) as [[n d]|] eqn:Hf; [|done].
    by apply find_arm_string in Hf as [_ ?].
  - unfold shadowed. destruct c; try (split; [intros _ (v & [=] & _)|done]).
    cbn [command_as_str]. rewrite command_from_str_custom. naive_solver.
Qed.

(** ** The lifecycle *)

(** How far a state is from the start of an invocation. *)
Definition progress (s : InvocationState) : nat :=
  match s with Queued => 0 | Starting => 1 | Running => 2 | _ => 3 end.

Lemma validate_transition_progress s next u :
  validate_transition s next = Ok u → (progress s < progress next)%nat.
Proof. destruct s, next; simpl; try done; lia. Qed.

Lemma progress_terminal s : is_terminal s = true ↔ progress s = 3%nat.
Proof. destruct s; simpl; split; done. Qed.

Lemma transition_Ok now next r r' : transition now next r = Ok r' →
  validate_transition (state r) next = Ok tt ∧ state r' = next ∧
  started_at_ms r' = (if decide (next = Running) then Some now else started_at_ms r) ∧
  finished_at_ms r' = (if is_terminal next then Some now else finished_at_ms r) ∧
  request r' = request r.
Proof. unfold transition. intros H. inv_ok. destruct x. by simplify_eq. Qed.

(** The records an invocation goes through when only [transition] moves it. *)
Inductive lifecycle (q : InvocationRequest) : nat → InvocationRecord → Prop :=
| lifecycle_queued : lifecycle q 0 (queued q)
| lifecycle_step n r now next r' :
    lifecycle q n r → transition now next r = Ok r' → lifecycle q (S n) r'.

Lemma lifecycle_progress q n r : lifecycle q n r → (n ≤ progress (state r))%nat.
Proof.
  induction 1 as [|n r now next r' _ IH Ht]; [simpl; lia|].
  apply transition_Ok in Ht as (Hv & -> & _). apply validate_transition_progress in Hv. lia.
Qed.

(** A transition is accepted exactly when it moves forward: from a state
    that is not terminal, to the next phase or to an end, never to success
    without running and never to failure or timeout without starting; a rejected
    one reports both states. *)
Theorem validate_transition_spec (s next : InvocationState) :
  (validate_transition s next = Ok tt ↔
     is_terminal s = false ∧
     (progress next = S (progress s) ∨ is_terminal next = true) ∧
     (next = Succeeded → s = Running) ∧
     (next = Failed ∨ next = TimedOut → s ≠ Queued)) ∧
  (∀ e, validate_transition s next = Err e → e = MkTransitionError s next).
Proof.
  split; [|intros e; unfold validate_transition; destruct (match s with Queued => _ | _ => _ end); congruence].
  destruct s, next; simpl; split; intros H; try done; try (by naive_solver);
    destruct H as (? & [?|?] & ? & ?); naive_solver.
Qed.


(** ** Deferred expiry *)

(** Recording that an invocation has ended never shortens the availability
    of its deferred result, keeps it available for one time-to-live after the
    end, and doing it again for the same or an earlier end changes nothing. *)
Theorem extend_terminal_expiry_spec (t : Z) (d : DeferredResultRecord) :
  is_i64 t → is_i64 (expires_at_ms d) → is_i64 (updated_at_ms d) →
  let d' := (extend_terminal_expiry t d).1 in
  expires_at_ms d ≤ expires_at_ms d' ∧ updated_at_ms d ≤ updated_at_ms d' ∧
  is_i64 (expires_at_ms d') ∧ is_i64 (updated_at_ms d') ∧
  (∀ now, now < i64_add t (configured_ttl_ms d) → is_expired now true d' = false) ∧
  (∀ t', is_i64 t' → t' ≤ t → extend_terminal_expiry t' d' = (d', false)).
Proof.
  intros Ht He Hu. cbn zeta.
  assert (Hexp : ∀ now d, now < expires_at_ms d → is_expired now true d = false)
    by (intros; unfold is_expired; simpl; lia).
  assert (Hkeep : ∀ t d, i64_add t (configured_ttl_ms d) ≤ expires_at_ms d →
    extend_terminal_expiry t d = (d, false)).
  { intros t' d' Hle. unfold extend_terminal_expiry. by rewrite (proj2 (Z.ltb_ge _ _)). }
  destruct (Z.lt_ge_cases (expires_at_ms d) (i64_add t (configured_ttl_ms d))) as [Hlt|Hge].
  - remember (extend_terminal_expiry t d).1 as d' eqn:Hd'.
    assert (Hnew : expires_at_ms d' = i64_add t (configured_ttl_ms d) ∧
      updated_at_ms d' = Z.max t (updated_at_ms d)).
    { subst d'. unfold extend_terminal_expiry. by rewrite (proj2 (Z.ltb_lt _ _) Hlt). }
    clear Hd'. destruct Hnew as [H1 H2].
    do 4 (split; [rewrite ?H1, ?H2; unfold configured_ttl_ms in *; width|]). split.
    + intros now Hn. apply Hexp. by rewrite H1.
    + intros t' Ht' Hle. apply Hkeep. unfold configured_ttl_ms in *. rewrite H1, H2. width.
  - rewrite Hkeep by done. do 4 (split; [done|]). split.
    + intros now Hn. apply Hexp. cbn [fst]. lia.
    + intros t' Ht' Hle. apply Hkeep. cbn [fst]. unfold configured_ttl_ms in *. width.
Qed.

(** ** Witnesses *)
Definition sample_request : InvocationRequest := new_request 7 1000 "/w" Build ["//..."].


Lemma extend_terminal_expiry_spec_witness :
  expires_at_ms (new_deferred 7 InlineResult 1000 11000) ≤
  expires_at_ms (extend_terminal_expiry 20000 (new_deferred 7 InlineResult 1000 11000)).1.
Proof.
  apply (extend_terminal_expiry_spec 20000 (new_deferred 7 InlineResult 1000 11000));
    vm_compute; split; congruence.
Defined.

Example sample_extended_expiry :
  expires_at_ms (extend_terminal_expiry 20000 (new_deferred 7 InlineResult 1000 11000)).1 = 30000.
Proof. reflexivity. Qed.
