(* ===== verification/Policy.v ===== *)
(** * Policy (crates/bazel-mcp-policy, all but redaction.rs)

    Which commands, arguments, workspaces, executables and environment variables
    a request may use.  The file system is an interface ([FileSystem]); the
    executable search of the [which] crate and regular-expression compilation are
    parameters of the operations that use them. *)

From S2P Require Import Prelude Types.
From Stdlib Require Import Ascii.

(** ** Errors (lib.rs) *)

Inductive PolicyError (IoError RegexError : Type) : Type :=
| WorkspaceNotAbsolute (path : string)
| WorkspaceNotAllowed (path : string)
| NotBazelWorkspace (path : string)
| CommandDenied (command : string)
| CommandUnsupported (command : string)
| ReservedFlag (flag : string)
| InvalidArgument
| RunTargetRequired
| InvalidRunTarget
| RunArgumentsMustBeFlags
| RunFieldsOnNonRunCommand
| RunUnsupportedPlatform
| ArgumentTooLong (maximum_bytes : Z)
| TooManyArguments (maximum_count : Z)
| ArgumentsTooLarge (maximum_bytes : Z)
| IncompatibleQueryOutput (output : string)
| MissingOutputBaseValue
| RepeatedOutputBase
| ExecutableNotFound (path : string)
| AspectExecutableNotFound (path : string)
| AspectReservedArgument (argument : string)
| AspectWorkspaceMutationDenied
| ExecutableRecursion (path : string)
| InvalidRedaction (pattern : string) (source : RegexError)
| PolicyIo (error : IoError).
Arguments WorkspaceNotAbsolute {_ _} _.
Arguments WorkspaceNotAllowed {_ _} _.
Arguments NotBazelWorkspace {_ _} _.
Arguments CommandDenied {_ _} _.
Arguments CommandUnsupported {_ _} _.
Arguments ReservedFlag {_ _} _.
Arguments InvalidArgument {_ _}.
Arguments RunTargetRequired {_ _}.
Arguments InvalidRunTarget {_ _}.
Arguments RunArgumentsMustBeFlags {_ _}.
Arguments RunFieldsOnNonRunCommand {_ _}.
Arguments RunUnsupportedPlatform {_ _}.
Arguments ArgumentTooLong {_ _} _.
Arguments TooManyArguments {_ _} _.
Arguments ArgumentsTooLarge {_ _} _.
Arguments IncompatibleQueryOutput {_ _} _.
Arguments MissingOutputBaseValue {_ _}.
Arguments RepeatedOutputBase {_ _}.
Arguments ExecutableNotFound {_ _} _.
Arguments AspectExecutableNotFound {_ _} _.
Arguments AspectReservedArgument {_ _} _.
Arguments AspectWorkspaceMutationDenied {_ _}.
Arguments ExecutableRecursion {_ _} _.
Arguments InvalidRedaction {_ _} _ _.
Arguments PolicyIo {_ _} _.

(** ** Paths

    The part of [std::path] (on Unix) the policy uses. *)

Inductive Component : Type := RootDir | CurDir | ParentDir | Normal (name : string).
#[export] Instance Component_eq_dec : EqDecision Component.
Proof. solve_decision. Defined.

Fixpoint split_slash (s : string) : list string :=
  match s with
  | EmptyString => [""]
  | String c rest =>
      if Ascii.eqb c "/"%char then "" :: split_slash rest
      else match split_slash rest with
           | [] => [String c ""]
           | segment :: segments => String c segment :: segments
           end
  end.

Definition segment_component (segment : string) : list Component :=
  if bool_decide (segment = "") || bool_decide (segment = ".") then []
  else if bool_decide (segment = "..") then [ParentDir]
  else [Normal segment].

(** [Path::is_absolute]. *)
Definition is_absolute (path : string) : bool := starts_with path "/".

(** [Path::components]: repeated separators and inner [.] disappear, a leading
    [.] of a relative path stays. *)
Definition components (path : string) : list Component :=
  let segments := split_slash path in
  let inner := concat (map segment_component segments) in
  if is_absolute path then RootDir :: inner
  else match segments with
       | "." :: _ => CurDir :: inner
       | _ => inner
       end.

(** [Path::join]. *)
Definition join (base path : string) : string :=
  if is_absolute path || bool_decide (base = "") then path
  else if bool_decide (String.substring (String.length base - 1) 1 base = "/") then base +:+ path
  else base +:+ "/" +:+ path.

(** [Path::starts_with], component-wise. *)
Definition path_starts_with (path base : string) : bool :=
  bool_decide (components base `prefix_of` components path).

(** [Path] equality, component-wise. *)
Definition path_eq (a b : string) : bool := bool_decide (components a = components b).

(** What the operating system answers about paths. *)
Class FileSystem (IoError : Type) : Type := {
  canonicalize : string → result IoError string;
  symlink_metadata : string → result IoError unit;
  (** [metadata].ok() with [is_file()] and the permission bits of the mode. *)
  metadata : string → option (bool * Z);
  is_not_found : IoError → bool;
  other_error : string → IoError;
}.

Definition is_file {IoError} `{FileSystem IoError} (path : string) : bool :=
  match metadata path with Some (file, _) => file | None => false end.

(** ** Configuration (config.rs) *)

Record PolicyConfig : Type := MkPolicyConfig {
  allowed_roots : list string;
  allowed_commands : gset string;
  denied_commands : gset string;
  environment_allowlist : gset string;
  redaction_patterns : list string;
  bazel_executable : option string;
}.

Definition default_allowed_commands : gset string :=
  list_to_set ["aquery"; "build"; "coverage"; "cquery"; "help"; "info"; "mod"; "query"; "test"; "version"].

Definition default_denied_commands : gset string :=
  list_to_set ["clean"; "fetch"; "mobile-install"; "run"; "shutdown"; "sync"].

Definition default_policy_config : PolicyConfig :=
  MkPolicyConfig [] default_allowed_commands default_denied_commands ∅ [] None.

(** [RawPolicyConfig] has the same fields before validation. *)
Record RawPolicyConfig : Type := MkRawPolicyConfig {
  raw_allowed_roots : list string;
  raw_allowed_commands : gset string;
  raw_denied_commands : gset string;
  raw_environment_allowlist : gset string;
  raw_redaction_patterns : list string;
  raw_bazel_executable : option string;
}.

Definition default_raw_policy_config : RawPolicyConfig :=
  let config := default_policy_config in
  MkRawPolicyConfig (allowed_roots config) (allowed_commands config) (denied_commands config)
    (environment_allowlist config) (redaction_patterns config) (bazel_executable config).

Section policy.
Context {IoError RegexError : Type}.
Abbreviation PolicyError := (PolicyError IoError RegexError).

(** The traversal of [Redactor::new] that compiles the patterns. *)
Definition compile_patterns {Regex} (compile : string → result RegexError Regex)
    : list string → result PolicyError (list Regex) :=
  fix go patterns :=
    match patterns with
    | [] => Ok []
    | pattern :: rest =>
        match compile pattern with
        | Err source => Err (InvalidRedaction pattern source)
        | Ok regex => regexes ← go rest; Ok (regex :: regexes)
        end
    end.

(** [PolicyConfig::validate]. *)
Definition validate_config {Regex} (compile : string → result RegexError Regex)
    (config : PolicyConfig) : result PolicyError unit :=
  _ ← compile_patterns compile (redaction_patterns config); Ok tt.

(** [TryFrom<RawPolicyConfig> for PolicyConfig]. *)
Definition try_from_raw {Regex} (compile : string → result RegexError Regex)
    (raw : RawPolicyConfig) : result PolicyError PolicyConfig :=
  let config := MkPolicyConfig (raw_allowed_roots raw) (raw_allowed_commands raw)
    (raw_denied_commands raw) (raw_environment_allowlist raw) (raw_redaction_patterns raw)
    (raw_bazel_executable raw) in
  _ ← validate_config compile config;
  Ok config.

(** ** Commands (command.rs) *)

Definition validate_command (config : PolicyConfig) (command : BazelCommand)
    : result PolicyError unit :=
  _ ← reject_if (bool_decide (command_as_str command ∈ denied_commands config))
        (CommandDenied (command_as_str command));
  reject_if (bool_decide (command_as_str command ∉ allowed_commands config))
    (CommandUnsupported (command_as_str command)).

(** ** Flags (flags.rs) *)

Definition MAX_ARGUMENT_BYTES : Z := 64 * 1024.
Definition MAX_ARGUMENT_COUNT : Z := 10000.
Definition MAX_ARGUMENTS_BYTES : Z := 2 * 1024 * 1024.

Definition RESERVED_FLAGS : list string :=
  ["--build_event_binary_file";
   "--build_event_binary_file_path_conversion";
   "--build_event_publish_all_actions";
   "--build_event_json_file";
   "--build_event_text_file";
   "--color";
   "--curses";
   "--invocation_id";
   "--show_progress";
   "--show_result";
   "--subcommands";
   "--nosubcommands";
   "-s";
   "--run";
   "--norun";
   "--script_path";
   "--omit_run_args";
   "--noomit_run_args";
   "--experimental_run_bep_event_include_residue";
   "--noexperimental_run_bep_event_include_residue";
   "--run_under";
   "--run_env";
   "--test_output";
   "--test_summary";
   "--tool_tag"].

(** [argument == flag || argument.starts_with("{flag}=")]. *)
Definition is_flag (argument flag : string) : bool :=
  bool_decide (argument = flag) || starts_with argument (flag +:+ "=").

Definition find_reserved (argument : string) : option string :=
  find (is_flag argument) RESERVED_FLAGS.

Fixpoint argument_shape_loop (arguments : list string) (total_bytes : Z) : result PolicyError unit :=
  match arguments with
  | [] => Ok tt
  | argument :: rest =>
      _ ← reject_if (bool_decide (0 ∈ bytes_of argument)) InvalidArgument;
      _ ← reject_if (MAX_ARGUMENT_BYTES <? str_len argument) (ArgumentTooLong MAX_ARGUMENT_BYTES);
      let total_bytes := u64_add total_bytes (str_len argument) in
      _ ← reject_if (MAX_ARGUMENTS_BYTES <? total_bytes) (ArgumentsTooLarge MAX_ARGUMENTS_BYTES);
      argument_shape_loop rest total_bytes
  end.

Definition validate_argument_shape (arguments : list string) : result PolicyError unit :=
  _ ← reject_if (MAX_ARGUMENT_COUNT <? Z.of_nat (length arguments)) (TooManyArguments MAX_ARGUMENT_COUNT);
  argument_shape_loop arguments 0.

Definition reject_reserved (argument : string) : result PolicyError unit :=
  match find_reserved argument with
  | Some flag => Err (ReservedFlag flag)
  | None => Ok tt
  end.

Definition validate_arguments (arguments : list string) : result PolicyError unit :=
  _ ← validate_argument_shape arguments;
  for_each reject_reserved arguments.

(** The body of the loop of [validate_aspect_arguments]. *)
Definition validate_aspect_argument (command : BazelCommand) (allow_workspace_mutation : bool)
    (argument : string) : result PolicyError unit :=
  _ ← reject_if (existsb (is_flag argument) ["--task:id"; "--task:timing-summary"])
        (AspectReservedArgument argument);
  _ ← reject_if (is_flag argument "--bazel-startup-flag")
        (AspectReservedArgument "--bazel-startup-flag (use startup_arguments instead)");
  _ ← reject_if (bool_decide (argument = "--bazel-flag"))
        (AspectReservedArgument "--bazel-flag requires the --bazel-flag=... form");
  _ ← match strip_prefix "--bazel-flag=" argument with
      | Some nested =>
          _ ← reject_reserved nested;
          reject_if (existsb (is_flag nested) ["--bes_backend"; "--bes_upload_mode"])
            (AspectReservedArgument nested)
      | None => Ok tt
      end;
  _ ← reject_if (bool_decide (argument = "--bes-header"))
        (AspectReservedArgument "--bes-header requires the --bes-header=... form");
  _ ← match strip_prefix "--bes-header=" argument with
      | Some header =>
          let '(name, _) := default (header, "") (split_once "="%char header) in
          reject_if (eq_ignore_ascii_case name "x-bazel-mcp-invocation-id")
            (AspectReservedArgument "--bes-header=x-bazel-mcp-invocation-id=...")
      | None => Ok tt
      end;
  reject_if (bool_decide (command_as_str command = "lint") && negb allow_workspace_mutation
             && is_flag argument "--fix")
    AspectWorkspaceMutationDenied.

Definition validate_aspect_arguments (command : BazelCommand) (arguments : list string)
    (allow_workspace_mutation : bool) : result PolicyError unit :=
  for_each (validate_aspect_argument command allow_workspace_mutation) arguments.

(** [str::trim().is_empty()]: every character has the Unicode [White_Space]
    property; these are the UTF-8 encodings of those characters. *)
Fixpoint is_blank (bytes : list Z) : bool :=
  match bytes with
  | [] => true
  | a :: rest =>
      if ((9 <=? a) && (a <=? 13)) || (a =? 32) then is_blank rest
      else match rest with
           | [] => false
           | b :: rest =>
               if (a =? 0xC2) && ((b =? 0x85) || (b =? 0xA0)) then is_blank rest
               else match rest with
                    | [] => false
                    | c :: rest =>
                        if ((a =? 0xE1) && (b =? 0x9A) && (c =? 0x80))
                           || ((a =? 0xE2) && (b =? 0x80) &&
                               (((0x80 <=? c) && (c <=? 0x8A)) || (c =? 0xA8) || (c =? 0xA9) || (c =? 0xAF)))
                           || ((a =? 0xE2) && (b =? 0x81) && (c =? 0x9F))
                           || ((a =? 0xE3) && (b =? 0x80) && (c =? 0x80))
                        then is_blank rest else false
                    end
           end
  end.

(** [validate_run_arguments]; [unix] is the compile-time platform. *)
Definition validate_run_arguments (unix : bool) (command : BazelCommand) (arguments : list string)
    (target : option string) (program_arguments : list string) : result PolicyError unit :=
  if decide (command ≠ Run) then
    reject_if (bool_decide (is_Some target) || negb (bool_decide (program_arguments = [])))
      RunFieldsOnNonRunCommand
  else if negb unix then Err RunUnsupportedPlatform
  else
    target ← ok_or (target ≫= fun t => if is_blank (bytes_of t) then None else Some t) RunTargetRequired;
    _ ← validate_argument_shape [target];
    _ ← reject_if (starts_with target "-" || bool_decide (target = "--")) InvalidRunTarget;
    _ ← reject_if (existsb (fun argument => bool_decide (argument = "--") || negb (starts_with argument "-"))
                     arguments) RunArgumentsMustBeFlags;
    validate_argument_shape program_arguments.

Definition is_proto_output (output : string) : bool :=
  existsb (fun o => bool_decide (output = o)) ["proto"; "streamed_proto"; "jsonproto"; "streamed_jsonproto"].

(** The index loop of [validate_query_arguments]: [--output] takes the next
    argument, whatever it is, and skips it. *)
Fixpoint query_arguments_loop (arguments : list string) : result PolicyError unit :=
  match arguments with
  | [] => Ok tt
  | argument :: rest =>
      if decide (argument = "--output") then
        match rest with
        | [] => Ok tt
        | output :: rest =>
            _ ← reject_if (is_proto_output output) (IncompatibleQueryOutput output);
            query_arguments_loop rest
        end
      else
        _ ← match strip_prefix "--output=" argument with
            | Some output => reject_if (is_proto_output output) (IncompatibleQueryOutput output)
            | None => Ok tt
            end;
        query_arguments_loop rest
  end.

Definition validate_query_arguments (command : BazelCommand) (arguments : list string)
    : result PolicyError unit :=
  if decide (class command ≠ QueryClass) then Ok tt else query_arguments_loop arguments.

(** ** The output base (flags.rs) *)

Context `{FS : FileSystem IoError}.

(** A normalised path: whether it has a root, and its names. *)
Definition normalize_step (path : bool * list string) (component : Component) : bool * list string :=
  match component with
  | CurDir => path
  | ParentDir => (path.1, removelast path.2)
  | RootDir => (true, [])
  | Normal name => (path.1, path.2 ++ [name])
  end.
Definition normalize_absolute (path : string) : bool * list string :=
  foldl normalize_step (false, []) (components path).

Definition render (rooted : bool) (names : list string) : string :=
  (if rooted then "/" else "") +:+ String.concat "/" names.

(** The loop of [canonicalize_with_missing_tail], on the reversed names of
    [existing]; [missing] is the tail, topmost first. *)
Fixpoint canonicalize_ancestor (rooted : bool) (existing missing : list string)
    : result PolicyError string :=
  let path := render rooted (rev existing) in
  match symlink_metadata path with
  | Ok _ =>
      match canonicalize path with
      | Ok canonical => Ok (foldl join canonical missing)
      | Err error => Err (PolicyIo error)
      end
  | Err error =>
      if is_not_found error then
        match existing with
        | [] => Err (PolicyIo (other_error "output base has no existing ancestor"))
        | name :: parent => canonicalize_ancestor rooted parent (name :: missing)
        end
      else Err (PolicyIo error)
  end.

Definition canonicalize_with_missing_tail (path : string) : result PolicyError string :=
  let '(rooted, names) := normalize_absolute path in
  canonicalize_ancestor rooted (rev names) [].

(** The body of the loop of [effective_output_base] once a value is found. *)
Definition select_output_base (workspace value : string) (selected : option string)
    : result PolicyError (option string) :=
  _ ← reject_if (bool_decide (is_Some selected)) RepeatedOutputBase;
  let absolute := if is_absolute value then value else join workspace value in
  canonical ← canonicalize_with_missing_tail absolute;
  Ok (Some canonical).

Fixpoint output_base_loop (workspace : string) (startup_arguments : list string)
    (selected : option string) : result PolicyError (option string) :=
  match startup_arguments with
  | [] => Ok selected
  | argument :: rest =>
      if decide (argument = "--output_base") then
        match rest with
        | [] => Err MissingOutputBaseValue
        | value :: rest =>
            selected ← select_output_base workspace value selected;
            output_base_loop workspace rest selected
        end
      else
        selected ← match strip_prefix "--output_base=" argument with
                   | Some value => select_output_base workspace value selected
                   | None => Ok selected
                   end;
        output_base_loop workspace rest selected
  end.

Definition effective_output_base (workspace : string) (startup_arguments : list string)
    : result PolicyError (option string) :=
  output_base_loop workspace startup_arguments None.

(** ** Environment (environment.rs) *)

Definition ALWAYS_ALLOWED : list string := ["HOME"; "PATH"; "TMPDIR"; "TEMP"; "TMP"; "USER"].

Definition is_allowed (name : string) (config : PolicyConfig) (windows : bool) : bool :=
  if windows then
    eq_ignore_ascii_case name "SystemRoot"
    || existsb (eq_ignore_ascii_case name) ALWAYS_ALLOWED
    || existsb (eq_ignore_ascii_case name) (elements (environment_allowlist config))
  else bool_decide (name ∈ ALWAYS_ALLOWED) || bool_decide (name ∈ environment_allowlist config).

(** [filtered_environment], of the variables [std::env::vars()] enumerates; a
    later duplicate wins. *)
Definition filtered_environment (config : PolicyConfig) (windows : bool)
    (vars : list (string * string)) : gmap string string :=
  foldl (fun env '(name, value) => <[name := value]> env) ∅
    (filter (fun var => is_allowed var.1 config windows = true) vars).

(** ** Workspaces (workspace.rs) *)

Definition WORKSPACE_MARKERS : list string := ["MODULE.bazel"; "WORKSPACE.bazel"; "WORKSPACE"].

Definition under_root (canonical root : string) : bool :=
  match canonicalize root with
  | Ok canonical_root => path_starts_with canonical canonical_root
  | Err _ => false
  end.

Definition validate_workspace (workspace : string) (allowed_roots : list string)
    : result PolicyError string :=
  _ ← reject_if (negb (is_absolute workspace)) (WorkspaceNotAbsolute workspace);
  canonical ← match canonicalize workspace with
              | Ok canonical => Ok canonical
              | Err error => Err (PolicyIo error)
              end;
  _ ← reject_if (negb (bool_decide (allowed_roots = [])) && negb (existsb (under_root canonical) allowed_roots))
        (WorkspaceNotAllowed canonical);
  _ ← reject_if (negb (existsb (fun marker => is_file (join canonical marker)) WORKSPACE_MARKERS))
        (NotBazelWorkspace canonical);
  Ok canonical.

(** ** Executables (executable.rs) *)

Definition is_excluded (candidate : string) (excluded : option string) : bool :=
  match excluded with
  | None => false
  | Some excluded =>
      match canonicalize candidate, canonicalize excluded with
      | Ok candidate, Ok excluded => path_eq candidate excluded
      | _, _ => path_eq candidate excluded
      end
  end.

(** [executable]; [unix] is the compile-time platform, 73 is [0o111]. *)
Definition executable (unix : bool) (path : string) : option string :=
  '(file, mode) ← metadata path;
  if negb file then None
  else if unix && (Z.land mode 73 =? 0) then None
  else Some path.

(** [which_all] is [which::which_all(name).ok()], the candidates on [PATH]. *)
Definition resolve_bazel_executable_excluding (unix : bool) (which_all : string → option (list string))
    (workspace : string) (config : PolicyConfig) (excluded : option string)
    : result PolicyError string :=
  match bazel_executable config with
  | Some path =>
      path ← ok_or (executable unix path) (ExecutableNotFound path);
      _ ← reject_if (is_excluded path excluded) (ExecutableRecursion path);
      Ok path
  | None =>
      let acceptable path := negb (is_excluded path excluded) in
      match executable unix (join workspace "tools/bazel") with
      | Some path => if acceptable path then Ok path else
          ok_or (find acceptable (concat (map (fun name => default [] (which_all name)) ["bazelisk"; "bazel"])))
            (ExecutableNotFound workspace)
      | None =>
          ok_or (find acceptable (concat (map (fun name => default [] (which_all name)) ["bazelisk"; "bazel"])))
            (ExecutableNotFound workspace)
      end
  end.

Definition resolve_bazel_executable (unix : bool) (which_all : string → option (list string))
    (workspace : string) (config : PolicyConfig) : result PolicyError string :=
  resolve_bazel_executable_excluding unix which_all workspace config None.

(** [which_in] is [which::which_in("aspect", PATH, current_dir).ok()]; it is
    [None] as well when the current directory cannot be read. *)
Definition resolve_aspect_executable (unix : bool) (which_in : option string)
    (configured : option string) : result PolicyError string :=
  match configured with
  | Some path => ok_or (executable unix path) (AspectExecutableNotFound path)
  | None => ok_or which_in (AspectExecutableNotFound "aspect")
  end.

(** ** Argument validation *)

(** An argument is the flag [flag], alone or with a value. *)
Definition names_flag (argument flag : string) : Prop :=
  argument = flag ∨ ∃ value, argument = ((flag +:+ "=") +:+ value).

Definition names_reserved_flag (argument : string) : Prop :=
  ∃ flag, flag ∈ RESERVED_FLAGS ∧ names_flag argument flag.

Definition total_bytes (arguments : list string) : Z :=
  foldr (fun argument total => str_len argument + total) 0 arguments.

Definition well_shaped (arguments : list string) : Prop :=
  Z.of_nat (length arguments) ≤ 10000 ∧ total_bytes arguments ≤ 2097152 ∧
  Forall (fun argument => (0 ∉ bytes_of argument) ∧ str_len argument ≤ 65536) arguments.

Lemma is_flag_true argument flag : is_flag argument flag = true ↔ names_flag argument flag.
Proof.
  unfold is_flag, names_flag.
  by rewrite orb_true_iff, bool_decide_eq_true, starts_with_true.
Qed.

Lemma is_flag_false argument flag : is_flag argument flag = false ↔ ¬ names_flag argument flag.
Proof. by rewrite <- is_flag_true, not_true_iff_false. Qed.

Lemma existsb_is_flag_false argument f g :
  existsb (is_flag argument) [f; g] = false ↔ ¬ names_flag argument f ∧ ¬ names_flag argument g.
Proof. simpl. by rewrite orb_false_r, orb_false_iff, !is_flag_false. Qed.

Lemma find_reserved_None argument : find_reserved argument = None ↔ ¬ names_reserved_flag argument.
Proof.
  unfold find_reserved, names_reserved_flag. split.
  - intros Hnone (flag & Hin%list_elem_of_In & Hflag%is_flag_true).
    pose proof (find_none _ _ Hnone _ Hin). congruence.
  - intros Hno. destruct (find _ _) as [flag|] eqn:Hfind; [|done].
    apply find_some in Hfind as [Hin%list_elem_of_In Hflag%is_flag_true]. naive_solver.
Qed.

Lemma reject_reserved_Ok argument :
  reject_reserved argument = Ok tt ↔ ¬ names_reserved_flag argument.
Proof.
  rewrite <- find_reserved_None. unfold reject_reserved.
  by destruct (find_reserved argument).
Qed.

Lemma reject_if_bind {A} c (e : PolicyError) (r : result PolicyError A) a :
  (reject_if c e ≫= fun _ => r) = Ok a ↔ c = false ∧ r = Ok a.
Proof. destruct c; simpl; naive_solver. Qed.

Lemma bind_unit_Ok {A} (r : result PolicyError unit) (k : result PolicyError A) a :
  (r ≫= fun _ => k) = Ok a ↔ r = Ok tt ∧ k = Ok a.
Proof. destruct r as [[]|]; simpl; naive_solver. Qed.

Lemma total_bytes_nonneg arguments : 0 ≤ total_bytes arguments.
Proof.
  induction arguments as [|argument rest IH]; simpl; [done|].
  pose proof (str_len_nonneg argument). lia.
Qed.

Lemma argument_shape_loop_Ok arguments total : 0 ≤ total ≤ MAX_ARGUMENTS_BYTES →
  argument_shape_loop arguments total = Ok tt ↔
  total + total_bytes arguments ≤ MAX_ARGUMENTS_BYTES ∧
  Forall (fun argument => (0 ∉ bytes_of argument) ∧ str_len argument ≤ MAX_ARGUMENT_BYTES) arguments.
Proof.
  revert total. induction arguments as [|argument rest IH]; intros total Htotal; simpl.
  { split; [|done]. intros _. split; [lia|constructor]. }
  rewrite !reject_if_bind, Forall_cons, bool_decide_eq_false, !Z.ltb_ge.
  pose proof (str_len_nonneg argument). pose proof (total_bytes_nonneg rest).
  destruct (decide (str_len argument ≤ MAX_ARGUMENT_BYTES)); [|naive_solver].
  rewrite (u64_add_exact total) by (unfold MAX_ARGUMENTS_BYTES, MAX_ARGUMENT_BYTES in *; width).
  destruct (decide (total + str_len argument ≤ MAX_ARGUMENTS_BYTES)).
  - rewrite (IH (total + str_len argument)) by lia.
    rewrite Z.add_assoc. naive_solver.
  - split; intros Hall; exfalso; [naive_solver|lia].
Qed.

Lemma validate_argument_shape_Ok arguments :
  validate_argument_shape arguments = Ok tt ↔ well_shaped arguments.
Proof.
  unfold validate_argument_shape, well_shaped.
  rewrite reject_if_bind, Z.ltb_ge, argument_shape_loop_Ok by (unfold MAX_ARGUMENTS_BYTES; lia).
  done.
Qed.

Lemma validate_arguments_Ok arguments :
  validate_arguments arguments = Ok tt ↔
  well_shaped arguments ∧ Forall (fun argument => ¬ names_reserved_flag argument) arguments.
Proof.
  unfold validate_arguments.
  rewrite bind_unit_Ok, validate_argument_shape_Ok, for_each_Ok.
  by setoid_rewrite reject_reserved_Ok.
Qed.

(** The Bazel arguments of a request are accepted exactly when there are at
    most 10,000 of them, of at most 64 KiB each and 2 MiB in total, none
    contains a NUL byte, and none is a flag the server reserves for itself, in
    its plain or in its [--flag=value] form. *)
Theorem validate_arguments_spec arguments :
  validate_arguments arguments = Ok tt ↔
  well_shaped arguments ∧ Forall (fun argument => ¬ names_reserved_flag argument) arguments.
Proof. apply validate_arguments_Ok. Qed.

(** What the wrapper arguments of an Aspect task may not contain. *)
Definition aspect_argument_allowed (command : BazelCommand) (allow_workspace_mutation : bool)
    (argument : string) : Prop :=
  ¬ names_flag argument "--task:id" ∧ ¬ names_flag argument "--task:timing-summary" ∧
  ¬ names_flag argument "--bazel-startup-flag" ∧
  argument ≠ "--bazel-flag" ∧ argument ≠ "--bes-header" ∧
  (∀ nested, argument = ("--bazel-flag=" +:+ nested) →
     ¬ names_reserved_flag nested ∧ ¬ names_flag nested "--bes_backend" ∧
     ¬ names_flag nested "--bes_upload_mode") ∧
  (∀ header, argument = ("--bes-header=" +:+ header) →
     eq_ignore_ascii_case (default (header, "") (split_once "="%char header)).1
       "x-bazel-mcp-invocation-id" = false) ∧
  (command_as_str command = "lint" → allow_workspace_mutation = false →
   ¬ names_flag argument "--fix").

Lemma strip_prefix_case p s (f : string → result PolicyError unit) :
  match strip_prefix p s with Some r => f r | None => Ok tt end = Ok tt ↔
  ∀ r, s = (p +:+ r) → f r = Ok tt.
Proof.
  setoid_rewrite <- strip_prefix_Some.
  destruct (strip_prefix p s); naive_solver.
Qed.

Lemma reject_identity_header_Ok header (e : PolicyError) :
  (let '(name, _) := default (header, "") (split_once "="%char header) in
   reject_if (eq_ignore_ascii_case name "x-bazel-mcp-invocation-id") e) = Ok tt ↔
  eq_ignore_ascii_case (default (header, "") (split_once "="%char header)).1
    "x-bazel-mcp-invocation-id" = false.
Proof. destruct (default _ _). apply reject_if_Ok. Qed.

Lemma lint_fix_denied command mutation argument :
  bool_decide (command_as_str command = "lint") && negb mutation && is_flag argument "--fix" = false ↔
  (command_as_str command = "lint" → mutation = false → ¬ names_flag argument "--fix").
Proof.
  rewrite <- is_flag_false.
  case_bool_decide; destruct mutation, (is_flag argument "--fix"); simpl; intuition congruence.
Qed.

Lemma validate_aspect_argument_Ok command mutation argument :
  validate_aspect_argument command mutation argument = Ok tt ↔
  aspect_argument_allowed command mutation argument.
Proof.
  unfold validate_aspect_argument, aspect_argument_allowed.
  rewrite !bind_unit_Ok, !strip_prefix_case, !reject_if_Ok, !bool_decide_eq_false,
    !is_flag_false, existsb_is_flag_false, lint_fix_denied.
  setoid_rewrite bind_unit_Ok. setoid_rewrite reject_if_Ok.
  setoid_rewrite reject_reserved_Ok. setoid_rewrite existsb_is_flag_false.
  setoid_rewrite reject_identity_header_Ok.
  tauto.
Qed.

Lemma validate_aspect_arguments_Ok command arguments allow_workspace_mutation :
  validate_aspect_arguments command arguments allow_workspace_mutation = Ok tt ↔
  Forall (aspect_argument_allowed command allow_workspace_mutation) arguments.
Proof.
  unfold validate_aspect_arguments. rewrite for_each_Ok.
  by setoid_rewrite validate_aspect_argument_Ok.
Qed.

(** The arguments of an Aspect task are accepted exactly when none supplies
    the task identity, a startup flag, a reserved or BES flag nested under
    [--bazel-flag=], or the invocation-identity header in any letter case, and,
    for [lint] without the mutation grant, none is [--fix]. *)
Theorem validate_aspect_arguments_spec command arguments allow_workspace_mutation :
  validate_aspect_arguments command arguments allow_workspace_mutation = Ok tt ↔
  Forall (aspect_argument_allowed command allow_workspace_mutation) arguments.
Proof. apply validate_aspect_arguments_Ok. Qed.

Lemma existsb_options arguments :
  existsb (fun argument => bool_decide (argument = "--") || negb (starts_with argument "-")) arguments
    = false ↔
  Forall (fun argument => starts_with argument "-" = true ∧ argument ≠ "--") arguments.
Proof.
  induction arguments as [|argument rest IH]; simpl; [split; auto|].
  rewrite orb_false_iff, orb_false_iff, negb_false_iff, bool_decide_eq_false, Forall_cons, IH.
  tauto.
Qed.

(** On Unix a [run] request is accepted exactly when it names a target that
    is not blank, not an option and well shaped, every command argument is an
    option other than [--] (so none can become a second target or cross the
    program-argument boundary), and the program arguments are well shaped; every
    other command is accepted exactly when it carries no run field. *)
Theorem validate_run_arguments_spec command arguments target program_arguments :
  validate_run_arguments true command arguments target program_arguments = Ok tt ↔
  if decide (command = Run) then
    (∃ t, target = Some t ∧ is_blank (bytes_of t) = false ∧ well_shaped [t] ∧
          starts_with t "-" = false) ∧
    Forall (fun argument => starts_with argument "-" = true ∧ argument ≠ "--") arguments ∧
    well_shaped program_arguments
  else target = None ∧ program_arguments = [].
Proof.
  unfold validate_run_arguments. destruct (decide (command ≠ Run)) as [Hrun | Hrun];
    destruct (decide (command = Run)) as [Heq | Heq]; [done | | | by destruct Hrun].
  - rewrite reject_if_Ok, orb_false_iff, negb_false_iff, bool_decide_eq_true, bool_decide_eq_false.
    by rewrite eq_None_not_Some.
  - destruct target as [t|]; simpl; [|split; [done|naive_solver]].
    destruct (is_blank (bytes_of t)) eqn:Hblank; simpl.
    { split; [done|]. intros [(t' & [= <-] & Hnot & _) _]. congruence. }
    rewrite bind_unit_Ok, !reject_if_bind, !validate_argument_shape_Ok, orb_false_iff,
      bool_decide_eq_false, existsb_options.
    split.
    { intros (? & [? ?] & ? & ?). split_and!; [exists t; by split_and!|done|done]. }
    intros ((t' & [= <-] & _ & Hshape & Hdash) & Harguments & Hprogram).
    split_and!; try done. by intros ->.
Qed.

(** ** Query output formats *)

(** [Selects arguments output]: Bazel reads [output] as the value of an
    [--output] option of [arguments], in either form. *)
Inductive Selects : list string → string → Prop :=
| Selects_separate output rest : Selects ("--output" :: output :: rest) output
| Selects_joined output rest : Selects (("--output=" +:+ output) :: rest) output
| Selects_skip value rest output :
    Selects rest output → Selects ("--output" :: value :: rest) output
| Selects_next argument rest output :
    argument ≠ "--output" → Selects rest output → Selects (argument :: rest) output.

Lemma query_arguments_loop_Ok arguments :
  query_arguments_loop arguments = Ok tt ↔
  ∀ output, Selects arguments output → is_proto_output output = false.
Proof.
  induction arguments as [arguments IH] using (induction_ltof1 _ (@length string)).
  unfold ltof in IH. destruct arguments as [|argument rest]; cbn [query_arguments_loop].
  { split; [|done]. intros _ output Hsel. inversion Hsel. }
  destruct (decide (argument = "--output")) as [-> | Hne].
  - destruct rest as [|value rest].
    { split; [|done]. intros _ output Hsel. by inversion Hsel. }
    rewrite reject_if_bind, IH by (simpl; lia). split.
    + intros [Hvalue Hrest] output Hsel. by inversion Hsel; subst; auto.
    + intros Hall. split; [apply Hall; constructor|]. intros output Hsel.
      apply Hall. by apply Selects_skip.
  - rewrite bind_unit_Ok, IH, strip_prefix_case by (simpl; lia). setoid_rewrite reject_if_Ok. split.
    + intros [Hjoined Hrest] output Hsel. inversion Hsel; subst; auto; done.
    + intros Hall. split.
      * intros output ->. apply Hall. constructor.
      * intros output Hsel. apply Hall. by apply Selects_next.
Qed.

(** ** Workspaces *)

(** A workspace is accepted, as [canonical], exactly when its path is
    absolute and canonicalises to [canonical], some allowed root (if any is
    configured) canonicalises to a component-wise prefix of [canonical], and
    [canonical] directly holds one of the workspace marker files. *)
Theorem validate_workspace_spec workspace roots canonical :
  validate_workspace workspace roots = Ok canonical ↔
  is_absolute workspace = true ∧ canonicalize workspace = Ok canonical ∧
  (roots = [] ∨ ∃ root canonical_root, root ∈ roots ∧ canonicalize root = Ok canonical_root ∧
     components canonical_root `prefix_of` components canonical) ∧
  ∃ marker, marker ∈ WORKSPACE_MARKERS ∧ is_file (join canonical marker) = true.
Proof.
  unfold validate_workspace. rewrite reject_if_bind, negb_false_iff.
  destruct (canonicalize workspace) as [path|error] eqn:Hpath; cbn [mbind result_bind];
    [|naive_solver].
  rewrite !reject_if_bind, negb_false_iff, andb_false_iff, !negb_false_iff, bool_decide_eq_true,
    !existsb_exists.
  setoid_rewrite <- list_elem_of_In.
  assert (Hroots : ∀ root, under_root path root = true ↔
    ∃ canonical_root, canonicalize root = Ok canonical_root ∧
      components canonical_root `prefix_of` components path).
  { intros root. unfold under_root, path_starts_with.
    destruct (canonicalize root); [rewrite bool_decide_eq_true|]; naive_solver. }
  setoid_rewrite Hroots. naive_solver.
Qed.

(** ** The output base *)

(** [key] is the lock key of [path]: the longest existing ancestor of the
    normalised path, canonicalised, with the missing names below it. *)
Definition OutputBaseKey (path key : string) : Prop :=
  ∃ rooted ancestor missing canonical,
    normalize_absolute path = (rooted, ancestor ++ missing) ∧
    symlink_metadata (render rooted ancestor) = Ok tt ∧
    canonicalize (render rooted ancestor) = Ok canonical ∧
    key = foldl join canonical missing ∧
    (∀ n, (0 < n ≤ length missing)%nat →
       ∃ error, symlink_metadata (render rooted (ancestor ++ take n missing)) = Err error ∧
                is_not_found error = true).

Lemma canonicalize_ancestor_Ok rooted existing missing key :
  canonicalize_ancestor rooted existing missing = Ok key →
  ∃ ancestor more canonical,
    rev existing = ancestor ++ more ∧
    symlink_metadata (render rooted ancestor) = Ok tt ∧
    canonicalize (render rooted ancestor) = Ok canonical ∧
    key = foldl join canonical (more ++ missing) ∧
    (∀ n, (0 < n ≤ length more)%nat →
       ∃ error, symlink_metadata (render rooted (ancestor ++ take n more)) = Err error ∧
                is_not_found error = true).
Proof.
  revert missing. induction existing as [|name parent IH]; intros missing;
    cbn [canonicalize_ancestor]; case_eqn; try case_eqn; try done.
  1,2: intros [= <-]; destruct a; eexists _, [], _; split_and!;
    [symmetry; apply app_nil_r|eassumption|eassumption|done|simpl; lia].
  intros (ancestor & more & canonical & Hrev & Hexists & Hcanonical & -> & Hmissing)%IH.
  exists ancestor, (more ++ [name]), canonical. split_and!; try done.
  - simpl. by rewrite Hrev, app_assoc.
  - by rewrite <- app_assoc.
  - intros n Hn. rewrite length_app in Hn. simpl in Hn.
    destruct (decide (n ≤ length more)%nat).
    + rewrite take_app_le by lia. apply Hmissing. lia.
    + rewrite take_ge by (rewrite length_app; simpl; lia).
      rewrite app_assoc, <- Hrev. eauto.
Qed.

Lemma canonicalize_ancestor_complete rooted ancestor more missing canonical :
  symlink_metadata (render rooted ancestor) = Ok tt →
  canonicalize (render rooted ancestor) = Ok canonical →
  (∀ n, (0 < n ≤ length more)%nat →
     ∃ error, symlink_metadata (render rooted (ancestor ++ take n more)) = Err error ∧
              is_not_found error = true) →
  canonicalize_ancestor rooted (rev (ancestor ++ more)) missing = Ok (foldl join canonical (more ++ missing)).
Proof.
  intros Hexists Hcanonical. revert missing.
  induction more as [|name more IH] using rev_ind; intros missing Hmissing.
  - rewrite app_nil_r. rewrite <- (rev_involutive ancestor) in Hexists, Hcanonical.
    destruct (rev ancestor); cbn [canonicalize_ancestor]; by rewrite Hexists, Hcanonical.
  - rewrite app_assoc, rev_unit. cbn [canonicalize_ancestor rev].
    rewrite rev_involutive.
    destruct (Hmissing (length (more ++ [name]))) as (error & Herror & Hnot).
    { rewrite length_app. simpl. lia. }
    rewrite take_ge in Herror by done. rewrite app_assoc in Herror. rewrite Herror, Hnot.
    rewrite IH; [by rewrite <- app_assoc|].
    intros n Hn. destruct (Hmissing n) as (error' & Herror' & Hnot').
    { rewrite length_app. lia. }
    rewrite take_app_le in Herror' by lia. eauto.
Qed.

Lemma canonicalize_with_missing_tail_Ok path key :
  canonicalize_with_missing_tail path = Ok key ↔ OutputBaseKey path key.
Proof.
  unfold canonicalize_with_missing_tail, OutputBaseKey. split.
  - destruct (normalize_absolute path) as [rooted names].
    intros (ancestor & more & canonical & Hrev & ? & ? & Hkey & ?)%canonicalize_ancestor_Ok.
    rewrite rev_involutive in Hrev. rewrite app_nil_r in Hkey. subst names.
    by exists rooted, ancestor, more, canonical.
  - intros (rooted & ancestor & missing & canonical & -> & ? & ? & -> & ?).
    rewrite canonicalize_ancestor_complete with (canonical := canonical) by done.
    by rewrite app_nil_r.
Qed.

(** [OutputBases arguments values]: Bazel reads [values] as the values of the
    [--output_base] options of the startup arguments, in either form. *)
Inductive OutputBases : list string → list string → Prop :=
| OutputBases_nil : OutputBases [] []
| OutputBases_separate value rest values :
    OutputBases rest values → OutputBases ("--output_base" :: value :: rest) (value :: values)
| OutputBases_joined value rest values :
    OutputBases rest values → OutputBases (("--output_base=" +:+ value) :: rest) (value :: values)
| OutputBases_other argument rest values :
    argument ≠ "--output_base" → starts_with argument "--output_base=" = false →
    OutputBases rest values → OutputBases (argument :: rest) values.

Definition SelectedBase (workspace : string) (selected : option string) (values : list string)
    (outcome : option string) : Prop :=
  match values with
  | [] => outcome = selected
  | [value] => selected = None ∧ ∃ key, outcome = Some key ∧
      OutputBaseKey (if is_absolute value then value else join workspace value) key
  | _ => False
  end.

Lemma select_output_base_Ok workspace value selected outcome :
  select_output_base workspace value selected = Ok outcome ↔
  selected = None ∧ ∃ key, outcome = Some key ∧
    OutputBaseKey (if is_absolute value then value else join workspace value) key.
Proof.
  setoid_rewrite <- canonicalize_with_missing_tail_Ok.
  unfold select_output_base. rewrite reject_if_bind, bool_decide_eq_false, <- eq_None_not_Some.
  destruct (canonicalize_with_missing_tail _); simpl; naive_solver.
Qed.

Lemma SelectedBase_cons workspace value selected values outcome :
  SelectedBase workspace selected (value :: values) outcome ↔
  ∃ mid, select_output_base workspace value selected = Ok mid ∧
         SelectedBase workspace mid values outcome.
Proof.
  setoid_rewrite select_output_base_Ok. destruct values as [|value' [|value'' values]]; simpl.
  - naive_solver.
  - split; [done|]. intros (mid & (_ & key & -> & _) & Hmid & _). done.
  - naive_solver.
Qed.

Lemma output_base_loop_Ok workspace arguments selected outcome :
  output_base_loop workspace arguments selected = Ok outcome ↔
  ∃ values, OutputBases arguments values ∧ SelectedBase workspace selected values outcome.
Proof.
  revert selected.
  induction arguments as [arguments IH] using (induction_ltof1 _ (@length string)).
  unfold ltof in IH. intros selected.
  destruct arguments as [|argument rest]; cbn [output_base_loop].
  { split.
    - intros [= <-]. exists []. split; [constructor|done].
    - intros (values & Hvalues & Hselected). inversion Hvalues; subst. by rewrite Hselected. }
  destruct (decide (argument = "--output_base")) as [-> | Hne].
  - destruct rest as [|value rest].
    { split; [done|]. intros (values & Hvalues & _). by inversion Hvalues. }
    split.
    + intros (mid & Hmid & Hloop)%bind_Ok_inv. rewrite IH in Hloop by (simpl; lia).
      destruct Hloop as (values & Hvalues & Hselected). exists (value :: values).
      split; [by constructor|]. apply SelectedBase_cons. eauto.
    + intros (values & Hvalues & Hselected). inversion Hvalues; subst; [|done].
      apply SelectedBase_cons in Hselected as (mid & Hmid & Hselected). rewrite Hmid. simpl.
      rewrite IH by (simpl; lia). eauto.
  - destruct (strip_prefix "--output_base=" argument) as [value|] eqn:Hstrip.
    + apply strip_prefix_Some in Hstrip as ->. split.
      * intros (mid & Hmid & Hloop)%bind_Ok_inv. rewrite IH in Hloop by (simpl; lia).
        destruct Hloop as (values & Hvalues & Hselected). exists (value :: values).
        split; [by constructor|]. apply SelectedBase_cons. eauto.
      * intros (values & Hvalues & Hselected).
        inversion Hvalues as [| |? ? ? ? Heq|]; simplify_eq/=.
        apply SelectedBase_cons in Hselected as (mid & Hmid & Hselected). rewrite Hmid. simpl.
        rewrite IH by (simpl; lia). eauto.
    + simpl. rewrite IH by (simpl; lia). split.
      * intros (values & ? & ?). exists values. split; [|done]. constructor; [done| |done].
        unfold starts_with. by rewrite Hstrip.
      * intros (values & Hvalues & ?). inversion Hvalues; subst; [done| |eauto].
        exfalso. assert (strip_prefix "--output_base=" ("--output_base=" +:+ value) = Some value)
          by by apply strip_prefix_Some. congruence.
Qed.

(** The scheduler lock key of a request is absent exactly when no startup
    argument selects an output base, and is [key] exactly when one does (in the
    joined or in the separate form, resolved against the workspace) and [key] is
    its longest existing ancestor, canonicalised, followed by the missing names;
    a second [--output_base], or one without its value, is never accepted. *)
Theorem effective_output_base_spec workspace startup_arguments outcome :
  effective_output_base workspace startup_arguments = Ok outcome ↔
  ∃ values, OutputBases startup_arguments values ∧ SelectedBase workspace None values outcome.
Proof. apply output_base_loop_Ok. Qed.

(** ** Environment *)

Lemma foldl_insert_lookup (vars : list (string * string)) (env : gmap string string) name value :
  foldl (fun env '(name, value) => <[name := value]> env) env vars !! name = Some value ↔
  (∃ pre post, vars = pre ++ (name, value) :: post ∧ name ∉ post.*1) ∨
  (env !! name = Some value ∧ name ∉ vars.*1).
Proof.
  revert env. induction vars as [|[n v] vars IH] using rev_ind; intros env.
  - simpl. split; [by right; split; [done|apply not_elem_of_nil]|].
    intros [(pre & post & Hnil & _) | [? _]]; [by destruct pre|done].
  - rewrite foldl_snoc, fmap_app. destruct (decide (n = name)) as [-> | Hne].
    + rewrite lookup_insert_eq. split.
      * intros [= ->]. left. exists vars, []. split; [done|apply not_elem_of_nil].
      * intros [(pre & post & Heq & Hpost) | [_ Hnot]]; [|exfalso; apply Hnot; set_solver].
        destruct post as [|[n' v'] post _] using rev_ind.
        { apply app_inj_tail in Heq as [_ Heq]. by simplify_eq. }
        rewrite app_comm_cons, app_assoc in Heq. apply app_inj_tail in Heq as [_ [= -> ->]].
        exfalso. apply Hpost. rewrite fmap_app. set_solver.
    + rewrite lookup_insert_ne by done. rewrite IH. split.
      * intros [(pre & post & -> & Hpost) | [? ?]]; [left|right; set_solver].
        exists pre, (post ++ [(n, v)]). split; [by rewrite <- app_assoc|].
        rewrite fmap_app. set_solver.
      * intros [(pre & post & Heq & Hpost) | [? ?]]; [left|right; set_solver].
        destruct post as [|[n' v'] post _] using rev_ind.
        { apply app_inj_tail in Heq as [_ Heq]. by simplify_eq. }
        rewrite app_comm_cons, app_assoc in Heq. apply app_inj_tail in Heq as [-> _].
        exists pre, post. split; [done|]. rewrite fmap_app in Hpost. set_solver.
Qed.

Lemma filtered_environment_lookup config windows vars name value :
  filtered_environment config windows vars !! name = Some value →
  is_allowed name config windows = true ∧ (name, value) ∈ vars.
Proof.
  unfold filtered_environment. rewrite foldl_insert_lookup, lookup_empty.
  intros [(pre & post & Heq & _) | [? _]]; [|done].
  assert ((name, value) ∈ filter (fun var => is_allowed var.1 config windows = true) vars)
    as [Hallowed Hin]%list_elem_of_filter; [rewrite Heq; set_solver|done].
Qed.

(** ** Executables *)

Lemma find_acceptable_Ok unix which_all workspace config excluded path :
  bazel_executable config = None →
  resolve_bazel_executable_excluding unix which_all workspace config excluded = Ok path →
  is_excluded path excluded = false ∧
  (executable unix (join workspace "tools/bazel") = Some path ∨
   ∃ name candidates, name ∈ ["bazelisk"; "bazel"] ∧ which_all name = Some candidates ∧ path ∈ candidates).
Proof.
  intros Hconfig. unfold resolve_bazel_executable_excluding. rewrite Hconfig.
  assert (Hsearch : ∀ e : PolicyError,
    ok_or (find (fun path => negb (is_excluded path excluded))
      (concat (map (fun name => default [] (which_all name)) ["bazelisk"; "bazel"]))) e = Ok path →
    is_excluded path excluded = false ∧
    ∃ name candidates, name ∈ ["bazelisk"; "bazel"] ∧ which_all name = Some candidates ∧ path ∈ candidates).
  { intros e [Hin Hok]%ok_or_Ok%find_some. split; [by apply negb_true_iff|].
    apply list_elem_of_In, list_elem_of_In, in_concat in Hin as (candidates & Hmap & Hin).
    apply in_map_iff in Hmap as (name & <- & Hname). exists name.
    destruct (which_all name) as [candidates|]; simpl in Hin; [|done].
    exists candidates. split_and!; [by apply list_elem_of_In|done|by apply list_elem_of_In]. }
  destruct (executable unix _) as [wrapper|] eqn:Hwrapper; [|naive_solver].
  case_match eqn:Hexcluded; [|naive_solver].
  intros [= <-]. apply negb_true_iff in Hexcluded. auto.
Qed.

(** The Bazel executable that is resolved is never the excluded one (the
    agent shim itself, compared by canonical path where both exist): it is the
    configured executable, or the executable workspace wrapper, or a candidate
    found on the search path. *)
Theorem resolve_bazel_executable_never_excluded unix which_all workspace config excluded path
    (Hresolved : resolve_bazel_executable_excluding unix which_all workspace config excluded = Ok path) :
  is_excluded path excluded = false ∧
  match bazel_executable config with
  | Some configured => path = configured ∧ executable unix configured = Some configured
  | None =>
      executable unix (join workspace "tools/bazel") = Some path ∨
      ∃ name candidates, name ∈ ["bazelisk"; "bazel"] ∧ which_all name = Some candidates ∧ path ∈ candidates
  end.
Proof.
  destruct (bazel_executable config) as [configured|] eqn:Hconfig.
  - unfold resolve_bazel_executable_excluding in Hresolved. rewrite Hconfig in Hresolved.
    destruct (executable unix configured) as [found|] eqn:Hfound; [|done]. simpl in Hresolved.
    apply reject_if_bind in Hresolved as [Hexcluded [= ->]].
    assert (path = configured) as ->; [|done].
    unfold executable in Hfound. destruct (metadata configured) as [[file mode]|]; [|done].
    simpl in Hfound. repeat case_match; by simplify_eq.
  - by eapply find_acceptable_Ok.
Qed.
End policy.

Module PolicyExamples.
(** A file system with one workspace, [/w], one wrapper and the shim. *)
#[local] Instance example_fs : FileSystem string := {|
  canonicalize path := if decide (path ∈ ["/w"; "/w/tools/bazel"; "/bin/bazel"; "/bin/shim"]) then Ok path
    else Err "not found";
  symlink_metadata path := if decide (path ∈ ["/"; "/w"]) then Ok tt else Err "not found";
  metadata path := if decide (path ∈ ["/w/MODULE.bazel"; "/w/tools/bazel"]) then Some (true, 493) else None;
  is_not_found error := bool_decide (error = "not found");
  other_error message := message |}.

Lemma resolve_bazel_executable_never_excluded_witness :
  resolve_bazel_executable_excluding (RegexError := unit) true (fun _ => Some ["/bin/shim"; "/bin/bazel"])
    "/w" default_policy_config (Some "/w/tools/bazel") = Ok "/bin/shim" ∧
  is_excluded "/bin/shim" (Some "/w/tools/bazel") = false.
Proof.
  split; [vm_compute; reflexivity|].
  exact (proj1 (resolve_bazel_executable_never_excluded (RegexError := unit) (FS := example_fs) true
    (fun _ => Some ["/bin/shim"; "/bin/bazel"]) "/w" default_policy_config (Some "/w/tools/bazel")
    "/bin/shim" ltac:(vm_compute; reflexivity))).
Defined.

Example workspace_accepted :
  validate_workspace (RegexError := unit) "/w" ["/"; "/w"] = Ok "/w".
Proof. vm_compute. reflexivity. Qed.

Example output_base_missing_tail :
  effective_output_base (RegexError := unit) "/w" ["--output_base"; "out/../cache//x"]
  = Ok (Some "/w/cache/x").
Proof. vm_compute. reflexivity. Qed.
End PolicyExamples.
