(* ===== verification/Redaction.v ===== *)
(** * Redaction (crates/bazel-mcp-policy/src/redaction.rs)

    The redactor replaces every match of every configured pattern, bounding the
    result at each pass.  The regular-expression engine is a parameter: an
    interface [RegexEngine] with the documented laws of [Regex::find_iter].

    A [str] is the list of its bytes, a byte offset a [nat]: [saturating_sub] is
    then [nat] subtraction, and the one [saturating_add] adds ten to a length of
    at most [isize::MAX], so it is exact.  Slicing at a bad offset panics; [None]
    is that outcome. *)

From S2P Require Import Prelude Types Policy.

(** ** Strings as bytes *)

(** A UTF-8 continuation byte: [(byte as i8) < -0x40]. *)
Definition is_continuation (byte : Z) : bool := (0x80 <=? byte) && (byte <=? 0xBF).

(** [str::is_char_boundary]. *)
Definition is_char_boundary (value : list Z) (index : nat) : bool :=
  bool_decide (index = 0%nat) || bool_decide (index = length value) ||
  match value !! index with Some byte => negb (is_continuation byte) | None => false end.

(** [&value[start..end]], [None] when it panics. *)
Definition str_slice (value : list Z) (start end_ : nat) : option (list Z) :=
  if decide (start ≤ end_ ≤ length value)%nat then
    if is_char_boundary value start && is_char_boundary value end_
    then Some (take (end_ - start) (drop start value)) else None
  else None.

(** ** The regular-expression engine *)

Record Match : Type := MkMatch { match_start : nat; match_end : nat }.

Class RegexEngine (Regex : Type) : Type := {
  find_iter : Regex → list Z → list Match;
}.

(** What the engine documents of [find_iter]: successive, non-overlapping
    matches of the haystack, each on character boundaries. *)
Fixpoint Matches (value : list Z) (previous_end : nat) (matches : list Match) : Prop :=
  match matches with
  | [] => True
  | m :: rest =>
      (previous_end ≤ match_start m ≤ match_end m)%nat ∧ (match_end m ≤ length value)%nat ∧
      is_char_boundary value (match_start m) = true ∧ is_char_boundary value (match_end m) = true ∧
      Matches value (match_end m) rest
  end.

(** ** Operations *)

(** The [boundary] loop of [push_bounded]. *)
Fixpoint floor_boundary (value : list Z) (boundary : nat) : nat :=
  if is_char_boundary value boundary then boundary
  else match boundary with O => O | S boundary => floor_boundary value boundary end.

(** [push_bounded]: the output and whether the whole value fitted. *)
Definition push_bounded (output value : list Z) (maximum_bytes : nat) : list Z * bool :=
  let remaining := (maximum_bytes - length output)%nat in
  if (length value <=? remaining)%nat then (output ++ value, true)
  else (output ++ take (floor_boundary value remaining) value, false).

Definition REPLACEMENT : list Z := bytes_of "[REDACTED]".

(** The loop of [replace_all_bounded] over the matches, and its last push. *)
Fixpoint replace_matches (matches : list Match) (value : list Z) (maximum_bytes : nat)
    (previous_end : nat) (output : list Z) : option (list Z) :=
  match matches with
  | [] =>
      gap ← str_slice value previous_end (length value);
      Some (push_bounded output gap maximum_bytes).1
  | matched :: rest =>
      gap ← str_slice value previous_end (match_start matched);
      let '(output, fitted) := push_bounded output gap maximum_bytes in
      if negb fitted then Some output
      else if (maximum_bytes <? length output + length REPLACEMENT)%nat then Some output
      else replace_matches rest value maximum_bytes (match_end matched) (output ++ REPLACEMENT)
  end.

Section redactor.
Context {Regex : Type} `{Engine : RegexEngine Regex}.

Record Redactor : Type := MkRedactor { patterns : list Regex }.

(** [Redactor::new]; [compile] is [Regex::new]. *)
Definition new_redactor {IoError RegexError} (compile : string → result RegexError Regex)
    (sources : list string) : result (PolicyError IoError RegexError) Redactor :=
  compiled ← compile_patterns compile sources; Ok (MkRedactor compiled).

Definition replace_all_bounded (pattern : Regex) (value : list Z) (maximum_bytes : nat)
    : option (list Z) :=
  replace_matches (find_iter pattern value) value maximum_bytes 0 [].

(** [redact_bounded_into]: every pass reads the bounded output of the pass
    before it (the buffers are swapped). *)
Fixpoint redact_passes (patterns : list Regex) (output : list Z) (maximum_bytes : nat)
    : option (list Z) :=
  match patterns with
  | [] => Some output
  | pattern :: rest =>
      output ← replace_all_bounded pattern output maximum_bytes;
      redact_passes rest output maximum_bytes
  end.

Definition redact_bounded_into (redactor : Redactor) (value : list Z) (maximum_bytes : nat)
    : option (list Z) :=
  match patterns redactor with
  | [] => Some (push_bounded [] value maximum_bytes).1
  | first :: rest =>
      output ← replace_all_bounded first value maximum_bytes;
      redact_passes rest output maximum_bytes
  end.

Definition redact_bounded (redactor : Redactor) (value : list Z) (maximum_bytes : nat)
    : option (list Z) :=
  redact_bounded_into redactor value maximum_bytes.

Definition redact (redactor : Redactor) (value : list Z) : option (list Z) :=
  redact_bounded redactor value (Nat.max (length value) (length REPLACEMENT)).
End redactor.
Arguments Redactor : clear implicits.

(** ** Reference: unbounded replacement *)

(** The redacted text: the gaps between the matches, separated by the
    replacement. *)
Fixpoint redacted (matches : list Match) (value : list Z) (previous_end : nat) : list Z :=
  match matches with
  | [] => drop previous_end value
  | matched :: rest =>
      take (match_start matched - previous_end) (drop previous_end value) ++ REPLACEMENT ++
      redacted rest value (match_end matched)
  end.

(** [shown] is what a bound of [maximum_bytes] leaves of [full]: a prefix that
    fits, cut between characters, and all of [full] when that fits. *)
Definition BoundedPrefix (full shown : list Z) (maximum_bytes : nat) : Prop :=
  shown `prefix_of` full ∧ (length shown ≤ maximum_bytes)%nat ∧
  is_char_boundary full (length shown) = true ∧
  ((length full ≤ maximum_bytes)%nat → shown = full).

(** ** Lemmas *)

Lemma floor_boundary_spec value boundary :
  is_char_boundary value (floor_boundary value boundary) = true ∧
  (floor_boundary value boundary ≤ boundary)%nat.
Proof.
  induction boundary as [|boundary IH]; cbn [floor_boundary].
  - by replace (is_char_boundary value 0) with true by done.
  - case_match; [done|]. destruct IH. split; [done|lia].
Qed.

(** A cut of the last part of a text is a cut of the text, when the part starts
    with a character. *)
Lemma boundary_app before after index :
  is_char_boundary after index = true →
  (∀ byte, after !! 0%nat = Some byte → is_continuation byte = false) →
  is_char_boundary (before ++ after) (length before + index) = true.
Proof.
  unfold is_char_boundary. intros Hafter Hfirst.
  rewrite lookup_app_r by lia. replace (length before + index - length before)%nat with index by lia.
  rewrite length_app. destruct (after !! index) as [byte|] eqn:Hbyte.
  - destruct (decide (index = 0%nat)) as [-> | Hne].
    + rewrite (Hfirst _ Hbyte). by rewrite !orb_true_r.
    + pose proof (lookup_lt_Some _ _ _ Hbyte).
      rewrite !bool_decide_false in Hafter by lia. simpl in Hafter. by rewrite Hafter, !orb_true_r.
  - apply lookup_ge_None in Hbyte. rewrite !orb_true_iff, !bool_decide_eq_true in Hafter |- *.
    left. right. destruct Hafter as [[-> | ->] | ?]; [|lia|done]. lia.
Qed.

Definition starts_char (value : list Z) : Prop :=
  ∀ byte, value !! 0%nat = Some byte → is_continuation byte = false.

Lemma starts_char_drop value index :
  starts_char value → is_char_boundary value index = true → starts_char (drop index value).
Proof.
  intros Hstart Hboundary byte Hbyte. rewrite lookup_drop, Nat.add_0_r in Hbyte.
  destruct (decide (index = 0%nat)) as [-> | Hne]; [by apply Hstart|].
  pose proof (lookup_lt_Some _ _ _ Hbyte). unfold is_char_boundary in Hboundary.
  rewrite !bool_decide_false, Hbyte in Hboundary by lia. by apply negb_true_iff in Hboundary.
Qed.

Lemma starts_char_take value n : starts_char value → starts_char (take n value).
Proof.
  intros Hstart byte Hbyte. apply Hstart. apply lookup_take_Some in Hbyte. tauto.
Qed.

Lemma boundary_prefix value more index :
  (index < length value)%nat → is_char_boundary value index = true →
  is_char_boundary (value ++ more) index = true.
Proof.
  unfold is_char_boundary. intros Hindex. rewrite lookup_app_l by done.
  rewrite (bool_decide_false (index = length value)) by lia.
  rewrite !orb_true_iff. naive_solver.
Qed.

Lemma push_bounded_cut output gap more maximum_bytes :
  (length output ≤ maximum_bytes)%nat → starts_char gap →
  (push_bounded output gap maximum_bytes).2 = false →
  BoundedPrefix (output ++ gap ++ more) (push_bounded output gap maximum_bytes).1 maximum_bytes.
Proof.
  intros Houtput Hstart. unfold push_bounded.
  destruct (Nat.leb_spec (length gap) (maximum_bytes - length output)); [done|]. intros _. simpl.
  destruct (floor_boundary_spec gap (maximum_bytes - length output)) as [Hboundary Hfloor].
  set (k := floor_boundary gap (maximum_bytes - length output)) in *.
  unfold BoundedPrefix. rewrite !length_app, length_take_le by lia. split_and!.
  - apply prefix_app. exists (drop k gap ++ more). by rewrite app_assoc, take_drop.
  - lia.
  - apply boundary_app.
    + apply boundary_prefix; [lia|done].
    + intros byte Hbyte. apply Hstart. by rewrite lookup_app_l in Hbyte by lia.
  - lia.
Qed.

Lemma push_bounded_fits output gap maximum_bytes :
  (push_bounded output gap maximum_bytes).2 = true →
  (push_bounded output gap maximum_bytes).1 = output ++ gap ∧
  ((length output ≤ maximum_bytes)%nat → (length (output ++ gap) ≤ maximum_bytes)%nat).
Proof.
  unfold push_bounded. destruct (Nat.leb_spec (length gap) (maximum_bytes - length output)); [|done].
  intros _. split; [done|]. rewrite length_app. lia.
Qed.

Lemma BoundedPrefix_full full maximum_bytes :
  (length full ≤ maximum_bytes)%nat → BoundedPrefix full full maximum_bytes.
Proof.
  intros Hfits. split_and!; try done. unfold is_char_boundary.
  by rewrite (bool_decide_true (length full = length full)), orb_true_r by done.
Qed.

Lemma str_slice_Some value start end_ :
  (start ≤ end_ ≤ length value)%nat → is_char_boundary value start = true →
  is_char_boundary value end_ = true →
  str_slice value start end_ = Some (take (end_ - start) (drop start value)).
Proof. intros ? Hs He. unfold str_slice. rewrite decide_True by done. by rewrite Hs, He. Qed.

Lemma is_char_boundary_end value : is_char_boundary value (length value) = true.
Proof. unfold is_char_boundary. by rewrite (bool_decide_true (length value = length value)), orb_true_r. Qed.

(** The boundary before the replacement, which starts with a character. *)
Lemma BoundedPrefix_before_replacement output more maximum_bytes :
  (length output ≤ maximum_bytes)%nat → (maximum_bytes < length output + length REPLACEMENT)%nat →
  BoundedPrefix (output ++ REPLACEMENT ++ more) output maximum_bytes.
Proof.
  intros Houtput Hover. split_and!; [by apply prefix_app_r|done| |].
  - rewrite <- (Nat.add_0_r (length output)). apply boundary_app; [done|].
    by intros byte [= <-].
  - rewrite !length_app. lia.
Qed.

Lemma replace_matches_spec matches value maximum_bytes previous_end output :
  starts_char value → Matches value previous_end matches → (previous_end ≤ length value)%nat →
  is_char_boundary value previous_end = true → (length output ≤ maximum_bytes)%nat →
  ∃ shown, replace_matches matches value maximum_bytes previous_end output = Some shown ∧
    BoundedPrefix (output ++ redacted matches value previous_end) shown maximum_bytes.
Proof.
  intros Hstart. revert previous_end output.
  induction matches as [|matched rest IH]; intros previous_end output Hmatches Hend Hboundary Houtput;
    cbn [replace_matches redacted].
  - rewrite str_slice_Some by (try lia; auto using is_char_boundary_end). simpl.
    rewrite take_ge by (rewrite length_drop; lia). eexists. split; [done|].
    destruct ((push_bounded output (drop previous_end value) maximum_bytes).2) eqn:Hfits.
    + apply push_bounded_fits in Hfits as [-> Hlength]. by apply BoundedPrefix_full, Hlength.
    + apply (push_bounded_cut output (drop previous_end value) []) in Hfits;
        [by rewrite app_nil_r in Hfits|done|by apply starts_char_drop].
  - destruct Hmatches as (Horder & Hin & Hms & Hme & Hrest).
    rewrite str_slice_Some by (try lia; done). cbn [mbind option_bind].
    set (gap := take _ (drop previous_end value)).
    assert (starts_char gap) by by apply starts_char_take, starts_char_drop.
    destruct (push_bounded output gap maximum_bytes) as [output' fitted] eqn:Hpush.
    assert (Hcut := push_bounded_cut output gap (REPLACEMENT ++ redacted rest value (match_end matched))
                      maximum_bytes Houtput).
    assert (Hfits := push_bounded_fits output gap maximum_bytes). rewrite Hpush in Hcut, Hfits.
    destruct fitted; simpl negb; cbv iota; [|eauto].
    destruct (Hfits eq_refl) as [Heq Hlength]. simpl in Heq. subst output'.
    specialize (Hlength Houtput). rewrite app_assoc. set (before := output ++ gap) in *.
    destruct (Nat.ltb_spec maximum_bytes (length before + length REPLACEMENT)).
    + eexists. split; [done|]. by apply BoundedPrefix_before_replacement.
    + rewrite app_assoc. apply IH; [done|lia|done|]. rewrite length_app. lia.
Qed.

Lemma starts_char_redacted matches value previous_end :
  starts_char value → Matches value previous_end matches →
  is_char_boundary value previous_end = true →
  starts_char (redacted matches value previous_end).
Proof.
  intros Hstart. destruct matches as [|matched rest]; intros Hmatches Hboundary;
    cbn [redacted].
  { by apply starts_char_drop. }
  intros byte Hbyte. apply lookup_app_Some in Hbyte as [Hbyte | [_ Hbyte]].
  - by eapply starts_char_take; [apply starts_char_drop|].
  - rewrite lookup_app_l in Hbyte; [|simpl; lia].
    destruct (0 - _)%nat eqn:Hzero; [by injection Hbyte as <-|lia].
Qed.

Lemma starts_char_prefix value shown : shown `prefix_of` value → starts_char value → starts_char shown.
Proof. intros Hprefix Hstart byte Hbyte. apply Hstart. by eapply prefix_lookup_Some. Qed.

Section laws.
Context {Regex : Type} `{Engine : RegexEngine Regex}.

(** The documented behaviour of the engine.  Every [str] satisfies [starts_char]
    (valid UTF-8 does not begin inside a character). *)
Definition FindIterLaw : Prop :=
  ∀ pattern value, starts_char value → Matches value 0 (find_iter (Regex := Regex) pattern value).

(** [shown] results from redacting [value] with the patterns one after the
    other, the result of each pass bounded. *)
Fixpoint RedactionChain (patterns : list Regex) (value shown : list Z) (maximum_bytes : nat) : Prop :=
  match patterns with
  | [] => shown = value
  | pattern :: rest =>
      ∃ middle, BoundedPrefix (redacted (find_iter pattern value) value 0) middle maximum_bytes ∧
                RedactionChain rest middle shown maximum_bytes
  end.

Hypothesis Hlaw : FindIterLaw.

Lemma replace_all_bounded_spec pattern value maximum_bytes :
  starts_char value →
  ∃ shown, replace_all_bounded pattern value maximum_bytes = Some shown ∧ starts_char shown ∧
    BoundedPrefix (redacted (find_iter pattern value) value 0) shown maximum_bytes.
Proof.
  intros Hstart. specialize (Hlaw pattern value Hstart).
  destruct (replace_matches_spec (find_iter pattern value) value maximum_bytes 0 [])
    as (shown & Hshown & Hbounded); [done|done|lia|done|simpl; lia|].
  exists shown. split_and!; [done| |done].
  eapply starts_char_prefix; [apply Hbounded|]. by apply starts_char_redacted.
Qed.

Lemma redact_passes_spec patterns value maximum_bytes :
  starts_char value → (length value ≤ maximum_bytes)%nat →
  ∃ shown, redact_passes patterns value maximum_bytes = Some shown ∧
    (length shown ≤ maximum_bytes)%nat ∧ RedactionChain patterns value shown maximum_bytes.
Proof.
  revert value. induction patterns as [|pattern rest IH]; intros value Hstart Hfits; simpl; [eauto|].
  destruct (replace_all_bounded_spec pattern value maximum_bytes Hstart)
    as (middle & -> & Hmiddle & Hbounded). simpl.
  destruct (IH middle Hmiddle) as (shown & -> & Hlength & Hchain); [apply Hbounded|]. eauto 6.
Qed.

(** Redaction never panics and never returns more than [maximum_bytes]
    bytes.  Without patterns the result is the longest bounded prefix of the
    value cut between characters; with patterns each pass yields a bounded,
    character-aligned prefix of its input in which every match is replaced, and
    all of that text when it fits. *)
Theorem redact_bounded_spec (redactor : Redactor Regex) value maximum_bytes
    (Hvalue : starts_char value) :
  ∃ shown, redact_bounded redactor value maximum_bytes = Some shown ∧
    (length shown ≤ maximum_bytes)%nat ∧
    match patterns redactor with
    | [] => BoundedPrefix value shown maximum_bytes
    | patterns => RedactionChain patterns value shown maximum_bytes
    end.
Proof.
  unfold redact_bounded, redact_bounded_into. destruct (patterns redactor) as [|first rest].
  - assert (BoundedPrefix value (push_bounded [] value maximum_bytes).1 maximum_bytes) as Hbounded.
    { destruct ((push_bounded [] value maximum_bytes).2) eqn:Hfits.
      - apply push_bounded_fits in Hfits as [-> Hlength]. apply BoundedPrefix_full, Hlength. simpl. lia.
      - apply (push_bounded_cut [] value []) in Hfits; [by rewrite app_nil_r in Hfits|simpl; lia|done]. }
    eexists. split_and!; [done|apply Hbounded|done].
  - destruct (replace_all_bounded_spec first value maximum_bytes Hvalue)
      as (middle & Hpass & Hmiddle & Hbounded).
    destruct (redact_passes_spec rest middle maximum_bytes Hmiddle) as (shown & Hrest & Hlength & Hchain);
      [apply Hbounded|].
    exists shown. rewrite Hpass. simpl. eauto.
Qed.
End laws.

(** ** A concrete engine: literal patterns *)

Module LiteralEngine.
(** Scans [rest], the haystack from [position]; the next [skip] bytes belong to
    the last match. *)
Fixpoint literal_matches (literal value : list Z) (skip position : nat) (rest : list Z) : list Match :=
  match rest with
  | [] => []
  | _ :: tail =>
      match skip with
      | S skip => literal_matches literal value skip (S position) tail
      | O =>
          if decide (take (length literal) rest = literal ∧ literal ≠ [] ∧
                     is_char_boundary value position = true ∧
                     is_char_boundary value (position + length literal) = true)
          then MkMatch position (position + length literal) ::
               literal_matches literal value (length literal - 1) (S position) tail
          else literal_matches literal value 0 (S position) tail
      end
  end.

#[export] Instance literal_engine : RegexEngine (list Z) := {|
  find_iter literal value := literal_matches literal value 0 0 value |}.

Lemma literal_matches_law literal value skip position rest previous_end :
  (position + length rest = length value)%nat → (previous_end ≤ position + skip)%nat →
  Matches value previous_end (literal_matches literal value skip position rest).
Proof.
  revert skip position previous_end.
  induction rest as [|byte tail IH]; intros skip position previous_end Hlength Hprevious; [done|].
  cbn [literal_matches]. simpl length in Hlength.
  destruct skip as [|skip]; [|apply IH; lia].
  destruct (decide _) as [(Htake & Hne & Hstart & Hend) | _]; [|apply IH; lia].
  assert (length literal ≤ length (byte :: tail))%nat.
  { rewrite <- Htake, length_take. lia. }
  simpl length in *. destruct literal as [|first literal]; [done|]. cbn [Matches match_start match_end].
  split_and!; try done; try lia. apply IH; simpl; lia.
Qed.

Lemma literal_law : FindIterLaw (Regex := list Z).
Proof. intros literal value _. apply literal_matches_law; simpl; lia. Qed.

Lemma redact_bounded_spec_witness :
  redact_bounded (MkRedactor [bytes_of "key"]) (bytes_of "a key b") 100 = Some (bytes_of "a [REDACTED] b") ∧
  ∃ shown, redact_bounded (MkRedactor [bytes_of "key"]) (bytes_of "a key b") 100 = Some shown ∧
    (length shown ≤ 100)%nat.
Proof.
  split; [vm_compute; reflexivity|].
  destruct (redact_bounded_spec (Regex := list Z) literal_law (MkRedactor [bytes_of "key"])
    (bytes_of "a key b") 100 ltac:(intros byte [= <-]; reflexivity)) as (shown & ? & ? & _).
  exists shown. split; assumption.
Defined.

(** A later pattern sees the bounded result of an earlier one: the secret
    [hunter22] is a match of the second pattern in the value, but the first pass
    cuts it and the second pass no longer finds it.  The unbounded [redact] cuts
    as well, at the length of the value, once a replacement is longer than what
    it replaces. *)
Lemma later_pattern_misses_cut_secret :
  find_iter (bytes_of "hunter22") (bytes_of "token hunter22") = [MkMatch 6 14] ∧
  redact_bounded (MkRedactor [bytes_of "unused"; bytes_of "hunter22"]) (bytes_of "token hunter22") 13
  = Some (bytes_of "token hunter2") ∧
  redact_bounded (MkRedactor [bytes_of "hunter22"; bytes_of "unused"]) (bytes_of "token hunter22") 13
  = Some (bytes_of "token ") ∧
  redact (MkRedactor [bytes_of "key"; bytes_of "hunter22"]) (bytes_of "key hunter22 abcd")
  = Some (bytes_of "[REDACTED] hunter").
Proof. split_and!; vm_compute; reflexivity. Qed.
End LiteralEngine.
