(* ===== verification/Diagnostics.v ===== *)
(** * Diagnostics of a summary (crates/bazel-mcp-reducer/src/budget.rs, build.rs
    and diagnostics/mod.rs)

    Diagnostics that say the same thing are merged, the merged ones are ranked,
    and as many are shown as the budget of the answer allows. *)

From S2P Require Import Prelude Collections Types Redaction.

#[export] Instance Severity_eq_dec : EqDecision Severity.
Proof. solve_decision. Defined.
#[export] Instance DiagnosticCategory_eq_dec : EqDecision DiagnosticCategory.
Proof. solve_decision. Defined.
#[export] Instance DiagnosticLocation_eq_dec : EqDecision DiagnosticLocation.
Proof. solve_decision. Defined.

(** ** Budgets *)

Record Budget : Type := MkBudget { max_bytes : Z; max_items : Z }.
Definition result_default : Budget := MkBudget (4 * 1024) 20.
Definition inspect_default : Budget := MkBudget (8 * 1024) 50.

(** [u32::saturating_add]. *)
Definition u32_add (a b : Z) : Z := Z.min (a + b) u32_max.

(** ** Bounded text *)

(** [bounded_text]: the longest prefix of whole characters and an ellipsis. *)
Definition ellipsis : string := string_of_bytes [226; 128; 166].
Definition bounded_text (value : string) (maximum_bytes : Z) : string :=
  if str_len value <=? maximum_bytes then value
  else
    let boundary := floor_boundary (bytes_of value) (Z.to_nat maximum_bytes) in
    string_of_bytes (take boundary (bytes_of value)) +:+ ellipsis.

(** ** Merging *)

Definition DiagnosticKey : Type :=
  Severity * DiagnosticCategory * string * option (string * option Z * option Z)
  * option string * option string.

Definition diagnostic_key (d : Diagnostic) : DiagnosticKey :=
  (severity d, category d, message d,
   (fun l => (location_path l, location_line l, location_column l)) <$> location d,
   if bool_decide (category d = CatAction) then None else diagnostic_target d,
   action d).

(** The locals of [deduplicate_diagnostics]; [positions] is a map that is only
    extended with keys it does not hold. *)
Record DedupState : Type := MkDedup {
  positions : list (DiagnosticKey * nat);
  repetition_counts : list Z;
  retained : list bool;
  clear_targets : list bool;
}.

Definition position (k : DiagnosticKey) (ps : list (DiagnosticKey * nat)) : option nat :=
  snd <$> find (fun p => bool_decide (p.1 = k)) ps.

(** One round of the loop over [diagnostics.iter().enumerate()]. *)
Definition dedup_step (ds : list Diagnostic) (s : DedupState) (index : nat) (d : Diagnostic)
    : DedupState :=
  let aggregate_actions := bool_decide (category d = CatAction) in
  let key := diagnostic_key d in
  match position key (positions s) with
  | Some first =>
      let differs := bool_decide ((diagnostic_target <$> ds !! first) ≠ Some (diagnostic_target d)) in
      MkDedup (positions s)
        (alter (fun count => u32_add count (repetition_count d)) first (repetition_counts s))
        (retained s)
        (if aggregate_actions && differs then <[first := true]> (clear_targets s) else clear_targets s)
  | None =>
      MkDedup ((key, index) :: positions s)
        (<[index := repetition_count d]> (repetition_counts s))
        (<[index := true]> (retained s)) (clear_targets s)
  end.

Fixpoint dedup_loop (ds : list Diagnostic) (s : DedupState) (index : nat) (rest : list Diagnostic)
    : DedupState :=
  match rest with
  | [] => s
  | d :: rest => dedup_loop ds (dedup_step ds s index d) (S index) rest
  end.

Definition with_count (d : Diagnostic) (count : Z) (clear : bool) : Diagnostic :=
  MkDiagnostic (severity d) (category d) (message d) (location d)
    (if clear then None else diagnostic_target d) (action d) count.

(** [retain_mut] over the diagnostics from [index] on. *)
Fixpoint retain_merged (s : DedupState) (index : nat) (ds : list Diagnostic) : list Diagnostic :=
  match ds with
  | [] => []
  | d :: rest =>
      if default false (retained s !! index)
      then with_count d (default 0 (repetition_counts s !! index)) (default false (clear_targets s !! index))
             :: retain_merged s (S index) rest
      else retain_merged s (S index) rest
  end.

Definition deduplicate_diagnostics (ds : list Diagnostic) : list Diagnostic :=
  let n := length ds in
  let s := dedup_loop ds (MkDedup [] (replicate n 0) (replicate n false) (replicate n false)) 0 ds in
  retain_merged s 0 ds.

(** ** Ranking *)

Definition severity_rank (s : Severity) : Z :=
  match s with SevError => 0 | SevWarning => 1 | SevNote => 2 end.

Definition category_rank (c : DiagnosticCategory) : Z :=
  match c with
  | CatLoading | CatVisibility | CatAnalysis | CatCompilation => 0
  | CatTest => 1
  | CatWorkspace => 2
  | CatBazel => 3
  | CatUnknown => 4
  | CatAction => 5
  end.

(** [value.as_bytes().windows(n).any(..)]. *)
Fixpoint contains_window (needle value : list Z) : bool :=
  bool_decide (map lower_byte (take (length needle) value) = map lower_byte needle) ||
  match value with [] => false | _ :: rest => contains_window needle rest end.
Definition contains_ignore_ascii_case (value needle : string) : bool :=
  bool_decide (needle = "") || contains_window (bytes_of needle) (bytes_of value).
Definition starts_with_ignore_ascii_case (value prefix : string) : bool :=
  bool_decide (map lower_byte (take (length (bytes_of prefix)) (bytes_of value))
               = map lower_byte (bytes_of prefix)).

Definition evidence_quality (d : Diagnostic) : Z :=
  let contains := contains_ignore_ascii_case (message d) in
  let starts := starts_with_ignore_ascii_case (message d) in
  let rust_failure := contains "panicked at" || (contains "assertion" && contains " failed") in
  if bool_decide (is_Some (location d)) || (contains "root_cause" && negb (contains "error executing"))
  then 0
  else if bool_decide (category d = CatTest) && rust_failure then 1
  else if starts "test failed:" || starts "test timed out:" || starts "test was incomplete:"
          || starts "test result was unavailable:" then 3
  else if contains "error executing" then 2
  else 1.

Definition diagnostic_priority (d : Diagnostic) : Z * Z * Z :=
  (severity_rank (severity d), category_rank (category d), evidence_quality d).

(** The order of tuples. *)
Definition priority_leb (a b : Z * Z * Z) : bool :=
  let '(a1, a2, a3) := a in
  let '(b1, b2, b3) := b in
  (a1 <? b1) || ((a1 =? b1) && ((a2 <? b2) || ((a2 =? b2) && (a3 <=? b3)))).

Definition sort_by_priority : list Diagnostic → list Diagnostic :=
  stable_sort (fun a b => priority_leb (diagnostic_priority a) (diagnostic_priority b)).

(** ** The budget *)

(** [retain] with the bytes used so far; the flag tells whether one was left
    out. *)
Fixpoint retain_within (max_bytes used : Z) (ds : list Diagnostic) : list Diagnostic * bool :=
  match ds with
  | [] => ([], false)
  | d :: rest =>
      let next := u64_add used (str_len (message d)) in
      if max_bytes <? next then ((retain_within max_bytes used rest).1, true)
      else let '(kept, dropped) := retain_within max_bytes next rest in (d :: kept, dropped)
  end.

Definition set_diagnostics (ds : list Diagnostic) (headline' : string) (truncated' : bool)
    (hint : option InspectHint) (s : InvocationSummary) : InvocationSummary :=
  MkSummary (success s) headline' (targets s) (target_counts s) ds (tests s) (test_counts s)
    (coverage s) (query_sample s) (query_result_count s) (elapsed_ms s) truncated' hint.

(** [Vec::truncate]. *)
Definition truncate {A} (n : Z) (l : list A) : list A := take (Z.to_nat (Z.min n (Z.of_nat (length l)))) l.

Definition finalize_diagnostics (s : InvocationSummary) (budget : Budget) : InvocationSummary :=
  let sorted := sort_by_priority (deduplicate_diagnostics (diagnostics s)) in
  let over := max_items budget <? Z.of_nat (length sorted) in
  let '(kept, dropped) := retain_within (max_bytes budget) 0 (truncate (max_items budget) sorted) in
  let truncated' := truncated s || over || dropped in
  set_diagnostics kept
    (if negb (success s) then
       match kept with d :: _ => "Bazel failed: " +:+ message d | [] => headline s end
     else headline s)
    truncated' (if truncated' then Some HintDiagnostics else inspect_hint s) s.

(** * Theorems *)

(** ** Merging by reference *)

Definition has_key (k : DiagnosticKey) (d : Diagnostic) : Prop := diagnostic_key d = k.
#[export] Instance has_key_dec k d : Decision (has_key k d).
Proof. unfold has_key. apply _. Defined.

(** A diagnostic that takes in the later ones with its key: the counts add up,
    and an action shared by several targets names none. *)
Definition merge (d : Diagnostic) (later : list Diagnostic) : Diagnostic :=
  with_count d (foldl u32_add (repetition_count d) (map repetition_count later))
    (bool_decide (category d = CatAction) &&
     existsb (fun e => bool_decide (diagnostic_target e ≠ diagnostic_target d)) later).

Fixpoint merge_all (seen : list DiagnosticKey) (ds : list Diagnostic) : list Diagnostic :=
  match ds with
  | [] => []
  | d :: rest =>
      if bool_decide (diagnostic_key d ∈ seen) then merge_all seen rest
      else merge d (filter (has_key (diagnostic_key d)) rest) :: merge_all (diagnostic_key d :: seen) rest
  end.

(** ** The loop against the reference *)

Definition fresh_at (p : list Diagnostic) (i : nat) (d : Diagnostic) : Prop :=
  diagnostic_key d ∉ map diagnostic_key (take i p).
#[export] Instance fresh_at_dec p i d : Decision (fresh_at p i d).
Proof. unfold fresh_at. apply _. Defined.
Definition later (p : list Diagnostic) (i : nat) (d : Diagnostic) : list Diagnostic :=
  filter (has_key (diagnostic_key d)) (drop (S i) p).

(** The state of the loop after the prefix [p]. *)
Record DedupInv (n : nat) (p : list Diagnostic) (s : DedupState) : Prop := {
  dedup_position : ∀ k i, position k (positions s) = Some i →
    ∃ d, p !! i = Some d ∧ diagnostic_key d = k ∧ fresh_at p i d;
  dedup_known : ∀ k, position k (positions s) = None → k ∉ map diagnostic_key p;
  dedup_entry : ∀ i d, p !! i = Some d →
    retained s !! i = Some (bool_decide (fresh_at p i d)) ∧
    (fresh_at p i d →
      repetition_counts s !! i = Some (repetition_count (merge d (later p i d))) ∧
      clear_targets s !! i = Some
        (bool_decide (category d = CatAction) &&
         existsb (fun e => bool_decide (diagnostic_target e ≠ diagnostic_target d)) (later p i d)));
  dedup_rest : ∀ i, (length p ≤ i < n)%nat →
    repetition_counts s !! i = Some 0 ∧ retained s !! i = Some false ∧ clear_targets s !! i = Some false;
}.

Lemma later_snoc p i d e : (i < length p)%nat →
  later (p ++ [e]) i d = later p i d ++ (if decide (has_key (diagnostic_key d) e) then [e] else []).
Proof.
  intros Hi. unfold later. rewrite drop_app_le by lia. rewrite filter_app. f_equal.
Qed.

Lemma fresh_at_snoc p i d e : (i ≤ length p)%nat → fresh_at (p ++ [e]) i d ↔ fresh_at p i d.
Proof. intros Hi. unfold fresh_at. by rewrite take_app_le. Qed.

Lemma fresh_unique p i j d e : p !! i = Some d → p !! j = Some e → fresh_at p i d → fresh_at p j e →
  diagnostic_key d = diagnostic_key e → i = j.
Proof.
  assert (∀ i j d e, (i < j)%nat → p !! i = Some d → fresh_at p j e → diagnostic_key d ≠ diagnostic_key e) as Hlt.
  { clear. intros i j d e Hij Hd Hfresh Heq. apply Hfresh. rewrite <- Heq. apply list_elem_of_fmap.
    exists d. split; [done|]. apply (list_elem_of_lookup_2 _ i). rewrite lookup_take_lt by lia. done. }
  intros Hd He Hi Hj Heq. destruct (Nat.lt_trichotomy i j) as [H|[H|H]]; [|done|].
  - by destruct (Hlt i j d e).
  - by destruct (Hlt j i e d).
Qed.

Lemma merge_count_snoc d later e :
  repetition_count (merge d (later ++ [e])) = u32_add (repetition_count (merge d later)) (repetition_count e).
Proof. cbn. by rewrite map_app, foldl_app. Qed.

Lemma snoc_lookup {A} (p : list A) d i e :
  (p ++ [d]) !! i = Some e → p !! i = Some e ∧ (i < length p)%nat ∨ i = length p ∧ e = d.
Proof.
  intros [He|[Hge He]]%lookup_app_Some; [left; split; [done|by eapply lookup_lt_Some]|].
  right. apply list_lookup_singleton_Some in He as [? ->]. split; [lia|done].
Qed.

Lemma position_snoc p (s : DedupState) d i k :
  (∃ e, p !! i = Some e ∧ diagnostic_key e = k ∧ fresh_at p i e) →
  ∃ e, (p ++ [d]) !! i = Some e ∧ diagnostic_key e = k ∧ fresh_at (p ++ [d]) i e.
Proof.
  intros (e & He & Hk & Hf). pose proof (lookup_lt_Some _ _ _ He). exists e.
  rewrite lookup_app_l, fresh_at_snoc by lia. done.
Qed.

Lemma fresh_snoc_bool p i e d : (i ≤ length p)%nat →
  bool_decide (fresh_at (p ++ [d]) i e) = bool_decide (fresh_at p i e).
Proof. intros Hi. apply bool_decide_ext. by apply fresh_at_snoc. Qed.

Lemma later_snoc_same p i e d : (i < length p)%nat → diagnostic_key d = diagnostic_key e →
  later (p ++ [d]) i e = later p i e ++ [d].
Proof. intros Hi Hk. rewrite later_snoc by done. by rewrite decide_True. Qed.
Lemma later_snoc_other p i e d : (i < length p)%nat → diagnostic_key d ≠ diagnostic_key e →
  later (p ++ [d]) i e = later p i e.
Proof. intros Hi Hk. rewrite later_snoc by done. by rewrite decide_False, app_nil_r. Qed.

(** The round of a diagnostic whose key is known. *)
Lemma dedup_step_known n ds p s d first d0 :
  DedupInv n p s → position (diagnostic_key d) (positions s) = Some first →
  p !! first = Some d0 → diagnostic_key d0 = diagnostic_key d → fresh_at p first d0 →
  ds !! first = Some d0 → (length p < n)%nat →
  DedupInv n (p ++ [d]) (dedup_step ds s (length p) d).
Proof.
  intros [Hpos Hknown Hentry Hrest] Hp Hd0 Hk0 Hf0 Hds Hn. pose proof (lookup_lt_Some _ _ _ Hd0) as Hlt0.
  unfold dedup_step. rewrite Hp, Hds. split; cbn [positions retained repetition_counts clear_targets].
  - intros k i Hk. by apply (position_snoc p s), Hpos.
  - intros k Hk. rewrite map_app, elem_of_app. intros [Hin|Hin]; [by eapply Hknown|].
    apply list_elem_of_singleton in Hin as ->. congruence.
  - intros i e [[He Hi]|[-> ->]]%snoc_lookup.
    + destruct (Hentry _ _ He) as [Hret Hfields]. rewrite fresh_snoc_bool, fresh_at_snoc by lia.
      split; [done|]. intros Hf. specialize (Hfields Hf) as [Hcount Hclear].
      destruct (decide (i = first)) as [->|Hne].
      * assert (e = d0) as -> by congruence. rewrite later_snoc_same by done.
        rewrite merge_count_snoc, list_lookup_alter_eq, Hcount. split; [done|].
        assert (category d0 = category d) as Hcat by (unfold diagnostic_key in Hk0; congruence).
        rewrite Hcat, existsb_app in *. cbn [existsb fmap option_fmap option_map]. rewrite orb_false_r.
        destruct (bool_decide (category d = CatAction)); cbn [andb] in *; [|done].
        destruct (decide (diagnostic_target d = diagnostic_target d0)) as [Heq|Heq].
        -- rewrite !bool_decide_false by (intros H; apply H; congruence). by rewrite orb_false_r.
        -- rewrite !bool_decide_true by congruence.
           rewrite list_lookup_insert_eq by (by eapply lookup_lt_Some). by rewrite orb_true_r.
      * rewrite later_snoc_other, list_lookup_alter_ne by
          (done || (intros Hk; apply Hne; eapply fresh_unique; eauto; congruence)).
        split; [done|]. case_match; [|done]. by rewrite list_lookup_insert_ne.
    + destruct (Hrest (length p) ltac:(lia)) as (_ & Hret & _).
      rewrite fresh_snoc_bool, fresh_at_snoc by lia.
      assert (¬ fresh_at p (length p) d) as Hnot; [|by rewrite bool_decide_false].
      unfold fresh_at. rewrite firstn_all. intros H. apply H.
      rewrite <- Hk0. apply list_elem_of_fmap. exists d0. split; [done|]. by eapply list_elem_of_lookup_2.
  - rewrite length_app. cbn. intros i Hi. destruct (Hrest i ltac:(lia)) as (Hc & Hr & Hcl).
    rewrite list_lookup_alter_ne by lia. split; [done|]. split; [done|].
    case_match; [|done]. by rewrite list_lookup_insert_ne by lia.
Qed.

(** The round of a diagnostic with a new key. *)
Lemma dedup_step_new n ds p s d :
  DedupInv n p s → position (diagnostic_key d) (positions s) = None → (length p < n)%nat →
  DedupInv n (p ++ [d]) (dedup_step ds s (length p) d).
Proof.
  intros [Hpos Hknown Hentry Hrest] Hp Hn. unfold dedup_step. rewrite Hp. apply Hknown in Hp as Hfresh.
  destruct (Hrest (length p) ltac:(lia)) as (Hc & Hr & Hcl).
  assert (fresh_at (p ++ [d]) (length p) d) as Hnew.
  { rewrite fresh_at_snoc by lia. unfold fresh_at. by rewrite firstn_all. }
  assert (∀ k, position k ((diagnostic_key d, length p) :: positions s)
    = if decide (diagnostic_key d = k) then Some (length p) else position k (positions s)) as Hcons.
  { intros k. unfold position. cbn [find fst]. by case_decide; case_bool_decide. }
  split; cbn [positions retained repetition_counts clear_targets].
  - intros k i. rewrite Hcons. case_decide as Hk.
    + intros [= <-]. exists d. rewrite lookup_app_r, Nat.sub_diag by lia. done.
    + intros Hi. by apply (position_snoc p s), Hpos.
  - intros k. rewrite Hcons. case_decide; [done|]. intros Hk%Hknown. rewrite map_app, elem_of_app.
    intros [?|Hin]; [done|]. by apply list_elem_of_singleton in Hin as ->.
  - intros i e [[He Hi]|[-> ->]]%snoc_lookup.
    + rewrite !list_lookup_insert_ne by lia. destruct (Hentry _ _ He) as [Hret Hfields].
      rewrite fresh_snoc_bool, fresh_at_snoc by lia. split; [done|]. intros Hf.
      rewrite later_snoc_other; [by apply Hfields|done|].
      intros Hk. apply Hfresh. rewrite Hk. apply list_elem_of_fmap.
      exists e. split; [done|]. by eapply list_elem_of_lookup_2.
    + rewrite !list_lookup_insert_eq by (by eapply lookup_lt_Some). rewrite bool_decide_true by done.
      split; [done|]. intros _. unfold later. rewrite drop_ge by (rewrite length_app; cbn; lia).
      cbn. by rewrite andb_false_r.
  - rewrite length_app. cbn. intros i Hi. rewrite !list_lookup_insert_ne by lia. apply Hrest. lia.
Qed.

Lemma dedup_loop_inv ds p rest s :
  DedupInv (length ds) p s → ds = p ++ rest →
  DedupInv (length ds) ds (dedup_loop ds s (length p) rest).
Proof.
  revert p s. induction rest as [|d rest IH]; intros p s Hinv Hds; cbn [dedup_loop].
  { rewrite app_nil_r in Hds. by subst p. }
  assert (length p < length ds)%nat by (rewrite Hds, length_app; cbn; lia).
  replace (S (length p)) with (length (p ++ [d])) by (rewrite length_app; cbn; lia).
  apply IH; [|by rewrite <- app_assoc].
  destruct (position (diagnostic_key d) (positions s)) as [first|] eqn:Hp; [|by apply dedup_step_new].
  destruct (dedup_position _ _ _ Hinv _ _ Hp) as (d0 & Hd0 & Hk & Hf).
  eapply dedup_step_known; eauto. rewrite Hds, lookup_app_l; [done|]. by eapply lookup_lt_Some.
Qed.

Lemma merge_all_seen s1 s2 ds : (∀ k, k ∈ s1 ↔ k ∈ s2) → merge_all s1 ds = merge_all s2 ds.
Proof.
  revert s1 s2. induction ds as [|d ds IH]; intros s1 s2 Hs; [done|]. cbn.
  rewrite (bool_decide_ext _ _ (Hs (diagnostic_key d))). case_bool_decide; [by apply IH|].
  f_equal. apply IH. intros k. rewrite !elem_of_cons. by rewrite Hs.
Qed.

Lemma retain_merged_all ds p rest s :
  DedupInv (length ds) ds s → ds = p ++ rest →
  retain_merged s (length p) rest = merge_all (map diagnostic_key p) rest.
Proof.
  intros Hinv. revert p. induction rest as [|d rest IH]; intros p Hds; [done|].
  cbn [retain_merged merge_all].
  assert (ds !! length p = Some d) as Hd by (by rewrite Hds, lookup_app_r, Nat.sub_diag by lia).
  destruct (dedup_entry _ _ _ Hinv _ _ Hd) as [Hret Hfields]. rewrite Hret. cbn [default from_option id].
  specialize (IH (p ++ [d])). rewrite length_app, Nat.add_1_r, <- app_assoc, map_app in IH. specialize (IH Hds).
  assert (fresh_at ds (length p) d ↔ diagnostic_key d ∉ map diagnostic_key p) as Hfresh.
  { unfold fresh_at. by rewrite Hds, take_app_length. }
  assert (later ds (length p) d = filter (has_key (diagnostic_key d)) rest) as Hlater.
  { unfold later. by rewrite Hds, drop_app_ge, (Nat.sub_succ_l (length p)), Nat.sub_diag by lia. }
  cbn [map] in IH. destruct (decide (fresh_at ds (length p) d)) as [Hf|Hf].
  - rewrite (bool_decide_true (fresh_at ds (length p) d)) by done. destruct (Hfields Hf) as [-> ->]. rewrite Hlater, (bool_decide_false (diagnostic_key d ∈ _)) by tauto. cbn [from_option id].
    f_equal. rewrite IH. apply merge_all_seen. set_solver.
  - rewrite (bool_decide_false (fresh_at ds (length p) d)), bool_decide_true
      by (done || (apply dec_stable; tauto)). rewrite IH. apply merge_all_seen.
    intros k. rewrite elem_of_app, list_elem_of_singleton. split; [|by left].
    intros [?| ->]; [done|]. apply dec_stable. tauto.
Qed.

(** The index-based merging is the reference. *)
Lemma deduplicate_merge_all ds : deduplicate_diagnostics ds = merge_all [] ds.
Proof.
  unfold deduplicate_diagnostics. apply (retain_merged_all ds [] ds); [|done].
  apply (dedup_loop_inv ds [] ds); [|done]. split; [done|set_solver|done|].
  cbn. intros i Hi. rewrite !lookup_replicate_2 by lia. done.
Qed.

(** ** What merging gives *)

Lemma merge_key d l : diagnostic_key (merge d l) = diagnostic_key d.
Proof.
  unfold diagnostic_key. cbn. case_bool_decide; [done|]. done.
Qed.

Lemma merge_all_keys seen ds k :
  k ∈ map diagnostic_key (merge_all seen ds) ↔ k ∈ map diagnostic_key ds ∧ k ∉ seen.
Proof.
  revert seen. induction ds as [|d ds IH]; intros seen; cbn; [set_solver|].
  case_bool_decide; cbn [map]; rewrite ?merge_key, !elem_of_cons, IH; [set_solver|].
  rewrite not_elem_of_cons. destruct (decide (k = diagnostic_key d)); [subst; naive_solver|naive_solver].
Qed.

Lemma merge_all_NoDup seen ds : NoDup (map diagnostic_key (merge_all seen ds)).
Proof.
  revert seen. induction ds as [|d ds IH]; intros seen; cbn; [constructor|].
  case_bool_decide; [done|]. cbn. rewrite merge_key. constructor; [|done].
  rewrite merge_all_keys. set_solver.
Qed.

Definition total_count (ds : list Diagnostic) : Z := foldr (fun d total => repetition_count d + total) 0 ds.

Lemma total_count_nonneg ds : Forall (fun d => is_u32 (repetition_count d)) ds → 0 ≤ total_count ds.
Proof. induction 1 as [|x l Hx _ IH]; unfold total_count in *; cbn; [lia|]. unfold is_u32 in Hx. lia. Qed.

Lemma foldl_u32_add c ds : is_u32 c → Forall (fun d => is_u32 (repetition_count d)) ds →
  foldl u32_add c (map repetition_count ds) = Z.min u32_max (c + total_count ds).
Proof.
  intros Hc Hds. revert c Hc. induction Hds as [|d ds Hd Hds IH]; intros c Hc; cbn.
  { unfold is_u32, u32_max in *. lia. }
  pose proof (total_count_nonneg _ Hds).
  fold (total_count ds). rewrite IH; unfold u32_add, is_u32, u32_max in *; lia.
Qed.

Lemma merge_all_group seen ds k : k ∉ seen →
  filter (has_key k) (merge_all seen ds) =
  match filter (has_key k) ds with [] => [] | d :: l => [merge d l] end.
Proof.
  assert (∀ seen ds, k ∈ seen → filter (has_key k) (merge_all seen ds) = []) as Hseen.
  { clear. intros seen ds Hk. destruct (filter _ _) as [|d l] eqn:Heq; [done|]. exfalso.
    assert (d ∈ filter (has_key k) (merge_all seen ds)) as [Hkey Hd]%list_elem_of_filter
      by (rewrite Heq; set_solver).
    destruct (proj1 (merge_all_keys seen ds k)); [|done].
    apply list_elem_of_fmap. exists d. by split. }
  revert seen. induction ds as [|d ds IH]; intros seen Hk; [done|]. cbn [merge_all].
  rewrite (filter_cons _ d). case_bool_decide as Hd.
  - rewrite decide_False by (unfold has_key; congruence). by apply IH.
  - rewrite (filter_cons _ (merge d _)). destruct (decide (diagnostic_key d = k)) as [<-|Hne].
    + rewrite (decide_True (P:=has_key _ (merge d _))) by apply merge_key.
      rewrite (decide_True (P:=has_key _ d)) by done. by rewrite Hseen by set_solver.
    + rewrite (decide_False (P:=has_key _ (merge d _))) by (unfold has_key; by rewrite merge_key).
      rewrite (decide_False (P:=has_key _ d)) by done. apply IH. set_solver.
Qed.

(** ** The budget *)

Definition message_bytes (ds : list Diagnostic) : Z := foldr (fun d total => str_len (message d) + total) 0 ds.

Lemma message_bytes_nonneg ds : 0 ≤ message_bytes ds.
Proof. induction ds as [|d ds IH]; unfold message_bytes in *; cbn; [lia|]. pose proof (str_len_nonneg (message d)). lia. Qed.

Lemma retain_within_spec bound used ds kept dropped :
  0 ≤ used ≤ bound → bound < u64_max → retain_within bound used ds = (kept, dropped) →
  kept `sublist_of` ds ∧ used + message_bytes kept ≤ bound ∧
  (dropped = false ↔ kept = ds) ∧ (dropped = false ↔ used + message_bytes ds ≤ bound).
Proof.
  intros Hused Hbound. revert used kept dropped Hused.
  induction ds as [|d ds IH]; intros used kept dropped Hused; cbn [retain_within].
  { intros [= <- <-]. cbn. split_and!; [done|lia|done|]. split; [lia|done]. }
  pose proof (str_len_nonneg (message d)) as Hd. pose proof (message_bytes_nonneg ds) as Hds.
  assert (message_bytes (d :: ds) = str_len (message d) + message_bytes ds) as Hcons by done.
  destruct (bound <? u64_add used (str_len (message d))) eqn:Hover.
  - destruct (retain_within bound used ds) as [kept1 dropped1] eqn:Hr. intros [= <- <-].
    destruct (IH _ _ _ Hused Hr) as (Hsub & Hbytes & _ & _). cbn [fst].
    split_and!; [by apply sublist_cons|done| |].
    + split; [done|]. intros ->. apply sublist_length in Hsub. cbn in Hsub. lia.
    + split; [done|]. unfold u64_add in Hover. lia.
  - assert (u64_add used (str_len (message d)) = used + str_len (message d)) as Hadd
      by (unfold u64_add in *; lia). rewrite Hadd in *.
    destruct (retain_within bound _ ds) as [kept1 dropped1] eqn:Hr. intros [= <- <-].
    destruct (IH (used + str_len (message d)) _ _ ltac:(lia) Hr) as (Hsub & Hbytes & Heq & Hfit).
    assert (message_bytes (d :: kept1) = str_len (message d) + message_bytes kept1) as -> by done.
    split_and!; [by apply sublist_skip|lia| |].
    + rewrite Heq. split; [by intros ->|by intros [= ->]].
    + rewrite Hfit, Hcons. lia.
Qed.

Lemma priority_leb_trans a b c : priority_leb a b = true → priority_leb b c = true → priority_leb a c = true.
Proof. destruct a as [[? ?] ?], b as [[? ?] ?], c as [[? ?] ?]. unfold priority_leb. lia. Qed.
Lemma priority_leb_total a b : priority_leb a b = true ∨ priority_leb b a = true.
Proof. destruct a as [[? ?] ?], b as [[? ?] ?]. unfold priority_leb. lia. Qed.

Definition ranked (ds : list Diagnostic) : Prop :=
  StronglySorted (fun a b => priority_leb (diagnostic_priority a) (diagnostic_priority b) = true) ds.

Lemma StronglySorted_sublist {A} (R : relation A) l k :
  k `sublist_of` l → StronglySorted R l → StronglySorted R k.
Proof.
  induction 1 as [|x k l Hsub IH|x k l Hsub IH]; intros Hs; [constructor| |].
  - apply StronglySorted_inv in Hs as [Hs Hall]. constructor; [by apply IH|].
    rewrite Forall_forall in Hall |- *. intros y Hy. apply Hall.
    by eapply elem_of_sublist, Hsub.
  - apply StronglySorted_inv in Hs as [Hs _]. by apply IH.
Qed.

Lemma sort_by_priority_spec ds : ranked (sort_by_priority ds) ∧ sort_by_priority ds ≡ₚ ds.
Proof.
  split; [|apply stable_sort_perm].
  apply (stable_sort_sorted (fun a b => priority_leb (diagnostic_priority a) (diagnostic_priority b))).
  - intros a b c. apply priority_leb_trans.
  - intros a b. apply priority_leb_total.
Qed.

(** The count of a merged diagnostic. *)
Lemma merged_count ds d : Forall (fun d => is_u32 (repetition_count d)) ds →
  d ∈ deduplicate_diagnostics ds →
  repetition_count d = Z.min u32_max (total_count (filter (has_key (diagnostic_key d)) ds)).
Proof.
  rewrite deduplicate_merge_all. intros Hds Hd.
  assert (d ∈ filter (has_key (diagnostic_key d)) (merge_all [] ds)) as Hin
    by (by apply list_elem_of_filter).
  rewrite merge_all_group in Hin by set_solver.
  assert (Forall (fun d => is_u32 (repetition_count d)) (filter (has_key (diagnostic_key d)) ds)) as Hgroup
    by (apply Forall_forall; intros x [_ Hx]%list_elem_of_filter; by eapply Forall_forall in Hx; [|exact Hds]).
  destruct (filter (has_key (diagnostic_key d)) ds) as [|e l]; [set_solver|].
  apply list_elem_of_singleton in Hin as Heq. inversion Hgroup as [|? ? He Hl].
  rewrite Heq at 1. cbn. by rewrite foldl_u32_add.
Qed.

(** What is shown of the merged and ranked diagnostics. *)
Lemma finalize_shown s budget : 0 ≤ max_items budget → 0 ≤ max_bytes budget < u64_max →
  let sorted := sort_by_priority (deduplicate_diagnostics (diagnostics s)) in
  let out := finalize_diagnostics s budget in
  diagnostics out `sublist_of` sorted ∧ Z.of_nat (length (diagnostics out)) ≤ max_items budget ∧
  message_bytes (diagnostics out) ≤ max_bytes budget ∧
  (truncated out = false → diagnostics out = sorted).
Proof.
  intros Hitems Hbytes. unfold finalize_diagnostics.
  set (sorted := sort_by_priority _).
  destruct (retain_within (max_bytes budget) 0 (truncate (max_items budget) sorted))
    as [kept dropped] eqn:Hr. cbn [diagnostics set_diagnostics truncated].
  apply retain_within_spec in Hr as (Hsub & Hfit & Heq & _); [|lia|lia].
  assert (length kept ≤ length (truncate (max_items budget) sorted))%nat as Hlen by (by apply sublist_length).
  unfold truncate in *. rewrite length_take in Hlen. split_and!; [|lia|lia|].
  - etrans; [exact Hsub|]. apply sublist_take.
  - rewrite !orb_false_iff. intros [[_ Hover] Hdrop]. apply Z.ltb_ge in Hover.
    apply Heq in Hdrop. rewrite Hdrop. apply take_ge. lia.
Qed.

(** Finalizing a summary merges diagnostics that say the same, adding up
    their counts (up to the u32 limit), ranks them, keeps within the item and
    byte budget, drops nothing without setting the truncation flag and pointing
    to the full list, and a failed summary's headline is its first diagnostic. *)
Theorem finalize_diagnostics_spec s budget :
  Forall (fun d => is_u32 (repetition_count d)) (diagnostics s) →
  0 ≤ max_items budget → 0 ≤ max_bytes budget < u64_max →
  let out := finalize_diagnostics s budget in
  Z.of_nat (length (diagnostics out)) ≤ max_items budget ∧
  message_bytes (diagnostics out) ≤ max_bytes budget ∧
  ranked (diagnostics out) ∧ NoDup (map diagnostic_key (diagnostics out)) ∧
  (∀ d, d ∈ diagnostics out → repetition_count d =
    Z.min u32_max (total_count (filter (has_key (diagnostic_key d)) (diagnostics s)))) ∧
  (∀ d, truncated out = false → d ∈ diagnostics s →
    diagnostic_key d ∈ map diagnostic_key (diagnostics out)) ∧
  (truncated out = true → inspect_hint out = Some HintDiagnostics) ∧
  (∀ d, success s = false → head (diagnostics out) = Some d →
    headline out = "Bazel failed: " +:+ message d).
Proof.
  intros Hcounts Hitems Hbytes out.
  destruct (finalize_shown s budget Hitems Hbytes) as (Hsub & Hlen & Hfit & Hall). fold out in Hsub, Hlen, Hfit, Hall.
  destruct (sort_by_priority_spec (deduplicate_diagnostics (diagnostics s))) as [Hranked Hperm].
  split_and!; [done|done|by eapply StronglySorted_sublist| | | | |].
  - eapply sublist_NoDup; [|by apply fmap_sublist, Hsub]. rewrite Hperm, deduplicate_merge_all.
    apply merge_all_NoDup.
  - intros d Hd. apply merged_count; [done|]. rewrite <- Hperm. by eapply elem_of_sublist.
  - intros d Htr Hd. rewrite Hall by done. rewrite Hperm, deduplicate_merge_all. apply merge_all_keys.
    split; [|set_solver]. apply list_elem_of_fmap. by exists d.
  - unfold out, finalize_diagnostics. destruct (retain_within _ _ _). cbn. by intros ->.
  - unfold out, finalize_diagnostics. destruct (retain_within _ _ _) as [[|e kept] ?]; [done|].
    cbn. by intros d -> [= <-].
Qed.

(** * Witness *)

Module DiagnosticsExamples.
Definition example_diagnostic (target : string) : Diagnostic :=
  MkDiagnostic SevError CatAction "Javac action failed with exit code 1" None (Some target) (Some "Javac") 1.

Definition example_summary : InvocationSummary :=
  MkSummary false "Bazel failed with exit code Some(1)" [] (MkTargetCounts 0 0 0)
    [example_diagnostic "//a"; example_diagnostic "//b";
     MkDiagnostic SevError CatAnalysis "no such attribute" None None None 2]
    [] (MkTestCounts 0 0 0 0 0) None [] None 5 false None.

Lemma finalize_diagnostics_spec_witness :
  let out := finalize_diagnostics example_summary result_default in
  diagnostics out = [MkDiagnostic SevError CatAnalysis "no such attribute" None None None 2;
    MkDiagnostic SevError CatAction "Javac action failed with exit code 1" None None (Some "Javac") 2] ∧
  headline out = "Bazel failed: no such attribute".
Proof.
  intros out. split; [vm_compute; reflexivity|].
  apply (finalize_diagnostics_spec example_summary result_default) with
    (d := MkDiagnostic SevError CatAnalysis "no such attribute" None None None 2);
    [|vm_compute; congruence|vm_compute; split; congruence|reflexivity|vm_compute; reflexivity].
  repeat constructor; vm_compute; congruence.
Defined.
End DiagnosticsExamples.
