(* ===== verification/Extension.v ===== *)
(** * Custom reducers (crates/bazel-mcp-reducer/src/extension.rs)

    Selectors with label patterns, and the pipeline that lets registered
    reducers patch a summary.  A reducer itself is foreign code: a function
    from the context to a patch or an error. *)

From S2P Require Import Prelude Collections Types Diagnostics.
From Stdlib Require Import Ascii.

(** [format!] with [{:?}] of a string: quotes, and escapes of quotes,
    backslashes and control characters. Text that is not ASCII is shown as it
    is. *)
Definition quote : ascii := ascii_of_nat 34.
Definition hex_digit (n : Z) : ascii := ascii_of_N (Z.to_N (if n <? 10 then 48 + n else 87 + n)).
Definition debug_char (c : ascii) : string :=
  let b := byte_of c in
  if (b =? 34) || (b =? 92) then String (ascii_of_nat 92) (String c "")
  else if b =? 9 then "\t"
  else if b =? 10 then "\n"
  else if b =? 13 then "\r"
  else if b =? 0 then "\0"
  else if (b <? 32) || (b =? 127) then
    "\u{" +:+ (if b <? 16 then String (hex_digit b) "}"
               else String (hex_digit (b / 16)) (String (hex_digit (b mod 16)) "}"))
  else String c "".
Fixpoint escape_debug (s : string) : string :=
  match s with
  | EmptyString => EmptyString
  | String c rest => debug_char c +:+ escape_debug rest
  end.
Definition debug_str (s : string) : string :=
  String quote (escape_debug s +:+ String quote "").

(** ** Events and contexts *)

Inductive ReducerMode : Type := Augment | OverrideMatching.
Inductive ReducerEventKind : Type := EvAborted | EvAction | EvTarget | EvTestSummary.

#[export] Instance ReducerMode_eq_dec : EqDecision ReducerMode.
Proof. solve_decision. Defined.

Record ReducerEvent : Type := MkReducerEvent {
  event_ordinal : Z;
  event_kind : ReducerEventKind;
  event_label : option string;
  event_target_kind : option string;
  event_action_type : option string;
  event_success : option bool;
  event_exit_code : option Z;
  event_message : option string;
}.

Record ReducerContext : Type := MkContext {
  api_version : Z;
  context_command : string;
  context_arguments : list string;
  context_exit_code : option Z;
  context_elapsed_ms : Z;
  context_stdout : string;
  context_stderr : string;
  context_events : list ReducerEvent;
  input_truncated : bool;
  baseline : InvocationSummary;
}.

(** ** Patterns *)

(** The locals of [wildcard_match]. *)
Record WildcardState : Type := MkWildcard {
  pattern_index : nat;
  value_index : nat;
  star_index : option nat;
  star_value_index : nat;
}.

Definition STAR : Z := 42.

(** One round of the first loop, for [value_index < value.len()]; [None] is
    [return false]. *)
Definition wildcard_step (pattern value : list Z) (s : WildcardState) : option WildcardState :=
  let '(MkWildcard pi vi star svi) := s in
  if bool_decide ((pi < length pattern)%nat ∧ pattern !! pi = value !! vi) then
    Some (MkWildcard (S pi) (S vi) star svi)
  else if bool_decide (pattern !! pi = Some STAR) then
    Some (MkWildcard (S pi) vi (Some pi) vi)
  else match star with
  | Some star => Some (MkWildcard (S star) (S svi) (Some star) (S svi))
  | None => None
  end.

(** The second loop, and the final test. *)
Fixpoint only_stars (pattern : list Z) : bool :=
  match pattern with [] => true | c :: rest => (c =? STAR) && only_stars rest end.

(** The first loop; the outer option is running out of fuel. *)
Fixpoint wildcard_loop (fuel : nat) (pattern value : list Z) (s : WildcardState) : option bool :=
  if (value_index s <? length value)%nat then
    match fuel with
    | O => None
    | S fuel =>
        match wildcard_step pattern value s with
        | None => Some false
        | Some s => wildcard_loop fuel pattern value s
        end
    end
  else Some (only_stars (drop (pattern_index s) pattern)).

Definition wildcard_fuel (pattern value : list Z) : nat :=
  S (length value) * S (length pattern) + length pattern.

Definition wildcard_match (pattern value : list Z) : bool :=
  default false (wildcard_loop (wildcard_fuel pattern value) pattern value (MkWildcard 0 0 None 0)).

(** [str::strip_suffix]. *)
Definition strip_suffix (suffix s : string) : option string :=
  let n := (String.length s - String.length suffix)%nat in
  if bool_decide (String.substring 0 n s +:+ suffix = s) then Some (String.substring 0 n s) else None.

Definition label_matches (pattern label : string) : bool :=
  match strip_suffix "..." pattern with
  | Some prefix => starts_with label prefix
  | None => wildcard_match (bytes_of pattern) (bytes_of label)
  end.

(** ** Selectors *)

Record ReducerSelector : Type := MkSelector {
  commands : gset string;
  target_labels : list string;
  target_kinds : gset string;
  action_types : gset string;
}.

Definition has_event_constraints (self : ReducerSelector) : bool :=
  bool_decide (target_labels self ≠ []) || bool_decide (target_kinds self ≠ ∅)
  || bool_decide (action_types self ≠ ∅).

Definition is_some_and {A} (f : A → bool) (o : option A) : bool :=
  match o with Some a => f a | None => false end.

Definition matches_event (self : ReducerSelector) (event : ReducerEvent) : bool :=
  is_some_and (fun label => existsb (fun pattern => label_matches pattern label) (target_labels self))
    (event_label event)
  || is_some_and (fun kind => bool_decide (kind ∈ target_kinds self)) (event_target_kind event)
  || is_some_and (fun action => bool_decide (action ∈ action_types self)) (event_action_type event).

Definition selector_matches (self : ReducerSelector) (context : ReducerContext) : bool :=
  if bool_decide (commands self ≠ ∅) && bool_decide (context_command context ∉ commands self) then false
  else if negb (has_event_constraints self) then true
  else existsb (matches_event self) (context_events context).

Definition matched_labels (self : ReducerSelector) (context : ReducerContext) : gset string :=
  list_to_set (omap event_label (filter (fun event => matches_event self event = true) (context_events context))).

(** ** Reducers *)

Record ReducerPatch : Type := MkPatch {
  patch_headline : option string;
  patch_diagnostics : list Diagnostic;
  suppress_builtin_diagnostics : bool;
}.
Definition patch_is_empty (p : ReducerPatch) : bool :=
  bool_decide (patch_headline p = None) && bool_decide (length (patch_diagnostics p) = 0%nat)
  && negb (suppress_builtin_diagnostics p).

Record ReducerError : Type := MkReducerError { error_message : string }.

(** The trait [CustomReducer]. *)
Record CustomReducer : Type := MkReducer {
  reducer_name : string;
  priority : Z;
  mode : ReducerMode;
  selector : ReducerSelector;
  reduce : ReducerContext → result ReducerError ReducerPatch;
}.

Record ReducerFailure : Type := MkFailure { failure_name : string; failure_error : string }.

Record ReducerApplyReport : Type := MkReport {
  applied : list string;
  failures : list ReducerFailure;
  override_collisions : list string;
  headline_applied : bool;
}.

Abbreviation ReducerPipeline := (list CustomReducer).

Fixpoint unique_names (names : gset string) (reducers : list CustomReducer) : result ReducerError unit :=
  match reducers with
  | [] => Ok tt
  | r :: rest =>
      if bool_decide (reducer_name r ∈ names)
      then Err (MkReducerError ("duplicate custom reducer name " +:+ debug_str (reducer_name r)))
      else unique_names ({[reducer_name r]} ∪ names) rest
  end.

(** The order of [(Reverse(priority), name)]. *)
Definition reducer_leb (a b : CustomReducer) : bool :=
  (priority b <? priority a) || ((priority b =? priority a) && str_leb (reducer_name a) (reducer_name b)).

Definition new_pipeline (reducers : list CustomReducer) : result ReducerError ReducerPipeline :=
  _ ← unique_names ∅ reducers;
  Ok (stable_sort reducer_leb reducers).

Definition suppress_matching_diagnostics (summary : InvocationSummary) (selector : ReducerSelector)
    (context : ReducerContext) : InvocationSummary :=
  let labels := matched_labels selector context in
  let suppressed d :=
    is_some_and (fun target => bool_decide (target ∈ labels)
      || existsb (fun pattern => label_matches pattern target) (target_labels selector))
      (diagnostic_target d)
    || is_some_and (fun action => bool_decide (action ∈ action_types selector)) (action d) in
  set_diagnostics (filter (fun d => suppressed d = false) (diagnostics summary)) (headline summary)
    (truncated summary) (inspect_hint summary) summary.

(** The locals of [apply]. *)
Record ApplyState : Type := MkApply {
  apply_summary : InvocationSummary;
  apply_report : ReducerApplyReport;
  override_owner : option string;
  headline_set : bool;
}.

Definition collision_message (name owner : string) : string :=
  "custom reducer " +:+ debug_str name +:+ " also matched evidence owned by " +:+ debug_str owner
  +:+ "; higher priority reducer retained ownership".

(** What a non-empty patch does. *)
Definition apply_patch (context : ReducerContext) (r : CustomReducer) (patch : ReducerPatch) (s : ApplyState)
    : ApplyState :=
  let overrides := bool_decide (mode r = OverrideMatching) in
  let summary := if overrides && suppress_builtin_diagnostics patch
                 then suppress_matching_diagnostics (apply_summary s) (selector r) context
                 else apply_summary s in
  let sets := negb (headline_set s) && bool_decide (is_Some (patch_headline patch)) in
  let summary := set_diagnostics (diagnostics summary ++ patch_diagnostics patch)
    (if sets then default (headline summary) (patch_headline patch) else headline summary)
    (truncated summary) (inspect_hint summary) summary in
  let report := apply_report s in
  MkApply summary
    (MkReport (applied report ++ [reducer_name r]) (failures report) (override_collisions report)
       (sets || headline_applied report))
    (if overrides then Some (reducer_name r) else override_owner s) (sets || headline_set s).

(** The body of the loop, for a reducer whose selector matches. *)
Definition apply_one (context : ReducerContext) (s : ApplyState) (r : CustomReducer) : ApplyState :=
  let report := apply_report s in
  match (if bool_decide (mode r = OverrideMatching) then override_owner s else None) with
  | Some owner =>
      MkApply (apply_summary s)
        (MkReport (applied report) (failures report)
           (override_collisions report ++ [collision_message (reducer_name r) owner])
           (headline_applied report)) (override_owner s) (headline_set s)
  | None =>
      match reduce r context with
      | Ok patch => if patch_is_empty patch then s else apply_patch context r patch s
      | Err e =>
          MkApply (apply_summary s)
            (MkReport (applied report) (failures report ++ [MkFailure (reducer_name r) (error_message e)])
               (override_collisions report) (headline_applied report))
            (override_owner s) (headline_set s)
      end
  end.

Definition selected (context : ReducerContext) (r : CustomReducer) : Prop :=
  selector_matches (selector r) context = true.
#[export] Instance selected_dec context r : Decision (selected context r).
Proof. unfold selected. apply _. Defined.

Definition apply (self : ReducerPipeline) (context : ReducerContext) (summary : InvocationSummary)
    : InvocationSummary * ReducerApplyReport :=
  let s := foldl (apply_one context) (MkApply summary (MkReport [] [] [] false) None false)
             (filter (selected context) self) in
  let summary := apply_summary s in
  (if bool_decide (applied (apply_report s) ≠ []) && input_truncated context
   then set_diagnostics (diagnostics summary) (headline summary) true (Some HintLog) summary
   else summary,
   apply_report s).

(** * Theorems *)

(** ** Patterns *)

(** What a pattern means: a star stands for any bytes. *)
Fixpoint glob (pattern value : list Z) : Prop :=
  match pattern with
  | [] => value = []
  | c :: rest =>
      if c =? STAR then ∃ n, (n ≤ length value)%nat ∧ glob rest (drop n value)
      else match value with [] => False | x :: value => c = x ∧ glob rest value end
  end.

Lemma glob_star rest value : glob (STAR :: rest) value ↔
  glob rest value ∨ ∃ n, (0 < n ≤ length value)%nat ∧ glob rest (drop n value).
Proof.
  cbn. split.
  - intros ([|n] & Hn & Hg); [by left|]. right. exists (S n). split; [lia|done].
  - intros [Hg|(n & Hn & Hg)]; [exists 0%nat; split; [lia|done]|exists n; split; [lia|done]].
Qed.

Lemma glob_nil pattern : glob pattern [] ↔ only_stars pattern = true.
Proof.
  induction pattern as [|c rest IH]; [done|]. cbn. destruct (Z.eqb_spec c STAR); [|done].
  cbn [andb]. rewrite <- IH. split; [by intros ([|n] & ? & ?)|]. intros Hg. by exists 0%nat.
Qed.

(** A prefix without stars has to be matched byte by byte. *)
Lemma glob_literal seg rest value :
  STAR ∉ seg → glob (seg ++ rest) value → ∃ value', value = seg ++ value' ∧ glob rest value'.
Proof.
  revert value. induction seg as [|c seg IH]; intros value Hseg Hg; [by exists value|].
  apply not_elem_of_cons in Hseg as [Hc Hseg]. cbn in Hg. destruct (Z.eqb_spec c STAR); [by subst|].
  destruct value as [|x value]; [done|]. destruct Hg as [-> Hg].
  destruct (IH _ Hseg Hg) as (value' & -> & Hg'). by exists value'.
Qed.

(** ** Termination of the matcher *)

Section measure.
Context (pattern value : list Z).

Record WildcardBounds (s : WildcardState) : Prop := {
  bound_pattern : (pattern_index s ≤ length pattern)%nat;
  bound_value : (star_value_index s ≤ value_index s ≤ length value)%nat;
  bound_star : ∀ star, star_index s = Some star → (star < length pattern)%nat;
}.

Definition wildcard_measure (s : WildcardState) : nat :=
  ((length value - star_value_index s) * S (length pattern) + (length pattern - pattern_index s))%nat.

Lemma wildcard_step_measure s s' :
  WildcardBounds s → (value_index s < length value)%nat → wildcard_step pattern value s = Some s' →
  WildcardBounds s' ∧ (wildcard_measure s' < wildcard_measure s)%nat.
Proof.
  intros [Hp Hv Hs] Hlt. destruct s as [pi vi star svi]. unfold wildcard_measure.
  cbn [wildcard_step pattern_index value_index star_index star_value_index] in *.
  case_bool_decide as Heq; [|case_bool_decide as Hstar; [|destruct star as [star|]; [|done]]];
    intros [= <-]; cbn [pattern_index star_value_index].
  - destruct Heq. split; [split; cbn; [lia|lia|done]|lia].
  - apply lookup_lt_Some in Hstar. split; [split; cbn; [lia|lia|by intros ? [= <-]]|nia].
  - specialize (Hs star eq_refl). split; [split; cbn; [lia|lia|by intros ? [= <-]]|nia].
Qed.

Lemma wildcard_loop_total fuel s :
  WildcardBounds s → (wildcard_measure s ≤ fuel)%nat → is_Some (wildcard_loop fuel pattern value s).
Proof.
  revert s. induction fuel as [|fuel IH]; intros s Hs Hfuel; cbn [wildcard_loop];
    destruct (Nat.ltb_spec (value_index s) (length value)) as [Hlt|Hge]; [|by eexists| |by eexists].
  - destruct Hs as [? ? ?]. unfold wildcard_measure in Hfuel. nia.
  - destruct (wildcard_step pattern value s) as [s'|] eqn:Hs'; [|by eexists].
    destruct (wildcard_step_measure _ _ Hs Hlt Hs'). apply IH; [done|lia].
Qed.
End measure.

Section wildcard.
Context (pattern value : list Z) (Hplain : STAR ∉ value).

(** Another start for the part after the last star. *)
Definition later_start (s : WildcardState) : Prop :=
  ∃ star j, star_index s = Some star ∧ (star_value_index s < j ≤ length value)%nat ∧
    glob (drop (S star) pattern) (drop j value).

Record WildcardInv (s : WildcardState) : Prop := {
  wild_bounds : WildcardBounds pattern value s;
  wild_star : ∀ star, star_index s = Some star → ∃ seg,
    drop (S star) pattern = seg ++ drop (pattern_index s) pattern ∧ (STAR ∉ seg) ∧
    value_index s = (star_value_index s + length seg)%nat;
  wild_result : glob pattern value ↔
    glob (drop (pattern_index s) pattern) (drop (value_index s) value) ∨ later_start s;
}.

Lemma wildcard_literal s c :
  WildcardInv s → pattern !! pattern_index s = Some c → value !! value_index s = Some c →
  WildcardInv (MkWildcard (S (pattern_index s)) (S (value_index s)) (star_index s) (star_value_index s)).
Proof.
  intros [[Hp Hv Hbs] Hstar Hresult] Hc Hx. pose proof (lookup_lt_Some _ _ _ Hc). pose proof (lookup_lt_Some _ _ _ Hx).
  assert (c ≠ STAR) as Hne by (intros ->; by eapply Hplain, list_elem_of_lookup_2).
  split; cbn [pattern_index value_index star_index star_value_index]; [by split; cbn; [lia|lia|]| |].
  - intros star Hs. destruct (Hstar star Hs) as (seg & Hseg & Hno & Hlen). exists (seg ++ [c]).
    rewrite Hseg, (drop_S pattern c (pattern_index s)), <- app_assoc by done.
    split_and!; [done|set_solver|rewrite length_app; cbn; lia].
  - rewrite Hresult, (drop_S pattern c (pattern_index s)), (drop_S value c (value_index s)) by done.
    cbn [glob]. destruct (Z.eqb_spec c STAR); [done|]. unfold later_start. naive_solver.
Qed.

Lemma wildcard_new_star s :
  WildcardInv s → pattern !! pattern_index s = Some STAR → (value_index s < length value)%nat →
  WildcardInv (MkWildcard (S (pattern_index s)) (value_index s) (Some (pattern_index s)) (value_index s)).
Proof.
  intros [[Hp Hv Hbs] Hstar Hresult] Hc Hlt. pose proof (lookup_lt_Some _ _ _ Hc).
  split; cbn [pattern_index value_index star_index star_value_index];
    [split; cbn; [lia|lia|by intros ? [= <-]]| |].
  { intros star [= <-]. exists []. split_and!; [done|set_solver|cbn; lia]. }
  rewrite Hresult, (drop_S pattern STAR (pattern_index s)), glob_star by done.
  assert ((∃ n, (0 < n ≤ length (drop (value_index s) value))%nat ∧
             glob (drop (S (pattern_index s)) pattern) (drop n (drop (value_index s) value))) ↔
          later_start (MkWildcard (S (pattern_index s)) (value_index s) (Some (pattern_index s)) (value_index s)))
    as Hlater.
  { unfold later_start. cbn [star_index star_value_index]. rewrite length_drop. split.
    - intros (n & Hn & Hg). rewrite drop_drop in Hg. exists (pattern_index s), (value_index s + n)%nat.
      split_and!; [done|lia|lia|done].
    - intros (star & j & [= <-] & Hj & Hg). exists (j - value_index s)%nat. rewrite drop_drop.
      replace (value_index s + (j - value_index s))%nat with j by lia. split; [lia|done]. }
  rewrite Hlater. split; [|tauto]. intros [?|Hold]; [done|]. right. rewrite <- Hlater.
  destruct Hold as (star & j & Hs & Hj & Hg). destruct (Hstar star Hs) as (seg & Hseg & Hno & Hlen).
  rewrite Hseg in Hg. apply glob_literal in Hg as (value' & Hvalue & Hg); [|done].
  rewrite (drop_S pattern STAR (pattern_index s)) in Hg by done. cbn [glob] in Hg. rewrite Z.eqb_refl in Hg.
  destruct Hg as (n & Hn & Hg).
  assert (length (drop j value) = length seg + length value')%nat as Hsize by (by rewrite Hvalue, length_app).
  rewrite length_drop in Hsize. exists (j + length seg + n - value_index s)%nat.
  rewrite length_drop, drop_drop. split; [lia|].
  replace (value_index s + (j + length seg + n - value_index s))%nat with (j + (length seg + n))%nat by lia.
  rewrite <- drop_drop, Hvalue, <- drop_drop, drop_app_length. done.
Qed.

Lemma later_start_next pi vi star svi : (svi < length value)%nat →
  later_start (MkWildcard pi vi (Some star) svi) ↔
  glob (drop (S star) pattern) (drop (S svi) value) ∨
  later_start (MkWildcard (S star) (S svi) (Some star) (S svi)).
Proof.
  intros Hlt. unfold later_start. cbn [star_index star_value_index]. split.
  - intros (star' & j & [= <-] & Hj & Hg). destruct (decide (j = S svi)) as [->|Hne]; [by left|].
    right. exists star, j. split_and!; [done|lia|lia|done].
  - intros [Hg|(star' & j & [= <-] & Hj & Hg)]; [exists star, (S svi)|exists star, j];
      (split_and!; [done|lia|lia|done]).
Qed.

Lemma wildcard_stuck s c :
  value !! value_index s = Some c → pattern !! pattern_index s ≠ Some c →
  pattern !! pattern_index s ≠ Some STAR → ¬ glob (drop (pattern_index s) pattern) (drop (value_index s) value).
Proof.
  intros Hc Hne Hstar. rewrite (drop_S value c (value_index s)) by done.
  destruct (pattern !! pattern_index s) as [d|] eqn:Hd.
  - rewrite (drop_S pattern d (pattern_index s)) by done. cbn.
    destruct (Z.eqb_spec d STAR); [congruence|]. intros [-> _]. done.
  - apply lookup_ge_None in Hd. by rewrite drop_ge.
Qed.

(** A round keeps the invariant, or refuses a value that does not match. *)
Lemma wildcard_step_inv s :
  WildcardInv s → (value_index s < length value)%nat →
  match wildcard_step pattern value s with
  | Some s' => WildcardInv s'
  | None => ¬ glob pattern value
  end.
Proof.
  intros Hinv Hlt. destruct (lookup_lt_is_Some_2 value _ Hlt) as [c Hc].
  destruct s as [pi vi star svi]. cbn [wildcard_step value_index] in *. rewrite Hc. case_bool_decide as Heq.
  { apply (wildcard_literal (MkWildcard pi vi star svi) c); [done|by apply Heq|done]. }
  case_bool_decide as Hstar; [by apply (wildcard_new_star (MkWildcard pi vi star svi))|].
  assert (pattern !! pi ≠ Some c) as Hne.
  { intros Hp. apply Heq. split; [by eapply lookup_lt_Some|done]. }
  pose proof (wildcard_stuck (MkWildcard pi vi star svi) c Hc Hne Hstar) as Hno.
  destruct Hinv as [[Hp Hv Hbs] Hs Hresult]. cbn [pattern_index value_index star_index star_value_index] in *.
  destruct star as [star|].
  - specialize (Hbs star eq_refl).
    split; cbn [pattern_index value_index star_index star_value_index];
      [split; cbn; [lia|lia|by intros ? [= <-]]| |].
    + intros star' [= <-]. exists []. split_and!; [done|set_solver|cbn; lia].
    + rewrite Hresult, later_start_next by lia. tauto.
  - rewrite Hresult. unfold later_start. cbn. naive_solver.
Qed.

Lemma wildcard_end s :
  WildcardInv s → value_index s = length value →
  glob pattern value ↔ only_stars (drop (pattern_index s) pattern) = true.
Proof.
  intros [[Hp Hv Hbs] Hs ->] Hend. rewrite <- glob_nil, Hend, (drop_ge value) by done.
  split; [|by left]. intros [?|(star & j & Hstar & Hj & Hg)]; [done|]. exfalso.
  destruct (Hs star Hstar) as (seg & Hseg & Hno & Hlen). rewrite Hseg in Hg.
  apply glob_literal in Hg as (value' & Hvalue & _); [|done].
  apply (f_equal length) in Hvalue. rewrite length_drop, length_app in Hvalue. lia.
Qed.

Lemma wildcard_loop_spec fuel s b :
  WildcardInv s → wildcard_loop fuel pattern value s = Some b → b = true ↔ glob pattern value.
Proof.
  revert s. induction fuel as [|fuel IH]; intros s Hinv; cbn [wildcard_loop];
    destruct (Nat.ltb_spec (value_index s) (length value)) as [Hlt|Hge]; [done| | |].
  1, 3: intros [= <-]; rewrite wildcard_end; [done|done|pose proof (bound_value _ _ _ (wild_bounds _ Hinv)); lia].
  pose proof (wildcard_step_inv _ Hinv Hlt) as Hstep.
  destruct (wildcard_step pattern value s) as [s'|]; [by apply IH|]. by intros [= <-].
Qed.
End wildcard.

(** The backtracking matcher always ends, and on labels without a star it
    accepts exactly what the pattern means, a star standing for any text. *)
Theorem wildcard_match_glob pattern value :
  is_Some (wildcard_loop (wildcard_fuel pattern value) pattern value (MkWildcard 0 0 None 0)) ∧
  (STAR ∉ value → wildcard_match pattern value = true ↔ glob pattern value).
Proof.
  assert (WildcardBounds pattern value (MkWildcard 0 0 None 0)) as Hbounds by (split; cbn; [lia|lia|done]).
  assert (is_Some (wildcard_loop (wildcard_fuel pattern value) pattern value (MkWildcard 0 0 None 0))) as Hsome.
  { apply wildcard_loop_total; [done|]. unfold wildcard_measure, wildcard_fuel. cbn. lia. }
  split; [done|]. intros Hplain. unfold wildcard_match. destruct Hsome as [b Hb]. rewrite Hb.
  apply (wildcard_loop_spec pattern value Hplain _ _ b) in Hb; [done|].
  split; [done|done|]. cbn. unfold later_start. cbn. naive_solver.
Qed.

(** ** The pipeline *)

Lemma unique_names_spec names rs :
  is_ok (unique_names names rs) = true ↔
  NoDup (map reducer_name rs) ∧ ∀ r, r ∈ rs → reducer_name r ∉ names.
Proof.
  revert names. induction rs as [|r rs IH]; intros names; cbn.
  { split; [|done]. intros _. split; [constructor|set_solver]. }
  case_bool_decide as Hin; cbn.
  { split; [done|]. intros [_ H]. destruct (H r); [set_solver|done]. }
  rewrite IH, NoDup_cons. split.
  - intros [Hnd Hnew]. split_and!; [|done|set_solver].
    intros (r' & Heq & Hr')%list_elem_of_fmap. specialize (Hnew r' Hr'). set_solver.
  - intros [[Hr Hnd] Hnew]. split; [done|]. intros r' Hr' [Heq%elem_of_singleton|Hn]%elem_of_union; [|set_solver].
    apply Hr, list_elem_of_fmap. by exists r'.
Qed.

Lemma reducer_leb_trans a b c : reducer_leb a b = true → reducer_leb b c = true → reducer_leb a c = true.
Proof.
  unfold reducer_leb. rewrite !orb_true_iff, !andb_true_iff, !str_leb_lt, !Z.ltb_lt, !Z.eqb_eq.
  intros [?|[? H1]] [?|[? H2]]; [left; lia..|]. right. split; [lia|].
  destruct H1 as [H1|H1], H2 as [H2|H2];
    [left; by etrans|left; congruence|left; congruence|right; congruence].
Qed.
Lemma reducer_leb_total a b : reducer_leb a b = true ∨ reducer_leb b a = true.
Proof.
  unfold reducer_leb. rewrite !orb_true_iff, !andb_true_iff, !str_leb_lt, !Z.ltb_lt, !Z.eqb_eq.
  destruct (Z.lt_trichotomy (priority a) (priority b)) as [?|[?|?]]; [auto| |auto].
  destruct (trichotomyT str_lt (reducer_name a) (reducer_name b)) as [[?|?]|?]; auto 7.
Qed.
Lemma reducer_leb_antisym a b : reducer_leb a b = true → reducer_leb b a = true → reducer_name a = reducer_name b.
Proof.
  unfold reducer_leb. rewrite !orb_true_iff, !andb_true_iff, !str_leb_lt, !Z.ltb_lt, !Z.eqb_eq.
  intros [?|[? H1]] [?|[? H2]]; [lia..|]. destruct H1 as [H1|H1], H2 as [H2|H2]; try congruence.
  exfalso. apply (irreflexivity str_lt (reducer_name a)). by etrans.
Qed.

Lemma NoDup_map_inj {A B} (f : A → B) l x y :
  NoDup (map f l) → x ∈ l → y ∈ l → f x = f y → x = y.
Proof.
  intros Hnd (i & Hi)%list_elem_of_lookup (j & Hj)%list_elem_of_lookup Heq.
  assert (i = j) as ->; [|congruence]. apply (NoDup_lookup (map f l) i j (f x)); [done| |].
  - change (map f l) with (f <$> l). by rewrite list_lookup_fmap, Hi.
  - change (map f l) with (f <$> l). by rewrite list_lookup_fmap, Hj, Heq.
Qed.

(** Registering reducers is deterministic: with distinct names every order
    of registration gives the same pipeline, by descending priority and then by
    name; with a repeated name every order is refused. *)
Theorem new_pipeline_deterministic rs1 rs2 :
  rs1 ≡ₚ rs2 →
  if bool_decide (NoDup (map reducer_name rs1))
  then ∃ pipeline, new_pipeline rs1 = Ok pipeline ∧ new_pipeline rs2 = Ok pipeline ∧ pipeline ≡ₚ rs1 ∧
    StronglySorted (fun a b => reducer_leb a b = true) pipeline
  else is_ok (new_pipeline rs1) = false ∧ is_ok (new_pipeline rs2) = false.
Proof.
  intros Hperm.
  assert (∀ rs, is_ok (unique_names ∅ rs) = true ↔ NoDup (map reducer_name rs)) as Hok.
  { intros rs. rewrite unique_names_spec. set_solver. }
  assert (NoDup (map reducer_name rs1) ↔ NoDup (map reducer_name rs2)) as Hiff by (by rewrite Hperm).
  unfold new_pipeline. case_bool_decide as Hnd.
  - pose proof (proj2 (Hok rs1) Hnd) as H1. pose proof (proj2 (Hok rs2) (proj1 Hiff Hnd)) as H2.
    destruct (unique_names ∅ rs1) as [[]|] eqn:E1; [|by cbn in H1].
    destruct (unique_names ∅ rs2) as [[]|] eqn:E2; [|by cbn in H2]. cbn.
    pose proof (stable_sort_sorted reducer_leb reducer_leb_trans reducer_leb_total) as Hsorted.
    exists (stable_sort reducer_leb rs1). split_and!; [done| |apply stable_sort_perm|apply Hsorted].
    f_equal. apply (StronglySorted_unique_strong (Leb reducer_leb)); [|apply Hsorted..|].
    + intros x y Hx Hy Hxy Hyx. rewrite stable_sort_perm in Hx, Hy. rewrite <- Hperm in Hx.
      apply (NoDup_map_inj reducer_name rs1); [done..|]. by apply reducer_leb_antisym.
    + by rewrite !stable_sort_perm.
  - destruct (unique_names ∅ rs1) eqn:H1; [exfalso; apply Hnd, Hok; by rewrite H1|].
    destruct (unique_names ∅ rs2) eqn:H2; [exfalso; apply Hnd, Hiff, Hok; by rewrite H2|]. done.
Qed.

(** States that agree on what was applied; failures and collisions are only
    reported. *)
Definition same_effect (s1 s2 : ApplyState) : Prop :=
  apply_summary s1 = apply_summary s2 ∧ applied (apply_report s1) = applied (apply_report s2) ∧
  headline_applied (apply_report s1) = headline_applied (apply_report s2) ∧
  override_owner s1 = override_owner s2 ∧ headline_set s1 = headline_set s2.

#[export] Instance same_effect_equiv : Equivalence same_effect.
Proof. unfold same_effect. split; [intros s|intros s1 s2|intros s1 s2 s3]; naive_solver congruence. Qed.

#[export] Instance apply_one_proper context r : Proper (same_effect ==> same_effect) (fun s => apply_one context s r).
Proof.
  intros s1 s2 (Hsum & Happ & Hhead & Hown & Hset). unfold apply_one. rewrite Hown.
  destruct (if bool_decide (mode r = OverrideMatching) then override_owner s2 else None).
  { by unfold same_effect. }
  destruct (reduce r context) as [patch|]; [|by unfold same_effect].
  destruct (patch_is_empty patch); [by unfold same_effect|].
  unfold same_effect, apply_patch. cbn. rewrite Hsum, Happ, Hhead, Hown, Hset. done.
Qed.

(** A reducer that has something to say. *)
Definition effective (context : ReducerContext) (r : CustomReducer) : Prop :=
  match reduce r context with Ok patch => patch_is_empty patch = false | Err _ => False end.
#[export] Instance effective_dec context r : Decision (effective context r).
Proof. unfold effective. destruct (reduce r context); apply _. Defined.

Lemma apply_one_ineffective context s r : ¬ effective context r → same_effect (apply_one context s r) s.
Proof.
  unfold effective, apply_one. intros Hr.
  destruct (if bool_decide (mode r = OverrideMatching) then override_owner s else None); [done|].
  destruct (reduce r context) as [patch|]; [|done].
  destruct (patch_is_empty patch); [reflexivity|done].
Qed.

Lemma foldl_effective context s1 s2 rs : same_effect s1 s2 →
  same_effect (foldl (apply_one context) s1 rs) (foldl (apply_one context) s2 (filter (effective context) rs)).
Proof.
  revert s1 s2. induction rs as [|r rs IH]; intros s1 s2 Hs; [done|]. cbn [foldl]. rewrite filter_cons.
  case_decide as Hr; cbn [foldl]; apply IH; [by apply (apply_one_proper context r)|].
  by rewrite (apply_one_ineffective context s1 r Hr).
Qed.

(** Every override that was applied is the owner. *)
Definition owned (rs : list CustomReducer) (s : ApplyState) : Prop :=
  ∀ r, r ∈ rs → mode r = OverrideMatching → reducer_name r ∈ applied (apply_report s) →
    override_owner s = Some (reducer_name r).

Lemma apply_one_owned context rs s r :
  NoDup (map reducer_name rs) → r ∈ rs → owned rs s → owned rs (apply_one context s r).
Proof.
  intros Hnd Hr Hs. unfold apply_one. destruct (decide (mode r = OverrideMatching)) as [Hm|Hm].
  - rewrite bool_decide_true by done. destruct (override_owner s) as [owner|] eqn:Hown.
    { intros r' Hr' Hm' Hin. cbn in *. rewrite <- Hown. by apply Hs. }
    destruct (reduce r context) as [patch|];
      [|intros r' Hr' Hm' Hin; cbn in *; rewrite <- Hown; by apply Hs].
    destruct (patch_is_empty patch); [exact Hs|]. intros r' Hr' Hm'. cbn. rewrite bool_decide_true by done.
    rewrite elem_of_app, list_elem_of_singleton. intros [Hin|Hin]; [|congruence].
    apply (Hs r' Hr' Hm') in Hin. congruence.
  - rewrite bool_decide_false by done. destruct (reduce r context) as [patch|]; [|exact Hs].
    destruct (patch_is_empty patch); [exact Hs|]. intros r' Hr' Hm'. cbn. rewrite bool_decide_false by done.
    rewrite elem_of_app, list_elem_of_singleton. intros [Hin|Hin]; [by apply Hs|].
    assert (r' = r) as -> by (by apply (NoDup_map_inj reducer_name rs)). done.
Qed.

Lemma foldl_owned context rs s rs' :
  NoDup (map reducer_name rs) → (∀ r, r ∈ rs' → r ∈ rs) → owned rs s →
  owned rs (foldl (apply_one context) s rs').
Proof.
  intros Hnd. revert s. induction rs' as [|r rs' IH]; intros s Hsub Hs; [done|]. cbn.
  apply IH; [set_solver|]. apply apply_one_owned; [done|set_solver|done].
Qed.

(** The summary a pipeline produces depends only on the reducers that
    match, succeed and have something to say: one that fails or says nothing
    changes neither the summary nor what the report lists as applied. And of
    all the reducers that override, at most one is applied. *)
Theorem apply_isolates_failures pipeline context summary :
  NoDup (map reducer_name pipeline) →
  let effective_only := filter (effective context) pipeline in
  (apply pipeline context summary).1 = (apply effective_only context summary).1 ∧
  applied (apply pipeline context summary).2 = applied (apply effective_only context summary).2 ∧
  (∀ r1 r2, r1 ∈ pipeline → r2 ∈ pipeline →
    mode r1 = OverrideMatching → mode r2 = OverrideMatching →
    reducer_name r1 ∈ applied (apply pipeline context summary).2 →
    reducer_name r2 ∈ applied (apply pipeline context summary).2 → r1 = r2).
Proof.
  intros Hnd effective_only. unfold apply, effective_only. cbn [fst snd].
  set (s0 := MkApply summary (MkReport [] [] [] false) None false).
  set (matching := filter (selected context) pipeline).
  assert (filter (selected context) (filter (effective context) pipeline)
    = filter (effective context) matching) as ->.
  { unfold matching. rewrite !list_filter_filter. apply list_filter_iff. tauto. }
  assert (same_effect (foldl (apply_one context) s0 matching)
            (foldl (apply_one context) s0 (filter (effective context) matching))) as (-> & Happ & _)
    by (by apply foldl_effective).
  rewrite Happ. split_and!; [done|done|]. rewrite <- Happ.
  intros r1 r2 Hr1 Hr2 Hm1 Hm2 H1 H2.
  assert (owned pipeline (foldl (apply_one context) s0 matching)) as Howned.
  { apply foldl_owned; [done| |intros ? ? ? Hin; cbn in Hin; set_solver].
    intros r [_ Hr]%list_elem_of_filter. done. }
  apply Howned in H1, H2; [|done..]. apply (NoDup_map_inj reducer_name pipeline); [done..|congruence].
Qed.

(** * Witnesses *)

Module ExtensionExamples.
Definition example_summary : InvocationSummary :=
  MkSummary false "Bazel failed" [] (MkTargetCounts 0 0 0) [] [] (MkTestCounts 0 0 0 0 0) None [] None 5 false None.
Definition example_context : ReducerContext :=
  MkContext 1 "build" [] (Some 1) 5 "" "" [MkReducerEvent 0 EvTarget (Some "//app:lib") None None (Some false) None None]
    false example_summary.

Definition always (name : string) (mode : ReducerMode) (answer : result ReducerError ReducerPatch) : CustomReducer :=
  MkReducer name 0 mode (MkSelector ∅ ["//app/..."; "//app:*"] ∅ ∅) (fun _ => answer).

Definition speaks : CustomReducer := always "speaks" OverrideMatching (Ok (MkPatch (Some "One cause") [] true)).
Definition fails : CustomReducer := always "fails" Augment (Err (MkReducerError "boom")).
Definition silent : CustomReducer := always "silent" OverrideMatching (Ok (MkPatch None [] false)).

Lemma new_pipeline_deterministic_witness :
  new_pipeline [speaks; fails; silent] = Ok [fails; silent; speaks] ∧
  ∃ pipeline, new_pipeline [speaks; fails; silent] = Ok pipeline ∧ new_pipeline [silent; speaks; fails] = Ok pipeline ∧
    pipeline ≡ₚ [speaks; fails; silent] ∧ StronglySorted (fun a b => reducer_leb a b = true) pipeline.
Proof.
  split; [vm_compute; reflexivity|].
  assert ([speaks; fails; silent] ≡ₚ [silent; speaks; fails]) as Hperm.
  { rewrite Permutation_swap. rewrite (Permutation_cons_append [speaks; silent] fails).
    cbn. apply Permutation_swap. }
  pose proof (new_pipeline_deterministic _ _ Hperm) as H. rewrite bool_decide_true in H; [exact H|].
  apply (bool_decide_unpack _). vm_compute. exact I.
Defined.

Lemma apply_isolates_failures_witness :
  headline (apply [fails; silent; speaks] example_context example_summary).1 = "One cause" ∧
  (apply [fails; silent; speaks] example_context example_summary).1
  = (apply (filter (effective example_context) [fails; silent; speaks]) example_context example_summary).1.
Proof.
  split; [vm_compute; reflexivity|]. apply apply_isolates_failures.
  apply (bool_decide_unpack _). vm_compute. exact I.
Defined.

(** A star in the label is taken literally where the pattern has one, so the
    rest of the label has to match the rest of the pattern. *)
Example star_in_label :
  wildcard_match (bytes_of "//app:*") (bytes_of "//app:*_test") = false ∧
  wildcard_match (bytes_of "//app:*") (bytes_of "//app:a_test") = true.
Proof. vm_compute. done. Qed.
End ExtensionExamples.
