(* ===== verification/Reduction.v ===== *)
(** * Reduction of build events (crates/bazel-mcp-reducer/src/build.rs)

    [BepAccumulator] keeps, within fixed limits, what the summary of an
    invocation needs of a stream of build events; [finish] turns it into the
    summary and the artifacts.  [reduce_invocation], [reduce_artifacts] and
    [extract_canonical_arguments] compute the same from the list of all events
    without limits. *)

From stdpp Require Import pretty.
From S2P Require Import Prelude Collections Types Diagnostics Extension.
#[local] Open Scope Z_scope.

#[export] Instance TestStatus_eq_dec : EqDecision TestStatus.
Proof. solve_decision. Defined.

(** ** Decoded events

    The fields of the generated protobuf views that the reducer reads.  The
    identifier is what [decode_event_id] gives, when it decodes and is set. *)

Inductive FileContent : Type :=
| FileUri (uri : string)
| FileContents (contents : list Z)
| SymlinkTargetPath (path : string).

Record FileView : Type := MkFile {
  path_prefix : list string;
  file_name : string;
  file : option FileContent;
  file_length : Z;
}.

Inductive EventId : Type :=
| IdTargetCompleted (label : string)
| IdActionCompleted (label : string)
| IdTestSummary (label : string)
| IdTestResult (label : string)
| IdUnconfiguredLabel (label : string)
| IdConfiguredLabel (label : string)
| IdNamedSet (id : string)
| IdOther.

Record OutputGroup : Type := MkOutputGroup {
  group_file_sets : list string;
  inline_files : list FileView;
}.

Inductive Payload : Type :=
| Aborted (reason : Z) (description : string)
| Action (success : bool) (action_type label : string) (exit_code : Z) (primary_output : option FileView)
| Completed (success : bool) (target_kind : string) (output_group : list OutputGroup)
    (important_output directory_output : list FileView)
| TestSummary (overall_status total_run_duration_millis attempt_count shard_count : Z)
| TestResultPayload (status : Z) (test_action_output : list FileView)
| NamedSetOfFiles (files : list FileView) (file_sets : list string)
| OptionsParsed (startup_options cmd_line : list string)
| Finished (overall_success : bool) (finished_exit_code : option Z)
| ExecRequest (should_exec : bool)
| Started
| OtherPayload.

Record BepEvent : Type := MkEvent { event_id : option EventId; payload : option Payload }.

(** ** Helpers *)

Definition nonempty (value : string) : option string :=
  if bool_decide (value = "") then None else Some value.

Definition label_from_id (id : option EventId) : option string :=
  match id with
  | Some (IdTargetCompleted label) | Some (IdActionCompleted label) | Some (IdTestSummary label)
  | Some (IdTestResult label) | Some (IdUnconfiguredLabel label) | Some (IdConfiguredLabel label) =>
      nonempty label
  | _ => None
  end.

Definition test_status_of (value : Z) : TestStatus :=
  match value with
  | 1 => TestPassed
  | 2 => TestFlaky
  | 3 => TestTimedOut
  | 4 | 7 | 8 => TestFailed
  | 5 => TestIncomplete
  | 6 => TestRemote
  | _ => TestIncomplete
  end.

Definition abort_category (reason : Z) : DiagnosticCategory :=
  match reason with 5 => CatLoading | 6 => CatAnalysis | _ => CatBazel end.

Definition option_len (o : option string) : Z := from_option str_len 0 o.

(** [u64::try_from(i64).ok()] and [u32::try_from(i32)]. *)
Definition try_from_signed (z : Z) : option Z := if z <? 0 then None else Some z.

(** [parts.join("/")]. *)
Fixpoint join (sep : string) (parts : list string) : string :=
  match parts with
  | [] => ""
  | [part] => part
  | part :: rest => part +:+ sep +:+ join sep rest
  end.

(** [str::contains] and [str::ends_with]. *)
Fixpoint str_contains (value needle : string) : bool :=
  starts_with value needle ||
  match value with EmptyString => false | String _ rest => str_contains rest needle end.
Definition str_ends_with (value suffix : string) : bool :=
  bool_decide (is_Some (strip_suffix suffix value)).

Definition file_artifact (f : FileView) : option Artifact :=
  let name := bounded_text
    (join "/" (filter (fun part => part ≠ "") (path_prefix f ++ [file_name f]))) 1000 in
  '(uri, kind, local) ←
    match file f with
    | Some (FileUri uri) =>
        let kind :=
          if bool_decide (file_name f = "test.log") || bool_decide (file_name f = "test.xml") then TestLog
          else if str_contains (file_name f) "coverage" || str_ends_with (file_name f) ".dat"
          then CoverageArtifact
          else if starts_with uri "file:" then File
          else Remote in
        Some (bounded_text uri 1000, kind, starts_with uri "file:")
    | Some (SymlinkTargetPath target) => Some (bounded_text target 1000, File, true)
    | Some (FileContents _) => Some ("inline://redacted", File, true)
    | None => None
    end;
  Some (MkArtifact name kind uri (try_from_signed (file_length f)) local).

Definition test_outcome_diagnostic (label : string) (status : TestStatus) : option Diagnostic :=
  let diagnostic severity message :=
    Some (MkDiagnostic severity CatTest message None (Some label) None 1) in
  match status with
  | TestPassed | TestSkipped => None
  | TestFlaky => diagnostic SevWarning ("Test was flaky: " +:+ label)
  | TestFailed => diagnostic SevError ("Test failed: " +:+ label)
  | TestTimedOut => diagnostic SevError ("Test timed out: " +:+ label)
  | TestIncomplete => diagnostic SevError ("Test was incomplete: " +:+ label)
  | TestRemote => diagnostic SevError ("Test result was unavailable: " +:+ label)
  end.

Definition abort_diagnostic (id : option EventId) (reason : Z) (message : string) : Diagnostic :=
  MkDiagnostic SevError (abort_category reason) message None (label_from_id id) None 1.

Definition or_else {A} (a b : option A) : option A := match a with Some _ => a | None => b end.

Definition action_diagnostic (id : option EventId) (action_type label : string) (exit_code : Z) : Diagnostic :=
  MkDiagnostic SevError CatAction
    ((if bool_decide (action_type = "") then "Bazel" else action_type)
       +:+ " action failed with exit code " +:+ pretty exit_code)
    None (or_else (label_from_id id) (nonempty label)) (nonempty action_type) 1.

Definition summary_test (label : string) (status : TestStatus) (duration attempts shards : Z) : TestResult :=
  MkTestResult label status (try_from_signed duration) (Z.max attempts 1)
    (if 0 <? shards then Some shards else None) [] false
    (if bool_decide (status = TestPassed) then None else Some "test_log_not_snapshotted").

Definition unknown_target : string := "<unknown target>".
Definition unknown_test : string := "<unknown test>".

(** ** The accumulator *)

Definition STREAM_MAX_ITEMS : Z := 250000.
Definition STREAM_MAX_RETAINED_BYTES : Z := 64 * 1024 * 1024.

Record OwnedNamedSet : Type := MkNamedSet { set_files : list Artifact; set_children : list string }.

Record TestAttemptOutcome : Type := MkAttempts {
  attempts_passed : bool; attempts_not_passed : bool; attempts_flaky : bool; attempts_count : Z;
}.
Definition default_attempts : TestAttemptOutcome := MkAttempts false false false 0.

Definition attempts_observe (self : TestAttemptOutcome) (status : TestStatus) : TestAttemptOutcome :=
  let '(MkAttempts passed not_passed flaky count) := self in
  let count := u32_add count 1 in
  match status with
  | TestPassed => MkAttempts true not_passed flaky count
  | TestFlaky => MkAttempts passed not_passed true count
  | _ => MkAttempts passed true flaky count
  end.

Definition successful_status (self : TestAttemptOutcome) : option TestStatus :=
  if attempts_flaky self || (attempts_passed self && attempts_not_passed self) then Some TestFlaky
  else if attempts_passed self then Some TestPassed
  else None.

Record RunBepOutcome : Type := MkRunBep {
  build_success : option bool;
  exec_request_should_execute : option bool;
  test_result_seen : bool;
  recovered_test_targets : Z;
}.
Definition default_run_bep : RunBepOutcome := MkRunBep None None false 0.

Record ExtensionEventCollector : Type := MkCollector {
  collected : list ReducerEvent;
  collected_bytes : Z;
  collector_max_events : Z;
  collector_max_bytes : Z;
  collector_truncated : bool;
}.

Record BepAccumulator : Type := MkAcc {
  acc_diagnostics : list Diagnostic;
  acc_targets : list TargetResult;
  acc_tests : list TestResult;
  test_attempts : gmap string TestAttemptOutcome;
  named_sets : gmap string OwnedNamedSet;
  artifact_roots : list string;
  direct_artifacts : list Artifact;
  acc_canonical_arguments : option (list string);
  run_bep_outcome : RunBepOutcome;
  retained_items : Z;
  retained_bytes : Z;
  acc_truncated : bool;
  extension : option ExtensionEventCollector;
  next_event_ordinal : Z;
}.

Definition default_accumulator : BepAccumulator :=
  MkAcc [] [] [] ∅ ∅ [] [] None default_run_bep 0 0 false None 0.

Definition set_extension (e : option ExtensionEventCollector) (a : BepAccumulator) : BepAccumulator :=
  MkAcc (acc_diagnostics a) (acc_targets a) (acc_tests a) (test_attempts a) (named_sets a)
    (artifact_roots a) (direct_artifacts a) (acc_canonical_arguments a) (run_bep_outcome a)
    (retained_items a) (retained_bytes a) (acc_truncated a) e (next_event_ordinal a).

Definition with_extension_events (max_events max_bytes : Z) : BepAccumulator :=
  set_extension (Some (MkCollector [] 0 max_events max_bytes false)) default_accumulator.

(** [reserve]: the flag tells whether there is room. *)
Definition reserve (a : BepAccumulator) (items bytes : Z) : BepAccumulator * bool :=
  let next_items := u64_add (retained_items a) items in
  let next_bytes := u64_add (retained_bytes a) bytes in
  let over := (STREAM_MAX_ITEMS <? next_items) || (STREAM_MAX_RETAINED_BYTES <? next_bytes) in
  (MkAcc (acc_diagnostics a) (acc_targets a) (acc_tests a) (test_attempts a) (named_sets a)
     (artifact_roots a) (direct_artifacts a) (acc_canonical_arguments a) (run_bep_outcome a)
     (if over then retained_items a else next_items) (if over then retained_bytes a else next_bytes)
     (if over then true else acc_truncated a) (extension a) (next_event_ordinal a),
   negb over).

(** The field updates of [observe_view], each after a successful [reserve]. *)
Definition if_reserved (items bytes : Z) (update : BepAccumulator → BepAccumulator) (a : BepAccumulator)
    : BepAccumulator :=
  let '(a, room) := reserve a items bytes in if room then update a else a.

Definition add_diagnostic (d : Diagnostic) (a : BepAccumulator) : BepAccumulator :=
  MkAcc (acc_diagnostics a ++ [d]) (acc_targets a) (acc_tests a) (test_attempts a) (named_sets a)
    (artifact_roots a) (direct_artifacts a) (acc_canonical_arguments a) (run_bep_outcome a)
    (retained_items a) (retained_bytes a) (acc_truncated a) (extension a) (next_event_ordinal a).
Definition add_target (t : TargetResult) (a : BepAccumulator) : BepAccumulator :=
  MkAcc (acc_diagnostics a) (acc_targets a ++ [t]) (acc_tests a) (test_attempts a) (named_sets a)
    (artifact_roots a) (direct_artifacts a) (acc_canonical_arguments a) (run_bep_outcome a)
    (retained_items a) (retained_bytes a) (acc_truncated a) (extension a) (next_event_ordinal a).
Definition add_test (t : TestResult) (a : BepAccumulator) : BepAccumulator :=
  MkAcc (acc_diagnostics a) (acc_targets a) (acc_tests a ++ [t]) (test_attempts a) (named_sets a)
    (artifact_roots a) (direct_artifacts a) (acc_canonical_arguments a) (run_bep_outcome a)
    (retained_items a) (retained_bytes a) (acc_truncated a) (extension a) (next_event_ordinal a).
Definition set_attempts (label : string) (t : TestAttemptOutcome) (a : BepAccumulator) : BepAccumulator :=
  MkAcc (acc_diagnostics a) (acc_targets a) (acc_tests a) (<[label := t]> (test_attempts a)) (named_sets a)
    (artifact_roots a) (direct_artifacts a) (acc_canonical_arguments a) (run_bep_outcome a)
    (retained_items a) (retained_bytes a) (acc_truncated a) (extension a) (next_event_ordinal a).
Definition add_named_set (key : string) (s : OwnedNamedSet) (a : BepAccumulator) : BepAccumulator :=
  MkAcc (acc_diagnostics a) (acc_targets a) (acc_tests a) (test_attempts a) (<[key := s]> (named_sets a))
    (artifact_roots a) (direct_artifacts a) (acc_canonical_arguments a) (run_bep_outcome a)
    (retained_items a) (retained_bytes a) (acc_truncated a) (extension a) (next_event_ordinal a).
Definition add_root (id : string) (a : BepAccumulator) : BepAccumulator :=
  MkAcc (acc_diagnostics a) (acc_targets a) (acc_tests a) (test_attempts a) (named_sets a)
    (artifact_roots a ++ [id]) (direct_artifacts a) (acc_canonical_arguments a) (run_bep_outcome a)
    (retained_items a) (retained_bytes a) (acc_truncated a) (extension a) (next_event_ordinal a).
Definition add_direct (x : Artifact) (a : BepAccumulator) : BepAccumulator :=
  MkAcc (acc_diagnostics a) (acc_targets a) (acc_tests a) (test_attempts a) (named_sets a)
    (artifact_roots a) (direct_artifacts a ++ [x]) (acc_canonical_arguments a) (run_bep_outcome a)
    (retained_items a) (retained_bytes a) (acc_truncated a) (extension a) (next_event_ordinal a).
Definition set_canonical (arguments : list string) (a : BepAccumulator) : BepAccumulator :=
  MkAcc (acc_diagnostics a) (acc_targets a) (acc_tests a) (test_attempts a) (named_sets a)
    (artifact_roots a) (direct_artifacts a) (Some arguments) (run_bep_outcome a)
    (retained_items a) (retained_bytes a) (acc_truncated a) (extension a) (next_event_ordinal a).
Definition set_run_bep (o : RunBepOutcome) (a : BepAccumulator) : BepAccumulator :=
  MkAcc (acc_diagnostics a) (acc_targets a) (acc_tests a) (test_attempts a) (named_sets a)
    (artifact_roots a) (direct_artifacts a) (acc_canonical_arguments a) o
    (retained_items a) (retained_bytes a) (acc_truncated a) (extension a) (next_event_ordinal a).
Definition set_ordinal (n : Z) (a : BepAccumulator) : BepAccumulator :=
  MkAcc (acc_diagnostics a) (acc_targets a) (acc_tests a) (test_attempts a) (named_sets a)
    (artifact_roots a) (direct_artifacts a) (acc_canonical_arguments a) (run_bep_outcome a)
    (retained_items a) (retained_bytes a) (acc_truncated a) (extension a) n.

Definition push_diagnostic (d : Diagnostic) : BepAccumulator → BepAccumulator :=
  if_reserved 1 (str_len (message d) + option_len (diagnostic_target d) + option_len (action d)) (add_diagnostic d).

Definition push_root (id : string) : BepAccumulator → BepAccumulator :=
  let id := bounded_text id (4 * 1024) in if_reserved 1 (str_len id) (add_root id).

Definition artifact_bytes (x : Artifact) : Z := str_len (artifact_name x) + str_len (uri x).
Definition push_direct_artifact (x : Artifact) : BepAccumulator → BepAccumulator :=
  if_reserved 1 (artifact_bytes x) (add_direct x).

(** [if let Some(artifact) = file_artifact(file) { self.push_direct_artifact(artifact) }]. *)
Definition push_file (a : BepAccumulator) (f : FileView) : BepAccumulator :=
  match file_artifact f with Some x => push_direct_artifact x a | None => a end.

(** *** Events for custom reducers *)

Definition reducer_event_bytes (e : ReducerEvent) : Z :=
  option_len (event_label e) + option_len (event_target_kind e) + option_len (event_action_type e)
  + option_len (event_message e).

(** [ExtensionEventCollector::push]. *)
Definition collector_push (c : ExtensionEventCollector) (e : ReducerEvent) : ExtensionEventCollector :=
  let bytes := reducer_event_bytes e in
  if (collector_max_events c <=? Z.of_nat (length (collected c)))
     || (collector_max_bytes c <? u64_add (collected_bytes c) bytes)
  then MkCollector (collected c) (collected_bytes c) (collector_max_events c) (collector_max_bytes c) true
  else MkCollector (collected c ++ [e]) (u64_add (collected_bytes c) bytes) (collector_max_events c)
         (collector_max_bytes c) (collector_truncated c).

Definition reducer_event (e : BepEvent) (ordinal : Z) : option ReducerEvent :=
  match payload e with
  | Some (Aborted _ description) =>
      Some (MkReducerEvent ordinal EvAborted (label_from_id (event_id e)) None None (Some false) None
              (Some (bounded_text description (64 * 1024))))
  | Some (Action success action_type label exit_code _) =>
      Some (MkReducerEvent ordinal EvAction (or_else (label_from_id (event_id e)) (nonempty label)) None
              (nonempty action_type) (Some success) (Some exit_code) None)
  | Some (Completed success target_kind _ _ _) =>
      Some (MkReducerEvent ordinal EvTarget (label_from_id (event_id e)) (nonempty target_kind) None
              (Some success) None None)
  | Some (TestSummary overall_status _ _ _) =>
      Some (MkReducerEvent ordinal EvTestSummary (label_from_id (event_id e)) None None
              (Some (bool_decide (test_status_of overall_status = TestPassed))) None None)
  | _ => None
  end.

Definition observe_extension_event (e : BepEvent) (ordinal : Z) (a : BepAccumulator) : BepAccumulator :=
  match extension a with
  | None => a
  | Some collector =>
      match reducer_event e ordinal with
      | Some event => set_extension (Some (collector_push collector event)) a
      | None => a
      end
  end.

(** *** Observing an event *)

Definition observe_group (a : BepAccumulator) (g : OutputGroup) : BepAccumulator :=
  foldl push_file (foldl (fun a id => push_root id a) a (group_file_sets g)) (inline_files g).

Definition owned_named_set (files : list FileView) (file_sets : list string) : OwnedNamedSet :=
  MkNamedSet (omap file_artifact files) (map (fun id => bounded_text id (4 * 1024)) file_sets).
Definition named_set_bytes (key : string) (s : OwnedNamedSet) : Z :=
  str_len key + foldr (fun x total => artifact_bytes x + total) 0 (set_files s)
  + foldr (fun id total => str_len id + total) 0 (set_children s).
Definition named_set_items (s : OwnedNamedSet) : Z :=
  u64_add (u64_add 1 (Z.of_nat (length (set_files s)))) (Z.of_nat (length (set_children s))).

Definition observe_test_result (label : option string) (status : TestStatus) (a : BepAccumulator)
    : BepAccumulator :=
  match label with
  | None => a
  | Some label =>
      match test_attempts a !! label with
      | Some attempts => set_attempts label (attempts_observe attempts status) a
      | None => if_reserved 1 (str_len label) (set_attempts label (attempts_observe default_attempts status)) a
      end
  end.

Definition observe_payload (id : option EventId) (p : option Payload) (a : BepAccumulator) : BepAccumulator :=
  match p with
  | Some (Aborted reason description) =>
      push_diagnostic (abort_diagnostic id reason (bounded_text description (64 * 1024))) a
  | Some (Action false action_type label exit_code primary_output) =>
      let a := push_diagnostic (action_diagnostic id action_type label exit_code) a in
      match primary_output with Some output => push_file a output | None => a end
  | Some (Completed success _ output_group important_output directory_output) =>
      let target := MkTargetResult (default unknown_target (label_from_id id)) success in
      let a := if_reserved 1 (str_len (target_label target)) (add_target target) a in
      let a := foldl observe_group a output_group in
      foldl push_file a (important_output ++ directory_output)
  | Some (TestSummary overall_status duration attempt_count shard_count) =>
      let label := default unknown_test (label_from_id id) in
      let status := test_status_of overall_status in
      let a := match test_outcome_diagnostic label status with
               | Some d => push_diagnostic d a | None => a
               end in
      let test := summary_test label status duration attempt_count shard_count in
      if_reserved 1 (str_len label + option_len (test_log_unavailable_reason test)) (add_test test) a
  | Some (TestResultPayload status test_action_output) =>
      let o := run_bep_outcome a in
      let a := set_run_bep (MkRunBep (build_success o) (exec_request_should_execute o) true
                              (recovered_test_targets o)) a in
      let a := observe_test_result (label_from_id id) (test_status_of status) a in
      foldl push_file a test_action_output
  | Some (NamedSetOfFiles files file_sets) =>
      match id with
      | Some (IdNamedSet set_id) =>
          let s := owned_named_set files file_sets in
          let key := bounded_text set_id (4 * 1024) in
          if_reserved (named_set_items s) (named_set_bytes key s) (add_named_set key s) a
      | _ => a
      end
  | Some (OptionsParsed startup_options cmd_line) =>
      match acc_canonical_arguments a with
      | Some _ => a
      | None =>
          let arguments := map (fun value => bounded_text value (64 * 1024)) (startup_options ++ cmd_line) in
          if_reserved (Z.of_nat (length arguments)) (foldr (fun value total => str_len value + total) 0 arguments)
            (set_canonical arguments) a
      end
  | Some (Finished overall_success _) =>
      let o := run_bep_outcome a in
      set_run_bep (MkRunBep (Some overall_success) (exec_request_should_execute o) (test_result_seen o)
                     (recovered_test_targets o)) a
  | Some (ExecRequest should_exec) =>
      let o := run_bep_outcome a in
      set_run_bep (MkRunBep (build_success o) (Some should_exec) (test_result_seen o)
                     (recovered_test_targets o)) a
  | _ => a
  end.

(** [observe_view]. *)
Definition observe (a : BepAccumulator) (e : BepEvent) : BepAccumulator :=
  let ordinal := next_event_ordinal a in
  let a := set_ordinal (u64_add ordinal 1) a in
  observe_payload (event_id e) (payload e) (observe_extension_event e ordinal a).

(** ** Following named sets *)

Section resolve.
Context {F : Type} (sets : gmap string (list F * list string)).

(** The stack [pending], its top first: popping takes the last id pushed. *)
Fixpoint resolve_loop (fuel : nat) (pending : list string) (visited : gset string) (found : list F)
    : option (list F) :=
  match pending with
  | [] => Some found
  | id :: pending =>
      match fuel with
      | O => None
      | S fuel =>
          if bool_decide (id ∈ visited) then resolve_loop fuel pending visited found
          else
            match sets !! id with
            | Some (files, children) =>
                resolve_loop fuel (rev children ++ pending) ({[id]} ∪ visited) (found ++ files)
            | None => resolve_loop fuel pending ({[id]} ∪ visited) found
            end
      end
  end.

Definition children_count : nat := map_fold (fun _ s total => (length s.2 + total)%nat) 0%nat sets.

(** Every id is expanded once, so the children of all sets bound the rounds. *)
Definition resolve (roots : list string) (direct : list F) : list F :=
  default [] (resolve_loop (length roots + children_count) (rev roots) ∅ direct).
End resolve.

Definition unique_artifacts : list Artifact → list Artifact :=
  unique_after (fun x => (artifact_name x, uri x)) [].

Definition resolve_artifacts (a : BepAccumulator) : list Artifact :=
  unique_artifacts (resolve ((fun s => (set_files s, set_children s)) <$> named_sets a)
                      (artifact_roots a) (direct_artifacts a)).

(** ** Counting *)

Definition count_targets (ts : list TargetResult) : TargetCounts :=
  MkTargetCounts (Z.of_nat (length ts))
    (Z.of_nat (length (filter (fun t => target_success t = true) ts)))
    (Z.of_nat (length (filter (fun t => target_success t = false) ts))).

Definition count_test (c : TestCounts) (t : TestResult) : TestCounts :=
  let '(MkTestCounts passed failed flaky skipped incomplete) := c in
  match test_status t with
  | TestPassed => MkTestCounts (passed + 1) failed flaky skipped incomplete
  | TestFailed => MkTestCounts passed (failed + 1) flaky skipped incomplete
  | TestFlaky => MkTestCounts passed failed (flaky + 1) skipped incomplete
  | TestSkipped => MkTestCounts passed failed flaky (skipped + 1) incomplete
  | TestTimedOut | TestIncomplete | TestRemote => MkTestCounts passed failed flaky skipped (incomplete + 1)
  end.
Definition count_tests : list TestResult → TestCounts := foldl count_test (MkTestCounts 0 0 0 0 0).

(** ** Finishing *)

(** The text diagnostics, of the terminal output. *)
Class TextDiagnostics : Type := {
  add_text_diagnostics : list Z → list Diagnostic → list Diagnostic;
}.

Record StreamReductionOutput : Type := MkOutput {
  out_summary : InvocationSummary;
  out_artifacts : list Artifact;
  out_canonical_arguments : option (list string);
  out_reducer_events : list ReducerEvent;
  reducer_input_truncated : bool;
  out_run_bep : RunBepOutcome;
}.

Definition headline_of (success : bool) (exit_code : option Z) (elapsed_ms : Z) : string :=
  if success then "Bazel completed successfully in " +:+ pretty elapsed_ms +:+ " ms"
  else "Bazel failed with exit code " +:+
         match exit_code with Some code => "Some(" +:+ pretty code +:+ ")" | None => "None" end.

Definition recovered_test (label : string) (status : TestStatus) (attempts : Z) : TestResult :=
  MkTestResult label status None attempts None [] false None.

(** The tests that attempts succeeded for and no summary reports. *)
Definition recovered_tests (tests : list TestResult) (attempts : gmap string TestAttemptOutcome)
    : list TestResult :=
  omap (fun '(label, outcome) =>
    if bool_decide (label ∈ map test_label tests) then None
    else (fun status => recovered_test label status (attempts_count outcome)) <$> successful_status outcome)
    (btree_items attempts).

Section finish.
Context `{Text : TextDiagnostics}.

Definition all_diagnostics (success : bool) (stdout stderr : list Z) (ds : list Diagnostic) : list Diagnostic :=
  if success then ds else add_text_diagnostics stdout (add_text_diagnostics stderr ds).

Definition finish (a : BepAccumulator) (stdout stderr : list Z) (exit_code : option Z) (elapsed_ms : Z)
    (budget : Budget) : StreamReductionOutput :=
  let success := bool_decide (exit_code = Some 0) in
  let diagnostics := all_diagnostics success stdout stderr (acc_diagnostics a) in
  let targets := dedup_by_label target_label (sort_by_label target_label (acc_targets a)) in
  let tests := dedup_by_label test_label (sort_by_label test_label (acc_tests a)) in
  let o := run_bep_outcome a in
  let recovered := if success && bool_decide (build_success o = Some true)
                   then recovered_tests tests (test_attempts a) else [] in
  let tests := if success && bool_decide (build_success o = Some true)
               then sort_by_label test_label (tests ++ recovered) else tests in
  let summary := MkSummary success (headline_of success exit_code elapsed_ms) targets (count_targets targets)
    diagnostics tests (count_tests tests) None [] None elapsed_ms (acc_truncated a)
    (if acc_truncated a then Some HintDiagnostics else None) in
  MkOutput (finalize_diagnostics summary budget) (resolve_artifacts a) (acc_canonical_arguments a)
    (from_option collected [] (extension a)) (from_option collector_truncated false (extension a))
    (MkRunBep (build_success o) (exec_request_should_execute o) (test_result_seen o)
       (recovered_test_targets o + Z.of_nat (length recovered))).
End finish.

(** ** Reducing all events at once *)

Record ReductionInput : Type := MkInput {
  input_events : list BepEvent;
  input_stdout : list Z;
  input_stderr : list Z;
  input_exit_code : option Z;
  input_elapsed_ms : Z;
  input_budget : Budget;
}.

(** What an event adds to the diagnostics, the targets and the tests. *)
Definition event_diagnostics (e : BepEvent) : list Diagnostic :=
  match payload e with
  | Some (Aborted reason description) => [abort_diagnostic (event_id e) reason description]
  | Some (Action false action_type label exit_code _) =>
      [action_diagnostic (event_id e) action_type label exit_code]
  | Some (TestSummary overall_status _ _ _) =>
      option_list (test_outcome_diagnostic (default unknown_test (label_from_id (event_id e)))
                     (test_status_of overall_status))
  | _ => []
  end.
Definition event_targets (e : BepEvent) : list TargetResult :=
  match payload e with
  | Some (Completed success _ _ _ _) =>
      [MkTargetResult (default unknown_target (label_from_id (event_id e))) success]
  | _ => []
  end.
Definition event_tests (e : BepEvent) : list TestResult :=
  match payload e with
  | Some (TestSummary overall_status duration attempt_count shard_count) =>
      [summary_test (default unknown_test (label_from_id (event_id e))) (test_status_of overall_status)
         duration attempt_count shard_count]
  | _ => []
  end.

Definition reduce_invocation `{TextDiagnostics} (input : ReductionInput) : InvocationSummary :=
  let success := bool_decide (input_exit_code input = Some 0) in
  let events := input_events input in
  let diagnostics := all_diagnostics success (input_stdout input) (input_stderr input)
                       (events ≫= event_diagnostics) in
  let targets := dedup_by_label target_label (sort_by_label target_label (events ≫= event_targets)) in
  let tests := dedup_by_label test_label (sort_by_label test_label (events ≫= event_tests)) in
  finalize_diagnostics
    (MkSummary success (headline_of success (input_exit_code input) (input_elapsed_ms input)) targets
       (count_targets targets) diagnostics tests (count_tests tests) None [] None (input_elapsed_ms input)
       false None) (input_budget input).

Definition event_sets (e : BepEvent) : option (string * (list FileView * list string)) :=
  match payload e, event_id e with
  | Some (NamedSetOfFiles files file_sets), Some (IdNamedSet id) => Some (id, (files, file_sets))
  | _, _ => None
  end.
Definition event_roots (e : BepEvent) : list string :=
  match payload e with
  | Some (Completed _ _ output_group _ _) => output_group ≫= group_file_sets
  | _ => []
  end.
Definition event_files (e : BepEvent) : list FileView :=
  match payload e with
  | Some (Completed _ _ output_group important_output directory_output) =>
      (output_group ≫= inline_files) ++ important_output ++ directory_output
  | Some (Action false _ _ _ primary_output) => option_list primary_output
  | Some (TestResultPayload _ test_action_output) => test_action_output
  | _ => []
  end.

(** [sets.insert(..)] over the events. *)
Definition insert_sets (events : list BepEvent) : gmap string (list FileView * list string) :=
  foldl (fun sets e => match event_sets e with Some (id, s) => <[id := s]> sets | None => sets end) ∅ events.

Definition reduce_artifacts (events : list BepEvent) : list Artifact :=
  unique_artifacts (omap file_artifact
    (resolve (insert_sets events) (events ≫= event_roots) (events ≫= event_files))).

Fixpoint extract_canonical_arguments (events : list BepEvent) : option (list string) :=
  match events with
  | [] => None
  | e :: rest =>
      match payload e with
      | Some (OptionsParsed startup_options cmd_line) => Some (startup_options ++ cmd_line)
      | _ => extract_canonical_arguments rest
      end
  end.

(** * Theorems *)

(** ** Named sets: exactly what is reachable, each once, however they refer to
    each other *)

Section resolve_spec.
Context {F : Type} (sets : gmap string (list F * list string)) (roots : list string).

Inductive reachable_set : string → Prop :=
| reachable_root id : id ∈ roots → reachable_set id
| reachable_child id files children child :
    reachable_set id → sets !! id = Some (files, children) → child ∈ children → reachable_set child.

(** The children of the sets that were not expanded yet. *)
Definition remaining (visited : gset string) : nat :=
  children_count (filter (fun s => s.1 ∉ visited) sets).

Lemma remaining_visit visited id files children :
  sets !! id = Some (files, children) → id ∉ visited →
  remaining visited = (length children + remaining ({[id]} ∪ visited))%nat.
Proof.
  intros Hid Hv. unfold remaining, children_count.
  rewrite (map_fold_delete_L _ _ id (files, children) (filter (fun s => s.1 ∉ visited) sets)).
  - cbn. f_equal. f_equal. apply map_eq. intros id'.
    destruct (decide (id' = id)) as [->|Hne].
    + rewrite lookup_delete_eq. symmetry. apply map_lookup_filter_None. right. set_solver.
    + rewrite lookup_delete_ne by done. apply option_eq. intros s.
      rewrite !map_lookup_filter_Some. cbn. set_solver.
  - intros. lia.
  - apply map_lookup_filter_Some. done.
Qed.

Lemma remaining_skip visited id : sets !! id = None → remaining ({[id]} ∪ visited) = remaining visited.
Proof.
  intros Hid. unfold remaining. f_equal. apply map_eq. intros id'. apply option_eq. intros s.
  rewrite !map_lookup_filter_Some. cbn. destruct (decide (id' = id)) as [->|Hne]; [|set_solver].
  rewrite Hid. naive_solver.
Qed.

Lemma remaining_empty : remaining ∅ = children_count sets.
Proof.
  unfold remaining. f_equal. apply map_filter_id. intros id s _. cbn. set_solver.
Qed.

(** What the ids of [visited] give is found, and what they refer to is visited
    or pending. *)
Definition expanded (pending : list string) (visited : gset string) (found : list F) : Prop :=
  ∀ id files children, id ∈ visited → sets !! id = Some (files, children) →
    (∀ f, f ∈ files → f ∈ found) ∧ ∀ child, child ∈ children → child ∈ visited ∨ child ∈ pending.

Definition reported (direct : list F) (f : F) : Prop :=
  f ∈ direct ∨ ∃ id files children, reachable_set id ∧ sets !! id = Some (files, children) ∧ f ∈ files.

Lemma resolve_loop_spec direct fuel pending visited found :
  (length pending + remaining visited ≤ fuel)%nat →
  (∀ id, id ∈ pending → reachable_set id) → (∀ f, f ∈ found → reported direct f) →
  expanded pending visited found →
  ∃ result visited', resolve_loop sets fuel pending visited found = Some result ∧
    (∀ f, f ∈ result → reported direct f) ∧ expanded [] visited' result ∧
    (∀ f, f ∈ found → f ∈ result) ∧ (∀ id, id ∈ visited ∨ id ∈ pending → id ∈ visited').
Proof.
  revert pending visited found. induction fuel as [|fuel IH]; intros [|id pending] visited found Hfuel Hp Hf He;
    cbn [resolve_loop length] in *.
  1, 3: exists found, visited; split_and!; [done|done|done|done|set_solver].
  { lia. }
  case_bool_decide as Hv.
  { destruct (IH pending visited found) as (result & visited' & Hr & Hsound & Hexp & Hkeep & Hmore);
      [lia|set_solver|done| |by exists result, visited'; split_and!; [done..|set_solver]].
    intros id' files children Hid' Hset. destruct (He id' files children Hid' Hset) as [Hfiles Hchildren].
    split; [done|]. intros child Hc. destruct (Hchildren child Hc) as [?|[->|?]%elem_of_cons]; auto. }
  destruct (sets !! id) as [[files children]|] eqn:Hid.
  - pose proof (remaining_visit visited id files children Hid Hv).
    destruct (IH (rev children ++ pending) ({[id]} ∪ visited) (found ++ files))
      as (result & visited' & Hr & Hsound & Hexp & Hkeep & Hmore).
    + rewrite length_app, length_rev. lia.
    + intros child. rewrite elem_of_app, list_elem_of_In, <- in_rev, <- list_elem_of_In.
      intros [Hc|Hc]; [|set_solver]. eapply reachable_child; [|done|done]. set_solver.
    + intros f. rewrite elem_of_app. intros [?|Hfile]; [auto|]. right. exists id, files, children. set_solver.
    + intros id' files' children' [->%elem_of_singleton|Hid']%elem_of_union Hset.
      * rewrite Hid in Hset. injection Hset as <- <-. split; [set_solver|]. intros child Hc. right.
        rewrite elem_of_app, list_elem_of_In, <- in_rev, <- list_elem_of_In. by left.
      * destruct (He id' files' children' Hid' Hset) as [Hfiles Hchildren]. split; [set_solver|].
        intros child Hc. destruct (Hchildren child Hc) as [?|[->|?]%elem_of_cons]; set_solver.
    + exists result, visited'. split_and!; [done|done|done|set_solver|].
      intros id' [?|[->|?]%elem_of_cons]; apply Hmore; set_solver.
  - pose proof (remaining_skip visited id Hid).
    destruct (IH pending ({[id]} ∪ visited) found) as (result & visited' & Hr & Hsound & Hexp & Hkeep & Hmore);
      [lia|set_solver|done| |exists result, visited'; split_and!; [done..|]].
    + intros id' files' children' [->%elem_of_singleton|Hid']%elem_of_union Hset; [congruence|].
      destruct (He id' files' children' Hid' Hset) as [Hfiles Hchildren]. split; [set_solver|].
      intros child Hc. destruct (Hchildren child Hc) as [?|[->|?]%elem_of_cons]; set_solver.
    + intros id' [?|[->|?]%elem_of_cons]; apply Hmore; set_solver.
Qed.

(** The traversal ends, and gives the direct files and those of the reachable
    sets. *)
Lemma resolve_spec direct f : f ∈ resolve sets roots direct ↔ reported direct f.
Proof.
  destruct (resolve_loop_spec direct (length roots + children_count sets) (rev roots) ∅ direct)
    as (result & visited' & Hr & Hsound & Hexp & Hkeep & Hmore).
  - rewrite length_rev, remaining_empty. done.
  - intros id. rewrite list_elem_of_In, <- in_rev, <- list_elem_of_In. by constructor.
  - by left.
  - intros id files children Hid. set_solver.
  - unfold resolve. rewrite Hr. cbn. split; [apply Hsound|].
    intros [?|(id & files & children & Hreach & Hset & Hfile)]; [auto|].
    assert (id ∈ visited') as Hid; [|by eapply Hexp].
    clear Hset Hfile. induction Hreach as [id Hid|id files' children' child Hreach IH Hset Hc].
    + apply Hmore. right. by rewrite list_elem_of_In, <- in_rev, <- list_elem_of_In.
    + destruct (Hexp _ _ _ IH Hset) as [_ Hchildren]. destruct (Hchildren child Hc); set_solver.
Qed.
End resolve_spec.

(** ** Within the limits, the accumulator keeps everything *)

(** An event whose texts are not cut. *)
Definition event_fits (e : BepEvent) : Prop :=
  match payload e with
  | Some (Aborted _ description) => str_len description ≤ 64 * 1024
  | Some (Completed _ _ output_group _ _) =>
      ∀ id, id ∈ output_group ≫= group_file_sets → str_len id ≤ 4 * 1024
  | Some (NamedSetOfFiles _ file_sets) =>
      (∀ id, id ∈ file_sets → str_len id ≤ 4 * 1024) ∧
      (∀ id, event_id e = Some (IdNamedSet id) → str_len id ≤ 4 * 1024)
  | Some (OptionsParsed startup_options cmd_line) =>
      ∀ value, value ∈ startup_options ++ cmd_line → str_len value ≤ 64 * 1024
  | _ => True
  end.

Lemma bounded_text_fits value n : str_len value ≤ n → bounded_text value n = value.
Proof. intros H. unfold bounded_text. by rewrite (proj2 (Z.leb_le _ _) H). Qed.

Lemma bounded_texts_fit values n : (∀ value, value ∈ values → str_len value ≤ n) →
  map (fun value => bounded_text value n) values = values.
Proof.
  induction values as [|value values IH]; intros H; [done|]. cbn.
  rewrite bounded_text_fits by (apply H; set_solver). rewrite IH by (intros; apply H; set_solver). done.
Qed.

(** The accumulator without its counters. *)
Definition forget (a : BepAccumulator) : BepAccumulator :=
  MkAcc (acc_diagnostics a) (acc_targets a) (acc_tests a) (test_attempts a) (named_sets a)
    (artifact_roots a) (direct_artifacts a) (acc_canonical_arguments a) (run_bep_outcome a)
    0 0 false None 0.

Definition event_attempts (e : BepEvent) (m : gmap string TestAttemptOutcome) : gmap string TestAttemptOutcome :=
  match payload e, label_from_id (event_id e) with
  | Some (TestResultPayload status _), Some label =>
      <[label := attempts_observe (default default_attempts (m !! label)) (test_status_of status)]> m
  | _, _ => m
  end.
Definition event_run (e : BepEvent) (o : RunBepOutcome) : RunBepOutcome :=
  match payload e with
  | Some (TestResultPayload _ _) =>
      MkRunBep (build_success o) (exec_request_should_execute o) true (recovered_test_targets o)
  | Some (Finished overall_success _) =>
      MkRunBep (Some overall_success) (exec_request_should_execute o) (test_result_seen o)
        (recovered_test_targets o)
  | Some (ExecRequest should_exec) =>
      MkRunBep (build_success o) (Some should_exec) (test_result_seen o) (recovered_test_targets o)
  | _ => o
  end.
Definition event_canonical (e : BepEvent) (arguments : option (list string)) : option (list string) :=
  or_else arguments (extract_canonical_arguments [e]).
Definition event_named_sets (e : BepEvent) (m : gmap string OwnedNamedSet) : gmap string OwnedNamedSet :=
  match event_sets e with
  | Some (id, (files, children)) => <[id := MkNamedSet (omap file_artifact files) children]> m
  | None => m
  end.

(** What observing an event does when there is room for all of it. *)
Definition ideal_step (a : BepAccumulator) (e : BepEvent) : BepAccumulator :=
  MkAcc (acc_diagnostics a ++ event_diagnostics e) (acc_targets a ++ event_targets e)
    (acc_tests a ++ event_tests e) (event_attempts e (test_attempts a)) (event_named_sets e (named_sets a))
    (artifact_roots a ++ event_roots e) (direct_artifacts a ++ omap file_artifact (event_files e))
    (event_canonical e (acc_canonical_arguments a)) (event_run e (run_bep_outcome a)) 0 0 false None 0.

(** An update that leaves the counters alone and does not look at them. *)
Definition transparent (f : BepAccumulator → BepAccumulator) : Prop :=
  ∀ a, acc_truncated (f a) = acc_truncated a ∧ forget (f a) = forget (f (forget a)).

(** The limited update [g] does what [h] does, unless it runs out of room. *)
Definition exact (g h : BepAccumulator → BepAccumulator) : Prop :=
  ∀ a, acc_truncated (g a) = false → acc_truncated a = false ∧ forget (g a) = forget (h (forget a)).

Lemma exact_compose g1 h1 g2 h2 h :
  exact g1 h1 → exact g2 h2 → (∀ a, forget (h a) = forget (h2 (forget (h1 a)))) →
  exact (fun a => g2 (g1 a)) h.
Proof.
  intros H1 H2 Hh a Htr. destruct (H2 _ Htr) as [Htr1 Heq]. destruct (H1 _ Htr1) as [Htr0 Heq1].
  split; [done|]. by rewrite Heq, Hh, Heq1.
Qed.

Lemma exact_ext g h h' : exact g h → (∀ a, forget (h a) = forget (h' a)) → exact g h'.
Proof. intros Hg Hh a Htr. destruct (Hg a Htr) as [? ->]. by rewrite Hh. Qed.

Lemma if_reserved_exact items bytes f : transparent f → exact (if_reserved items bytes f) f.
Proof.
  intros Hf a. unfold if_reserved, reserve. destruct (_ || _); cbn [negb]; [done|]. intros Htr.
  rewrite (proj1 (Hf _)) in Htr. split; [exact Htr|]. by rewrite (proj2 (Hf _)).
Qed.

Ltac transparent := intros ?; split; reflexivity.

Definition add_roots (ids : list string) (a : BepAccumulator) : BepAccumulator :=
  MkAcc (acc_diagnostics a) (acc_targets a) (acc_tests a) (test_attempts a) (named_sets a)
    (artifact_roots a ++ ids) (direct_artifacts a) (acc_canonical_arguments a) (run_bep_outcome a) 0 0 false None 0.
Definition add_directs (xs : list Artifact) (a : BepAccumulator) : BepAccumulator :=
  MkAcc (acc_diagnostics a) (acc_targets a) (acc_tests a) (test_attempts a) (named_sets a)
    (artifact_roots a) (direct_artifacts a ++ xs) (acc_canonical_arguments a) (run_bep_outcome a) 0 0 false None 0.
Definition add_outputs (ids : list string) (xs : list Artifact) (a : BepAccumulator) : BepAccumulator :=
  add_directs xs (add_roots ids a).

Lemma push_roots_exact ids : (∀ id, id ∈ ids → str_len id ≤ 4 * 1024) →
  exact (fun a => foldl (fun a id => push_root id a) a ids) (add_roots ids).
Proof.
  induction ids as [|id ids IH]; intros Hfit; cbn [foldl].
  { intros a Ha. split; [done|]. unfold forget, add_roots. cbn. by rewrite app_nil_r. }
  apply (exact_compose (push_root id) (add_root id) (fun a => foldl (fun a id => push_root id a) a ids) (add_roots ids)).
  - unfold push_root. rewrite bounded_text_fits by (apply Hfit; set_solver).
    apply if_reserved_exact. transparent.
  - apply IH. intros. apply Hfit. set_solver.
  - intros a. unfold forget, add_roots. cbn. by rewrite <- app_assoc.
Qed.

Lemma push_files_exact fs : exact (fun a => foldl push_file a fs) (add_directs (omap file_artifact fs)).
Proof.
  induction fs as [|f fs IH]; cbn [foldl].
  { intros a Ha. split; [done|]. unfold forget, add_directs. cbn. by rewrite app_nil_r. }
  apply (exact_compose (fun a => push_file a f) (add_directs (option_list (file_artifact f)))
    (fun a => foldl push_file a fs) (add_directs (omap file_artifact fs))); [|done|].
  - unfold push_file. destruct (file_artifact f) as [x|]; cbn [option_list].
    + eapply exact_ext; [apply if_reserved_exact; transparent|done].
    + intros a Ha. split; [done|]. unfold forget, add_directs. cbn. by rewrite app_nil_r.
  - intros a. unfold forget, add_directs. cbn. by destruct (file_artifact f); cbn; rewrite <- app_assoc.
Qed.

Lemma push_groups_exact groups : (∀ id, id ∈ groups ≫= group_file_sets → str_len id ≤ 4 * 1024) →
  exact (fun a => foldl observe_group a groups)
    (add_outputs (groups ≫= group_file_sets) (omap file_artifact (groups ≫= inline_files))).
Proof.
  induction groups as [|g groups IH]; intros Hfit; cbn [foldl].
  { intros a Ha. split; [done|]. unfold forget, add_outputs. cbn. by rewrite !app_nil_r. }
  cbn [mbind list_bind] in Hfit |- *.
  apply (exact_compose (fun a => observe_group a g)
    (add_outputs (group_file_sets g) (omap file_artifact (inline_files g)))
    (fun a => foldl observe_group a groups)
    (add_outputs (groups ≫= group_file_sets) (omap file_artifact (groups ≫= inline_files)))).
  - apply (exact_compose (fun a => foldl (fun a id => push_root id a) a (group_file_sets g))
      (add_roots (group_file_sets g)) (fun a => foldl push_file a (inline_files g))
      (add_directs (omap file_artifact (inline_files g)))); [|apply push_files_exact|done].
    apply push_roots_exact. intros id Hid. apply Hfit. set_solver.
  - apply IH. intros id Hid. apply Hfit. set_solver.
  - intros a. unfold forget, add_outputs. cbn. by rewrite omap_app, <- !app_assoc.
Qed.

Lemma forget_extension e ordinal a : forget (observe_extension_event e ordinal a) = forget a ∧
  acc_truncated (observe_extension_event e ordinal a) = acc_truncated a.
Proof. unfold observe_extension_event. destruct (extension a); [|done]. by destruct (reducer_event e ordinal). Qed.


(** An event that changes nothing the reduction keeps. *)
Lemma exact_nothing h : (∀ a, forget (h a) = forget a) → exact id h.
Proof. intros Hh a Ha. split; [done|]. by rewrite Hh. Qed.

Lemma or_else_None {A} (o : option A) : or_else o None = o.
Proof. by destruct o. Qed.

Ltac ideal_at := unfold ideal_step, forget, event_diagnostics, event_targets, event_tests,
  event_attempts, event_named_sets, event_sets, event_roots, event_files, event_canonical, event_run;
  cbn -[lookup insert omap test_outcome_diagnostic]; rewrite ?app_nil_r, ?or_else_None; try reflexivity.
Ltac ideal := intros a; ideal_at.

Lemma observe_test_result_exact id status :
  exact (fun a => observe_test_result (label_from_id id) (test_status_of status)
           (set_run_bep (MkRunBep (build_success (run_bep_outcome a))
              (exec_request_should_execute (run_bep_outcome a)) true
              (recovered_test_targets (run_bep_outcome a))) a))
    (fun a => ideal_step a (MkEvent id (Some (TestResultPayload status [])))).
Proof.
  intros a. unfold observe_test_result, ideal_step, event_attempts. cbn [payload event_id].
  destruct (label_from_id id) as [label|]; [|intros Ha; split; [done|]; ideal_at].
  cbn [test_attempts set_run_bep forget]. destruct (test_attempts a !! label) as [attempts|] eqn:Hl.
  { intros Ha. split; [done|]. ideal_at. }
  intros Ha. apply if_reserved_exact in Ha as [Ha ->]; [|transparent]. split; [done|]. ideal_at.
Qed.

Lemma observe_payload_exact e : event_fits e →
  exact (observe_payload (event_id e) (payload e)) (fun a => ideal_step a e).
Proof.
  destruct e as [id [p|]]; cbn [event_id payload]; intros Hfit; [|apply exact_nothing; ideal; done].
  destruct p as [reason description|ok action_type label exit_code primary_output
    |ok target_kind output_group important_output directory_output|overall duration attempt_count shard_count
    |status test_action_output|fs file_sets|startup cmd|ok code|should| |]; unfold observe_payload, event_fits in *; cbn [payload event_id] in *.
  - rewrite bounded_text_fits by done. eapply exact_ext; [apply if_reserved_exact; transparent|ideal].
  - destruct ok; [apply exact_nothing; ideal|].
    destruct primary_output as [output|].
    + apply (exact_compose (push_diagnostic (action_diagnostic id action_type label exit_code))
        (add_diagnostic (action_diagnostic id action_type label exit_code))
        (fun a => foldl push_file a [output]) (add_directs (omap file_artifact [output])));
        [apply if_reserved_exact; transparent|apply push_files_exact|].
      ideal.
    + eapply exact_ext; [apply if_reserved_exact; transparent|]. ideal.
  - set (target := MkTargetResult (default unknown_target (label_from_id id)) ok).
    apply (exact_compose
      (fun a => foldl observe_group (if_reserved 1 (str_len (target_label target)) (add_target target) a) output_group)
      (fun a => add_outputs (output_group ≫= group_file_sets) (omap file_artifact (output_group ≫= inline_files))
                  (add_target target a))
      (fun a => foldl push_file a (important_output ++ directory_output))
      (add_directs (omap file_artifact (important_output ++ directory_output)))); [|apply push_files_exact|].
    + apply (exact_compose (if_reserved 1 (str_len (target_label target)) (add_target target)) (add_target target)
        (fun a => foldl observe_group a output_group)
        (add_outputs (output_group ≫= group_file_sets) (omap file_artifact (output_group ≫= inline_files))));
        [apply if_reserved_exact; transparent|by apply push_groups_exact|done].
    + ideal. by rewrite omap_app, <- !app_assoc.
  - destruct (test_outcome_diagnostic _ _) as [d|] eqn:Hd.
    + set (test := summary_test _ _ _ _ _).
      apply (exact_compose (push_diagnostic d) (add_diagnostic d)
        (if_reserved 1 (str_len (default unknown_test (label_from_id id))
           + option_len (test_log_unavailable_reason test)) (add_test test)) (add_test test));
        [apply if_reserved_exact; transparent|apply if_reserved_exact; transparent|].
      ideal. by rewrite Hd.
    + eapply exact_ext; [apply if_reserved_exact; transparent|]. ideal. by rewrite Hd; cbn; rewrite app_nil_r.
  - apply (exact_compose _ _ (fun a => foldl push_file a test_action_output)
      (add_directs (omap file_artifact test_action_output)) _ (observe_test_result_exact id status));
      [apply push_files_exact|]. ideal.
  - destruct Hfit as [Hchildren Hid].
    destruct id as [[| | | | | |id|]|]; try (apply exact_nothing; ideal; done).
    rewrite (bounded_text_fits id) by (by apply Hid). unfold owned_named_set.
    rewrite bounded_texts_fit by done. eapply exact_ext; [apply if_reserved_exact; transparent|]. ideal.
  - intros a. destruct (acc_canonical_arguments a) as [known|] eqn:Hknown.
    { intros Ha. split; [done|]. ideal_at; by rewrite ?Hknown. }
    rewrite bounded_texts_fit by done. intros Ha.
    apply if_reserved_exact in Ha as [Ha ->]; [|transparent]. split; [done|]. ideal_at; by rewrite ?Hknown.
  - intros a Ha. split; [done|]. ideal_at.
  - intros a Ha. split; [done|]. ideal_at.
  - apply exact_nothing. ideal.
  - apply exact_nothing. ideal.
Qed.

Lemma observe_exact a e : event_fits e → acc_truncated (observe a e) = false →
  acc_truncated a = false ∧ forget (observe a e) = ideal_step a e.
Proof.
  intros Hfit Htr. unfold observe in *.
  destruct (observe_payload_exact e Hfit _ Htr) as [Ha ->]. rewrite (proj2 (forget_extension _ _ _)) in Ha.
  split; [exact Ha|]. by rewrite (proj1 (forget_extension _ _ _)).
Qed.

Definition ideal (events : list BepEvent) : BepAccumulator := foldl ideal_step default_accumulator events.

Lemma observe_all_exact a events : forget a = default_accumulator → Forall event_fits events →
  acc_truncated (foldl observe a events) = false → forget (foldl observe a events) = ideal events.
Proof.
  intros Ha. unfold ideal. induction events as [|e events IH] using rev_ind; [done|].
  rewrite Forall_app, !foldl_app. cbn [foldl]. intros [Hfits He] Htr. apply Forall_inv in He.
  destruct (observe_exact _ _ He Htr) as [Htr' ->]. rewrite <- IH by done. done.
Qed.

Lemma extract_snoc events e :
  extract_canonical_arguments (events ++ [e])
  = or_else (extract_canonical_arguments events) (extract_canonical_arguments [e]).
Proof.
  induction events as [|e' events IH]; [done|]. cbn [app extract_canonical_arguments].
  destruct (payload e') as [[]|]; try exact IH. done.
Qed.

Definition owned_sets (sets : gmap string (list FileView * list string)) : gmap string OwnedNamedSet :=
  (fun s => MkNamedSet (omap file_artifact s.1) s.2) <$> sets.

(** What is kept of the events is what the reduction of all of them uses. *)
Lemma ideal_spec events :
  acc_diagnostics (ideal events) = events ≫= event_diagnostics ∧
  acc_targets (ideal events) = events ≫= event_targets ∧
  acc_tests (ideal events) = events ≫= event_tests ∧
  artifact_roots (ideal events) = events ≫= event_roots ∧
  direct_artifacts (ideal events) = omap file_artifact (events ≫= event_files) ∧
  named_sets (ideal events) = owned_sets (insert_sets events) ∧
  acc_canonical_arguments (ideal events) = extract_canonical_arguments events ∧
  recovered_test_targets (run_bep_outcome (ideal events)) = 0.
Proof.
  unfold ideal, insert_sets. induction events as [|e events IH] using rev_ind; [by split_and!|].
  rewrite !foldl_app, !bind_app, omap_app, extract_snoc. cbn [foldl mbind list_bind]. rewrite !app_nil_r.
  destruct IH as (H1 & H2 & H3 & H4 & H5 & H6 & H7 & H8).
  cbn [ideal_step acc_diagnostics acc_targets acc_tests artifact_roots direct_artifacts named_sets
    acc_canonical_arguments run_bep_outcome].
  rewrite H1, H2, H3, H4, H5, H6, H7. split_and!; try done.
  - unfold event_named_sets, owned_sets. destruct (event_sets e) as [[id [fs cs]]|]; [|done]. by rewrite fmap_insert.
  - unfold event_run. destruct (payload e) as [[]|]; done.
Qed.

(** Mapping the files before or after the traversal. *)
Section resolve_omap.
Context {F G : Type} (g : F → option G) (sets : gmap string (list F * list string)).
Definition map_files (fs : list F) : list G := omap g fs.
Definition mapped : gmap string (list G * list string) :=
  (fun s : list F * list string => (map_files s.1, s.2)) <$> sets.

Lemma resolve_loop_omap fuel pending visited found :
  resolve_loop mapped fuel pending visited (map_files found)
  = map_files <$> resolve_loop sets fuel pending visited found.
Proof.
  revert pending visited found. induction fuel as [|fuel IH]; intros [|id pending] visited found; try done.
  cbn [resolve_loop]. case_bool_decide; [apply IH|]. unfold mapped at 1. rewrite lookup_fmap.
  destruct (sets !! id) as [[fs cs]|]; cbn [fmap option_fmap option_map fst snd]; [|apply IH].
  rewrite <- IH. unfold map_files. by rewrite omap_app.
Qed.

Lemma children_count_mapped : children_count mapped = children_count sets.
Proof. unfold children_count, mapped. by rewrite map_fold_fmap. Qed.

Lemma resolve_omap roots direct : resolve mapped roots (map_files direct) = map_files (resolve sets roots direct).
Proof.
  unfold resolve. rewrite resolve_loop_omap, children_count_mapped. by destruct (resolve_loop sets _ _ _ _).
Qed.
End resolve_omap.

Lemma resolve_artifacts_forget a : resolve_artifacts (forget a) = resolve_artifacts a.
Proof. done. Qed.

Lemma resolve_artifacts_ideal events : resolve_artifacts (ideal events) = reduce_artifacts events.
Proof.
  destruct (ideal_spec events) as (_ & _ & _ & Hroots & Hdirect & Hsets & _).
  unfold resolve_artifacts, reduce_artifacts. rewrite Hroots, Hdirect, Hsets. f_equal.
  etrans; [|apply (resolve_omap file_artifact)]. f_equal. unfold owned_sets, mapped.
  rewrite <- map_fmap_compose. done.
Qed.

Section equivalence.
Context `{Text : TextDiagnostics}.

Lemma stream_reduction_matches_batch_lemma a events stdout stderr exit_code elapsed_ms budget :
  forget a = default_accumulator → Forall event_fits events →
  acc_truncated (foldl observe a events) = false →
  let out := finish (foldl observe a events) stdout stderr exit_code elapsed_ms budget in
  (recovered_test_targets (out_run_bep out) = 0 →
   out_summary out = reduce_invocation (MkInput events stdout stderr exit_code elapsed_ms budget)) ∧
  out_artifacts out = reduce_artifacts events ∧
  out_canonical_arguments out = extract_canonical_arguments events.
Proof.
  intros Ha Hfits Htr out. pose proof (observe_all_exact a events Ha Hfits Htr) as Hideal.
  destruct (ideal_spec events) as (Hd & Hta & Hte & _ & _ & _ & Hc & Hrec). rewrite <- Hideal in *.
  cbn [forget acc_diagnostics acc_targets acc_tests acc_canonical_arguments run_bep_outcome] in *.
  split_and!.
  - unfold out, finish, reduce_invocation. cbn [out_run_bep out_summary recovered_test_targets input_events
      input_stdout input_stderr input_exit_code input_elapsed_ms input_budget].
    rewrite Hrec, Htr, Hd, Hta, Hte. set (ts := dedup_by_label test_label _).
    assert (sort_by_label test_label ts = ts) as Hsorted by apply sort_by_label_id, dedup_sort_by_label.
    destruct (bool_decide (exit_code = Some 0) && _); [|done].
    destruct (recovered_tests _ _) as [|t l]; [|cbn; lia]. intros _. by rewrite app_nil_r, Hsorted.
  - unfold out. cbn [finish out_artifacts]. by rewrite <- resolve_artifacts_forget, Hideal, resolve_artifacts_ideal.
  - done.
Qed.

(** As long as the accumulator stays within its limits, reducing the
    events one at a time gives what reducing all of them at once gives: the
    same summary (when no test had to be recovered from its attempts), the same
    artifacts in the same order and the same canonical arguments. *)
Theorem stream_reduction_matches_batch a events stdout stderr exit_code elapsed_ms budget :
  forget a = default_accumulator → Forall event_fits events →
  acc_truncated (foldl observe a events) = false →
  let out := finish (foldl observe a events) stdout stderr exit_code elapsed_ms budget in
  (recovered_test_targets (out_run_bep out) = 0 →
   out_summary out = reduce_invocation (MkInput events stdout stderr exit_code elapsed_ms budget)) ∧
  out_artifacts out = reduce_artifacts events ∧
  out_canonical_arguments out = extract_canonical_arguments events.
Proof. apply stream_reduction_matches_batch_lemma. Qed.
End equivalence.

(** ** The accumulator is bounded *)

Definition sum_by {A} (f : A → Z) (l : list A) : Z := foldr (fun x total => f x + total) 0 l.
Definition map_sum {A} (f : string → A → Z) (m : gmap string A) : Z :=
  map_fold (fun k v total => f k v + total) 0 m.

Lemma sum_by_app {A} (f : A → Z) l1 l2 : sum_by f (l1 ++ l2) = sum_by f l1 + sum_by f l2.
Proof. induction l1 as [|x l1 IH]; unfold sum_by in *; cbn; [done|]. rewrite IH. lia. Qed.

Lemma sum_by_one {A} (f : A → Z) x : sum_by f [x] = f x.
Proof. unfold sum_by. cbn. lia. Qed.

Lemma sum_by_nonneg {A} (f : A → Z) l : (∀ x, 0 ≤ f x) → 0 ≤ sum_by f l.
Proof. intros Hf. induction l as [|x l IH]; unfold sum_by in *; cbn; [done|]. specialize (Hf x). lia. Qed.

Lemma map_sum_insert {A} (f : string → A → Z) m k v : (∀ k v, 0 ≤ f k v) →
  map_sum f (<[k := v]> m) ≤ f k v + map_sum f m.
Proof.
  intros Hf. unfold map_sum. rewrite <- insert_delete_eq, map_fold_insert_L by (lia || apply lookup_delete_eq).
  destruct (m !! k) as [v'|] eqn:Hk.
  - rewrite (map_fold_delete_L (fun k v total => f k v + total) 0 k v' m) by (lia || done). specialize (Hf k v'). lia.
  - by rewrite delete_id.
Qed.

Lemma map_sum_replace {A} (f : string → A → Z) m k v v' :
  m !! k = Some v → f k v' = f k v → map_sum f (<[k := v']> m) = map_sum f m.
Proof.
  intros Hk Hf. unfold map_sum.
  rewrite <- insert_delete_eq, map_fold_insert_L by (lia || apply lookup_delete_eq).
  by rewrite (map_fold_delete_L (fun k v total => f k v + total) 0 k v m), Hf by (lia || done).
Qed.

Definition diagnostic_bytes (d : Diagnostic) : Z :=
  str_len (message d) + option_len (diagnostic_target d) + option_len (action d).
Definition test_bytes (t : TestResult) : Z := str_len (test_label t) + option_len (test_log_unavailable_reason t).

(** What the accumulator holds. *)
Definition held_items (a : BepAccumulator) : Z :=
  Z.of_nat (length (acc_diagnostics a)) + Z.of_nat (length (acc_targets a)) + Z.of_nat (length (acc_tests a))
  + map_sum (fun _ _ => 1) (test_attempts a)
  + map_sum (fun _ s => 1 + Z.of_nat (length (set_files s)) + Z.of_nat (length (set_children s))) (named_sets a)
  + Z.of_nat (length (artifact_roots a)) + Z.of_nat (length (direct_artifacts a))
  + from_option (fun arguments : list string => Z.of_nat (length arguments)) 0 (acc_canonical_arguments a).
Definition held_bytes (a : BepAccumulator) : Z :=
  sum_by diagnostic_bytes (acc_diagnostics a) + sum_by (str_len ∘ target_label) (acc_targets a)
  + sum_by test_bytes (acc_tests a) + map_sum (fun label _ => str_len label) (test_attempts a)
  + map_sum named_set_bytes (named_sets a) + sum_by str_len (artifact_roots a)
  + sum_by artifact_bytes (direct_artifacts a) + from_option (sum_by str_len) 0 (acc_canonical_arguments a).

Record Bounded (a : BepAccumulator) : Prop := {
  bounded_items : held_items a ≤ retained_items a;
  bounded_max_items : 0 ≤ retained_items a ≤ STREAM_MAX_ITEMS;
  bounded_bytes : held_bytes a ≤ retained_bytes a;
  bounded_max_bytes : 0 ≤ retained_bytes a ≤ STREAM_MAX_RETAINED_BYTES;
}.

(** An update that keeps the counters and adds no more than was asked for. *)
Definition grows (items bytes : Z) (f : BepAccumulator → BepAccumulator) : Prop :=
  ∀ a, retained_items (f a) = retained_items a ∧ retained_bytes (f a) = retained_bytes a ∧
    held_items (f a) ≤ held_items a + items ∧ held_bytes (f a) ≤ held_bytes a + bytes.

Lemma if_reserved_bounded items bytes f a :
  0 ≤ items → 0 ≤ bytes → (items ≤ STREAM_MAX_ITEMS → grows items bytes f) → Bounded a →
  Bounded (if_reserved items bytes f a).
Proof.
  intros Hi Hb Hf [H1 H2 H3 H4]. unfold if_reserved, reserve.
  destruct (_ || _) eqn:Hover; cbn [negb]; [by split|].
  apply orb_false_iff in Hover as [Hov1%Z.ltb_ge Hov2%Z.ltb_ge].
  unfold u64_add, u64_max, STREAM_MAX_ITEMS, STREAM_MAX_RETAINED_BYTES in *.
  match goal with |- Bounded (f ?b) =>
    destruct (Hf ltac:(lia) b) as (E1 & E2 & G1 & G2);
    change (held_items b) with (held_items a) in G1; change (held_bytes b) with (held_bytes a) in G2
  end.
  cbn [retained_items retained_bytes] in E1, E2.
  split; rewrite ?E1, ?E2; unfold STREAM_MAX_ITEMS, STREAM_MAX_RETAINED_BYTES; lia.
Qed.

Lemma unreserved_bounded f a : grows 0 0 f → Bounded a → Bounded (f a).
Proof. intros Hf [H1 H2 H3 H4]. destruct (Hf a) as (E1 & E2 & G1 & G2). split; rewrite ?E1, ?E2; lia. Qed.

Lemma option_len_nonneg o : 0 ≤ option_len o.
Proof. destruct o; cbn; [apply str_len_nonneg|done]. Qed.

Create HintDb sizes.
#[export] Hint Resolve str_len_nonneg option_len_nonneg Z.add_nonneg_nonneg sum_by_nonneg Zle_0_nat : sizes.
#[export] Hint Extern 1 (0 ≤ _) => progress unfold diagnostic_bytes, test_bytes, artifact_bytes, compose : sizes.

Ltac grows := intros ?; unfold held_items, held_bytes; cbn -[map_sum sum_by insert Z.of_nat];
  rewrite ?length_app, ?sum_by_app, ?sum_by_one; cbn [length]; unfold diagnostic_bytes, test_bytes, compose;
  split_and!; lia.

Lemma push_diagnostic_bounded d a : Bounded a → Bounded (push_diagnostic d a).
Proof. apply if_reserved_bounded; [lia|auto with sizes|intros _; grows]. Qed.
Lemma push_root_bounded id a : Bounded a → Bounded (push_root id a).
Proof. apply if_reserved_bounded; [lia|auto with sizes|intros _; grows]. Qed.
Lemma push_file_bounded a f : Bounded a → Bounded (push_file a f).
Proof.
  unfold push_file. destruct (file_artifact f); [|done].
  apply if_reserved_bounded; [lia|unfold artifact_bytes; auto with sizes|intros _; grows].
Qed.

Lemma add_test_bounded t a : Bounded a → Bounded (if_reserved 1 (test_bytes t) (add_test t) a).
Proof. apply if_reserved_bounded; [lia|unfold test_bytes; auto with sizes|intros _; grows]. Qed.

Lemma add_target_bounded t a : Bounded a → Bounded (if_reserved 1 (str_len (target_label t)) (add_target t) a).
Proof. apply if_reserved_bounded; [lia|auto with sizes|intros _; grows]. Qed.

Lemma foldl_bounded {A} (f : BepAccumulator → A → BepAccumulator) xs a :
  (∀ a x, Bounded a → Bounded (f a x)) → Bounded a → Bounded (foldl f a xs).
Proof. intros Hf. revert a. induction xs as [|x xs IH]; intros a Ha; [done|]. cbn. by apply IH, Hf. Qed.

Lemma observe_group_bounded a g : Bounded a → Bounded (observe_group a g).
Proof.
  intros Ha. apply foldl_bounded; [intros; by apply push_file_bounded|].
  apply foldl_bounded; [intros; by apply push_root_bounded|done].
Qed.

Lemma observe_test_result_bounded label status a : Bounded a → Bounded (observe_test_result label status a).
Proof.
  intros Ha. unfold observe_test_result. destruct label as [label|]; [|done].
  destruct (test_attempts a !! label) as [attempts|] eqn:Hl.
  - destruct Ha as [H1 H2 H3 H4]. split; [|exact H2| |exact H4].
    + unfold held_items in *. cbn -[map_sum insert Z.of_nat]. by rewrite (map_sum_replace _ _ _ attempts).
    + unfold held_bytes in *. cbn -[map_sum sum_by insert]. by rewrite (map_sum_replace _ _ _ attempts).
  - apply if_reserved_bounded; [lia|auto with sizes| |done]. intros _ a'.
    unfold held_items, held_bytes. cbn -[map_sum sum_by insert Z.of_nat attempts_observe].
    pose proof (map_sum_insert (fun _ _ => 1) (test_attempts a') label (attempts_observe default_attempts status)
      ltac:(lia)).
    pose proof (map_sum_insert (fun label _ => str_len label) (test_attempts a') label
      (attempts_observe default_attempts status) ltac:(intros; apply str_len_nonneg)).
    cbv beta in *. split_and!; [done|done|lia|lia].
Qed.

Lemma named_set_bytes_nonneg key s : 0 ≤ named_set_bytes key s.
Proof.
  unfold named_set_bytes.
  pose proof (sum_by_nonneg artifact_bytes (set_files s) ltac:(unfold artifact_bytes; auto with sizes)).
  pose proof (sum_by_nonneg str_len (set_children s) ltac:(auto with sizes)).
  pose proof (str_len_nonneg key). unfold sum_by in *. lia.
Qed.

Lemma named_set_bounded key s a : Bounded a →
  Bounded (if_reserved (named_set_items s) (named_set_bytes key s) (add_named_set key s) a).
Proof.
  apply if_reserved_bounded; [unfold named_set_items, u64_add, u64_max; lia|apply named_set_bytes_nonneg|].
  intros Hitems a'. unfold held_items, held_bytes. cbn -[map_sum sum_by insert Z.of_nat named_set_items named_set_bytes].
  set (weight (s : OwnedNamedSet) := 1 + Z.of_nat (length (set_files s)) + Z.of_nat (length (set_children s))).
  pose proof (map_sum_insert (fun _ => weight) (named_sets a') key s ltac:(unfold weight; lia)).
  pose proof (map_sum_insert named_set_bytes (named_sets a') key s named_set_bytes_nonneg).
  cbv beta in *. assert (weight s ≤ named_set_items s).
  { unfold weight, named_set_items, u64_add, u64_max, STREAM_MAX_ITEMS in *. lia. }
  split_and!; [done|done|lia|lia].
Qed.

Lemma canonical_bounded arguments a : acc_canonical_arguments a = None → Bounded a →
  Bounded (if_reserved (Z.of_nat (length arguments)) (sum_by str_len arguments) (set_canonical arguments) a).
Proof.
  intros Hnone [H1 H2 H3 H4]. unfold if_reserved, reserve.
  destruct (_ || _) eqn:Hover; cbn [negb]; [by split|].
  apply orb_false_iff in Hover as [Hov1%Z.ltb_ge Hov2%Z.ltb_ge].
  pose proof (sum_by_nonneg str_len arguments ltac:(auto with sizes)).
  unfold held_items, held_bytes in *. rewrite Hnone in H1, H3.
  unfold u64_add, u64_max, STREAM_MAX_ITEMS, STREAM_MAX_RETAINED_BYTES in *.
  split; unfold held_items, held_bytes; cbn -[map_sum sum_by Z.of_nat] in *;
    unfold STREAM_MAX_ITEMS, STREAM_MAX_RETAINED_BYTES; lia.
Qed.

Lemma observe_payload_bounded id p a : Bounded a → Bounded (observe_payload id p a).
Proof.
  intros Ha. destruct p as [[reason description|[] action_type label exit_code primary_output
    |ok target_kind output_group important_output directory_output|overall duration attempt_count shard_count
    |status test_action_output|fs file_sets|startup cmd|ok code|should| |]|]; unfold observe_payload; try done.
  - by apply push_diagnostic_bounded.
  - destruct primary_output; [apply push_file_bounded|]; by apply push_diagnostic_bounded.
  - apply foldl_bounded; [intros; by apply push_file_bounded|].
    apply foldl_bounded; [intros; by apply observe_group_bounded|].
    by apply add_target_bounded.
  - apply (add_test_bounded (summary_test (default unknown_test (label_from_id id)) (test_status_of overall)
      duration attempt_count shard_count)).
    destruct (test_outcome_diagnostic _ _); [by apply push_diagnostic_bounded|done].
  - apply foldl_bounded; [intros; by apply push_file_bounded|]. apply observe_test_result_bounded.
    by destruct Ha.
  - destruct id as [[]|]; try done. by apply named_set_bounded.
  - destruct (acc_canonical_arguments a) eqn:Hc; [done|]. by apply canonical_bounded.
  - by destruct Ha.
  - by destruct Ha.
Qed.

(** *** The events for custom reducers *)

Definition CollectorOk (max_events max_bytes : Z) (c : ExtensionEventCollector) : Prop :=
  collector_max_events c = max_events ∧ collector_max_bytes c = max_bytes ∧
  Z.of_nat (length (collected c)) ≤ max_events ∧
  collected_bytes c = sum_by reducer_event_bytes (collected c) ∧ collected_bytes c ≤ max_bytes.

Lemma reducer_event_bytes_nonneg e : 0 ≤ reducer_event_bytes e.
Proof. unfold reducer_event_bytes. auto with sizes. Qed.

Lemma collector_push_ok max_events max_bytes c e : max_bytes < u64_max →
  CollectorOk max_events max_bytes c → CollectorOk max_events max_bytes (collector_push c e).
Proof.
  intros Hmax (He & Hb & Hlen & Hsum & Hbytes). unfold collector_push.
  destruct (_ || _) eqn:Hover; [done|]. apply orb_false_iff in Hover as [Hov1%Z.leb_gt Hov2%Z.ltb_ge].
  pose proof (sum_by_nonneg reducer_event_bytes (collected c) reducer_event_bytes_nonneg).
  pose proof (reducer_event_bytes_nonneg e). unfold CollectorOk, u64_add in *. cbn -[sum_by reducer_event_bytes].
  rewrite length_app, sum_by_app, sum_by_one. cbn [length]. lia.
Qed.

(** The collector of an accumulator changes only through [collector_push]. *)
Definition collector_of_update (f : BepAccumulator → BepAccumulator) : Prop := ∀ a, extension (f a) = extension a.

Lemma if_reserved_extension items bytes f a :
  collector_of_update f → extension (if_reserved items bytes f a) = extension a.
Proof. intros Hf. unfold if_reserved, reserve. destruct (_ || _); cbn [negb]; [done|]. by rewrite Hf. Qed.

Lemma foldl_extension {A} (f : BepAccumulator → A → BepAccumulator) xs a :
  (∀ a x, extension (f a x) = extension a) → extension (foldl f a xs) = extension a.
Proof. intros Hf. revert a. induction xs as [|x xs IH]; intros a; [done|]. cbn. by rewrite IH. Qed.

Lemma push_file_extension a f : extension (push_file a f) = extension a.
Proof. unfold push_file. destruct (file_artifact f); [|done]. by apply if_reserved_extension. Qed.

Lemma observe_payload_extension id p a : extension (observe_payload id p a) = extension a.
Proof.
  destruct p as [[reason description|[] action_type label exit_code primary_output
    |ok target_kind output_group important_output directory_output|overall duration attempt_count shard_count
    |status test_action_output|fs file_sets|startup cmd|ok code|should| |]|]; unfold observe_payload; try done.
  - by apply if_reserved_extension.
  - destruct primary_output; rewrite ?push_file_extension; by apply if_reserved_extension.
  - rewrite foldl_extension by apply push_file_extension. rewrite foldl_extension; [by apply if_reserved_extension|].
    intros b g. unfold observe_group. rewrite foldl_extension by apply push_file_extension.
    apply foldl_extension. intros. by apply if_reserved_extension.
  - rewrite if_reserved_extension by done. destruct (test_outcome_diagnostic _ _); [|done]. by apply if_reserved_extension.
  - rewrite foldl_extension by apply push_file_extension. unfold observe_test_result.
    destruct (label_from_id id); [|done]. destruct (_ !! _); [done|]. by rewrite if_reserved_extension.
  - destruct id as [[]|]; try done. by apply if_reserved_extension.
  - destruct (acc_canonical_arguments a); [done|]. by apply if_reserved_extension.
Qed.

(** C29: however many events arrive and however large they are, what the
    accumulator holds stays within 250,000 items and 64 MiB of text, and the
    events it collects for custom reducers within their own two limits. *)
Theorem accumulator_bounded max_events max_bytes events :
  0 ≤ max_events → 0 ≤ max_bytes < u64_max →
  let a := foldl observe (with_extension_events max_events max_bytes) events in
  held_items a ≤ STREAM_MAX_ITEMS ∧ held_bytes a ≤ STREAM_MAX_RETAINED_BYTES ∧
  ∃ c, extension a = Some c ∧ Z.of_nat (length (collected c)) ≤ max_events ∧
    sum_by reducer_event_bytes (collected c) ≤ max_bytes.
Proof.
  intros He Hb a.
  assert (Bounded a ∧ ∃ c, extension a = Some c ∧ CollectorOk max_events max_bytes c)
    as [[H1 H2 H3 H4] (c & Hc & _ & _ & Hlen & Hsum & Hbytes)].
  { unfold a. clear a. induction events as [|e events IH] using rev_ind.
    - split; [|exists (MkCollector [] 0 max_events max_bytes false); split; [done|];
        unfold CollectorOk; cbn; split_and!; done || lia].
      split; [|done| |done]; unfold held_items, held_bytes, map_sum; cbn -[map_fold];
        rewrite !map_fold_empty; lia.
    - rewrite foldl_app. cbn [foldl]. destruct IH as [Ha (c & Hc & Hok)].
      set (b := foldl observe _ _) in *. unfold observe. rewrite observe_payload_extension.
      unfold observe_extension_event. change (extension (set_ordinal _ b)) with (extension b). rewrite Hc.
      assert (Bounded (set_ordinal (u64_add (next_event_ordinal b) 1) b)) as Hb' by (by destruct Ha).
      destruct (reducer_event e _) as [event|].
      + split; [apply observe_payload_bounded; by destruct Hb'|].
        eexists. split; [done|]. apply collector_push_ok; [lia|done].
      + split; [by apply observe_payload_bounded|]. by exists c. }
  split_and!; [lia|lia|]. exists c. split_and!; [done|done|lia].
Qed.

(** ** The summary *)

Definition total_tests (c : TestCounts) : Z :=
  passed c + tests_failed c + flaky c + skipped c + incomplete c.

Lemma count_tests_total ts : total_tests (count_tests ts) = Z.of_nat (length ts).
Proof.
  unfold count_tests. induction ts as [|t ts IH] using rev_ind; [done|].
  rewrite foldl_app, length_app. cbn [foldl length]. destruct (foldl _ _ _) as [p f fl sk i].
  unfold total_tests in *. cbn in *. destruct (test_status t); cbn; lia.
Qed.

Lemma count_targets_total ts :
  targets_succeeded (count_targets ts) + targets_failed (count_targets ts) = requested (count_targets ts).
Proof.
  unfold count_targets. cbn. induction ts as [|t ts IH]; [done|]. rewrite !filter_cons.
  destruct (target_success t) eqn:Ht.
  - rewrite decide_True, decide_False by done. cbn. lia.
  - rewrite decide_False, decide_True by done. cbn. lia.
Qed.

Lemma recovered_labels ts attempts k :
  k ∈ map test_label (recovered_tests ts attempts) ↔
  (k ∉ map test_label ts) ∧ ∃ outcome, attempts !! k = Some outcome ∧ is_Some (successful_status outcome).
Proof.
  unfold recovered_tests. rewrite list_elem_of_fmap. setoid_rewrite list_elem_of_omap. split.
  - intros (t & -> & [label outcome] & Hin%btree_items_elem & Ht). case_bool_decide as Hk; [done|].
    destruct (successful_status outcome) as [status|] eqn:Hstatus; [|done]. cbn in Ht. injection Ht as <-. cbn.
    split; [done|]. exists outcome. by rewrite Hstatus.
  - intros [Hk (outcome & Hin & [status Hstatus])]. exists (recovered_test k status (attempts_count outcome)).
    split; [done|]. exists (k, outcome). split; [by apply btree_items_elem|]. by rewrite bool_decide_false, Hstatus.
Qed.

Lemma recovered_NoDup ts attempts : NoDup (map test_label (recovered_tests ts attempts)).
Proof.
  unfold recovered_tests. pose proof (btree_items_keys attempts) as Hnd.
  induction (btree_items attempts) as [|[label outcome] items IH]; [constructor|]. cbn [map fst] in Hnd.
  apply NoDup_cons in Hnd as [Hl Hnd]. cbn [omap list_omap].
  assert (∀ t, t ∈ map test_label (omap (fun '(label, outcome) =>
    if bool_decide (label ∈ map test_label ts) then None
    else (fun status => recovered_test label status (attempts_count outcome)) <$> successful_status outcome) items)
    → t ∈ map fst items) as Hsub.
  { intros t (x & -> & ([l o] & Hin & Hx)%list_elem_of_omap)%list_elem_of_fmap. case_bool_decide; [done|].
    destruct (successful_status o); [|done]. cbn in Hx. injection Hx as <-. cbn.
    apply list_elem_of_fmap. by exists (l, o). }
  case_bool_decide; [by apply IH|]. destruct (successful_status outcome); cbn; [|by apply IH].
  constructor; [|by apply IH]. intros Hin. apply Hl. by apply Hsub.
Qed.

Lemma head_app_filter {A} (P : A → Prop) `{!∀ x, Decision (P x)} l1 l2 :
  is_Some (head (filter P l1)) → head (filter P (l1 ++ l2)) = head (filter P l1).
Proof. rewrite filter_app. by destruct (filter P l1); [intros []|]. Qed.

Section summary.
Context `{Text : TextDiagnostics}.

(** A summary lists every target and every test once, in the order of
    their labels, with what the first event for the label said; its counts add
    up; and a test without a summary event is listed only when the build and the
    process succeeded and some attempt of it passed. *)
Theorem finish_summary_spec a stdout stderr exit_code elapsed_ms budget :
  let out := out_summary (finish a stdout stderr exit_code elapsed_ms budget) in
  let recovers := exit_code = Some 0 ∧ build_success (run_bep_outcome a) = Some true in
  by_label target_label (targets out) ∧ by_label test_label (tests out) ∧
  (∀ k, head (filter (with_label target_label k) (targets out))
        = head (filter (with_label target_label k) (acc_targets a))) ∧
  (∀ k, k ∈ map test_label (acc_tests a) →
    head (filter (with_label test_label k) (tests out)) = head (filter (with_label test_label k) (acc_tests a))) ∧
  (∀ k, k ∈ map test_label (tests out) ↔ k ∈ map test_label (acc_tests a) ∨
    recovers ∧ ∃ outcome, test_attempts a !! k = Some outcome ∧ is_Some (successful_status outcome)) ∧
  requested (target_counts out) = Z.of_nat (length (targets out)) ∧
  targets_succeeded (target_counts out) + targets_failed (target_counts out) = requested (target_counts out) ∧
  total_tests (test_counts out) = Z.of_nat (length (tests out)).
Proof.
  intros out recovers. set (summarized := dedup_by_label test_label (sort_by_label test_label (acc_tests a))).
  assert (by_label test_label summarized) as Hsum by apply dedup_sort_by_label.
  assert (∀ k, head (filter (with_label test_label k) summarized)
               = head (filter (with_label test_label k) (acc_tests a))) as Hfirst by apply dedup_sort_first.
  assert (∀ k, k ∈ map test_label summarized ↔ k ∈ map test_label (acc_tests a)) as Hlabels.
  { intros k. by rewrite !head_filter_label, Hfirst. }
  assert (targets out = dedup_by_label target_label (sort_by_label target_label (acc_targets a)) ∧
    target_counts out = count_targets (targets out) ∧ test_counts out = count_tests (tests out) ∧
    tests out = if bool_decide (exit_code = Some 0) && bool_decide (build_success (run_bep_outcome a) = Some true)
      then sort_by_label test_label (summarized ++ recovered_tests summarized (test_attempts a))
      else summarized) as (Ht & Htc & Hcc & Htests).
  { unfold out, finish, finalize_diagnostics. cbn [out_summary]. destruct (retain_within _ _ _) as [kept dropped].
    cbn. split_and!; try done. by destruct (bool_decide (exit_code = Some 0) && _). }
  rewrite Htc, Hcc, Ht.
  split_and!; [apply dedup_sort_by_label| |apply dedup_sort_first| | |done|apply count_targets_total|apply count_tests_total].
  all: rewrite Htests; destruct (bool_decide (exit_code = Some 0) && _) eqn:Hrec.
  - apply sort_by_label_strict. rewrite map_app. apply NoDup_app. split_and!; [by apply by_label_NoDup| |apply recovered_NoDup].
    intros k Hk [Hnot _]%recovered_labels. done.
  - done.
  - intros k Hk. rewrite sort_by_label_first, head_app_filter; [done|]. rewrite <- head_filter_label. by apply Hlabels.
  - intros k _. apply Hfirst.
  - intros k. apply andb_true_iff in Hrec as [H1%bool_decide_eq_true H2%bool_decide_eq_true].
    assert (k ∈ map test_label (sort_by_label test_label (summarized ++ recovered_tests summarized (test_attempts a)))
      ↔ k ∈ map test_label (summarized ++ recovered_tests summarized (test_attempts a))) as ->
      by (unfold sort_by_label; by rewrite stable_sort_perm).
    rewrite map_app, elem_of_app, recovered_labels, !Hlabels. unfold recovers.
    destruct (decide (k ∈ map test_label (acc_tests a))); tauto.
  - intros k. rewrite Hlabels. unfold recovers. apply andb_false_iff in Hrec.
    rewrite !bool_decide_eq_false in Hrec. tauto.
Qed.
End summary.

(** ** The artifacts *)

(** Whatever the named sets refer to, cycles and missing sets included,
    the traversal ends, and the artifacts are exactly the direct ones and those
    of the sets reachable from the targets' output groups, each name and
    location once. *)
Theorem resolve_artifacts_spec a :
  let key x := (artifact_name x, uri x) in
  let sets := (fun s => (set_files s, set_children s)) <$> named_sets a in
  NoDup (map key (resolve_artifacts a)) ∧
  (∀ x, x ∈ resolve_artifacts a → reported sets (artifact_roots a) (direct_artifacts a) x) ∧
  (∀ x, reported sets (artifact_roots a) (direct_artifacts a) x → key x ∈ map key (resolve_artifacts a)).
Proof.
  intros key sets. unfold resolve_artifacts, unique_artifacts. fold sets. split_and!.
  - apply unique_after_NoDup.
  - intros x Hx. apply (resolve_spec sets (artifact_roots a)). eapply elem_of_sublist; [exact Hx|].
    apply unique_after_sublist.
  - intros x Hx. apply unique_after_keys. split; [|set_solver]. apply list_elem_of_fmap. exists x.
    split; [done|]. by apply resolve_spec.
Qed.

(** * Witnesses *)

Module ReductionExamples.
#[local] Instance no_text : TextDiagnostics := {| add_text_diagnostics _ ds := ds |}.

Definition example_file : FileView := MkFile ["bazel-out"; "bin"] "lib.a" (Some (FileUri "file:///out/lib.a")) 7.
Definition example_events : list BepEvent :=
  [MkEvent (Some (IdNamedSet "0")) (Some (NamedSetOfFiles [example_file] ["0"; "1"]));
   MkEvent (Some (IdTargetCompleted "//app:lib"))
     (Some (Completed true "cc_library" [MkOutputGroup ["0"] []] [] []));
   MkEvent (Some (IdTestSummary "//app:t")) (Some (TestSummary 4 12 1 0));
   MkEvent None (Some (Finished true (Some 0)))].

Lemma example_events_fit : Forall event_fits example_events.
Proof.
  apply Forall_cons; split; [split|apply Forall_cons; split; [|by repeat constructor]].
  - intros id Hid. apply elem_of_cons in Hid as [->|Hid]; [by vm_compute|].
    apply list_elem_of_singleton in Hid as ->. by vm_compute.
  - intros id [= <-]. by vm_compute.
  - intros id Hid. apply list_elem_of_singleton in Hid as ->. by vm_compute.
Qed.

Lemma stream_reduction_matches_batch_witness :
  map artifact_name (reduce_artifacts example_events) = ["bazel-out/bin/lib.a"] ∧
  out_summary (finish (foldl observe default_accumulator example_events) [] [] (Some 3) 9 result_default)
  = reduce_invocation (MkInput example_events [] [] (Some 3) 9 result_default).
Proof.
  split; [vm_compute; reflexivity|].
  apply (stream_reduction_matches_batch default_accumulator example_events [] [] (Some 3) 9 result_default);
    [reflexivity|apply example_events_fit|vm_compute; reflexivity|vm_compute; reflexivity].
Defined.

Lemma accumulator_bounded_witness :
  let a := foldl observe (with_extension_events 1 100) example_events in
  held_items a = 8 ∧ held_bytes a ≤ STREAM_MAX_RETAINED_BYTES.
Proof.
  intros a. split; [vm_compute; reflexivity|].
  apply (accumulator_bounded 1 100 example_events); unfold u64_max; lia.
Defined.
End ReductionExamples.
