(* ===== verification/Record.v ===== *)
(** * Compact and hydrated records (crates/bazel-mcp-store/src/record.rs)

    A record is stored as a compact header (manifest and in-memory index) and a
    sidecar with its large collections.  Also the errors of the store
    (storage.rs), which every store component shares. *)

From S2P Require Import Prelude Types.

(** ** Store errors (storage.rs) *)

Inductive StoreError : Type :=
| NotFound (id : InvocationId)
| DeferredNotFound (id : InvocationId)
| InvalidCursor
| UnsupportedRecordSchema (found : Z) (path : PathBuf)
| CorruptRecord (path : PathBuf) (message : string)
| StoreIo (message : string)
| StoreJson (message : string)
| StoreState (error : StateTransitionError)
| StoreJoin (message : string).

#[export] Instance StateTransitionError_eq_dec : EqDecision StateTransitionError.
Proof. solve_decision. Defined.
#[export] Instance StoreError_eq_dec : EqDecision StoreError.
Proof. solve_decision. Defined.

(** ** Headers *)

Record CoverageHeader : Type := MkCoverageHeader {
  header_lines_found : Z; header_lines_hit : Z; header_coverage_percent : f64;
}.

(** [From<CoverageSummary> for CoverageHeader] and [CoverageHeader::into_summary]. *)
Definition coverage_header (s : CoverageSummary) : CoverageHeader :=
  MkCoverageHeader (lines_found s) (lines_hit s) (coverage_percent s).
Definition coverage_into_summary (h : CoverageHeader) : CoverageSummary :=
  MkCoverage (header_lines_found h) (header_lines_hit h) (header_coverage_percent h) [].

Record InvocationSummaryHeader : Type := MkSummaryHeader {
  header_success : bool;
  header_headline : string;
  header_target_counts : TargetCounts;
  header_diagnostics : list Diagnostic;
  header_test_counts : TestCounts;
  header_coverage : option CoverageHeader;
  header_query_sample : list QueryRow;
  header_query_result_count : option Z;
  header_elapsed_ms : Z;
  header_truncated : bool;
  header_inspect_hint : option InspectHint;
}.

(** [From<InvocationSummary> for InvocationSummaryHeader]. *)
Definition summary_header (s : InvocationSummary) : InvocationSummaryHeader :=
  MkSummaryHeader (success s) (headline s) (target_counts s) (diagnostics s) (test_counts s)
    (coverage_header <$> coverage s) (query_sample s) (query_result_count s) (elapsed_ms s)
    (truncated s) (inspect_hint s).

(** [InvocationSummaryHeader::into_summary]. *)
Definition into_summary (h : InvocationSummaryHeader) : InvocationSummary :=
  MkSummary (header_success h) (header_headline h) [] (header_target_counts h)
    (header_diagnostics h) [] (header_test_counts h)
    (coverage_into_summary <$> header_coverage h) (header_query_sample h)
    (header_query_result_count h) (header_elapsed_ms h) (header_truncated h)
    (header_inspect_hint h).

Record InvocationHeader : Type := MkHeader {
  header_request : InvocationRequest;
  header_state : InvocationState;
  header_started_at_ms : option Z;
  header_finished_at_ms : option Z;
  header_termination : option Termination;
  header_summary : option InvocationSummaryHeader;
  header_run : option RunSummary;
  header_metrics : InvocationMetrics;
  header_canonical_arguments : option (list string);
  header_cancellation_reason : option string;
}.

(** [InvocationHeader::from_record]. *)
Definition header_from_record (r : InvocationRecord) : InvocationHeader :=
  MkHeader (request r) (state r) (started_at_ms r) (finished_at_ms r) (termination r)
    (summary_header <$> summary r) (run r) (metrics r) (canonical_arguments r)
    (cancellation_reason r).

(** [InvocationHeader::into_record]. *)
Definition header_into_record (h : InvocationHeader) : InvocationRecord :=
  MkRecord (header_request h) (header_state h) (header_started_at_ms h) (header_finished_at_ms h)
    (header_termination h) (into_summary <$> header_summary h) (header_run h) (header_metrics h)
    (header_canonical_arguments h) (header_cancellation_reason h).

(** ** Details *)

Record InvocationDetails : Type := MkDetails {
  details_targets : list TargetResult;
  details_tests : list TestResult;
  details_coverage_files : list CoverageFile;
}.
Definition default_details : InvocationDetails := MkDetails [] [] [].

(** [InvocationDetails::from_record]. *)
Definition details_from_record (r : InvocationRecord) : InvocationDetails :=
  match summary r with
  | None => default_details
  | Some s =>
      MkDetails (targets s) (tests s)
        (match coverage s with Some coverage => files coverage | None => [] end)
  end.

(** [InvocationDetails::hydrate] on the summary of the record. *)
Definition hydrate_summary (d : InvocationDetails) (s : InvocationSummary) : InvocationSummary :=
  MkSummary (success s) (headline s) (details_targets d) (target_counts s) (diagnostics s)
    (details_tests d) (test_counts s)
    ((fun c => MkCoverage (lines_found c) (lines_hit c) (coverage_percent c)
                 (details_coverage_files d)) <$> coverage s)
    (query_sample s) (query_result_count s) (elapsed_ms s) (truncated s) (inspect_hint s).

Definition hydrate (d : InvocationDetails) (r : InvocationRecord) : InvocationRecord :=
  MkRecord (request r) (state r) (started_at_ms r) (finished_at_ms r) (termination r)
    (hydrate_summary d <$> summary r) (run r) (metrics r) (canonical_arguments r)
    (cancellation_reason r).

Definition details_is_empty (d : InvocationDetails) : bool :=
  match details_targets d, details_tests d, details_coverage_files d with
  | [], [], [] => true
  | _, _, _ => false
  end.

Record HydratedInvocation : Type := MkHydrated {
  hydrated_header : InvocationHeader;
  hydrated_details : InvocationDetails;
}.

Definition hydrated_from_record (r : InvocationRecord) : HydratedInvocation :=
  MkHydrated (header_from_record r) (details_from_record r).

(** [HydratedInvocation::into_record]. *)
Definition hydrated_into_record (h : HydratedInvocation) : InvocationRecord :=
  hydrate (hydrated_details h) (header_into_record (hydrated_header h)).

(** ** Theorems *)

Lemma hydrate_summary_header d s :
  details_targets d = targets s → details_tests d = tests s →
  details_coverage_files d = match coverage s with Some c => files c | None => [] end →
  hydrate_summary d (into_summary (summary_header s)) = s.
Proof.
  destruct d, s as [? ? ? ? ? ? ? [[]|]]; simpl; intros -> -> ->; reflexivity.
Qed.

(** The compact header is a retraction of its legacy record shape, so writing
    a header through that shape and reading it back changes nothing. *)
Lemma header_record_header h : header_from_record (header_into_record h) = h.
Proof.
  destruct h as [? ? ? ? ? [[? ? ? ? ? [[]|]]|]]; reflexivity.
Qed.

Lemma record_split r : hydrated_into_record (hydrated_from_record r) = r.
Proof.
  destruct r as [? ? ? ? ? [s|] ? ? ? ?]; [|reflexivity].
  unfold hydrated_into_record, hydrated_from_record, hydrate. simpl.
  by rewrite hydrate_summary_header.
Qed.

Lemma details_is_empty_default d : details_is_empty d = true → d = default_details.
Proof. destruct d as [[] [] []]; done. Qed.

(** Splitting a record into its compact header and its detail sidecar and
    hydrating it again gives the record back; a record whose sidecar is empty
    (so that none is written) is already restored by its header alone. *)
Theorem record_split_roundtrip r :
  hydrated_into_record (hydrated_from_record r) = r ∧
  (details_is_empty (details_from_record r) = true →
   header_into_record (header_from_record r) = r).
Proof.
  split; [apply record_split|]. intros Hempty%details_is_empty_default.
  rewrite <- (record_split r) at 2. unfold hydrated_into_record, hydrated_from_record. simpl.
  rewrite Hempty. destruct r as [? ? ? ? ? [[? ? ? ? ? ? ? [[]|]]|]]; reflexivity.
Qed.
