(* ===== verification/Cursor.v ===== *)
(** * Pagination cursors (crates/bazel-mcp-store/src/cursor.rs)

    Four kinds of opaque cursor: a version byte, a kind byte, sixteen bytes that
    bind the cursor to the listing it was issued for, and the position.  Base64,
    SHA-256 and UUID text are third-party code: the interface [CursorCodec]. *)

From S2P Require Import Prelude Types Record.
From Stdlib Require Import Ascii.

(** ** Little-endian integers *)

(** [to_le_bytes] of an integer of [n] bytes, two's complement. *)
Fixpoint to_le_bytes (n : nat) (z : Z) : list Z :=
  match n with
  | O => []
  | S n => z mod 256 :: to_le_bytes n (z / 256)
  end.

(** [u64::from_le_bytes] and [i64::from_le_bytes]. *)
Fixpoint u64_from_le_bytes (bytes : list Z) : Z :=
  match bytes with
  | [] => 0
  | byte :: rest => byte + 256 * u64_from_le_bytes rest
  end.
Definition i64_from_le_bytes (bytes : list Z) : Z :=
  let z := u64_from_le_bytes bytes in
  if z <=? i64_max then z else z - 2 ^ 64.

Lemma length_to_le_bytes n z : length (to_le_bytes n z) = n.
Proof. revert z. induction n as [|n IH]; intros z; simpl; [done|]. by rewrite IH. Qed.

Lemma to_le_bytes_u8 n z : Forall is_u8 (to_le_bytes n z).
Proof.
  revert z. induction n as [|n IH]; intros z; simpl; constructor; [|apply IH].
  pose proof (Z.mod_pos_bound z 256). width.
Qed.

Lemma from_to_le_bytes n z : u64_from_le_bytes (to_le_bytes n z) = z mod 256 ^ Z.of_nat n.
Proof.
  revert z. induction n as [|n IH]; intros z; cbn [to_le_bytes u64_from_le_bytes].
  { by rewrite Z.mod_1_r. }
  rewrite IH, Nat2Z.inj_succ, Z.pow_succ_r by lia.
  rewrite Z.rem_mul_r by lia. lia.
Qed.

Lemma u64_le_roundtrip z : is_u64 z → u64_from_le_bytes (to_le_bytes 8 z) = z.
Proof.
  intros Hz. rewrite from_to_le_bytes. change (256 ^ Z.of_nat 8) with (2 ^ 64).
  apply Z.mod_small. width.
Qed.

Lemma i64_le_roundtrip z : is_i64 z → i64_from_le_bytes (to_le_bytes 8 z) = z.
Proof.
  intros Hz. unfold i64_from_le_bytes. rewrite from_to_le_bytes.
  change (256 ^ Z.of_nat 8) with (2 ^ 64).
  destruct (decide (0 ≤ z)).
  - rewrite Z.mod_small by width. destruct (Z.leb_spec z i64_max); width.
  - rewrite <- (Z.mod_add z 1), Z.mod_small by width.
    destruct (Z.leb_spec (z + 1 * 2 ^ 64) i64_max); width.
Qed.

(** ** The codec interface *)

Class CursorCodec : Type := {
  base64_encode : list Z → string;
  base64_decode : string → option (list Z);
  sha256 : list Z → list Z;
  uuid_parse_str : string → option (list Z);
  uuid_from_slice : list Z → option (list Z);
  uuid_to_string : list Z → string;
}.

(** What the cursors rely on: base64 decodes what it encodes, a digest has 32
    bytes, a UUID is sixteen bytes, and the text of a UUID parses to it. *)
Class CursorCodecLaws `{CursorCodec} : Prop := {
  base64_roundtrip : ∀ bytes, Forall is_u8 bytes → base64_decode (base64_encode bytes) = Some bytes;
  sha256_length : ∀ bytes, length (sha256 bytes) = 32%nat;
  sha256_u8 : ∀ bytes, Forall is_u8 (sha256 bytes);
  uuid_parse_length : ∀ id uuid,
    uuid_parse_str id = Some uuid → length uuid = 16%nat ∧ Forall is_u8 uuid;
  uuid_slice : ∀ uuid, length uuid = 16%nat → uuid_from_slice uuid = Some uuid;
}.

(** ** Cursors *)

Definition VERSION : Z := 1.
Definition INVOCATION_KIND : Z := 1.
Definition DEFERRED_KIND : Z := 2.
Definition ORDINAL_KIND : Z := 3.
Definition FILE_KIND : Z := 4.
Definition CONTEXT_BYTES : nat := 16.

Record InvocationCursor : Type := MkInvocationCursor {
  invocation_cursor_context : list Z;
  cursor_requested_at_ms : Z;
  invocation_cursor_id : string;
}.

Record DeferredCursor : Type := MkDeferredCursor {
  deferred_cursor_context : list Z;
  cursor_created_at_ms : Z;
  deferred_cursor_id : string;
}.

Record OrdinalCursor : Type := MkOrdinalCursor {
  ordinal_cursor_context : list Z;
  cursor_ordinal : Z;
}.

Record FileCursor : Type := MkFileCursor {
  file_cursor_context : list Z;
  file_offset : Z;
  file_ordinal : Z;
  total_scanned : Z;
  filtered_scanned : Z;
}.

(** [&bytes[start..end]] of a vector whose length was checked. *)
Definition byte_range (bytes : list Z) (start end_ : nat) : list Z :=
  take (end_ - start) (drop start bytes).

(** The bytes [cursor_context] feeds to the hash: every part with its length. *)
Definition context_input (parts : list string) : list Z :=
  concat (map (fun part => to_le_bytes 8 (u64_try_from_or_max (str_len part)) ++ bytes_of part) parts).

Section cursors.
Context `{Codec : CursorCodec}.

Definition cursor_context (parts : list string) : list Z :=
  take CONTEXT_BYTES (sha256 (context_input parts)).

(** [decode_exact]; the length test comes first, so indexing cannot panic. *)
Definition decode_exact (value : string) (expected_len : nat) (kind : Z)
    : result StoreError (list Z) :=
  bytes ← ok_or (base64_decode value) InvalidCursor;
  _ ← reject_if (negb (length bytes =? expected_len)%nat
                 || negb (nth 0 bytes 0 =? VERSION) || negb (nth 1 bytes 0 =? kind)) InvalidCursor;
  Ok bytes.

Definition encode_timestamp_cursor (kind : Z) (context : list Z) (timestamp : Z) (id : string)
    : result StoreError string :=
  uuid ← ok_or (uuid_parse_str id) InvalidCursor;
  Ok (base64_encode ([VERSION; kind] ++ context ++ to_le_bytes 8 timestamp ++ uuid)).

Definition decode_timestamp_cursor (value : string) (kind : Z)
    : result StoreError (list Z * Z * string) :=
  bytes ← decode_exact value 42 kind;
  uuid ← ok_or (uuid_from_slice (byte_range bytes 26 42)) InvalidCursor;
  Ok (byte_range bytes 2 18, i64_from_le_bytes (byte_range bytes 18 26), uuid_to_string uuid).

(** [context != cursor_context(parts)], the guard of every [decode_for]. *)
Definition check_context (context : list Z) (parts : list string) : result StoreError unit :=
  reject_if (negb (bool_decide (context = cursor_context parts))) InvalidCursor.

(** *** DeferredCursor *)
Definition deferred_parts (retrieval : string) : list string := ["deferred"; retrieval].
Definition new_deferred_cursor (retrieval : string) (created_at_ms : Z) (id : string) : DeferredCursor :=
  MkDeferredCursor (cursor_context (deferred_parts retrieval)) created_at_ms id.
Definition encode_deferred_cursor (c : DeferredCursor) : result StoreError string :=
  encode_timestamp_cursor DEFERRED_KIND (deferred_cursor_context c) (cursor_created_at_ms c)
    (deferred_cursor_id c).
Definition decode_deferred_cursor (value : string) : result StoreError DeferredCursor :=
  '(context, created_at_ms, id) ← decode_timestamp_cursor value DEFERRED_KIND;
  Ok (MkDeferredCursor context created_at_ms id).
Definition decode_deferred_cursor_for (value retrieval : string) : result StoreError DeferredCursor :=
  cursor ← decode_deferred_cursor value;
  _ ← check_context (deferred_cursor_context cursor) (deferred_parts retrieval);
  Ok cursor.

(** *** InvocationCursor *)
Definition invocation_parts (workspace state command : option string) : list string :=
  ["invocations"; default "" workspace; default "" state; default "" command].
Definition new_invocation_cursor (workspace state command : option string) (requested_at_ms : Z)
    (id : string) : InvocationCursor :=
  MkInvocationCursor (cursor_context (invocation_parts workspace state command)) requested_at_ms id.
Definition encode_invocation_cursor (c : InvocationCursor) : result StoreError string :=
  encode_timestamp_cursor INVOCATION_KIND (invocation_cursor_context c) (cursor_requested_at_ms c)
    (invocation_cursor_id c).
Definition decode_invocation_cursor (value : string) : result StoreError InvocationCursor :=
  '(context, requested_at_ms, id) ← decode_timestamp_cursor value INVOCATION_KIND;
  Ok (MkInvocationCursor context requested_at_ms id).
Definition decode_invocation_cursor_for (value : string) (workspace state command : option string)
    : result StoreError InvocationCursor :=
  cursor ← decode_invocation_cursor value;
  _ ← check_context (invocation_cursor_context cursor) (invocation_parts workspace state command);
  Ok cursor.

(** *** FileCursor *)
Definition scoped_parts (scope invocation_id : string) (filter : option string) : list string :=
  [scope; invocation_id; default "" filter].
Definition new_file_cursor (scope invocation_id : string) (filter : option string)
    (offset ordinal total_scanned filtered_scanned : Z) : FileCursor :=
  MkFileCursor (cursor_context (scoped_parts scope invocation_id filter))
    offset ordinal total_scanned filtered_scanned.
Definition encode_file_cursor (c : FileCursor) : result StoreError string :=
  Ok (base64_encode ([VERSION; FILE_KIND] ++ file_cursor_context c ++
        to_le_bytes 8 (file_offset c) ++ to_le_bytes 8 (file_ordinal c) ++
        to_le_bytes 8 (total_scanned c) ++ to_le_bytes 8 (filtered_scanned c))).
Definition decode_file_cursor (value : string) : result StoreError FileCursor :=
  bytes ← decode_exact value 50 FILE_KIND;
  Ok (MkFileCursor (byte_range bytes 2 18)
        (u64_from_le_bytes (byte_range bytes 18 26)) (u64_from_le_bytes (byte_range bytes 26 34))
        (u64_from_le_bytes (byte_range bytes 34 42)) (u64_from_le_bytes (byte_range bytes 42 50))).
Definition decode_file_cursor_for (value scope invocation_id : string) (filter : option string)
    : result StoreError FileCursor :=
  cursor ← decode_file_cursor value;
  _ ← check_context (file_cursor_context cursor) (scoped_parts scope invocation_id filter);
  Ok cursor.

(** *** OrdinalCursor *)
Definition new_ordinal_cursor (scope invocation_id : string) (filter : option string) (ordinal : Z)
    : OrdinalCursor :=
  MkOrdinalCursor (cursor_context (scoped_parts scope invocation_id filter)) ordinal.
Definition encode_ordinal_cursor (c : OrdinalCursor) : result StoreError string :=
  Ok (base64_encode ([VERSION; ORDINAL_KIND] ++ ordinal_cursor_context c ++
        to_le_bytes 8 (cursor_ordinal c))).
Definition decode_ordinal_cursor (value : string) : result StoreError OrdinalCursor :=
  bytes ← decode_exact value 26 ORDINAL_KIND;
  Ok (MkOrdinalCursor (byte_range bytes 2 18) (i64_from_le_bytes (byte_range bytes 18 26))).
Definition decode_ordinal_cursor_for (value scope invocation_id : string) (filter : option string)
    : result StoreError OrdinalCursor :=
  cursor ← decode_ordinal_cursor value;
  _ ← check_context (ordinal_cursor_context cursor) (scoped_parts scope invocation_id filter);
  Ok cursor.
End cursors.

(** ** The hashed context is unambiguous *)

Definition machine_string (s : string) : Prop := str_len s ≤ u64_max.

Lemma bytes_of_length s : length (bytes_of s) = String.length s.
Proof. pose proof (length_bytes_of s). unfold str_len in *. lia. Qed.

Lemma context_part_inj p p' rest rest' :
  machine_string p → machine_string p' →
  (to_le_bytes 8 (u64_try_from_or_max (str_len p)) ++ bytes_of p) ++ rest =
  (to_le_bytes 8 (u64_try_from_or_max (str_len p')) ++ bytes_of p') ++ rest' →
  p = p' ∧ rest = rest'.
Proof.
  unfold machine_string. intros Hp Hp' Heq. rewrite <- !app_assoc in Heq.
  pose proof (str_len_nonneg p). pose proof (str_len_nonneg p').
  apply app_inj_1 in Heq as [Hlength Heq]; [|by rewrite !length_to_le_bytes].
  assert (Hlen : ∀ s, 0 ≤ str_len s → str_len s ≤ u64_max → u64_try_from_or_max (str_len s) = str_len s).
  { intros s ? ?. unfold u64_try_from_or_max. by rewrite decide_True by lia. }
  rewrite !Hlen in Hlength by done.
  apply (f_equal u64_from_le_bytes) in Hlength. rewrite !u64_le_roundtrip in Hlength by (split; lia).
  apply app_inj_1 in Heq as [Hbytes ->]; [split; [by apply bytes_of_inj|done]|].
  rewrite !bytes_of_length. unfold str_len in Hlength. lia.
Qed.

Lemma context_input_inj parts parts' :
  Forall machine_string parts → Forall machine_string parts' →
  context_input parts = context_input parts' → parts = parts'.
Proof.
  unfold context_input. intros Hparts. revert parts'.
  induction Hparts as [|p parts Hp Hparts IH]; intros [|p' parts'] Hparts' Heq; try done.
  inversion Hparts' as [|? ? Hp' Hrest]; subst. simpl map in Heq. simpl concat in Heq.
  apply context_part_inj in Heq as [-> Heq]; [|done..]. f_equal. by apply IH.
Qed.

(** ** Decoding what was encoded *)

Lemma byte_range_app before range after start end_ :
  length before = start → (start + length range = end_)%nat →
  byte_range (before ++ range ++ after) start end_ = range.
Proof.
  intros <- <-. unfold byte_range. rewrite drop_app_length.
  replace (length before + length range - length before)%nat with (length range) by lia.
  apply take_app_length.
Qed.

Lemma byte_range_last before range start end_ :
  length before = start → (start + length range = end_)%nat →
  byte_range (before ++ range) start end_ = range.
Proof. intros. rewrite <- (app_nil_r range) at 1. by apply byte_range_app. Qed.

Create HintDb u8 discriminated.

(** Reads a field of known position out of a concatenation. *)
Ltac read_field :=
  first [rewrite byte_range_app by (rewrite ?length_app, ?length_to_le_bytes; simpl; lia)
        |rewrite byte_range_last by (rewrite ?length_app, ?length_to_le_bytes; simpl; lia)]; try done.

Section laws.
Context `{Codec : CursorCodec, Laws : !CursorCodecLaws}.

Lemma cursor_context_length parts : length (cursor_context parts) = 16%nat.
Proof. unfold cursor_context, CONTEXT_BYTES. rewrite length_take, sha256_length. done. Qed.

Lemma cursor_context_u8 parts : Forall is_u8 (cursor_context parts).
Proof. apply Forall_take, sha256_u8. Qed.

Lemma decode_exact_encoded kind payload expected_len :
  is_u8 kind → Forall is_u8 payload → (2 + length payload)%nat = expected_len →
  decode_exact (base64_encode ([VERSION; kind] ++ payload)) expected_len kind
  = Ok ([VERSION; kind] ++ payload).
Proof.
  intros Hkind Hpayload Hlength. unfold decode_exact. rewrite base64_roundtrip.
  - cbn [ok_or mbind result_bind app nth]. change (length (VERSION :: kind :: payload))
      with (2 + length payload)%nat. rewrite Hlength, Nat.eqb_refl, !Z.eqb_refl. done.
  - simpl. repeat constructor; unfold VERSION; try done; width.
Qed.

(** A value is accepted as a cursor of one kind only. *)
Lemma decode_exact_kind value len len' kind kind' bytes bytes' :
  decode_exact value len kind = Ok bytes → decode_exact value len' kind' = Ok bytes' →
  kind = kind' ∧ len = len' ∧ bytes = bytes'.
Proof.
  unfold decode_exact. destruct (base64_decode value) as [decoded|]; [|done]. simpl.
  intros (? & H1%reject_if_Ok & [= <-])%bind_Ok_inv (? & H2%reject_if_Ok & [= <-])%bind_Ok_inv.
  rewrite !orb_false_iff, !negb_false_iff, !Z.eqb_eq, !Nat.eqb_eq in H1, H2. naive_solver lia.
Qed.

Lemma check_context_same parts : check_context (cursor_context parts) parts = Ok tt.
Proof. unfold check_context. by rewrite bool_decide_true. Qed.

Hint Resolve cursor_context_u8 to_le_bytes_u8 : u8.
Hint Resolve Forall_app_2 : u8.

Lemma file_cursor_roundtrip scope id filter offset ordinal total filtered value :
  is_u64 offset → is_u64 ordinal → is_u64 total → is_u64 filtered →
  encode_file_cursor (new_file_cursor scope id filter offset ordinal total filtered) = Ok value →
  decode_file_cursor value = Ok (new_file_cursor scope id filter offset ordinal total filtered).
Proof.
  intros Ho Hr Ht Hf <-%(inj Ok). unfold decode_file_cursor, new_file_cursor.
  cbn [file_cursor_context file_offset file_ordinal total_scanned filtered_scanned].
  set (context := cursor_context _).
  assert (length context = 16%nat) by apply cursor_context_length.
  assert (Forall is_u8 context) by apply cursor_context_u8.
  pose proof (length_to_le_bytes 8) as Hle.
  rewrite decode_exact_encoded; [|done|auto 8 with u8|rewrite !length_app, !Hle; lia].
  cbn [mbind result_bind]. do 2 f_equal.
  - read_field.
  - rewrite app_assoc. read_field. by apply u64_le_roundtrip.
  - rewrite 2!app_assoc. read_field. by apply u64_le_roundtrip.
  - rewrite 3!app_assoc. read_field. by apply u64_le_roundtrip.
  - rewrite 4!app_assoc. read_field. by apply u64_le_roundtrip.
Qed.

Lemma ordinal_cursor_roundtrip scope id filter ordinal value :
  is_i64 ordinal →
  encode_ordinal_cursor (new_ordinal_cursor scope id filter ordinal) = Ok value →
  decode_ordinal_cursor value = Ok (new_ordinal_cursor scope id filter ordinal).
Proof.
  intros Ho <-%(inj Ok). unfold decode_ordinal_cursor, new_ordinal_cursor.
  cbn [ordinal_cursor_context cursor_ordinal]. set (context := cursor_context _).
  assert (length context = 16%nat) by apply cursor_context_length.
  assert (Forall is_u8 context) by apply cursor_context_u8.
  rewrite decode_exact_encoded;
    [|done|auto with u8|rewrite !length_app, length_to_le_bytes; lia].
  cbn [mbind result_bind]. do 2 f_equal.
  - read_field.
  - rewrite app_assoc. read_field. by apply i64_le_roundtrip.
Qed.

Lemma timestamp_cursor_roundtrip kind parts timestamp id uuid value :
  is_u8 kind → is_i64 timestamp → uuid_parse_str id = Some uuid →
  encode_timestamp_cursor kind (cursor_context parts) timestamp id = Ok value →
  decode_timestamp_cursor value kind = Ok (cursor_context parts, timestamp, uuid_to_string uuid).
Proof.
  intros Hkind Ht Huuid. unfold encode_timestamp_cursor. rewrite Huuid. intros <-%(inj Ok).
  destruct (uuid_parse_length _ _ Huuid) as [Hlen Hu8].
  unfold decode_timestamp_cursor. set (context := cursor_context _).
  assert (length context = 16%nat) by apply cursor_context_length.
  assert (Forall is_u8 context) by apply cursor_context_u8.
  rewrite decode_exact_encoded;
    [|done|auto with u8|rewrite !length_app, length_to_le_bytes; lia].
  cbn [mbind result_bind].
  assert (byte_range ([VERSION; kind] ++ context ++ to_le_bytes 8 timestamp ++ uuid) 26 42 = uuid) as ->.
  { rewrite 2!app_assoc. read_field. }
  rewrite uuid_slice by done. cbn [ok_or mbind result_bind]. do 3 f_equal.
  - read_field.
  - rewrite app_assoc. read_field. by apply i64_le_roundtrip.
Qed.

(** Two different listings that SHA-256, cut to sixteen bytes, cannot tell
    apart. *)
Definition ContextCollision (parts parts' : list string) : Prop :=
  context_input parts ≠ context_input parts' ∧ cursor_context parts = cursor_context parts'.

Lemma check_context_foreign parts parts' :
  Forall machine_string parts → Forall machine_string parts' →
  check_context (cursor_context parts) parts' = Ok tt → parts = parts' ∨ ContextCollision parts parts'.
Proof.
  unfold check_context. intros Hp Hp' Heq%reject_if_Ok.
  apply negb_false_iff, bool_decide_eq_true in Heq.
  destruct (decide (context_input parts = context_input parts')) as [Hin | Hne].
  - left. by apply context_input_inj.
  - by right.
Qed.

Lemma check_file_cursor scope id filter offset ordinal total filtered parts :
  (Ok (new_file_cursor scope id filter offset ordinal total filtered) ≫= fun cursor =>
     check_context (file_cursor_context cursor) parts ≫= fun _ => Ok cursor) =
  check_context (cursor_context (scoped_parts scope id filter)) parts ≫= fun _ =>
  Ok (new_file_cursor scope id filter offset ordinal total filtered).
Proof. done. Qed.

Lemma check_ordinal_cursor scope id filter ordinal parts :
  (Ok (new_ordinal_cursor scope id filter ordinal) ≫= fun cursor =>
     check_context (ordinal_cursor_context cursor) parts ≫= fun _ => Ok cursor) =
  check_context (cursor_context (scoped_parts scope id filter)) parts ≫= fun _ =>
  Ok (new_ordinal_cursor scope id filter ordinal).
Proof. done. Qed.

(** A cursor issued for a listing is accepted for that listing and gives the
    position back, for each of the four cursor kinds (an invocation or deferred
    cursor gives the identifier back in the canonical text of its UUID). *)
Theorem cursors_roundtrip :
  (∀ scope id filter offset ordinal total filtered,
     is_u64 offset → is_u64 ordinal → is_u64 total → is_u64 filtered →
     (encode_file_cursor (new_file_cursor scope id filter offset ordinal total filtered) ≫=
        fun value => decode_file_cursor_for value scope id filter)
     = Ok (new_file_cursor scope id filter offset ordinal total filtered)) ∧
  (∀ scope id filter ordinal, is_i64 ordinal →
     (encode_ordinal_cursor (new_ordinal_cursor scope id filter ordinal) ≫=
        fun value => decode_ordinal_cursor_for value scope id filter)
     = Ok (new_ordinal_cursor scope id filter ordinal)) ∧
  (∀ workspace state command requested_at_ms id uuid,
     is_i64 requested_at_ms → uuid_parse_str id = Some uuid →
     (encode_invocation_cursor (new_invocation_cursor workspace state command requested_at_ms id) ≫=
        fun value => decode_invocation_cursor_for value workspace state command)
     = Ok (new_invocation_cursor workspace state command requested_at_ms (uuid_to_string uuid))) ∧
  (∀ retrieval created_at_ms id uuid,
     is_i64 created_at_ms → uuid_parse_str id = Some uuid →
     (encode_deferred_cursor (new_deferred_cursor retrieval created_at_ms id) ≫=
        fun value => decode_deferred_cursor_for value retrieval)
     = Ok (new_deferred_cursor retrieval created_at_ms (uuid_to_string uuid))).
Proof.
  split_and!.
  - intros. destruct (encode_file_cursor _) as [value|] eqn:Henc; [|done].
    cbn [mbind result_bind]. unfold decode_file_cursor_for.
    rewrite (file_cursor_roundtrip scope id filter offset ordinal total filtered value) by done.
    by rewrite check_file_cursor, check_context_same.
  - intros. destruct (encode_ordinal_cursor _) as [value|] eqn:Henc; [|done].
    cbn [mbind result_bind]. unfold decode_ordinal_cursor_for.
    rewrite (ordinal_cursor_roundtrip scope id filter ordinal value) by done.
    by rewrite check_ordinal_cursor, check_context_same.
  - intros * Hms Huuid. destruct (encode_invocation_cursor _) as [value|] eqn:Henc.
    + cbn [mbind result_bind]. unfold decode_invocation_cursor_for, decode_invocation_cursor.
      rewrite (timestamp_cursor_roundtrip INVOCATION_KIND _ _ _ _ _ ltac:(done) Hms Huuid Henc).
      cbn [mbind result_bind invocation_cursor_context]. by rewrite check_context_same.
    + unfold encode_invocation_cursor, encode_timestamp_cursor in Henc. simpl in Henc.
      by rewrite Huuid in Henc.
  - intros * Hms Huuid. destruct (encode_deferred_cursor _) as [value|] eqn:Henc.
    + cbn [mbind result_bind]. unfold decode_deferred_cursor_for, decode_deferred_cursor.
      rewrite (timestamp_cursor_roundtrip DEFERRED_KIND _ _ _ _ _ ltac:(done) Hms Huuid Henc).
      cbn [mbind result_bind deferred_cursor_context]. by rewrite check_context_same.
    + unfold encode_deferred_cursor, encode_timestamp_cursor in Henc. simpl in Henc.
      by rewrite Huuid in Henc.
Qed.

Lemma check_context_bind {A} parts parts' (a b : A) :
  Forall machine_string parts → Forall machine_string parts' →
  (check_context (cursor_context parts) parts' ≫= fun _ => Ok a) = Ok b →
  parts = parts' ∨ ContextCollision parts parts'.
Proof. intros ? ? ([] & ? & _)%bind_Ok_inv. by apply check_context_foreign. Qed.

(** No string is a cursor of two kinds. *)
Lemma cursor_kinds_disjoint value :
  (is_ok (decode_file_cursor value) → is_ok (decode_ordinal_cursor value) → False) ∧
  (is_ok (decode_invocation_cursor value) → is_ok (decode_deferred_cursor value) → False).
Proof.
  unfold decode_file_cursor, decode_ordinal_cursor, decode_invocation_cursor, decode_deferred_cursor,
    decode_timestamp_cursor.
  split.
  - destruct (decode_exact value 50 FILE_KIND) eqn:Ha; [|done].
    destruct (decode_exact value 26 ORDINAL_KIND) eqn:Hb; [|done].
    by destruct (decode_exact_kind _ _ _ _ _ _ _ Ha Hb).
  - destruct (decode_exact value 42 INVOCATION_KIND) eqn:Ha; [|done].
    destruct (decode_exact value 42 DEFERRED_KIND) eqn:Hb; [|done].
    by destruct (decode_exact_kind _ _ _ _ _ _ _ Ha Hb).
Qed.

(** A cursor is accepted only where it was issued: if a cursor issued for
    the rows or records of one invocation and filter is accepted for another,
    the two have the same scope, invocation and filter text, unless their
    SHA-256 digests collide on sixteen bytes; likewise for invocation listings
    of another workspace, state or command, and for deferred listings. *)
Theorem cursors_context_bound value :
  (∀ scope id filter scope' id' filter' offset ordinal total filtered cursor,
     Forall machine_string (scoped_parts scope id filter) →
     Forall machine_string (scoped_parts scope' id' filter') →
     is_u64 offset → is_u64 ordinal → is_u64 total → is_u64 filtered →
     encode_file_cursor (new_file_cursor scope id filter offset ordinal total filtered) = Ok value →
     decode_file_cursor_for value scope' id' filter' = Ok cursor →
     scoped_parts scope id filter = scoped_parts scope' id' filter' ∨
     ContextCollision (scoped_parts scope id filter) (scoped_parts scope' id' filter')) ∧
  (∀ scope id filter scope' id' filter' ordinal cursor,
     Forall machine_string (scoped_parts scope id filter) →
     Forall machine_string (scoped_parts scope' id' filter') → is_i64 ordinal →
     encode_ordinal_cursor (new_ordinal_cursor scope id filter ordinal) = Ok value →
     decode_ordinal_cursor_for value scope' id' filter' = Ok cursor →
     scoped_parts scope id filter = scoped_parts scope' id' filter' ∨
     ContextCollision (scoped_parts scope id filter) (scoped_parts scope' id' filter')) ∧
  (∀ w s c w' s' c' requested_at_ms id uuid cursor,
     Forall machine_string (invocation_parts w s c) →
     Forall machine_string (invocation_parts w' s' c') →
     is_i64 requested_at_ms → uuid_parse_str id = Some uuid →
     encode_invocation_cursor (new_invocation_cursor w s c requested_at_ms id) = Ok value →
     decode_invocation_cursor_for value w' s' c' = Ok cursor →
     invocation_parts w s c = invocation_parts w' s' c' ∨
     ContextCollision (invocation_parts w s c) (invocation_parts w' s' c')) ∧
  (∀ r r' created_at_ms id uuid cursor,
     Forall machine_string (deferred_parts r) → Forall machine_string (deferred_parts r') →
     is_i64 created_at_ms → uuid_parse_str id = Some uuid →
     encode_deferred_cursor (new_deferred_cursor r created_at_ms id) = Ok value →
     decode_deferred_cursor_for value r' = Ok cursor →
     deferred_parts r = deferred_parts r' ∨ ContextCollision (deferred_parts r) (deferred_parts r')).
Proof.
  split_and!.
  - intros * Hp Hp' ? ? ? ? Henc. unfold decode_file_cursor_for.
    rewrite (file_cursor_roundtrip scope id filter offset ordinal total filtered value) by done.
    rewrite check_file_cursor. by apply check_context_bind.
  - intros * Hp Hp' ? Henc. unfold decode_ordinal_cursor_for.
    rewrite (ordinal_cursor_roundtrip scope id filter ordinal value) by done.
    rewrite check_ordinal_cursor. by apply check_context_bind.
  - intros * Hp Hp' Hms Huuid Henc. unfold decode_invocation_cursor_for, decode_invocation_cursor.
    rewrite (timestamp_cursor_roundtrip INVOCATION_KIND _ _ _ _ _ ltac:(done) Hms Huuid Henc).
    by apply check_context_bind.
  - intros * Hp Hp' Hms Huuid Henc. unfold decode_deferred_cursor_for, decode_deferred_cursor.
    rewrite (timestamp_cursor_roundtrip DEFERRED_KIND _ _ _ _ _ ltac:(done) Hms Huuid Henc).
    by apply check_context_bind.
Qed.
End laws.

Module CursorExamples.
(** A codec that satisfies the laws: bytes as characters, a digest of the length. *)
#[local] Instance example_codec : CursorCodec := {|
  base64_encode := string_of_bytes;
  base64_decode value := Some (bytes_of value);
  sha256 bytes := to_le_bytes 8 (Z.of_nat (length bytes)) ++ replicate 24 0;
  uuid_parse_str id := if (length (bytes_of id) =? 16)%nat then Some (bytes_of id) else None;
  uuid_from_slice uuid := if (length uuid =? 16)%nat then Some uuid else None;
  uuid_to_string := string_of_bytes |}.

#[local] Instance example_laws : CursorCodecLaws.
Proof.
  split.
  - intros bytes Hbytes. simpl. by rewrite bytes_of_string_of_bytes.
  - intros bytes. simpl. done.
  - intros bytes. cbn [sha256 example_codec]. apply Forall_app_2; [apply to_le_bytes_u8|].
    apply Forall_replicate. width.
  - intros id uuid. simpl. destruct (Nat.eqb_spec (length (bytes_of id)) 16) as [Hlen|]; [|done].
    intros [= <-]. split; [done|apply bytes_of_u8].
  - intros uuid Hlen. simpl. by rewrite Hlen.
Qed.

Lemma cursors_roundtrip_witness :
  (encode_file_cursor (new_file_cursor "query_rows" "id" None 42 7 8 3) ≫=
     fun value => decode_file_cursor_for value "query_rows" "id" None)
  = Ok (new_file_cursor "query_rows" "id" None 42 7 8 3).
Proof. apply cursors_roundtrip; unfold is_u64, u64_max; lia. Defined.

Lemma cursors_context_bound_witness :
  let value := string_of_bytes ([VERSION; ORDINAL_KIND] ++
    cursor_context (scoped_parts "query_rows" "id" None) ++ to_le_bytes 8 5) in
  is_ok (decode_ordinal_cursor_for value "query_rows" "id" (Some "")) = true ∧
  (scoped_parts "query_rows" "id" None = scoped_parts "query_rows" "id" (Some "") ∨
   ContextCollision (scoped_parts "query_rows" "id" None) (scoped_parts "query_rows" "id" (Some ""))).
Proof.
  intros value. split; [vm_compute; reflexivity|].
  apply (proj1 (proj2 (cursors_context_bound value)) "query_rows" "id" None "query_rows" "id" (Some "")
           5 (new_ordinal_cursor "query_rows" "id" None 5)).
  - repeat constructor; unfold machine_string, str_len, u64_max; simpl; lia.
  - repeat constructor; unfold machine_string, str_len, u64_max; simpl; lia.
  - unfold is_i64, i64_min, i64_max. lia.
  - vm_compute. reflexivity.
  - vm_compute. reflexivity.
Defined.
End CursorExamples.
