(* ===== verification/QueryPaging.v ===== *)
(** * Pagination of records and query rows (crates/bazel-mcp-store/src/query_paging.rs)

    Counting the rows of a query-output file, reading its lines through a
    buffered reader with a bounded line length, and paging through the rows (and
    through in-memory records) with cursors; also [page_query_rows_mapped_into]
    of storage.rs, which turns a page request into such a page.

    A buffered reader is the list of what the successive reads of the file will
    return; [None] results stand for panics. *)

From S2P Require Import Prelude Types Record Cursor.
From Stdlib Require Import Ascii.

Definition QUERY_LINE_LIMIT : nat := Z.to_nat (64 * 1024).

Definition LF : Z := 10.
Definition CR : Z := 13.

(** ** Counting rows *)

(** The loop of [count_query_rows]; a read of no bytes is the end of the file. *)
Fixpoint count_rows_loop (reads : list (result StoreError (list Z))) (rows : Z)
    (saw_bytes : bool) (last_byte : Z) : result StoreError Z :=
  let finish := if saw_bytes && negb (last_byte =? LF) then u64_add rows 1 else rows in
  match reads with
  | [] => Ok finish
  | Err error :: _ => Err error
  | Ok buffer :: rest =>
      match last buffer with
      | None => Ok finish
      | Some last_byte =>
          count_rows_loop rest
            (u64_add rows (u64_try_from_or_max (Z.of_nat (length (filter (fun b => b = LF) buffer)))))
            true last_byte
      end
  end.

Definition count_query_rows (reads : list (result StoreError (list Z))) : result StoreError Z :=
  count_rows_loop reads 0 false LF.

(** [count_query_file]; [None] is a file that does not exist. *)
Definition count_query_file (file : option (list (result StoreError (list Z)))) : result StoreError Z :=
  match file with
  | None => Ok 0
  | Some reads => count_query_rows reads
  end.

(** ** Lines *)

(** [iter().position(|byte| byte == LF)]. *)
Fixpoint newline_position (bytes : list Z) : option nat :=
  match bytes with
  | [] => None
  | byte :: rest => if byte =? LF then Some 0%nat else S <$> newline_position rest
  end.

Definition is_cont (byte : Z) : bool := (0x80 <=? byte) && (byte <=? 0xBF).
Definition between (low byte high : Z) : bool := (low <=? byte) && (byte <=? high).

(** The second byte a three- or four-byte sequence may have. *)
Definition second_of_three (first second : Z) : bool :=
  if first =? 0xE0 then between 0xA0 second 0xBF
  else if first =? 0xED then between 0x80 second 0x9F
  else between 0x80 second 0xBF.
Definition second_of_four (first second : Z) : bool :=
  if first =? 0xF0 then between 0x90 second 0xBF
  else if first =? 0xF4 then between 0x80 second 0x8F
  else between 0x80 second 0xBF.

(** U+FFFD. *)
Definition REPLACEMENT_CHARACTER : list Z := [0xEF; 0xBF; 0xBD].

(** [String::from_utf8_lossy]: every maximal prefix of a sequence that cannot be
    continued becomes one replacement character. *)
Fixpoint from_utf8_lossy (bytes : list Z) : list Z :=
  match bytes with
  | [] => []
  | a :: r1 =>
      if a <=? 0x7F then a :: from_utf8_lossy r1
      else if between 0xC2 a 0xDF then
        match r1 with
        | b :: r2 => if is_cont b then a :: b :: from_utf8_lossy r2
                     else REPLACEMENT_CHARACTER ++ from_utf8_lossy r1
        | [] => REPLACEMENT_CHARACTER
        end
      else if between 0xE0 a 0xEF then
        match r1 with
        | b :: r2 =>
            if second_of_three a b then
              match r2 with
              | c :: r3 => if is_cont c then a :: b :: c :: from_utf8_lossy r3
                           else REPLACEMENT_CHARACTER ++ from_utf8_lossy r2
              | [] => REPLACEMENT_CHARACTER
              end
            else REPLACEMENT_CHARACTER ++ from_utf8_lossy r1
        | [] => REPLACEMENT_CHARACTER
        end
      else if between 0xF0 a 0xF4 then
        match r1 with
        | b :: r2 =>
            if second_of_four a b then
              match r2 with
              | c :: r3 =>
                  if is_cont c then
                    match r3 with
                    | d :: r4 => if is_cont d then a :: b :: c :: d :: from_utf8_lossy r4
                                 else REPLACEMENT_CHARACTER ++ from_utf8_lossy r3
                    | [] => REPLACEMENT_CHARACTER
                    end
                  else REPLACEMENT_CHARACTER ++ from_utf8_lossy r2
              | [] => REPLACEMENT_CHARACTER
              end
            else REPLACEMENT_CHARACTER ++ from_utf8_lossy r1
        | [] => REPLACEMENT_CHARACTER
        end
      else REPLACEMENT_CHARACTER ++ from_utf8_lossy r1
  end.

Record BoundedLineReader : Type := MkReader {
  reader : list (result StoreError (list Z));
  offset : Z;
  reader_ordinal : Z;
  limit : nat;
}.

Record BoundedLine : Type := MkLine {
  end_offset : Z;
  line_ordinal : Z;
  line_value : string;
}.

(** The inner loop of [next_line]: the bytes kept, the offset, the reader, and
    whether any byte was seen. *)
Fixpoint next_line_loop (limit : nat) (reader : list (result StoreError (list Z))) (offset : Z)
    (value : list Z) (saw_bytes : bool)
    : result StoreError (list Z * Z * list (result StoreError (list Z)) * bool) :=
  match reader with
  | [] => Ok (value, offset, [], saw_bytes)
  | Err error :: _ => Err error
  | Ok [] :: _ => Ok (value, offset, reader, saw_bytes)
  | Ok available :: rest =>
      match newline_position available with
      | Some position =>
          let consumed := S position in
          let copy := Nat.min position (limit - length value) in
          Ok (value ++ take copy available, u64_add offset (Z.of_nat consumed),
              (if decide (drop consumed available = []) then rest
               else Ok (drop consumed available) :: rest), true)
      | None =>
          let consumed := length available in
          let copy := Nat.min consumed (limit - length value) in
          next_line_loop limit rest (u64_add offset (Z.of_nat consumed))
            (value ++ take copy available) true
      end
  end.

(** [if self.value.last() == Some(&b'\r') { self.value.pop(); }]. *)
Definition pop_cr (value : list Z) : list Z :=
  if decide (last value = Some CR) then removelast value else value.

Definition next_line (self : BoundedLineReader)
    : result StoreError (option BoundedLine * BoundedLineReader) :=
  '(value, offset, rest, saw_bytes) ← next_line_loop (limit self) (reader self) (offset self) [] false;
  if negb saw_bytes then Ok (None, MkReader rest offset (reader_ordinal self) (limit self))
  else
    Ok (Some (MkLine offset (reader_ordinal self) (string_of_bytes (from_utf8_lossy (pop_cr value)))),
        MkReader rest offset (u64_add (reader_ordinal self) 1) (limit self)).

(** ** Matching *)

(** [contains_ignore_ascii_case] on bytes: some window equals the needle. *)
Fixpoint contains_bytes (value needle : list Z) : bool :=
  bool_decide (map lower_byte (take (length needle) value) = map lower_byte needle) ||
  match value with [] => false | _ :: rest => contains_bytes rest needle end.

Definition contains_ignore_ascii_case (value needle : string) : bool :=
  bool_decide (needle = "") || contains_bytes (bytes_of value) (bytes_of needle).

(** [filter.is_none_or(|filter| contains_ignore_ascii_case(..))]. *)
Definition row_matches (filter : option string) (value : string) : bool :=
  match filter with None => true | Some filter => contains_ignore_ascii_case value filter end.

(** ** Pages of query rows *)

Record QueryFilePage : Type := MkQueryFilePage {
  start_offset : Z;
  start_ordinal : Z;
  prior_total : Z;
  prior_filtered : Z;
  page_item_limit : nat;
  page_scan_limit : nat;
  known_total : option Z;
}.

(** The local variables of the page loop. *)
Record PageState : Type := MkPageState {
  total : Z;
  filtered : Z;
  selected : list QueryRow;
  selected_cursors : list string;
  state_truncated : bool;
  scan_exhausted : bool;
  continuation : option (Z * Z * Z * Z);
  scanned : nat;
  transformed : string;
}.

(** What an iteration does next. *)
Inductive PageStep : Type :=
| Break (state : PageState)
| Continue (state : PageState).

Section paging.
Context `{Codec : CursorCodec}.
Variable invocation_id : string.
Variable filter : option string.
Variable request : QueryFilePage.
(** [transform(value, &mut buffer)]: the new contents of the buffer. *)
Variable transform : string → string → string.

Definition row_cursor (position : Z * Z * Z * Z) : result StoreError string :=
  let '(offset, ordinal, total, filtered) := position in
  encode_file_cursor (new_file_cursor "query_rows" invocation_id filter offset ordinal total filtered).

(** The body of the [while] loop for one line. *)
Definition page_line (line : BoundedLine) (s : PageState) : result StoreError PageStep :=
  if (scanned s =? page_scan_limit request)%nat then
    Ok (Break (MkPageState (total s) (filtered s) (selected s) (selected_cursors s) true true
          (continuation s) (scanned s) (transformed s)))
  else if bool_decide (filter = None) && (length (selected s) =? page_item_limit request)%nat then
    match known_total request with
    | Some known =>
        Ok (Break (MkPageState (total s) (filtered s) (selected s) (selected_cursors s)
              (total s <? known) (scan_exhausted s) (continuation s) (scanned s) (transformed s)))
    | None =>
        Ok (Continue (MkPageState (u64_add (total s) 1) (u64_add (filtered s) 1) (selected s)
              (selected_cursors s) true (scan_exhausted s) (continuation s) (S (scanned s))
              (transformed s)))
    end
  else
    let transformed := transform (line_value line) (transformed s) in
    let scanned := S (scanned s) in
    let total := u64_add (total s) 1 in
    if row_matches filter transformed then
      let filtered := u64_add (filtered s) 1 in
      if (length (selected s) =? page_item_limit request)%nat then
        Ok (Continue (MkPageState total filtered (selected s) (selected_cursors s) true
              (scan_exhausted s) (continuation s) scanned transformed))
      else
        let position := (end_offset line, line_ordinal line, total, filtered) in
        item_cursor ← row_cursor position;
        Ok (Continue (MkPageState total filtered
              (selected s ++ [MkQueryRow (line_ordinal line) transformed])
              (selected_cursors s ++ [item_cursor]) (state_truncated s) (scan_exhausted s)
              (Some position) scanned ""))
    else
      Ok (Continue (MkPageState total (filtered s) (selected s) (selected_cursors s)
            (state_truncated s) (scan_exhausted s)
            (if (length (selected s) <? page_item_limit request)%nat
             then Some (end_offset line, line_ordinal line, total, filtered s) else continuation s)
            scanned transformed)).

(** The [while] loop.  Every line consumes at least one byte, so one more round
    than there are bytes and reads left is enough fuel. *)
Fixpoint page_loop (fuel : nat) (lines : BoundedLineReader) (s : PageState)
    : option (result StoreError PageState) :=
  match fuel with
  | O => None
  | S fuel =>
      match next_line lines with
      | Err error => Some (Err error)
      | Ok (None, _) => Some (Ok s)
      | Ok (Some line, lines) =>
          match page_line line s with
          | Err error => Some (Err error)
          | Ok (Break s) => Some (Ok s)
          | Ok (Continue s) => page_loop fuel lines s
          end
      end
  end.

Definition reads_fuel (reads : list (result StoreError (list Z))) : nat :=
  S (length reads + length (concat (omap ok_option reads))).

Definition final_total_count (s : PageState) : option Z :=
  match known_total request with
  | Some known => Some (Z.max known (total s))
  | None => if scan_exhausted s then None else Some (total s)
  end.

Definition final_filtered_count (s : PageState) : option Z :=
  if decide (filter = None) then final_total_count s
  else if scan_exhausted s then None else Some (filtered s).

(** The page that the final state of the loop describes. *)
Definition finish_page (s : PageState) : result StoreError (Page QueryRow) :=
  next_cursor ←
    (if state_truncated s then
       match continuation s with
       | Some position => cursor ← row_cursor position; Ok (Some cursor)
       | None => Ok None
       end
     else Ok None);
  Ok (MkPage (selected s) (final_total_count s) (final_filtered_count s) next_cursor
        (state_truncated s) (selected_cursors s)).

Definition initial_state : PageState :=
  MkPageState (prior_total request) (prior_filtered request) [] [] false false None 0 "".

(** [page_query_file_from_cursor]; [reads] is what reading the file returns from
    [start_offset] on. *)
Definition page_query_file_from_cursor (reads : list (result StoreError (list Z)))
    : option (result StoreError (Page QueryRow)) :=
  let lines := MkReader reads (start_offset request) (start_ordinal request) QUERY_LINE_LIMIT in
  outcome ← page_loop (reads_fuel reads) lines initial_state;
  Some (s ← outcome; finish_page s).
End paging.

(** [page_query_file]; [None] is a file that does not exist. *)
Definition page_query_file `{CursorCodec} (file : option (Z → list (result StoreError (list Z))))
    (invocation_id : string) (filter : option string) (request : QueryFilePage)
    (transform : string → string → string) : option (result StoreError (Page QueryRow)) :=
  match file with
  | None => Some (Ok (MkPage [] (Some 0) (Some 0) None false []))
  | Some read_from =>
      page_query_file_from_cursor invocation_id filter request transform (read_from (start_offset request))
  end.

(** [item_limit.clamp(1, 100)] and [scan_limit.clamp(item_limit.max(1), 10_000)]:
    the second panics when the requested item limit exceeds 10,000. *)
Definition page_limits (page : PageRequest) : option (nat * nat) :=
  item_limit ← clamp (item_limit page) 1 100;
  scan_limit ← clamp (scan_limit page) (Z.max (Types.item_limit page) 1) 10000;
  Some (Z.to_nat item_limit, Z.to_nat scan_limit).

(** [Store::page_query_rows_mapped_into] once the invocation was found:
    [record_state] and [result_count] are the indexed state and query count. *)
Definition page_query_rows_mapped_into `{CursorCodec}
    (file : option (Z → list (result StoreError (list Z)))) (invocation_id : string)
    (record_state : InvocationState) (result_count : option Z)
    (filter : option string) (page : PageRequest) (transform : string → string → string)
    : option (result StoreError (Page QueryRow)) :=
  let known_total := if bool_decide (filter = None) && is_terminal record_state
                     then result_count else None in
  match match cursor page with
        | None => Ok None
        | Some value => Some <$> decode_file_cursor_for value "query_rows" invocation_id filter
        end with
  | Err error => Some (Err error)
  | Ok cursor =>
      let from {A} (d : A) (f : FileCursor → A) := match cursor with Some c => f c | None => d end in
      '(item_limit, scan_limit) ← page_limits page;
      page_query_file file invocation_id filter
        (MkQueryFilePage (from 0 file_offset) (from 0 (fun c => u64_add (file_ordinal c) 1))
           (from 0 total_scanned) (from 0 filtered_scanned) item_limit scan_limit known_total)
        transform
  end.

(** ** Pages of records *)

Record RecordsState (T : Type) : Type := MkRecordsState {
  records_filtered : Z;
  records_selected : list T;
  records_cursors : list string;
  last_scanned : option Z;
  records_scanned : nat;
  records_truncated : bool;
}.
Arguments MkRecordsState {T} _ _ _ _ _ _.
Arguments records_filtered {T} _.
Arguments records_selected {T} _.
Arguments records_cursors {T} _.
Arguments last_scanned {T} _.
Arguments records_scanned {T} _.
Arguments records_truncated {T} _.

Section records.
Context `{Codec : CursorCodec} {T : Type}.
Variable scope : string.
Variable invocation_id : string.
Variable filter : option string.
Variable searchable : T → string.

(** [normalized_filter.is_none_or(..)]: the lower-case text contains the
    lower-case filter. *)
Definition record_matches (record : T) : bool :=
  match filter with
  | None => true
  | Some filter => contains_ignore_ascii_case (searchable record) filter
  end.

Definition record_cursor (ordinal : Z) : result StoreError string :=
  encode_ordinal_cursor (new_ordinal_cursor scope invocation_id filter ordinal).

(** The loop of [page_records] over the enumerated records. *)
Fixpoint records_loop (item_limit scan_limit : nat) (after : Z) (ordinal : Z) (records : list T)
    (s : RecordsState T) : result StoreError (RecordsState T) :=
  match records with
  | [] => Ok s
  | record :: rest =>
      let next := records_loop item_limit scan_limit after (ordinal + 1) rest in
      let bounded := i64_try_from_or_max ordinal in
      if bounded <=? after then next s
      else if (records_scanned s =? scan_limit)%nat then
        Ok (MkRecordsState (records_filtered s) (records_selected s) (records_cursors s)
              (last_scanned s) (records_scanned s) true)
      else
        let matches := record_matches record in
        let filtered := u64_add (records_filtered s) (if matches then 1 else 0) in
        if matches && (length (records_selected s) =? item_limit)%nat then
          Ok (MkRecordsState filtered (records_selected s) (records_cursors s) (last_scanned s)
                (records_scanned s) true)
        else if matches then
          cursor ← record_cursor bounded;
          next (MkRecordsState filtered (records_selected s ++ [record]) (records_cursors s ++ [cursor])
                  (Some bounded) (S (records_scanned s)) (records_truncated s))
        else
          next (MkRecordsState filtered (records_selected s) (records_cursors s) (Some bounded)
                  (S (records_scanned s)) (records_truncated s))
  end.

Definition page_records (page : PageRequest) (records : list T)
    : option (result StoreError (Page T)) :=
  '(item_limit, scan_limit) ← page_limits page;
  Some (
    after ← match cursor page with
            | None => Ok (-1)
            | Some value => cursor_ordinal <$> decode_ordinal_cursor_for value scope invocation_id filter
            end;
    s ← records_loop item_limit scan_limit after 0 records (MkRecordsState 0 [] [] None 0 false);
    next_cursor ←
      (if records_truncated s then
         match last_scanned s with
         | Some ordinal => cursor ← record_cursor ordinal; Ok (Some cursor)
         | None => Ok None
         end
       else Ok None);
    let total := Z.of_nat (length records) in
    Ok (MkPage (records_selected s) (Some total)
          (if decide (filter = None) then Some total
           else if (after <? 0) && negb (records_truncated s) then Some (records_filtered s) else None)
          next_cursor (records_truncated s) (records_cursors s))).
End records.

Lemma page_limits_positive page n scans :
  page_limits page = Some (n, scans) → (0 < n ∧ 0 < scans)%nat.
Proof.
  unfold page_limits, clamp. simpl. destruct (_ <=? 10000); simpl; [|done]. intros [= <- <-]. lia.
Qed.

(** ** Reference: the lines of a file *)

(** The lines of some bytes, each with its line feed if it has one. *)
Fixpoint raw_lines (bytes : list Z) : list (list Z) :=
  match bytes with
  | [] => []
  | byte :: rest =>
      if byte =? LF then [byte] :: raw_lines rest
      else match raw_lines rest with
           | [] => [[byte]]
           | line :: lines => (byte :: line) :: lines
           end
  end.

(** The text a row has: its line feed and a final carriage return dropped,
    bounded, and decoded. *)
Definition without_lf (line : list Z) : list Z :=
  if decide (last line = Some LF) then removelast line else line.
Definition line_text (limit : nat) (line : list Z) : string :=
  string_of_bytes (from_utf8_lossy (pop_cr (take limit (without_lf line)))).

(** The lines as the reader numbers them, from an offset and an ordinal. *)
Fixpoint number_lines (limit : nat) (offset ordinal : Z) (lines : list (list Z)) : list BoundedLine :=
  match lines with
  | [] => []
  | line :: rest =>
      MkLine (offset + Z.of_nat (length line)) ordinal (line_text limit line) ::
      number_lines limit (offset + Z.of_nat (length line)) (ordinal + 1) rest
  end.

(** ** Counting rows *)

Lemma raw_lines_concat bytes : concat (raw_lines bytes) = bytes.
Proof.
  induction bytes as [|byte rest IH]; simpl; [done|]. case_match; simpl; [by rewrite IH|].
  destruct (raw_lines rest); simpl in *; by rewrite <- IH.
Qed.

Lemma raw_lines_nil bytes : raw_lines bytes = [] ↔ bytes = [].
Proof.
  split; [|by intros ->]. intros Hnil. rewrite <- (raw_lines_concat bytes). by rewrite Hnil.
Qed.

Definition count_lf (bytes : list Z) : Z := Z.of_nat (length (filter (fun b => b = LF) bytes)).

Definition open_line (bytes : list Z) : Z :=
  match last bytes with Some byte => if byte =? LF then 0 else 1 | None => 0 end.

Lemma raw_lines_length bytes : Z.of_nat (length (raw_lines bytes)) = count_lf bytes + open_line bytes.
Proof.
  unfold count_lf, open_line. induction bytes as [|byte rest IH]; [done|]. cbn [raw_lines].
  rewrite filter_cons. destruct (Z.eqb_spec byte LF) as [-> | Hne].
  - rewrite decide_True by done. destruct rest as [|b rest]; [done|].
    rewrite last_cons_cons. simpl length in *. lia.
  - rewrite decide_False by done. destruct rest as [|b rest].
    + simpl. destruct (Z.eqb_spec byte LF); done.
    + rewrite last_cons_cons.
      destruct (raw_lines (b :: rest)) eqn:Hlines; [by apply raw_lines_nil in Hlines|]. simpl length in *. lia.
Qed.

Lemma count_rows_loop_spec chunks seen rows :
  Forall (fun chunk => chunk ≠ []) chunks →
  rows = count_lf seen → Z.of_nat (length (seen ++ concat chunks)) < u64_max →
  count_rows_loop (map Ok chunks) rows (bool_decide (seen ≠ [])) (default LF (last seen))
  = Ok (Z.of_nat (length (raw_lines (seen ++ concat chunks)))).
Proof.
  intros Hchunks. revert seen rows.
  induction Hchunks as [|chunk chunks Hchunk Hchunks IH]; intros seen rows -> Hbound; cbn [map count_rows_loop].
  - simpl. rewrite app_nil_r in *. rewrite raw_lines_length.
    pose proof (length_filter (fun b => b = LF) seen).
    unfold open_line. destruct (last seen) as [byte|] eqn:Hlast; simpl.
    + assert (seen ≠ []) by (by intros ->). rewrite bool_decide_true by done. simpl.
      unfold count_lf. destruct (byte =? LF); simpl; f_equal; [lia|].
      rewrite u64_add_exact by (unfold count_lf; lia). done.
    + rewrite andb_false_r. f_equal. lia.
  - destruct (last chunk) as [byte|] eqn:Hlast; [|by apply last_None in Hlast].
    assert (Hlast' : default LF (last (seen ++ chunk)) = byte).
    { by rewrite last_app, Hlast. }
    rewrite <- Hlast'. replace true with (bool_decide (seen ++ chunk ≠ [])).
    2: { apply bool_decide_true. intros [_ ?]%app_eq_nil. done. }
    simpl concat. rewrite app_assoc. apply IH.
    + unfold count_lf. rewrite filter_app, length_app. pose proof (length_filter (fun b => b = LF) chunk).
      pose proof (length_filter (fun b => b = LF) seen).
      simpl concat in Hbound. rewrite !length_app in Hbound.
      unfold u64_try_from_or_max. rewrite decide_True by lia. rewrite u64_add_exact by lia. lia.
    + simpl concat in Hbound. by rewrite <- app_assoc.
Qed.

(** The number of rows counted in a query-output file is the number of its
    lines, a last line without a line feed included, however the reads of the
    file happen to be split. *)
Theorem count_query_rows_spec chunks (Hchunks : Forall (fun chunk => chunk ≠ []) chunks)
    (Hsize : Z.of_nat (length (concat chunks)) < u64_max) :
  count_query_rows (map Ok chunks) = Ok (Z.of_nat (length (raw_lines (concat chunks)))).
Proof. by apply (count_rows_loop_spec chunks []). Qed.

(** ** Reading lines *)

Lemma newline_position_None bytes : newline_position bytes = None → raw_lines bytes = [] ∨ raw_lines bytes = [bytes].
Proof.
  induction bytes as [|byte rest IH]; [auto|]. simpl. destruct (byte =? LF); [done|].
  destruct (newline_position rest); [done|]. intros _. right.
  destruct IH as [Hrest | ->]; [done| |done]. rewrite Hrest. by apply raw_lines_nil in Hrest as ->.
Qed.

(** A line without line feed continues in what follows it. *)
Lemma raw_lines_open bytes more :
  newline_position bytes = None → bytes ≠ [] →
  raw_lines (bytes ++ more) =
  match raw_lines more with [] => [bytes] | line :: lines => (bytes ++ line) :: lines end.
Proof.
  induction bytes as [|byte rest IH]; [done|]. simpl. destruct (byte =? LF); [done|].
  destruct (newline_position rest) eqn:Hpos; [done|]. intros _ _.
  destruct rest as [|b rest]; [simpl; by destruct (raw_lines more)|].
  rewrite IH by done. by destruct (raw_lines more).
Qed.

Lemma newline_position_Some bytes position :
  newline_position bytes = Some position →
  (position < length bytes)%nat ∧
  bytes = take position bytes ++ LF :: drop (S position) bytes ∧
  ∀ more, raw_lines (bytes ++ more) =
          (take position bytes ++ [LF]) :: raw_lines (drop (S position) bytes ++ more).
Proof.
  revert position. induction bytes as [|byte rest IH]; intros position; [done|]. simpl.
  destruct (Z.eqb_spec byte LF) as [-> | Hne]; [intros [= <-]; split; [lia|done]|].
  destruct (newline_position rest) as [p|]; [|done]. intros [= <-].
  destruct (IH p eq_refl) as (Hlt & Hsplit & Hlines). split_and!; [lia|simpl; by f_equal|].
  intros more. by rewrite Hlines.
Qed.

(** The reads of a reader that meets no error and has [data] left. *)
Definition Reads (reads : list (result StoreError (list Z))) (data : list Z) : Prop :=
  ∃ chunks, reads = map Ok chunks ∧ Forall (fun chunk => chunk ≠ []) chunks ∧ concat chunks = data.

Lemma Reads_nil reads : Reads reads [] → reads = [].
Proof.
  intros (chunks & -> & Hchunks & Hconcat). destruct Hchunks as [|chunk chunks Hchunk]; [done|].
  simpl in Hconcat. by apply app_eq_nil in Hconcat as [-> _].
Qed.

(** Keeping at most [limit] bytes chunk by chunk keeps [limit] bytes of all. *)
Lemma take_extend limit (prefix available : list Z) n :
  (n ≤ length available)%nat →
  take limit prefix ++ take (Nat.min n (limit - length (take limit prefix))) available
  = take limit (prefix ++ take n available).
Proof.
  intros Hn. rewrite take_app. f_equal. rewrite take_take, Nat.min_comm. f_equal.
  rewrite length_take. lia.
Qed.

Lemma without_lf_snoc line : without_lf (line ++ [LF]) = line.
Proof. unfold without_lf. rewrite last_snoc, decide_True by done. apply removelast_last. Qed.

Lemma without_lf_open line : newline_position line = None → without_lf line = line.
Proof.
  intros Hpos. unfold without_lf. rewrite decide_False; [done|]. intros Hlast.
  apply last_Some in Hlast as [line' ->].
  induction line' as [|byte line' IH]; simpl in Hpos; [done|].
  destruct (byte =? LF); [done|]. destruct (newline_position _); [done|]. auto.
Qed.

Lemma newline_position_app a b :
  newline_position a = None → newline_position b = None → newline_position (a ++ b) = None.
Proof.
  induction a as [|byte a IH]; simpl; [done|]. destruct (byte =? LF); [done|].
  destruct (newline_position a); [done|]. intros _ Hb. by rewrite IH.
Qed.

(** The inner loop of the reader, having kept [take limit prefix] of the bytes
    [prefix] of the current line. *)
Lemma next_line_loop_spec limit chunks prefix offset line lines :
  Forall (fun chunk => chunk ≠ []) chunks → newline_position prefix = None →
  0 ≤ offset → offset + Z.of_nat (length (concat chunks)) ≤ u64_max →
  raw_lines (prefix ++ concat chunks) = line :: lines →
  ∃ chunks',
    next_line_loop limit (map Ok chunks) offset (take limit prefix) (bool_decide (prefix ≠ []))
    = Ok (take limit (without_lf line), offset + Z.of_nat (length line) - Z.of_nat (length prefix),
          map Ok chunks', true) ∧
    Forall (fun chunk => chunk ≠ []) chunks' ∧ raw_lines (concat chunks') = lines ∧
    prefix ++ concat chunks = line ++ concat chunks' ∧ (length chunks' ≤ length chunks)%nat.
Proof.
  intros Hchunks. revert prefix offset.
  induction Hchunks as [|chunk chunks Hchunk Hchunks IH];
    intros prefix offset Hprefix Hoffset Hbound Hlines.
  - simpl in *. rewrite app_nil_r in Hlines. exists [].
    destruct (newline_position_None _ Hprefix) as [Hnil | Hone]; [congruence|].
    rewrite Hone in Hlines. injection Hlines as <- <-. rewrite without_lf_open by done.
    assert (prefix ≠ []) by (by intros ->). rewrite bool_decide_true by done.
    split_and!; try done. by rewrite Z.add_simpl_r.
  - cbn [map next_line_loop concat] in *. rewrite length_app in Hbound.
    destruct chunk as [|byte chunk']; [done|]. set (chunk := byte :: chunk') in *.
    destruct (newline_position chunk) as [position|] eqn:Hpos.
    + clear IH. destruct (newline_position_Some chunk position Hpos) as (Hlt & Hsplit & Hraw).
      set (rest := drop (S position) chunk) in *.
      assert (line = (prefix ++ take position chunk) ++ [LF] ∧ lines = raw_lines (rest ++ concat chunks))
        as [-> ->].
      { destruct (decide (prefix = [])) as [-> | Hne].
        - rewrite app_nil_l, Hraw in Hlines. by injection Hlines as <- <-.
        - rewrite raw_lines_open, Hraw in Hlines by done. injection Hlines as <- <-. by rewrite app_assoc. }
      exists (if decide (rest = []) then chunks else rest :: chunks).
      assert (Hcat : concat (if decide (rest = []) then chunks else rest :: chunks) = rest ++ concat chunks)
        by (case_decide as Hd; [by rewrite Hd|done]).
      rewrite Hcat, without_lf_snoc, take_extend by lia. rewrite u64_add_exact by lia. split_and!.
      * rewrite !length_app, length_take_le by lia. simpl length.
        replace (offset + Z.of_nat (length prefix + position + 1) - Z.of_nat (length prefix))
          with (offset + Z.of_nat (S position)) by lia.
        by case_decide.
      * case_decide; [done|]. by constructor.
      * done.
      * rewrite Hsplit at 1. by rewrite <- !app_assoc.
      * case_decide; simpl; lia.
    + rewrite take_extend, (take_ge chunk) by lia. rewrite u64_add_exact by lia.
      assert (Hne : prefix ++ chunk ≠ []) by (by intros [_ ?]%app_eq_nil).
      destruct (IH (prefix ++ chunk) (offset + Z.of_nat (length chunk)))
        as (chunks' & Hloop & Hne' & Hrest & Hcat & Hlen);
        [by apply newline_position_app|lia|lia|by rewrite <- app_assoc|].
      exists chunks'. rewrite (bool_decide_true _ Hne) in Hloop. rewrite Hloop. split_and!; try done.
      * rewrite length_app. do 4 f_equal. lia.
      * by rewrite app_assoc.
      * simpl. lia.
Qed.

(** Reading one line. *)
Lemma next_line_nil offset ordinal limit :
  next_line (MkReader [] offset ordinal limit) = Ok (None, MkReader [] offset ordinal limit).
Proof. done. Qed.

Lemma next_line_spec reads data offset ordinal limit line lines :
  Reads reads data → 0 ≤ offset → offset + Z.of_nat (length data) ≤ u64_max →
  0 ≤ ordinal < u64_max → raw_lines data = line :: lines →
  ∃ reads' data',
    next_line (MkReader reads offset ordinal limit)
    = Ok (Some (MkLine (offset + Z.of_nat (length line)) ordinal (line_text limit line)),
          MkReader reads' (offset + Z.of_nat (length line)) (ordinal + 1) limit) ∧
    Reads reads' data' ∧ raw_lines data' = lines ∧ data = line ++ data' ∧
    (length reads' ≤ length reads)%nat.
Proof.
  intros (chunks & -> & Hchunks & <-) Hoffset Hbound Hordinal Hlines.
  destruct (next_line_loop_spec limit chunks [] offset line lines)
    as (chunks' & Hloop & Hne & Hrest & Hcat & Hlen); try done.
  exists (map Ok chunks'), (concat chunks'). split_and!; try done.
  - unfold next_line. cbn [QueryPaging.limit reader QueryPaging.offset reader_ordinal].
    rewrite take_nil in Hloop. simpl bool_decide in Hloop. rewrite Hloop.
    cbn [mbind result_bind negb]. rewrite u64_add_exact by lia.
    simpl length. rewrite Z.sub_0_r. done.
  - by exists chunks'.
  - by rewrite !length_map.
Qed.

Lemma raw_lines_nonempty bytes line : line ∈ raw_lines bytes → line ≠ [].
Proof.
  induction bytes as [|byte rest IH]; simpl; [by intros ?%elem_of_nil|].
  case_match; [set_solver|]. destruct (raw_lines rest); set_solver.
Qed.

Lemma raw_lines_length_le bytes : (length (raw_lines bytes) ≤ length bytes)%nat.
Proof.
  rewrite <- (raw_lines_concat bytes) at 2. pose proof (raw_lines_nonempty bytes) as Hne.
  induction (raw_lines bytes) as [|line lines IH]; simpl; [done|].
  rewrite length_app. destruct line; [by destruct (Hne [] ltac:(set_solver))|].
  assert (length lines ≤ length (concat lines))%nat by (apply IH; intros; apply Hne; set_solver).
  simpl. lia.
Qed.

Lemma reads_fuel_enough reads data : Reads reads data → (length (raw_lines data) < reads_fuel reads)%nat.
Proof.
  intros (chunks & -> & _ & <-). unfold reads_fuel. pose proof (raw_lines_length_le (concat chunks)).
  replace (omap ok_option (map Ok chunks)) with chunks; [lia|].
  clear. induction chunks as [|chunk chunks IH]; [done|]. cbn. by f_equal.
Qed.

(** ** One page *)

Section one_page.
Context `{Codec : CursorCodec}.
Variable invocation_id : string.
Variable filter : option string.
Variable request : QueryFilePage.
Variable transform : string → string → string.

(** The page loop over lines already read. *)
Fixpoint page_lines (lines : list BoundedLine) (s : PageState) : result StoreError PageState :=
  match lines with
  | [] => Ok s
  | line :: rest =>
      match page_line invocation_id filter request transform line s with
      | Err error => Err error
      | Ok (Break s) => Ok s
      | Ok (Continue s) => page_lines rest s
      end
  end.

Lemma number_lines_cons limit offset ordinal line lines :
  number_lines limit offset ordinal (line :: lines) =
  MkLine (offset + Z.of_nat (length line)) ordinal (line_text limit line) ::
  number_lines limit (offset + Z.of_nat (length line)) (ordinal + 1) lines.
Proof. done. Qed.

(** The loop returns, and does what it does on the lines of the data. *)
Lemma page_loop_lines fuel reads data offset ordinal limit lines s :
  Reads reads data → raw_lines data = lines → 0 ≤ offset → offset + Z.of_nat (length data) ≤ u64_max →
  0 ≤ ordinal → ordinal + Z.of_nat (length lines) ≤ u64_max → (length lines < fuel)%nat →
  page_loop invocation_id filter request transform fuel (MkReader reads offset ordinal limit) s
  = Some (page_lines (number_lines limit offset ordinal lines) s).
Proof.
  revert reads data offset ordinal lines s. induction fuel as [|fuel IH]; [lia|].
  intros reads data offset ordinal lines s Hreads Hlines Hoffset Hbound Hordinal Hord Hfuel.
  cbn [page_loop]. destruct lines as [|line lines].
  - apply raw_lines_nil in Hlines as ->. by rewrite (Reads_nil _ Hreads).
  - simpl length in Hord, Hfuel.
    destruct (next_line_spec reads data offset ordinal limit line lines)
      as (reads' & data' & -> & Hreads' & Hlines' & -> & _); try done; [lia|].
    rewrite number_lines_cons. cbn [page_lines].
    destruct (page_line _ _ _ _ _ _) as [[s'|s']|error]; try done.
    rewrite length_app in Hbound. eapply IH; try done; lia.
Qed.

Hypothesis Hitems : (0 < page_item_limit request)%nat.
Hypothesis Hscan : (0 < page_scan_limit request)%nat.
(** The text the transformation gives a row does not depend on the buffer. *)
Variable text : string → string.
Hypothesis Htransform : ∀ value buffer, transform value buffer = text value.

Definition line_matches (line : BoundedLine) : bool := row_matches filter (text (line_value line)).
Definition row_of (line : BoundedLine) : QueryRow := MkQueryRow (line_ordinal line) (text (line_value line)).
Definition matching (lines : list BoundedLine) : list BoundedLine :=
  base.filter (fun line => line_matches line = true) lines.

Lemma matching_cons line lines :
  matching (line :: lines) = if line_matches line then line :: matching lines else matching lines.
Proof.
  unfold matching. rewrite filter_cons. destruct (line_matches line); [by rewrite decide_True|].
  by rewrite decide_False.
Qed.

Lemma matching_app lines lines' : matching (lines ++ lines') = matching lines ++ matching lines'.
Proof. apply filter_app. Qed.

Lemma unfiltered_matching lines : filter = None → matching lines = lines.
Proof.
  intros Hfilter. induction lines as [|line lines IH]; [done|].
  rewrite matching_cons, IH. unfold line_matches, row_matches. by rewrite Hfilter.
Qed.

(** The position after some lines of a page that began at [total], [filtered]. *)
Definition position_after (total filtered : Z) (lines : list BoundedLine) : option (Z * Z * Z * Z) :=
  line ← last lines;
  Some (end_offset line, line_ordinal line, total + Z.of_nat (length lines),
        filtered + Z.of_nat (length (matching lines))).

(** The counts a page state reports are exact, or withheld. *)
Definition CountsExact (s s' : PageState) (lines : list BoundedLine) : Prop :=
  total s' ≤ total s + Z.of_nat (length lines) ∧
  (scan_exhausted s' = false → known_total request = None →
   total s' = total s + Z.of_nat (length lines) ∧
   filtered s' = filtered s + Z.of_nat (length (matching lines))) ∧
  (scan_exhausted s' = false → filter ≠ None →
   filtered s' = filtered s + Z.of_nat (length (matching lines))).

Lemma CountsExact_cons s s1 s' line lines :
  CountsExact s1 s' lines → total s1 = total s + 1 →
  filtered s1 = filtered s + (if line_matches line then 1 else 0) → CountsExact s s' (line :: lines).
Proof.
  intros (Hle & Hexact & Hfexact) Ht1 Hf1. unfold CountsExact. rewrite matching_cons. simpl length.
  assert (Z.of_nat (length (if line_matches line then line :: matching lines else matching lines)) =
          (if line_matches line then 1 else 0) + Z.of_nat (length (matching lines))) as ->.
  { destruct (line_matches line); simpl length; lia. }
  split_and!; [lia|intros Hex Hkt; specialize (Hexact Hex Hkt)|intros Hex Hfl; specialize (Hfexact Hex Hfl)];
    lia.
Qed.

(** The outcome of the loop on the lines after a full page. *)
Definition FullPage (s : PageState) (lines : list BoundedLine) (outcome : result StoreError PageState)
    : Prop :=
  ∃ s', outcome = Ok s' ∧
    selected s' = selected s ∧ selected_cursors s' = selected_cursors s ∧
    continuation s' = continuation s ∧ CountsExact s s' lines ∧
    (state_truncated s = true → state_truncated s' = true) ∧
    (state_truncated s' = false → matching lines = []).

(** One counted line before the rest of a full page. *)
Lemma full_step s s1 line lines outcome :
  FullPage s1 lines outcome →
  selected s1 = selected s → selected_cursors s1 = selected_cursors s →
  continuation s1 = continuation s → total s1 = total s + 1 →
  filtered s1 = filtered s + (if line_matches line then 1 else 0) →
  (state_truncated s = true → state_truncated s1 = true) →
  (state_truncated s1 = false → line_matches line = false) →
  FullPage s (line :: lines) outcome.
Proof.
  intros (s' & -> & Hsel & Hcur & Hcont & Hcounts & Htr & Hno) Hsel1 Hcur1 Hcont1 Ht1 Hf1 Htr1 Hm.
  exists s'. split_and!; try congruence; auto; [by eapply CountsExact_cons|].
  rewrite matching_cons. intros Hs'. destruct (line_matches line); [|auto]. exfalso.
  destruct (state_truncated s1); [rewrite Htr in Hs' by done|]; naive_solver.
Qed.

(** When the page is full, the remaining lines are only counted. *)
Lemma page_lines_full lines s :
  length (selected s) = page_item_limit request → scan_exhausted s = false →
  0 ≤ total s → 0 ≤ filtered s → total s + Z.of_nat (length lines) ≤ u64_max →
  filtered s + Z.of_nat (length lines) ≤ u64_max →
  (∀ known, known_total request = Some known → total s + Z.of_nat (length lines) ≤ known) →
  FullPage s lines (page_lines lines s).
Proof.
  revert s. induction lines as [|line lines IH]; intros s Hfull Hex Ht Hf Htb Hfb Hknown.
  { exists s. unfold CountsExact. simpl. rewrite !Z.add_0_r. split_and!; done. }
  simpl length in *. cbn [page_lines]. unfold page_line. rewrite Hfull, Nat.eqb_refl, andb_true_r, Nat.ltb_irrefl.
  destruct (scanned s =? page_scan_limit request)%nat.
  { eexists. split; [done|]. unfold CountsExact. simpl. split_and!; try done; lia. }
  destruct (bool_decide (filter = None)) eqn:Hfilter.
  - apply bool_decide_eq_true in Hfilter. destruct (known_total request) as [known|] eqn:Hkt.
    + eexists. split; [done|]. specialize (Hknown known eq_refl).
      unfold CountsExact. simpl. split_and!; try done; try lia; congruence.
    + rewrite !u64_add_exact by lia. eapply full_step; [apply IH; simpl; try done; lia|..]; simpl; try done.
      unfold line_matches, row_matches. by rewrite Hfilter.
  - rewrite Htransform. change (row_matches filter _) with (line_matches line).
    destruct (line_matches line) eqn:Hm; rewrite !u64_add_exact by lia;
      (eapply full_step; [apply IH; simpl; try done; try lia|..]; simpl; rewrite ?Hm; try done; try lia);
      intros known Hk; specialize (Hknown known Hk); lia.
Qed.

(** The state after [seen] lines of a page that is not full yet. *)
Record OpenPage (t0 f0 : Z) (seen : list BoundedLine) (s : PageState) : Prop := {
  open_total : total s = t0 + Z.of_nat (length seen);
  open_filtered : filtered s = f0 + Z.of_nat (length (matching seen));
  open_selected : selected s = map row_of (matching seen);
  open_truncated : state_truncated s = false;
  open_exhausted : scan_exhausted s = false;
  open_continuation : continuation s = position_after t0 f0 seen;
  open_scanned : scanned s = length seen;
}.

Lemma matching_length_snoc seen line :
  length (matching (seen ++ [line])) = (length (matching seen) + if line_matches line then 1 else 0)%nat.
Proof. rewrite matching_app, matching_cons, length_app. by destruct (line_matches line). Qed.

Lemma position_after_snoc t0 f0 seen line :
  position_after t0 f0 (seen ++ [line]) =
  Some (end_offset line, line_ordinal line, t0 + Z.of_nat (length seen) + 1,
        f0 + Z.of_nat (length (matching seen)) + (if line_matches line then 1 else 0)).
Proof.
  unfold position_after. rewrite last_snoc, matching_length_snoc, length_app. cbn [mbind option_bind].
  simpl length. f_equal. repeat apply (f_equal2 pair); try done; [lia|].
  destruct (line_matches line); lia.
Qed.

(** One more line of a page that is not full. *)
Lemma page_line_open t0 f0 seen s line :
  OpenPage t0 f0 seen s → 0 ≤ t0 → 0 ≤ f0 →
  t0 + Z.of_nat (length seen) < u64_max → f0 + Z.of_nat (length seen) < u64_max →
  (length (selected s) < page_item_limit request)%nat → (scanned s ≠ page_scan_limit request)%nat →
  ∃ s1, page_line invocation_id filter request transform line s = Ok (Continue s1) ∧
        OpenPage t0 f0 (seen ++ [line]) s1.
Proof.
  intros [Htotal Hfiltered Hselected Htr Hex Hcont Hsc] Ht0 Hf0 Ht Hf Hroom Hbudget.
  assert (length (matching seen) ≤ length seen)%nat by apply length_filter.
  unfold page_line. rewrite (proj2 (Nat.eqb_neq _ _) Hbudget).
  rewrite (proj2 (Nat.eqb_neq (length _) _)), andb_false_r by lia.
  rewrite Htransform. change (row_matches filter _) with (line_matches line).
  rewrite (proj2 (Nat.ltb_lt _ _) Hroom), !u64_add_exact by lia.
  assert (Hmatch : matching (seen ++ [line]) = matching seen ++ (if line_matches line then [line] else [])).
  { rewrite matching_app, matching_cons. by destruct (line_matches line). }
  destruct (line_matches line) eqn:Hm.
  - eexists. split; [done|]. split; simpl; try done; rewrite ?length_app, ?Hmatch, ?length_app; simpl; try lia.
    + by rewrite Hselected, map_app.
    + rewrite position_after_snoc, Hm, Htotal, Hfiltered. done.
  - eexists. split; [done|]. split; simpl; try done; rewrite ?length_app, ?Hmatch, ?app_nil_r; simpl; try lia; try done.
    rewrite position_after_snoc, Hm, Htotal, Hfiltered, Z.add_0_r. done.
Qed.

Lemma page_lines_open t0 f0 lines seen s :
  OpenPage t0 f0 seen s → 0 ≤ t0 → 0 ≤ f0 →
  t0 + Z.of_nat (length seen + length lines) ≤ u64_max → f0 + Z.of_nat (length seen + length lines) ≤ u64_max →
  (length (selected s) ≤ page_item_limit request)%nat →
  (∀ known, known_total request = Some known → t0 + Z.of_nat (length seen + length lines) ≤ known) →
  ∃ s' c, page_lines lines s = Ok s' ∧ (c ≤ length lines)%nat ∧
    (seen = [] → lines ≠ [] → (1 ≤ c)%nat) ∧
    selected s' = map row_of (matching (seen ++ take c lines)) ∧
    continuation s' = position_after t0 f0 (seen ++ take c lines) ∧
    (state_truncated s' = false → matching (drop c lines) = []) ∧ CountsExact s s' lines.
Proof.
  revert seen s. induction lines as [|line lines IH]; intros seen s Hopen Ht0 Hf0 Ht Hf Hroom Hknown.
  { exists s, 0%nat. destruct Hopen. unfold CountsExact. simpl. rewrite app_nil_r, !Z.add_0_r. split_and!; done. }
  simpl length in *. assert (length (matching seen) ≤ length seen)%nat by apply length_filter.
  assert (Hstop : (length (selected s) = page_item_limit request ∨ scanned s = page_scan_limit request) → seen ≠ []).
  { intros Hfull ->. destruct Hopen as [_ _ Hsel _ _ _ Hsc]. rewrite Hsel, Hsc in Hfull. simpl in Hfull. lia. }
  destruct (decide (length (selected s) = page_item_limit request)) as [Hfull | Hnot].
  - destruct (page_lines_full (line :: lines) s) as (s' & Hs' & Hsel & _ & Hcont & Hcounts & _ & Hno);
      [done|apply Hopen|destruct Hopen; simpl length; lia..| |].
    { intros known Hk. specialize (Hknown known Hk). destruct Hopen. simpl length. lia. }
    exists s', 0%nat. rewrite take_0, app_nil_r, Hsel, Hcont.
    split_and!; try done; [lia|naive_solver|apply Hopen|apply Hopen].
  - destruct (decide (scanned s = page_scan_limit request)) as [Hout | Hbudget].
    + exists (MkPageState (total s) (filtered s) (selected s) (selected_cursors s) true true
          (continuation s) (scanned s) (transformed s)), 0%nat. cbn [page_lines]. unfold page_line.
      rewrite Hout, Nat.eqb_refl, take_0, app_nil_r. unfold CountsExact. simpl.
      split_and!; try done; try lia; [naive_solver|apply Hopen|apply Hopen].
    + destruct (page_line_open t0 f0 seen s line) as (s1 & Hline & Hopen1); try done; try lia.
      cbn [page_lines]. rewrite Hline.
      destruct (IH (seen ++ [line]) s1) as (s' & c & Hs' & Hc & _ & Hsel & Hcont & Hno & Hcounts);
        try done; rewrite ?length_app; simpl; try lia.
      { rewrite (open_selected _ _ _ _ Hopen), length_map in Hnot, Hroom.
        rewrite (open_selected _ _ _ _ Hopen1), length_map, matching_length_snoc.
        destruct (line_matches line); lia. }
      { intros known Hk. specialize (Hknown known Hk). lia. }
      exists s', (S c). rewrite <- app_assoc in Hsel, Hcont. split_and!; try done; try lia.
      eapply CountsExact_cons; [done|..].
      * rewrite (open_total _ _ _ _ Hopen1), (open_total _ _ _ _ Hopen), length_app. simpl. lia.
      * rewrite (open_filtered _ _ _ _ Hopen1), (open_filtered _ _ _ _ Hopen), matching_length_snoc.
        destruct (line_matches line); lia.
Qed.
End one_page.

(** ** All pages of a file *)

Lemma raw_lines_tail bytes line lines : raw_lines bytes = line :: lines → raw_lines (concat lines) = lines.
Proof.
  revert line lines. induction bytes as [|byte rest IH]; intros line lines; [done|]. simpl.
  case_match; [intros [= <- <-]; by rewrite raw_lines_concat|].
  destruct (raw_lines rest); intros [= <- <-]; [done|by eapply IH].
Qed.

Lemma raw_lines_drop bytes k : raw_lines (concat (drop k (raw_lines bytes))) = drop k (raw_lines bytes).
Proof.
  revert bytes. induction k as [|k IH]; intros bytes; [by rewrite !drop_0, raw_lines_concat|].
  destruct (raw_lines bytes) as [|line lines] eqn:Hlines; [done|]. simpl.
  apply raw_lines_tail in Hlines. rewrite <- Hlines at 1. by rewrite IH, Hlines.
Qed.

(** The offset of line [k]. *)
Definition line_offset (lines : list (list Z)) (k : nat) : Z :=
  Z.of_nat (length (concat (take k lines))).

Lemma number_lines_drop limit offset ordinal lines k : (k ≤ length lines)%nat →
  drop k (number_lines limit offset ordinal lines) =
  number_lines limit (offset + line_offset lines k) (ordinal + Z.of_nat k) (drop k lines).
Proof.
  unfold line_offset. revert offset ordinal lines.
  induction k as [|k IH]; intros offset ordinal lines Hk; [by rewrite !drop_0, !Z.add_0_r|].
  destruct lines as [|line lines]; [done|]. simpl in *. rewrite IH by lia. rewrite length_app.
  f_equal; lia.
Qed.

Lemma number_lines_length limit offset ordinal lines :
  length (number_lines limit offset ordinal lines) = length lines.
Proof. revert offset ordinal. induction lines; intros; simpl; auto. Qed.

Lemma number_lines_lookup limit offset ordinal lines i line :
  number_lines limit offset ordinal lines !! i = Some line →
  end_offset line = offset + line_offset lines (S i) ∧ line_ordinal line = ordinal + Z.of_nat i.
Proof.
  unfold line_offset. revert offset ordinal i. induction lines as [|l lines IH]; intros offset ordinal i; [done|].
  destruct i as [|i]; simpl.
  - intros [= <-]. simpl. rewrite app_nil_r. lia.
  - intros [Hoff Hord]%IH. simpl in Hoff. rewrite Hoff, Hord, length_app. lia.
Qed.

Lemma last_take_drop (lines : list BoundedLine) k c : (0 < c)%nat → (k + c ≤ length lines)%nat →
  last (take c (drop k lines)) = lines !! (k + c - 1)%nat.
Proof.
  intros Hc Hlen. rewrite last_lookup, length_take_le by (rewrite length_drop; lia).
  rewrite lookup_take_lt by lia. rewrite lookup_drop. f_equal. lia.
Qed.

Lemma take_split (lines : list BoundedLine) k c :
  take (k + c) lines = take k lines ++ take c (drop k lines).
Proof. revert k. induction lines; intros [|k]; simpl; rewrite ?take_nil; f_equal; auto. Qed.

Section all_pages.
Context `{Codec : CursorCodec, Laws : !CursorCodecLaws}.
Variable invocation_id : string.
Variable filter : option string.
Variable transform : string → string → string.
Variable text : string → string.
Hypothesis Htransform : ∀ value buffer, transform value buffer = text value.

(** The file, and what reading it from an offset returns. *)
Variable file : list Z.
Variable read_from : Z → list (result StoreError (list Z)).
Hypothesis Hread : ∀ offset, 0 ≤ offset ≤ Z.of_nat (length file) →
  Reads (read_from offset) (drop (Z.to_nat offset) file).
Hypothesis Hsize : Z.of_nat (length file) < u64_max.

(** The indexed state and row count of the invocation. *)
Variable record_state : InvocationState.
Variable result_count : option Z.
Hypothesis Hcount : ∀ count, result_count = Some count → count = Z.of_nat (length (raw_lines file)).

Definition file_rows : list BoundedLine := number_lines QUERY_LINE_LIMIT 0 0 (raw_lines file).
Abbreviation matching := (matching filter text).
Abbreviation row_of := (row_of text).

(** The cursor that continues after [k] lines. *)
Definition cursor_after (k : nat) : FileCursor :=
  new_file_cursor "query_rows" invocation_id filter (line_offset (raw_lines file) k) (Z.of_nat k - 1)
    (Z.of_nat k) (Z.of_nat (length (matching (take k file_rows)))).

Definition ContinuesAfter (k : nat) (value : option string) : Prop :=
  match value with
  | None => k = 0%nat
  | Some value => (0 < k)%nat ∧ encode_file_cursor (cursor_after k) = Ok value
  end.

Lemma file_rows_length : length file_rows = length (raw_lines file).
Proof. apply number_lines_length. Qed.

Lemma line_offset_bound k : 0 ≤ line_offset (raw_lines file) k ≤ Z.of_nat (length file).
Proof.
  unfold line_offset. pose proof (raw_lines_concat file) as Hcat.
  rewrite <- (take_drop k (raw_lines file)), concat_app in Hcat.
  apply (f_equal length) in Hcat. rewrite length_app in Hcat. lia.
Qed.

Lemma drop_line_offset k :
  drop (Z.to_nat (line_offset (raw_lines file) k)) file = concat (drop k (raw_lines file)).
Proof.
  unfold line_offset. rewrite Nat2Z.id. pose proof (raw_lines_concat file) as Hcat.
  rewrite <- (take_drop k (raw_lines file)), concat_app in Hcat.
  etransitivity; [by rewrite <- Hcat at 2|apply drop_app_length].
Qed.

Lemma lines_bound : Z.of_nat (length (raw_lines file)) ≤ Z.of_nat (length file).
Proof. pose proof (raw_lines_length_le file). lia. Qed.

Lemma position_after_cursor k c :
  (0 < c)%nat → (k + c ≤ length (raw_lines file))%nat →
  position_after filter text (Z.of_nat k) (Z.of_nat (length (matching (take k file_rows))))
    (take c (drop k file_rows))
  = Some (line_offset (raw_lines file) (k + c), Z.of_nat (k + c) - 1, Z.of_nat (k + c),
          Z.of_nat (length (matching (take (k + c) file_rows)))).
Proof.
  intros Hc Hkc. pose proof file_rows_length as Hlen. unfold position_after.
  rewrite last_take_drop by lia.
  destruct (lookup_lt_is_Some_2 file_rows (k + c - 1)) as [line Hline]; [lia|].
  rewrite Hline. cbn [mbind option_bind].
  apply number_lines_lookup in Hline as [-> ->]. rewrite Z.add_0_l, Z.add_0_l.
  replace (S (k + c - 1)) with (k + c)%nat by lia.
  rewrite length_take_le by (rewrite length_drop; lia).
  rewrite take_split, matching_app, length_app.
  f_equal. repeat apply (f_equal2 pair); try done; lia.
Qed.

(** The page request that continues after [k] lines. *)
Definition request_after (k n scans : nat) : QueryFilePage :=
  MkQueryFilePage (line_offset (raw_lines file) k) (Z.of_nat k) (Z.of_nat k)
    (Z.of_nat (length (matching (take k file_rows)))) n scans
    (if bool_decide (filter = None) && is_terminal record_state then result_count else None).

(** What a page that starts after [k] lines holds. *)
Definition PageAfter (k : nat) (p : Page QueryRow) : Prop :=
  ∃ c, (k + c ≤ length (raw_lines file))%nat ∧
    items p = map row_of (matching (take c (drop k file_rows))) ∧
    (if page_truncated p then (0 < c)%nat ∧ ContinuesAfter (k + c) (next_cursor p)
     else next_cursor p = None ∧ matching (drop (k + c) file_rows) = []) ∧
    (∀ count, total_count p = Some count → count = Z.of_nat (length (raw_lines file))) ∧
    (∀ count, filtered_count p = Some count → count = Z.of_nat (length (matching file_rows))).

Lemma finish_page_after k n scans s c :
  (k + c ≤ length (raw_lines file))%nat → (state_truncated s = true → (0 < c)%nat) →
  selected s = map row_of (matching (take c (drop k file_rows))) →
  continuation s = position_after filter text (Z.of_nat k)
    (Z.of_nat (length (matching (take k file_rows)))) (take c (drop k file_rows)) →
  (state_truncated s = false → matching (drop c (drop k file_rows)) = []) →
  CountsExact filter (request_after k n scans) text (initial_state (request_after k n scans)) s
    (drop k file_rows) →
  ∃ p, finish_page invocation_id filter (request_after k n scans) s = Ok p ∧ PageAfter k p.
Proof.
  intros Hkc Htrunc Hsel Hcont Hno (Hle & Hexact & Hfexact). pose proof file_rows_length as Hlen.
  assert (Hnext : ∃ next,
    finish_page invocation_id filter (request_after k n scans) s
    = Ok (MkPage (selected s) (final_total_count (request_after k n scans) s)
            (final_filtered_count filter (request_after k n scans) s) next (state_truncated s)
            (selected_cursors s)) ∧
    (if state_truncated s then (0 < c)%nat ∧ ContinuesAfter (k + c) next else next = None)).
  { unfold finish_page. destruct (state_truncated s); [|by eexists].
    rewrite Hcont, position_after_cursor by auto. eexists. split; [reflexivity|].
    split; [auto|]. split; [specialize (Htrunc eq_refl); lia|reflexivity]. }
  destruct Hnext as (next & -> & Hnext). eexists. split; [done|].
  exists c. cbn [items page_truncated next_cursor total_count filtered_count].
  assert (Htotal : ∀ count, final_total_count (request_after k n scans) s = Some count →
                   count = Z.of_nat (length (raw_lines file))).
  { intros count. unfold final_total_count. rewrite length_drop, Hlen in *. simpl in *.
    destruct (if _ && _ then _ else _) as [known|] eqn:Hknown.
    - intros [= <-]. destruct (_ && _); [|done]. apply Hcount in Hknown. lia.
    - destruct (scan_exhausted s); [done|]. intros [= <-].
      destruct Hexact as [-> _]; [done|done|]. lia. }
  split_and!; try done.
  - destruct (state_truncated s); [done|]. rewrite <- drop_drop. auto.
  - intros count. unfold final_filtered_count. case_decide as Hfilter.
    + intros ->%Htotal. by rewrite unfiltered_matching, Hlen.
    + destruct (scan_exhausted s); [done|]. intros [= <-].
      rewrite Hfexact by done. simpl. rewrite <- Nat2Z.inj_add, <- length_app, <- matching_app, take_drop.
      done.
Qed.

Lemma page_query_file_after k n scans :
  (k ≤ length (raw_lines file))%nat → (0 < n)%nat → (0 < scans)%nat →
  ∃ p, page_query_file (Some read_from) invocation_id filter (request_after k n scans) transform
       = Some (Ok p) ∧ PageAfter k p.
Proof.
  intros Hk Hi Hs. set (request := request_after k n scans).
  pose proof lines_bound as Hlines. pose proof file_rows_length as Hlen.
  assert (Hm : (length (matching (take k file_rows)) ≤ k)%nat).
  { etransitivity; [apply length_filter|]. rewrite length_take. lia. }
  set (rest := drop k file_rows).
  assert (Hrest : length rest = (length (raw_lines file) - k)%nat) by (unfold rest; by rewrite length_drop, Hlen).
  destruct (page_lines_open invocation_id filter request transform Hi Hs text Htransform (Z.of_nat k)
    (Z.of_nat (length (matching (take k file_rows)))) rest [] (initial_state request))
    as (s' & c & Hpage & Hc & Hprogress & Hsel & Hcont & Hno & Hcounts);
    [split; simpl; done || lia|lia|lia|simpl; lia|simpl; lia|simpl; lia| |].
  { unfold request, request_after. simpl. intros known Hknown.
    destruct (_ && _); [|done]. apply Hcount in Hknown. lia. }
  assert (Htrunc : state_truncated s' = true → (0 < c)%nat).
  { intros Ht. apply Hprogress; [done|]. intros Hnil. rewrite Hnil in Hpage. simpl in Hpage.
    injection Hpage as <-. done. }
  assert (Hloop : page_query_file (Some read_from) invocation_id filter request transform
                  = Some (finish_page invocation_id filter request s')).
  { unfold page_query_file, page_query_file_from_cursor. cbn [start_offset start_ordinal request request_after].
    assert (Hreads : Reads (read_from (line_offset (raw_lines file) k)) (concat (drop k (raw_lines file)))).
    { rewrite <- drop_line_offset. apply Hread, line_offset_bound. }
    rewrite (page_loop_lines invocation_id filter request transform _ _ _ _ _ _ _ _ Hreads
               (raw_lines_drop file k)).
    - replace (number_lines _ _ _ _) with rest; [by rewrite Hpage|].
      unfold rest, file_rows. by rewrite number_lines_drop by lia.
    - apply line_offset_bound.
    - pose proof (line_offset_bound k). pose proof (drop_line_offset k) as Hd.
      apply (f_equal length) in Hd. rewrite length_drop in Hd. lia.
    - lia.
    - rewrite length_drop. lia.
    - rewrite <- raw_lines_drop. by apply reads_fuel_enough. }
  destruct (finish_page_after k n scans s' c) as (p & Hfinish & Hp); try done; [lia|].
  exists p. split; [|done]. rewrite Hloop. by f_equal.
Qed.

Lemma ContinuesAfter_decode k value :
  (k ≤ length (raw_lines file))%nat → ContinuesAfter k (Some value) →
  decode_file_cursor_for value "query_rows" invocation_id filter = Ok (cursor_after k).
Proof.
  intros Hk [Hpos Hencode]. pose proof lines_bound. pose proof file_rows_length.
  pose proof (line_offset_bound k).
  assert (length (matching (take k file_rows)) ≤ k)%nat.
  { etransitivity; [apply length_filter|]. rewrite length_take. lia. }
  unfold decode_file_cursor_for, cursor_after in *.
  erewrite file_cursor_roundtrip; [| | | | |exact Hencode]; try (unfold is_u64; lia).
  rewrite check_file_cursor. by rewrite check_context_same.
Qed.

(** A page request is served as the page after the lines of its cursor. *)
Lemma page_query_rows_after k page limits :
  (k ≤ length (raw_lines file))%nat → ContinuesAfter k (cursor page) → page_limits page = Some limits →
  ∃ p, page_query_rows_mapped_into (Some read_from) invocation_id record_state result_count filter page
         transform = Some (Ok p) ∧ PageAfter k p.
Proof.
  intros Hk Hcursor Hlimits. destruct limits as [n scans].
  assert (0 < n ∧ 0 < scans)%nat as [Hn Hs].
  { by apply (page_limits_positive page). }
  destruct (page_query_file_after k n scans Hk Hn Hs) as (p & Hpage & Hp). exists p. split; [|done].
  unfold page_query_rows_mapped_into. destruct (cursor page) as [value|].
  - rewrite (ContinuesAfter_decode k value Hk Hcursor). cbn [fmap result_fmap]. rewrite Hlimits.
    cbn [mbind option_bind cursor_after new_file_cursor file_offset file_ordinal total_scanned filtered_scanned].
    rewrite u64_add_exact, Z.sub_add; [done|..]; pose proof lines_bound; destruct Hcursor; lia.
  - simpl in Hcursor. subst k. rewrite Hlimits. done.
Qed.

(** The client's loop: follow [next_cursor] until a page has none. *)
Fixpoint follow_pages (fuel : nat) (page : PageRequest) : option (list QueryRow) :=
  match fuel with
  | O => None
  | S fuel =>
      match page_query_rows_mapped_into (Some read_from) invocation_id record_state result_count filter
              page transform with
      | Some (Ok p) =>
          match next_cursor p with
          | None => Some (items p)
          | Some next =>
              rest ← follow_pages fuel (MkPageRequest (Some next) (item_limit page) (scan_limit page));
              Some (items p ++ rest)
          end
      | _ => None
      end
  end.

Lemma follow_pages_after fuel k page limits :
  (k ≤ length (raw_lines file))%nat → ContinuesAfter k (cursor page) → page_limits page = Some limits →
  (length (raw_lines file) - k < fuel)%nat →
  follow_pages fuel page = Some (map row_of (matching (drop k file_rows))).
Proof.
  revert k page. induction fuel as [|fuel IH]; intros k page Hk Hcursor Hlimits Hfuel; [lia|].
  cbn [follow_pages].
  destruct (page_query_rows_after k page limits Hk Hcursor Hlimits) as (p & -> & c & Hkc & Hitems & Hnext & _).
  rewrite <- (take_drop c (drop k file_rows)), matching_app, map_app, <- Hitems, drop_drop.
  destruct (page_truncated p).
  - destruct Hnext as [Hc Hnext]. destruct (next_cursor p) as [next|]; [|simpl in Hnext; lia].
    rewrite (IH (k + c)%nat); [done|done|done|done|lia].
  - destruct Hnext as [-> ->]. by rewrite app_nil_r.
Qed.

(** C20: Following the cursors of a query-output file from the first page ends,
    after at most one page per line, and yields every row that matches the
    filter exactly once, in file order: no row is lost, repeated or cut by the
    item limit, the scan limit or the splitting of the reads. *)
Theorem pages_cover_query_rows n scans (Hn : n ≤ 10000) :
  follow_pages (S (length (raw_lines file))) (MkPageRequest None n scans)
  = Some (map row_of (matching file_rows)).
Proof.
  destruct (page_limits (MkPageRequest None n scans)) as [limits|] eqn:Hlimits.
  - rewrite (follow_pages_after _ 0 _ limits) by (try done; simpl; lia). by rewrite drop_0.
  - unfold page_limits, clamp in Hlimits. simpl in Hlimits.
    destruct (Z.leb_spec (Z.max n 1) 10000); [done|lia].
Qed.

(** Every count a page of query rows reports is exact: a total count is the
    number of lines of the file and a filtered count the number of matching
    ones, from whatever page of the listing they are reported. *)
Theorem page_counts_exact k page limits p
    (Hk : (k ≤ length (raw_lines file))%nat) (Hcursor : ContinuesAfter k (cursor page))
    (Hlimits : page_limits page = Some limits)
    (Hpage : page_query_rows_mapped_into (Some read_from) invocation_id record_state result_count filter
       page transform = Some (Ok p)) :
  (∀ count, total_count p = Some count → count = Z.of_nat (length (raw_lines file))) ∧
  (∀ count, filtered_count p = Some count → count = Z.of_nat (length (matching file_rows))).
Proof.
  destruct (page_query_rows_after k page limits Hk Hcursor Hlimits) as (p' & Hp' & Hafter).
  rewrite Hpage in Hp'. injection Hp' as <-.
  destruct Hafter as (c & _ & _ & _ & Htotal & Hfiltered). done.
Qed.
End all_pages.

(** ** All pages of a list of records *)

Section record_pages.
Context `{Codec : CursorCodec, Laws : !CursorCodecLaws} {T : Type}.
Variable scope : string.
Variable invocation_id : string.
Variable filter : option string.
Variable searchable : T → string.

Definition record_matching (records : list T) : list T :=
  base.filter (fun record => record_matches filter searchable record = true) records.

Lemma record_matching_cons record records :
  record_matching (record :: records) =
  if record_matches filter searchable record then record :: record_matching records
  else record_matching records.
Proof.
  unfold record_matching. rewrite filter_cons.
  destruct (record_matches _ _ record); [by rewrite decide_True|by rewrite decide_False].
Qed.

Lemma record_matching_app l l' : record_matching (l ++ l') = record_matching l ++ record_matching l'.
Proof. apply filter_app. Qed.

Lemma record_unfiltered l : filter = None → record_matching l = l.
Proof.
  intros Hfilter. induction l as [|record l IH]; [done|]. rewrite record_matching_cons, IH.
  unfold record_matches. by rewrite Hfilter.
Qed.

Abbreviation loop := (records_loop scope invocation_id filter searchable).

(** Records up to the cursor are skipped. *)
Lemma records_loop_skip n scans after ordinal records s k :
  0 ≤ ordinal → ordinal + Z.of_nat k = after + 1 → (k ≤ length records)%nat →
  ordinal + Z.of_nat (length records) ≤ i64_max →
  loop n scans after ordinal records s = loop n scans after (after + 1) (drop k records) s.
Proof.
  revert ordinal records. induction k as [|k IH]; intros ordinal records Hord Hafter Hk Hbound.
  { rewrite drop_0. f_equal. lia. }
  destruct records as [|record records]; [simpl in Hk; lia|]. simpl length in *. cbn [records_loop drop].
  unfold i64_try_from_or_max. rewrite decide_True by width.
  rewrite (proj2 (Z.leb_le _ _)) by lia. apply IH; lia.
Qed.

(** What the loop makes of the records after the cursor: it stops after [c] of
    them, and has selected the matching ones. *)
Lemma records_loop_spec n scans after ordinal records s :
  0 ≤ ordinal → after < ordinal → ordinal + Z.of_nat (length records) ≤ i64_max →
  (length (records_selected s) ≤ n)%nat → (records_scanned s ≤ scans)%nat →
  records_truncated s = false →
  0 ≤ records_filtered s → records_filtered s + Z.of_nat (length records) ≤ u64_max →
  ∃ s' c, loop n scans after ordinal records s = Ok s' ∧ (c ≤ length records)%nat ∧
    records_selected s' = records_selected s ++ record_matching (take c records) ∧
    last_scanned s' = (if (c =? 0)%nat then last_scanned s else Some (ordinal + Z.of_nat c - 1)) ∧
    (records_truncated s' = false → c = length records ∧
       records_filtered s' = records_filtered s + Z.of_nat (length (record_matching records))) ∧
    (records ≠ [] → (length (records_selected s) < n)%nat → (records_scanned s < scans)%nat → (0 < c)%nat).
Proof.
  revert ordinal s. induction records as [|record records IH];
    intros ordinal s Hord Hafter Hbound Hsel Hscan Htr Hf Hfb.
  { exists s, 0%nat. simpl. rewrite app_nil_r, Z.add_0_r. split_and!; done. }
  simpl length in *. cbn [records_loop]. unfold i64_try_from_or_max. rewrite decide_True by width.
  rewrite (proj2 (Z.leb_gt _ _)) by lia. rewrite record_matching_cons.
  destruct (Nat.eqb_spec (records_scanned s) scans) as [Hout | Hbudget].
  { eexists _, 0%nat. split; [done|]. simpl. rewrite app_nil_r. split_and!; try done; lia. }
  destruct (record_matches filter searchable record) eqn:Hm; cbn [andb].
  - destruct (Nat.eqb_spec (length (records_selected s)) n) as [Hfull | Hroom].
    { eexists _, 0%nat. split; [done|]. simpl. rewrite app_nil_r. split_and!; try done; lia. }
    rewrite u64_add_exact by lia. cbn [record_cursor encode_ordinal_cursor mbind result_bind].
    edestruct (IH (ordinal + 1)) as (s' & c & Hs' & Hc & Hsel' & Hlast & Hend & _); [..|exists s', (S c)];
      [| | | | | | | |split; [exact Hs'|]]; simpl; rewrite ?length_app; simpl; try done; try lia.
    simpl in Hsel', Hlast, Hend. split_and!; [lia| | | |lia].
    + rewrite Hsel', record_matching_cons, Hm, <- app_assoc. done.
    + rewrite Hlast. destruct c; simpl; f_equal; lia.
    + intros Ht. destruct (Hend Ht). lia.
  - rewrite u64_add_exact by lia.
    edestruct (IH (ordinal + 1)) as (s' & c & Hs' & Hc & Hsel' & Hlast & Hend & _); [..|exists s', (S c)];
      [| | | | | | | |split; [exact Hs'|]]; simpl; try done; try lia.
    simpl in Hsel', Hlast, Hend. split_and!; [lia| | | |lia].
    + by rewrite Hsel', record_matching_cons, Hm.
    + rewrite Hlast. destruct c; simpl; f_equal; lia.
    + intros Ht. destruct (Hend Ht). lia.
Qed.

Variable records : list T.
Hypothesis Hrecords : Z.of_nat (length records) ≤ i64_max.

Definition RecordsAfter (k : nat) (value : option string) : Prop :=
  match value with
  | None => k = 0%nat
  | Some value => (0 < k)%nat ∧ record_cursor scope invocation_id filter (Z.of_nat k - 1) = Ok value
  end.

Lemma page_records_after k page limits :
  (k ≤ length records)%nat → RecordsAfter k (cursor page) → page_limits page = Some limits →
  ∃ p c, page_records scope invocation_id filter searchable page records = Some (Ok p) ∧
    (k + c ≤ length records)%nat ∧ items p = record_matching (take c (drop k records)) ∧
    (if page_truncated p then (0 < c)%nat ∧ RecordsAfter (k + c) (next_cursor p)
     else next_cursor p = None ∧ (k + c = length records)%nat) ∧
    total_count p = Some (Z.of_nat (length records)) ∧
    (∀ count, filtered_count p = Some count → count = Z.of_nat (length (record_matching records))).
Proof.
  intros Hk Hcursor Hlimits. destruct limits as [n scans].
  assert (0 < n ∧ 0 < scans)%nat as [Hn Hs] by by apply (page_limits_positive page).
  unfold page_records. rewrite Hlimits. cbn [mbind option_bind].
  assert (Hdecoded : match cursor page with
          | None => Ok (-1)
          | Some value => cursor_ordinal <$> decode_ordinal_cursor_for value scope invocation_id filter
          end = Ok (Z.of_nat k - 1)).
  { destruct (cursor page) as [value|]; simpl in Hcursor; [|by subst k].
    destruct Hcursor as [Hpos Hencode]. unfold decode_ordinal_cursor_for.
    rewrite (ordinal_cursor_roundtrip scope invocation_id filter (Z.of_nat k - 1) value) by (done || width).
    by rewrite check_ordinal_cursor, check_context_same. }
  rewrite Hdecoded. cbn [mbind result_bind].
  rewrite (records_loop_skip _ _ _ _ _ _ k) by lia. rewrite Z.sub_add.
  edestruct (records_loop_spec n scans (Z.of_nat k - 1) (Z.of_nat k) (drop k records))
    as (s' & c & Hloop & Hc & Hsel & Hlast & Hend & Hprogress);
    [..|rewrite Hloop]; rewrite ?length_drop in *; simpl; try done; try lia; [unfold u64_max, i64_max in *; lia|].
  simpl in Hsel, Hlast, Hend, Hprogress. rewrite Hlast, Hsel.
  assert (Hcount : ∀ count,
    (if decide (filter = None) then Some (Z.of_nat (length records))
     else if (Z.of_nat k - 1 <? 0) && negb (records_truncated s') then Some (records_filtered s') else None)
    = Some count → count = Z.of_nat (length (record_matching records))).
  { intros count. case_decide as Hfilter; [intros [= <-]; by rewrite record_unfiltered|].
    destruct (Z.ltb_spec (Z.of_nat k - 1) 0), (records_truncated s'); try done.
    intros [= <-]. destruct Hend as [_ ->]; [done|]. by replace k with 0%nat by lia. }
  destruct (records_truncated s') eqn:Ht.
  - assert (0 < c)%nat as Hpos.
    { apply Hprogress; try lia. intros Hnil. rewrite Hnil in Hloop. by injection Hloop as <-. }
    destruct (Nat.eqb_spec c 0); [lia|].
    eexists _, c. split; [reflexivity|].
    cbn [items page_truncated next_cursor total_count filtered_count]. split_and!; try done; try lia.
    split; [lia|]. rewrite Nat2Z.inj_add. reflexivity.
  - eexists _, c. split; [reflexivity|].
    cbn [items page_truncated next_cursor total_count filtered_count].
    destruct (Hend eq_refl) as [-> _]. split_and!; try done; lia.
Qed.

(** The client's loop over the pages of the records. *)
Fixpoint follow_records (fuel : nat) (page : PageRequest) : option (list T) :=
  match fuel with
  | O => None
  | S fuel =>
      match page_records scope invocation_id filter searchable page records with
      | Some (Ok p) =>
          match next_cursor p with
          | None => Some (items p)
          | Some next =>
              rest ← follow_records fuel (MkPageRequest (Some next) (item_limit page) (scan_limit page));
              Some (items p ++ rest)
          end
      | _ => None
      end
  end.

Lemma follow_records_after fuel k page limits :
  (k ≤ length records)%nat → RecordsAfter k (cursor page) → page_limits page = Some limits →
  (length records - k < fuel)%nat →
  follow_records fuel page = Some (record_matching (drop k records)).
Proof.
  revert k page. induction fuel as [|fuel IH]; intros k page Hk Hcursor Hlimits Hfuel; [lia|].
  cbn [follow_records].
  destruct (page_records_after k page limits Hk Hcursor Hlimits) as (p & c & -> & Hkc & Hitems & Hnext & _).
  rewrite <- (take_drop c (drop k records)), record_matching_app, <- Hitems, drop_drop.
  destruct (page_truncated p).
  - destruct Hnext as [Hc Hnext]. destruct (next_cursor p) as [next|]; [|simpl in Hnext; lia].
    rewrite (IH (k + c)%nat); [done|done|done|done|lia].
  - destruct Hnext as [-> Hall]. rewrite Hall, drop_ge, app_nil_r; done.
Qed.

(** Following the cursors of a list of diagnostics, tests, artifacts or
    coverage files from the first page ends, after at most one page per record,
    and yields every record that matches the filter exactly once, in order. *)
Theorem pages_cover_records n scans (Hn : n ≤ 10000) :
  follow_records (S (length records)) (MkPageRequest None n scans) = Some (record_matching records).
Proof.
  destruct (page_limits (MkPageRequest None n scans)) as [limits|] eqn:Hlimits.
  - rewrite (follow_records_after _ 0 _ limits) by (try done; simpl; lia). by rewrite drop_0.
  - unfold page_limits, clamp in Hlimits. simpl in Hlimits.
    destruct (Z.leb_spec (Z.max n 1) 10000); [done|lia].
Qed.
End record_pages.

Module QueryPagingExamples.
Lemma count_query_rows_spec_witness :
  count_query_rows (map Ok [[97; 10; 98]; [10; 99]]) = Ok 3.
Proof.
  rewrite (count_query_rows_spec [[97; 10; 98]; [10; 99]]).
  - reflexivity.
  - repeat constructor; discriminate.
  - vm_compute. reflexivity.
Defined.

(** The file [ab], [b] (with a carriage return), [c], read one chunk at a time. *)
Definition example_file : list Z := [97; 98; 10; 98; 13; 10; 99].
Definition example_read (offset : Z) : list (result StoreError (list Z)) :=
  match drop (Z.to_nat offset) example_file with
  | [] => []
  | bytes => [Ok bytes]
  end.

Lemma example_read_ok offset : 0 ≤ offset ≤ Z.of_nat (length example_file) →
  Reads (example_read offset) (drop (Z.to_nat offset) example_file).
Proof.
  intros _. unfold example_read. destruct (drop (Z.to_nat offset) example_file) as [|byte bytes].
  - exists []. split_and!; constructor.
  - exists [byte :: bytes]. split_and!; [done|by repeat constructor|simpl; by rewrite app_nil_r].
Qed.

Definition example_page (limit : Z) : option (result StoreError (Page QueryRow)) :=
  page_query_rows_mapped_into (H := CursorExamples.example_codec) (Some example_read) "id" Running None
    (Some "B") (MkPageRequest None limit 1) (fun value _ => value).

Lemma pages_cover_query_rows_witness :
  follow_pages (Codec := CursorExamples.example_codec) "id" (Some "B") (fun value _ => value)
    example_read Running None 4 (MkPageRequest None 1 1)
  = Some [MkQueryRow 0 "ab"; MkQueryRow 1 "b"].
Proof.
  etransitivity.
  - apply (pages_cover_query_rows (Codec := CursorExamples.example_codec)
             (Laws := CursorExamples.example_laws) "id" (Some "B") (fun value _ => value)
             (fun value => value) ltac:(reflexivity) example_file example_read example_read_ok
             ltac:(vm_compute; reflexivity) Running None ltac:(discriminate) 1 1
             ltac:(intros H; discriminate H)).
  - vm_compute. reflexivity.
Defined.

Lemma page_counts_exact_witness :
  match example_page 2 with
  | Some (Ok p) =>
      (∀ count, total_count p = Some count → count = 3) ∧
      (∀ count, filtered_count p = Some count → count = 2)
  | _ => False
  end.
Proof.
  destruct (example_page 2) as [[p|]|] eqn:Hpage; try (vm_compute in Hpage; discriminate Hpage).
  exact (page_counts_exact (Codec := CursorExamples.example_codec)
           (Laws := CursorExamples.example_laws) "id" (Some "B") (fun value _ => value)
           (fun value => value) ltac:(reflexivity) example_file example_read example_read_ok
           ltac:(vm_compute; reflexivity) Running None ltac:(discriminate)
           0 (MkPageRequest None 2 1) (2%nat, 2%nat) p
           ltac:(vm_compute; lia) eq_refl eq_refl Hpage).
Defined.

Lemma pages_cover_records_witness :
  follow_records (Codec := CursorExamples.example_codec) "tests" "id" (Some "A") (fun label => label)
    ["//a"; "//b"; "//ab"] 4 (MkPageRequest None 1 1) = Some ["//a"; "//ab"].
Proof.
  etransitivity.
  - apply (pages_cover_records (Codec := CursorExamples.example_codec)
             (Laws := CursorExamples.example_laws) "tests" "id" (Some "A") (fun label => label)
             ["//a"; "//b"; "//ab"] ltac:(intros H; discriminate H) 1 1 ltac:(intros H; discriminate H)).
  - vm_compute. reflexivity.
Defined.
End QueryPagingExamples.
