(* ===== verification/Index.v ===== *)
(** * The in-memory index of the store (crates/bazel-mcp-store/src/index.rs,
    the accumulator of telemetry.rs, replace_from_disk of index_coordinator.rs)

    The index maps invocation identifiers to entries and keeps four secondary
    indexes and a byte total in step with them. *)

From S2P Require Import Prelude Types Record.

(** ** Data *)

(** [DurableRecord] (manifest.rs). *)
Definition CURRENT_SCHEMA_VERSION : Z := 1.
Record DurableRecord : Type := MkDurable {
  schema_version : Z;
  durable_invocation : InvocationHeader;
  durable_deferred : option DeferredResultRecord;
  payload_bytes : Z;
}.

Record IndexEntry : Type := MkEntry {
  entry_record : InvocationHeader;
  entry_deferred : option DeferredResultRecord;
  entry_retained_bytes : Z;
  telemetry_generation : Z;
  telemetry_flush_scheduled : bool;
}.

Record Index : Type := MkIndex {
  entries : gmap InvocationId IndexEntry;
  by_requested : gset (Z * InvocationId);
  by_workspace : gmap PathBuf (gset (Z * InvocationId));
  deferred_by_created : gset (Z * InvocationId);
  terminal_by_finished : gset (Z * InvocationId);
  retained_bytes : Z;
}.
Definition default_index : Index := MkIndex ∅ ∅ ∅ ∅ ∅ 0.

(** [DurableRecord::index_entry]. *)
Definition index_entry (durable : DurableRecord) (retained_bytes : Z) : IndexEntry :=
  MkEntry (durable_invocation durable) (durable_deferred durable) retained_bytes 0 false.

(** ** Operations *)

Definition ensure_exists (index : Index) (id : InvocationId) : result StoreError unit :=
  match entries index !! id with Some _ => Ok tt | None => Err (NotFound id) end.

(** The keys under which an entry is filed. *)
Definition requested_key (id : InvocationId) (entry : IndexEntry) : Z * InvocationId :=
  (requested_at_ms (header_request (entry_record entry)), id).
Definition entry_workspace (entry : IndexEntry) : PathBuf :=
  workspace (header_request (entry_record entry)).
Definition entry_terminal (entry : IndexEntry) : bool := is_terminal (header_state (entry_record entry)).
Definition finished_key (id : InvocationId) (entry : IndexEntry) : Z * InvocationId :=
  (default i64_min (header_finished_at_ms (entry_record entry)), id).

Definition add_secondary_indexes (index : Index) (id : InvocationId) (entry : IndexEntry) : Index :=
  let requested := requested_key id entry in
  MkIndex (entries index)
    ({[requested]} ∪ by_requested index)
    (<[entry_workspace entry := {[requested]} ∪ default ∅ (by_workspace index !! entry_workspace entry)]>
       (by_workspace index))
    (match entry_deferred entry with
     | Some deferred => {[(created_at_ms deferred, id)]} ∪ deferred_by_created index
     | None => deferred_by_created index
     end)
    (if entry_terminal entry then {[finished_key id entry]} ∪ terminal_by_finished index
     else terminal_by_finished index)
    (retained_bytes index).

Definition remove_secondary_indexes (index : Index) (id : InvocationId) (entry : IndexEntry) : Index :=
  let requested := requested_key id entry in
  MkIndex (entries index)
    (by_requested index ∖ {[requested]})
    (match by_workspace index !! entry_workspace entry with
     | None => by_workspace index
     | Some filed =>
         if decide (filed ∖ {[requested]} = ∅) then delete (entry_workspace entry) (by_workspace index)
         else <[entry_workspace entry := filed ∖ {[requested]}]> (by_workspace index)
     end)
    (match entry_deferred entry with
     | Some deferred => deferred_by_created index ∖ {[(created_at_ms deferred, id)]}
     | None => deferred_by_created index
     end)
    (if entry_terminal entry then terminal_by_finished index ∖ {[finished_key id entry]}
     else terminal_by_finished index)
    (retained_bytes index).

Definition set_entries (f : gmap InvocationId IndexEntry → gmap InvocationId IndexEntry) (index : Index)
    : Index :=
  MkIndex (f (entries index)) (by_requested index) (by_workspace index) (deferred_by_created index)
    (terminal_by_finished index) (retained_bytes index).

Definition set_retained (f : Z → Z) (index : Index) : Index :=
  MkIndex (entries index) (by_requested index) (by_workspace index) (deferred_by_created index)
    (terminal_by_finished index) (f (retained_bytes index)).

(** [insert]. *)
Definition insert_entry (index : Index) (id : InvocationId) (entry : IndexEntry) : Index :=
  set_entries <[id := entry]>
    (set_retained (fun bytes => u64_add bytes (entry_retained_bytes entry))
       (add_secondary_indexes index id entry)).

Definition merge_telemetry (source destination : InvocationMetrics) : InvocationMetrics :=
  MkMetrics (raw_output_bytes destination) (bep_bytes destination) (bep_events destination)
    (Z.max (model_visible_bytes destination) (model_visible_bytes source))
    (Z.max (progress_notifications destination) (progress_notifications source))
    (Z.max (inspect_calls destination) (inspect_calls source))
    (queue_ms destination) (output_base_lock_wait_ms destination) (bazel_wall_ms destination)
    (reduction_ms destination).

Definition set_metrics (f : InvocationMetrics → InvocationMetrics) (h : InvocationHeader)
    : InvocationHeader :=
  MkHeader (header_request h) (header_state h) (header_started_at_ms h) (header_finished_at_ms h)
    (header_termination h) (header_summary h) (header_run h) (f (header_metrics h))
    (header_canonical_arguments h) (header_cancellation_reason h).

Definition entry_metrics (entry : IndexEntry) : InvocationMetrics := header_metrics (entry_record entry).

(** The part of [replace] that keeps the telemetry of the previous entry. *)
Definition keep_telemetry (previous entry : IndexEntry) : IndexEntry :=
  MkEntry (set_metrics (merge_telemetry (entry_metrics previous)) (entry_record entry))
    (entry_deferred entry) (entry_retained_bytes entry)
    (telemetry_generation previous) (telemetry_flush_scheduled previous).

(** [remove]. *)
Definition remove_entry (index : Index) (id : InvocationId) : Index :=
  match entries index !! id with
  | None => index
  | Some entry =>
      set_retained (fun bytes => u64_sub bytes (entry_retained_bytes entry))
        (remove_secondary_indexes (set_entries (delete id) index) id entry)
  end.

(** [replace]. *)
Definition replace_entry (index : Index) (id : InvocationId) (entry : IndexEntry) : Index :=
  match entries index !! id with
  | None => insert_entry index id entry
  | Some previous =>
      insert_entry
        (set_retained (fun bytes => u64_sub bytes (entry_retained_bytes previous))
           (remove_secondary_indexes (set_entries (delete id) index) id previous))
        id (keep_telemetry previous entry)
  end.

Definition merge_index_telemetry (index : Index) (id : InvocationId) (metrics : InvocationMetrics)
    : InvocationMetrics * Z :=
  match entries index !! id with
  | Some entry => (merge_telemetry (entry_metrics entry) metrics, telemetry_generation entry)
  | None => (metrics, 0)
  end.

Definition set_flush_scheduled (scheduled : bool) (entry : IndexEntry) : IndexEntry :=
  MkEntry (entry_record entry) (entry_deferred entry) (entry_retained_bytes entry)
    (telemetry_generation entry) scheduled.

Definition mark_telemetry_flushed (index : Index) (id : InvocationId) (generation : Z) : Index :=
  match entries index !! id with
  | Some entry =>
      if telemetry_generation entry =? generation
      then set_entries <[id := set_flush_scheduled false entry]> index else index
  | None => index
  end.

(** [merge_pending_telemetry(previous, &mut refreshed)], entry by entry. *)
Definition merge_pending_telemetry (previous refreshed : Index) : Index :=
  set_entries (map_imap (fun id entry =>
    Some (match entries previous !! id with
          | Some previous_entry => keep_telemetry previous_entry entry
          | None => entry
          end))) refreshed.

(** [IndexCoordinator::replace_from_disk]: the new state. *)
Definition replace_from_disk (previous refreshed : Index) : Index :=
  merge_pending_telemetry previous refreshed.

(** ** The telemetry accumulator (telemetry.rs) *)

(** [mark_dirty]: the entry and whether a flush must be scheduled. *)
Definition mark_dirty (entry : IndexEntry) : IndexEntry * bool :=
  (MkEntry (entry_record entry) (entry_deferred entry) (entry_retained_bytes entry)
     (u64_add (telemetry_generation entry) 1) true,
   negb (telemetry_flush_scheduled entry)).

Definition update_metrics (f : InvocationMetrics → InvocationMetrics) (entry : IndexEntry) : IndexEntry :=
  MkEntry (set_metrics f (entry_record entry)) (entry_deferred entry) (entry_retained_bytes entry)
    (telemetry_generation entry) (telemetry_flush_scheduled entry).

Definition record_model_visible (bytes : Z) (inspection : bool) (entry : IndexEntry) : IndexEntry * bool :=
  mark_dirty (update_metrics (fun m =>
    MkMetrics (raw_output_bytes m) (bep_bytes m) (bep_events m)
      (u64_add (model_visible_bytes m) bytes) (progress_notifications m)
      (if inspection then u64_add (inspect_calls m) 1 else inspect_calls m)
      (queue_ms m) (output_base_lock_wait_ms m) (bazel_wall_ms m) (reduction_ms m)) entry).

Definition record_progress (count : Z) (entry : IndexEntry) : IndexEntry * bool :=
  mark_dirty (update_metrics (fun m =>
    MkMetrics (raw_output_bytes m) (bep_bytes m) (bep_events m) (model_visible_bytes m)
      (u64_add (progress_notifications m) count) (inspect_calls m)
      (queue_ms m) (output_base_lock_wait_ms m) (bazel_wall_ms m) (reduction_ms m)) entry).

(** The index part of [record_model_visible_result] and
    [record_progress_notifications]: the index and whether to schedule a flush. *)
Definition record_telemetry (record : IndexEntry → IndexEntry * bool) (index : Index) (id : InvocationId)
    : result StoreError (Index * bool) :=
  match entries index !! id with
  | None => Err (NotFound id)
  | Some entry =>
      let '(entry, schedule) := record entry in
      Ok (set_entries <[id := entry]> index, schedule)
  end.

(** The end of [flush_telemetry_once], after the manifest was written with the
    metrics of [generation]: the index and whether the entry is clean. *)
Definition commit_flush (index : Index) (id : InvocationId) (generation retained : Z) : Index * bool :=
  match entries index !! id with
  | None => (index, true)
  | Some entry =>
      let clean := telemetry_generation entry =? generation in
      let entry' := MkEntry (entry_record entry) (entry_deferred entry) retained
                      (telemetry_generation entry)
                      (if clean then false else telemetry_flush_scheduled entry) in
      (set_retained (fun bytes => u64_add (u64_sub bytes (entry_retained_bytes entry)) retained)
         (set_entries <[id := entry']> index), clean)
  end.

(** ** Filing: a set of keys kept in step with the entries *)

Section filing.
Context (K : InvocationId → IndexEntry → gset (Z * InvocationId)).
Hypothesis Hkey : ∀ id entry key, key ∈ K id entry → key.2 = id.

Definition Filed (m : gmap InvocationId IndexEntry) (filed : gset (Z * InvocationId)) : Prop :=
  ∀ key, key ∈ filed ↔ ∃ id entry, m !! id = Some entry ∧ key ∈ K id entry.

Lemma Filed_insert m filed id entry :
  m !! id = None → Filed m filed → Filed (<[id := entry]> m) (K id entry ∪ filed).
Proof.
  intros Hfresh Hfiled key. rewrite elem_of_union, (Hfiled key). split.
  - intros [Hin | (id' & entry' & Hm & Hin)].
    + exists id, entry. by rewrite lookup_insert_eq.
    + exists id', entry'. rewrite lookup_insert_ne by congruence. done.
  - intros (id' & entry' & Hm & Hin).
    apply lookup_insert_Some in Hm as [[<- <-] | [Hne Hm]]; [by left|right; eauto].
Qed.

Lemma Filed_delete m filed id entry :
  m !! id = Some entry → Filed m filed → Filed (delete id m) (filed ∖ K id entry).
Proof.
  intros Hid Hfiled key. rewrite elem_of_difference, (Hfiled key). split.
  - intros [(id' & entry' & Hm & Hin) Hnot]. exists id', entry'. split; [|done].
    rewrite lookup_delete_ne; [done|]. intros <-. naive_solver.
  - intros (id' & entry' & Hm & Hin). apply lookup_delete_Some in Hm as [Hne Hm].
    split; [eauto|]. intros Hin'. apply Hkey in Hin, Hin'. congruence.
Qed.

Lemma Filed_map (f : InvocationId → IndexEntry → IndexEntry) m m' filed :
  (∀ id, m' !! id = f id <$> m !! id) → (∀ id entry, K id (f id entry) = K id entry) →
  Filed m filed → Filed m' filed.
Proof.
  intros Hm' HK Hfiled key. rewrite (Hfiled key). setoid_rewrite Hm'. split.
  - intros (id & entry & Hm & Hin). exists id, (f id entry). by rewrite Hm, HK.
  - intros (id & entry' & Hm & Hin). apply fmap_Some in Hm as (entry & Hm & ->).
    rewrite HK in Hin. eauto.
Qed.
End filing.

Definition requested_keys (id : InvocationId) (entry : IndexEntry) : gset (Z * InvocationId) :=
  {[requested_key id entry]}.
Definition workspace_keys (w : PathBuf) (id : InvocationId) (entry : IndexEntry)
    : gset (Z * InvocationId) :=
  if decide (entry_workspace entry = w) then {[requested_key id entry]} else ∅.
Definition deferred_keys (id : InvocationId) (entry : IndexEntry) : gset (Z * InvocationId) :=
  match entry_deferred entry with Some deferred => {[(created_at_ms deferred, id)]} | None => ∅ end.
Definition terminal_keys (id : InvocationId) (entry : IndexEntry) : gset (Z * InvocationId) :=
  if entry_terminal entry then {[finished_key id entry]} else ∅.

Lemma requested_keys_id id entry key : key ∈ requested_keys id entry → key.2 = id.
Proof. unfold requested_keys. by intros ->%elem_of_singleton. Qed.
Lemma workspace_keys_id w id entry key : key ∈ workspace_keys w id entry → key.2 = id.
Proof. unfold workspace_keys. case_decide; [by intros ->%elem_of_singleton|set_solver]. Qed.
Lemma deferred_keys_id id entry key : key ∈ deferred_keys id entry → key.2 = id.
Proof. unfold deferred_keys. case_match; [by intros ->%elem_of_singleton|set_solver]. Qed.
Lemma terminal_keys_id id entry key : key ∈ terminal_keys id entry → key.2 = id.
Proof. unfold terminal_keys. case_match; [by intros ->%elem_of_singleton|set_solver]. Qed.

(** ** The byte total *)

Definition total_retained (m : gmap InvocationId IndexEntry) : Z :=
  map_fold (fun _ entry total => entry_retained_bytes entry + total) 0 m.

Lemma total_retained_insert m id entry :
  m !! id = None → total_retained (<[id := entry]> m) = entry_retained_bytes entry + total_retained m.
Proof. intros Hfresh. apply (map_fold_insert_L (fun _ entry total => entry_retained_bytes entry + total)); [intros; lia|done]. Qed.

Lemma total_retained_delete m id entry :
  m !! id = Some entry → total_retained m = entry_retained_bytes entry + total_retained (delete id m).
Proof. intros Hid. apply (map_fold_delete_L (fun _ entry total => entry_retained_bytes entry + total)); [intros; lia|done]. Qed.

Definition Sized (m : gmap InvocationId IndexEntry) : Prop :=
  ∀ id entry, m !! id = Some entry → 0 ≤ entry_retained_bytes entry.

Lemma total_retained_nonneg m : Sized m → 0 ≤ total_retained m.
Proof.
  induction m as [|id entry m Hfresh IH] using map_ind; intros Hsized; [done|].
  rewrite total_retained_insert by done.
  assert (0 ≤ entry_retained_bytes entry) by (eapply Hsized; apply lookup_insert_eq).
  assert (Sized m); [|specialize (IH H0); lia].
  intros id' entry' Hm. eapply (Hsized id'). rewrite lookup_insert_ne; [done|congruence].
Qed.

(** ** The invariant of the index *)

Record IndexOk (index : Index) : Prop := {
  ok_requested : Filed requested_keys (entries index) (by_requested index);
  ok_workspace : ∀ w, Filed (workspace_keys w) (entries index) (default ∅ (by_workspace index !! w));
  ok_workspace_nonempty : ∀ w filed, by_workspace index !! w = Some filed → filed ≠ ∅;
  ok_deferred : Filed deferred_keys (entries index) (deferred_by_created index);
  ok_terminal : Filed terminal_keys (entries index) (terminal_by_finished index);
  ok_sized : Sized (entries index);
  ok_bytes : retained_bytes index = total_retained (entries index);
}.

Lemma default_index_ok : IndexOk default_index.
Proof.
  assert (∀ K, Filed K ∅ ∅).
  { intros K key. setoid_rewrite lookup_empty. set_solver. }
  split; simpl; try done.
Qed.

Lemma insert_entry_ok index id entry :
  IndexOk index → entries index !! id = None → 0 ≤ entry_retained_bytes entry →
  entry_retained_bytes entry + total_retained (entries index) ≤ u64_max →
  IndexOk (insert_entry index id entry).
Proof.
  intros [Hreq Hws Hne Hdef Hter Hsz Hbytes] Hfresh Hentry Hfits. split; simpl.
  - by apply Filed_insert.
  - intros w. destruct (decide (entry_workspace entry = w)) as [<- | Hw].
    + rewrite lookup_insert_eq. simpl.
      pose proof (Filed_insert _ _ _ id entry Hfresh (Hws (entry_workspace entry))) as Hfiled.
      unfold workspace_keys in Hfiled at 2. by rewrite decide_True in Hfiled.
    + rewrite lookup_insert_ne by done.
      pose proof (Filed_insert _ _ _ id entry Hfresh (Hws w)) as Hfiled.
      unfold workspace_keys in Hfiled at 2. rewrite decide_False in Hfiled by done.
      by rewrite union_empty_l_L in Hfiled.
  - intros w filed. destruct (decide (entry_workspace entry = w)) as [<- | Hw].
    + rewrite lookup_insert_eq. intros [= <-]. set_solver.
    + rewrite lookup_insert_ne by done. apply Hne.
  - pose proof (Filed_insert _ _ _ id entry Hfresh Hdef) as Hfiled. unfold deferred_keys in Hfiled at 2.
    destruct (entry_deferred entry); [done|by rewrite union_empty_l_L in Hfiled].
  - pose proof (Filed_insert _ _ _ id entry Hfresh Hter) as Hfiled. unfold terminal_keys in Hfiled at 2.
    destruct (entry_terminal entry); [done|by rewrite union_empty_l_L in Hfiled].
  - intros id' entry' [[<- <-] | [_ Hm]]%lookup_insert_Some; [done|by eapply Hsz].
  - pose proof (total_retained_nonneg _ Hsz).
    rewrite Hbytes, u64_add_exact by lia. rewrite total_retained_insert by done. lia.
Qed.

Lemma remove_present_ok index id entry :
  IndexOk index → entries index !! id = Some entry →
  IndexOk (set_retained (fun bytes => u64_sub bytes (entry_retained_bytes entry))
             (remove_secondary_indexes (set_entries (delete id) index) id entry)).
Proof.
  intros [Hreq Hws Hne Hdef Hter Hsz Hbytes] Hid. split; simpl.
  - apply (Filed_delete requested_keys requested_keys_id); done.
  - intros w. pose proof (Filed_delete _ (workspace_keys_id w) _ _ id entry Hid (Hws w)) as Hfiled.
    unfold workspace_keys in Hfiled at 2. case_decide as Hw.
    + subst w. destruct (by_workspace index !! entry_workspace entry) as [filed|] eqn:Hf; simpl in Hfiled.
      * case_decide as Hempty; [rewrite lookup_delete_eq|rewrite lookup_insert_eq]; simpl;
          [by rewrite Hempty in Hfiled|done].
      * rewrite Hf. simpl.
        assert (Hnil : (∅ : gset (Z * Z)) ∖ {[requested_key id entry]} = ∅) by set_solver.
        by rewrite Hnil in Hfiled.
    + rewrite difference_empty_L in Hfiled.
      destruct (by_workspace index !! entry_workspace entry) as [filed|]; [|done].
      case_decide; [by rewrite lookup_delete_ne|by rewrite lookup_insert_ne].
  - intros w filed. destruct (by_workspace index !! entry_workspace entry) as [filed'|] eqn:Hf; [|apply Hne].
    case_decide as Hempty.
    + intros [_ Hm]%lookup_delete_Some. by eapply Hne.
    + intros [[<- <-] | [_ Hm]]%lookup_insert_Some; [done|by eapply Hne].
  - pose proof (Filed_delete _ deferred_keys_id _ _ id entry Hid Hdef) as Hfiled.
    unfold deferred_keys in Hfiled at 2.
    destruct (entry_deferred entry); [done|by rewrite difference_empty_L in Hfiled].
  - pose proof (Filed_delete _ terminal_keys_id _ _ id entry Hid Hter) as Hfiled.
    unfold terminal_keys in Hfiled at 2.
    destruct (entry_terminal entry); [done|by rewrite difference_empty_L in Hfiled].
  - intros id' entry' [_ Hm]%lookup_delete_Some. by eapply Hsz.
  - assert (Sized (delete id (entries index))).
    { intros id' entry' [_ Hm]%lookup_delete_Some. by eapply Hsz. }
    pose proof (total_retained_nonneg _ H). pose proof (total_retained_delete _ _ _ Hid).
    rewrite Hbytes, u64_sub_exact by lia. lia.
Qed.

Lemma remove_entry_ok index id : IndexOk index → IndexOk (remove_entry index id).
Proof.
  intros Hok. unfold remove_entry. destruct (entries index !! id) eqn:Hid; [|done].
  by apply remove_present_ok.
Qed.

(** The bytes of the entries other than [id]. *)
Definition others_retained (index : Index) (id : InvocationId) : Z :=
  total_retained (delete id (entries index)).

Lemma replace_entry_ok index id entry :
  IndexOk index → 0 ≤ entry_retained_bytes entry →
  entry_retained_bytes entry + others_retained index id ≤ u64_max →
  IndexOk (replace_entry index id entry).
Proof.
  intros Hok Hentry Hfits. unfold replace_entry, others_retained in *.
  destruct (entries index !! id) as [previous|] eqn:Hid.
  - apply insert_entry_ok; [by apply remove_present_ok|simpl; apply lookup_delete_eq|done|done].
  - rewrite delete_id in Hfits by done. by apply insert_entry_ok.
Qed.

(** A rewriting of the entries that changes no key, and one that changes no size. *)
Definition SameKeys (f : InvocationId → IndexEntry → IndexEntry) : Prop :=
  ∀ id entry,
    requested_key id (f id entry) = requested_key id entry ∧
    entry_workspace (f id entry) = entry_workspace entry ∧
    entry_deferred (f id entry) = entry_deferred entry ∧
    entry_terminal (f id entry) = entry_terminal entry ∧
    finished_key id (f id entry) = finished_key id entry.

Definition SameSizes (f : InvocationId → IndexEntry → IndexEntry) : Prop :=
  ∀ id entry, entry_retained_bytes (f id entry) = entry_retained_bytes entry.

Lemma total_retained_map (f : InvocationId → IndexEntry → IndexEntry) m m' :
  (∀ id, m' !! id = f id <$> m !! id) →
  SameSizes f → total_retained m' = total_retained m.
Proof.
  revert m'. induction m as [|id entry m Hfresh IH] using map_ind; intros m' Hm' Hf.
  { assert (m' = ∅) as ->; [|done]. apply map_eq. intros id. by rewrite Hm', lookup_empty. }
  assert (Hid : m' !! id = Some (f id entry)) by (by rewrite Hm', lookup_insert_eq).
  rewrite (total_retained_delete m' id (f id entry) Hid), total_retained_insert, Hf by done.
  f_equal. apply IH; [|done]. intros id'. destruct (decide (id' = id)) as [-> | Hne].
  - by rewrite lookup_delete_eq, Hfresh.
  - rewrite lookup_delete_ne, Hm', lookup_insert_ne by congruence. done.
Qed.

Lemma rewrite_keys_ok f index index' :
  SameKeys f → (∀ id, entries index' !! id = f id <$> entries index !! id) →
  by_requested index' = by_requested index → by_workspace index' = by_workspace index →
  deferred_by_created index' = deferred_by_created index →
  terminal_by_finished index' = terminal_by_finished index →
  Sized (entries index') → retained_bytes index' = total_retained (entries index') →
  IndexOk index → IndexOk index'.
Proof.
  intros Hf Hm Hr Hw Hd Ht Hsz' Hb [Hreq Hws Hne Hdef Hter Hsz Hbytes].
  split; rewrite ?Hr, ?Hw, ?Hd, ?Ht; try done.
  - eapply Filed_map; [exact Hm| |done]. intros id entry. unfold requested_keys.
    destruct (Hf id entry) as (-> & _). done.
  - intros w. eapply Filed_map; [exact Hm| |apply Hws]. intros id entry. unfold workspace_keys.
    destruct (Hf id entry) as (-> & -> & _). done.
  - eapply Filed_map; [exact Hm| |done]. intros id entry. unfold deferred_keys.
    destruct (Hf id entry) as (_ & _ & -> & _). done.
  - eapply Filed_map; [exact Hm| |done]. intros id entry. unfold terminal_keys.
    destruct (Hf id entry) as (_ & _ & _ & -> & ->). done.
Qed.

Lemma rewrite_entries_ok f index index' :
  SameKeys f → SameSizes f → (∀ id, entries index' !! id = f id <$> entries index !! id) →
  by_requested index' = by_requested index → by_workspace index' = by_workspace index →
  deferred_by_created index' = deferred_by_created index →
  terminal_by_finished index' = terminal_by_finished index →
  retained_bytes index' = retained_bytes index → IndexOk index → IndexOk index'.
Proof.
  intros Hf Hs Hm ? ? ? ? Hb Hok. eapply rewrite_keys_ok; try done.
  - intros id entry' Hid. rewrite Hm in Hid. apply fmap_Some in Hid as (entry & Hid & ->).
    rewrite Hs. by eapply (ok_sized _ Hok).
  - rewrite Hb, (ok_bytes _ Hok). symmetry. by eapply total_retained_map.
Qed.

(** Rewriting the one entry [id]. *)
Lemma lookup_rewrite_one (g : IndexEntry → IndexEntry) (m : gmap InvocationId IndexEntry) id entry id' :
  m !! id = Some entry →
  <[id := g entry]> m !! id' = (fun e => if decide (id' = id) then g e else e) <$> m !! id'.
Proof.
  intros Hid. case_decide.
  - subst id'. by rewrite lookup_insert_eq, Hid.
  - rewrite lookup_insert_ne by congruence. by destruct (m !! id').
Qed.

(** A rewriting of one entry that only touches metrics and telemetry state. *)
Definition TelemetryOnly (g : IndexEntry → IndexEntry) : Prop :=
  ∀ entry, (∃ f, entry_record (g entry) = set_metrics f (entry_record entry)) ∧
    entry_deferred (g entry) = entry_deferred entry.

Lemma set_metrics_id h : set_metrics (fun m => m) h = h.
Proof. by destruct h. Qed.

Lemma SameKeys_one g id :
  TelemetryOnly g → SameKeys (fun id' e => if decide (id' = id) then g e else e).
Proof.
  intros Hg id' entry. case_decide; [|done]. destruct (Hg entry) as ((f & Hrec) & Hdef).
  unfold requested_key, entry_workspace, entry_terminal, finished_key. by rewrite Hrec.
Qed.

Lemma rewrite_entry_ok g index id entry :
  IndexOk index → entries index !! id = Some entry → TelemetryOnly g →
  (∀ e, entry_retained_bytes (g e) = entry_retained_bytes e) →
  IndexOk (set_entries <[id := g entry]> index).
Proof.
  intros Hok Hid Hg Hs. eapply rewrite_entries_ok;
    [by apply SameKeys_one| |intros id'; by apply lookup_rewrite_one|done..].
  intros id' e. simpl. by case_decide.
Qed.

Lemma record_telemetry_ok record index id index' schedule :
  (∃ bytes inspection, record = record_model_visible bytes inspection) ∨
  (∃ count, record = record_progress count) →
  IndexOk index → record_telemetry record index id = Ok (index', schedule) → IndexOk index'.
Proof.
  intros Hrecord Hok. unfold record_telemetry. destruct (entries index !! id) as [entry|] eqn:Hid; [|done].
  assert (Heq : record entry = ((record entry).1, (record entry).2)) by (by destruct (record entry)).
  rewrite Heq. intros [= <- _]. apply (rewrite_entry_ok (fun e => (record e).1)); [done|done|..].
  - intros e. destruct Hrecord as [(bytes & inspection & ->) | (count & ->)]; (split; [by eexists|done]).
  - intros e. by destruct Hrecord as [(bytes & inspection & ->) | (count & ->)].
Qed.

Lemma mark_telemetry_flushed_ok index id generation :
  IndexOk index → IndexOk (mark_telemetry_flushed index id generation).
Proof.
  intros Hok. unfold mark_telemetry_flushed. destruct (entries index !! id) as [entry|] eqn:Hid; [|done].
  case_match; [|done]. apply (rewrite_entry_ok (set_flush_scheduled false)); [done|done| |done].
  intros e. split; [|done]. exists (fun m => m). by rewrite set_metrics_id.
Qed.

Lemma merge_pending_telemetry_ok previous refreshed :
  IndexOk refreshed → IndexOk (merge_pending_telemetry previous refreshed).
Proof.
  apply (rewrite_entries_ok (fun id entry => match entries previous !! id with
           | Some previous_entry => keep_telemetry previous_entry entry | None => entry end)); try done.
  - intros id entry. by destruct (entries previous !! id).
  - intros id entry. by destruct (entries previous !! id).
  - intros id. simpl. rewrite map_lookup_imap. by destruct (entries refreshed !! id).
Qed.

Lemma commit_flush_ok index id generation retained :
  IndexOk index → 0 ≤ retained → retained + others_retained index id ≤ u64_max →
  IndexOk (commit_flush index id generation retained).1.
Proof.
  intros Hok Hretained Hfits. unfold commit_flush, others_retained in *.
  destruct (entries index !! id) as [entry|] eqn:Hid; [|done]. simpl.
  set (g := fun e => MkEntry (entry_record e) (entry_deferred e) retained (telemetry_generation e)
    (if telemetry_generation e =? generation then false else telemetry_flush_scheduled e)).
  pose proof (ok_sized _ Hok) as Hsz. pose proof (total_retained_delete _ _ _ Hid) as Htotal.
  assert (Hsz' : Sized (delete id (entries index))).
  { intros id' e [_ Hm]%lookup_delete_Some. by eapply Hsz. }
  pose proof (total_retained_nonneg _ Hsz'). pose proof (Hsz _ _ Hid).
  apply (rewrite_keys_ok (fun id' e => if decide (id' = id) then g e else e) index); try done.
  - apply SameKeys_one. intros e. split; [|done]. exists (fun m => m). by rewrite set_metrics_id.
  - intros id'. by apply (lookup_rewrite_one g).
  - simpl. intros id' e [[<- <-] | [_ Hm]]%lookup_insert_Some; [done|by eapply Hsz].
  - simpl. rewrite <- insert_delete_eq, total_retained_insert by apply lookup_delete_eq. simpl.
    rewrite (ok_bytes _ Hok), u64_sub_exact, u64_add_exact by lia. lia.
Qed.

(** ** The index over its life *)

(** The operations of the store on its index. *)
Inductive IndexOp : Type :=
| OpInsert (id : InvocationId) (entry : IndexEntry)
| OpReplace (id : InvocationId) (entry : IndexEntry)
| OpRemove (id : InvocationId)
| OpModelVisible (id : InvocationId) (bytes : Z) (inspection : bool)
| OpProgress (id : InvocationId) (count : Z)
| OpMarkFlushed (id : InvocationId) (generation : Z)
| OpCommitFlush (id : InvocationId) (generation retained : Z).

Definition telemetry_index (outcome : result StoreError (Index * bool)) (index : Index) : Index :=
  match outcome with Ok (index, _) => index | Err _ => index end.

Definition run_op (op : IndexOp) (index : Index) : Index :=
  match op with
  | OpInsert id entry => insert_entry index id entry
  | OpReplace id entry => replace_entry index id entry
  | OpRemove id => remove_entry index id
  | OpModelVisible id bytes inspection =>
      telemetry_index (record_telemetry (record_model_visible bytes inspection) index id) index
  | OpProgress id count => telemetry_index (record_telemetry (record_progress count) index id) index
  | OpMarkFlushed id generation => mark_telemetry_flushed index id generation
  | OpCommitFlush id generation retained => (commit_flush index id generation retained).1
  end.

(** When the store runs an operation: an insertion is of a new identifier, and
    the evidence kept never exceeds 2^64 - 1 bytes. *)
Definition op_allowed (op : IndexOp) (index : Index) : Prop :=
  match op with
  | OpInsert id entry =>
      entries index !! id = None ∧ 0 ≤ entry_retained_bytes entry ∧
      entry_retained_bytes entry + total_retained (entries index) ≤ u64_max
  | OpReplace id entry =>
      0 ≤ entry_retained_bytes entry ∧ entry_retained_bytes entry + others_retained index id ≤ u64_max
  | OpCommitFlush id _ retained => 0 ≤ retained ∧ retained + others_retained index id ≤ u64_max
  | _ => True
  end.

Inductive index_reachable : Index → Prop :=
| reachable_default : index_reachable default_index
| reachable_op op index : index_reachable index → op_allowed op index → index_reachable (run_op op index)
| reachable_refresh previous refreshed :
    index_reachable previous → index_reachable refreshed →
    index_reachable (replace_from_disk previous refreshed).

(** Whatever the store does to its index (inserting, replacing and removing
    entries, accumulating and flushing telemetry, replacing the index by one
    loaded from disk), the four secondary indexes list exactly the entries they
    should, no workspace keeps an empty set, and the byte total is the sum of
    the bytes of the entries. *)
Theorem index_invariant index (Hreachable : index_reachable index) : IndexOk index.
Proof.
  induction Hreachable as [|op index _ IH Hallowed|previous refreshed _ _ _ IH].
  - apply default_index_ok.
  - destruct op; simpl in *.
    + apply insert_entry_ok; tauto.
    + apply replace_entry_ok; tauto.
    + by apply remove_entry_ok.
    + destruct (record_telemetry _ index id) as [[index' schedule]|] eqn:Hrecord; [|done].
      eapply record_telemetry_ok; [left; eauto|done|done].
    + destruct (record_telemetry _ index id) as [[index' schedule]|] eqn:Hrecord; [|done].
      eapply record_telemetry_ok; [right; eauto|done|done].
    + by apply mark_telemetry_flushed_ok.
    + apply commit_flush_ok; tauto.
  - by apply merge_pending_telemetry_ok.
Qed.

Module IndexExamples.
Definition example_entry (id now : Z) : IndexEntry :=
  MkEntry (header_from_record (queued (new_request id now "/w" Build []))) None 10 0 false.

Lemma index_invariant_witness :
  let index := run_op (OpRemove 1) (run_op (OpInsert 2 (example_entry 2 5))
                 (run_op (OpInsert 1 (example_entry 1 4)) default_index)) in
  retained_bytes index = 10 ∧ IndexOk index.
Proof.
  intros index. split; [vm_compute; reflexivity|].
  apply index_invariant. do 3 (apply reachable_op; [|split_and?; vm_compute; try done]).
  apply reachable_default.
Defined.
End IndexExamples.
