(* ===== verification/Telemetry.v ===== *)
(** * Telemetry flushing (crates/bazel-mcp-store/src/telemetry.rs)

    Telemetry is accumulated in the index under the index lock alone, while
    [flush_telemetry_once] and the metadata mutations of storage.rs copy it to
    the manifest under the mutation lock of the invocation, in separate steps.
    Recording may therefore interleave with every step of a flush or of a
    mutation; the generation counter is what keeps an update from being lost.
    This file models the steps for one invocation and proves that. *)

From S2P Require Import Prelude Types Record Index.

(** ** The order on telemetry *)

(** The three counters that are accumulated in memory. *)
Definition metrics_le (a b : InvocationMetrics) : Prop :=
  model_visible_bytes a ≤ model_visible_bytes b ∧
  progress_notifications a ≤ progress_notifications b ∧ inspect_calls a ≤ inspect_calls b.

#[export] Instance metrics_le_preorder : PreOrder metrics_le.
Proof. split; [intros a|intros a b c]; unfold metrics_le; lia. Qed.

Lemma merge_telemetry_l source destination : metrics_le source (merge_telemetry source destination).
Proof. unfold metrics_le, merge_telemetry. simpl. lia. Qed.

Lemma merge_telemetry_r source destination : metrics_le destination (merge_telemetry source destination).
Proof. unfold metrics_le, merge_telemetry. simpl. lia. Qed.

Lemma merge_telemetry_lub source destination bound :
  metrics_le source bound → metrics_le destination bound →
  metrics_le (merge_telemetry source destination) bound.
Proof. unfold metrics_le, merge_telemetry. simpl. lia. Qed.

(** ** The system *)

(** The mutation lock of the invocation, and what its holder has read. *)
Inductive Phase : Type :=
| Unlocked
| FlushRead (metrics : InvocationMetrics) (generation : Z)
| FlushWritten (generation : Z)
| MutateRead (durable : DurableRecord) (generation : Z)
| MutateWritten (durable : DurableRecord) (generation : Z).

Record System : Type := MkSystem {
  sys_index : Index;
  sys_manifest : InvocationMetrics;
  sys_phase : Phase;
}.

Definition durable_metrics (durable : DurableRecord) : InvocationMetrics :=
  header_metrics (durable_invocation durable).

Inductive recorder : (IndexEntry → IndexEntry * bool) → Prop :=
| recorder_visible bytes inspection : 0 ≤ bytes → recorder (record_model_visible bytes inspection)
| recorder_progress count : 0 ≤ count → recorder (record_progress count).

(** One step of the program, for the invocation [id]. *)
Inductive step (id : InvocationId) : System → System → Prop :=
(** [record_model_visible_result] and [record_progress_notifications]; the
    generation counter has not reached the end of its range. *)
| step_record record index index' manifest phase schedule entry :
    recorder record → entries index !! id = Some entry → telemetry_generation entry < u64_max →
    record_telemetry record index id = Ok (index', schedule) →
    step id (MkSystem index manifest phase) (MkSystem index' manifest phase)
(** [flush_telemetry_once] reads the metrics and the generation ... *)
| step_flush_read index manifest entry :
    entries index !! id = Some entry → telemetry_flush_scheduled entry = true →
    step id (MkSystem index manifest Unlocked)
      (MkSystem index manifest (FlushRead (entry_metrics entry) (telemetry_generation entry)))
(** ... merges them into the manifest ... *)
| step_flush_write index manifest metrics generation :
    step id (MkSystem index manifest (FlushRead metrics generation))
      (MkSystem index (merge_telemetry metrics manifest) (FlushWritten generation))
(** ... and commits, clearing the flag only if nothing was recorded since. *)
| step_flush_commit index manifest generation retained :
    step id (MkSystem index manifest (FlushWritten generation))
      (MkSystem (commit_flush index id generation retained).1 manifest Unlocked)
(** [mutate], [transition] and [finish_invocation] merge the telemetry of the
    index into the record they will write ... *)
| step_mutate_read index manifest durable base generation metrics :
    merge_index_telemetry index id base = (metrics, generation) → durable_metrics durable = metrics →
    step id (MkSystem index manifest Unlocked) (MkSystem index manifest (MutateRead durable generation))
(** ... write it ... *)
| step_mutate_write index manifest durable generation :
    step id (MkSystem index manifest (MutateRead durable generation))
      (MkSystem index (durable_metrics durable) (MutateWritten durable generation))
(** ... and replace the index entry. *)
| step_mutate_commit index manifest durable generation retained :
    step id (MkSystem index manifest (MutateWritten durable generation))
      (MkSystem
         (mark_telemetry_flushed (replace_entry index id (index_entry durable retained)) id generation)
         manifest Unlocked).

Inductive steps (id : InvocationId) : System → System → Prop :=
| steps_refl s : steps id s s
| steps_step s s' s'' : steps id s s' → step id s' s'' → steps id s s''.

(** ** The invariant *)

(** Nothing recorded in [entry] is missing from [bound], unless it was recorded
    after [generation] and a flush is scheduled for it. *)
Definition Covered (entry : IndexEntry) (generation : Z) (bound : InvocationMetrics) : Prop :=
  generation ≤ telemetry_generation entry ∧
  (telemetry_generation entry = generation → metrics_le (entry_metrics entry) bound) ∧
  (telemetry_generation entry ≠ generation → telemetry_flush_scheduled entry = true).

Definition PhaseOk (entry : IndexEntry) (manifest : InvocationMetrics) (phase : Phase) : Prop :=
  match phase with
  | Unlocked => True
  | FlushRead metrics generation =>
      telemetry_flush_scheduled entry = true ∧ Covered entry generation metrics
  | FlushWritten generation =>
      telemetry_flush_scheduled entry = true ∧ Covered entry generation manifest
  | MutateRead durable generation => Covered entry generation (durable_metrics durable)
  | MutateWritten durable generation =>
      manifest = durable_metrics durable ∧ Covered entry generation manifest
  end.

Definition SystemOk (id : InvocationId) (s : System) : Prop :=
  ∃ entry, entries (sys_index s) !! id = Some entry ∧
    (telemetry_flush_scheduled entry = false → metrics_le (entry_metrics entry) (sys_manifest s)) ∧
    PhaseOk entry (sys_manifest s) (sys_phase s).

Lemma recorder_spec record entry :
  recorder record → telemetry_generation entry < u64_max →
  telemetry_flush_scheduled (record entry).1 = true ∧
  telemetry_generation (record entry).1 = telemetry_generation entry + 1.
Proof.
  intros Hrecorder Hgeneration.
  destruct Hrecorder; simpl; (split; [done|]); unfold u64_add; lia.
Qed.

(** Recording keeps every cover: the entry moves past the generation. *)
Lemma Covered_record record entry generation bound :
  recorder record → telemetry_generation entry < u64_max →
  Covered entry generation bound → Covered (record entry).1 generation bound.
Proof.
  intros Hrecorder Hmax (Hle & _). destruct (recorder_spec _ _ Hrecorder Hmax) as [Hscheduled Hgen].
  unfold Covered. rewrite Hgen. split_and!; [lia|lia|done].
Qed.

Lemma Covered_le entry generation bound bound' :
  metrics_le bound bound' → Covered entry generation bound → Covered entry generation bound'.
Proof. intros Hle (? & Hcover & ?). split_and!; [done| |done]. intros Heq. etransitivity; eauto. Qed.

Lemma step_preserves id s s' : SystemOk id s → step id s s' → SystemOk id s'.
Proof.
  intros (entry & Hentry & Hclean & Hphase) Hstep.
  destruct Hstep as [record index index' manifest phase schedule e Hrecorder He Hmax Hrecord
    |index manifest e He Hscheduled|index manifest metrics generation|index manifest generation retained
    |index manifest durable base generation metrics Hmerge Hdurable|index manifest durable generation
    |index manifest durable generation retained]; simpl in *.
  - (* record *) simplify_eq. unfold record_telemetry in Hrecord. rewrite Hentry in Hrecord.
    pose proof (recorder_spec _ _ Hrecorder Hmax) as [Hscheduled _].
    pose proof (Covered_record record entry) as Hcovered.
    destruct (record entry) as [entry' schedule'] eqn:Hrec. injection Hrecord as <- <-. simpl in *.
    exists entry'. simpl. rewrite lookup_insert_eq. split_and!; [done|congruence|].
    destruct phase; simpl in *; naive_solver.
  - (* flush_read *) simplify_eq. exists entry. split_and!; done.
  - (* flush_write *) exists entry. destruct Hphase as [Hscheduled Hcovered]. split_and!; try done.
    + congruence.
    + split; [done|]. eapply Covered_le; [|done]. apply merge_telemetry_l.
  - (* flush_commit *) destruct Hphase as [Hscheduled (Hle & Hcover & _)].
    unfold commit_flush. rewrite Hentry. simpl. eexists.
    split_and!; [simpl; apply lookup_insert_eq| |done]. simpl. destruct (Z.eqb_spec (telemetry_generation entry) generation); [|congruence].
    intros _. by apply Hcover.
  - (* mutate_read *) exists entry. split_and!; try done. simpl.
    unfold merge_index_telemetry in Hmerge. rewrite Hentry in Hmerge. injection Hmerge as <- <-.
    split_and!; [done| |done]. intros _. rewrite Hdurable. apply merge_telemetry_l.
  - (* mutate_write *) exists entry. destruct Hphase as (Hle & Hcover & Hother). split_and!; try done.
    intros Hfalse. apply Hcover. destruct (decide (telemetry_generation entry = generation)); [done|].
    rewrite Hother in Hfalse; done.
  - (* mutate_commit *) destruct Hphase as (-> & Hle & Hcover & Hother).
    assert (Hreplaced : entries (replace_entry index id (index_entry durable retained)) !! id
                        = Some (keep_telemetry entry (index_entry durable retained))).
    { unfold replace_entry. rewrite Hentry. simpl. apply lookup_insert_eq. }
    unfold mark_telemetry_flushed. rewrite Hreplaced. cbn [telemetry_generation keep_telemetry].
    assert (Hmerged : telemetry_generation entry = generation →
      metrics_le (entry_metrics (keep_telemetry entry (index_entry durable retained))) (durable_metrics durable)).
    { intros Heq. apply merge_telemetry_lub; [by apply Hcover|done]. }
    destruct (Z.eqb_spec (telemetry_generation entry) generation) as [Heq | Hne].
    + eexists. split_and!; [simpl; apply lookup_insert_eq| |done]. intros _. by apply Hmerged.
    + exists (keep_telemetry entry (index_entry durable retained)). split_and!; [done| |done].
      simpl. rewrite Hother by done. done.
Qed.


Module TelemetryExamples.
Definition start_index : Index :=
  insert_entry default_index 1 (IndexExamples.example_entry 1 4).
Definition after_record : Index :=
  telemetry_index (record_telemetry (record_model_visible 7 true) start_index 1) start_index.

End TelemetryExamples.
