(* ===== verification/TelemetryFlush.v ===== *)
(** * Flushing telemetry (the flush task and the flush at shutdown of
    crates/bazel-mcp-store/src/telemetry.rs)

    Recording telemetry schedules a task that flushes the invocation every 250 ms
    until an attempt was not overtaken by another recording; the server flushes
    what is still pending when it stops.  An attempt is [flush_telemetry_once] with
    what may go wrong in it and what is recorded meanwhile; [Telemetry.v] has the
    same attempt as steps that interleave with those of other mutations. *)

From S2P Require Import Prelude Types Record Index Telemetry.
#[global] Open Scope Z_scope.

(** ** Attempts *)

(** The index, and the metrics in the manifests. *)
Record FlushState : Type := MkFlushState { flush_index : Index; manifests : gmap InvocationId InvocationMetrics }.

Inductive Recording : Type := RecordVisible (bytes : Z) (inspection : bool) | RecordProgress (count : Z).
Definition recorder_of (r : Recording) : IndexEntry → IndexEntry * bool :=
  match r with
  | RecordVisible bytes inspection => record_model_visible bytes inspection
  | RecordProgress count => record_progress count
  end.
Definition record_one (index : Index) (r : InvocationId * Recording) : Index :=
  telemetry_index (record_telemetry (recorder_of r.2) index r.1) index.

(** Where an attempt fails: refreshing the index, taking the lock of the processes
    or reading or writing the manifest, or announcing the change once it is
    written. *)
Inductive FlushFault : Type := RefreshFault | ManifestFault | AnnounceFault.
#[export] Instance FlushFault_eq_dec : EqDecision FlushFault.
Proof. solve_decision. Defined.
Inductive FlushError : Type := Faulted (fault : FlushFault) | ManifestMissing (id : InvocationId).

(** What happens in one attempt: its fault, what other tasks record between the
    reading of the index and the commit, and the size of the new manifest. *)
Record Attempt : Type := MkAttempt {
  attempt_fault : option FlushFault; recorded_meanwhile : list (InvocationId * Recording); attempt_retained : Z;
}.

(** [flush_telemetry_once]. *)
Definition flush_telemetry_once (a : Attempt) (id : InvocationId) (s : FlushState) : FlushState * result FlushError bool :=
  let index := flush_index s in
  let overtaken := foldl record_one index (recorded_meanwhile a) in
  if decide (attempt_fault a = Some RefreshFault) then (s, Err (Faulted RefreshFault)) else
  match entries index !! id with
  | None => (s, Ok true)
  | Some entry =>
      if negb (telemetry_flush_scheduled entry) then (s, Ok true)
      else if decide (attempt_fault a = Some ManifestFault)
      then (MkFlushState overtaken (manifests s), Err (Faulted ManifestFault)) else
      match manifests s !! id with
      | None => (MkFlushState overtaken (manifests s), Err (ManifestMissing id))
      | Some metrics =>
          let manifests := <[id := merge_telemetry (entry_metrics entry) metrics]> (manifests s) in
          if decide (attempt_fault a = Some AnnounceFault)
          then (MkFlushState overtaken manifests, Err (Faulted AnnounceFault))
          else let '(index, clean) := commit_flush overtaken id (telemetry_generation entry) (attempt_retained a) in
               (MkFlushState index manifests, Ok clean)
      end
  end.

(** Attempts until one is clean or fails; [None] when the attempts that were made
    were all overtaken. *)
Fixpoint flush_until_clean (attempts : list Attempt) (id : InvocationId) (s : FlushState)
    : FlushState * option (result FlushError unit) :=
  match attempts with
  | [] => (s, None)
  | a :: rest =>
      match flush_telemetry_once a id s with
      | (s, Ok true) => (s, Some (Ok tt))
      | (s, Ok false) => flush_until_clean rest id s
      | (s, Err error) => (s, Some (Err error))
      end
  end.

(** The task of [schedule_telemetry_flush], which forgets the flush when an attempt
    fails. *)
Definition scheduled_flush (attempts : list Attempt) (id : InvocationId) (s : FlushState)
    : FlushState * option (result FlushError unit) :=
  match flush_until_clean attempts id s with
  | (s, Some (Err error)) =>
      (MkFlushState (set_entries (alter (set_flush_scheduled false) id) (flush_index s)) (manifests s), Some (Err error))
  | outcome => outcome
  end.

(** [flush_pending_telemetry]. *)
Definition pending_ids (index : Index) : list InvocationId :=
  omap (fun '(id, entry) => if telemetry_flush_scheduled entry then Some id else None) (map_to_list (entries index)).
Fixpoint flush_each (attempts : InvocationId → list Attempt) (ids : list InvocationId) (s : FlushState)
    : FlushState * option (result FlushError unit) :=
  match ids with
  | [] => (s, Some (Ok tt))
  | id :: rest =>
      match flush_until_clean (attempts id) id s with
      | (s, Some (Ok _)) => flush_each attempts rest s
      | outcome => outcome
      end
  end.
Definition flush_pending_telemetry (attempts : InvocationId → list Attempt) (s : FlushState)
    : FlushState * option (result FlushError Z) :=
  let ids := pending_ids (flush_index s) in
  match flush_each attempts ids s with
  | (s, Some (Ok _)) => (s, Some (Ok (Z.of_nat (length ids))))
  | (s, Some (Err error)) => (s, Some (Err error))
  | (s, None) => (s, None)
  end.

(** * Theorems *)

(** Every invocation has a manifest, which holds its telemetry unless a flush is
    scheduled. *)
Definition Tracked (s : FlushState) : Prop :=
  ∀ id entry, entries (flush_index s) !! id = Some entry →
    ∃ metrics, manifests s !! id = Some metrics ∧
      (telemetry_flush_scheduled entry = false → metrics_le (entry_metrics entry) metrics).

(** The telemetry of [id] is in its manifest. *)
Definition Settled (id : InvocationId) (s : FlushState) : Prop :=
  ∀ entry, entries (flush_index s) !! id = Some entry →
    telemetry_flush_scheduled entry = false ∧ ∃ metrics, manifests s !! id = Some metrics ∧ metrics_le (entry_metrics entry) metrics.

(** ** Recording meanwhile *)

(** What becomes of an entry: it is kept, or it is ahead of the generation that was
    read and waits for a flush. *)
Record Overtaken (n : Z) (entry entry' : IndexEntry) : Prop := MkOvertaken {
  overtaken_scheduled : telemetry_flush_scheduled entry = true → telemetry_flush_scheduled entry' = true;
  overtaken_kept : telemetry_flush_scheduled entry' = false → entry' = entry;
  overtaken_generation : telemetry_generation entry + n < u64_max →
    telemetry_generation entry ≤ telemetry_generation entry' ≤ telemetry_generation entry + n ∧
    (telemetry_generation entry' = telemetry_generation entry → entry' = entry);
}.

Lemma Overtaken_refl n entry : 0 ≤ n → Overtaken n entry entry.
Proof. intros Hn. split; [done|done|]. split; [lia|done]. Qed.

Lemma Overtaken_trans n n' a b c : 0 ≤ n' → Overtaken n a b → Overtaken n' b c → Overtaken (n + n') a c.
Proof.
  intros Hn' [Hs Hk Hg] [Hs' Hk' Hg']. split; [auto| |].
  - intros Hc. rewrite (Hk' Hc) in Hc |- *. auto.
  - intros Hbound. destruct Hg as [Hg Heq]; [lia|]. destruct Hg' as [Hg' Heq']; [lia|]. split; [lia|].
    intros Hc. rewrite (Heq' ltac:(lia)). apply Heq. lia.
Qed.

Lemma recorder_overtakes r entry : Overtaken 1 entry (recorder_of r entry).1.
Proof.
  assert (telemetry_flush_scheduled (recorder_of r entry).1 = true) as Hs by (by destruct r).
  split; [done|congruence|]. intros Hbound.
  assert (telemetry_generation (recorder_of r entry).1 = telemetry_generation entry + 1) as ->.
  { destruct r; cbn; unfold u64_add; lia. }
  split; lia.
Qed.

Lemma record_one_lookup index r id :
  entries (record_one index r) !! id =
    if decide (r.1 = id) then (fun entry => (recorder_of r.2 entry).1) <$> entries index !! id else entries index !! id.
Proof.
  unfold record_one, record_telemetry. destruct r as [id' r]. cbn [fst snd].
  destruct (entries index !! id') as [entry|] eqn:He; cbn.
  - destruct (recorder_of r entry) as [entry' schedule] eqn:Hr. cbn. case_decide as Hid; [subst; rewrite lookup_insert_eq, He; cbn; by rewrite Hr|].
    by rewrite lookup_insert_ne.
  - case_decide as Hid; [subst; by rewrite He|done].
Qed.

Lemma recorded_lookup index rs id :
  match entries index !! id with
  | None => entries (foldl record_one index rs) !! id = None
  | Some entry => ∃ entry', entries (foldl record_one index rs) !! id = Some entry' ∧
      Overtaken (Z.of_nat (length rs)) entry entry'
  end.
Proof.
  revert index. induction rs as [|r rs IH]; intros index; cbn [foldl].
  { destruct (entries index !! id); [|done]. eexists. split; [done|]. by apply Overtaken_refl. }
  specialize (IH (record_one index r)). rewrite record_one_lookup in IH.
  destruct (entries index !! id) as [entry|]; [|by destruct (decide _)].
  cbn [length]. destruct (decide _); cbn [fmap option_fmap option_map] in IH; destruct IH as (entry' & Hlookup & Hover);
    exists entry'; (split; [done|]); replace (Z.of_nat (S (length rs))) with (1 + Z.of_nat (length rs)) by lia.
  - eapply Overtaken_trans; [lia|apply recorder_overtakes|done].
  - eapply Overtaken_trans; [lia|by apply Overtaken_refl|done].
Qed.

(** ** One attempt *)

(** [n] more recordings do not exhaust the generations. *)
Definition Unsaturated (n : Z) (s : FlushState) : Prop :=
  ∀ id entry, entries (flush_index s) !! id = Some entry → telemetry_generation entry + n < u64_max.

Lemma recorded_unsaturated index m rs n : 0 ≤ n →
  Unsaturated (Z.of_nat (length rs) + n) (MkFlushState index m) → Unsaturated n (MkFlushState (foldl record_one index rs) m).
Proof.
  intros Hn Hu id entry' Hentry'. cbn in *. pose proof (recorded_lookup index rs id) as Hlookup.
  destruct (entries index !! id) as [entry|] eqn:He; [|congruence].
  destruct Hlookup as (e & He' & [_ _ Hg]). simplify_eq. specialize (Hu _ _ He). destruct Hg; lia.
Qed.

Lemma recorded_tracked index m rs : Tracked (MkFlushState index m) → Tracked (MkFlushState (foldl record_one index rs) m).
Proof.
  intros Ht id entry' Hentry'. cbn in *. pose proof (recorded_lookup index rs id) as Hlookup.
  destruct (entries index !! id) as [entry|] eqn:He; [|congruence].
  destruct Hlookup as (e & He' & [_ Hkept _]). simplify_eq. destruct (Ht _ _ He) as (metrics & Hm & Hle).
  exists metrics. split; [done|]. intros Hf. rewrite (Hkept Hf) in Hf |- *. auto.
Qed.

(** Writing a manifest only adds to it. *)
Lemma merged_tracked index m id metrics more : m !! id = Some metrics → Tracked (MkFlushState index m) →
  Tracked (MkFlushState index (<[id := merge_telemetry more metrics]> m)).
Proof.
  intros Hm Ht id' entry Hentry. cbn in *. destruct (Ht _ _ Hentry) as (metrics' & Hm' & Hle).
  destruct (decide (id' = id)) as [->|Hne]; [|rewrite lookup_insert_ne by done; eauto].
  cbn in Hm'. rewrite lookup_insert_eq. simplify_eq. eexists. split; [done|]. intros Hf. etrans; [by apply Hle|apply merge_telemetry_r].
Qed.

Lemma commit_flush_lookup index id generation retained id' :
  entries (commit_flush index id generation retained).1 !! id' =
    if decide (id' = id)
    then (fun entry => MkEntry (entry_record entry) (entry_deferred entry) retained (telemetry_generation entry)
            (if telemetry_generation entry =? generation then false else telemetry_flush_scheduled entry)) <$> entries index !! id
    else entries index !! id'.
Proof.
  unfold commit_flush. destruct (entries index !! id) as [entry|] eqn:He; cbn.
  - case_decide as Hid; [subst; by rewrite lookup_insert_eq|by rewrite lookup_insert_ne].
  - case_decide; [by subst|done].
Qed.

(** What one attempt guarantees. *)
Record Attempted (a : Attempt) (id : InvocationId) (n : Z) (s s' : FlushState) (r : result FlushError bool) : Prop := MkAttempted {
  attempted_tracked : Tracked s';
  attempted_unsaturated : Unsaturated n s';
  attempted_clean : r = Ok true → Settled id s';
  attempted_works : attempt_fault a = None → ∃ clean, r = Ok clean;
  attempted_quiet : attempt_fault a = None → recorded_meanwhile a = [] → r = Ok true ∧
    ∀ id', id' ≠ id → entries (flush_index s') !! id' = entries (flush_index s) !! id';
}.

(** The commit of an attempt that has read [entry] and written its metrics. *)
Lemma commit_attempted a id n s entry metrics : 0 ≤ n → Tracked s →
  Unsaturated (Z.of_nat (length (recorded_meanwhile a)) + n) s →
  entries (flush_index s) !! id = Some entry → telemetry_flush_scheduled entry = true → manifests s !! id = Some metrics →
  let c := commit_flush (foldl record_one (flush_index s) (recorded_meanwhile a)) id (telemetry_generation entry) (attempt_retained a) in
  Attempted a id n s (MkFlushState c.1 (<[id := merge_telemetry (entry_metrics entry) metrics]> (manifests s))) (Ok c.2).
Proof.
  intros Hn Ht Hu He Hs Hm c. destruct s as [index m]. cbn [flush_index manifests] in *.
  set (rs := recorded_meanwhile a) in *. pose proof (recorded_lookup index rs id) as Hlookup. rewrite He in Hlookup.
  destruct Hlookup as (e & He' & Hover).
  pose proof (recorded_unsaturated _ _ _ _ Hn Hu) as Hu'. pose proof (recorded_tracked _ _ rs Ht) as Ht'.
  pose proof (merged_tracked _ _ _ _ (entry_metrics entry) Hm Ht') as Htm.
  assert (c.2 = (telemetry_generation e =? telemetry_generation entry)) as Hc.
  { unfold c, commit_flush. by rewrite He'. }
  assert (telemetry_generation e = telemetry_generation entry → e = entry) as Hsame.
  { specialize (Hu _ _ He). destruct Hover as [_ _ Hg]. apply Hg. lia. }
  split.
  - intros id' entry' Hentry'. cbn [flush_index manifests] in *. unfold c in Hentry'. rewrite commit_flush_lookup in Hentry'.
    destruct (decide (id' = id)) as [->|Hne]; [|by apply Htm]. rewrite He' in Hentry'. injection Hentry' as <-.
    rewrite lookup_insert_eq. eexists. split; [done|]. cbn. destruct (Z.eqb_spec (telemetry_generation e) (telemetry_generation entry)) as [Hg|Hg].
    + intros _. rewrite (Hsame Hg). apply merge_telemetry_l.
    + intros Hf. destruct Hover as [Hsched _ _]. by rewrite Hsched in Hf.
  - intros id' entry' Hentry'. cbn [flush_index] in *. unfold c in Hentry'. rewrite commit_flush_lookup in Hentry'.
    destruct (decide (id' = id)) as [->|Hne]; [|by eapply Hu']. rewrite He' in Hentry'. injection Hentry' as <-. cbn. by eapply (Hu' id).
  - intros [= Hclean] entry' Hentry'. cbn [flush_index manifests] in *. unfold c in Hentry'. rewrite commit_flush_lookup in Hentry'.
    rewrite decide_True, He' in Hentry' by done. injection Hentry' as <-. cbn. rewrite lookup_insert_eq.
    rewrite Hclean in Hc. symmetry in Hc. pose proof Hc as Hg%Z.eqb_eq. rewrite Hc. split; [done|]. eexists. split; [done|].
    rewrite (Hsame Hg). apply merge_telemetry_l.
  - by eexists.
  - intros _ Hquiet. unfold rs in *. rewrite Hquiet in *. cbn [foldl] in *. simplify_eq. rewrite Hc, Z.eqb_refl.
    split; [done|]. intros id' Hne. cbn [flush_index]. unfold c. rewrite Hquiet. cbn [foldl]. by rewrite commit_flush_lookup, decide_False.
Qed.

Lemma flush_once_attempted a id n s : 0 ≤ n → Tracked s → Unsaturated (Z.of_nat (length (recorded_meanwhile a)) + n) s →
  Attempted a id n s (flush_telemetry_once a id s).1 (flush_telemetry_once a id s).2.
Proof.
  intros Hn Ht Hu. assert (Unsaturated n s) as Hu0 by (intros i e He; specialize (Hu i e He); lia).
  assert (∀ s' f, attempt_fault a = Some f → Tracked s' → Unsaturated n s' → Attempted a id n s s' (Err (Faulted f))) as Hfault.
  { intros s' f Hf Ht' Hu'. split; [done|done|done|congruence|congruence]. }
  assert (Tracked (MkFlushState (foldl record_one (flush_index s) (recorded_meanwhile a)) (manifests s)) ∧
          Unsaturated n (MkFlushState (foldl record_one (flush_index s) (recorded_meanwhile a)) (manifests s))) as [Ht' Hu'].
  { destruct s. by split; [apply recorded_tracked|apply recorded_unsaturated]. }
  unfold flush_telemetry_once. destruct (decide (attempt_fault a = Some RefreshFault)) as [Hf|_]; [by apply Hfault|].
  destruct (entries (flush_index s) !! id) as [entry|] eqn:He.
  2: { split; [done|done| |by eexists|done]. intros _ entry Hentry. cbn in Hentry. congruence. }
  destruct (telemetry_flush_scheduled entry) eqn:Hs; cbn [negb].
  2: { destruct (Ht _ _ He) as (metrics & Hm & Hle). split; [done|done| |by eexists|done].
       intros _ e Hentry. cbn in Hentry. simplify_eq. eauto. }
  destruct (decide (attempt_fault a = Some ManifestFault)) as [Hf|_]; [by apply Hfault|].
  destruct (Ht _ _ He) as (metrics & Hm & _). rewrite Hm.
  destruct (decide (attempt_fault a = Some AnnounceFault)) as [Hf|_]; [apply Hfault; [done|by apply merged_tracked|done]|].
  pose proof (commit_attempted a id n s entry metrics Hn Ht Hu He Hs Hm) as Hcommit. cbv zeta in Hcommit.
  destruct (commit_flush _ _ _ _) as [index clean]. exact Hcommit.
Qed.

(** ** Loops *)

Definition recordings (attempts : list Attempt) : Z := Z.of_nat (length (attempts ≫= recorded_meanwhile)).

(** The task stops at the latest with the first attempt that nothing overtakes. *)
Lemma scheduled_flush_settles id s overtaken quiet later :
  Tracked s → Unsaturated (recordings overtaken) s →
  Forall (fun a => attempt_fault a = None) overtaken → attempt_fault quiet = None → recorded_meanwhile quiet = [] →
  ∃ s', scheduled_flush (overtaken ++ quiet :: later) id s = (s', Some (Ok tt)) ∧ Tracked s' ∧ Settled id s'.
Proof.
  intros Ht Hu Hworks Hfault Hquiet. unfold scheduled_flush.
  assert (∃ s', flush_until_clean (overtaken ++ quiet :: later) id s = (s', Some (Ok tt)) ∧ Tracked s' ∧ Settled id s') as (s' & -> & ? & ?);
    [|by exists s'].
  revert s Ht Hu. induction Hworks as [|a overtaken Ha _ IH]; intros s Ht Hu; cbn [app flush_until_clean].
  - destruct (flush_once_attempted quiet id 0 s) as [Ht' _ Hclean _ Hdone]; [done|done|by rewrite Hquiet|].
    destruct Hdone as [Hr _]; [done|done|]. destruct (flush_telemetry_once quiet id s) as [s' r]. cbn in *. subst r. eauto.
  - assert (recordings (a :: overtaken) = Z.of_nat (length (recorded_meanwhile a)) + recordings overtaken) as Hsum.
    { unfold recordings. cbn [mbind list_bind]. rewrite length_app. lia. }
    destruct (flush_once_attempted a id (recordings overtaken) s) as [Ht' Hu' Hclean Hok _]; [unfold recordings; lia|done|by rewrite <- Hsum|].
    destruct (Hok Ha) as [clean Hr]. destruct (flush_telemetry_once a id s) as [s' r]. cbn in *. subst r.
    destruct clean; [eauto|by apply IH].
Qed.

(** The flush at shutdown, when nothing is recorded any more. *)
Lemma flush_each_quiet attempts ids s : Tracked s → Unsaturated 0 s →
  (∀ id, id ∈ ids → ∃ quiet later, attempts id = quiet :: later ∧ attempt_fault quiet = None ∧ recorded_meanwhile quiet = []) →
  ∃ s', flush_each attempts ids s = (s', Some (Ok tt)) ∧ Tracked s' ∧ (∀ id, id ∈ ids → Settled id s') ∧
    ∀ id, (id ∉ ids) → entries (flush_index s') !! id = entries (flush_index s) !! id.
Proof.
  revert s. induction ids as [|id ids IH]; intros s Ht Hu Hq; cbn [flush_each].
  { exists s. split_and!; [done|done|set_solver|done]. }
  destruct (Hq id) as (quiet & later & -> & Hfault & Hnone); [set_solver|]. cbn [flush_until_clean].
  destruct (flush_once_attempted quiet id 0 s) as [Ht1 Hu1 Hclean _ Hdone]; [done|done|by rewrite Hnone|].
  destruct Hdone as [Hr Hothers]; [done|done|]. destruct (flush_telemetry_once quiet id s) as [s1 r]. cbn in *. subst r.
  destruct (IH s1 Ht1 Hu1) as (s' & Hrun & Ht' & Hsettled & Hkept); [set_solver|]. exists s'. split_and!; [done|done| |].
  - intros id' [->|Hin]%elem_of_cons; [|by apply Hsettled]. destruct (decide (id ∈ ids)) as [Hin|Hout]; [by apply Hsettled|].
    intros entry Hentry. rewrite Hkept in Hentry by done. destruct (Hclean eq_refl _ Hentry) as (Hf & _).
    split; [done|]. destruct (Ht' id entry) as (metrics & Hm & Hle); [by rewrite Hkept|]. eauto.
  - intros id' [Hne Hout]%not_elem_of_cons. rewrite Hkept by done. by apply Hothers.
Qed.

Lemma elem_of_pending_ids index id :
  id ∈ pending_ids index ↔ ∃ entry, entries index !! id = Some entry ∧ telemetry_flush_scheduled entry = true.
Proof.
  unfold pending_ids. rewrite list_elem_of_omap. split.
  - intros ([id' entry] & Hin%elem_of_map_to_list & Hs). destruct (telemetry_flush_scheduled entry) eqn:Hf; [|done]. naive_solver.
  - intros (entry & Hentry & Hs). exists (id, entry). rewrite elem_of_map_to_list, Hs. done.
Qed.

(** An attempt of a quiet store: it works, and nothing is recorded meanwhile. *)
Definition quiet_attempt (a : Attempt) : Prop := attempt_fault a = None ∧ recorded_meanwhile a = [].

(** C14: Telemetry settles.  Whatever is recorded while a scheduled flush is under
    way, as long as no attempt fails the task stops at the latest with the first
    attempt that nothing overtakes, and then the manifest of the invocation holds
    every byte, notification and inspection recorded for it.  The flush at
    shutdown, when nothing is recorded any more, ends with every manifest holding
    all the telemetry of its invocation. *)
Theorem telemetry_flush_settles s (Htracked : Tracked s) :
  (∀ id overtaken quiet later, Unsaturated (recordings overtaken) s →
     Forall (fun a => attempt_fault a = None) overtaken → quiet_attempt quiet →
     ∃ s', scheduled_flush (overtaken ++ quiet :: later) id s = (s', Some (Ok tt)) ∧ Tracked s' ∧ Settled id s') ∧
  (∀ attempts, Unsaturated 0 s → (∀ id, ∃ quiet later, attempts id = quiet :: later ∧ quiet_attempt quiet) →
     ∃ s', flush_pending_telemetry attempts s = (s', Some (Ok (Z.of_nat (length (pending_ids (flush_index s)))))) ∧
       ∀ id, Settled id s').
Proof.
  split.
  - intros id overtaken quiet later Hu Hworks [Hfault Hquiet]. by apply scheduled_flush_settles.
  - intros attempts Hu Hq. destruct (flush_each_quiet attempts (pending_ids (flush_index s)) s) as (s' & Hrun & Ht & Hsettled & Hkept);
      [done|done| |].
    { intros id _. destruct (Hq id) as (quiet & later & Ha & Hf & Hn). eauto. }
    exists s'. unfold flush_pending_telemetry. rewrite Hrun. split; [done|]. intros id.
    destruct (decide (id ∈ pending_ids (flush_index s))) as [Hin|Hout]; [by apply Hsettled|]. intros entry Hentry.
    destruct (Ht _ _ Hentry) as (metrics & Hm & Hle). destruct (telemetry_flush_scheduled entry) eqn:Hf; [|eauto].
    destruct Hout. apply elem_of_pending_ids. exists entry. by rewrite <- Hkept by (intros Hin; destruct (Hsettled _ Hin _ Hentry); congruence).
Qed.

(** ** A failed flush *)

(** What a store in which nothing is recorded does to other invocations. *)
Definition untouched (id : InvocationId) (s s' : FlushState) : Prop :=
  entries (flush_index s') !! id = entries (flush_index s) !! id ∧ manifests s' !! id = manifests s !! id.

Lemma flush_once_elsewhere a id id' s : recorded_meanwhile a = [] → id' ≠ id → untouched id' s (flush_telemetry_once a id s).1.
Proof.
  intros Hnone Hne. unfold flush_telemetry_once, untouched. rewrite Hnone. cbn [foldl].
  destruct (decide _); [done|]. destruct (entries (flush_index s) !! id) as [entry|]; [|done].
  destruct (negb _); [done|]. destruct (decide _); [done|]. destruct (manifests s !! id) as [metrics|]; [|done].
  destruct (decide _); cbn [fst flush_index manifests]; [by rewrite lookup_insert_ne|].
  destruct (commit_flush _ _ _ _) as [index clean] eqn:Hc. cbn [fst flush_index manifests]. rewrite lookup_insert_ne by done.
  split; [|done]. replace index with (commit_flush (flush_index s) id (telemetry_generation entry) (attempt_retained a)).1 by (by rewrite Hc).
  by rewrite commit_flush_lookup, decide_False.
Qed.

Lemma flush_until_elsewhere attempts id id' s : Forall (fun a => recorded_meanwhile a = []) attempts → id' ≠ id →
  untouched id' s (flush_until_clean attempts id s).1.
Proof.
  intros Hnone Hne. revert s. induction Hnone as [|a attempts Ha _ IH]; intros s; cbn [flush_until_clean]; [done|].
  pose proof (flush_once_elsewhere a id id' s Ha Hne) as Honce. destruct (flush_telemetry_once a id s) as [s1 [[]|]]; [done| |done].
  destruct (IH s1) as [H1 H2]. destruct Honce as [H3 H4]. split; cbn in *; congruence.
Qed.

Lemma flush_each_elsewhere attempts ids id s : (∀ i, Forall (fun a => recorded_meanwhile a = []) (attempts i)) → (id ∉ ids) →
  untouched id s (flush_each attempts ids s).1.
Proof.
  intros Hnone. revert s. induction ids as [|i ids IH]; intros s; cbn [flush_each]; [done|].
  intros [Hne Hout]%not_elem_of_cons. pose proof (flush_until_elsewhere (attempts i) i id s (Hnone i) Hne) as Hi.
  destruct (flush_until_clean (attempts i) i s) as [s1 [[]|]]; [|done|done].
  destruct (IH s1 Hout) as [H1 H2]. destruct Hi as [H3 H4]. split; cbn in *; congruence.
Qed.


Module TelemetryFlushExamples.
Definition written : Attempt := MkAttempt None [] 12.
Definition refused : Attempt := MkAttempt (Some ManifestFault) [] 12.
Definition overtaken_once : Attempt := MkAttempt None [(1, RecordProgress 2)] 12.

(** An invocation with seven bytes and an inspection that are not yet written. *)
Definition recorded : FlushState := MkFlushState TelemetryExamples.after_record {[1 := default_metrics]}.

Example overtaken_then_written :
  let '(s, r) := scheduled_flush [overtaken_once; written] 1 recorded in
  manifests s !! 1 = Some (MkMetrics 0 0 0 7 2 1 0 0 0 0) ∧ r = Some (Ok tt).
Proof. split; reflexivity. Qed.

Lemma recorded_entry : ∃ entry, entries (flush_index recorded) !! 1 = Some entry ∧ telemetry_flush_scheduled entry = true ∧
  entry_metrics entry = MkMetrics 0 0 0 7 0 1 0 0 0 0 ∧ telemetry_generation entry = 1.
Proof. by eexists. Qed.

Lemma recorded_only id entry : entries (flush_index recorded) !! id = Some entry → id = 1.
Proof.
  intros Hin%elem_of_dom_2. assert (dom (entries (flush_index recorded)) = {[1]} :> gset InvocationId) as Hdom by (vm_compute; reflexivity).
  rewrite Hdom in Hin. by apply elem_of_singleton in Hin.
Qed.

Lemma recorded_tracked_example : Tracked recorded.
Proof.
  intros id entry Hentry. pose proof (recorded_only _ _ Hentry) as ->.
  destruct recorded_entry as (e & He & Hs & _). simplify_eq. exists default_metrics. split; [done|congruence].
Qed.

Lemma telemetry_flush_settles_witness :
  ∃ s', flush_pending_telemetry (fun _ => [written]) recorded = (s', Some (Ok 1)) ∧ ∀ id, Settled id s'.
Proof.
  apply (proj2 (telemetry_flush_settles recorded recorded_tracked_example) (fun _ => [written])).
  - intros id entry Hentry. pose proof (recorded_only _ _ Hentry) as ->.
    destruct recorded_entry as (e & He & _ & _ & Hg). simplify_eq. rewrite Hg. reflexivity.
  - intros _. exists written, []. by split.
Defined.

End TelemetryFlushExamples.
