(* ===== verification/Store.v ===== *)
(** * The invocation store (crates/bazel-mcp-store/src/storage.rs,
    manifest_repository.rs, deferred_repository.rs, invocation_repository.rs and
    recovery.rs)

    The store keeps one directory of evidence per invocation on disk, with a
    manifest and a detail sidecar, and the in-memory index of [Index.v].  Every
    operation below is one the store runs under the mutation lock of its
    invocation.  The lengths of the serialised files are an interface, and of
    the failures of the file system only the missing manifest is modelled. *)

From S2P Require Import Prelude Types Record Index.

(** ** Files *)

(** The evidence directory of an invocation; [raw_bytes] is the size of its
    captured output, event log and test logs together. *)
Record Evidence : Type := MkEvidence {
  manifest : DurableRecord;
  details_file : option InvocationDetails;
  artifacts_file : option (list Artifact);
  raw_bytes : Z;
}.

(** The lengths of the JSON documents. *)
Class Serializer : Type := {
  manifest_len : DurableRecord → Z;
  details_len : InvocationDetails → Z;
  artifacts_len : list Artifact → Z;
}.

Record StoreInner : Type := MkStore {
  disk : gmap InvocationId Evidence;
  store_index : Index;
  owner_leases : gset InvocationId;
  published : Z;
}.

Section store.
Context `{Files : Serializer}.

(** [evidence_payload_size] and [evidence_size]. *)
Definition evidence_payload_size (ev : Evidence) : Z :=
  u64_add (u64_add (match details_file ev with Some d => details_len d | None => 0 end) (raw_bytes ev))
    (match artifacts_file ev with Some a => artifacts_len a | None => 0 end).
Definition evidence_size (ev : Evidence) : Z := u64_add (manifest_len (manifest ev)) (evidence_payload_size ev).

Definition set_payload (payload : Z) (durable : DurableRecord) : DurableRecord :=
  MkDurable (schema_version durable) (durable_invocation durable) (durable_deferred durable) payload.

(** [persist]: the manifest written, and the bytes retained. *)
Definition persist (ev : Evidence) (durable : DurableRecord) (recount_payload : bool)
    : Evidence * DurableRecord * Z :=
  let durable := if recount_payload then set_payload (evidence_payload_size ev) durable else durable in
  (MkEvidence durable (details_file ev) (artifacts_file ev) (raw_bytes ev), durable,
   u64_add (payload_bytes durable) (manifest_len durable)).

(** [write_details]. *)
Definition write_details (ev : Evidence) (record : InvocationRecord) : Evidence :=
  let details := details_from_record record in
  MkEvidence (manifest ev) (if details_is_empty details then None else Some details)
    (artifacts_file ev) (raw_bytes ev).

(** [remove_if_exists] or [write_json_atomic] of the artifact sidecar. *)
Definition write_artifacts (ev : Evidence) (artifacts : list Artifact) : Evidence :=
  MkEvidence (manifest ev) (details_file ev) (if decide (artifacts = []) then None else Some artifacts)
    (raw_bytes ev).

(** ** Lookup *)

(** [ensure_invocation], once the index is fresh. *)
Definition ensure_invocation (s : StoreInner) (id : InvocationId) : result StoreError unit :=
  ensure_exists (store_index s) id.

Definition not_found_io : StoreError := StoreIo "not found".

(** [read_durable] of the manifest of an invocation. *)
Definition read_durable (s : StoreInner) (id : InvocationId) : result StoreError (Evidence * DurableRecord) :=
  match disk s !! id with
  | Some ev => Ok (ev, manifest ev)
  | None => Err not_found_io
  end.

Definition get_invocation_header (s : StoreInner) (id : InvocationId) : result StoreError InvocationHeader :=
  _ ← ensure_invocation s id;
  match entries (store_index s) !! id with
  | Some entry => Ok (entry_record entry)
  | None => Err (NotFound id)
  end.

Definition read_hydrated_invocation (s : StoreInner) (id : InvocationId)
    : result StoreError HydratedInvocation :=
  _ ← ensure_invocation s id;
  '(ev, durable) ← read_durable s id;
  Ok (MkHydrated (durable_invocation durable) (default default_details (details_file ev))).

Definition get_invocation (s : StoreInner) (id : InvocationId) : result StoreError InvocationRecord :=
  hydrated_into_record <$> read_hydrated_invocation s id.

(** ** Changing an invocation *)

Definition publish_change (s : StoreInner) : StoreInner :=
  MkStore (disk s) (store_index s) (owner_leases s) (published s + 1).

(** Writes the files of [id] and the index. *)
Definition commit (s : StoreInner) (id : InvocationId) (ev : Evidence) (index : Index) : StoreInner :=
  publish_change (MkStore (<[id := ev]> (disk s)) index (owner_leases s) (published s)).

Definition release_owner (s : StoreInner) (id : InvocationId) : StoreInner :=
  MkStore (disk s) (store_index s) (owner_leases s ∖ {[id]}) (published s).

(** [create_invocation_with_deferred]. *)
Definition create_invocation_with_deferred (s : StoreInner) (record : InvocationRecord)
    (deferred : option DeferredResultRecord) : result StoreError StoreInner :=
  let id := request_id (request record) in
  _ ← reject_if (bool_decide (is_Some (entries (store_index s) !! id)))
        (StoreIo "invocation already exists");
  let durable := MkDurable CURRENT_SCHEMA_VERSION (header_from_record record) deferred 0 in
  let '(ev, durable, retained) := persist (MkEvidence durable None None 0) durable true in
  let s := commit s id ev (insert_entry (store_index s) id (index_entry durable retained)) in
  Ok (if is_terminal (state record) then s
      else MkStore (disk s) (store_index s) ({[id]} ∪ owner_leases s) (published s)).

Definition set_outcome (termination : option Termination) (summary : option InvocationSummary)
    (r : InvocationRecord) : InvocationRecord :=
  MkRecord (request r) (state r) (started_at_ms r) (finished_at_ms r) termination summary (run r)
    (metrics r) (canonical_arguments r) (cancellation_reason r).

(** [transition_lost_evidence]: the directory is gone, only the index changes. *)
Definition transition_lost_evidence (index : Index) (id : InvocationId) (now : Z) (next : InvocationState)
    (termination : option Termination) (summary : option InvocationSummary)
    : result StoreError (Index * InvocationRecord) :=
  match entries index !! id with
  | None => Err (NotFound id)
  | Some entry =>
      match transition now next (header_into_record (entry_record entry)) with
      | Err error => Err (StoreState error)
      | Ok record =>
          let record := set_outcome termination summary record in
          Ok (replace_entry index id (MkEntry (header_from_record record) None 0 0 false), record)
      end
  end.

(** Writes the record of a transition and replaces the index entry; the
    telemetry the record already holds counts as flushed. *)
Definition commit_record (s : StoreInner) (id : InvocationId) (ev : Evidence) (durable : DurableRecord)
    (recount_payload : bool) (telemetry_generation : Z) : StoreInner :=
  let '(ev, durable, retained) := persist ev durable recount_payload in
  commit s id ev
    (mark_telemetry_flushed (replace_entry (store_index s) id (index_entry durable retained)) id
       telemetry_generation).

Definition extend_deferred (terminal_at_ms : Z) (deferred : option DeferredResultRecord)
    : option DeferredResultRecord :=
  (fun d => (extend_terminal_expiry terminal_at_ms d).1) <$> deferred.

(** [transition], at the clock reading [now]. *)
Definition store_transition (s : StoreInner) (id : InvocationId) (now : Z) (next : InvocationState)
    (termination : option Termination) (summary : option InvocationSummary)
    : result StoreError (StoreInner * InvocationRecord) :=
  _ ← ensure_invocation s id;
  match disk s !! id with
  | None =>
      '(index, record) ← transition_lost_evidence (store_index s) id now next termination summary;
      let s := MkStore (disk s) index (owner_leases s) (published s) in
      Ok (if is_terminal next then release_owner s id else s, record)
  | Some ev =>
      let durable := manifest ev in
      let '(metrics, generation) :=
        merge_index_telemetry (store_index s) id (header_metrics (durable_invocation durable)) in
      let header := set_metrics (fun _ => metrics) (durable_invocation durable) in
      match transition now next (header_into_record header) with
      | Err error => Err (StoreState error)
      | Ok record =>
          let record := set_outcome termination summary record in
          let deferred := if is_terminal next
            then extend_deferred (default now (finished_at_ms record)) (durable_deferred durable)
            else durable_deferred durable in
          let durable := MkDurable (schema_version durable) (header_from_record record) deferred
                           (payload_bytes durable) in
          let ev := if is_terminal next then write_details ev record else ev in
          let s := commit_record s id ev durable (is_terminal next) generation in
          Ok (if is_terminal next then release_owner s id else s, record)
      end
  end.

Record InvocationCompletion : Type := MkCompletion {
  completion_state : InvocationState;
  completion_termination : Termination;
  completion_summary : InvocationSummary;
  completion_run : option RunSummary;
  completion_metrics : InvocationMetrics;
  completion_arguments : option (list string);
  completion_artifacts : list Artifact;
}.

(** The record [finish_invocation] stores. *)
Definition completed_record (c : InvocationCompletion) (metrics : InvocationMetrics) (r : InvocationRecord)
    : InvocationRecord :=
  MkRecord (request r) (state r) (started_at_ms r) (finished_at_ms r)
    (Some (completion_termination c)) (Some (completion_summary c)) (completion_run c) metrics
    (completion_arguments c) (cancellation_reason r).

Definition finish_invocation (s : StoreInner) (id : InvocationId) (now : Z) (c : InvocationCompletion)
    : result StoreError (StoreInner * InvocationRecord) :=
  if negb (is_terminal (completion_state c)) then
    header ← get_invocation_header s id;
    Err (StoreState (MkTransitionError (header_state header) (completion_state c)))
  else
    _ ← ensure_invocation s id;
    '(ev, durable) ← read_durable s id;
    match transition now (completion_state c) (header_into_record (durable_invocation durable)) with
    | Err error => Err (StoreState error)
    | Ok record =>
        let '(metrics, generation) := merge_index_telemetry (store_index s) id (completion_metrics c) in
        let record := completed_record c metrics record in
        let deferred := extend_deferred (default now (finished_at_ms record)) (durable_deferred durable) in
        let durable := MkDurable (schema_version durable) (header_from_record record) deferred
                         (payload_bytes durable) in
        let ev := write_details (write_artifacts ev (completion_artifacts c)) record in
        Ok (release_owner (commit_record s id ev durable true generation) id, record)
    end.

(** [mutate]. *)
Definition mutate (s : StoreInner) (id : InvocationId) (recount_payload : bool)
    (operation : DurableRecord → result StoreError DurableRecord) : result StoreError StoreInner :=
  _ ← ensure_invocation s id;
  '(ev, durable) ← read_durable s id;
  let '(metrics, generation) :=
    merge_index_telemetry (store_index s) id (header_metrics (durable_invocation durable)) in
  durable ← operation (MkDurable (schema_version durable)
              (set_metrics (fun _ => metrics) (durable_invocation durable)) (durable_deferred durable)
              (payload_bytes durable));
  Ok (commit_record s id ev durable recount_payload generation).

(** [replace_artifacts]. *)
Definition replace_artifacts (s : StoreInner) (id : InvocationId) (artifacts : list Artifact)
    : result StoreError StoreInner :=
  _ ← ensure_invocation s id;
  '(ev, durable) ← read_durable s id;
  let '(ev, durable, retained) := persist (write_artifacts ev artifacts) durable true in
  Ok (commit s id ev (replace_entry (store_index s) id (index_entry durable retained))).

Definition set_cancellation_reason (reason : string) (h : InvocationHeader) : InvocationHeader :=
  MkHeader (header_request h) (header_state h) (header_started_at_ms h) (header_finished_at_ms h)
    (header_termination h) (header_summary h) (header_run h) (header_metrics h)
    (header_canonical_arguments h) (Some reason).

Definition update_cancellation_reason (s : StoreInner) (id : InvocationId) (reason : string)
    : result StoreError StoreInner :=
  mutate s id false (fun durable =>
    Ok (MkDurable (schema_version durable) (set_cancellation_reason reason (durable_invocation durable))
          (durable_deferred durable) (payload_bytes durable))).

(** ** Deferred results (deferred_repository.rs) *)

Definition set_deferred (deferred : option DeferredResultRecord) (durable : DurableRecord) : DurableRecord :=
  MkDurable (schema_version durable) (durable_invocation durable) deferred (payload_bytes durable).

(** [durable.deferred.as_mut().ok_or(DeferredNotFound(id))?] and an update. *)
Definition update_deferred (id : InvocationId) (f : DeferredResultRecord → DeferredResultRecord)
    (durable : DurableRecord) : result StoreError DurableRecord :=
  deferred ← ok_or (durable_deferred durable) (DeferredNotFound id);
  Ok (set_deferred (Some (f deferred)) durable).

Definition record_deferred_cancellation (s : StoreInner) (id : InvocationId) (requested_at_ms : Z)
    : result StoreError StoreInner :=
  mutate s id false (update_deferred id (fun d =>
    MkDeferred (invocation_id d) (retrieval d) (created_at_ms d)
      (Z.max (updated_at_ms d) requested_at_ms) (expires_at_ms d)
      (match cancellation_requested_at_ms d with None => Some requested_at_ms | some => some end)
      (terminal_override d) (failure d))).

Definition set_deferred_terminal_override (s : StoreInner) (id : InvocationId)
    (state : DeferredTerminalState) (updated : Z) : result StoreError StoreInner :=
  mutate s id false (update_deferred id (fun d =>
    MkDeferred (invocation_id d) (retrieval d) (created_at_ms d) (Z.max (updated_at_ms d) updated)
      (expires_at_ms d) (cancellation_requested_at_ms d) (Some state) (failure d))).

Definition persist_deferred_failure (s : StoreInner) (id : InvocationId) (f : DeferredFailure)
    (updated : Z) : result StoreError StoreInner :=
  mutate s id false (update_deferred id (fun d =>
    MkDeferred (invocation_id d) (retrieval d) (created_at_ms d) (Z.max (updated_at_ms d) updated)
      (expires_at_ms d) (cancellation_requested_at_ms d) (terminal_override d) (Some f))).

Definition extend_deferred_expiry (s : StoreInner) (id : InvocationId) (minimum_expires_at_ms updated : Z)
    : result StoreError StoreInner :=
  mutate s id false (update_deferred id (fun d =>
    MkDeferred (invocation_id d) (retrieval d) (created_at_ms d) (Z.max (updated_at_ms d) updated)
      (Z.max (expires_at_ms d) minimum_expires_at_ms) (cancellation_requested_at_ms d)
      (terminal_override d) (failure d))).

(** [get_deferred_result]: an expired result is removed on the way. *)
Definition get_deferred_result (s : StoreInner) (id : InvocationId) (wanted : DeferredRetrieval)
    (now_ms : Z) : result StoreError DeferredResultView * StoreInner :=
  match ensure_invocation s id with
  | Err error => (Err error, s)
  | Ok _ =>
      match entries (store_index s) !! id with
      | None => (Err (NotFound id), s)
      | Some entry =>
          match entry_deferred entry with
          | None => (Err (DeferredNotFound id), s)
          | Some deferred =>
              let expired := is_expired now_ms (entry_terminal entry) deferred in
              if bool_decide (retrieval deferred ≠ wanted) || expired then
                if expired then
                  match mutate s id false (fun durable => Ok (set_deferred None durable)) with
                  | Ok s => (Err (DeferredNotFound id), s)
                  | Err error => (Err error, s)
                  end
                else (Err (DeferredNotFound id), s)
              else if entry_terminal entry then
                (MkDeferredView deferred <$> get_invocation s id, s)
              else (Ok (MkDeferredView deferred (header_into_record (entry_record entry))), s)
          end
      end
  end.
End store.

(** ** What the index and the disk say about an invocation *)

(** A header with its telemetry and timing counters forgotten. *)
Definition forget_metrics (h : InvocationHeader) : InvocationHeader := set_metrics (fun _ => default_metrics) h.

Abbreviation View := (InvocationHeader * option DeferredResultRecord)%type.
Definition entry_view (entry : IndexEntry) : View := (forget_metrics (entry_record entry), entry_deferred entry).
Definition durable_view (durable : DurableRecord) : View :=
  (forget_metrics (durable_invocation durable), durable_deferred durable).

Definition index_view (index : Index) (id : InvocationId) : option View := entry_view <$> entries index !! id.
Definition disk_view (s : StoreInner) (id : InvocationId) : option View :=
  (fun ev => durable_view (manifest ev)) <$> disk s !! id.

(** The index mirrors the disk. *)
Definition Mirrored (s : StoreInner) : Prop := ∀ id, index_view (store_index s) id = disk_view s id.

Lemma forget_set_metrics f h : forget_metrics (set_metrics f h) = forget_metrics h.
Proof. done. Qed.

Lemma entry_view_keep previous entry : entry_view (keep_telemetry previous entry) = entry_view entry.
Proof. done. Qed.

Lemma index_view_insert index id entry id' :
  index_view (insert_entry index id entry) id' =
  if decide (id' = id) then Some (entry_view entry) else index_view index id'.
Proof.
  unfold index_view. simpl. case_decide; [subst; by rewrite lookup_insert_eq|].
  by rewrite lookup_insert_ne.
Qed.

Lemma index_view_replace index id entry id' :
  index_view (replace_entry index id entry) id' =
  if decide (id' = id) then Some (entry_view entry) else index_view index id'.
Proof.
  unfold replace_entry. destruct (entries index !! id) as [previous|] eqn:Hid; [|apply index_view_insert].
  rewrite index_view_insert. case_decide; [done|].
  unfold index_view. simpl. by rewrite lookup_delete_ne.
Qed.

Lemma index_view_remove index id id' :
  index_view (remove_entry index id) id' = if decide (id' = id) then None else index_view index id'.
Proof.
  unfold remove_entry, index_view. destruct (entries index !! id) as [entry|] eqn:Hid; simpl.
  - case_decide; [subst; by rewrite lookup_delete_eq|by rewrite lookup_delete_ne].
  - case_decide; [subst; by rewrite Hid|done].
Qed.

Lemma index_view_set_one g index id entry id' :
  entries index !! id = Some entry → entry_view (g entry) = entry_view entry →
  index_view (set_entries <[id := g entry]> index) id' = index_view index id'.
Proof.
  intros Hid Hg. unfold index_view. simpl. destruct (decide (id' = id)) as [-> | Hne].
  - rewrite lookup_insert_eq, Hid. simpl. by rewrite Hg.
  - by rewrite lookup_insert_ne.
Qed.

Lemma index_view_flushed index id generation id' :
  index_view (mark_telemetry_flushed index id generation) id' = index_view index id'.
Proof.
  unfold mark_telemetry_flushed. destruct (entries index !! id) as [entry|] eqn:Hid; [|done].
  case_match; [|done]. by apply index_view_set_one.
Qed.

(** Accumulating telemetry is invisible in the views. *)
Lemma index_view_telemetry record index id index' schedule id' :
  (∃ bytes inspection, record = record_model_visible bytes inspection) ∨ (∃ count, record = record_progress count) →
  record_telemetry record index id = Ok (index', schedule) → index_view index' id' = index_view index id'.
Proof.
  intros Hrecord. unfold record_telemetry. destruct (entries index !! id) as [entry|] eqn:Hid; [|done].
  assert (Heq : record entry = ((record entry).1, (record entry).2)) by (by destruct (record entry)).
  rewrite Heq. intros [= <- _]. apply (index_view_set_one (fun e => (record e).1)); [done|].
  by destruct Hrecord as [(bytes & inspection & ->) | (count & ->)].
Qed.

Section theorems.
Context `{Files : Serializer}.

Lemma commit_record_views s id ev durable recount generation id' :
  index_view (store_index (commit_record s id ev durable recount generation)) id' =
    (if decide (id' = id) then Some (durable_view durable) else index_view (store_index s) id') ∧
  disk_view (commit_record s id ev durable recount generation) id' =
    (if decide (id' = id) then Some (durable_view durable) else disk_view s id').
Proof.
  unfold commit_record, disk_view. simpl. rewrite index_view_flushed, index_view_replace. split.
  - case_decide; [|done]. by destruct recount.
  - case_decide; [subst; rewrite lookup_insert_eq; by destruct recount|by rewrite lookup_insert_ne].
Qed.

Lemma commit_record_mirrored s id ev durable recount generation :
  Mirrored s → Mirrored (commit_record s id ev durable recount generation).
Proof.
  intros Hs id'. destruct (commit_record_views s id ev durable recount generation id') as [-> ->].
  case_decide; [done|apply Hs].
Qed.

Lemma release_owner_mirrored s id : Mirrored s → Mirrored (release_owner s id).
Proof. done. Qed.

Lemma create_mirrored s record deferred s' :
  Mirrored s → create_invocation_with_deferred s record deferred = Ok s' → Mirrored s'.
Proof.
  intros Hs. unfold create_invocation_with_deferred.
  intros (_ & _ & [= <-])%bind_Ok_inv id'.
  assert (Hcase : ∀ s1 s2 : StoreInner, disk s1 = disk s2 → store_index s1 = store_index s2 →
            index_view (store_index s2) id' = disk_view s2 id' → index_view (store_index s1) id' = disk_view s1 id').
  { unfold disk_view. by intros s1 s2 -> ->. }
  set (committed := commit _ _ _ _).
  apply (Hcase _ committed); [by destruct (is_terminal (state record))..|].
  unfold committed, disk_view. simpl. rewrite index_view_insert.
  case_decide; [subst; by rewrite lookup_insert_eq|rewrite lookup_insert_ne by done; apply Hs].
Qed.

Lemma lost_evidence_absent s id : Mirrored s → disk s !! id = None → entries (store_index s) !! id = None.
Proof.
  intros Hs Hdisk. specialize (Hs id). unfold disk_view, index_view in Hs. rewrite Hdisk in Hs.
  by destruct (entries (store_index s) !! id).
Qed.

Lemma transition_mirrored s id now next termination summary s' r :
  Mirrored s → store_transition s id now next termination summary = Ok (s', r) → Mirrored s'.
Proof.
  intros Hs. unfold store_transition. intros ([] & Hensure & Hrest)%bind_Ok_inv.
  destruct (disk s !! id) as [ev|] eqn:Hdisk.
  - destruct (merge_index_telemetry _ _ _) as [metrics generation].
    destruct (transition _ _ _) as [record|]; [|done]. injection Hrest as <- _.
    destruct (is_terminal next); [apply release_owner_mirrored|]; by apply commit_record_mirrored.
  - apply lost_evidence_absent in Hdisk; [|done].
    unfold ensure_invocation, ensure_exists in Hensure. by rewrite Hdisk in Hensure.
Qed.

Lemma finish_mirrored s id now c s' r :
  Mirrored s → finish_invocation s id now c = Ok (s', r) → Mirrored s'.
Proof.
  intros Hs. unfold finish_invocation. destruct (negb _).
  { intros (header & _ & ?)%bind_Ok_inv. done. }
  intros (_ & _ & Hrest)%bind_Ok_inv. apply bind_Ok_inv in Hrest as ([ev durable] & _ & Hrest).
  destruct (transition _ _ _) as [record|]; [|done].
  destruct (merge_index_telemetry _ _ _) as [metrics generation]. injection Hrest as <- _.
  by apply release_owner_mirrored, commit_record_mirrored.
Qed.

Lemma mutate_mirrored s id recount operation s' :
  Mirrored s → mutate s id recount operation = Ok s' → Mirrored s'.
Proof.
  intros Hs. unfold mutate. intros (_ & _ & Hrest)%bind_Ok_inv.
  apply bind_Ok_inv in Hrest as ([ev durable] & _ & Hrest).
  destruct (merge_index_telemetry _ _ _) as [metrics generation].
  apply bind_Ok_inv in Hrest as (durable' & _ & [= <-]). by apply commit_record_mirrored.
Qed.

Lemma replace_artifacts_mirrored s id artifacts s' :
  Mirrored s → replace_artifacts s id artifacts = Ok s' → Mirrored s'.
Proof.
  intros Hs. unfold replace_artifacts. intros (_ & _ & Hrest)%bind_Ok_inv.
  apply bind_Ok_inv in Hrest as ([ev durable] & Hread & [= <-]). intros id'.
  unfold disk_view. simpl. rewrite index_view_replace.
  case_decide; [subst; by rewrite lookup_insert_eq|rewrite lookup_insert_ne by done; apply Hs].
Qed.

(** ** The store over its life *)

Inductive StoreOp : Type :=
| SCreate (record : InvocationRecord) (deferred : option DeferredResultRecord)
| STransition (id : InvocationId) (now : Z) (next : InvocationState) (termination : option Termination)
    (summary : option InvocationSummary)
| SFinish (id : InvocationId) (now : Z) (completion : InvocationCompletion)
| SReason (id : InvocationId) (reason : string)
| SArtifacts (id : InvocationId) (artifacts : list Artifact)
| SCancellation (id : InvocationId) (requested_at_ms : Z)
| SOverride (id : InvocationId) (state : DeferredTerminalState) (updated : Z)
| SFailure (id : InvocationId) (failure : DeferredFailure) (updated : Z)
| SExtend (id : InvocationId) (minimum_expires_at_ms updated : Z)
| SGetDeferred (id : InvocationId) (wanted : DeferredRetrieval) (now_ms : Z)
| SModelVisible (id : InvocationId) (bytes : Z) (inspection : bool)
| SProgress (id : InvocationId) (count : Z).

Definition with_telemetry (record : IndexEntry → IndexEntry * bool) (id : InvocationId) (s : StoreInner)
    : result StoreError StoreInner :=
  '(index, _) ← record_telemetry record (store_index s) id;
  Ok (MkStore (disk s) index (owner_leases s) (published s)).

Definition perform (op : StoreOp) (s : StoreInner) : result StoreError StoreInner :=
  match op with
  | SCreate record deferred => create_invocation_with_deferred s record deferred
  | STransition id now next termination summary => fst <$> store_transition s id now next termination summary
  | SFinish id now completion => fst <$> finish_invocation s id now completion
  | SReason id reason => update_cancellation_reason s id reason
  | SArtifacts id artifacts => replace_artifacts s id artifacts
  | SCancellation id requested => record_deferred_cancellation s id requested
  | SOverride id state updated => set_deferred_terminal_override s id state updated
  | SFailure id failure updated => persist_deferred_failure s id failure updated
  | SExtend id minimum updated => extend_deferred_expiry s id minimum updated
  | SGetDeferred id wanted now => Ok (get_deferred_result s id wanted now).2
  | SModelVisible id bytes inspection => with_telemetry (record_model_visible bytes inspection) id s
  | SProgress id count => with_telemetry (record_progress count) id s
  end.

Definition empty_store : StoreInner := MkStore ∅ default_index ∅ 0.

Inductive store_reachable : StoreInner → Prop :=
| store_empty : store_reachable empty_store
| store_perform op s s' : store_reachable s → perform op s = Ok s' → store_reachable s'.

Lemma fmap_fst_Ok {A B} (r : result StoreError (A * B)) a :
  fst <$> r = Ok a → ∃ b, r = Ok (a, b).
Proof. destruct r as [[a' b]|]; simpl; [|done]. intros [= ->]. eauto. Qed.

(** What the mutating form of [get_deferred_result] does to the store. *)
Lemma get_deferred_result_state s id wanted now :
  (get_deferred_result s id wanted now).2 = s ∨
  mutate s id false (fun durable => Ok (set_deferred None durable))
  = Ok (get_deferred_result s id wanted now).2.
Proof.
  unfold get_deferred_result. destruct (ensure_invocation s id); [|by left].
  destruct (entries (store_index s) !! id); [|by left]. destruct (entry_deferred _); [|by left].
  destruct (_ || _); [|destruct (entry_terminal _); by left]. destruct (is_expired _ _ _); [|by left].
  destruct (mutate _ _ _ _); [by right|by left].
Qed.

Lemma perform_mirrored op s s' : Mirrored s → perform op s = Ok s' → Mirrored s'.
Proof.
  intros Hs. destruct op; simpl.
  - by apply create_mirrored.
  - intros [r Hr]%fmap_fst_Ok. by eapply transition_mirrored.
  - intros [r Hr]%fmap_fst_Ok. by eapply finish_mirrored.
  - by apply mutate_mirrored.
  - by apply replace_artifacts_mirrored.
  - by apply mutate_mirrored.
  - by apply mutate_mirrored.
  - by apply mutate_mirrored.
  - by apply mutate_mirrored.
  - intros [= <-]. destruct (get_deferred_result_state s id wanted now_ms) as [-> | Hm]; [done|].
    by eapply mutate_mirrored.
  - intros ([index schedule] & Hrecord & [= <-])%bind_Ok_inv id'.
    erewrite index_view_telemetry; [apply Hs| |exact Hrecord]. left. eauto.
  - intros ([index schedule] & Hrecord & [= <-])%bind_Ok_inv id'.
    erewrite index_view_telemetry; [apply Hs| |exact Hrecord]. right. eauto.
Qed.

Lemma reachable_mirrored s : store_reachable s → Mirrored s.
Proof.
  induction 1 as [|op s s' _ IH Hop]; [done|]. by eapply perform_mirrored.
Qed.


(** ** Completed invocations *)

(** The record that finishing an invocation returns, with its targets, tests
    and coverage, is the one a later read of the invocation gives back, and the
    invocation is then no longer owned by the process. *)
Theorem finish_then_get s id now completion s' record
    (Hfinish : finish_invocation s id now completion = Ok (s', record)) :
  get_invocation s' id = Ok record ∧ id ∉ owner_leases s'.
Proof.
  unfold finish_invocation in Hfinish. destruct (negb _).
  { apply bind_Ok_inv in Hfinish as (header & _ & ?). done. }
  apply bind_Ok_inv in Hfinish as ([] & Hensure & Hfinish).
  apply bind_Ok_inv in Hfinish as ([ev durable] & Hread & Hfinish).
  destruct (transition _ _ _) as [moved|]; [|done].
  destruct (merge_index_telemetry _ _ _) as [metrics generation]. injection Hfinish as <- <-.
  set (record := completed_record _ _ _). split; [|simpl; set_solver].
  unfold get_invocation, read_hydrated_invocation, ensure_invocation, ensure_exists.
  destruct (commit_record_views s id (write_details (write_artifacts ev (completion_artifacts completion)) record)
    (MkDurable (schema_version durable) (header_from_record record)
       (extend_deferred (default now (finished_at_ms record)) (durable_deferred durable)) (payload_bytes durable))
    true generation id) as [Hview _].
  rewrite decide_True in Hview by done. unfold index_view in Hview. cbn [release_owner store_index].
  destruct (entries (store_index _) !! id) as [entry|]; [|done].
  unfold read_durable. cbn -[hydrated_into_record record]. rewrite lookup_insert_eq.
  cbn -[hydrated_into_record record]. f_equal.
  assert (default default_details (if details_is_empty (details_from_record record) then None
            else Some (details_from_record record)) = details_from_record record) as ->.
  { destruct (details_is_empty _) eqn:Hempty; [|done]. by apply details_is_empty_default in Hempty as ->. }
  apply record_split.
Qed.

(** ** Terminal outcomes are final *)

(** The fields of a header that its outcome consists of. *)
Definition outcome_of (h : InvocationHeader) :=
  (header_request h, header_state h, header_started_at_ms h, header_finished_at_ms h,
   header_termination h, header_summary h, header_run h, header_canonical_arguments h).

Definition index_outcome (s : StoreInner) (id : InvocationId) :=
  (fun entry => outcome_of (entry_record entry)) <$> entries (store_index s) !! id.

Lemma index_outcome_view s id : index_outcome s id = (fun v : View => outcome_of v.1) <$> index_view (store_index s) id.
Proof. unfold index_outcome, index_view. by destruct (entries (store_index s) !! id). Qed.

Lemma transition_terminal now next r :
  is_terminal (state r) = true → transition now next r = Err (MkTransitionError (state r) next).
Proof. unfold transition, validate_transition. by destruct (state r). Qed.

(** Under the mirror invariant the manifest of an indexed invocation exists and
    has its outcome. *)
Lemma mirrored_manifest s id entry :
  Mirrored s → entries (store_index s) !! id = Some entry →
  ∃ ev, disk s !! id = Some ev ∧
    outcome_of (durable_invocation (manifest ev)) = outcome_of (entry_record entry).
Proof.
  intros Hs Hid. specialize (Hs id). unfold index_view, disk_view in Hs. rewrite Hid in Hs.
  destruct (disk s !! id) as [ev|]; [|done]. exists ev. split; [done|].
  apply (inj Some), (f_equal (fun v : View => outcome_of v.1)) in Hs. symmetry. exact Hs.
Qed.

Lemma mutate_outcome s id recount operation s' id' :
  Mirrored s → mutate s id recount operation = Ok s' →
  (∀ durable durable', operation durable = Ok durable' →
     outcome_of (durable_invocation durable') = outcome_of (durable_invocation durable)) →
  index_outcome s' id' = index_outcome s id'.
Proof.
  intros Hs. unfold mutate. intros ([] & Hensure & Hrest)%bind_Ok_inv Hop.
  apply bind_Ok_inv in Hrest as ([ev durable] & Hread & Hrest).
  destruct (merge_index_telemetry _ _ _) as [metrics generation].
  apply bind_Ok_inv in Hrest as (durable' & Hdurable & [= <-]). apply Hop in Hdurable. simpl in Hdurable.
  rewrite !index_outcome_view.
  rewrite (proj1 (commit_record_views s id ev durable' recount generation id')).
  case_decide; [subst id'|done]. unfold read_durable in Hread.
  destruct (disk s !! id) as [ev'|] eqn:Hdisk; [|done]. injection Hread as <- <-.
  rewrite Hs. unfold disk_view. rewrite Hdisk. simpl. f_equal. exact Hdurable.
Qed.

Lemma update_deferred_outcome id f durable durable' :
  update_deferred id f durable = Ok durable' →
  outcome_of (durable_invocation durable') = outcome_of (durable_invocation durable).
Proof. intros (d & _ & [= <-])%bind_Ok_inv. done. Qed.

(** A committed record changes no other invocation. *)
Lemma commit_record_other s id ev durable recount generation id' :
  id' ≠ id → index_outcome (commit_record s id ev durable recount generation) id' = index_outcome s id'.
Proof.
  intros Hne. rewrite !index_outcome_view, (proj1 (commit_record_views _ _ _ _ _ _ _)).
  by rewrite decide_False.
Qed.

Lemma transition_outcome s id now next termination summary s' r id' entry :
  Mirrored s → store_transition s id now next termination summary = Ok (s', r) →
  entries (store_index s) !! id' = Some entry → entry_terminal entry = true →
  index_outcome s' id' = index_outcome s id'.
Proof.
  intros Hs Hop Hid Hterminal. unfold store_transition in Hop.
  apply bind_Ok_inv in Hop as ([] & Hensure & Hop). destruct (disk s !! id) as [ev|] eqn:Hdisk.
  - destruct (merge_index_telemetry _ _ _) as [metrics generation].
    destruct (decide (id' = id)) as [-> | Hne].
    + destruct (mirrored_manifest s id entry Hs Hid) as (ev' & Hev & Houtcome).
      rewrite Hdisk in Hev. injection Hev as <-.
      rewrite transition_terminal in Hop; [done|]. simpl.
      injection Houtcome as _ Hstate _ _ _ _ _ _. by rewrite Hstate.
    + destruct (transition _ _ _) as [moved|]; [|done]. injection Hop as <- _.
      destruct (is_terminal next); by apply commit_record_other.
  - apply lost_evidence_absent in Hdisk; [|done].
    unfold ensure_invocation, ensure_exists in Hensure. by rewrite Hdisk in Hensure.
Qed.

Lemma finish_outcome s id now c s' r id' entry :
  Mirrored s → finish_invocation s id now c = Ok (s', r) →
  entries (store_index s) !! id' = Some entry → entry_terminal entry = true →
  index_outcome s' id' = index_outcome s id'.
Proof.
  intros Hs Hop Hid Hterminal. unfold finish_invocation in Hop. destruct (negb _).
  { apply bind_Ok_inv in Hop as (header & _ & ?). done. }
  apply bind_Ok_inv in Hop as ([] & _ & Hop).
  apply bind_Ok_inv in Hop as ([ev durable] & Hread & Hop). unfold read_durable in Hread.
  destruct (disk s !! id) as [ev'|] eqn:Hdisk; [|done]. injection Hread as -> <-.
  destruct (decide (id' = id)) as [-> | Hne].
  - destruct (mirrored_manifest s id entry Hs Hid) as (ev' & Hev & Houtcome).
    rewrite Hdisk in Hev. injection Hev as <-.
    rewrite transition_terminal in Hop; [done|]. simpl.
    injection Houtcome as _ Hstate _ _ _ _ _ _. by rewrite Hstate.
  - destruct (transition _ _ _) as [moved|]; [|done].
    destruct (merge_index_telemetry _ _ _) as [metrics generation]. injection Hop as <- _.
    by apply commit_record_other.
Qed.

Lemma replace_artifacts_outcome s id artifacts s' id' :
  Mirrored s → replace_artifacts s id artifacts = Ok s' → index_outcome s' id' = index_outcome s id'.
Proof.
  intros Hs Hop. pose proof (replace_artifacts_mirrored _ _ _ _ Hs Hop) as Hs'.
  rewrite !index_outcome_view, (Hs id'), (Hs' id'). unfold replace_artifacts in Hop.
  apply bind_Ok_inv in Hop as ([] & _ & Hop). apply bind_Ok_inv in Hop as ([ev durable] & Hread & [= <-]).
  unfold disk_view. simpl. unfold read_durable in Hread.
  destruct (disk s !! id) as [ev'|] eqn:Hdisk; [|done]. injection Hread as -> <-.
  destruct (decide (id' = id)) as [-> | Hne]; [by rewrite lookup_insert_eq, Hdisk|by rewrite lookup_insert_ne].
Qed.

(** An operation of the store on one invocation, [transition] and
    [finish_invocation] apart, leaves every outcome alone. *)
Lemma perform_outcome op s s' id entry :
  Mirrored s → perform op s = Ok s' →
  entries (store_index s) !! id = Some entry → entry_terminal entry = true →
  index_outcome s' id = index_outcome s id.
Proof.
  intros Hs Hop Hid Hterminal. destruct op; simpl in Hop.
  all: try (eapply mutate_outcome; [done|exact Hop|intros ? ?; apply update_deferred_outcome]).
  - apply bind_Ok_inv in Hop as (u & Hnew%reject_if_Ok & [= <-]).
    apply bool_decide_eq_false, eq_None_not_Some in Hnew. rewrite !index_outcome_view.
    destruct (is_terminal (state record)); simpl; rewrite index_view_insert;
      (case_decide; [subst; congruence|done]).
  - apply fmap_fst_Ok in Hop as [r Hop]. by eapply transition_outcome.
  - apply fmap_fst_Ok in Hop as [r Hop]. by eapply finish_outcome.
  - eapply mutate_outcome; [done|exact Hop|]. by intros ? ? [= <-].
  - by eapply replace_artifacts_outcome.
  - injection Hop as <-. destruct (get_deferred_result_state s id0 wanted now_ms) as [-> | Hm]; [done|].
    eapply mutate_outcome; [done|exact Hm|]. by intros ? ? [= <-].
  - apply bind_Ok_inv in Hop as ([index schedule] & Hrecord & [= <-]). rewrite !index_outcome_view. simpl.
    erewrite index_view_telemetry; [done| |exact Hrecord]. left. eauto.
  - apply bind_Ok_inv in Hop as ([index schedule] & Hrecord & [= <-]). rewrite !index_outcome_view. simpl.
    erewrite index_view_telemetry; [done| |exact Hrecord]. right. eauto.
Qed.

Inductive performs : StoreInner → StoreInner → Prop :=
| performs_refl s : performs s s
| performs_step op s s' s'' : performs s s' → perform op s' = Ok s'' → performs s s''.

(** C24: Once an invocation has ended, no sequence of operations of the store
    (creations, transitions, completions, cancellations, sidecar and deferred
    result updates, telemetry) changes its request, state, times, termination,
    summary, run outcome or arguments. *)
Theorem terminal_outcome_final s s' id entry
    (Hreachable : store_reachable s) (Hentry : entries (store_index s) !! id = Some entry)
    (Hterminal : entry_terminal entry = true) (Hperforms : performs s s') :
  index_outcome s' id = Some (outcome_of (entry_record entry)).
Proof.
  assert (Hstart : index_outcome s id = Some (outcome_of (entry_record entry)))
    by (unfold index_outcome; by rewrite Hentry).
  apply reachable_mirrored in Hreachable.
  enough (Mirrored s' ∧ index_outcome s' id = index_outcome s id) as [_ ->] by done.
  induction Hperforms as [|op s s1 s2 _ IH Hop]; [done|]. destruct (IH Hreachable Hentry Hstart) as [Hs1 Heq].
  split; [by eapply perform_mirrored|]. rewrite <- Heq.
  rewrite Hstart in Heq. unfold index_outcome in Heq.
  destruct (entries (store_index s1) !! id) as [entry1|] eqn:Hid1; [|done].
  eapply perform_outcome; [done|done|done|].
  injection Heq as _ Hstate _ _ _ _ _ _. unfold entry_terminal in *. by rewrite Hstate.
Qed.
End theorems.

Module StoreExamples.
#[local] Instance example_files : Serializer := {|
  manifest_len _ := 100; details_len _ := 10; artifacts_len _ := 5 |}.

Definition example_record : InvocationRecord := queued (new_request 7 1000 "/w" Test ["//..."]).
Definition example_summary : InvocationSummary :=
  MkSummary true "1 test passed" [MkTargetResult "//a" true] (MkTargetCounts 1 1 0) [] [] (MkTestCounts 1 0 0 0 0)
    (Some (MkCoverage 4 3 0 [MkCoverageFile "a.rs" 4 3 0])) [] None 5 false None.
Definition example_completion : InvocationCompletion :=
  MkCompletion Succeeded (Exit 0) example_summary None default_metrics None [].

(** A test invocation with a deferred result, started, running and finished. *)
Definition example_run (op : StoreOp) (s : StoreInner) : StoreInner :=
  match perform op s with Ok s => s | Err _ => s end.
Definition example_running : StoreInner :=
  example_run (STransition 7 1020 Running None None)
    (example_run (STransition 7 1010 Starting None None)
       (example_run (SCreate example_record (Some (new_deferred 7 InlineResult 1000 11000))) empty_store)).
Definition example_finished : StoreInner := example_run (SFinish 7 10000 example_completion) example_running.

Lemma example_run_ok op s : is_ok (perform op s) = true → perform op s = Ok (example_run op s).
Proof. unfold example_run. by destruct (perform op s). Qed.

Lemma example_run_reachable op s :
  store_reachable s → is_ok (perform op s) = true → store_reachable (example_run op s).
Proof. intros Hs Hok. eapply store_perform; [exact Hs|by apply example_run_ok]. Qed.

Lemma example_running_reachable : store_reachable example_running.
Proof. do 3 (apply example_run_reachable; [|vm_compute; reflexivity]). apply store_empty. Qed.

Lemma example_finished_reachable : store_reachable example_finished.
Proof. apply example_run_reachable; [apply example_running_reachable|vm_compute; reflexivity]. Qed.


Lemma finish_then_get_witness :
  match finish_invocation example_running 7 10000 example_completion with
  | Ok (s, record) => targets example_summary = [MkTargetResult "//a" true] ∧ get_invocation s 7 = Ok record
  | Err _ => False
  end.
Proof.
  destruct (finish_invocation example_running 7 10000 example_completion) as [[s record]|] eqn:Hfinish.
  - split; [reflexivity|]. exact (proj1 (finish_then_get _ _ _ _ _ _ Hfinish)).
  - vm_compute in Hfinish. discriminate Hfinish.
Defined.

Lemma terminal_outcome_final_witness :
  match entries (store_index example_finished) !! 7 with
  | Some entry =>
      index_outcome (example_run (SCancellation 7 20000) example_finished) 7
      = Some (outcome_of (entry_record entry))
  | None => False
  end.
Proof.
  destruct (entries (store_index example_finished) !! 7) as [entry|] eqn:Hentry;
    [|vm_compute in Hentry; discriminate Hentry].
  apply (terminal_outcome_final example_finished _ 7 entry example_finished_reachable Hentry).
  - vm_compute in Hentry. injection Hentry as <-. reflexivity.
  - eapply performs_step; [apply performs_refl|]. apply example_run_ok. vm_compute. reflexivity.
Defined.

(** A cancellation request recorded before the end moves the update time, which
    [configured_ttl_ms] measures from: the result that was deferred for ten
    seconds is then kept for two seconds after the end, not for ten. *)
Lemma cancellation_shortens_retention :
  let finish s := example_run (SFinish 7 10000 example_completion) s in
  let expiry s := (fun entry => expires_at_ms <$> entry_deferred entry) <$> entries (store_index s) !! 7 in
  expiry (finish example_running) = Some (Some 20000) ∧
  expiry (finish (example_run (SCancellation 7 9000) example_running)) = Some (Some 12000).
Proof. split; vm_compute; reflexivity. Qed.
End StoreExamples.
