(* ===== verification/Retention.v ===== *)
(** * Retention (crates/bazel-mcp-store/src/retention.rs)

    Age- and quota-based collection of the evidence of ended invocations, and
    [delete_expired_deferred_results] of deferred_repository.rs which it runs
    first.  The model starts after the index refresh and the orphan recovery of
    [enforce_retention] and uses one clock reading for the whole run; failures of
    the file system are not modelled. *)

From S2P Require Import Prelude Types Record Index Store.

Definition GC_LOW_WATERMARK_PERCENT : Z := 80.
Definition GC_NOTIFICATION_BATCH_SIZE : Z := 64.

Record ReclaimOutcome : Type := MkReclaim { changed : bool; deleted : bool; reclaimed : bool }.
Definition default_reclaim : ReclaimOutcome := MkReclaim false false false.

(** The store and the local variables of [enforce_retention]. *)
Record GcState : Type := MkGc {
  gc_store : StoreInner;
  reclaimed_count : Z;
  pending_notifications : Z;
  pending_lock_cleanup : list InvocationId;
}.

Definition retention_age_elapsed (finished_at_ms cutoff_ms : Z) : bool := finished_at_ms <=? cutoff_ms.

(** [stage_raw_evidence]: everything but the manifest and the details moves to
    the trash. *)
Definition stage_raw_evidence (ev : Evidence) : Evidence :=
  MkEvidence (manifest ev) (details_file ev) None 0.

(** A deferred result that has not expired protects its invocation. *)
Definition protected (now : Z) (terminal : bool) (deferred : option DeferredResultRecord) : bool :=
  match deferred with Some d => negb (is_expired now terminal d) | None => false end.

(** The keys of a [BTreeSet], in order. *)
Definition key_le (a b : Z * InvocationId) : Prop := a.1 < b.1 ∨ (a.1 = b.1 ∧ a.2 ≤ b.2).
#[export] Instance key_le_dec a b : Decision (key_le a b).
Proof. unfold key_le. apply _. Defined.
Definition ordered_keys (keys : gset (Z * InvocationId)) : list (Z * InvocationId) :=
  merge_sort key_le (elements keys).
Definition ordered_ids {A} (m : gmap InvocationId A) : list InvocationId := merge_sort Z.le (elements (dom m)).

Section retention.
Context `{Files : Serializer}.

(** [reclaim_terminal], at the clock reading [now]. *)
Definition reclaim_terminal (now : Z) (s : StoreInner) (id : InvocationId) : ReclaimOutcome * StoreInner :=
  match disk s !! id with
  | None => (default_reclaim, s)
  | Some ev =>
      let durable := manifest ev in
      let terminal := is_terminal (header_state (durable_invocation durable)) in
      if negb terminal then (default_reclaim, s)
      else
        let before := u64_add (payload_bytes durable) (manifest_len durable) in
        if protected now terminal (durable_deferred durable) then
          let '(ev, durable, retained) := persist (stage_raw_evidence ev) durable true in
          (MkReclaim true false (retained <? before),
           MkStore (<[id := ev]> (disk s))
             (replace_entry (store_index s) id (index_entry durable retained))
             (owner_leases s) (published s))
        else
          (MkReclaim true true true,
           MkStore (delete id (disk s)) (remove_entry (store_index s) id) (owner_leases s) (published s))
  end.

(** [publish_retention_batch]. *)
Definition publish_retention_batch (g : GcState) : GcState :=
  MkGc (publish_change (gc_store g)) (reclaimed_count g) 0 [].

(** [reclaim_retention_candidate]. *)
Definition reclaim_retention_candidate (now : Z) (g : GcState) (id : InvocationId) : GcState :=
  let '(outcome, s) := reclaim_terminal now (gc_store g) id in
  let count := reclaimed_count g + (if reclaimed outcome then 1 else 0) in
  let cleanup := if deleted outcome then pending_lock_cleanup g ++ [id] else pending_lock_cleanup g in
  if changed outcome then
    let g := MkGc s count (pending_notifications g + 1) cleanup in
    if GC_NOTIFICATION_BATCH_SIZE <=? pending_notifications g then publish_retention_batch g else g
  else MkGc s count (pending_notifications g) cleanup.

(** The first loop: everything older than the cutoff. *)
Definition collect_aged_step (now cutoff : Z) (st : GcState * gset InvocationId)
    (candidate : Z * InvocationId) : GcState * gset InvocationId :=
  let '(g, processed) := st in
  let '(finished, id) := candidate in
  if retention_age_elapsed finished cutoff
  then (reclaim_retention_candidate now g id, {[id]} ∪ processed) else (g, processed).
Definition collect_aged (now cutoff : Z) (candidates : list (Z * InvocationId)) (g : GcState)
    : GcState * gset InvocationId :=
  foldl (collect_aged_step now cutoff) (g, ∅) candidates.

(** The second loop: the oldest first, until the low watermark is reached. *)
Fixpoint collect_excess (now low_watermark : Z) (candidates : list (Z * InvocationId)) (g : GcState)
    (processed : gset InvocationId) : GcState :=
  match candidates with
  | [] => g
  | (_, id) :: rest =>
      if retained_bytes (store_index (gc_store g)) <=? low_watermark then g
      else if decide (id ∈ processed) then collect_excess now low_watermark rest g processed
      else collect_excess now low_watermark rest (reclaim_retention_candidate now g id) ({[id]} ∪ processed)
  end.

(** [maximum_bytes.saturating_mul(80).checked_div(100).unwrap_or(0)]. *)
Definition low_watermark (maximum_bytes : Z) : Z := u64_mul maximum_bytes GC_LOW_WATERMARK_PERCENT / 100.

(** [enforce_retention] from the computation of its candidates on. *)
Definition collect_garbage (now cutoff maximum_bytes : Z) (s : StoreInner) : GcState :=
  let candidates := ordered_keys (terminal_by_finished (store_index s)) in
  let '(g, processed) := collect_aged now cutoff candidates (MkGc s 0 0 []) in
  let g := if maximum_bytes <? retained_bytes (store_index (gc_store g))
           then collect_excess now (low_watermark maximum_bytes) candidates g processed else g in
  if 0 <? pending_notifications g then publish_retention_batch g else g.

(** [delete_expired_deferred_results]. *)
Definition delete_expired_one (now : Z) (s : StoreInner) (id : InvocationId) : result StoreError StoreInner :=
  mutate s id false (fun durable =>
    Ok (match durable_deferred durable with
        | Some d => if is_expired now (is_terminal (header_state (durable_invocation durable))) d
                    then set_deferred None durable else durable
        | None => durable
        end)).

Definition expired_ids (now : Z) (s : StoreInner) : list InvocationId :=
  List.filter (fun id => match entries (store_index s) !! id with
                    | Some entry => match entry_deferred entry with
                                    | Some d => is_expired now (entry_terminal entry) d
                                    | None => false
                                    end
                    | None => false
                    end) (ordered_ids (entries (store_index s))).

Fixpoint delete_expired_all (now : Z) (ids : list InvocationId) (s : StoreInner) : result StoreError StoreInner :=
  match ids with
  | [] => Ok s
  | id :: rest => s ← delete_expired_one now s id; delete_expired_all now rest s
  end.

Definition delete_expired_deferred_results (now : Z) (s : StoreInner) : result StoreError StoreInner :=
  delete_expired_all now (expired_ids now s) s.

(** The refresh of the sizes of the live invocations. *)
Definition refresh_live_one (s : StoreInner) (id : InvocationId) : StoreInner :=
  let current := match disk s !! id with Some ev => evidence_size ev | None => 0 end in
  match entries (store_index s) !! id with
  | None => s
  | Some entry =>
      if entry_terminal entry then s
      else
        let entry' := MkEntry (entry_record entry) (entry_deferred entry) current
                        (telemetry_generation entry) (telemetry_flush_scheduled entry) in
        MkStore (disk s)
          (set_retained (fun bytes => u64_add (u64_sub bytes (entry_retained_bytes entry)) current)
             (set_entries <[id := entry']> (store_index s)))
          (owner_leases s) (published s)
  end.

Definition live_ids (s : StoreInner) : list InvocationId :=
  List.filter (fun id => match entries (store_index s) !! id with
                    | Some entry => negb (entry_terminal entry) | None => false end)
    (ordered_ids (entries (store_index s))).

Definition refresh_live (s : StoreInner) : StoreInner := foldl refresh_live_one s (live_ids s).

(** [enforce_retention] after the refresh and the orphan recovery: the store
    and the number of reclaimed invocations. *)
Definition enforce_retention (now maximum_age_ms maximum_bytes : Z) (s : StoreInner)
    : result StoreError (StoreInner * Z) :=
  s ← delete_expired_deferred_results now s;
  let cutoff := i64_sub now (i64_try_from_or_max maximum_age_ms) in
  let g := collect_garbage now cutoff maximum_bytes (refresh_live s) in
  Ok (gc_store g, reclaimed_count g).

(** ** One reclaimed invocation *)

(** What a reader of an invocation sees of it: its index view and its details. *)
Definition visible (s : StoreInner) (id : InvocationId) : option View * option (option InvocationDetails) :=
  (index_view (store_index s) id, details_file <$> disk s !! id).

Definition view_protected (now : Z) (v : View) : bool :=
  negb (is_terminal (header_state v.1)) || protected now (is_terminal (header_state v.1)) v.2.

Lemma reclaim_terminal_other now s id id' :
  id' ≠ id → visible (reclaim_terminal now s id).2 id' = visible s id'.
Proof.
  intros Hne. unfold reclaim_terminal, visible. destruct (disk s !! id) as [ev|]; [|done].
  destruct (negb _); [done|]. destruct (protected _ _ _); simpl.
  - by rewrite index_view_replace, decide_False, lookup_insert_ne.
  - by rewrite index_view_remove, decide_False, lookup_delete_ne.
Qed.

(** The reclaimed invocation itself is kept when it is live or protected, and
    gone otherwise. *)
Lemma reclaim_terminal_same now s id :
  Mirrored s →
  visible (reclaim_terminal now s id).2 id =
  match index_view (store_index s) id with
  | Some v => if view_protected now v then visible s id else (None, None)
  | None => visible s id
  end.
Proof.
  intros Hs. pose proof (Hs id) as Hid. unfold reclaim_terminal, visible, disk_view in *.
  destruct (disk s !! id) as [ev|] eqn:Hdisk; simpl in Hid;
    [|simpl; by rewrite Hid, Hdisk].
  rewrite Hid. unfold view_protected. simpl. destruct (is_terminal (header_state _)); [|simpl; by rewrite Hid, Hdisk]. simpl.
  destruct (protected now true _); simpl.
  - by rewrite index_view_replace, decide_True, lookup_insert_eq.
  - by rewrite index_view_remove, decide_True, lookup_delete_eq.
Qed.

Lemma reclaim_terminal_mirrored now s id : Mirrored s → Mirrored (reclaim_terminal now s id).2.
Proof.
  intros Hs id'. unfold reclaim_terminal. destruct (disk s !! id) as [ev|] eqn:Hdisk; [|apply Hs].
  destruct (negb _); [apply Hs|]. unfold disk_view. destruct (protected _ _ _); simpl.
  - rewrite index_view_replace. case_decide; [subst; by rewrite lookup_insert_eq|].
    rewrite lookup_insert_ne by done. apply Hs.
  - rewrite index_view_remove. case_decide; [subst; by rewrite lookup_delete_eq|].
    rewrite lookup_delete_ne by done. apply Hs.
Qed.

(** ** A collection *)

(** [s'] is [s] less some invocations that were neither live nor protected. *)
Definition Collected (now : Z) (s s' : StoreInner) : Prop :=
  Mirrored s' ∧
  ∀ id, visible s' id = visible s id ∨
    ∃ v, index_view (store_index s) id = Some v ∧ view_protected now v = false ∧ visible s' id = (None, None).

Lemma Collected_refl now s : Mirrored s → Collected now s s.
Proof. intros Hs. split; [done|]. intros id. by left. Qed.

Lemma Collected_trans now s1 s2 s3 : Collected now s1 s2 → Collected now s2 s3 → Collected now s1 s3.
Proof.
  intros [_ H12] [Hs3 H23]. split; [done|]. intros id.
  destruct (H23 id) as [H3 | (v & Hv & Hp & H3)]; destruct (H12 id) as [H2 | (w & Hw & Hpw & H2)].
  - left. congruence.
  - right. exists w. split_and!; [done|done|congruence].
  - right. exists v. split_and!; [|done|done]. unfold visible in H2. congruence.
  - unfold visible in H2. congruence.
Qed.

Lemma reclaim_terminal_collected now s id : Mirrored s → Collected now s (reclaim_terminal now s id).2.
Proof.
  intros Hs. split; [by apply reclaim_terminal_mirrored|]. intros id'.
  destruct (decide (id' = id)) as [-> | Hne]; [|left; by apply reclaim_terminal_other].
  rewrite reclaim_terminal_same by done. destruct (index_view (store_index s) id) as [v|] eqn:Hv; [|by left].
  destruct (view_protected now v) eqn:Hp; [by left|right; eauto].
Qed.

Lemma candidate_store now g id :
  let s' := gc_store (reclaim_retention_candidate now g id) in
  let s := (reclaim_terminal now (gc_store g) id).2 in
  disk s' = disk s ∧ store_index s' = store_index s.
Proof.
  unfold reclaim_retention_candidate. destruct (reclaim_terminal now (gc_store g) id) as [outcome s].
  destruct (changed outcome); [|done]. by destruct (_ <=? _).
Qed.

Lemma candidate_collected now g id :
  Mirrored (gc_store g) → Collected now (gc_store g) (gc_store (reclaim_retention_candidate now g id)).
Proof.
  intros Hs. destruct (candidate_store now g id) as [Hdisk Hindex].
  destruct (reclaim_terminal_collected now (gc_store g) id Hs) as [Hm Hc]. split.
  - intros id'. unfold disk_view. rewrite Hdisk, Hindex. apply Hm.
  - intros id'. unfold visible. rewrite Hdisk, Hindex. apply Hc.
Qed.

(** Nothing is left to collect of [id]. *)
Definition Settled (now : Z) (s : StoreInner) (id : InvocationId) : Prop :=
  ∀ v, index_view (store_index s) id = Some v → view_protected now v = true.

Lemma Collected_Settled now s s' id : Collected now s s' → Settled now s id → Settled now s' id.
Proof.
  intros [_ Hc] Hid v Hv. destruct (Hc id) as [Heq | (w & _ & _ & Heq)]; unfold visible in Heq.
  - apply Hid. congruence.
  - congruence.
Qed.

Lemma candidate_settled now g id :
  Mirrored (gc_store g) → Settled now (gc_store (reclaim_retention_candidate now g id)) id.
Proof.
  intros Hs v Hv. destruct (candidate_store now g id) as [_ Hindex]. rewrite Hindex in Hv.
  pose proof (reclaim_terminal_same now (gc_store g) id Hs) as Hsame. unfold visible in Hsame.
  rewrite Hv in Hsame. destruct (index_view (store_index (gc_store g)) id) as [w|]; [|congruence].
  destruct (view_protected now w) eqn:Hp; congruence.
Qed.

Lemma collect_aged_spec now cutoff candidates g (processed : gset InvocationId) :
  Mirrored (gc_store g) → (∀ id, id ∈ processed → Settled now (gc_store g) id) →
  let '(g', processed') := foldl (collect_aged_step now cutoff) (g, processed) candidates in
  Collected now (gc_store g) (gc_store g') ∧
  (∀ id, id ∈ processed' → Settled now (gc_store g') id) ∧
  (∀ finished id, (finished, id) ∈ candidates → finished ≤ cutoff → Settled now (gc_store g') id) ∧
  processed ⊆ processed'.
Proof.
  revert g processed. induction candidates as [|[finished id] rest IH]; intros g processed Hs Hp; simpl.
  { split_and!; [by apply Collected_refl|done|set_solver|done]. }
  unfold retention_age_elapsed. destruct (Z.leb_spec finished cutoff) as [Hold | Hyoung].
  - pose proof (candidate_collected now g id Hs) as Hcol.
    specialize (IH (reclaim_retention_candidate now g id) ({[id]} ∪ processed)).
    assert (Hset : ∀ id', id' ∈ {[id]} ∪ processed →
                     Settled now (gc_store (reclaim_retention_candidate now g id)) id').
    { intros id' [->%elem_of_singleton | Hin]%elem_of_union; [by apply candidate_settled|].
      eapply Collected_Settled; [done|auto]. }
    specialize (IH (proj1 Hcol) Hset). destruct (foldl _ _ _) as [g' processed'].
    destruct IH as (Hc & Hp' & Ha & Hsub).
    split_and!; [by eapply Collected_trans|done| |set_solver].
    intros f id' [[= -> ->] | Hin]%elem_of_cons Hf; [|by eapply Ha]. apply Hp'. set_solver.
  - specialize (IH g processed Hs Hp). destruct (foldl _ _ _) as [g' processed'].
    destruct IH as (Hc & Hp' & Ha & Hsub). split_and!; try done.
    intros f id' [[= -> ->] | Hin]%elem_of_cons Hf; [lia|by eapply Ha].
Qed.

Lemma collect_excess_spec now low candidates g (processed : gset InvocationId) :
  Mirrored (gc_store g) → (∀ id, id ∈ processed → Settled now (gc_store g) id) →
  let g' := collect_excess now low candidates g processed in
  Collected now (gc_store g) (gc_store g') ∧
  (retained_bytes (store_index (gc_store g')) ≤ low ∨
   ∀ finished id, (finished, id) ∈ candidates → Settled now (gc_store g') id).
Proof.
  revert g processed. induction candidates as [|[finished id] rest IH]; intros g processed Hs Hp; simpl.
  { split; [by apply Collected_refl|right; set_solver]. }
  destruct (Z.leb_spec (retained_bytes (store_index (gc_store g))) low).
  { split; [by apply Collected_refl|by left]. }
  destruct (decide (id ∈ processed)) as [Hin | Hout].
  - destruct (IH g processed Hs Hp) as [Hc Hend]. split; [done|].
    destruct Hend as [? | Hall]; [by left|right].
    intros f id' [[= -> ->] | Hin']%elem_of_cons; [|by eapply Hall].
    eapply Collected_Settled; [done|auto].
  - pose proof (candidate_collected now g id Hs) as Hcol.
    destruct (IH (reclaim_retention_candidate now g id) ({[id]} ∪ processed)) as [Hc Hend].
    { apply Hcol. }
    { intros id' [->%elem_of_singleton | Hin]%elem_of_union; [by apply candidate_settled|].
      eapply Collected_Settled; [done|auto]. }
    split; [by eapply Collected_trans|]. destruct Hend as [? | Hall]; [by left|right].
    intros f id' [[= -> ->] | Hin']%elem_of_cons; [|by eapply Hall].
    eapply Collected_Settled; [exact Hc|by apply candidate_settled].
Qed.

(** ** The whole run *)

Lemma publish_batch_store g :
  disk (gc_store (publish_retention_batch g)) = disk (gc_store g) ∧
  store_index (gc_store (publish_retention_batch g)) = store_index (gc_store g).
Proof. done. Qed.

Lemma low_watermark_le maximum_bytes : 0 ≤ maximum_bytes → low_watermark maximum_bytes ≤ maximum_bytes.
Proof.
  intros Hmax. unfold low_watermark, u64_mul, GC_LOW_WATERMARK_PERCENT.
  apply Z.div_le_upper_bound; lia.
Qed.

Lemma Collected_ext now s s1 s2 :
  disk s1 = disk s2 → store_index s1 = store_index s2 → Collected now s s1 → Collected now s s2.
Proof.
  intros Hd Hi [Hm Hc]. split.
  - intros id. unfold disk_view. rewrite <- Hd, <- Hi. apply Hm.
  - intros id. unfold visible. rewrite <- Hd, <- Hi. apply Hc.
Qed.

Lemma collect_garbage_spec now cutoff maximum_bytes s :
  Mirrored s → 0 ≤ maximum_bytes →
  let s' := gc_store (collect_garbage now cutoff maximum_bytes s) in
  let candidates := ordered_keys (terminal_by_finished (store_index s)) in
  Collected now s s' ∧
  (retained_bytes (store_index s') ≤ maximum_bytes ∨
   ∀ finished id, (finished, id) ∈ candidates → Settled now s' id) ∧
  (∀ finished id, (finished, id) ∈ candidates → finished ≤ cutoff → Settled now s' id).
Proof.
  intros Hs Hmax. unfold collect_garbage. set (candidates := ordered_keys _).
  pose proof (collect_aged_spec now cutoff candidates (MkGc s 0 0 []) ∅ Hs ltac:(set_solver)) as Haged.
  unfold collect_aged. destruct (foldl _ _ candidates) as [g processed]. simpl in Haged.
  destruct Haged as (Hc & Hp & Ha & _).
  set (g' := if _ <? _ then _ else g).
  assert (Hend : Collected now s (gc_store g') ∧ Collected now (gc_store g) (gc_store g') ∧
    (retained_bytes (store_index (gc_store g')) ≤ maximum_bytes ∨
     ∀ finished id, (finished, id) ∈ candidates → Settled now (gc_store g') id)).
  { unfold g'. destruct (Z.ltb_spec maximum_bytes (retained_bytes (store_index (gc_store g)))).
    - destruct (collect_excess_spec now (low_watermark maximum_bytes) candidates g processed (proj1 Hc) Hp)
        as [Hc' Hend]. split_and!; [by eapply Collected_trans|done|].
      destruct Hend as [Hlow | Hall]; [left|by right].
      pose proof (low_watermark_le maximum_bytes Hmax). lia.
    - split_and!; [done|apply Collected_refl, Hc|by left]. }
  destruct Hend as (Hc' & Hcg & Hquota).
  assert (Haged' : ∀ finished id, (finished, id) ∈ candidates → finished ≤ cutoff → Settled now (gc_store g') id).
  { intros f id Hin Hf. eapply Collected_Settled; [exact Hcg|by eapply Ha]. }
  destruct (0 <? pending_notifications g'); [|done]. simpl. split; [|done].
  by eapply Collected_ext; [..|exact Hc'].
Qed.

Lemma ordered_keys_elem keys key : key ∈ ordered_keys keys ↔ key ∈ keys.
Proof.
  unfold ordered_keys. rewrite (merge_sort_Permutation key_le (elements keys)). apply elem_of_elements.
Qed.

(** After a collection the retained bytes are within the quota, unless
    nothing remains that may be collected (every ended invocation still holds an
    unexpired deferred result); and every invocation that ended before the age
    cutoff and holds no unexpired deferred result is gone in any case. *)
Theorem collect_garbage_bounds now cutoff maximum_bytes s
    (Hmirror : Mirrored s) (Hindex : IndexOk (store_index s)) (Hmax : 0 ≤ maximum_bytes) :
  let s' := gc_store (collect_garbage now cutoff maximum_bytes s) in
  (retained_bytes (store_index s') ≤ maximum_bytes ∨ ∀ id, Settled now s' id) ∧
  (∀ id entry, entries (store_index s) !! id = Some entry → entry_terminal entry = true →
     default i64_min (header_finished_at_ms (entry_record entry)) ≤ cutoff → Settled now s' id).
Proof.
  destruct (collect_garbage_spec now cutoff maximum_bytes s Hmirror Hmax) as (Hc & Hquota & Hage).
  set (s' := gc_store _) in *. cbn zeta.
  assert (Hcandidate : ∀ id entry, entries (store_index s) !! id = Some entry → entry_terminal entry = true →
    (default i64_min (header_finished_at_ms (entry_record entry)), id)
      ∈ ordered_keys (terminal_by_finished (store_index s))).
  { intros id entry Hid Hterminal. apply ordered_keys_elem, (ok_terminal _ Hindex).
    exists id, entry. split; [done|]. unfold terminal_keys. rewrite Hterminal. by apply elem_of_singleton. }
  split; [|eauto]. destruct Hquota as [? | Hall]; [by left|right]. intros id.
  destruct (entries (store_index s) !! id) as [entry|] eqn:Hid.
  - destruct (entry_terminal entry) eqn:Hterminal; [eauto|].
    apply (Collected_Settled now s s' id Hc). intros v Hv. unfold index_view in Hv. rewrite Hid in Hv.
    injection Hv as <-. unfold view_protected. simpl. unfold entry_terminal in Hterminal. by rewrite Hterminal.
  - apply (Collected_Settled now s s' id Hc). intros v Hv. unfold index_view in Hv. by rewrite Hid in Hv.
Qed.

(** The preparation leaves live and protected invocations alone. *)
Lemma delete_expired_one_visible now s id s' id' v :
  Mirrored s → delete_expired_one now s id = Ok s' →
  index_view (store_index s) id' = Some v → view_protected now v = true →
  visible s' id' = visible s id'.
Proof.
  intros Hs Hop Hv Hp. unfold delete_expired_one, mutate in Hop.
  apply bind_Ok_inv in Hop as ([] & _ & Hop). apply bind_Ok_inv in Hop as ([ev durable] & Hread & Hop).
  destruct (merge_index_telemetry _ _ _) as [metrics generation]. cbn [mbind result_bind] in Hop.
  injection Hop as <-. set (durable' := MkDurable _ _ _ _).
  unfold read_durable in Hread. destruct (disk s !! id) as [ev'|] eqn:Hdisk; [|done]. injection Hread as -> <-.
  unfold visible. rewrite (proj1 (commit_record_views _ _ _ _ _ _ _)). simpl.
  destruct (decide (id' = id)) as [-> | Hne]; [|by rewrite lookup_insert_ne].
  rewrite lookup_insert_eq, Hdisk. simpl. f_equal. rewrite (Hs id). unfold disk_view. rewrite Hdisk. simpl.
  rewrite (Hs id) in Hv. unfold disk_view in Hv. rewrite Hdisk in Hv. injection Hv as <-.
  unfold view_protected in Hp. simpl in Hp. destruct (durable_deferred (manifest ev)) as [d|] eqn:Hd;
    [|unfold durable_view; simpl; by rewrite Hd].
  destruct (is_expired now _ d) eqn:Hex; [|unfold durable_view; simpl; by rewrite Hd].
  unfold is_expired in Hex. destruct (is_terminal _); [|done]. simpl in Hp, Hex. by rewrite Hex in Hp.
Qed.

Lemma delete_expired_all_visible now ids s s' id v :
  Mirrored s → delete_expired_all now ids s = Ok s' →
  index_view (store_index s) id = Some v → view_protected now v = true →
  Mirrored s' ∧ visible s' id = visible s id.
Proof.
  revert s. induction ids as [|id0 ids IH]; intros s Hs; cbn [delete_expired_all]; [by intros [= ->]|].
  intros (s1 & Hone & Hall)%bind_Ok_inv Hv Hp.
  pose proof (mutate_mirrored _ _ _ _ _ Hs Hone) as Hs1.
  pose proof (delete_expired_one_visible _ _ _ _ _ _ Hs Hone Hv Hp) as Hvis.
  assert (index_view (store_index s1) id = Some v) as Hv1 by (unfold visible in Hvis; congruence).
  destruct (IH s1 Hs1 Hall Hv1 Hp) as [? ->]. done.
Qed.

Lemma refresh_live_one_visible s id id' : visible (refresh_live_one s id) id' = visible s id'.
Proof.
  unfold refresh_live_one. destruct (entries (store_index s) !! id) as [entry|] eqn:Hid; [|done].
  destruct (entry_terminal entry); [done|]. unfold visible, index_view. simpl. f_equal.
  destruct (decide (id' = id)) as [-> | Hne]; [by rewrite lookup_insert_eq, Hid|by rewrite lookup_insert_ne].
Qed.

Lemma refresh_live_one_disk s id : disk (refresh_live_one s id) = disk s.
Proof.
  unfold refresh_live_one. destruct (entries (store_index s) !! id) as [entry|]; [|done].
  by destruct (entry_terminal entry).
Qed.

Lemma refresh_live_visible s ids id :
  visible (foldl refresh_live_one s ids) id = visible s id ∧ disk (foldl refresh_live_one s ids) = disk s.
Proof.
  revert s. induction ids as [|id0 ids IH]; intros s; [done|]. simpl.
  destruct (IH (refresh_live_one s id0)) as [-> ->]. by rewrite refresh_live_one_visible, refresh_live_one_disk.
Qed.

Lemma refresh_live_mirrored s : Mirrored s → Mirrored (refresh_live s).
Proof.
  intros Hs id. unfold refresh_live. destruct (refresh_live_visible s (live_ids s) id) as [Hv Hd].
  unfold visible in Hv. injection Hv as -> _. unfold disk_view. rewrite Hd. apply Hs.
Qed.

End retention.

Module RetentionExamples.
#[local] Existing Instance StoreExamples.example_files.

Definition ended_record : InvocationRecord :=
  MkRecord (new_request 7 1000 "/w" Build []) Succeeded (Some 1010) (Some 1020) (Some (Exit 0)) None None
    default_metrics None None.
Definition ended_store : StoreInner := StoreExamples.example_run (SCreate ended_record None) empty_store.

Lemma ended_store_mirrored : Mirrored ended_store.
Proof.
  apply reachable_mirrored, StoreExamples.example_run_reachable; [apply store_empty|vm_compute; reflexivity].
Qed.

Lemma ended_store_index : IndexOk (store_index ended_store).
Proof.
  apply insert_entry_ok; [apply default_index_ok|reflexivity|vm_compute; discriminate|vm_compute; discriminate].
Qed.

Lemma collect_garbage_bounds_witness :
  retained_bytes (store_index ended_store) = 100 ∧
  retained_bytes (store_index (gc_store (collect_garbage 5000 2000 1000 ended_store))) = 0 ∧
  Settled 5000 (gc_store (collect_garbage 5000 2000 1000 ended_store)) 7.
Proof.
  split_and!; [vm_compute; reflexivity|vm_compute; reflexivity|].
  destruct (entries (store_index ended_store) !! 7) as [entry|] eqn:Hentry;
    [|vm_compute in Hentry; discriminate Hentry].
  apply (proj2 (collect_garbage_bounds 5000 2000 1000 ended_store ended_store_mirrored ended_store_index
           ltac:(lia)) 7 entry Hentry); vm_compute in Hentry; injection Hentry as <-;
    [reflexivity|vm_compute; discriminate].
Defined.

End RetentionExamples.
