(* ===== verification/Recovery.v ===== *)
(** * Restart and recovery (crates/bazel-mcp-store/src/recovery.rs, the opening
    and refreshing of the store in storage.rs, the decoding of manifest.rs)

    A store that opens its cache rebuilds the index from the manifests on disk
    and then marks as interrupted every invocation that had not ended and whose
    owner lock no process holds.  A running store rebuilds its index from disk
    when another process has published a change.

    The directories are visited in an arbitrary order.  The JSON decoding is
    part of the disk: a manifest is its record, whose schema version is checked
    as the source does.  Of the failures of the file system, the missing
    manifest is modelled. *)

From S2P Require Import Prelude Types Record Index Store.

Section recovery.
Context `{Files : Serializer}.

(** The tail of [decode]: only the current schema is accepted. *)
Definition migrate_v1 (durable : DurableRecord) : DurableRecord := durable.
Definition decode_manifest (durable : DurableRecord) : result StoreError DurableRecord :=
  if schema_version durable =? 1 then Ok (migrate_v1 durable)
  else Err (UnsupportedRecordSchema (schema_version durable) "manifest.json").

(** [index_manifest_bytes]. *)
Definition index_manifest_bytes (id : InvocationId) (ev : Evidence) (index : Index)
    : result StoreError Index :=
  durable ← decode_manifest (manifest ev);
  _ ← reject_if (negb (request_id (header_request (durable_invocation durable)) =? id))
        (CorruptRecord "manifest.json" "record ID does not match directory");
  let durable := if is_terminal (header_state (durable_invocation durable)) then durable
                 else set_payload (evidence_payload_size ev) durable in
  let retained := u64_add (payload_bytes durable) (manifest_len (manifest ev)) in
  Ok (insert_entry index id (index_entry durable retained)).

(** [load_index_blocking] over the invocation directories in the order they are
    listed; a directory whose manifest is missing adds nothing. *)
Fixpoint load_index (d : gmap InvocationId Evidence) (directories : list InvocationId) (index : Index)
    : result StoreError Index :=
  match directories with
  | [] => Ok index
  | id :: rest =>
      index ← match d !! id with
              | Some ev => index_manifest_bytes id ev index
              | None => Ok index
              end;
      load_index d rest index
  end.

Definition nonterminal_ids (index : Index) : list InvocationId :=
  omap (fun '(id, entry) => if entry_terminal entry then None else Some id)
    (map_to_list (entries index)).

(** The record an interrupted invocation gets. *)
Definition interrupted_record (now : Z) (h : InvocationHeader) : InvocationRecord :=
  let r := header_into_record h in
  MkRecord (request r) Interrupted (started_at_ms r) (Some now) (Some TerminationInterrupted)
    (Some (MkSummary false "Invocation was interrupted when the previous server stopped" []
             (MkTargetCounts 0 0 0) [] [] (MkTestCounts 0 0 0 0 0) None [] None 0 true (Some HintLog)))
    (run r) (metrics r) (canonical_arguments r) (cancellation_reason r).

(** What [recover_ids] writes for an invocation that had not ended. *)
Definition interrupt (now : Z) (ev : Evidence) (durable : DurableRecord)
    : Evidence * DurableRecord * Z :=
  let record := interrupted_record now (durable_invocation durable) in
  let deferred := (fun deferred =>
    (extend_terminal_expiry (default now (finished_at_ms record)) deferred).1)
      <$> durable_deferred durable in
  persist (write_details ev record)
    (MkDurable (schema_version durable) (header_from_record record) deferred (payload_bytes durable))
    true.

(** One round of [recover_ids]; [owned] tells whether another process holds the
    owner lock, [now] is the clock. The result is the disk and the recovered
    entry. *)
Definition recover_id (owned : InvocationId → bool) (now : Z) (d : gmap InvocationId Evidence)
    (id : InvocationId) : result StoreError (gmap InvocationId Evidence * option IndexEntry) :=
  if owned id then Ok (d, None)
  else match d !! id with
  | None => Ok (d, None)
  | Some ev =>
      durable ← decode_manifest (manifest ev);
      if is_terminal (header_state (durable_invocation durable)) then
        let retained := u64_add (payload_bytes durable) (manifest_len (manifest ev)) in
        Ok (d, Some (index_entry durable retained))
      else
        let '(ev, durable, retained) := interrupt now ev durable in
        Ok (<[id := ev]> d, Some (index_entry durable retained))
  end.

Fixpoint recover_ids (owned : InvocationId → bool) (now : Z) (d : gmap InvocationId Evidence)
    (ids : list InvocationId)
    : result StoreError (gmap InvocationId Evidence * list (InvocationId * IndexEntry)) :=
  match ids with
  | [] => Ok (d, [])
  | id :: rest =>
      '(d, entry) ← recover_id owned now d id;
      '(d, recovered) ← recover_ids owned now d rest;
      Ok (d, match entry with Some entry => (id, entry) :: recovered | None => recovered end)
  end.

Definition replace_all (index : Index) (recovered : list (InvocationId * IndexEntry)) : Index :=
  foldl (fun index '(id, entry) => replace_entry index id entry) index recovered.

(** [recover_interrupted]. *)
Definition recover_interrupted (owned : InvocationId → bool) (now : Z) (d : gmap InvocationId Evidence)
    (index : Index) : result StoreError (gmap InvocationId Evidence * Index * Z) :=
  '(d, recovered) ← recover_ids owned now d (nonterminal_ids index);
  Ok (d, replace_all index recovered, Z.of_nat (length recovered)).

(** [Store::open] on a cache. *)
Definition open_store (owned : InvocationId → bool) (now : Z) (directories : list InvocationId)
    (d : gmap InvocationId Evidence) : result StoreError StoreInner :=
  index ← load_index d directories default_index;
  '(d, index, recovered) ← recover_interrupted owned now d index;
  Ok (MkStore d index ∅ (if recovered =? 0 then 0 else 1)).

(** [recover_orphaned_invocations] of an open store. *)
Definition recover_orphaned_invocations (owned : InvocationId → bool) (now : Z) (s : StoreInner)
    : result StoreError (StoreInner * Z) :=
  '(d, recovered) ← recover_ids owned now (disk s) (nonterminal_ids (store_index s));
  let index := replace_all (store_index s) recovered in
  if bool_decide (recovered = []) then Ok (s, 0)
  else Ok (publish_change (MkStore d index (owner_leases s) (published s)), Z.of_nat (length recovered)).

(** [refresh_index] when a change was observed or the refresh is forced. *)
Definition refresh_index (directories : list InvocationId) (s : StoreInner) : result StoreError StoreInner :=
  refreshed ← load_index (disk s) directories default_index;
  Ok (MkStore (disk s) (replace_from_disk (store_index s) refreshed) (owner_leases s) (published s)).
End recovery.

(** ** Manifests are kept under their identifier and in the current schema *)

Definition kept (id : InvocationId) (durable : DurableRecord) : Prop :=
  schema_version durable = CURRENT_SCHEMA_VERSION ∧
  request_id (header_request (durable_invocation durable)) = id.
Definition WellKept (d : gmap InvocationId Evidence) : Prop :=
  ∀ id ev, d !! id = Some ev → kept id (manifest ev).

Section kept.
Context `{Files : Serializer}.

Lemma kept_insert d id ev : WellKept d → kept id (manifest ev) → WellKept (<[id := ev]> d).
Proof. intros Hd Hk id' ev' [[<- <-]|[_ H]]%lookup_insert_Some; [done|by apply Hd]. Qed.

Lemma commit_record_kept s id ev durable recount generation :
  WellKept (disk s) → kept id durable → WellKept (disk (commit_record s id ev durable recount generation)).
Proof. intros Hs Hk. cbn. apply kept_insert; [done|]. by destruct recount. Qed.

Lemma read_durable_kept s id ev durable :
  WellKept (disk s) → read_durable s id = Ok (ev, durable) → kept id durable.
Proof.
  unfold read_durable. destruct (disk s !! id) as [ev'|] eqn:Hid; [|done]. intros Hs [= <- <-].
  by apply Hs.
Qed.

Lemma transition_request now next r r' : transition now next r = Ok r' → request r' = request r.
Proof. unfold transition. intros (u & _ & [= <-])%bind_Ok_inv. done. Qed.

Lemma mutate_kept s id recount operation s' :
  WellKept (disk s) → mutate s id recount operation = Ok s' →
  (∀ durable durable', operation durable = Ok durable' → kept id durable → kept id durable') →
  WellKept (disk s').
Proof.
  intros Hs H Hop. unfold mutate in H. apply bind_Ok_inv in H as ([] & _ & H).
  apply bind_Ok_inv in H as ([ev durable] & Hread & H).
  destruct (merge_index_telemetry _ _ _) as [m g].
  apply bind_Ok_inv in H as (durable' & Hdurable & [= <-]).
  apply commit_record_kept; [done|]. eapply Hop; [exact Hdurable|].
  by eapply read_durable_kept in Hread.
Qed.

Lemma update_deferred_kept id id' f durable durable' :
  update_deferred id f durable = Ok durable' → kept id' durable → kept id' durable'.
Proof. by intros (d & _ & [= <-])%bind_Ok_inv. Qed.

Lemma transition_kept s id now next termination summary s' r :
  WellKept (disk s) → store_transition s id now next termination summary = Ok (s', r) →
  WellKept (disk s').
Proof.
  intros Hs H. unfold store_transition in H. apply bind_Ok_inv in H as ([] & _ & H).
  destruct (disk s !! id) as [ev|] eqn:Hid.
  - destruct (merge_index_telemetry _ _ _) as [m g].
    destruct (transition _ _ _) as [moved|] eqn:Hmove; [|done]. injection H as <- _.
    apply transition_request in Hmove. destruct (Hs _ _ Hid) as [Hschema Hreq].
    assert (WellKept (disk (commit_record s id (if is_terminal next then write_details ev
      (set_outcome termination summary moved) else ev)
      (MkDurable (schema_version (manifest ev))
        (header_from_record (set_outcome termination summary moved))
        (if is_terminal next then extend_deferred (default now (finished_at_ms
          (set_outcome termination summary moved))) (durable_deferred (manifest ev))
         else durable_deferred (manifest ev)) (payload_bytes (manifest ev)))
      (is_terminal next) g))).
    { apply commit_record_kept; [done|]. split; [done|]. cbn. by rewrite Hmove. }
    by destruct (is_terminal next).
  - apply bind_Ok_inv in H as ([index record] & _ & H). injection H as <- _.
    by destruct (is_terminal next).
Qed.

Lemma finish_kept s id now c s' r :
  WellKept (disk s) → finish_invocation s id now c = Ok (s', r) → WellKept (disk s').
Proof.
  intros Hs H. unfold finish_invocation in H. destruct (negb _).
  { by apply bind_Ok_inv in H as (h & _ & ?). }
  apply bind_Ok_inv in H as ([] & _ & H). apply bind_Ok_inv in H as ([ev durable] & Hread & H).
  apply read_durable_kept in Hread as [Hschema Hreq]; [|done].
  destruct (transition _ _ _) as [moved|] eqn:Hmove; [|done].
  destruct (merge_index_telemetry _ _ _) as [m g]. injection H as <- _.
  apply transition_request in Hmove.
  unfold release_owner. cbn [disk]. apply commit_record_kept; [done|]. split; [done|]. cbn.
  by rewrite Hmove.
Qed.

Lemma perform_kept op s s' : WellKept (disk s) → perform op s = Ok s' → WellKept (disk s').
Proof.
  intros Hs Hop. destruct op; simpl in Hop.
  all: try (eapply mutate_kept; [done|exact Hop|intros ? ?; apply update_deferred_kept]).
  - apply bind_Ok_inv in Hop as (u & _ & [= <-]). case_match; cbn; by apply kept_insert.
  - apply fmap_fst_Ok in Hop as [r Hop]. by eapply transition_kept.
  - apply fmap_fst_Ok in Hop as [r Hop]. by eapply finish_kept.
  - eapply mutate_kept; [done|exact Hop|]. by intros ? ? [= <-].
  - unfold replace_artifacts in Hop. apply bind_Ok_inv in Hop as ([] & _ & Hop).
    apply bind_Ok_inv in Hop as ([ev durable] & Hread & [= <-]). cbn. apply kept_insert; [done|].
    by eapply read_durable_kept in Hread.
  - injection Hop as <-. destruct (get_deferred_result_state s id wanted now_ms) as [-> | Hm]; [done|].
    eapply mutate_kept; [done|exact Hm|]. by intros ? ? [= <-].
  - by apply bind_Ok_inv in Hop as ([index schedule] & _ & [= <-]).
  - by apply bind_Ok_inv in Hop as ([index schedule] & _ & [= <-]).
Qed.

Lemma reachable_kept s : store_reachable s → WellKept (disk s).
Proof. induction 1 as [|op s s' _ IH Hop]; [done|by eapply perform_kept]. Qed.
End kept.

(** ** Loading and recovering *)

Section theorems.
Context `{Files : Serializer}.

Definition ended (ev : Evidence) : bool :=
  is_terminal (header_state (durable_invocation (manifest ev))).

(** The evidence an invocation has after recovery. *)
Definition recovered_evidence (owned : InvocationId → bool) (now : Z) (id : InvocationId) (ev : Evidence)
    : Evidence :=
  if owned id || ended ev then ev else (interrupt now ev (manifest ev)).1.1.

Lemma decode_kept id durable : kept id durable → decode_manifest durable = Ok durable.
Proof. intros [Hs _]. unfold decode_manifest. by rewrite Hs. Qed.

Lemma interrupt_ended now ev : ended (interrupt now ev (manifest ev)).1.1 = true.
Proof. done. Qed.

Lemma recovered_evidence_idem owned now id ev :
  recovered_evidence owned now id (recovered_evidence owned now id ev) =
  recovered_evidence owned now id ev.
Proof.
  unfold recovered_evidence. destruct (owned id || ended ev) eqn:H; [by rewrite H|].
  by rewrite interrupt_ended, orb_true_r.
Qed.

Lemma recovered_evidence_kept owned now id ev :
  kept id (manifest ev) → kept id (manifest (recovered_evidence owned now id ev)).
Proof. unfold recovered_evidence. by destruct (owned id || ended ev). Qed.

(** A loaded entry shows what its manifest says. *)
Lemma index_manifest_views id ev index :
  kept id (manifest ev) → ∃ index', index_manifest_bytes id ev index = Ok index' ∧
    ∀ id', index_view index' id' =
      if decide (id' = id) then Some (durable_view (manifest ev)) else index_view index id'.
Proof.
  intros Hk. unfold index_manifest_bytes. rewrite (decode_kept id) by done. destruct Hk as [_ Hid].
  cbn [mbind result_bind]. rewrite Hid, Z.eqb_refl. cbn. eexists. split; [done|].
  intros id'. rewrite index_view_insert. case_decide; [|done]. by case_match.
Qed.

Lemma load_index_views d directories index :
  WellKept d → ∃ index', load_index d directories index = Ok index' ∧
    ∀ id, index_view index' id =
      match (if decide (id ∈ directories) then d !! id else None) with
      | Some ev => Some (durable_view (manifest ev))
      | None => index_view index id
      end.
Proof.
  intros Hd. revert index. induction directories as [|id rest IH]; intros index; [by eexists|].
  assert (∃ index1, match d !! id with
            | Some ev => index_manifest_bytes id ev index
            | None => Ok index
            end = Ok index1 ∧
            ∀ id', index_view index1 id' = match (if decide (id' = id) then d !! id' else None) with
                                           | Some ev => Some (durable_view (manifest ev))
                                           | None => index_view index id'
                                           end) as (index1 & Hload & Hviews).
  { destruct (d !! id) as [ev|] eqn:Hid.
    - destruct (index_manifest_views id ev index (Hd _ _ Hid)) as (index1 & Hload & Hviews).
      exists index1. split; [done|]. intros id'. rewrite Hviews.
      case_decide; [subst; by rewrite Hid|done].
    - exists index. split; [done|]. intros id'. case_decide; [subst; by rewrite Hid|done]. }
  destruct (IH index1) as (index' & Hrest & Hviews'). exists index'. cbn [load_index].
  rewrite Hload. split; [done|]. intros id'. rewrite Hviews', Hviews.
  repeat case_decide; try set_solver. subst. by destruct (d !! id).
Qed.

Lemma recover_id_spec owned now d id :
  WellKept d → ∃ d' entry, recover_id owned now d id = Ok (d', entry) ∧ WellKept d' ∧
    (∀ id', d' !! id' = (if decide (id' = id) then recovered_evidence owned now id' else (fun ev => ev))
                          <$> d !! id') ∧
    (entry_view <$> entry) =
      if owned id then None
      else (fun ev => durable_view (manifest (recovered_evidence owned now id ev))) <$> d !! id.
Proof.
  intros Hd. unfold recover_id, recovered_evidence. destruct (owned id) eqn:Howned.
  { eexists d, None. split_and!; [done..| |done]. intros id'. case_decide as Hid.
    - subst. rewrite Howned. by destruct (d !! id).
    - by destruct (d !! id'). }
  destruct (d !! id) as [ev|] eqn:Hid.
  2: { eexists d, None. split_and!; [done..| |done]. intros id'.
       case_decide; [subst; by rewrite Hid|by destruct (d !! id')]. }
  rewrite (decode_kept id) by (by apply Hd). cbn [mbind result_bind].
  change (is_terminal (header_state (durable_invocation (manifest ev)))) with (ended ev).
  destruct (ended ev) eqn:Hended.
  - eexists d, (Some _). split_and!; [done..| |].
    + intros id'. case_decide; [subst; rewrite Hid; cbn; by rewrite Howned, Hended|by destruct (d !! id')].
    + cbn. by rewrite Hended.
  - eexists (<[id := (interrupt now ev (manifest ev)).1.1]> d), (Some _). split_and!; [done| | |].
    + apply kept_insert; [done|]. by apply Hd in Hid.
    + intros id'. case_decide as Heq.
      * subst. rewrite lookup_insert_eq, Hid. cbn. by rewrite Howned, Hended.
      * rewrite lookup_insert_ne by done. by destruct (d !! id').
    + cbn. by rewrite Hended.
Qed.

Lemma recover_ids_spec owned now d ids :
  WellKept d → ∃ d' recovered, recover_ids owned now d ids = Ok (d', recovered) ∧
    (∀ id, d' !! id = (if decide (id ∈ ids) then recovered_evidence owned now id else (fun ev => ev))
                        <$> d !! id) ∧
    ∀ index id, index_view (replace_all index recovered) id =
      if decide (id ∈ ids ∧ owned id = false ∧ is_Some (d !! id))
      then (fun ev => durable_view (manifest ev)) <$> d' !! id else index_view index id.
Proof.
  revert d. induction ids as [|id rest IH]; intros d Hd.
  { eexists d, []. split_and!; [done| |].
    - intros id. rewrite decide_False by set_solver. by destruct (d !! id).
    - intros index id. rewrite decide_False by set_solver. done. }
  destruct (recover_id_spec owned now d id Hd) as (d1 & entry & Hone & Hd1 & Hdisk1 & Hview).
  destruct (IH d1 Hd1) as (d' & recovered & Hrest & Hdisk & Hviews).
  eexists d', _. cbn [recover_ids]. rewrite Hone. cbn [mbind result_bind]. rewrite Hrest.
  cbn [mbind result_bind]. split_and!; [done| |].
  - intros id'. rewrite Hdisk, Hdisk1. destruct (d !! id') as [ev|]; [|by repeat case_decide].
    destruct (decide (id' = id)) as [Ha|Ha], (decide (id' ∈ rest)) as [Hb|Hb].
    + rewrite decide_True by (subst; by left). cbn. by rewrite recovered_evidence_idem.
    + by rewrite decide_True by (subst; by left).
    + by rewrite decide_True by (by right).
    + by rewrite decide_False by (by intros [?|?]%elem_of_cons).
  - intros index id'.
    assert (is_Some (d1 !! id') ↔ is_Some (d !! id')) as Hsome
      by (rewrite Hdisk1; apply fmap_is_Some).
    destruct (decide (id' ∈ rest ∧ owned id' = false ∧ is_Some (d !! id'))) as [Hin|Hnot].
    { rewrite decide_True by set_solver.
      destruct entry as [e|]; [change (replace_all index ((id, e) :: recovered))
        with (replace_all (replace_entry index id e) recovered)|];
        rewrite Hviews; (rewrite decide_True; [done|by rewrite Hsome]). }
    assert (¬ (id' ∈ rest ∧ owned id' = false ∧ is_Some (d1 !! id'))) as Hnot1 by (by rewrite Hsome).
    destruct entry as [e|].
    + change (replace_all index ((id, e) :: recovered))
        with (replace_all (replace_entry index id e) recovered).
      rewrite Hviews, (decide_False (P:=id' ∈ rest ∧ _)), index_view_replace by done.
      case_decide as Heq.
      * subst id'. destruct (owned id) eqn:Howned; [done|].
        destruct (d !! id) as [ev|] eqn:Hid; [|done].
        rewrite decide_True by (split_and!; [set_solver|done|by eexists]).
        rewrite Hdisk, Hdisk1, Hid, (decide_True (P:=id = id)) by done. cbn in Hview |- *. rewrite Hview.
        case_decide; cbn; by rewrite ?recovered_evidence_idem.
      * rewrite decide_False; [done|]. intros (Hin & Ho & Hs). apply Hnot. set_solver.
    + rewrite Hviews, (decide_False (P:=id' ∈ rest ∧ _)) by done.
      rewrite decide_False; [done|]. intros (Hin & Ho & Hs). apply elem_of_cons in Hin as [->|Hin]; [|by apply Hnot].
      rewrite Ho in Hview. destruct Hs as [ev Hev]. by rewrite Hev in Hview.
Qed.

Lemma nonterminal_ids_spec index id :
  id ∈ nonterminal_ids index ↔ ∃ entry, entries index !! id = Some entry ∧ entry_terminal entry = false.
Proof.
  unfold nonterminal_ids. rewrite list_elem_of_omap. split.
  - intros ([id' entry] & Hin%elem_of_map_to_list & Hx). destruct (entry_terminal entry) eqn:Ht; [done|].
    injection Hx as ->. eauto.
  - intros (entry & Hid & Ht). exists (id, entry). rewrite elem_of_map_to_list. split; [done|].
    by rewrite Ht.
Qed.

(** Whether an invocation has ended can be read off its view. *)
Lemma view_terminal index id entry v :
  entries index !! id = Some entry → index_view index id = Some v →
  entry_terminal entry = is_terminal (header_state v.1).
Proof. unfold index_view. intros -> [= <-]. done. Qed.

(** C27: a store that opens the cache of a stopped one, listing its directories
    in any order, succeeds: its index mirrors the disk, every invocation that
    had ended and every one whose owner is still running is exactly as it was
    left, and every other one is now interrupted, with the same request and a
    deferred result that expires no earlier. *)
Theorem open_recovers (owned : InvocationId → bool) (now : Z) (s : StoreInner)
    (directories : list InvocationId) :
  store_reachable s → (∀ id, is_Some (disk s !! id) → id ∈ directories) →
  ∃ s', open_store owned now directories (disk s) = Ok s' ∧ Mirrored s' ∧
    (∀ id, disk s !! id = None → disk s' !! id = None) ∧
    (∀ id ev, disk s !! id = Some ev → owned id || ended ev = true → disk s' !! id = Some ev) ∧
    (∀ id ev, disk s !! id = Some ev → owned id || ended ev = false → ∃ ev',
       disk s' !! id = Some ev' ∧
       header_state (durable_invocation (manifest ev')) = Interrupted ∧
       header_finished_at_ms (durable_invocation (manifest ev')) = Some now ∧
       header_request (durable_invocation (manifest ev')) = header_request (durable_invocation (manifest ev)) ∧
       durable_deferred (manifest ev') =
         (fun deferred => (extend_terminal_expiry now deferred).1) <$> durable_deferred (manifest ev)) ∧
    (∀ id entry, entries (store_index s') !! id = Some entry → owned id = false →
       entry_terminal entry = true).
Proof.
  intros Hreach Hdirs. pose proof (reachable_kept s Hreach) as Hkept.
  destruct (load_index_views (disk s) directories default_index Hkept) as (index & Hload & Hviews).
  destruct (recover_ids_spec owned now (disk s) (nonterminal_ids index) Hkept)
    as (d' & recovered & Hrec & Hdisk & Hrviews).
  assert (∀ id, index_view index id = (fun ev => durable_view (manifest ev)) <$> disk s !! id) as Hload'.
  { intros id. rewrite Hviews. destruct (disk s !! id) as [ev|] eqn:Hid; [|by case_decide].
    by rewrite decide_True by (apply Hdirs; rewrite Hid; by eexists). }
  assert (∀ id ev, disk s !! id = Some ev → (id ∈ nonterminal_ids index ↔ ended ev = false)) as Hnt.
  { intros id ev Hid. rewrite nonterminal_ids_spec. specialize (Hload' id). rewrite Hid in Hload'.
    unfold index_view in Hload'. destruct (entries index !! id) as [entry|] eqn:He; [|done].
    assert (entry_terminal entry = ended ev) as Ht.
    { apply (view_terminal index id entry (durable_view (manifest ev))); [done|].
      unfold index_view. by rewrite He. }
    rewrite <- Ht. naive_solver. }
  assert (∀ id, d' !! id = recovered_evidence owned now id <$> disk s !! id) as Hall.
  { intros id. rewrite Hdisk. destruct (disk s !! id) as [ev|] eqn:Hid; [|by case_decide].
    case_decide as Hin; [done|]. cbn. unfold recovered_evidence.
    destruct (ended ev) eqn:Hended; [by rewrite orb_true_r|]. by rewrite (Hnt _ _ Hid) in Hin. }
  eexists (MkStore d' (replace_all index recovered) ∅ _). split.
  { unfold open_store. rewrite Hload. cbn [mbind result_bind]. unfold recover_interrupted.
    rewrite Hrec. cbn. reflexivity. }
  assert (Mirrored (MkStore d' (replace_all index recovered) ∅
    (if Z.of_nat (length recovered) =? 0 then 0 else 1))) as Hmirror.
  { intros id. cbn. rewrite Hrviews, Hload'. unfold disk_view. cbn. case_decide as Hin; [done|].
    rewrite Hall. destruct (disk s !! id) as [ev|] eqn:Hid; [|done]. cbn. unfold recovered_evidence.
    destruct (owned id || ended ev) eqn:Hor; [done|]. apply orb_false_iff in Hor as [Ho He].
    destruct Hin. split_and!; [by apply (Hnt _ _ Hid)|done|by eexists]. }
  split_and!; [exact Hmirror|..]; cbn.
  - intros id Hid. by rewrite Hall, Hid.
  - intros id ev Hid Hor. rewrite Hall, Hid. cbn. unfold recovered_evidence. by rewrite Hor.
  - intros id ev Hid Hor. rewrite Hall, Hid. cbn. unfold recovered_evidence. rewrite Hor.
    eexists. split; [done|]. by split_and!.
  - intros id entry He Ho. pose proof (Hmirror id) as Hm. cbn in Hm.
    unfold disk_view in Hm. cbn in Hm. rewrite Hall in Hm.
    destruct (disk s !! id) as [ev|] eqn:Hid.
    + rewrite (view_terminal _ _ _ _ He Hm). unfold recovered_evidence. rewrite Ho. cbn.
      destruct (ended ev) eqn:Hended; done.
    + unfold index_view in Hm. by rewrite He in Hm.
Qed.
End theorems.

Lemma open_recovers_witness : ∃ s',
  open_store (Files:=StoreExamples.example_files) (fun _ => false) 99
    (elements (dom (disk StoreExamples.example_running))) (disk StoreExamples.example_running) = Ok s' ∧
  Mirrored s'.
Proof.
  destruct (open_recovers (Files:=StoreExamples.example_files) (fun _ => false) 99
    StoreExamples.example_running (elements (dom (disk StoreExamples.example_running)))
    StoreExamples.example_running_reachable
    (fun id Hid => proj2 (elem_of_elements _ _) (proj2 (elem_of_dom _ _) Hid)))
    as (s' & Hopen & Hm & _).
  exists s'. split; [exact Hopen|exact Hm].
Defined.
