(* ===== verification/Listing.v ===== *)
(** * Listing invocations and deferred results
    (crates/bazel-mcp-store/src/invocation_repository.rs and
    deferred_repository.rs)

    Both listings walk an ordered secondary index from the newest key down,
    skip what an earlier page has covered, filter, and stop at an item limit or
    a scan limit, whichever comes first; the position after the last examined
    entry becomes the cursor of the next page.  The theorem is that following
    the cursors of [list_invocations] shows every matching invocation exactly
    once, newest first, whatever the limits are. *)

From S2P Require Import Prelude Collections Types Record Cursor Index Store Retention.

(** ** The text of an identifier *)

(** [InvocationId::to_string]: a UUID has 128 bits, its text parses to it, and
    texts are ordered as the identifiers are. *)
Definition valid_id (id : InvocationId) : Prop := 0 ≤ id < 2 ^ 128.
Class IdText `{CursorCodec} : Type := {
  id_to_string : InvocationId → string;
  id_uuid : ∀ id, valid_id id → ∃ uuid,
    uuid_parse_str (id_to_string id) = Some uuid ∧ uuid_to_string uuid = id_to_string id;
  id_order : ∀ a b, valid_id a → valid_id b → str_ltb (id_to_string a) (id_to_string b) = (a <? b);
}.

(** [item_limit.clamp(1, 200)] and [scan_limit.clamp(item_limit.max(1), 20_000)]:
    the second panics when the requested item limit exceeds 20,000. *)
Definition list_limits (page : PageRequest) : option (nat * nat) :=
  items ← clamp (item_limit page) 1 200;
  scans ← clamp (scan_limit page) (Z.max (item_limit page) 1) 20000;
  Some (Z.to_nat items, Z.to_nat scans).

(** The local variables of the loops. *)
Record ListState (A : Type) : Type := MkListState {
  list_items : list A;
  list_cursors : list string;
  list_continuation : option string;
  list_scanned : nat;
  list_truncated : bool;
}.
Arguments MkListState {A} _ _ _ _ _.
Arguments list_items {A} _.
Arguments list_cursors {A} _.
Arguments list_continuation {A} _.
Arguments list_scanned {A} _.
Arguments list_truncated {A} _.

Definition stop {A} (s : ListState A) : ListState A :=
  MkListState (list_items s) (list_cursors s) (list_continuation s) (list_scanned s) true.

Definition list_page {A} (s : ListState A) : Page A :=
  MkPage (list_items s) None None (if list_truncated s then list_continuation s else None)
    (list_truncated s) (list_cursors s).

Section listing.
Context `{Text : IdText}.

(** [requested_at_ms < cursor.requested_at_ms || (.. == .. && id < cursor.id)],
    true without a cursor. *)
Definition after_cursor (cursor : option (Z * string)) (timestamp : Z) (id : string) : bool :=
  match cursor with
  | None => true
  | Some (timestamp', id') =>
      (timestamp <? timestamp') || ((timestamp =? timestamp') && str_ltb id id')
  end.

(** *** Invocations *)
Section invocations.
Context (index : Index) (workspace_text state_text command_text : option string).
Context (state : option InvocationState) (command : option BazelCommand).
Context (cursor : option (Z * string)) (item_limit scan_limit : nat).

Definition invocation_matches (entry : IndexEntry) : bool :=
  match state with
  | None => true | Some state => bool_decide (header_state (entry_record entry) = state)
  end &&
  match command with
  | None => true
  | Some command => bool_decide (Types.command (header_request (entry_record entry)) = command)
  end.

Fixpoint invocations_loop (keys : list (Z * InvocationId)) (s : ListState InvocationHeader)
    : result StoreError (ListState InvocationHeader) :=
  match keys with
  | [] => Ok s
  | (requested_at_ms, id) :: rest =>
      if negb (after_cursor cursor requested_at_ms (id_to_string id)) then invocations_loop rest s
      else if (list_scanned s =? scan_limit)%nat then Ok (stop s)
      else match entries index !! id with
      | None => invocations_loop rest s
      | Some entry =>
          let matches := invocation_matches entry in
          if matches && (length (list_items s) =? item_limit)%nat then Ok (stop s)
          else
            position ← encode_invocation_cursor
              (new_invocation_cursor workspace_text state_text command_text requested_at_ms
                 (id_to_string id));
            invocations_loop rest
              (MkListState
                 (if matches then list_items s ++ [entry_record entry] else list_items s)
                 (if matches then list_cursors s ++ [position] else list_cursors s)
                 (Some position) (S (list_scanned s)) (list_truncated s))
      end
  end.
End invocations.

(** [Option::map(decode).transpose()]. *)
Definition decode_position {C} (decode : string → result StoreError C) (position : C → Z * string)
    (cursor : option string) : result StoreError (option (Z * string)) :=
  match cursor with
  | None => Ok None
  | Some value => c ← decode value; Ok (Some (position c))
  end.

(** [list_invocations], once the index is fresh; [None] is the panic of
    [clamp]. *)
Definition list_invocations (index : Index) (workspace : option PathBuf)
    (state : option InvocationState) (command : option BazelCommand) (page : PageRequest)
    : option (result StoreError (Page InvocationHeader)) :=
  '(item_limit, scan_limit) ← list_limits page;
  let state_text := state_as_str <$> state in
  let command_text := command_as_str <$> command in
  Some (
    cursor ← decode_position
      (fun value => decode_invocation_cursor_for value workspace state_text command_text)
      (fun c => (cursor_requested_at_ms c, invocation_cursor_id c)) (cursor page);
    let ordered := match workspace with
      | Some workspace => default [] ((fun filed => rev (ordered_keys filed)) <$> by_workspace index !! workspace)
      | None => rev (ordered_keys (by_requested index))
      end in
    s ← invocations_loop index workspace state_text command_text state command cursor
          item_limit scan_limit ordered (MkListState [] [] None 0 false);
    Ok (list_page s)).

(** *** Deferred results *)
Section deferred.
Context (index : Index) (wanted : DeferredRetrieval) (now_ms : Z).
Context (cursor : option (Z * string)) (item_limit scan_limit : nat).

Fixpoint deferred_loop (keys : list (Z * InvocationId)) (s : ListState DeferredResultView)
    : result StoreError (ListState DeferredResultView) :=
  match keys with
  | [] => Ok s
  | (_, id) :: rest =>
      match entries index !! id with
      | None => deferred_loop rest s
      | Some entry =>
          match entry_deferred entry with
          | None => deferred_loop rest s
          | Some deferred =>
              if negb (after_cursor cursor (created_at_ms deferred)
                         (id_to_string (invocation_id deferred)))
              then deferred_loop rest s
              else if (list_scanned s =? scan_limit)%nat then Ok (stop s)
              else
                let matches := bool_decide (retrieval deferred = wanted) &&
                               negb (is_expired now_ms (entry_terminal entry) deferred) in
                if matches && (length (list_items s) =? item_limit)%nat then Ok (stop s)
                else
                  position ← encode_deferred_cursor
                    (new_deferred_cursor (retrieval_as_str wanted) (created_at_ms deferred)
                       (id_to_string (invocation_id deferred)));
                  deferred_loop rest
                    (MkListState
                       (if matches
                        then list_items s ++
                               [MkDeferredView deferred (header_into_record (entry_record entry))]
                        else list_items s)
                       (if matches then list_cursors s ++ [position] else list_cursors s)
                       (Some position) (S (list_scanned s)) (list_truncated s))
          end
      end
  end.
End deferred.

Definition list_deferred_results (index : Index) (wanted : DeferredRetrieval) (now_ms : Z)
    (page : PageRequest) : option (result StoreError (Page DeferredResultView)) :=
  '(item_limit, scan_limit) ← list_limits page;
  Some (
    cursor ← decode_position (fun value => decode_deferred_cursor_for value (retrieval_as_str wanted))
      (fun c => (cursor_created_at_ms c, deferred_cursor_id c)) (cursor page);
    s ← deferred_loop index wanted now_ms cursor item_limit scan_limit
          (rev (ordered_keys (deferred_by_created index))) (MkListState [] [] None 0 false);
    Ok (list_page s)).
End listing.

(** * Theorems *)

(** ** One page over a list of keys *)

Abbreviation Key := (Z * InvocationId)%type.

Definition newer (a b : Key) : Prop := b.1 < a.1 ∨ (b.1 = a.1 ∧ b.2 < a.2).

#[export] Instance newer_trans : Transitive newer.
Proof. intros a b c. unfold newer. lia. Qed.
#[export] Instance newer_dec a b : Decision (newer a b).
Proof. unfold newer. apply _. Defined.

Section scan.
Context (matches : Key → bool).

(** What a page examines: at most [scans] keys, and it stops at a matching one
    when it has no room left for items. The result is the selected keys, the
    last examined one, and whether something was left out. *)
Fixpoint scan (items scans : nat) (keys : list Key) : list Key * option Key * bool :=
  match keys with
  | [] => ([], None, false)
  | key :: rest =>
      if (scans =? 0)%nat || (matches key && (items =? 0)%nat) then ([], None, true)
      else
        let '(selected, last, truncated) :=
          scan (if matches key then pred items else items) (pred scans) rest in
        (if matches key then key :: selected else selected, Some (default key last), truncated)
  end.

Lemma scan_spec items scans keys selected last' truncated :
  scan items scans keys = (selected, last', truncated) →
  ∃ examined left, keys = examined ++ left ∧ selected = filter (fun k => matches k = true) examined ∧
    last' = last examined ∧ (truncated = false → left = []) ∧
    (truncated = true → (0 < items)%nat → (0 < scans)%nat → examined ≠ []).
Proof.
  revert items scans selected last' truncated.
  induction keys as [|key keys IH]; intros items scans selected last' truncated; cbn [scan].
  { intros [= <- <- <-]. by exists [], []. }
  destruct (_ || _) eqn:Hstop.
  { intros [= <- <- <-]. exists [], (key :: keys). split_and!; [done..|].
    intros _ Hi Hs. apply orb_true_iff in Hstop as [H|[_ H]%andb_true_iff]; apply Nat.eqb_eq in H; lia. }
  destruct (scan _ _ keys) as [[selected1 last1] truncated1] eqn:Hscan. intros [= <- <- <-].
  apply IH in Hscan as (examined & left & -> & -> & -> & Hleft & _).
  exists (key :: examined), left. split_and!; [done| | |done|done].
  - rewrite filter_cons. destruct (matches key); [by rewrite decide_True|by rewrite decide_False].
  - destruct examined as [|k examined] using rev_ind; [done|].
    rewrite app_comm_cons, !last_snoc. done.
Qed.
End scan.

(** The keys a cursor leaves, in a list from the newest down. *)
Lemma filter_after (examined left : list Key) c :
  StronglySorted newer (examined ++ left) → last examined = Some c →
  filter (newer c) (examined ++ left) = left.
Proof.
  intros Hs Hlast. destruct examined as [|x examined _] using rev_ind; [done|].
  rewrite last_snoc in Hlast. injection Hlast as ->. rewrite <- app_assoc in Hs |- *.
  rewrite filter_app. apply StronglySorted_app in Hs as (Hbefore & _ & Hs).
  assert (Forall (fun k => ¬ newer c k) examined) as Hnone.
  { apply Forall_forall. intros k Hk. assert (newer k c) by (apply Hbefore; set_solver).
    unfold newer in *. lia. }
  assert (filter (newer c) examined = []) as ->.
  { clear -Hnone. induction Hnone as [|k l Hk _ IH]; [done|]. by rewrite filter_cons, decide_False. }
  cbn [app]. rewrite filter_cons, decide_False by (unfold newer; lia).
  apply StronglySorted_inv in Hs as [_ Hall]. clear -Hall.
  induction Hall as [|y left Hy _ IH]; [done|]. by rewrite filter_cons, decide_True, IH.
Qed.

Lemma StronglySorted_filter {A} (R : relation A) (P : A → Prop) `{!∀ x, Decision (P x)} l :
  StronglySorted R l → StronglySorted R (filter P l).
Proof.
  induction 1 as [|x l _ IH Hall]; [constructor|]. rewrite filter_cons. case_decide; [|done].
  constructor; [done|]. apply Forall_forall. intros y [_ Hy]%list_elem_of_filter.
  rewrite Forall_forall in Hall. by apply Hall.
Qed.

Lemma in_rev_iff_elem {A} (l : list A) x : x ∈ l ↔ x ∈ rev l.
Proof. rewrite !list_elem_of_In. apply in_rev. Qed.

#[export] Instance key_le_total : Total key_le.
Proof. intros a b. unfold key_le. lia. Qed.
#[export] Instance key_le_trans : Transitive key_le.
Proof. intros a b c. unfold key_le. lia. Qed.

(** The keys of a set from the newest down. *)
Lemma ordered_newest keys : StronglySorted newer (rev (ordered_keys keys)).
Proof.
  assert (NoDup (ordered_keys keys)) as Hnd.
  { unfold ordered_keys. rewrite (merge_sort_Permutation key_le (elements keys)). apply NoDup_elements. }
  assert (StronglySorted key_le (ordered_keys keys)) as Hs
    by apply (StronglySorted_merge_sort key_le (elements keys)).
  induction Hs as [|k l Hl IH Hall]; [constructor|]. apply NoDup_cons in Hnd as [Hk Hnd]. cbn [rev].
  apply StronglySorted_app. split_and!; [|by apply IH|repeat constructor].
  intros x y Hx%in_rev_iff_elem Hy%list_elem_of_singleton. subst y.
  rewrite Forall_forall in Hall. apply Hall in Hx as Hle.
  assert (x ≠ k) as Hne by congruence. destruct x as [t i], k as [t' i']. unfold key_le, newer in *.
  cbn in *. assert (t ≠ t' ∨ i ≠ i') by (destruct (decide (t = t')), (decide (i = i')); subst; auto).
  lia.
Qed.

Section pages.
Context `{Codec : CursorCodec, Laws : !CursorCodecLaws, Text : !IdText}.
Context (index : Index) (workspace : option PathBuf).
Context (state : option InvocationState) (command : option BazelCommand).
Abbreviation state_text := (state_as_str <$> state).
Abbreviation command_text := (command_as_str <$> command).

Definition key_matches (key : Key) : bool :=
  match entries index !! key.2 with
  | Some entry => invocation_matches state command entry
  | None => false
  end.

Definition headers (keys : list Key) : list InvocationHeader :=
  omap (fun key => entry_record <$> entries index !! key.2) keys.

Definition position_of (key : Key) : string :=
  match encode_invocation_cursor
    (new_invocation_cursor workspace state_text command_text key.1 (id_to_string key.2)) with
  | Ok value => value
  | Err _ => ""
  end.

Lemma encode_position key : valid_id key.2 →
  encode_invocation_cursor
    (new_invocation_cursor workspace state_text command_text key.1 (id_to_string key.2))
  = Ok (position_of key).
Proof.
  intros Hv. destruct (id_uuid _ Hv) as (uuid & Hparse & _).
  unfold position_of, encode_invocation_cursor, encode_timestamp_cursor. cbn [invocation_cursor_id
    new_invocation_cursor]. by rewrite Hparse.
Qed.

Lemma decode_position_of key : valid_id key.2 → is_i64 key.1 →
  decode_invocation_cursor_for (position_of key) workspace state_text command_text
  = Ok (new_invocation_cursor workspace state_text command_text key.1 (id_to_string key.2)).
Proof.
  intros Hv Hts. destruct (id_uuid _ Hv) as (uuid & Hparse & Htext).
  pose proof (encode_position key Hv) as Henc.
  unfold decode_invocation_cursor_for, decode_invocation_cursor.
  rewrite (timestamp_cursor_roundtrip INVOCATION_KIND _ _ _ _ _ ltac:(done) Hts Hparse Henc).
  cbn [mbind result_bind invocation_cursor_context]. rewrite check_context_same. by rewrite Htext.
Qed.

Lemma after_position c key : valid_id c.2 → valid_id key.2 →
  after_cursor (Some (c.1, id_to_string c.2)) key.1 (id_to_string key.2) = bool_decide (newer c key).
Proof.
  intros Hc Hk. unfold after_cursor. rewrite id_order by done. apply eq_true_iff_eq.
  rewrite bool_decide_eq_true, orb_true_iff, andb_true_iff, Z.ltb_lt, Z.eqb_eq, Z.ltb_lt.
  unfold newer. lia.
Qed.

Definition left_after (cursor : option Key) (keys : list Key) : list Key :=
  match cursor with None => keys | Some c => filter (newer c) keys end.
Definition cursor_position (cursor : option Key) : option (Z * string) :=
  (fun c => (c.1, id_to_string c.2)) <$> cursor.

Lemma loop_scan cursor item_limit scan_limit keys s selected last' truncated :
  (∀ c, cursor = Some c → valid_id c.2) →
  Forall (fun key => valid_id key.2 ∧ is_Some (entries index !! key.2)) keys →
  (length (list_items s) ≤ item_limit)%nat → (list_scanned s ≤ scan_limit)%nat →
  scan key_matches (item_limit - length (list_items s)) (scan_limit - list_scanned s)
    (left_after cursor keys) = (selected, last', truncated) →
  ∃ s', invocations_loop index workspace state_text command_text state command
          (cursor_position cursor) item_limit scan_limit keys s = Ok s' ∧
    list_items s' = list_items s ++ headers selected ∧
    list_continuation s' = from_option (Some ∘ position_of) (list_continuation s) last' ∧
    list_truncated s' = truncated || list_truncated s.
Proof.
  intros Hcursor Hkeys. revert s selected last' truncated.
  induction Hkeys as [|[ts id] keys [Hv [entry He]] Hkeys IH]; intros s selected last' truncated Hi Hs Hscan.
  { assert (left_after cursor [] = []) as Hnil by (by destruct cursor). rewrite Hnil in Hscan.
    injection Hscan as <- <- <-. exists s. split; [done|]. by rewrite app_nil_r. }
  cbn [invocations_loop].
  assert (after_cursor (cursor_position cursor) ts (id_to_string id)
    = match cursor with None => true | Some c => bool_decide (newer c (ts, id)) end) as Hafter.
  { destruct cursor as [c|]; [|done]. apply (after_position c (ts, id)); [by apply Hcursor|done]. }
  assert (left_after cursor ((ts, id) :: keys) =
    if after_cursor (cursor_position cursor) ts (id_to_string id)
    then (ts, id) :: left_after cursor keys else left_after cursor keys) as Hleft.
  { rewrite Hafter. destruct cursor as [c|]; [|done]. unfold left_after. rewrite filter_cons.
    by case_decide as Hn; [rewrite bool_decide_true|rewrite bool_decide_false]. }
  rewrite Hleft in Hscan. clear Hleft Hafter.
  destruct (after_cursor _ _ _); cbn [negb]; [|by apply IH].
  cbn [scan] in Hscan.
  assert ((list_scanned s =? scan_limit)%nat = (scan_limit - list_scanned s =? 0)%nat) as ->.
  { apply eq_true_iff_eq. rewrite !Nat.eqb_eq. lia. }
  destruct (scan_limit - list_scanned s =? 0)%nat eqn:Hfull; cbn [orb] in Hscan.
  { injection Hscan as <- <- <-. eexists. split; [done|]. cbn. by rewrite app_nil_r. }
  cbn [snd] in He, Hv. rewrite He. assert (key_matches (ts, id) = invocation_matches state command entry) as Hm
    by (unfold key_matches; cbn; by rewrite He).
  rewrite Hm in Hscan.
  assert ((length (list_items s) =? item_limit)%nat = (item_limit - length (list_items s) =? 0)%nat) as ->.
  { apply eq_true_iff_eq. rewrite !Nat.eqb_eq. lia. }
  destruct (invocation_matches state command entry && _) eqn:Hroom.
  { injection Hscan as <- <- <-. eexists. split; [done|]. cbn. by rewrite app_nil_r. }
  pose proof (encode_position (ts, id) Hv) as Henc. cbn [fst snd] in Henc. rewrite Henc. cbn [mbind result_bind].
  destruct (scan key_matches _ _ _) as [[selected1 last1] truncated1] eqn:Hrest in Hscan.
  injection Hscan as <- <- <-. apply Nat.eqb_neq in Hfull.
  assert (∀ a b c : nat, (a - b - c = a - (b + c))%nat) as Hsub by lia.
  edestruct (IH (MkListState
    (if invocation_matches state command entry then list_items s ++ [entry_record entry] else list_items s)
    (if invocation_matches state command entry then list_cursors s ++ [position_of (ts, id)]
     else list_cursors s)
    (Some (position_of (ts, id))) (S (list_scanned s)) (list_truncated s)))
    as (s' & Hloop & Hitems & Hcont & Htr); cbn [list_items list_scanned]; [| | |].
  - destruct (invocation_matches state command entry); [|done]. cbn in Hroom.
    apply Nat.eqb_neq in Hroom. rewrite length_app. cbn. lia.
  - lia.
  - rewrite <- Hrest. f_equal; [|lia]. destruct (invocation_matches state command entry); [|done].
    rewrite length_app. cbn. lia.
  - exists s'. split; [exact Hloop|]. cbn [list_items list_continuation list_truncated] in *.
    split_and!; [|by rewrite Hcont; destruct last1|done].
    rewrite Hitems. destruct (invocation_matches state command entry); [|done].
    rewrite <- app_assoc. cbn. by rewrite He.
Qed.

(** ** The keys that are listed *)

Definition listed_set : gset Key :=
  match workspace with
  | Some workspace => default ∅ (by_workspace index !! workspace)
  | None => by_requested index
  end.
Definition listed_keys : list Key := rev (ordered_keys listed_set).

Definition in_workspace (entry : IndexEntry) : Prop :=
  match workspace with Some workspace => entry_workspace entry = workspace | None => True end.

Lemma listed_keys_spec ts id : IndexOk index →
  (ts, id) ∈ listed_keys ↔ ∃ entry, entries index !! id = Some entry ∧
    ts = requested_at_ms (header_request (entry_record entry)) ∧ in_workspace entry.
Proof.
  intros [Hreq Hws _ _ _ _ _]. unfold listed_keys. rewrite <- in_rev_iff_elem, ordered_keys_elem.
  unfold listed_set, in_workspace. destruct workspace as [w|].
  - rewrite (Hws w (ts, id)). unfold workspace_keys. split.
    + intros (id' & entry & He & Hin). case_decide; [|set_solver].
      apply elem_of_singleton in Hin. unfold requested_key in Hin. injection Hin as -> ->. eauto.
    + intros (entry & He & -> & Hw). exists id, entry. split; [done|].
      rewrite decide_True by done. by apply elem_of_singleton.
  - rewrite (Hreq (ts, id)). unfold requested_keys. split.
    + intros (id' & entry & He & Hin). apply elem_of_singleton in Hin. unfold requested_key in Hin.
      injection Hin as -> ->. eauto.
    + intros (entry & He & -> & _). exists id, entry. split; [done|]. by apply elem_of_singleton.
Qed.

(** ** Following the cursors *)

(** The identifiers and times of the index are machine values. *)
Definition machine_index : Prop := ∀ id entry, entries index !! id = Some entry →
  valid_id id ∧ is_i64 (requested_at_ms (header_request (entry_record entry))).

(** The pages a client sees that follows the cursors, as long as there are any,
    with the same limits. *)
Fixpoint follow_pages (fuel : nat) (item_limit scan_limit : Z) (from : option string)
    : option (list InvocationHeader) :=
  match fuel with
  | O => None
  | S fuel =>
      match list_invocations index workspace state command
              (MkPageRequest from item_limit scan_limit) with
      | Some (Ok page) =>
          match next_cursor page with
          | None => Some (items page)
          | Some next =>
              rest ← follow_pages fuel item_limit scan_limit (Some next);
              Some (items page ++ rest)
          end
      | _ => None
      end
  end.

Lemma list_limits_positive page il sl : list_limits page = Some (il, sl) → (0 < il)%nat ∧ (0 < sl)%nat.
Proof.
  unfold list_limits, clamp. cbn. destruct (_ <=? 20000); cbn; [|done]. intros [= <- <-]. lia.
Qed.

(** One page, from a key the listing has shown. *)
Lemma list_page_spec from page il sl :
  IndexOk index → machine_index → list_limits page = Some (il, sl) →
  (∀ c, from = Some c → c ∈ listed_keys) → cursor page = position_of <$> from →
  ∃ examined left p, left_after from listed_keys = examined ++ left ∧
    list_invocations index workspace state command page = Some (Ok p) ∧
    items p = headers (filter (fun k => key_matches k = true) examined) ∧
    (next_cursor p = None ∧ left = [] ∨
     ∃ c, last examined = Some c ∧ next_cursor p = Some (position_of c)).
Proof.
  intros Hok Hmachine Hlimits Hfrom Hcursor.
  assert (∀ key, key ∈ listed_keys → valid_id key.2 ∧ is_i64 key.1 ∧ is_Some (entries index !! key.2)) as Hkeys.
  { intros [ts id] (entry & He & -> & _)%listed_keys_spec; [|done].
    destruct (Hmachine _ _ He). split_and!; [done..|by eexists]. }
  destruct (scan key_matches il sl (left_after from listed_keys)) as [[selected last'] truncated] eqn:Hscan.
  destruct (loop_scan from il sl listed_keys (MkListState [] [] None 0 false) selected last' truncated)
    as (s' & Hloop & Hitems & Hcont & Htr); cbn [list_items list_scanned length] in *; [| |lia|lia| |].
  { intros c Hc. by apply Hkeys, Hfrom. }
  { apply Forall_forall. intros key Hkey. by apply Hkeys in Hkey as (? & _ & ?). }
  { by rewrite !Nat.sub_0_r. }
  destruct (list_limits_positive _ _ _ Hlimits) as [Hil Hsl].
  apply scan_spec in Hscan as (examined & left & Hleft & -> & -> & Htrunc & Hsome).
  exists examined, left, (list_page s'). split; [done|]. split.
  { unfold list_invocations. rewrite Hlimits. cbn [mbind option_bind]. rewrite Hcursor.
    assert (decode_position (fun value => decode_invocation_cursor_for value workspace state_text command_text)
      (fun c => (cursor_requested_at_ms c, invocation_cursor_id c)) (position_of <$> from)
      = Ok (cursor_position from)) as ->.
    { destruct from as [c|]; [|done]. cbn [fmap option_fmap option_map decode_position].
      destruct (Hkeys c (Hfrom c eq_refl)) as (Hv & Hts & _). by rewrite decode_position_of. }
    cbn [mbind result_bind].
    assert (match workspace with
      | Some workspace => default [] ((fun filed => rev (ordered_keys filed)) <$> by_workspace index !! workspace)
      | None => rev (ordered_keys (by_requested index))
      end = listed_keys) as ->.
    { unfold listed_keys, listed_set. destruct workspace as [w|]; [|done].
      by destruct (by_workspace index !! w). }
    rewrite Hloop. done. }
  unfold list_page. cbn [items next_cursor]. rewrite Hitems, Htr. cbn [list_truncated app].
  rewrite orb_false_r. split; [done|]. destruct truncated; [|by left; auto]. right.
  cbn [list_continuation] in Hcont. destruct (last examined) as [c|] eqn:Hlast.
  - exists c. by rewrite Hcont.
  - apply last_None in Hlast. by apply Hsome in Hlast.
Qed.
Lemma listed_sorted from : StronglySorted newer (left_after from listed_keys).
Proof.
  pose proof (ordered_newest listed_set) as Hs. destruct from as [c|]; [|exact Hs].
  by apply StronglySorted_filter.
Qed.

Lemma left_after_last from examined left c :
  left_after from listed_keys = examined ++ left → last examined = Some c →
  c ∈ listed_keys ∧ left_after (Some c) listed_keys = left.
Proof.
  intros Heq Hlast.
  assert (c ∈ left_after from listed_keys) as Hc.
  { rewrite Heq. apply elem_of_app. left. by apply last_Some_elem_of. }
  pose proof (listed_sorted from) as Hs. rewrite Heq in Hs. rewrite <- (filter_after _ _ _ Hs Hlast), <- Heq.
  destruct from as [f|]; cbn [left_after] in *; [|done].
  apply list_elem_of_filter in Hc as [Hnewer Hc]. split; [done|].
  rewrite list_filter_filter. apply list_filter_iff. intros k. split; [|tauto].
  intros Hk. split; [done|]. by etrans.
Qed.

Lemma follow_pages_from item_limit scan_limit il sl fuel from :
  IndexOk index → machine_index →
  list_limits (MkPageRequest None item_limit scan_limit) = Some (il, sl) →
  (∀ c, from = Some c → c ∈ listed_keys) →
  (length (left_after from listed_keys) < fuel)%nat →
  follow_pages fuel item_limit scan_limit (position_of <$> from)
  = Some (headers (filter (fun k => key_matches k = true) (left_after from listed_keys))).
Proof.
  intros Hok Hmachine Hlimits. revert from. induction fuel as [|fuel IH]; intros from Hfrom Hfuel; [lia|].
  cbn [follow_pages].
  destruct (list_page_spec from (MkPageRequest (position_of <$> from) item_limit scan_limit) il sl)
    as (examined & left & p & Hleft & -> & Hitems & Hnext); [done..|].
  destruct Hnext as [[-> ->] | (c & Hlast & ->)].
  { by rewrite Hitems, Hleft, app_nil_r. }
  destruct (left_after_last _ _ _ _ Hleft Hlast) as [Hc Hrest].
  assert (examined ≠ []) as Hsome by (by intros ->).
  assert (0 < length examined)%nat by (by destruct examined; [|cbn; lia]).
  rewrite Hleft, length_app in Hfuel.
  assert (follow_pages fuel item_limit scan_limit (Some (position_of c))
    = Some (headers (filter (fun k => key_matches k = true) left))) as ->.
  { rewrite <- Hrest. apply (IH (Some c)); [by intros ? [= <-]|]. rewrite Hrest. lia. }
  cbn [mbind option_bind]. unfold headers in *. by rewrite Hitems, Hleft, filter_app, omap_app.
Qed.

(** A client that lists invocations with any accepted limits and keeps
    following the cursors it is given sees, in finitely many pages, exactly
    the invocations of the workspace that match the state and command filters,
    each once, newest first: neither the item limit nor the scan limit makes
    the listing skip or repeat an invocation. *)
Theorem pages_cover_invocations item_limit scan_limit fuel :
  IndexOk index → machine_index →
  is_Some (list_limits (MkPageRequest None item_limit scan_limit)) →
  (size listed_set < fuel)%nat →
  ∃ keys, follow_pages fuel item_limit scan_limit None = Some (headers keys) ∧
    StronglySorted newer keys ∧
    (∀ ts id, (ts, id) ∈ keys ↔ ∃ entry, entries index !! id = Some entry ∧
      ts = requested_at_ms (header_request (entry_record entry)) ∧ in_workspace entry ∧
      invocation_matches state command entry = true).
Proof.
  intros Hok Hmachine [[il sl] Hlimits] Hfuel.
  exists (filter (fun k => key_matches k = true) listed_keys). split_and!.
  - apply (follow_pages_from item_limit scan_limit il sl fuel None); [done..|].
    cbn [left_after]. unfold listed_keys, ordered_keys. rewrite length_rev.
    by rewrite (merge_sort_Permutation key_le (elements listed_set)).
  - apply StronglySorted_filter, (listed_sorted None).
  - intros ts id. rewrite list_elem_of_filter, listed_keys_spec by done. unfold key_matches. cbn [snd].
    split; [|by intros (entry & -> & ? & ? & ?); eauto 6].
    intros [Hm (entry & He & ? & ?)]. rewrite He in Hm. eauto 6.
Qed.
End pages.

(** * Witness *)

Module ListingExamples.
#[local] Existing Instance CursorExamples.example_codec.
#[local] Existing Instance CursorExamples.example_laws.

(** Identifiers as their sixteen big-endian bytes. *)
Definition id_bytes (id : Z) : list Z := rev (to_le_bytes 16 id).

Lemma bytes_ltb_snoc a b x y : length a = length b →
  bytes_ltb (a ++ [x]) (b ++ [y]) = bytes_ltb a b || (bool_decide (a = b) && (x <? y)).
Proof.
  revert b. induction a as [|c a IH]; intros [|d b] Hlen; try discriminate; cbn [app bytes_ltb].
  { by rewrite andb_false_r, orb_false_r. }
  injection Hlen as Hlen. rewrite (IH b Hlen), (bool_decide_ext (c :: a = d :: b) (c = d ∧ a = b))
    by naive_solver. rewrite bool_decide_and. destruct (Z.ltb_spec c d); [done|]. cbn [orb].
  destruct (Z.eqb_spec c d).
  - subst. rewrite (bool_decide_true (d = d)) by done. done.
  - by rewrite (bool_decide_false (c = d)) by done.
Qed.

Lemma id_bytes_order n a b : 0 ≤ a < 256 ^ Z.of_nat n → 0 ≤ b < 256 ^ Z.of_nat n →
  bytes_ltb (rev (to_le_bytes n a)) (rev (to_le_bytes n b)) = (a <? b).
Proof.
  revert a b. induction n as [|n IH]; intros a b Ha Hb.
  { cbn in *. symmetry. apply Z.ltb_ge. lia. }
  rewrite Nat2Z.inj_succ, Z.pow_succ_r in Ha, Hb by lia. cbn [to_le_bytes rev].
  assert (∀ z, 0 ≤ z < 256 * 256 ^ Z.of_nat n → 0 ≤ z / 256 < 256 ^ Z.of_nat n) as Hdiv.
  { intros z Hz. split; [apply Z.div_pos; lia|apply Z.div_lt_upper_bound; lia]. }
  rewrite bytes_ltb_snoc by (by rewrite !length_rev, !length_to_le_bytes).
  rewrite IH by auto. apply Hdiv in Ha, Hb.
  rewrite (bool_decide_ext _ (a / 256 = b / 256)).
  - apply eq_true_iff_eq. rewrite orb_true_iff, andb_true_iff, bool_decide_eq_true, !Z.ltb_lt.
    pose proof (Z.div_mod a 256). pose proof (Z.div_mod b 256).
    pose proof (Z.mod_pos_bound a 256). pose proof (Z.mod_pos_bound b 256). lia.
  - split; [|by intros ->]. intros Heq%(f_equal (fun l => u64_from_le_bytes (rev l))).
    rewrite !rev_involutive, !from_to_le_bytes, !Z.mod_small in Heq by done. done.
Qed.

#[local] Instance example_ids : IdText.
Proof.
  refine {| id_to_string id := string_of_bytes (id_bytes id) |}.
  - intros id _. exists (id_bytes id). cbn [uuid_parse_str uuid_to_string CursorExamples.example_codec].
    rewrite bytes_of_string_of_bytes by (apply Forall_rev, to_le_bytes_u8).
    unfold id_bytes. by rewrite length_rev, length_to_le_bytes.
  - intros a b Ha Hb. unfold str_ltb.
    rewrite !bytes_of_string_of_bytes by (apply Forall_rev, to_le_bytes_u8).
    apply id_bytes_order; exact Ha || exact Hb.
Defined.

Definition example_index : Index :=
  insert_entry (insert_entry (insert_entry default_index 1 (IndexExamples.example_entry 1 5))
    2 (IndexExamples.example_entry 2 9)) 3 (IndexExamples.example_entry 3 5).

Lemma example_index_ok : IndexOk example_index.
Proof.
  repeat (apply insert_entry_ok; [|vm_compute; reflexivity|vm_compute; discriminate|vm_compute; discriminate]).
  apply default_index_ok.
Qed.

Lemma example_index_machine : machine_index example_index.
Proof.
  intros id entry. unfold example_index, insert_entry. cbn.
  rewrite !lookup_insert_Some. unfold valid_id, is_i64, i64_min, i64_max.
  intros [[<- <-]|[_ [[<- <-]|[_ [[<- <-]|[_ H]]]]]]; [cbn; lia..|]. by rewrite lookup_empty in H.
Qed.

(** Two pages of at most two examined invocations. *)
Lemma pages_cover_invocations_witness :
  ∃ keys, follow_pages example_index None None None 4 2 2 None = Some (headers example_index keys) ∧
    StronglySorted newer keys ∧
    (∀ ts id, (ts, id) ∈ keys ↔ ∃ entry, entries example_index !! id = Some entry ∧
      ts = requested_at_ms (header_request (entry_record entry)) ∧ in_workspace None entry ∧
      invocation_matches None None entry = true).
Proof.
  apply (pages_cover_invocations example_index None None None 2 2 4 example_index_ok example_index_machine).
  - by eexists.
  - vm_compute. lia.
Defined.

Example pages_shown :
  (fun shown => map (fun header => request_id (header_request header)) shown) <$> follow_pages example_index None None None 4 2 2 None = Some [2; 3; 1].
Proof. vm_compute. reflexivity. Qed.
End ListingExamples.
