(* ===== verification/Framing.v ===== *)
(** * Length-delimited BEP framing (crates/bazel-mcp-bep/src/framing.rs)

    The incremental decoder that turns the bytes of Bazel's build-event file
    into events, at most one incomplete frame at a time, and the reader-based
    routines beside it.  The protobuf decoder ([buffa], generated code) is a
    parameter, as is the state the caller's visitor accumulates. *)

From S2P Require Import Prelude.

Definition DEFAULT_MAX_FRAME_BYTES : Z := 64 * 1024 * 1024.
Definition DEFAULT_MAX_STREAM_BYTES : Z := 128 * 1024 * 1024.
Definition DEFAULT_MAX_STREAM_EVENTS : Z := 1000000.
Definition MAX_RETAINED_PENDING_BYTES : Z := 64 * 1024.

(** [slice.len()]. *)
Definition len {A} (l : list A) : Z := Z.of_nat (length l).
(** [&slice[from..to]] for [from <= to <= len]. *)
Definition slice {A} (l : list A) (from to : Z) : list A :=
  take (Z.to_nat (to - from)) (drop (Z.to_nat from) l).

(** [u64 << shift]: the bits shifted out are lost. *)
Definition u64_shl (value shift : Z) : Z := Z.shiftl value shift mod 2 ^ 64.

Inductive FrameError (D I : Type) : Type :=
| Truncated
| InvalidVarint
| TooLarge (actual limit : Z)
| StreamTooLarge (actual limit : Z)
| TooManyEvents (actual limit : Z)
| Io (error : I)
| Decode (error : D).
Arguments Truncated {D I}.
Arguments InvalidVarint {D I}.
Arguments TooLarge {D I} _ _.
Arguments StreamTooLarge {D I} _ _.
Arguments TooManyEvents {D I} _ _.
Arguments Io {D I} _.
Arguments Decode {D I} _.

Inductive IncrementalStreamControl : Type := Continue | ResetAfterFrame.

Inductive FrameState : Type :=
| NeedPrefix
| NeedPayload (total_bytes : Z)
| Complete (prefix_bytes frame_bytes : Z).

Section framing.
Context {D I : Type}.

(** ** The length prefix *)

(** The loop of [inspect_frame] over the (at most ten) prefix bytes; [size] is
    the length of the whole input.  [usize::try_from(u64)] cannot fail on the
    64-bit targets, so its error branch does not appear. *)
Fixpoint inspect_prefix (size max_bytes : Z) (bytes : list Z) (index value : Z)
    : result (FrameError D I) FrameState :=
  match bytes with
  | [] => if 10 <=? size then Err InvalidVarint else Ok NeedPrefix
  | byte :: rest =>
      let shift := index * 7 in
      let payload := Z.land byte 0x7f in
      if (shift =? 63) && (1 <? payload) then Err InvalidVarint
      else
        let value := Z.lor value (u64_shl payload shift) in
        if Z.land byte 0x80 =? 0 then
          let frame_bytes := value in
          if max_bytes <? frame_bytes then Err (TooLarge frame_bytes max_bytes)
          else
            let prefix_bytes := index + 1 in
            let total_bytes := u64_add prefix_bytes frame_bytes in
            if total_bytes <=? size then Ok (Complete prefix_bytes frame_bytes)
            else Ok (NeedPayload total_bytes)
        else inspect_prefix size max_bytes rest (index + 1) value
  end.

Definition inspect_frame (input : list Z) (max_bytes : Z)
    : result (FrameError D I) FrameState :=
  inspect_prefix (len input) max_bytes (take 10 input) 0 0.

(** ** The decoder *)

Record IncrementalStreamDecoder : Type := MkDecoder {
  pending : list Z;
  decoded_bytes : Z;
  event_count : Z;
  max_frame_bytes : Z;
  max_stream_bytes : Z;
  max_events : Z;
  terminal_error : option (FrameError D I);
}.

Definition new_decoder (max_frame_bytes max_stream_bytes max_events : Z)
    : IncrementalStreamDecoder :=
  MkDecoder [] 0 0 max_frame_bytes max_stream_bytes max_events None.

Definition set_pending (p : list Z) (d : IncrementalStreamDecoder) :=
  MkDecoder p (decoded_bytes d) (event_count d) (max_frame_bytes d)
    (max_stream_bytes d) (max_events d) (terminal_error d).
Definition set_error (e : FrameError D I) (d : IncrementalStreamDecoder) :=
  MkDecoder (pending d) (decoded_bytes d) (event_count d) (max_frame_bytes d)
    (max_stream_bytes d) (max_events d) (Some e).
Definition set_counts (bytes events : Z) (d : IncrementalStreamDecoder) :=
  MkDecoder (pending d) bytes events (max_frame_bytes d)
    (max_stream_bytes d) (max_events d) (terminal_error d).

Definition is_terminal (d : IncrementalStreamDecoder) : bool :=
  match terminal_error d with Some _ => true | None => false end.

Definition fail (d : IncrementalStreamDecoder) (e : FrameError D I) :=
  match terminal_error d with None => set_error e d | Some _ => d end.

(** The visitor's captured state [V] is threaded explicitly: [decode] either
    fails, before the visitor ran, or returns its control and new state. *)
Definition visit_decoded_frame {V} (d : IncrementalStreamDecoder) (v : V) (frame_bytes : Z)
    (decode : V → result D (IncrementalStreamControl * V))
    : IncrementalStreamDecoder * V :=
  let next_bytes := u64_add (decoded_bytes d) frame_bytes in
  if max_stream_bytes d <? next_bytes then
    (set_error (StreamTooLarge next_bytes (max_stream_bytes d)) d, v)
  else if max_events d <=? event_count d then
    (set_error (TooManyEvents (u64_add (event_count d) 1) (max_events d)) d, v)
  else
    let d := set_counts next_bytes (event_count d) d in
    match decode v with
    | Ok (Continue, v') => (set_counts (decoded_bytes d) (u64_add (event_count d) 1) d, v')
    | Ok (ResetAfterFrame, v') => (set_counts 0 0 d, v')
    | Err error => (set_error (Decode error) d, v)
    end.
End framing.

Arguments IncrementalStreamDecoder : clear implicits.

Section push.
Context {D I Event V : Type}.
(** [BuildEventOwnedView::decode] / [BuildEventView::decode_view]. *)
Context (decode_event : list Z → result D Event).
(** The caller's [FnMut(event, framed) -> IncrementalStreamControl]. *)
Context (visitor : V → Event → list Z → IncrementalStreamControl * V).
(** [Vec::capacity] of the buffer that held a pending frame. *)
Context (capacity : list Z → Z).
Abbreviation Decoder := (IncrementalStreamDecoder D I).

(** [decode_owned_frame] and [decode_borrowed_frame] differ in the decoder they
    call only. *)
Definition decode_frame (d : Decoder) (v : V) (frame framed : list Z) : Decoder * V :=
  visit_decoded_frame d v (len frame) (fun v =>
    event ← decode_event frame;
    Ok (visitor v event framed)).

(** Both branches leave the pending buffer empty: it was taken before. *)
Definition recycle_pending (d : Decoder) (framed : list Z) : Decoder :=
  if capacity framed <=? MAX_RETAINED_PENDING_BYTES then set_pending [] d else d.

(** [std::mem::take(&mut self.pending)], then [decode], then the recycling. *)
Definition decode_pending (d : Decoder) (v : V) (prefix_bytes frame_bytes : Z)
    : Decoder * V :=
  let consumed := u64_add prefix_bytes frame_bytes in
  let framed := pending d in
  let '(d, v) := decode_frame (set_pending [] d) v
                   (slice framed prefix_bytes consumed) (slice framed 0 consumed) in
  (recycle_pending d framed, v).

(** The code after the [while] loop of [push_frames]. *)
Definition push_last (d : Decoder) (v : V) : Decoder * V :=
  match pending d with
  | [] => (d, v)
  | _ =>
      match inspect_frame (pending d) (max_frame_bytes d) with
      | Ok (Complete prefix_bytes frame_bytes) => decode_pending d v prefix_bytes frame_bytes
      | Ok _ => (d, v)
      | Err error => (set_error error d, v)
      end
  end.

(** The [while] loop of [push_frames].  [None] is an exhausted fuel, which
    [push_frames_total] excludes. *)
Fixpoint push_loop (fuel : nat) (d : Decoder) (v : V) (input : list Z)
    : option (Decoder * V) :=
  match fuel with
  | O => None
  | S fuel =>
      match input with
      | [] => Some (push_last d v)
      | first :: rest =>
          match pending d with
          | [] =>
              match inspect_frame input (max_frame_bytes d) with
              | Ok (Complete prefix_bytes frame_bytes) =>
                  let consumed := u64_add prefix_bytes frame_bytes in
                  let '(d, v) := decode_frame d v (slice input prefix_bytes consumed)
                                   (slice input 0 consumed) in
                  if is_terminal d then Some (d, v)
                  else push_loop fuel d v (drop (Z.to_nat consumed) input)
              | Ok NeedPrefix => Some (set_pending (pending d ++ input) d, v)
              | Ok (NeedPayload total_bytes) => Some (set_pending (pending d ++ input) d, v)
              | Err error => Some (set_error error d, v)
              end
          | _ =>
              match inspect_frame (pending d) (max_frame_bytes d) with
              | Ok NeedPrefix => push_loop fuel (set_pending (pending d ++ [first]) d) v rest
              | Ok (NeedPayload total_bytes) =>
                  let count := Z.to_nat (Z.min (len input) (u64_sub total_bytes (len (pending d)))) in
                  push_loop fuel (set_pending (pending d ++ take count input) d) v (drop count input)
              | Ok (Complete prefix_bytes frame_bytes) =>
                  let '(d, v) := decode_pending d v prefix_bytes frame_bytes in
                  if is_terminal d then Some (d, v) else push_loop fuel d v input
              | Err error => Some (set_error error d, v)
              end
          end
      end
  end.

(** Every iteration consumes input or empties the pending buffer. *)
Definition push_fuel (input : list Z) : nat := 2 * length input + 2.

Definition push_frames (d : Decoder) (v : V) (input : list Z) : option (Decoder * V) :=
  if is_terminal d then Some (d, v) else push_loop (push_fuel input) d v input.

(** Successive calls of [push_frames], one per chunk read. *)
Fixpoint push_chunks (d : Decoder) (v : V) (chunks : list (list Z)) : option (Decoder * V) :=
  match chunks with
  | [] => Some (d, v)
  | chunk :: rest => '(d, v) ← push_frames d v chunk; push_chunks d v rest
  end.
End push.

Record StreamOutcome (D I : Type) : Type := MkOutcome {
  outcome_event_count : Z;
  outcome_decoded_bytes : Z;
  outcome_terminal_error : option (FrameError D I);
}.
Arguments MkOutcome {D I} _ _ _.

Definition finish {D I} (d : IncrementalStreamDecoder D I) : StreamOutcome D I :=
  let d := match terminal_error d, pending d with
           | None, _ :: _ => set_error Truncated d
           | _, _ => d
           end in
  MkOutcome (event_count d) (decoded_bytes d) (terminal_error d).

(** ** Encoding *)

(** [write_varint]; the loop shifts a [u64] right by seven, so ten rounds are
    enough and the fuel never runs out (see [write_varint_decodes]). *)
Fixpoint write_varint_loop (fuel : nat) (value : Z) : list Z :=
  match fuel with
  | O => []
  | S fuel =>
      if 0x80 <=? value then
        Z.lor (Z.land (value mod 256) 0x7f) 0x80 :: write_varint_loop fuel (Z.shiftr value 7)
      else [value mod 256]
  end.
Definition write_varint (value : Z) : list Z := write_varint_loop 10 value.

(** [encode_frame], applied to the encoded message. *)
Definition encode_frame (body : list Z) : list Z := write_varint (len body) ++ body.

(** ** Reading from a stream *)

(** A [Read] value that holds [data] and then reports the end of the stream, or
    the I/O error [fault]. *)
Record Reader (I : Type) : Type := MkReader { data : list Z; fault : option I }.
Arguments MkReader {I} _ _.
Arguments data {I} _.
Arguments fault {I} _.

Inductive ReadExactError (I : Type) : Type := UnexpectedEof | Other (error : I).
Arguments UnexpectedEof {I}.
Arguments Other {I} _.

(** [Read::read_exact] into a buffer of [size] bytes. *)
Definition read_exact {I} (r : Reader I) (size : Z) : result (ReadExactError I) (list Z * Reader I) :=
  if size <=? len (data r) then
    Ok (take (Z.to_nat size) (data r), MkReader (drop (Z.to_nat size) (data r)) (fault r))
  else match fault r with
       | Some error => Err (Other error)
       | None => Err UnexpectedEof
       end.

(** The [for shift in (0..70).step_by(7)] loop of [read_varint]. *)
Fixpoint read_varint_loop {D I} (shifts : list Z) (r : Reader I) (value : Z)
    : result (FrameError D I) (option Z * Reader I) :=
  match shifts with
  | [] => Err InvalidVarint
  | shift :: shifts =>
      match read_exact r 1 with
      | Ok ([byte], r) =>
          let payload := Z.land byte 0x7f in
          if (shift =? 63) && (1 <? payload) then Err InvalidVarint
          else
            let value := Z.lor value (u64_shl payload shift) in
            if Z.land byte 0x80 =? 0 then Ok (Some value, r)
            else read_varint_loop shifts r value
      | Ok (_, r) => Err InvalidVarint (* a one-byte buffer holds one byte *)
      | Err UnexpectedEof => if shift =? 0 then Ok (None, r) else Err Truncated
      | Err (Other error) => Err (Io error)
      end
  end.

Definition read_varint {D I} (r : Reader I) : result (FrameError D I) (option Z * Reader I) :=
  read_varint_loop [0; 7; 14; 21; 28; 35; 42; 49; 56; 63] r 0.

Definition read_frame {D I} (r : Reader I) (max_bytes : Z)
    : result (FrameError D I) (option (list Z) * Reader I) :=
  '(length, r) ← read_varint r;
  match length with
  | None => Ok (None, r)
  | Some length =>
      if max_bytes <? length then Err (TooLarge length max_bytes)
      else match read_exact r length with
           | Ok (frame, r) => Ok (Some frame, r)
           | Err UnexpectedEof => Err Truncated
           | Err (Other error) => Err (Io error)
           end
  end.

Section visit_stream.
Context {D I Event V : Type}.
Context (decode_event : list Z → result D Event) (capacity : list Z → Z).

(** [push] and [push_borrowed]: visitors that always continue. *)
Definition continue_visitor (visitor : V → Event → V)
    (v : V) (event : Event) (framed : list Z) : IncrementalStreamControl * V :=
  (Continue, visitor v event).

Definition push (d : IncrementalStreamDecoder D I) (v : V) (input : list Z)
    (visitor : V → Event → V) : option (IncrementalStreamDecoder D I * V) :=
  push_frames decode_event (continue_visitor visitor) capacity d v input.

(** The read loop of [visit_stream_partial_bounded] and of its borrowed
    variant.  [reads] are the successive results of [Read::read]; an empty
    chunk, and the end of the list, are [Ok(0)]. *)
Fixpoint visit_reads (reads : list (result I (list Z))) (d : IncrementalStreamDecoder D I)
    (v : V) (visitor : V → Event → V) : option (IncrementalStreamDecoder D I * V) :=
  match reads with
  | [] => Some (d, v)
  | Ok [] :: _ => Some (d, v)
  | Ok chunk :: reads =>
      '(d, v) ← push d v chunk visitor;
      if is_terminal d then Some (d, v) else visit_reads reads d v visitor
  | Err error :: _ => Some (fail d (Io error), v)
  end.

Definition visit_stream_partial_bounded (reads : list (result I (list Z)))
    (max_frame_bytes max_stream_bytes max_events : Z) (v : V) (visitor : V → Event → V)
    : option (StreamOutcome D I * V) :=
  '(d, v) ← visit_reads reads (new_decoder max_frame_bytes max_stream_bytes max_events) v visitor;
  Some (finish d, v).
End visit_stream.

Record PartialStream (D I Event : Type) : Type := MkPartialStream {
  events : list Event;
  partial_terminal_error : option (FrameError D I);
}.
Arguments MkPartialStream {D I Event} _ _.

Definition decode_stream_partial_bounded {D I Event}
    (decode_event : list Z → result D Event) (capacity : list Z → Z)
    (reads : list (result I (list Z))) (max_frame_bytes max_stream_bytes max_events : Z)
    : option (PartialStream D I Event) :=
  '(outcome, events) ← visit_stream_partial_bounded decode_event capacity reads
     max_frame_bytes max_stream_bytes max_events [] (fun events event => events ++ [event]);
  Some (MkPartialStream events (outcome_terminal_error _ _ outcome)).

Definition decode_stream {D I Event}
    (decode_event : list Z → result D Event) (capacity : list Z → Z)
    (reads : list (result I (list Z))) (max_bytes : Z)
    : option (result (FrameError D I) (list Event)) :=
  partial ← decode_stream_partial_bounded decode_event capacity reads
    max_bytes DEFAULT_MAX_STREAM_BYTES DEFAULT_MAX_STREAM_EVENTS;
  match partial_terminal_error _ _ _ partial with
  | Some error => Some (Err error)
  | None => Some (Ok (events _ _ _ partial))
  end.

(** * Theorems *)

(** ** The length prefix *)

Lemma len_app {A} (a b : list A) : len (a ++ b) = len a + len b.
Proof. unfold len. rewrite length_app. lia. Qed.
Lemma len_nonneg {A} (a : list A) : 0 ≤ len a.
Proof. unfold len. lia. Qed.
Lemma len_cons {A} (x : A) (a : list A) : len (x :: a) = 1 + len a.
Proof. unfold len. simpl. lia. Qed.
Lemma slice_app_l {A} (a b : list A) from to : 0 ≤ from ≤ to → to ≤ len a →
  slice (a ++ b) from to = slice a from to.
Proof.
  unfold slice, len. intros. rewrite drop_app_le by lia.
  rewrite take_app_le; [done|]. rewrite length_drop. lia.
Qed.
Lemma len_slice {A} (a : list A) from to : 0 ≤ from ≤ to → to ≤ len a →
  len (slice a from to) = to - from.
Proof. unfold slice, len. intros. rewrite length_take, length_drop. lia. Qed.

Section inspect.
Context {D I : Type}.

(** What the prefix bytes alone say, whatever follows them. *)
Inductive header : Type :=
| Unfinished
| Malformed (error : FrameError D I)
| Announced (prefix_bytes frame_bytes : Z).

Fixpoint scan_prefix (max_bytes : Z) (bytes : list Z) (index value : Z) : header :=
  match bytes with
  | [] => Unfinished
  | byte :: rest =>
      let payload := Z.land byte 0x7f in
      if (index * 7 =? 63) && (1 <? payload) then Malformed InvalidVarint
      else
        let value := Z.lor value (u64_shl payload (index * 7)) in
        if Z.land byte 0x80 =? 0 then
          if max_bytes <? value then Malformed (TooLarge value max_bytes)
          else Announced (index + 1) value
        else scan_prefix max_bytes rest (index + 1) value
  end.

Lemma inspect_prefix_scan size max bytes index value :
  inspect_prefix (D:=D) (I:=I) size max bytes index value =
  match scan_prefix max bytes index value with
  | Unfinished => if 10 <=? size then Err InvalidVarint else Ok NeedPrefix
  | Malformed e => Err e
  | Announced p f =>
      if u64_add p f <=? size then Ok (Complete p f) else Ok (NeedPayload (u64_add p f))
  end.
Proof.
  revert index value. induction bytes as [|byte rest IH]; intros; simpl; [done|].
  repeat (case_match; try done). all: try apply IH. all: congruence.
Qed.

Lemma scan_prefix_app max bytes more index value :
  scan_prefix max bytes index value ≠ Unfinished →
  scan_prefix max (bytes ++ more) index value = scan_prefix max bytes index value.
Proof.
  revert index value. induction bytes as [|byte rest IH]; intros index value; simpl; [done|].
  repeat (case_match; try done). apply IH.
Qed.

Lemma scan_prefix_Announced max bytes index value p f :
  0 ≤ value → scan_prefix max bytes index value = Announced p f →
  index + 1 ≤ p ≤ index + len bytes ∧ 0 ≤ f ≤ max.
Proof.
  revert index value. induction bytes as [|byte rest IH]; intros index value Hv; simpl; [done|].
  rewrite len_cons. pose proof (len_nonneg rest) as Hrest.
  assert (0 ≤ Z.lor value (u64_shl (Z.land byte 127) (index * 7))).
  { apply Z.lor_nonneg. split; [done|]. apply Z.mod_pos_bound. lia. }
  case_match; [done|]. case_match.
  - case_match; [done|]. intros [= <- <-]. lia.
  - intros Hs%IH; lia.
Qed.

Lemma scan_prefix_snoc max bytes byte index value p f : 0 ≤ value →
  scan_prefix max bytes index value = Unfinished →
  scan_prefix max (bytes ++ [byte]) index value = Announced p f →
  p = index + len bytes + 1.
Proof.
  revert index value. induction bytes as [|b rest IH]; intros index value Hv.
  - intros _ Hs%scan_prefix_Announced; [|done]. unfold len in Hs. simpl in Hs. unfold len; simpl. lia.
  - simpl. rewrite len_cons. repeat (case_match; try done).
    intros Hu Hs. apply IH in Hs; [lia| |done].
    apply Z.lor_nonneg. split; [done|]. apply Z.mod_pos_bound. lia.
Qed.

Abbreviation inspect := (inspect_frame (D:=D) (I:=I)).

Lemma inspect_frame_scan input max :
  inspect input max =
  match scan_prefix max (take 10 input) 0 0 with
  | Unfinished => if 10 <=? len input then Err InvalidVarint else Ok NeedPrefix
  | Malformed e => Err e
  | Announced p f =>
      if u64_add p f <=? len input then Ok (Complete p f) else Ok (NeedPayload (u64_add p f))
  end.
Proof. apply inspect_prefix_scan. Qed.

Lemma inspect_frame_nil max : inspect [] max = Ok NeedPrefix.
Proof. done. Qed.

Lemma inspect_frame_Complete input max p f :
  inspect input max = Ok (Complete p f) →
  1 ≤ p ≤ 10 ∧ 0 ≤ f ≤ max ∧ p ≤ u64_add p f ≤ len input.
Proof.
  rewrite inspect_frame_scan. repeat case_match; try done. intros [= <- <-].
  match goal with H : scan_prefix _ _ _ _ = _ |- _ => apply scan_prefix_Announced in H; [|done] end.
  assert (len (take 10 input) ≤ 10) by (unfold len; rewrite length_take; lia).
  width.
Qed.

Lemma inspect_frame_NeedPayload input max total :
  inspect input max = Ok (NeedPayload total) → len input < total ≤ max + 10.
Proof.
  rewrite inspect_frame_scan. repeat case_match; try done. intros [= <-].
  match goal with H : scan_prefix _ _ _ _ = _ |- _ => apply scan_prefix_Announced in H; [|done] end.
  assert (len (take 10 input) ≤ 10) by (unfold len; rewrite length_take; lia).
  width.
Qed.

(** More input never changes what was already decided. *)
Lemma inspect_frame_app_Complete input more max p f :
  inspect input max = Ok (Complete p f) → inspect (input ++ more) max = Ok (Complete p f).
Proof.
  rewrite !inspect_frame_scan, len_app, take_app. pose proof (len_nonneg more).
  destruct (scan_prefix max (take 10 input) 0 0) as [|e|p' f'] eqn:Hs; [by case_match|done|].
  rewrite scan_prefix_app by congruence. rewrite Hs.
  case_match; [|done]. intros [= <- <-]. by case_match; [|lia].
Qed.

Lemma inspect_frame_app_Err input more max e :
  inspect input max = Err e → inspect (input ++ more) max = Err e.
Proof.
  rewrite !inspect_frame_scan, len_app, take_app. pose proof (len_nonneg more).
  destruct (scan_prefix max (take 10 input) 0 0) eqn:Hs.
  - case_match; [|done]. intros [= <-].
    replace (10 - length input)%nat with 0%nat by (unfold len in *; lia).
    rewrite take_0, app_nil_r, Hs. by case_match; [|lia].
  - intros [= <-]. rewrite scan_prefix_app by congruence. by rewrite Hs.
  - by case_match.
Qed.

(** The two ways the pending buffer grows stop exactly at the end of a frame. *)
Lemma inspect_frame_snoc input byte max p f :
  inspect input max = Ok NeedPrefix →
  inspect (input ++ [byte]) max = Ok (Complete p f) →
  len (input ++ [byte]) = u64_add p f.
Proof.
  rewrite !inspect_frame_scan, len_app.
  assert (Ht : len input < 10 → take 10 input = input ∧ take 10 (input ++ [byte]) = input ++ [byte]).
  { intros. unfold len in *. rewrite !take_ge; [done|rewrite length_app; simpl; lia|lia]. }
  destruct (scan_prefix max (take 10 input) 0 0) as [|e|p' f'] eqn:Hs; [|done|by case_match].
  case_match; [done|]. intros _. destruct Ht as [Ht1 Ht2]; [lia|]. rewrite Ht1 in Hs. rewrite Ht2.
  destruct (scan_prefix max (input ++ [byte]) 0 0) as [|e|p' f'] eqn:Hs'; [by case_match|done|].
  case_match; [|done]. intros [= <- <-].
  pose proof (scan_prefix_snoc _ _ _ _ _ _ _ (Z.le_refl 0) Hs Hs') as ->.
  apply scan_prefix_Announced in Hs'; [|done].
  rewrite len_app in *. unfold len in *. simpl in *. width.
Qed.

Lemma inspect_frame_payload input more max total :
  inspect input max = Ok (NeedPayload total) → len (input ++ more) ≤ total →
  inspect (input ++ more) max = Ok (NeedPayload total) ∨
  ∃ p f, inspect (input ++ more) max = Ok (Complete p f) ∧ len (input ++ more) = u64_add p f.
Proof.
  rewrite !inspect_frame_scan, take_app.
  destruct (scan_prefix max (take 10 input) 0 0) eqn:Hs; try (repeat case_match; done).
  rewrite scan_prefix_app by congruence. rewrite Hs.
  case_match; [done|]. intros [= <-] Hle. case_match; [right|left; done].
  eexists _, _. split; [done|]. lia.
Qed.
End inspect.

(** ** Chunk boundaries do not matter *)

(** Two decoders agree when they differ at most in the buffer of a stopped one,
    which no later operation reads. *)
Definition decoder_eqv {D I} (d d' : IncrementalStreamDecoder D I) : Prop :=
  set_pending [] d = set_pending [] d' ∧ (terminal_error d = None → pending d = pending d').
#[export] Instance decoder_equiv {D I} : Equiv (IncrementalStreamDecoder D I) := decoder_eqv.
#[export] Instance decoder_equivalence {D I} :
  Equivalence (≡@{IncrementalStreamDecoder D I}).
Proof.
  assert (Ht : ∀ d d' : IncrementalStreamDecoder D I,
    set_pending [] d = set_pending [] d' → terminal_error d = terminal_error d')
    by (intros [] [] [=]; done).
  split.
  - by intros d.
  - intros d d' [H1 H2]. split; [done|]. intros. symmetry. apply H2. rewrite (Ht _ _ H1). done.
  - intros d d' d'' [H1 H2] [H3 H4]. split; [congruence|].
    intros. rewrite H2 by done. apply H4. by rewrite <- (Ht _ _ H1).
Qed.

(** What [finish] reports depends on the decoder up to that relation only. *)
#[export] Instance finish_proper {D I} : Proper ((≡) ==> (=)) (@finish D I).
Proof.
  intros [] [] [H1 H2]. cbv in H1. simplify_eq. unfold finish. simpl in *.
  case_match; [done|]. by rewrite H2.
Qed.

Section chunking.
Context {D I Event V : Type}.
Context (decode_event : list Z → result D Event).
Context (visitor : V → Event → list Z → IncrementalStreamControl * V).
Context (capacity : list Z → Z).
Abbreviation Decoder := (IncrementalStreamDecoder D I).
Abbreviation inspect := (inspect_frame (D:=D) (I:=I)).
Abbreviation visit := (decode_frame decode_event visitor).
Abbreviation push_loop := (push_loop decode_event visitor capacity).
Abbreviation push_frames := (push_frames decode_event visitor capacity).
Abbreviation push_chunks := (push_chunks decode_event visitor capacity).

Lemma set_pending_set_pending p q (d : Decoder) : set_pending p (set_pending q d) = set_pending p d.
Proof. done. Qed.
Lemma set_pending_same (d : Decoder) p : pending d = p → set_pending p d = d.
Proof. by destruct d; simpl; intros ->. Qed.

Lemma decode_frame_pending (d : Decoder) v frame framed p :
  visit (set_pending p d) v frame framed =
  (set_pending p (visit d v frame framed).1, (visit d v frame framed).2).
Proof. unfold decode_frame, visit_decoded_frame; simpl. repeat (case_match; try done). Qed.

Lemma decode_frame_keeps (d : Decoder) v frame framed :
  pending (visit d v frame framed).1 = pending d ∧
  max_frame_bytes (visit d v frame framed).1 = max_frame_bytes d.
Proof. unfold decode_frame, visit_decoded_frame; simpl. repeat (case_match; try done). Qed.

(** The frames of a byte string visited one after the other: the reference the
    chunked decoder is compared with.  The buffer of [d] is empty. *)
Inductive drains : Decoder → V → list Z → Decoder → V → Prop :=
| drains_stop d v bs : is_terminal d = true → drains d v bs d v
| drains_need_prefix d v bs : is_terminal d = false →
    inspect bs (max_frame_bytes d) = Ok NeedPrefix →
    drains d v bs (set_pending bs d) v
| drains_need_payload d v bs total : is_terminal d = false →
    inspect bs (max_frame_bytes d) = Ok (NeedPayload total) →
    drains d v bs (set_pending bs d) v
| drains_error d v bs e : is_terminal d = false →
    inspect bs (max_frame_bytes d) = Err e → drains d v bs (set_error e d) v
| drains_frame d v bs p f d1 v1 d' v' : is_terminal d = false →
    inspect bs (max_frame_bytes d) = Ok (Complete p f) →
    visit d v (slice bs p (u64_add p f)) (slice bs 0 (u64_add p f)) = (d1, v1) →
    drains d1 v1 (drop (Z.to_nat (u64_add p f)) bs) d' v' →
    drains d v bs d' v'.
Hint Constructors drains : core.

Lemma drains_det d v bs d1 v1 d2 v2 :
  drains d v bs d1 v1 → drains d v bs d2 v2 → d1 = d2 ∧ v1 = v2.
Proof.
  intros H1. revert d2 v2.
  induction H1 as [| | | |d v bs p f d1 v1 d' v' Ht Hi Hv Hd IH]; inversion 1; simplify_eq;
    try congruence; try done; [split; congruence|].
  match goal with H : inspect bs _ = Ok (Complete ?q ?g) |- _ =>
    assert (p = q ∧ f = g) as [<- <-] by (split; congruence) end.
  apply IH. match goal with H : visit d v _ _ = _ |- _ => rewrite Hv in H; by simplify_eq end.
Qed.

Lemma drains_nil (d : Decoder) v : pending d = [] → drains d v [] d v.
Proof.
  intros Hp. destruct (is_terminal d) eqn:Ht; [by constructor|].
  rewrite <- (set_pending_same d []) at 2 by done. by constructor.
Qed.

(** A stopped decoder keeps what it had, a running one waits for bytes. *)
Definition waiting (d : Decoder) : Prop :=
  is_terminal d = false →
  ∃ s, inspect (pending d) (max_frame_bytes d) = Ok s ∧ ∀ p f, s ≠ Complete p f.

Lemma drains_waiting d v bs d' v' : drains d v bs d' v' → waiting d'.
Proof.
  unfold waiting. induction 1 as [| | | |]; simpl; intros Hf.
  - congruence.
  - by exists NeedPrefix.
  - by exists (NeedPayload total).
  - done.
  - auto.
Qed.

Lemma waiting_drains (d : Decoder) v : waiting d → is_terminal d = false →
  drains (set_pending [] d) v (pending d) d v.
Proof.
  intros Hw Ht. destruct (Hw Ht) as (s & Hi & Hc).
  assert (Hd : d = set_pending (pending d) (set_pending [] d)) by by destruct d.
  destruct s as [|total|p f]; [rewrite Hd at 3; eauto..|by destruct (Hc p f)].
Qed.

Lemma waiting_eqv d d' : d ≡ d' → waiting d → waiting d'.
Proof.
  destruct d, d'. intros [H1 H2]. cbv [set_pending] in H1. simplify_eq.
  unfold waiting, is_terminal. simpl in *. intros Hw Ht. case_match; [done|].
  rewrite <- H2 by done. by apply Hw.
Qed.

(** Running on [a] and then on what is left over with [b] appended is running
    on [a ++ b]. *)
Lemma drains_app d v a d1 v1 : drains d v a d1 v1 → pending d = [] →
  ∀ b d2 v2, drains (set_pending [] d1) v1 (pending d1 ++ b) d2 v2 →
  drains d v (a ++ b) d2 v2.
Proof.
  induction 1 as [d v bs Ht|d v bs Ht Hi|d v bs total Ht Hi|d v bs e Ht Hi
    |d v bs p f d1 v1 d' v' Ht Hi Hv Hd IH]; intros Hp b d2 v2; simpl.
  1: rewrite set_pending_same by done; inversion 1; simplify_eq; [by constructor|congruence..].
  1,2: rewrite set_pending_set_pending, set_pending_same by done; done.
  - inversion 1; simplify_eq; [|done..]. rewrite set_pending_same by done.
    apply drains_error; [done|]. by apply inspect_frame_app_Err.
  - intros H2. pose proof (inspect_frame_Complete _ _ _ _ Hi).
    eapply drains_frame; [done|by apply inspect_frame_app_Complete| |].
    + rewrite !slice_app_l by lia. done.
    + rewrite drop_app_le by (unfold len in *; lia). apply IH; [|done].
      pose proof (proj1 (decode_frame_keeps d v (slice bs p (u64_add p f)) (slice bs 0 (u64_add p f)))) as Hk.
      rewrite Hv in Hk. simpl in Hk. congruence.
Qed.

(** The retained bytes never go beyond the frame they start. *)
Definition pending_exact (d : Decoder) : Prop :=
  ∀ p f, inspect (pending d) (max_frame_bytes d) = Ok (Complete p f) →
  len (pending d) = u64_add p f.

Lemma decode_pending_visit (d : Decoder) v p f :
  decode_pending decode_event visitor capacity d v p f =
  visit (set_pending [] d) v (slice (pending d) p (u64_add p f)) (slice (pending d) 0 (u64_add p f)).
Proof.
  unfold decode_pending, recycle_pending. rewrite decode_frame_pending.
  by case_match; simpl; rewrite ?set_pending_set_pending.
Qed.

(** One pass of the loop keeps the retained bytes exact. *)
Lemma pending_exact_snoc (d : Decoder) byte :
  inspect (pending d) (max_frame_bytes d) = Ok NeedPrefix →
  pending_exact (set_pending (pending d ++ [byte]) d).
Proof. intros Hi p f Hc. by eapply inspect_frame_snoc. Qed.

Lemma pending_exact_payload (d : Decoder) more total :
  inspect (pending d) (max_frame_bytes d) = Ok (NeedPayload total) →
  len (pending d ++ more) ≤ total →
  pending_exact (set_pending (pending d ++ more) d).
Proof.
  intros Hi Hle p f Hc. simpl in *.
  destruct (inspect_frame_payload _ _ _ _ Hi Hle) as [Hn|(p' & f' & Hc' & Hl)]; congruence.
Qed.

Lemma pending_exact_nil (d : Decoder) : pending d = [] → pending_exact d.
Proof. intros Hp p f. by rewrite Hp. Qed.

Lemma set_error_eqv (d : Decoder) e : set_error e d ≡ set_error e (set_pending [] d).
Proof. by split. Qed.

Lemma decode_frame_cleared (d : Decoder) v frame framed :
  pending (visit (set_pending [] d) v frame framed).1 = [].
Proof. apply decode_frame_keeps. Qed.

Lemma waiting_exact d : waiting d → is_terminal d = false → pending_exact d.
Proof.
  intros Hw Ht p f Hi. destruct (Hw Ht) as (s & Hs & Hc).
  rewrite Hs in Hi. injection Hi as ->. by destruct (Hc p f).
Qed.

(** A frame completed in the retained bytes is one step of the reference. *)
Lemma drains_pending_frame (d : Decoder) v p f d1 v1 rest :
  is_terminal d = false → pending_exact d →
  inspect (pending d) (max_frame_bytes d) = Ok (Complete p f) →
  decode_pending decode_event visitor capacity d v p f = (d1, v1) →
  pending d1 = [] ∧
  ∀ d' v', drains d1 v1 rest d' v' → drains (set_pending [] d) v (pending d ++ rest) d' v'.
Proof.
  intros Ht Hx Hi. rewrite decode_pending_visit. intros Hv. split.
  { pose proof (decode_frame_cleared d v (slice (pending d) p (u64_add p f))
      (slice (pending d) 0 (u64_add p f))) as Hk. by rewrite Hv in Hk. }
  intros d' v' Hd. pose proof (inspect_frame_Complete _ _ _ _ Hi). specialize (Hx _ _ Hi).
  eapply drains_frame; [done|by apply inspect_frame_app_Complete| |].
  - rewrite !slice_app_l by lia. done.
  - rewrite drop_app_ge by (unfold len in *; lia).
    replace (Z.to_nat (u64_add p f) - length (pending d))%nat with 0%nat by (unfold len in *; lia).
    by rewrite drop_0.
Qed.

(** So is a frame found whole in the chunk. *)
Lemma drains_input_frame (d : Decoder) v p f d1 v1 input :
  is_terminal d = false → pending d = [] →
  inspect input (max_frame_bytes d) = Ok (Complete p f) →
  visit d v (slice input p (u64_add p f)) (slice input 0 (u64_add p f)) = (d1, v1) →
  pending d1 = [] ∧
  ∀ d' v', drains d1 v1 (drop (Z.to_nat (u64_add p f)) input) d' v' →
  drains (set_pending [] d) v input d' v'.
Proof.
  intros Ht Hp Hi Hv. split.
  - pose proof (decode_frame_keeps d v (slice input p (u64_add p f))
      (slice input 0 (u64_add p f))) as Hk. rewrite Hv in Hk. simpl in Hk. destruct Hk. congruence.
  - rewrite set_pending_same by done. intros d' v' Hd. eapply drains_frame; eauto.
Qed.

Lemma push_last_drains (d : Decoder) v d' v' :
  is_terminal d = false → pending_exact d →
  push_last decode_event visitor capacity d v = (d', v') →
  ∃ d'', drains (set_pending [] d) v (pending d) d'' v' ∧ d' ≡ d''.
Proof.
  intros Ht Hx. unfold push_last. destruct (pending d) as [|b bs] eqn:Hp.
  { intros [= <- <-]. exists (set_pending [] d). split; [by apply drains_nil|].
    by rewrite set_pending_same. }
  rewrite <- Hp. destruct (inspect (pending d) (max_frame_bytes d)) as [[|total|p f]|e] eqn:Hi.
  1,2: intros [= <- <-]; exists (set_pending (pending d) (set_pending [] d)); split; [eauto|];
    by rewrite set_pending_set_pending, set_pending_same.
  - intros Hv. destruct (drains_pending_frame _ _ _ _ _ _ [] Ht Hx Hi Hv) as [Hp1 Hstep].
    exists d'. split; [|done]. rewrite <- (app_nil_r (pending d)). by apply Hstep, drains_nil.
  - intros [= <- <-]. eexists. split; [by apply drains_error|]. apply set_error_eqv.
Qed.

Lemma push_loop_drains fuel (d : Decoder) v input d' v' :
  is_terminal d = false → pending_exact d →
  push_loop fuel d v input = Some (d', v') →
  ∃ d'', drains (set_pending [] d) v (pending d ++ input) d'' v' ∧ d' ≡ d''.
Proof.
  revert d v input. induction fuel as [|fuel IH]; intros d v input Ht Hx; simpl; [done|].
  assert (Hrun : ∀ d1 v1 rest, pending d1 = [] →
    (if is_terminal d1 then Some (d1, v1) else push_loop fuel d1 v1 rest) = Some (d', v') →
    ∃ d'', drains d1 v1 rest d'' v' ∧ d' ≡ d'').
  { intros d1 v1 rest Hp1. destruct (is_terminal d1) eqn:Ht1.
    - intros [= <- <-]. exists d1. split; [by constructor|done].
    - intros Hl. destruct (IH _ _ _ Ht1 (pending_exact_nil _ Hp1) Hl) as (d'' & Hd'' & He).
      rewrite Hp1, set_pending_same in Hd'' by done. eauto. }
  destruct input as [|first rest].
  { intros [=]. rewrite app_nil_r. by apply push_last_drains. }
  destruct (pending d) as [|b bs] eqn:Hp.
  - change ([] ++ first :: rest) with (first :: rest).
    destruct (inspect (first :: rest) (max_frame_bytes d)) as [[|total|p f]|e] eqn:Hi.
    1,2: intros [= <- <-]; exists (set_pending (first :: rest) (set_pending [] d)); split; [eauto|done].
    + destruct (visit d v _ _) as [d1 v1] eqn:Hv.
      destruct (drains_input_frame _ _ _ _ _ _ _ Ht Hp Hi Hv) as [Hp1 Hstep].
      intros (d'' & Hd'' & He)%Hrun; [|done]. eauto.
    + intros [= <- <-]. exists (set_error e (set_pending [] d)). split; [eauto|].
      apply set_error_eqv.
  - rewrite <- Hp.
    destruct (inspect (pending d) (max_frame_bytes d)) as [[|total|p f]|e] eqn:Hi.
    + intros Hl. destruct (IH (set_pending (pending d ++ [first]) d) v rest Ht
        (pending_exact_snoc _ _ Hi) Hl) as (d'' & Hd'' & He).
      exists d''. split; [|done]. simpl in Hd''. by rewrite <- app_assoc in Hd''.
    + set (count := Z.to_nat _). intros Hl. pose proof (inspect_frame_NeedPayload _ _ _ Hi) as Hb.
      assert (Hle : len (pending d ++ take count (first :: rest)) ≤ total).
      { rewrite len_app. unfold len at 2. rewrite length_take. subst count. width. }
      destruct (IH (set_pending (pending d ++ take count (first :: rest)) d) v _ Ht
        (pending_exact_payload _ _ _ Hi Hle) Hl) as (d'' & Hd'' & He).
      exists d''. split; [|done]. simpl in Hd''. by rewrite <- app_assoc, take_drop in Hd''.
    + destruct (decode_pending _ _ _ d v p f) as [d1 v1] eqn:Hv.
      destruct (drains_pending_frame _ _ _ _ _ _ (first :: rest) Ht Hx Hi Hv) as [Hp1 Hstep].
      intros (d'' & Hd'' & He)%Hrun; [|done]. eauto.
    + intros [= <- <-]. eexists. split; [|apply set_error_eqv].
      apply drains_error; [done|]. by apply inspect_frame_app_Err.
Qed.

(** *** Termination *)
Lemma push_loop_total fuel (d : Decoder) v input :
  (2 * length input + (if decide (pending d = []) then 0 else 1) < fuel)%nat →
  ∃ r, push_loop fuel d v input = Some r.
Proof.
  revert d v input. induction fuel as [|fuel IH]; intros d v input Hf; [lia|]. simpl.
  destruct input as [|first rest]; [eauto|]. simpl in Hf.
  destruct (pending d) as [|b bs] eqn:Hp; [|rewrite <- Hp in *].
  - rewrite decide_True in Hf by done.
    destruct (inspect (first :: rest) (max_frame_bytes d)) as [[|total|p f]|e] eqn:Hi; eauto.
    pose proof (inspect_frame_Complete _ _ _ _ Hi) as Hb.
    destruct (visit d v _ _) as [d1 v1] eqn:Hv. case_match; [eauto|]. apply IH.
    rewrite length_drop. unfold len in Hb. simpl in *. case_decide; lia.
  - rewrite decide_False in Hf by congruence.
    destruct (inspect (pending d) (max_frame_bytes d)) as [[|total|p f]|e] eqn:Hi; eauto.
    + apply IH. case_decide; simpl; lia.
    + pose proof (inspect_frame_NeedPayload _ _ _ Hi) as Hb. apply IH.
      rewrite length_drop. unfold len in *. simpl in *. case_decide; width.
    + rewrite decode_pending_visit. destruct (visit _ v _ _) as [d1 v1] eqn:Hv.
      pose proof (decode_frame_cleared d v (slice (pending d) p (u64_add p f))
        (slice (pending d) 0 (u64_add p f))) as Hk. rewrite Hv in Hk.
      case_match; [eauto|]. apply IH. rewrite decide_True by done. simpl. lia.
Qed.

Lemma push_frames_Some (d : Decoder) v input : ∃ d' v', push_frames d v input = Some (d', v').
Proof.
  unfold push_frames. case_match; [eauto|].
  destruct (push_loop_total (push_fuel input) d v input) as [[d' v'] ->]; [|eauto].
  unfold push_fuel. case_decide; lia.
Qed.

(** *** The simulation *)
Lemma push_frames_drains (d : Decoder) v input d' v' :
  is_terminal d = false → waiting d → push_frames d v input = Some (d', v') →
  ∃ d'', drains (set_pending [] d) v (pending d ++ input) d'' v' ∧ d' ≡ d''.
Proof.
  intros Ht Hw. unfold push_frames. rewrite Ht. apply push_loop_drains; [done|].
  by apply waiting_exact.
Qed.

Lemma push_frames_terminal (d : Decoder) v input :
  is_terminal d = true → push_frames d v input = Some (d, v).
Proof. unfold push_frames. by intros ->. Qed.

Lemma push_frames_waiting (d : Decoder) v input d' v' :
  waiting d → push_frames d v input = Some (d', v') → waiting d'.
Proof.
  intros Hw Hp. destruct (is_terminal d) eqn:Ht.
  { rewrite push_frames_terminal in Hp by done. by simplify_eq. }
  destruct (push_frames_drains _ _ _ _ _ Ht Hw Hp) as (d'' & Hd & He).
  eapply waiting_eqv; [by symmetry|]. by eapply drains_waiting.
Qed.

(** Continuing from a decoder is continuing the reference from an equal one. *)
Lemma push_rest (d d' : Decoder) v b d2 v2 : waiting d → d ≡ d' →
  push_frames d v b = Some (d2, v2) →
  ∃ d2', drains (set_pending [] d') v (pending d' ++ b) d2' v2 ∧ d2 ≡ d2'.
Proof.
  intros Hw He Hp. pose proof He as [Hs Hpend]. destruct (is_terminal d) eqn:Ht.
  - rewrite push_frames_terminal in Hp by done. injection Hp as <- <-.
    exists (set_pending [] d'). split.
    + apply drains_stop. rewrite <- Hs. done.
    + split; [done|]. unfold is_terminal in Ht. case_match; congruence.
  - rewrite <- Hs, <- Hpend by (unfold is_terminal in Ht; by case_match).
    by apply push_frames_drains.
Qed.

(** Equal results up to the buffer of a stopped decoder. *)
Definition same_result (r r' : option (Decoder * V)) : Prop :=
  ∃ d v d' v', r = Some (d, v) ∧ r' = Some (d', v') ∧ d ≡ d' ∧ v = v'.

Lemma push_frames_append (d : Decoder) v a b : waiting d →
  same_result (push_frames d v (a ++ b)) ('(d, v) ← push_frames d v a; push_frames d v b).
Proof.
  intros Hw. destruct (push_frames_Some d v a) as (d1 & v1 & H1).
  destruct (push_frames_Some d v (a ++ b)) as (d2 & v2 & H2).
  destruct (push_frames_Some d1 v1 b) as (d3 & v3 & H3).
  rewrite H1, H2. simpl. rewrite H3. exists d2, v2, d3, v3. split_and!; try done.
  all: destruct (is_terminal d) eqn:Ht; [rewrite push_frames_terminal in * by done; simplify_eq;
    rewrite push_frames_terminal in * by done; by simplify_eq|].
  all: pose proof (push_frames_waiting _ _ _ _ _ Hw H1) as Hw1.
  all: destruct (push_frames_drains _ _ _ _ _ Ht Hw H1) as (d1' & Hd1 & He1).
  all: destruct (push_frames_drains _ _ _ _ _ Ht Hw H2) as (d2' & Hd2 & He2).
  all: rewrite app_assoc in Hd2.
  all: destruct (push_rest _ _ _ _ _ _ Hw1 He1 H3) as (d3' & Hd3 & He3).
  all: destruct (drains_det _ _ _ _ _ _ _ Hd2 (drains_app _ _ _ _ _ Hd1 eq_refl _ _ _ Hd3)) as [-> ->].
  - by rewrite He2, He3.
  - done.
Qed.
End chunking.

(** ** Encoding and decoding a length *)

Lemma lor_disjoint_add a b k : 0 ≤ k → 0 ≤ a < 2 ^ k → Z.lor a (b * 2 ^ k) = a + b * 2 ^ k.
Proof.
  intros Hk Ha. rewrite <- Z.shiftl_mul_pow2 by done.
  assert (Hl : Z.land a (Z.shiftl b k) = 0).
  { apply Z.bits_inj'. intros n Hn. rewrite Z.land_spec, Z.shiftl_spec, Z.bits_0 by done.
    destruct (decide (n < k)); [by rewrite (Z.testbit_neg_r b (n - k)), andb_false_r by lia|].
    destruct (decide (a = 0)) as [->|]; [by rewrite Z.bits_0|].
    rewrite (Z.bits_above_log2 a n); [done|lia|]. apply Z.log2_lt_pow2; [lia|].
    apply Z.lt_le_trans with (2 ^ k); [lia|]. apply Z.pow_le_mono_r; lia. }
  by rewrite Z.add_nocarry_lxor, Z.lxor_lor.
Qed.

Lemma land_0x7f b : Z.land b 0x7f = b mod 128.
Proof. apply (Z.land_ones b 7). lia. Qed.

Lemma varint_byte_payload x : Z.land (Z.lor (Z.land (x mod 256) 0x7f) 0x80) 0x7f = x mod 128.
Proof.
  rewrite !land_0x7f. rewrite Z.mod_mod_divide by (exists 2; lia).
  change 0x80 with (1 * 2 ^ 7). rewrite lor_disjoint_add by (try lia; apply Z.mod_pos_bound; lia).
  change (1 * 2 ^ 7) with (1 * 128). rewrite Z.mod_add by lia. by rewrite Z.mod_mod.
Qed.

Lemma varint_byte_continues x : (Z.land (Z.lor (Z.land (x mod 256) 0x7f) 0x80) 0x80 =? 0) = false.
Proof.
  apply Z.eqb_neq. intros H. apply (f_equal (fun z => Z.testbit z 7)) in H.
  rewrite Z.land_spec, Z.lor_spec, Z.bits_0 in H. change (Z.testbit 128 7) with true in H.
  by rewrite orb_true_r in H.
Qed.

Lemma land_0x80_small x : 0 ≤ x < 128 → (Z.land x 0x80 =? 0) = true.
Proof.
  intros Hx. apply Z.eqb_eq. change 0x80 with (2 ^ 7). apply Z.bits_inj'. intros n Hn.
  rewrite Z.land_spec, Z.bits_0. destruct (decide (n = 7)) as [->|].
  - rewrite (Z.bits_above_log2 x 7); [done|lia|].
    destruct (decide (x = 0)) as [->|]; [simpl; lia|]. apply Z.log2_lt_pow2; lia.
  - rewrite (Z.pow2_bits_false 7 n) by done. by rewrite andb_false_r.
Qed.

Lemma u64_shl_exact x i : 0 ≤ i → 0 ≤ x → x * 2 ^ (i * 7) < 2 ^ 64 →
  u64_shl x (i * 7) = x * 2 ^ (i * 7).
Proof.
  intros. unfold u64_shl. rewrite Z.shiftl_mul_pow2 by lia. apply Z.mod_small.
  split; [|done]. apply Z.mul_nonneg_nonneg; [done|]. apply Z.pow_nonneg. lia.
Qed.

(** The bytes of [write_varint] are read back as the number they encode. *)
Lemma scan_write_varint {D I} max rest fuel i x acc :
  0 ≤ i ≤ 9 → Z.of_nat fuel = 10 - i → 0 ≤ x → 0 ≤ acc < 2 ^ (i * 7) →
  acc + x * 2 ^ (i * 7) < 2 ^ 64 →
  scan_prefix (D:=D) (I:=I) max (write_varint_loop fuel x ++ rest) i acc =
    (let n := acc + x * 2 ^ (i * 7) in
     if max <? n then Malformed (TooLarge n max)
     else Announced (i + len (write_varint_loop fuel x)) n).
Proof.
  revert i x acc. induction fuel as [|fuel IH]; intros i x acc Hi Hf Hx Hacc Hlt; [lia|].
  pose proof (Z.pow_pos_nonneg 2 (i * 7) ltac:(lia) ltac:(lia)) as Hpow.
  cbn [write_varint_loop]. destruct (Z.leb_spec 0x80 x) as [Hge|Hsmall].
  - (* a continuation byte *)
    assert (Hi9 : i ≠ 9).
    { intros ->. assert (128 * 2 ^ (9 * 7) ≤ x * 2 ^ (9 * 7)) by (apply Z.mul_le_mono_nonneg_r; lia).
      change (128 * 2 ^ (9 * 7)) with (2 ^ 70) in *. lia. }
    assert (Hdiv : x = 128 * Z.shiftr x 7 + x mod 128).
    { rewrite Z.shiftr_div_pow2 by lia. apply Z.div_mod. lia. }
    pose proof (Z.mod_pos_bound x 128 ltac:(lia)) as Hm.
    assert (Hs0 : 0 ≤ Z.shiftr x 7) by lia.
    assert (Hp7 : 2 ^ ((i + 1) * 7) = 128 * 2 ^ (i * 7)).
    { replace ((i + 1) * 7) with (7 + i * 7) by lia. by rewrite Z.pow_add_r by lia. }
    cbn [app scan_prefix]. rewrite varint_byte_payload, varint_byte_continues.
    rewrite (proj2 (Z.eqb_neq (i * 7) 63)) by lia. cbn [andb].
    rewrite u64_shl_exact, lor_disjoint_add by (try lia; nia).
    rewrite IH by (try lia; rewrite Hp7; nia).
    replace (acc + x mod 128 * 2 ^ (i * 7) + Z.shiftr x 7 * 2 ^ ((i + 1) * 7))
      with (acc + x * 2 ^ (i * 7)) by (rewrite Hp7; nia).
    cbn zeta. rewrite len_cons. by replace (i + 1 + len (write_varint_loop fuel (Z.shiftr x 7)))
      with (i + (1 + len (write_varint_loop fuel (Z.shiftr x 7)))) by lia.
  - (* the last byte *)
    rewrite Z.mod_small by lia. cbn [app scan_prefix].
    rewrite land_0x7f, Z.mod_small, land_0x80_small by lia.
    replace ((i * 7 =? 63) && (1 <? x)) with false; cycle 1.
    { symmetry. apply andb_false_iff. destruct (decide (i = 9)) as [->|]; [right|left; lia].
      apply Z.ltb_ge. change (2 ^ (9 * 7)) with (2 ^ 63) in *. lia. }
    rewrite u64_shl_exact, lor_disjoint_add by (try lia; nia).
    cbn zeta. case_match; [done|]. unfold len. simpl. done.
Qed.

Lemma write_varint_short n : len (write_varint n) ≤ 10.
Proof.
  assert (H : ∀ fuel x, len (write_varint_loop fuel x) ≤ Z.of_nat fuel).
  { induction fuel as [|fuel IH]; intros x; [done|]. cbn [write_varint_loop].
    case_match; rewrite len_cons; [specialize (IH (Z.shiftr x 7))|unfold len; simpl]; lia. }
  apply (H 10%nat).
Qed.

(** [inspect_frame] on bytes that start with an encoded length. *)
Lemma inspect_frame_varint {D I} n rest max :
  0 ≤ n < 2 ^ 64 →
  inspect_frame (D:=D) (I:=I) (write_varint n ++ rest) max =
    if max <? n then Err (TooLarge n max)
    else if u64_add (len (write_varint n)) n <=? len (write_varint n ++ rest)
         then Ok (Complete (len (write_varint n)) n)
         else Ok (NeedPayload (u64_add (len (write_varint n)) n)).
Proof.
  intros Hn. rewrite inspect_frame_scan, take_app. pose proof (write_varint_short n) as Hs.
  rewrite take_ge by (unfold len in Hs; lia). unfold write_varint at 1.
  rewrite scan_write_varint by (simpl; lia). cbn zeta. change (0 * 7) with 0.
  rewrite Z.pow_0_r, Z.mul_1_r, !Z.add_0_l. fold (write_varint n). by destruct (max <? n).
Qed.

Lemma len_encode_frame body : len (encode_frame body) = len (write_varint (len body)) + len body.
Proof. apply len_app. Qed.

Lemma inspect_frame_encoded {D I} body rest max :
  len body ≤ max → max + 10 ≤ u64_max →
  inspect_frame (D:=D) (I:=I) (encode_frame body ++ rest) max =
    Ok (Complete (len (write_varint (len body))) (len body)).
Proof.
  intros Hm Hx. unfold encode_frame. rewrite <- app_assoc. pose proof (len_nonneg body).
  pose proof (write_varint_short (len body)). pose proof (len_nonneg (write_varint (len body))).
  rewrite inspect_frame_varint by (unfold u64_max in Hx; lia).
  rewrite !len_app. pose proof (len_nonneg rest). rewrite u64_add_exact by (unfold u64_max in *; lia).
  repeat case_match; [lia|done|lia].
Qed.

Section stream.
Context {D I Event V : Type}.
Context (decode_event : list Z → result D Event) (capacity : list Z → Z).
Abbreviation Decoder := (IncrementalStreamDecoder D I).

Lemma new_decoder_waiting mf ms me : waiting (D:=D) (I:=I) (new_decoder mf ms me).
Proof. intros _. by exists NeedPrefix. Qed.

Section chunks.
Context (visitor : V → Event → list Z → IncrementalStreamControl * V).
Abbreviation push_frames := (push_frames decode_event visitor capacity).
Abbreviation push_chunks := (push_chunks decode_event visitor capacity).

Lemma push_frames_nil (d : Decoder) v : waiting d →
  same_result (push_frames d v []) (Some (d, v)).
Proof.
  intros Hw. destruct (is_terminal d) eqn:Ht.
  { rewrite push_frames_terminal by done. by exists d, v, d, v. }
  destruct (push_frames_Some decode_event visitor capacity d v []) as (d' & v' & Hp).
  destruct (push_frames_drains _ _ _ _ _ _ _ _ Ht Hw Hp) as (d'' & Hd & He).
  rewrite app_nil_r in Hd.
  destruct (drains_det _ _ _ _ _ _ _ _ _ Hd (waiting_drains _ _ d v Hw Ht)) as [-> ->].
  rewrite Hp. by exists d', v, d, v.
Qed.

Lemma push_frames_eqv (d d' : Decoder) v input : d ≡ d' →
  same_result (push_frames d v input) (push_frames d' v input).
Proof.
  intros [Hs Hp]. destruct (is_terminal d) eqn:Ht.
  - assert (is_terminal d' = true) by (destruct d, d'; cbv [set_pending] in Hs; by simplify_eq).
    rewrite !push_frames_terminal by done. exists d, v, d', v. by split_and!.
  - assert (d = d') as <-.
    { destruct d, d'. cbv [set_pending] in Hs. simplify_eq. simpl in *.
      unfold is_terminal in Ht. simpl in Ht. case_match; [done|]. by rewrite Hp. }
    destruct (push_frames_Some decode_event visitor capacity d v input) as (d1 & v1 & ->).
    by exists d1, v1, d1, v1.
Qed.

Lemma push_chunks_concat (d : Decoder) v chunks : waiting d →
  same_result (push_chunks d v chunks) (push_frames d v (concat chunks)).
Proof.
  revert d v. induction chunks as [|chunk chunks IH]; intros d v Hw; simpl.
  { destruct (push_frames_nil d v Hw) as (d1 & v1 & d2 & v2 & H1 & H2 & He & ->).
    simplify_eq. exists d2, v2, d1, v2. rewrite H1. by split_and!. }
  destruct (push_frames_append decode_event visitor capacity d v chunk (concat chunks) Hw)
    as (d1 & v1 & d2 & v2 & H1 & H2 & He & ->).
  destruct (push_frames_Some decode_event visitor capacity d v chunk) as (d3 & v3 & H3).
  rewrite H3 in H2 |- *. simpl in H2 |- *. rewrite H1.
  destruct (IH d3 v3 (push_frames_waiting _ _ _ _ _ _ _ _ Hw H3))
    as (d4 & v4 & d5 & v5 & H4 & H5 & He' & ->).
  rewrite H4. exists d4, v5, d1, v2. rewrite H2 in H5. simplify_eq.
  split_and!; [done..| |done]. by rewrite He', He.
Qed.
End chunks.
End stream.

(** ** Whole streams *)

Definition total_len (bodies : list (list Z)) : Z := foldr (fun b n => len b + n) 0 bodies.

Lemma total_len_nonneg bodies : 0 ≤ total_len bodies.
Proof. induction bodies as [|b bs IH]; simpl; [lia|]. pose proof (len_nonneg b). lia. Qed.

Lemma encode_frame_cut_waits {D I} body n max :
  len body ≤ max → max + 10 ≤ u64_max → (n < length (encode_frame body))%nat →
  ∃ s, inspect_frame (D:=D) (I:=I) (take n (encode_frame body)) max = Ok s ∧ ∀ p f, s ≠ Complete p f.
Proof.
  intros Hm Hx Hn. pose proof (inspect_frame_encoded (D:=D) (I:=I) body [] max Hm Hx) as Hi.
  rewrite app_nil_r in Hi. pose proof (inspect_frame_Complete _ _ _ _ Hi) as Hb.
  rewrite <- (take_drop n (encode_frame body)) in Hi.
  destruct (inspect_frame (take n (encode_frame body)) max) as [s|e] eqn:Hc.
  - exists s. split; [done|]. intros p f ->.
    rewrite (inspect_frame_app_Complete _ _ _ _ _ Hc) in Hi. simplify_eq.
    apply inspect_frame_Complete in Hc. rewrite u64_add_exact in Hc by lia.
    assert (len (take n (encode_frame body)) ≤ Z.of_nat n)
      by (unfold len; rewrite length_take; lia).
    pose proof (len_encode_frame body) as He. unfold len at 1 in He. lia.
  - by rewrite (inspect_frame_app_Err _ _ _ _ Hc) in Hi.
Qed.

Lemma foldl_snoc_app {A} (acc l : list A) : foldl (fun xs x => xs ++ [x]) acc l = acc ++ l.
Proof.
  revert acc. induction l as [|x l IH]; intros acc; simpl; [by rewrite app_nil_r|].
  by rewrite IH, <- app_assoc.
Qed.

Section whole_stream.
Context {D I Event V : Type}.
Context (decode_event : list Z → result D Event) (capacity : list Z → Z).
Context (visitor : V → Event → V).
Abbreviation Decoder := (IncrementalStreamDecoder D I).
Abbreviation drains := (drains decode_event (continue_visitor (Event:=Event) visitor)).
Abbreviation push_chunks := (push_chunks decode_event (continue_visitor visitor) capacity).

(** There is room for [bodies] in what is left of the limits of [d]. *)
Definition room_for (d : Decoder) (bodies : list (list Z)) : Prop :=
  is_terminal d = false ∧ pending d = [] ∧
  0 ≤ decoded_bytes d ∧ 0 ≤ event_count d ∧
  max_frame_bytes d + 10 ≤ u64_max ∧ max_stream_bytes d ≤ u64_max ∧ max_events d ≤ u64_max ∧
  Forall (fun b => len b ≤ max_frame_bytes d) bodies ∧
  decoded_bytes d + total_len bodies ≤ max_stream_bytes d ∧
  event_count d + len bodies ≤ max_events d.

Lemma drains_encoded (d : Decoder) v bodies evs tail d' v' :
  room_for d bodies → Forall2 (fun b e => decode_event b = Ok e) bodies evs →
  drains (set_counts (decoded_bytes d + total_len bodies) (event_count d + len bodies) d)
    (foldl visitor v evs) tail d' v' →
  drains d v (concat (map encode_frame bodies) ++ tail) d' v'.
Proof.
  intros Hr Hd. revert d v Hr. induction Hd as [|b e bodies evs Hb Hd IH]; intros d v Hr; simpl.
  { unfold len. simpl. rewrite !Z.add_0_r. by destruct d. }
  destruct Hr as (Ht & Hp & Hdb & Hec & Hx & Hms & Hme & Hl & Hs & He).
  apply Forall_cons in Hl as [Hlb Hl]. simpl in Hs. rewrite len_cons in He |- *.
  pose proof (len_nonneg b). pose proof (len_nonneg bodies). pose proof (total_len_nonneg bodies).
  pose proof (len_nonneg (write_varint (len b))). pose proof (write_varint_short (len b)).
  intros Htail. rewrite <- app_assoc.
  eapply drains_frame; [done|by apply inspect_frame_encoded| |].
  - rewrite u64_add_exact by lia. unfold decode_frame.
    assert (slice (encode_frame b ++ concat (map encode_frame bodies) ++ tail)
      (len (write_varint (len b))) (len (write_varint (len b)) + len b) = b) as ->.
    { unfold slice, encode_frame, len. rewrite <- app_assoc, Nat2Z.id, drop_app_length.
      rewrite take_app_le by lia. apply take_ge. lia. }
    unfold visit_decoded_frame. rewrite !u64_add_exact by lia.
    rewrite Hb. simpl. repeat case_match; try lia. done.
  - rewrite !u64_add_exact by lia. rewrite <- len_encode_frame. replace (Z.to_nat (len (encode_frame b)))
      with (length (encode_frame b)) by (unfold len; lia).
    rewrite drop_app_length. apply IH.
    + repeat split; simpl; try done; lia.
    + simpl. unfold set_counts in *. simpl in *.
      by rewrite <- !Z.add_assoc.
Qed.

Lemma push_chunks_terminal (d : Decoder) v chunks :
  is_terminal d = true → push_chunks d v chunks = Some (d, v).
Proof. intros Ht. induction chunks; simpl; [done|]. rewrite push_frames_terminal by done. done. Qed.

Lemma visit_reads_chunks (d : Decoder) v chunks : Forall (.≠ []) chunks →
  visit_reads decode_event capacity (Ok <$> chunks) d v visitor = push_chunks d v chunks.
Proof.
  intros Hne. revert d v. induction Hne as [|chunk chunks Hc Hne IH]; intros d v; simpl; [done|].
  destruct chunk as [|b chunk]; [done|]. unfold push.
  destruct (push_frames _ _ _ d v (b :: chunk)) as [[d1 v1]|]; simpl; [|done].
  case_match; [by rewrite push_chunks_terminal|apply IH].
Qed.

(** The state a chunked read of [bodies] and an incomplete rest ends in. *)
Lemma visit_reads_encoded (d : Decoder) v bodies evs tail chunks :
  room_for d bodies → Forall2 (fun b e => decode_event b = Ok e) bodies evs →
  (∃ s, inspect_frame (D:=D) (I:=I) tail (max_frame_bytes d) = Ok s ∧ ∀ p f, s ≠ Complete p f) →
  Forall (.≠ []) chunks → concat chunks = concat (map encode_frame bodies) ++ tail →
  ∃ d', visit_reads decode_event capacity (Ok <$> chunks) d v visitor
          = Some (d', foldl visitor v evs) ∧
    d' ≡ set_pending tail (set_counts (decoded_bytes d + total_len bodies)
                             (event_count d + len bodies) d).
Proof.
  intros Hr Hd Htail Hne Hc. rewrite visit_reads_chunks by done.
  assert (Hw : waiting d) by (intros _; exists NeedPrefix; by rewrite (proj1 (proj2 Hr))).
  destruct (push_chunks_concat decode_event capacity (continue_visitor visitor) d v chunks Hw)
    as (d1 & v1 & d2 & v2 & -> & H2 & He & ->).
  pose proof Hr as (Ht & Hp & _).
  destruct (push_frames_drains _ _ _ _ _ _ _ _ Ht Hw H2) as (d3 & Hd3 & He3).
  rewrite Hp, Hc, set_pending_same in Hd3 by done. simpl in Hd3.
  assert (Hend : drains (set_counts (decoded_bytes d + total_len bodies) (event_count d + len bodies) d)
    (foldl visitor v evs) tail (set_pending tail (set_counts (decoded_bytes d + total_len bodies)
    (event_count d + len bodies) d)) (foldl visitor v evs)).
  { destruct Htail as ([|total|p f] & Hi & Hn);
      [by apply drains_need_prefix|by eapply drains_need_payload|by destruct (Hn p f)]. }
  destruct (drains_det _ _ _ _ _ _ _ _ _ Hd3 (drains_encoded _ _ _ _ _ _ _ Hr Hd Hend)) as [-> ->].
  exists d1. split; [done|]. by rewrite He, He3.
Qed.
End whole_stream.

(** ** Limits *)

Section limits.
Context {D I Event V : Type}.
Context (decode_event : list Z → result D Event).
Context (visitor : V → Event → list Z → IncrementalStreamControl * V).
Context (capacity : list Z → Z).
Abbreviation Decoder := (IncrementalStreamDecoder D I).

(** What a decoder has accepted and what it retains are within its limits. *)
Definition within_limits (d : Decoder) : Prop :=
  0 ≤ decoded_bytes d ≤ max_stream_bytes d ∧ 0 ≤ event_count d ≤ max_events d ∧
  0 ≤ max_frame_bytes d ∧ len (pending d) ≤ max_frame_bytes d + 10.

Lemma within_limits_visit (d : Decoder) v frame framed :
  within_limits d → within_limits (decode_frame decode_event visitor d v frame framed).1.
Proof.
  pose proof (len_nonneg frame).
  unfold decode_frame, visit_decoded_frame, within_limits. intros.
  repeat (case_match; simpl in *); try (simplify_eq; lia).
  all: width.
Qed.

Lemma within_limits_pending (d : Decoder) p :
  within_limits d → len p ≤ max_frame_bytes d + 10 → within_limits (set_pending p d).
Proof. unfold within_limits. simpl. lia. Qed.

Lemma within_limits_error (d : Decoder) e : within_limits d → within_limits (set_error e d).
Proof. done. Qed.

Lemma within_limits_decode_pending (d : Decoder) v p f :
  within_limits d → within_limits (decode_pending decode_event visitor capacity d v p f).1.
Proof.
  intros H. rewrite decode_pending_visit. apply within_limits_visit, within_limits_pending; [done|].
  unfold within_limits, len in *. simpl. lia.
Qed.

Lemma inspect_frame_NeedPrefix input max :
  inspect_frame (D:=D) (I:=I) input max = Ok NeedPrefix → len input < 10.
Proof. rewrite inspect_frame_scan. repeat case_match; try done. lia. Qed.

Lemma within_limits_loop fuel (d : Decoder) v input r :
  within_limits d → push_loop decode_event visitor capacity fuel d v input = Some r →
  within_limits r.1.
Proof.
  revert d v input. induction fuel as [|fuel IH]; intros d v input Hd; simpl; [done|].
  destruct input as [|first rest].
  { intros [= <-]. unfold push_last. repeat case_match; simpl;
      auto using within_limits_decode_pending, within_limits_error. }
  destruct (pending d) as [|b bs] eqn:Hp; [|rewrite <- Hp].
  - destruct (inspect_frame (first :: rest) _) as [[|total|p f]|e] eqn:Hi.
    + apply inspect_frame_NeedPrefix in Hi. intros [= <-].
      apply within_limits_pending; [done|]. unfold within_limits in Hd. simpl in *. lia.
    + apply inspect_frame_NeedPayload in Hi. intros [= <-].
      apply within_limits_pending; [done|]. simpl in *. lia.
    + destruct (decode_frame _ _ d v _ _) as [d1 v1] eqn:Hv.
      pose proof (within_limits_visit d v (slice (first :: rest) p (u64_add p f))
        (slice (first :: rest) 0 (u64_add p f)) Hd) as Hd1. rewrite Hv in Hd1.
      case_match; [by intros [= <-]|]. by apply IH.
    + by intros [= <-].
  - destruct (inspect_frame (pending d) _) as [[|total|p f]|e] eqn:Hi.
    + apply inspect_frame_NeedPrefix in Hi. apply IH, within_limits_pending; [done|].
      rewrite len_app. unfold within_limits in Hd. unfold len at 2. simpl. lia.
    + apply inspect_frame_NeedPayload in Hi. apply IH, within_limits_pending; [done|].
      rewrite len_app. unfold len at 2. rewrite length_take. width.
    + pose proof (within_limits_decode_pending d v p f Hd) as Hd1.
      destruct (decode_pending _ _ _ d v p f) as [d1 v1].
      case_match; [by intros [= <-]|]. by apply IH.
    + by intros [= <-].
Qed.

Lemma within_limits_chunks chunks (d : Decoder) v r :
  within_limits d → push_chunks decode_event visitor capacity d v chunks = Some r →
  within_limits r.1.
Proof.
  revert d v. induction chunks as [|chunk chunks IH]; intros d v Hd; simpl; [by intros [= <-]|].
  destruct (push_frames _ _ _ d v chunk) as [[d1 v1]|] eqn:Hp; simpl; [|done].
  apply IH. unfold push_frames in Hp. case_match; [by simplify_eq|].
  by apply within_limits_loop in Hp.
Qed.
End limits.

(** ** The reader-based routine *)

Definition shifts_from (i : Z) (n : nat) : list Z := (fun k => k * 7) <$> seqZ i (Z.of_nat n).

Lemma read_varint_scan {D I} max n i (bytes : list Z) (flt : option I) value :
  Z.of_nat n = 10 - i → 0 ≤ i → 0 ≤ value →
  let r := read_varint_loop (D:=D) (shifts_from i n) (MkReader bytes flt) value in
  match scan_prefix (D:=D) (I:=I) max (take n bytes) i value with
  | Announced p f => r = Ok (Some f, MkReader (drop (Z.to_nat (p - i)) bytes) flt)
  | Malformed e => r = Err InvalidVarint ∧ e = InvalidVarint ∨
      ∃ f rest, r = Ok (Some f, rest) ∧ e = TooLarge f max ∧ max < f
  | Unfinished => r =
      if (n <=? length bytes)%nat then Err InvalidVarint
      else match flt with
           | Some e => Err (Io e)
           | None => if (i =? 0) && bool_decide (bytes = []) then Ok (None, MkReader [] None)
                     else Err Truncated
           end
  end.
Proof.
  revert i bytes value. induction n as [|n IH]; intros i bytes value Hn Hi Hv; cbn zeta; [done|].
  unfold shifts_from. rewrite seqZ_cons by lia. rewrite Nat2Z.inj_succ, Z.pred_succ.
  cbn [fmap list_fmap read_varint_loop]. unfold read_exact. cbn [data fault].
  destruct bytes as [|b bytes].
  { change (1 <=? len []) with false. cbn [take scan_prefix length Nat.leb].
    destruct flt as [e|]; [done|]. rewrite bool_decide_eq_true_2, andb_true_r by done.
    destruct (Z.eqb_spec i 0) as [->|]; [done|]. by rewrite (proj2 (Z.eqb_neq (i * 7) 0)) by lia. }
  replace (1 <=? len (b :: bytes)) with true
    by (rewrite len_cons; pose proof (len_nonneg bytes); lia).
  change (take (Z.to_nat 1) (b :: bytes)) with [b]. change (drop (Z.to_nat 1) (b :: bytes)) with bytes.
  cbn [take scan_prefix]. destruct ((i * 7 =? 63) && (1 <? Z.land b 127)); [by left|].
  destruct (Z.land b 128 =? 0).
  - destruct (max <? _) eqn:Hm; [right; eexists _, _; split_and!; [done..|lia]|].
    by replace (Z.to_nat (i + 1 - i)) with 1%nat by lia.
  - assert (Hv' : 0 ≤ Z.lor value (u64_shl (Z.land b 127) (i * 7))).
    { apply Z.lor_nonneg. split; [done|]. apply Z.mod_pos_bound. lia. }
    specialize (IH (i + 1) bytes _ ltac:(lia) ltac:(lia) Hv').
    cbn zeta in IH. unfold shifts_from in IH. rewrite <- Z.add_1_r.
    destruct (scan_prefix max (take n bytes) (i + 1) _) as [|e|p f] eqn:Hs; cbn [length].
    + rewrite IH. destruct flt; [done|]. rewrite (proj2 (Z.eqb_neq (i + 1) 0)) by lia.
      rewrite (bool_decide_eq_false_2 (b :: bytes = [])) by done. by rewrite andb_false_r.
    + done.
    + rewrite IH. apply scan_prefix_Announced in Hs; [|done].
      by replace (Z.to_nat (p - i)) with (S (Z.to_nat (p - (i + 1)))) by lia.
Qed.

(** ** Properties *)

(** Decoding what [encode_frame] writes. *)
Lemma decode_stream_encoded {D I Event}
    (decode_event : list Z → result D Event) (capacity : list Z → Z)
    (max_frame_bytes max_stream_bytes max_events : Z)
    (bodies : list (list Z)) (evs : list Event) (chunks : list (list Z)) :
  max_frame_bytes + 10 ≤ u64_max → max_stream_bytes ≤ u64_max → max_events ≤ u64_max →
  Forall (fun b => len b ≤ max_frame_bytes) bodies →
  total_len bodies ≤ max_stream_bytes → len bodies ≤ max_events →
  Forall2 (fun b e => decode_event b = Ok e) bodies evs →
  Forall (.≠ []) chunks → concat chunks = concat (map encode_frame bodies) →
  decode_stream_partial_bounded (I:=I) decode_event capacity (Ok <$> chunks)
    max_frame_bytes max_stream_bytes max_events = Some (MkPartialStream evs None).
Proof.
  intros Hf Hs He Hl Ht Hn Hd Hne Hc. rewrite <- (app_nil_r (concat (map _ _))) in Hc.
  destruct (visit_reads_encoded (I:=I) decode_event capacity (fun events event => events ++ [event])
    (new_decoder max_frame_bytes max_stream_bytes max_events) [] bodies evs [] chunks)
    as (d' & Hv & Heq); [by repeat split|done|by exists NeedPrefix|done..|].
  unfold decode_stream_partial_bounded, visit_stream_partial_bounded. rewrite Hv.
  cbn [mbind option_bind]. rewrite (finish_proper _ _ Heq), foldl_snoc_app. done.
Qed.

(** C11: however the bytes of a BEP stream are split into chunks, the decoder
    visits the same events in the same order and finishes with the same counters
    and the same terminal error as when it is given them at once. *)
Theorem push_chunks_split_irrelevant {D I Event V}
    (decode_event : list Z → result D Event)
    (visitor : V → Event → list Z → IncrementalStreamControl * V) (capacity : list Z → Z)
    (max_frame_bytes max_stream_bytes max_events : Z) (v : V) (chunks : list (list Z)) :
  ∃ (d d' : IncrementalStreamDecoder D I) v',
    push_chunks decode_event visitor capacity
      (new_decoder max_frame_bytes max_stream_bytes max_events) v chunks = Some (d, v') ∧
    push_frames decode_event visitor capacity
      (new_decoder max_frame_bytes max_stream_bytes max_events) v (concat chunks) = Some (d', v') ∧
    finish d = finish d'.
Proof.
  destruct (push_chunks_concat (I:=I) decode_event capacity visitor
    (new_decoder max_frame_bytes max_stream_bytes max_events) v chunks) as (d & v1 & d' & v2 & H1 & H2 & He & ->).
  { apply new_decoder_waiting. }
  exists d, d', v2. split_and!; [done..|]. by rewrite He.
Qed.

(** The decoding loop returns for every decoder state and every chunk: its
    fuel, twice the chunk length plus two, is never exhausted. *)
Theorem push_frames_total {D I Event V}
    (decode_event : list Z → result D Event)
    (visitor : V → Event → list Z → IncrementalStreamControl * V) (capacity : list Z → Z)
    (d : IncrementalStreamDecoder D I) (v : V) (input : list Z) :
  is_Some (push_frames decode_event visitor capacity d v input).
Proof.
  destruct (push_frames_Some decode_event visitor capacity d v input) as (d' & v' & ->). eauto.
Qed.

(** C12: a stream of frames written by [encode_frame], read in any non-empty
    chunks, decodes to exactly the events of the frames, in order and without a
    terminal error, when the frames fit the three limits. *)
Theorem decode_stream_roundtrip {D I Event}
    (decode_event : list Z → result D Event) (capacity : list Z → Z)
    (max_frame_bytes max_stream_bytes max_events : Z)
    (bodies : list (list Z)) (evs : list Event) (chunks : list (list Z)) :
  max_frame_bytes + 10 ≤ u64_max → max_stream_bytes ≤ u64_max → max_events ≤ u64_max →
  Forall (fun b => len b ≤ max_frame_bytes) bodies →
  total_len bodies ≤ max_stream_bytes → len bodies ≤ max_events →
  Forall2 (fun b e => decode_event b = Ok e) bodies evs →
  Forall (.≠ []) chunks → concat chunks = concat (map encode_frame bodies) →
  decode_stream_partial_bounded (I:=I) decode_event capacity (Ok <$> chunks)
    max_frame_bytes max_stream_bytes max_events = Some (MkPartialStream evs None).
Proof. apply decode_stream_encoded. Qed.

(** A stream cut inside a frame decodes to the events of the frames before
    the cut and reports [Truncated], never a partial event. *)
Theorem decode_stream_truncated {D I Event}
    (decode_event : list Z → result D Event) (capacity : list Z → Z)
    (max_frame_bytes max_stream_bytes max_events : Z)
    (bodies : list (list Z)) (evs : list Event) (last : list Z) (n : nat) (chunks : list (list Z)) :
  max_frame_bytes + 10 ≤ u64_max → max_stream_bytes ≤ u64_max → max_events ≤ u64_max →
  Forall (fun b => len b ≤ max_frame_bytes) bodies → len last ≤ max_frame_bytes →
  total_len bodies ≤ max_stream_bytes → len bodies ≤ max_events →
  Forall2 (fun b e => decode_event b = Ok e) bodies evs →
  (0 < n < length (encode_frame last))%nat →
  Forall (.≠ []) chunks →
  concat chunks = concat (map encode_frame bodies) ++ take n (encode_frame last) →
  decode_stream_partial_bounded (I:=I) decode_event capacity (Ok <$> chunks)
    max_frame_bytes max_stream_bytes max_events = Some (MkPartialStream evs (Some Truncated)).
Proof.
  intros Hf Hs He Hl Hlast Ht Hn Hd Hcut Hne Hc.
  destruct (visit_reads_encoded (I:=I) decode_event capacity (fun events event => events ++ [event])
    (new_decoder max_frame_bytes max_stream_bytes max_events) [] bodies evs
    (take n (encode_frame last)) chunks)
    as (d' & Hv & Heq); [by repeat split|done|apply encode_frame_cut_waits; [done..|lia]|done..|].
  unfold decode_stream_partial_bounded, visit_stream_partial_bounded. rewrite Hv.
  cbn [mbind option_bind]. rewrite (finish_proper _ _ Heq), foldl_snoc_app. unfold finish. simpl.
  destruct (take n (encode_frame last)) eqn:Hcutl; [|done].
  apply (f_equal length) in Hcutl. rewrite length_take in Hcutl. simpl in Hcutl. lia.
Qed.

(** Whatever bytes arrive in whatever chunks, the accepted bytes and events
    stay within the stream limits and the retained buffer within one frame and
    its ten-byte length prefix. *)
Theorem push_chunks_within_limits {D I Event V}
    (decode_event : list Z → result D Event)
    (visitor : V → Event → list Z → IncrementalStreamControl * V) (capacity : list Z → Z)
    (max_frame_bytes max_stream_bytes max_events : Z) (v : V) (chunks : list (list Z))
    (d : IncrementalStreamDecoder D I) (v' : V) :
  0 ≤ max_frame_bytes → 0 ≤ max_stream_bytes → 0 ≤ max_events →
  push_chunks decode_event visitor capacity
    (new_decoder max_frame_bytes max_stream_bytes max_events) v chunks = Some (d, v') →
  decoded_bytes d ≤ Framing.max_stream_bytes d ∧ event_count d ≤ Framing.max_events d ∧
  len (pending d) ≤ Framing.max_frame_bytes d + 10.
Proof.
  intros Hf Hs He Hp. apply within_limits_chunks in Hp; [unfold within_limits in Hp; simpl in Hp; lia|].
  unfold within_limits, len. simpl. lia.
Qed.

(** The reader-based [read_frame] and the incremental [inspect_frame] agree
    on every input: same frame and same rest, same error, and a short input is
    the end of the stream, a truncation or the reader's own error. *)
Theorem read_frame_inspect_frame {D I} (bytes : list Z) (flt : option I) (max : Z) :
  max + 10 ≤ u64_max →
  read_frame (D:=D) (MkReader bytes flt) max =
  match inspect_frame (D:=D) (I:=I) bytes max with
  | Err e => Err e
  | Ok (Complete p f) =>
      Ok (Some (slice bytes p (p + f)), MkReader (drop (Z.to_nat (p + f)) bytes) flt)
  | Ok _ => match flt with
            | Some e => Err (Io e)
            | None => if bool_decide (bytes = []) then Ok (None, MkReader [] None) else Err Truncated
            end
  end.
Proof.
  intros Hmax. pose proof (read_varint_scan (D:=D) max 10 0 bytes flt 0 eq_refl ltac:(lia) ltac:(lia)) as Hr.
  cbn zeta in Hr. rewrite inspect_frame_scan. unfold read_frame, read_varint.
  change (shifts_from 0 10) with [0; 7; 14; 21; 28; 35; 42; 49; 56; 63] in Hr.
  destruct (scan_prefix max (take 10 bytes) 0 0) as [|e|p f] eqn:Hs.
  - rewrite Hr. destruct (Nat.leb_spec 10 (length bytes)).
    + by replace (10 <=? len bytes) with true by (unfold len; lia).
    + replace (10 <=? len bytes) with false by (unfold len; lia). by repeat case_match.
  - destruct Hr as [[-> ->]|(f & rest & -> & -> & Hf)]; [done|]. simpl. by case_match; [|lia].
  - apply scan_prefix_Announced in Hs; [|done]. rewrite Hr. simpl.
    assert (len (take 10 bytes) ≤ len bytes) by (unfold len; rewrite length_take; lia).
    assert (len (take 10 bytes) ≤ 10) by (unfold len; rewrite length_take; lia).
    rewrite (proj2 (Z.ltb_ge max f)) by lia. rewrite u64_add_exact, Z.sub_0_r by lia.
    unfold read_exact. cbn [data fault].
    assert (Hlen : len (drop (Z.to_nat p) bytes) = len bytes - p)
      by (unfold len in *; rewrite length_drop; lia). rewrite Hlen.
    destruct (Z.leb_spec f (len bytes - p)).
    + replace (p + f <=? len bytes) with true by lia. unfold slice.
      replace (p + f - p) with f by lia. rewrite drop_drop.
      by replace (Z.to_nat p + Z.to_nat f)%nat with (Z.to_nat (p + f)) by lia.
    + replace (p + f <=? len bytes) with false by lia. destruct flt; [done|].
      rewrite bool_decide_eq_false_2; [done|]. intros ->. unfold len in *. simpl in *. lia.
Qed.

(** ** Witnesses

    A concrete protobuf decoder that accepts every payload and a two-frame
    stream read in three chunks. *)
Definition sample_decode (frame : list Z) : result unit (list Z) := Ok frame.
Definition sample_capacity (buffer : list Z) : Z := len buffer.
Definition sample_bodies : list (list Z) := [[7; 8; 9]; []; [1]].

Lemma decode_stream_roundtrip_witness :
  decode_stream_partial_bounded (I:=unit) sample_decode sample_capacity
    (Ok <$> [[3; 7]; [8; 9; 0]; [1; 1]]) 16 16 4 = Some (MkPartialStream sample_bodies None).
Proof.
  apply (decode_stream_roundtrip sample_decode sample_capacity 16 16 4 sample_bodies sample_bodies);
    try (vm_compute; congruence).
  all: repeat (first [apply Forall_cons; split|apply Forall_nil|apply Forall2_cons; split
    |apply Forall2_nil]); try done.
Defined.

Lemma decode_stream_truncated_witness :
  decode_stream_partial_bounded (I:=unit) sample_decode sample_capacity
    (Ok <$> [[3; 7; 8]; [9; 0; 1; 1; 5; 2]]) 16 16 4
  = Some (MkPartialStream sample_bodies (Some Truncated)).
Proof.
  apply (decode_stream_truncated sample_decode sample_capacity 16 16 4 sample_bodies sample_bodies
    [2; 2; 2; 2; 2] 2); try (vm_compute; congruence); try (vm_compute; lia).
  all: repeat (first [apply Forall_cons; split|apply Forall_nil|apply Forall2_cons; split
    |apply Forall2_nil]); try done.
Defined.

Definition sample_visitor (v : list (list Z)) (e framed : list Z)
  : IncrementalStreamControl * list (list Z) := (Continue, v ++ [e]).

Definition sample_end : IncrementalStreamDecoder unit unit := MkDecoder [2; 5] 4 3 16 16 4 None.

Lemma push_chunks_within_limits_witness :
  decoded_bytes sample_end ≤ max_stream_bytes sample_end ∧
  event_count sample_end ≤ max_events sample_end ∧
  len (pending sample_end) ≤ max_frame_bytes sample_end + 10.
Proof.
  apply (push_chunks_within_limits sample_decode sample_visitor sample_capacity 16 16 4 []
    [[3; 7]; [8; 9; 0]; [1; 1; 2; 5]] sample_end sample_bodies); [done..|].
  reflexivity.
Defined.

Lemma read_frame_inspect_frame_witness :
  read_frame (D:=unit) (MkReader [2; 7; 8; 1] (None : option unit)) 16
  = Ok (Some [7; 8], MkReader [1] None).
Proof. rewrite read_frame_inspect_frame by (vm_compute; congruence). reflexivity. Defined.
