(* ===== verification/Bes.v ===== *)
(** * The build event service (crates/bazel-mcp-bes/src/server.rs)

    Bazel publishes its build event stream to a loopback gRPC service.  For the
    capture that owns the stream, [capture_stream] checks every request, frames
    its payload the way the BEP file format does ([Framing]), hands batches of
    frames to the receiver of the capture and acknowledges a request to Bazel
    only after the receiver has accepted its frame.  The registry decides which
    capture a stream belongs to and that it gets one stream only.

    The environment is adaptive: what the receiver answers to a forwarded item
    and whether the client still accepts responses are functions of everything
    that has happened before, and the requests arrive as a list of polls of the
    input stream in which any number of polls may find nothing ready.  The
    protobuf views, the tonic [Status] and the HTTP header decoding are data or
    parameters. *)

From stdpp Require Import pretty.
From S2P Require Import Prelude Framing.

Definition MAX_GRPC_REQUEST_BYTES : Z := DEFAULT_MAX_FRAME_BYTES + 64 * 1024.
Definition MAX_STREAM_ID_FIELD_BYTES : Z := 128.
Definition MAX_TYPE_URL_BYTES : Z := 256.
Definition CAPTURE_BATCH_MAX_EVENTS : Z := 64.
Definition CAPTURE_BATCH_MAX_BYTES : Z := 1024 * 1024.
Definition BAZEL_EVENT_TYPE_SUFFIX : string := "/build_event_stream.BuildEvent".

(** ** Messages *)

(** A tonic [Status]: its code and its message. *)
Inductive Code : Type := InvalidArgument | NotFound | AlreadyExists | Internal | OtherCode (code : Z).
Record Status : Type := MkStatus { code : Code; message : string }.

(** [StreamId] and [StreamIdView]. *)
Record StreamId : Type := MkStreamId {
  build_id : string;
  invocation_id : string;
  component : Z;
}.

Record AnyView : Type := MkAny { type_url : string; value : list Z }.

Inductive EventView : Type :=
| ComponentStreamFinished (type : Z)
| BazelEvent (any : AnyView).

Record BuildEventView : Type := MkBuildEvent { event : option EventView }.

Record OrderedBuildEventView : Type := MkOrdered {
  stream_id : option StreamId;
  sequence_number : Z;
  ordered_event_field : option BuildEventView;
}.

Record Request : Type := MkRequest { ordered_build_event : option OrderedBuildEventView }.

Record StreamResponse : Type := MkResponse {
  response_stream_id : option StreamId;
  response_sequence_number : Z;
}.

Record CaptureStats : Type := MkStats { event_count : Z; bep_bytes : Z }.
Definition default_stats : CaptureStats := MkStats 0 0.

Record StreamIdentity : Type := MkIdentity {
  identity_build_id : string;
  identity_invocation_id : string;
  identity_component : Z;
}.

Definition from_view (id : StreamId) : result string StreamIdentity :=
  if (MAX_STREAM_ID_FIELD_BYTES <? str_len (build_id id)) ||
     (MAX_STREAM_ID_FIELD_BYTES <? str_len (invocation_id id))
  then Err "BES stream_id field exceeds length limit"
  else Ok (MkIdentity (build_id id) (invocation_id id) (component id)).

Definition validate (identity : StreamIdentity) (id : StreamId) : result string unit :=
  if bool_decide (identity_build_id identity = build_id id) &&
     bool_decide (identity_invocation_id identity = invocation_id id) &&
     (identity_component identity =? component id)
  then Ok tt
  else Err "BES stream_id changed within one RPC".

Definition to_owned (identity : StreamIdentity) : StreamId :=
  MkStreamId (identity_build_id identity) (identity_invocation_id identity)
    (identity_component identity).

Definition ordered_event (request : Request) : result Status OrderedBuildEventView :=
  ok_or (ordered_build_event request)
    (MkStatus InvalidArgument "BES request omitted ordered_build_event").

Definition request_invocation_id (request : Request) : result Status string :=
  ordered ← ordered_event request;
  id ← ok_or (stream_id ordered) (MkStatus InvalidArgument "BES request omitted stream_id");
  if (str_len (invocation_id id) =? 0) || (MAX_STREAM_ID_FIELD_BYTES <? str_len (invocation_id id))
  then Err (MkStatus InvalidArgument "BES stream_id omitted invocation_id")
  else Ok (invocation_id id).

(** ** Framing a payload *)

(** [encode_varint]: the bytes written to the front of its ten-byte output.
    The fuel is the size of the output, so running out of it is the
    out-of-bounds write that [encode_varint_fits] excludes. *)
Fixpoint encode_varint_loop (fuel : nat) (value : Z) : list Z :=
  match fuel with
  | O => []
  | S fuel =>
      if 0x80 <=? value then
        Z.lor (Z.land (value mod 256) 0x7f) 0x80 :: encode_varint_loop fuel (Z.shiftr value 7)
      else [value mod 256]
  end.
Definition encode_varint (value : Z) : list Z := encode_varint_loop 10 value.

Definition frame_bep_payload (frame : list Z) (stats : CaptureStats) : result string (list Z) :=
  _ ← reject_if (DEFAULT_MAX_FRAME_BYTES <? len frame)
        ("BES frame length " +:+ pretty (len frame) +:+ " exceeds limit "
           +:+ pretty DEFAULT_MAX_FRAME_BYTES);
  let next_bytes := u64_add (bep_bytes stats) (len frame) in
  _ ← reject_if (DEFAULT_MAX_STREAM_BYTES <? next_bytes)
        ("BES stream bytes " +:+ pretty next_bytes +:+ " exceed limit "
           +:+ pretty DEFAULT_MAX_STREAM_BYTES);
  _ ← reject_if (DEFAULT_MAX_STREAM_EVENTS <=? event_count stats)
        ("BES event count exceeds limit " +:+ pretty DEFAULT_MAX_STREAM_EVENTS);
  Ok (encode_varint (len frame) ++ frame).

(** ** Effects *)

Inductive BesStreamEventKind : Type :=
| Frames (frames : list (list Z))
| Finished.

(** What becomes of an item sent to the capture's receiver: the channel is
    closed, the acknowledgement sender is dropped, or the receiver answers. *)
Inductive Delivery : Type :=
| ReceiverClosed
| AcknowledgementClosed
| Acknowledged (answer : result string unit).

(** What the task does, in order: an item offered to the receiver with its
    delivery, and a response or a status accepted by the client's channel. *)
Inductive Effect : Type :=
| Forwarded (kind : BesStreamEventKind) (delivery : Delivery)
| Responded (response : StreamResponse)
| StatusSent (status : Status).

(** The asynchronous tasks of the service: an effect trace and a result. *)
Definition task (A : Type) : Type := list Effect → list Effect * result string A.

#[export] Instance task_ret : MRet task := fun _ a trace => (trace, Ok a).
#[export] Instance task_bind : MBind task := fun _ _ k m trace =>
  match m trace with
  | (trace, Ok a) => k a trace
  | (trace, Err e) => (trace, Err e)
  end.

(** [e?] for a synchronous [Result<_, String>]. *)
Definition lift {A} (r : result string A) : task A := fun trace => (trace, r).

(** One poll of the input stream; the end of the list is [Ok(None)]. *)
Inductive Poll : Type :=
| Message (request : Request)
| NotReady
| Fault (status : Status).

(** The local variables of [capture_stream]. *)
Record Progress : Type := MkProgress {
  expected_sequence : Z;
  request_count : Z;
  stats : CaptureStats;
  saw_finished : bool;
  pending_frames : list (list Z);
  pending_responses : list StreamResponse;
  pending_batch_bytes : Z;
}.

Definition start_progress : Progress := MkProgress 1 0 default_stats false [] [] 0.

(** [str::ends_with]. *)
Definition ends_with (s suffix : string) : bool :=
  starts_with (string_of_bytes (rev (bytes_of s))) (string_of_bytes (rev (bytes_of suffix))).

Section capture.
(** The receiver of the capture, the client's response channel, and tonic's
    [Display] of a status. *)
Context (receiver : list Effect → BesStreamEventKind → Delivery).
Context (client_open : list Effect → bool).
Context (display : Status → string).

Definition forward_capture_event (kind : BesStreamEventKind) : task unit := fun trace =>
  let delivery := receiver trace kind in
  (trace ++ [Forwarded kind delivery],
   match delivery with
   | ReceiverClosed => Err "BES capture event receiver closed"
   | AcknowledgementClosed => Err "BES capture event acknowledgement closed"
   | Acknowledged answer => answer
   end).

Definition send_response (response : StreamResponse) : task unit := fun trace =>
  if client_open trace then (trace ++ [Responded response], Ok tt)
  else (trace, Err "BES client stopped accepting acknowledgements").

Fixpoint send_responses (responses : list StreamResponse) : task unit :=
  match responses with
  | [] => mret tt
  | response :: rest => send_response response ≫= fun _ => send_responses rest
  end.

(** The batch is taken out of [pending_frames] and [pending_responses]; the
    result is their new contents. *)
Definition flush_capture_batch (frames : list (list Z)) (responses : list StreamResponse)
    : task (list (list Z) * list StreamResponse) :=
  match frames with
  | [] => mret ([], responses)
  | _ => forward_capture_event (Frames frames) ≫= fun _ =>
         send_responses responses ≫= fun _ => mret ([], [])
  end.

(** [flush_capture_batch(..).await?; pending_batch_bytes = 0;] *)
Definition flush_progress (p : Progress) : task Progress :=
  pending ← flush_capture_batch (pending_frames p) (pending_responses p);
  mret (MkProgress (expected_sequence p) (request_count p) (stats p) (saw_finished p)
          pending.1 pending.2 0).

(** The branch of a Bazel event. *)
Definition accept_bazel_event (any : AnyView) (response : StreamResponse) (p : Progress)
    : task Progress :=
  _ ← lift (reject_if
        ((MAX_TYPE_URL_BYTES <? str_len (type_url any)) ||
         (negb (str_len (type_url any) =? 0) &&
          negb (ends_with (type_url any) BAZEL_EVENT_TYPE_SUFFIX)))
        "unexpected BES Any type URL");
  framed ← lift (frame_bep_payload (value any) (stats p));
  let p := MkProgress (expected_sequence p) (request_count p)
             (MkStats (u64_add (event_count (stats p)) 1)
                (u64_add (bep_bytes (stats p)) (len (value any))))
             (saw_finished p)
             (pending_frames p ++ [framed]) (pending_responses p ++ [response])
             (u64_add (pending_batch_bytes p) (len framed)) in
  if (CAPTURE_BATCH_MAX_EVENTS <=? len (pending_frames p)) ||
     (CAPTURE_BATCH_MAX_BYTES <=? pending_batch_bytes p)
  then flush_progress p else mret p.

(** The branch of the finished event. *)
Definition accept_finished (type : Z) (response : StreamResponse) (p : Progress) : task Progress :=
  _ ← lift (reject_if (negb (type =? 1))
        ("BES component stream finished with unsupported type " +:+ pretty type));
  p ← flush_progress p;
  _ ← forward_capture_event Finished;
  _ ← send_response response;
  mret (MkProgress (expected_sequence p) (request_count p) (stats p) true
          (pending_frames p) (pending_responses p) (pending_batch_bytes p)).

(** The branch of an event of no known kind. *)
Definition accept_other (response : StreamResponse) (p : Progress) : task Progress :=
  p ← flush_progress p;
  _ ← send_response response;
  mret p.

(** The checks that precede the branches, and the response to the request. *)
Definition check_request (identity : StreamIdentity) (request : Request) (p : Progress)
    : result string (Progress * OrderedBuildEventView * BuildEventView) :=
  ordered ← match ordered_event request with
            | Ok ordered => Ok ordered
            | Err status => Err (message status)
            end;
  let p := MkProgress (expected_sequence p) (u64_add (request_count p) 1) (stats p)
             (saw_finished p) (pending_frames p) (pending_responses p) (pending_batch_bytes p) in
  _ ← reject_if (u64_add DEFAULT_MAX_STREAM_EVENTS 1 <? request_count p)
        ("BES request count exceeds limit " +:+ pretty (DEFAULT_MAX_STREAM_EVENTS + 1));
  id ← ok_or (stream_id ordered) "BES request omitted stream_id";
  _ ← validate identity id;
  _ ← reject_if (negb (sequence_number ordered =? expected_sequence p))
        ("BES sequence number " +:+ pretty (sequence_number ordered)
           +:+ " did not match expected " +:+ pretty (expected_sequence p));
  build_event ← ok_or (ordered_event_field ordered) "BES request omitted build event";
  _ ← reject_if (saw_finished p) "BES request followed BuildComponentStreamFinished";
  Ok (p, ordered, build_event).

Definition advance (p : Progress) : result string Progress :=
  if expected_sequence p =? i64_max then Err "BES sequence number overflow"
  else Ok (MkProgress (expected_sequence p + 1) (request_count p) (stats p) (saw_finished p)
             (pending_frames p) (pending_responses p) (pending_batch_bytes p)).

(** The body of the loop of [capture_stream] for one request. *)
Definition process_request (identity : StreamIdentity) (request : Request) (p : Progress)
    : task Progress :=
  checked ← lift (check_request identity request p);
  let '(p, ordered, build_event) := checked in
  let response := MkResponse (Some (to_owned identity)) (sequence_number ordered) in
  p ← match event build_event with
      | Some (BazelEvent any) => accept_bazel_event any response p
      | Some (ComponentStreamFinished type) => accept_finished type response p
      | None => accept_other response p
      end;
  lift (advance p).

(** The loop of [capture_stream]: a poll that finds nothing ready lets the
    yield branch of the [select!] flush a partial batch; with nothing pending
    the task just waits. *)
Fixpoint capture_loop (identity : StreamIdentity) (p : Progress) (polls : list Poll)
    : task Progress :=
  match polls with
  | [] => mret p
  | Message request :: rest =>
      process_request identity request p ≫= fun p => capture_loop identity p rest
  | NotReady :: rest =>
      match pending_frames p with
      | [] => capture_loop identity p rest
      | _ => flush_progress p ≫= fun p => capture_loop identity p rest
      end
  | Fault status :: _ => lift (Err ("receive BES request: " +:+ display status))
  end.

Definition first_identity (first : Request) : result string StreamIdentity :=
  ordered ← match ordered_event first with
            | Ok ordered => Ok ordered
            | Err status => Err (message status)
            end;
  id ← ok_or (stream_id ordered) "BES request omitted stream_id";
  from_view id.

Definition capture_stream (first : Request) (input : list Poll) : task CaptureStats :=
  identity ← lift (first_identity first);
  p ← capture_loop identity start_progress (Message first :: input);
  p ← flush_progress p;
  if saw_finished p then mret (stats p)
  else lift (Err "BES stream ended without BuildComponentStreamFinished").
End capture.

(** ** The registry of captures *)

Definition CaptureResult : Type := result string CaptureStats.

Record CaptureState : Type := MkCapture {
  active : bool;
  completion : option CaptureResult;
}.

Inductive BesError : Type :=
| DuplicateInvocation (invocation : string)
| RegistryPoisoned
| Capture (error : string)
| CaptureTimeout
| CaptureClosed
| EventStreamTaken.

(** [captures] maps an invocation id to a shared capture state; the shared
    states live in [states], under the address of their [Arc]. *)
Record Registry : Type := MkRegistry {
  captures : gmap string nat;
  states : gmap nat CaptureState;
  poisoned : bool;
}.

(** A [BesCapture]: its invocation id, its capture state, and whether its event
    receiver is still there to be taken. *)
Record BesCapture : Type := MkBesCapture {
  capture_invocation_id : string;
  capture_state : nat;
  capture_events : bool;
}.

Definition register (r : Registry) (id : string) : Registry * result BesError BesCapture :=
  let address := fresh (dom (states r)) in
  if poisoned r then (r, Err RegistryPoisoned)
  else match captures r !! id with
       | Some _ => (r, Err (DuplicateInvocation id))
       | None =>
           (MkRegistry (<[id := address]> (captures r))
              (<[address := MkCapture false None]> (states r)) (poisoned r),
            Ok (MkBesCapture id address true))
       end.

Definition take_events (c : BesCapture) : BesCapture * result BesError unit :=
  (MkBesCapture (capture_invocation_id c) (capture_state c) false,
   if capture_events c then Ok tt else Err EventStreamTaken).

(** [BesCapture::remove], also run when the capture is dropped: [Arc::ptr_eq]
    compares addresses. *)
Definition remove (r : Registry) (c : BesCapture) : Registry :=
  if poisoned r then r
  else if bool_decide (captures r !! capture_invocation_id c = Some (capture_state c))
  then MkRegistry (delete (capture_invocation_id c) (captures r)) (states r) (poisoned r)
  else r.

(** The end of the wait in [BesCapture::finish] when no completion arrives. *)
Inductive WaitEnd : Type := WaitTimeout | WaitClosed.

(** [BesCapture::finish], given the values of the completion channel it
    observes; the capture is unregistered on every path, by [remove] or by
    [Drop]. *)
Fixpoint await_completion (observed : list (option CaptureResult)) (wait_end : WaitEnd)
    : result BesError CaptureStats :=
  match observed with
  | [] => Err (match wait_end with WaitTimeout => CaptureTimeout | WaitClosed => CaptureClosed end)
  | Some (Ok stats) :: _ => Ok stats
  | Some (Err error) :: _ => Err (Capture error)
  | None :: rest => await_completion rest wait_end
  end.
Definition finish_capture (r : Registry) (c : BesCapture) (observed : list (option CaptureResult))
    (wait_end : WaitEnd) : Registry * result BesError CaptureStats :=
  (remove r c, await_completion observed wait_end).

Definition set_state (r : Registry) (address : nat) (s : CaptureState) : Registry :=
  MkRegistry (captures r) (<[address := s]> (states r)) (poisoned r).

Definition complete (r : Registry) (address : nat) (outcome : CaptureResult) : Registry :=
  match states r !! address with
  | Some s => set_state r address (MkCapture (active s) (Some outcome))
  | None => r
  end.

(** [to_str] is the header decoding of the http crate. *)
Definition capture_id_from_metadata (to_str : list Z → option string) (header : option (list Z))
    : result Status (option string) :=
  match header with
  | None => Ok None
  | Some raw =>
      value ← ok_or (to_str raw)
        (MkStatus InvalidArgument "BES capture metadata was not valid ASCII");
      if (str_len value =? 0) || (MAX_STREAM_ID_FIELD_BYTES <? str_len value)
      then Err (MkStatus InvalidArgument "BES capture metadata omitted a valid invocation id")
      else Ok (Some value)
  end.

(** The service behind a path: lifecycle events are acknowledged and dropped, a
    stream of build events is ingested for the capture its metadata name, and
    everything else is not implemented. *)
Definition LIFECYCLE_PATH : string := "/google.devtools.build.v1.PublishBuildEvent/PublishLifecycleEvent".
Definition BUILD_TOOL_STREAM_PATH : string := "/google.devtools.build.v1.PublishBuildEvent/PublishBuildToolEventStream".
Inductive Dispatch : Type :=
| AnswerEmpty
| Ingest (capture_id : option string)
| Refuse (status : Status)
| Unimplemented.
Definition call_service (to_str : list Z → option string) (path : string) (header : option (list Z)) : Dispatch :=
  if bool_decide (path = LIFECYCLE_PATH) then AnswerEmpty
  else if bool_decide (path = BUILD_TOOL_STREAM_PATH) then
    match capture_id_from_metadata to_str header with Ok capture_id => Ingest capture_id | Err status => Refuse status end
  else Unimplemented.

(** The lookup of [ingest_stream]. *)
Definition find_capture (r : Registry) (capture_id : option string) (first : Request)
    : result Status nat :=
  id ← match capture_id with
       | Some id => Ok id
       | None => request_invocation_id first
       end;
  _ ← reject_if (poisoned r) (MkStatus Internal "BES capture registry lock was poisoned");
  ok_or (captures r !! id)
    (MkStatus NotFound "BES stream does not match an active Bazel MCP invocation").

(** The part of [ingest_stream] before [capture_stream]: the lookup and the
    [active.swap(true)] that claims the capture. *)
Definition ingest_begin (r : Registry) (capture_id : option string) (first : Request)
    : Registry * result Status nat :=
  match find_capture r capture_id first with
  | Err status => (r, Err status)
  | Ok address =>
      match states r !! address with
      | None => (r, Ok address)
      | Some s =>
          if active s then
            let text := "a BES stream is already active for this invocation" in
            (complete r address (Err text), Err (MkStatus AlreadyExists text))
          else (set_state r address (MkCapture true (completion s)), Ok address)
      end
  end.

Definition send_status (client_open : list Effect → bool) (status : Status) (trace : list Effect)
    : list Effect :=
  if client_open trace then trace ++ [StatusSent status] else trace.

(** [ingest_stream], run without other streams in between. *)
Fixpoint recv_request (input : list Poll) : result Status (Request * list Poll) :=
  match input with
  | Message request :: rest => Ok (request, rest)
  | NotReady :: rest => recv_request rest
  | Fault status :: _ => Err status
  | [] => Err (MkStatus InvalidArgument "BES build-tool stream was empty")
  end.

Definition ingest_stream (receiver : list Effect → BesStreamEventKind → Delivery)
    (client_open : list Effect → bool) (display : Status → string)
    (r : Registry) (input : list Poll) (capture_id : option string) : Registry * list Effect :=
  match recv_request input with
  | Err status => (r, send_status client_open status [])
  | Ok (first, rest) =>
      match ingest_begin r capture_id first with
      | (r, Err status) => (r, send_status client_open status [])
      | (r, Ok address) =>
          match capture_stream receiver client_open display first rest [] with
          | (trace, Ok stats) => (complete r address (Ok stats), trace)
          | (trace, Err error) =>
              (complete r address (Err error),
               send_status client_open (MkStatus Internal error) trace)
          end
      end
  end.

(** * The acknowledgement protocol *)

(** What one request contributes to the receiver's stream. *)
Inductive Item : Type := FrameItem (frame : list Z) | FinishItem.

Definition payload_of (request : Request) : option (list Z) :=
  ordered ← ordered_build_event request;
  build_event ← ordered_event_field ordered;
  view ← event build_event;
  match view with BazelEvent any => Some (value any) | ComponentStreamFinished _ => None end.

Definition item_of (request : Request) : option Item :=
  ordered ← ordered_build_event request;
  build_event ← ordered_event_field ordered;
  view ← event build_event;
  match view with
  | BazelEvent any => Some (FrameItem (encode_frame (value any)))
  | ComponentStreamFinished _ => Some FinishItem
  end.

Definition items (requests : list Request) : list Item := omap item_of requests.

(** What the receiver has accepted, and what the client has been answered. *)
Definition kind_items (kind : BesStreamEventKind) : list Item :=
  match kind with Frames frames => FrameItem <$> frames | Finished => [FinishItem] end.
Definition accepted_by (e : Effect) : list Item :=
  match e with Forwarded kind (Acknowledged (Ok _)) => kind_items kind | _ => [] end.
Definition accepted (trace : list Effect) : list Item := trace ≫= accepted_by.
Definition responses (trace : list Effect) : list StreamResponse :=
  omap (fun e => match e with Responded r => Some r | _ => None end) trace.

(** The response to the [n]-th request of a stream, counting from one. *)
Definition ack (id : StreamId) (n : nat) : StreamResponse := MkResponse (Some id) (Z.of_nat n).
Definition acks (id : StreamId) (from count : nat) : list StreamResponse := ack id <$> seq (S from) count.

(** The contract with Bazel and with the receiver: batches of at most
    [CAPTURE_BATCH_MAX_EVENTS] items are offered to the receiver in the order of
    the requests, and the next request is acknowledged only when the receiver
    has accepted everything the requests up to it contain. *)
Inductive protocol (id : StreamId) (requests : list Request) : list Effect → Prop :=
| protocol_start : protocol id requests []
| protocol_forward trace kind delivery :
    protocol id requests trace →
    accepted trace ++ kind_items kind `prefix_of` items requests →
    (1 ≤ length (kind_items kind) ≤ 64)%nat →
    protocol id requests (trace ++ [Forwarded kind delivery])
| protocol_respond trace :
    protocol id requests trace →
    (length (responses trace) < length requests)%nat →
    items (take (S (length (responses trace))) requests) `prefix_of` accepted trace →
    protocol id requests (trace ++ [Responded (ack id (S (length (responses trace))))]).

Lemma accepted_app t1 t2 : accepted (t1 ++ t2) = accepted t1 ++ accepted t2.
Proof. apply bind_app. Qed.
Lemma responses_app t1 t2 : responses (t1 ++ t2) = responses t1 ++ responses t2.
Proof. apply omap_app. Qed.
Lemma items_app r1 r2 : items (r1 ++ r2) = items r1 ++ items r2.
Proof. apply omap_app. Qed.
Lemma accepted_snoc t e : accepted (t ++ [e]) = accepted t ++ accepted_by e.
Proof. rewrite accepted_app. unfold accepted at 2. simpl. by rewrite app_nil_r. Qed.
Lemma length_acks id from n : length (acks id from n) = n.
Proof. unfold acks. by rewrite length_fmap, length_seq. Qed.
Lemma acks_S id from n : acks id from (S n) = ack id (S from) :: acks id (S from) n.
Proof. done. Qed.
Lemma acks_app id from n m : acks id from (n + m) = acks id from n ++ acks id (from + n) m.
Proof. unfold acks. rewrite seq_app, fmap_app. done. Qed.

(** The receiver has accepted a prefix of the items of the requests. *)
Lemma protocol_accepted id requests trace :
  protocol id requests trace → accepted trace `prefix_of` items requests.
Proof.
  induction 1 as [|t kind d _ IH Hp _|t _ IH _ _]; [apply prefix_nil| |].
  - rewrite accepted_snoc. unfold accepted_by.
    destruct d as [| |[]]; rewrite ?app_nil_r; done.
  - rewrite accepted_snoc. simpl. by rewrite app_nil_r.
Qed.

(** The responses are the acknowledgements one, two, three, ... *)
Lemma protocol_responses id requests trace :
  protocol id requests trace → responses trace = acks id 0 (length (responses trace)).
Proof.
  induction 1 as [|t kind d _ IH Hp _|t _ IH _ _]; [done| |].
  - rewrite responses_app. cbn. by rewrite app_nil_r.
  - rewrite responses_app, length_app. cbn. rewrite acks_app, <- IH. done.
Qed.

(** Every prefix of a trace of the protocol is one. *)
Lemma protocol_prefix id requests pre post :
  protocol id requests (pre ++ post) → protocol id requests pre.
Proof.
  induction post as [|e post IH] using rev_ind; [by rewrite app_nil_r|].
  rewrite app_assoc. intros H. apply IH.
  inversion H as [Hn|t k d Ht _ _ Heq|t Ht _ _ Heq].
  - by destruct (pre ++ post).
  - apply app_inj_tail in Heq as [<- _]. done.
  - apply app_inj_tail in Heq as [<- _]. done.
Qed.

Lemma protocol_response_inv id requests pre r :
  protocol id requests (pre ++ [Responded r]) →
  r = ack id (S (length (responses pre))) ∧
  items (take (S (length (responses pre))) requests) `prefix_of` accepted pre.
Proof.
  inversion 1 as [Hn|t k d Ht _ _ Heq|t Ht Hlt Hp Heq].
  - by destruct pre.
  - by apply app_inj_tail in Heq as [_ [=]].
  - by apply app_inj_tail in Heq as [<- [= <-]].
Qed.

(** ** The task follows the protocol *)

Lemma task_bind_inv {A B} (m : task A) (k : A → task B) t t' r :
  (m ≫= k) t = (t', r) →
  (∃ e, m t = (t', Err e) ∧ r = Err e) ∨ (∃ t1 a, m t = (t1, Ok a) ∧ k a t1 = (t', r)).
Proof.
  unfold mbind, task_bind. destruct (m t) as [t1 [a|e]]; [by right; eauto|].
  intros [= -> <-]. left. eauto.
Qed.

Lemma prefix_split {A} (a b c : list A) : a ++ b `prefix_of` c → a `prefix_of` c.
Proof. intros H. etrans; [|exact H]. by exists b. Qed.

Definition messages (input : list Poll) : list Request :=
  omap (fun poll => match poll with Message r => Some r | _ => None end) input.

Definition payloads (requests : list Request) : list (list Z) := omap payload_of requests.

Lemma payloads_app a b : payloads (a ++ b) = payloads a ++ payloads b.
Proof. apply omap_app. Qed.

Lemma total_len_app a b : total_len (a ++ b) = total_len a + total_len b.
Proof. induction a as [|x a IH]; simpl; lia. Qed.

Lemma item_of_event request ordered build_event :
  ordered_build_event request = Some ordered → ordered_event_field ordered = Some build_event →
  item_of request = match event build_event with
                    | Some (BazelEvent any) => Some (FrameItem (encode_frame (value any)))
                    | Some (ComponentStreamFinished _) => Some FinishItem
                    | None => None
                    end ∧
  payload_of request = match event build_event with
                       | Some (BazelEvent any) => Some (value any)
                       | _ => None
                       end.
Proof.
  intros Ho Hb. unfold item_of, payload_of. rewrite Ho. cbn. rewrite Hb. cbn.
  by destruct (event build_event) as [[|]|].
Qed.

Lemma item_payload request :
  item_of request = Some FinishItem ∧ payload_of request = None ∨
  item_of request = (FrameItem ∘ encode_frame) <$> payload_of request.
Proof.
  unfold item_of, payload_of.
  destruct (ordered_build_event request) as [ordered|]; [cbn|by right].
  destruct (ordered_event_field ordered) as [build_event|]; [cbn|by right].
  destruct (event build_event) as [[type|any]|]; cbn; auto.
Qed.

Lemma items_unfinished requests : FinishItem ∉ items requests →
  items requests = (FrameItem ∘ encode_frame) <$> payloads requests.
Proof.
  unfold items, payloads. induction requests as [|request requests IH]; [done|]. cbn.
  destruct (item_payload request) as [[-> ->]| ->]; [set_solver|].
  destruct (payload_of request); cbn; [|done].
  rewrite not_elem_of_cons. intros [_ Hf]. by rewrite IH.
Qed.

Lemma frame_limits frame s :
  is_ok (frame_bep_payload frame s) = true →
  len frame ≤ DEFAULT_MAX_FRAME_BYTES ∧ u64_add (bep_bytes s) (len frame) ≤ DEFAULT_MAX_STREAM_BYTES ∧
  event_count s < DEFAULT_MAX_STREAM_EVENTS.
Proof.
  destruct (frame_bep_payload frame s) as [framed|] eqn:H; [|done]. intros _.
  unfold frame_bep_payload in H. inv_ok. lia.
Qed.

(** The counters of [capture_stream] after the requests [seen]. *)
Definition payload_limits (seen : list Request) : Prop :=
  Forall (fun b => len b ≤ DEFAULT_MAX_FRAME_BYTES) (payloads seen) ∧
  total_len (payloads seen) ≤ DEFAULT_MAX_STREAM_BYTES ∧
  len (payloads seen) ≤ DEFAULT_MAX_STREAM_EVENTS.

(** Request number [i] carries the stream id of the first and the sequence
    number [i + 1]. *)
Definition in_order (id : StreamId) (seen : list Request) : Prop :=
  ∀ i request, seen !! i = Some request → ∃ ordered,
    ordered_build_event request = Some ordered ∧ stream_id ordered = Some id ∧
    sequence_number ordered = Z.of_nat (S i).

(** The finished event is the last request, or there is none. *)
Definition finished_last (finished : bool) (seen : list Request) : Prop :=
  if finished
  then ∃ before last, seen = before ++ [last] ∧ item_of last = Some FinishItem ∧
         FinishItem ∉ items before
  else FinishItem ∉ items seen.

Record counted (id : StreamId) (seen : list Request) (p : Progress) : Prop := {
  counted_sequence : expected_sequence p = len seen + 1;
  counted_requests : request_count p = len seen;
  counted_bound : len seen ≤ DEFAULT_MAX_STREAM_EVENTS + 1;
  counted_stats : stats p = MkStats (len (payloads seen)) (total_len (payloads seen));
  counted_limits : payload_limits seen;
  counted_order : in_order id seen;
  counted_finished : finished_last (saw_finished p) seen;
}.

Lemma check_request_inv identity request p p' ordered build_event :
  check_request identity request p = Ok (p', ordered, build_event) →
  ordered_build_event request = Some ordered ∧ ordered_event_field ordered = Some build_event ∧
  stream_id ordered = Some (to_owned identity) ∧ sequence_number ordered = expected_sequence p ∧
  saw_finished p = false ∧
  u64_add (request_count p) 1 ≤ DEFAULT_MAX_STREAM_EVENTS + 1 ∧
  p' = MkProgress (expected_sequence p) (u64_add (request_count p) 1) (stats p)
         (saw_finished p) (pending_frames p) (pending_responses p) (pending_batch_bytes p).
Proof.
  unfold check_request, ordered_event. destruct (ordered_build_event request) as [o|]; [|done].
  cbn [ok_or]. intros H. apply bind_Ok_inv in H as (? & [= <-] & H). inv_ok. simplify_eq.
  cbn [expected_sequence request_count saw_finished] in *.
  match goal with H : validate _ ?id = _ |- _ =>
    unfold validate in H; destruct id as [b i c]; cbn in H; case_match; [|done] end.
  destruct identity as [b' i' c']. cbn in *.
  repeat match goal with H : _ && _ = true |- _ => apply andb_true_iff in H as [? H] end.
  repeat match goal with H : bool_decide _ = true |- _ => apply bool_decide_eq_true in H end.
  simplify_eq. assert (c' = c) as -> by lia.
  assert (u64_add DEFAULT_MAX_STREAM_EVENTS 1 = DEFAULT_MAX_STREAM_EVENTS + 1) as Hadd by done.
  rewrite Hadd in *. split_and!; auto; lia.
Qed.

Section simulation.
Context (receiver : list Effect → BesStreamEventKind → Delivery).
Context (client_open : list Effect → bool) (display : Status → string).
Context (identity : StreamIdentity) (requests : list Request).
Abbreviation id := (to_owned identity).
Abbreviation protocol := (protocol id requests).

Lemma forward_protocol kind t t' r :
  protocol t → accepted t ++ kind_items kind `prefix_of` items requests →
  (1 ≤ length (kind_items kind) ≤ 64)%nat →
  forward_capture_event receiver kind t = (t', r) →
  protocol t' ∧ responses t' = responses t ∧
  (r = Ok tt → accepted t' = accepted t ++ kind_items kind).
Proof.
  intros Hp Hi Hl [= <- <-]. split_and!; [by constructor| |].
  - rewrite responses_app. cbn. by rewrite app_nil_r.
  - intros Hr. rewrite accepted_snoc. cbn. by destruct (receiver t kind) as [| |[]].
Qed.

Lemma send_response_protocol t t' r n :
  protocol t → n = S (length (responses t)) → (n ≤ length requests)%nat →
  items (take n requests) `prefix_of` accepted t →
  send_response client_open (ack id n) t = (t', r) →
  protocol t' ∧ (r = Ok tt → accepted t' = accepted t ∧ responses t' = responses t ++ [ack id n]).
Proof.
  intros Hp -> Hn Hi. unfold send_response. case_match; intros [= <- <-].
  - split; [constructor; [done|lia|done]|]. rewrite accepted_snoc, responses_app. cbn.
    by rewrite app_nil_r.
  - done.
Qed.

Lemma send_responses_protocol n t t' r :
  protocol t → (length (responses t) + n ≤ length requests)%nat →
  items (take (length (responses t) + n) requests) `prefix_of` accepted t →
  send_responses client_open (acks id (length (responses t)) n) t = (t', r) →
  protocol t' ∧
  (r = Ok tt → accepted t' = accepted t ∧
               responses t' = responses t ++ acks id (length (responses t)) n).
Proof.
  revert t. induction n as [|n IH]; intros t Hp Hn Hi Hs.
  { injection Hs as <- <-. split; [done|]. by rewrite app_nil_r. }
  assert (take (length (responses t) + S n) requests
    = take (S (length (responses t))) requests
      ++ take n (drop (S (length (responses t))) requests)) as Hsplit.
  { rewrite take_take_drop. by replace (S (length (responses t)) + n)%nat
      with (length (responses t) + S n)%nat by lia. }
  rewrite Hsplit, items_app in Hi. pose proof (prefix_split _ _ _ Hi) as Hi1.
  rewrite <- items_app, <- Hsplit in Hi.
  assert (S (length (responses t)) ≤ length requests)%nat as Hn1 by lia.
  rewrite acks_S in Hs. cbn [send_responses] in Hs.
  apply task_bind_inv in Hs as [(e & Hs & ->)|(t1 & [] & Hs & Hrest)];
    destruct (send_response_protocol _ _ _ _ Hp eq_refl Hn1 Hi1 Hs) as [Ht1 Hok]; [by split|].
  destruct (Hok eq_refl) as [Ha Hr].
  assert (length (responses t1) = S (length (responses t))) as Hl
    by (rewrite Hr, length_app; simpl; lia).
  rewrite <- Hl in Hrest. apply IH in Hrest as [Ht' Hok']; [|done|lia|].
  2: { rewrite Ha, Hl. by replace (S (length (responses t)) + n)%nat
         with (length (responses t) + S n)%nat by lia. }
  split; [done|]. intros Hrr. destruct (Hok' Hrr) as [Ha' Hr'].
  split; [congruence|]. by rewrite Hr', Hl, Hr, <- app_assoc.
Qed.

(** The trace and the pending batch after the requests [seen]: the batch is
    what is missing from the accepted items and from the responses. *)
Record synced (seen : list Request) (p : Progress) (t : list Effect) : Prop := {
  synced_protocol : protocol t;
  synced_seen : seen `prefix_of` requests;
  synced_items : accepted t ++ (FrameItem <$> pending_frames p) = items seen;
  synced_responses :
    pending_responses p = acks id (length (responses t)) (length (pending_frames p));
  synced_count : length seen = (length (responses t) + length (pending_frames p))%nat;
}.

Lemma flush_synced seen p t t' r :
  synced seen p t → (length (pending_frames p) ≤ 64)%nat →
  flush_progress receiver client_open p t = (t', r) →
  protocol t' ∧
  (∀ p', r = Ok p' → synced seen p' t' ∧
     p' = MkProgress (expected_sequence p) (request_count p) (stats p) (saw_finished p) [] [] 0).
Proof.
  intros [Hp Hs Hi Hr Hc] Hb. unfold flush_progress, flush_capture_batch.
  destruct (pending_frames p) as [|f fs] eqn:Hpf.
  { intros [= <- <-]. split; [done|]. intros p' [= <-]. cbn in Hr. rewrite Hr. cbn.
    by split; [constructor|]. }
  destruct Hs as [later Hlater].
  assert (items requests = items seen ++ items later) as Hitems by (by rewrite Hlater, items_app).
  assert (take (length (responses t) + length (f :: fs)) requests = seen) as Htake
    by (rewrite Hlater, <- Hc; apply take_app_length).
  assert (accepted t ++ kind_items (Frames (f :: fs)) `prefix_of` items requests) as Hfw
    by (cbn [kind_items]; rewrite Hi, Hitems; by eexists).
  assert (1 ≤ length (kind_items (Frames (f :: fs))) ≤ 64)%nat as Hsz
    by (cbn [kind_items]; rewrite length_fmap; simpl in *; lia).
  assert (∀ t1, forward_capture_event receiver (Frames (f :: fs)) t = (t1, Ok tt) →
    protocol t1 ∧ responses t1 = responses t ∧ accepted t1 = items seen) as Hforward.
  { intros t1 H. destruct (forward_protocol _ _ _ _ Hp Hfw Hsz H) as (? & ? & Ha).
    cbn [kind_items] in Ha. rewrite Hi in Ha. auto. }
  assert (∀ t1 t2 r2, protocol t1 → responses t1 = responses t → accepted t1 = items seen →
    send_responses client_open (pending_responses p) t1 = (t2, r2) →
    protocol t2 ∧ (r2 = Ok tt → accepted t2 = items seen ∧
                    responses t2 = responses t ++ pending_responses p)) as Hsend.
  { intros t1 t2 r2 Ht1 Hr1 Ha1 H. rewrite Hr, <- Hr1 in H. rewrite <- Ha1, <- Hr1, Hr, <- Hr1.
    eapply send_responses_protocol; [done| | |done].
    - rewrite Hr1, <- Hc, Hlater, length_app. lia.
    - by rewrite Hr1, Ha1, Htake. }
  intros H. apply task_bind_inv in H as [(e & H & ->)|(t2 & pd & H & [= <- <-])];
    apply task_bind_inv in H as [(e' & H & Hinj)|(t1 & [] & H & H2)]; try done.
  - by apply (forward_protocol _ _ _ _ Hp Hfw Hsz) in H as [? _].
  - apply Hforward in H as (Ht1 & Hr1 & Ha1).
    apply task_bind_inv in H2 as [(e' & H2 & _)|(t2 & [] & H2 & [=])].
    by destruct (Hsend _ _ _ Ht1 Hr1 Ha1 H2).
  - apply Hforward in H as (Ht1 & Hr1 & Ha1).
    apply task_bind_inv in H2 as [(e' & H2 & [=])|(t2' & [] & H2 & [= <- <-])].
    destruct (Hsend _ _ _ Ht1 Hr1 Ha1 H2) as [Ht2 Hok].
    destruct (Hok eq_refl) as [Ha2 Hr2]. split; [done|]. intros p' [= <-]. split; [|done].
    constructor; cbn; [done|by exists later|by rewrite app_nil_r|done|].
    rewrite Hr2, Hr, length_app, length_acks, Hc. lia.
Qed.
(** One more request, whose frame joins the pending batch. *)
Lemma push_synced seen request p p' t framed :
  synced seen p t → seen ++ [request] `prefix_of` requests →
  item_of request = Some (FrameItem framed) →
  pending_frames p' = pending_frames p ++ [framed] →
  pending_responses p' = pending_responses p ++ [ack id (S (length seen))] →
  synced (seen ++ [request]) p' t.
Proof.
  intros [Hp Hs Hi Hr Hc] Hpre Hit Hf Hrs. constructor; [done..| | |].
  - rewrite Hf, fmap_app, app_assoc, Hi, items_app. cbn. by rewrite Hit.
  - rewrite Hrs, Hf, length_app, acks_app, <- Hr. cbn. by rewrite Hc.
  - rewrite Hf, !length_app, Hc. simpl. lia.
Qed.

(** One more request, answered at once. *)
Lemma respond_synced seen request p p' t t1 t' r :
  synced seen p t → seen ++ [request] `prefix_of` requests →
  pending_frames p = [] → pending_frames p' = [] → pending_responses p' = [] →
  protocol t1 → responses t1 = responses t → accepted t1 = items (seen ++ [request]) →
  send_response client_open (ack id (S (length seen))) t1 = (t', r) →
  protocol t' ∧ (r = Ok tt → synced (seen ++ [request]) p' t').
Proof.
  intros [Hp Hs Hi Hr Hc] Hpre Hf Hf' Hr' Ht1 Hr1 Ha1 Hsend.
  rewrite Hf, Nat.add_0_r in Hc. pose proof Hpre as [later Hlater].
  eapply send_response_protocol in Hsend as [Ht' Hok]; [|done| | |].
  - split; [done|]. intros Hrr. destruct (Hok Hrr) as [Ha2 Hr2].
    constructor; [done..| | |].
    + by rewrite Hf', app_nil_r, Ha2.
    + by rewrite Hf', Hr'.
    + rewrite Hr2, Hr1, Hf', !length_app, Hc. simpl. lia.
  - by rewrite Hr1, Hc.
  - rewrite Hlater, !length_app. simpl. lia.
  - rewrite Ha1, Hlater. replace (S (length seen)) with (length (seen ++ [request]))
      by (rewrite length_app; simpl; lia). by rewrite take_app_length.
Qed.

Lemma bazel_event_synced seen request any p t t' r :
  synced seen p t → (length (pending_frames p) < 64)%nat →
  seen ++ [request] `prefix_of` requests →
  item_of request = Some (FrameItem (encode_frame (value any))) →
  accept_bazel_event receiver client_open any (ack id (S (length seen))) p t = (t', r) →
  protocol t' ∧ ∀ p', r = Ok p' →
    synced (seen ++ [request]) p' t' ∧ (length (pending_frames p') < 64)%nat ∧
    is_ok (frame_bep_payload (value any) (stats p)) = true ∧
    expected_sequence p' = expected_sequence p ∧ request_count p' = request_count p ∧
    stats p' = MkStats (u64_add (event_count (stats p)) 1)
                (u64_add (bep_bytes (stats p)) (len (value any))) ∧
    saw_finished p' = saw_finished p.
Proof.
  intros Hsync Hlt Hpre Hit H. pose proof (synced_protocol _ _ _ Hsync) as Hp.
  apply task_bind_inv in H as [(e & [= <- _] & ->)|(t1 & [] & [= -> _] & H)]; [by split|].
  apply task_bind_inv in H as [(e & [= <- _] & ->)|(t2 & framed & [= -> Hframe] & H)]; [by split|].
  assert (framed = encode_frame (value any)) as ->.
  { unfold frame_bep_payload in Hframe. inv_ok. by simplify_eq. }
  set (p1 := MkProgress _ _ _ _ _ _ _) in H.
  assert (synced (seen ++ [request]) p1 t2) as Hs1 by (by eapply push_synced).
  assert (length (pending_frames p1) ≤ 64)%nat as Hb1
    by (cbn; rewrite length_app; simpl; lia).
  cbn zeta in H. destruct (_ || _) eqn:Hfull in H.
  - destruct (flush_synced _ _ _ _ _ Hs1 Hb1 H) as [Ht' Hok]. split; [done|].
    intros p' Hr. destruct (Hok _ Hr) as [Hs' ->]. rewrite Hframe. cbn. split_and!; [done|lia|done..].
  - injection H as <- <-. split; [done|]. intros p' [= <-]. rewrite Hframe.
    apply orb_false_iff in Hfull as [Hfull _].
    unfold CAPTURE_BATCH_MAX_EVENTS, len in Hfull. split_and!; [done|lia|done..].
Qed.

Lemma finished_synced seen request type p t t' r :
  synced seen p t → (length (pending_frames p) < 64)%nat →
  seen ++ [request] `prefix_of` requests → item_of request = Some FinishItem →
  accept_finished receiver client_open type (ack id (S (length seen))) p t = (t', r) →
  protocol t' ∧ ∀ p', r = Ok p' →
    synced (seen ++ [request]) p' t' ∧
    p' = MkProgress (expected_sequence p) (request_count p) (stats p) true [] [] 0.
Proof.
  intros Hsync Hlt Hpre Hit H. pose proof (synced_protocol _ _ _ Hsync) as Hp.
  assert (items (seen ++ [request]) = items seen ++ [FinishItem]) as Hitems
    by (rewrite items_app; cbn; by rewrite Hit).
  apply task_bind_inv in H as [(e & [= <- _] & ->)|(t1 & [] & [= -> _] & H)]; [by split|].
  apply task_bind_inv in H as [(e & H & ->)|(t2 & p1 & H & H2)];
    destruct (flush_synced _ _ _ _ _ Hsync ltac:(lia) H) as [Ht2 Hok]; [by split|].
  destruct (Hok _ eq_refl) as [Hs1 Hp1].
  pose proof (synced_items _ _ _ Hs1) as Ha2. rewrite Hp1, app_nil_r in Ha2.
  assert (accepted t2 ++ kind_items Finished `prefix_of` items requests) as Hfw.
  { destruct Hpre as [later ->]. rewrite Ha2, items_app, Hitems. by eexists. }
  assert (1 ≤ length (kind_items Finished) ≤ 64)%nat as Hsz by (simpl; lia).
  apply task_bind_inv in H2 as [(e & H2 & ->)|(t3 & [] & H2 & H3)];
    destruct (forward_protocol _ _ _ _ Ht2 Hfw Hsz H2) as (Ht3 & Hr3 & Ha3); [by split|].
  specialize (Ha3 eq_refl). rewrite Ha2 in Ha3. cbn [kind_items] in Ha3. rewrite <- Hitems in Ha3.
  apply task_bind_inv in H3 as [(e & H3 & ->)|(t4 & [] & H3 & [= <- <-])];
    eapply (respond_synced _ _ _ p1) in H3 as [Ht4 Hok4]; try done; try by rewrite Hp1.
  - split; [done|]. intros p' [= <-]. specialize (Hok4 eq_refl). split; [|by rewrite Hp1].
    destruct Hok4. by constructor.
Qed.

Lemma other_synced seen request p t t' r :
  synced seen p t → (length (pending_frames p) < 64)%nat →
  seen ++ [request] `prefix_of` requests → item_of request = None →
  accept_other receiver client_open (ack id (S (length seen))) p t = (t', r) →
  protocol t' ∧ ∀ p', r = Ok p' →
    synced (seen ++ [request]) p' t' ∧
    p' = MkProgress (expected_sequence p) (request_count p) (stats p) (saw_finished p) [] [] 0.
Proof.
  intros Hsync Hlt Hpre Hit H. pose proof (synced_protocol _ _ _ Hsync) as Hp.
  assert (items (seen ++ [request]) = items seen) as Hitems
    by (rewrite items_app; cbn; by rewrite Hit, app_nil_r).
  apply task_bind_inv in H as [(e & H & ->)|(t2 & p1 & H & H2)];
    destruct (flush_synced _ _ _ _ _ Hsync ltac:(lia) H) as [Ht2 Hok]; [by split|].
  destruct (Hok _ eq_refl) as [Hs1 Hp1].
  pose proof (synced_items _ _ _ Hs1) as Ha2. rewrite Hp1, app_nil_r, <- Hitems in Ha2.
  apply task_bind_inv in H2 as [(e & H2 & ->)|(t3 & [] & H2 & [= <- <-])];
    eapply (respond_synced _ _ _ p1) in H2 as [Ht4 Hok4]; try done; try by rewrite Hp1.
  split; [done|]. intros p' [= <-]. auto.
Qed.
Definition invariant (seen : list Request) (p : Progress) (t : list Effect) : Prop :=
  synced seen p t ∧ counted id seen p ∧ (length (pending_frames p) < 64)%nat.

Lemma in_order_snoc seen request ordered :
  in_order id seen → ordered_build_event request = Some ordered → stream_id ordered = Some id →
  sequence_number ordered = len seen + 1 → in_order id (seen ++ [request]).
Proof.
  intros Hseen Ho Hid Hsn i r [Hi|[Hi Hr]]%lookup_app_Some; [by apply Hseen|].
  apply list_lookup_singleton_Some in Hr as [Hi0 <-]. exists ordered. split_and!; [done..|].
  unfold len in Hsn. lia.
Qed.

Lemma counted_step seen request ordered p p' :
  counted id seen p → ordered_build_event request = Some ordered → stream_id ordered = Some id →
  sequence_number ordered = expected_sequence p →
  u64_add (request_count p) 1 ≤ DEFAULT_MAX_STREAM_EVENTS + 1 →
  expected_sequence p' = expected_sequence p + 1 →
  request_count p' = u64_add (request_count p) 1 →
  stats p' = MkStats (len (payloads (seen ++ [request]))) (total_len (payloads (seen ++ [request]))) →
  payload_limits (seen ++ [request]) → finished_last (saw_finished p') (seen ++ [request]) →
  counted id (seen ++ [request]) p'.
Proof.
  intros [Hs Hr Hb Hst Hl Ho Hf] Hor Hid Hsn Hrc Hs' Hr' Hst' Hl' Hf'.
  assert (u64_add (request_count p) 1 = len seen + 1) as Hadd.
  { rewrite Hr. pose proof (len_nonneg seen). unfold DEFAULT_MAX_STREAM_EVENTS in *. width. }
  assert (len (seen ++ [request]) = len seen + 1) as Hlen by (by rewrite len_app).
  constructor; [lia..|done|done| |done].
  eapply in_order_snoc; [done..|lia].
Qed.

Lemma synced_ext seen p p' t :
  pending_frames p' = pending_frames p → pending_responses p' = pending_responses p →
  synced seen p t → synced seen p' t.
Proof. intros Hf Hr [H1 H2 H3 H4 H5]. constructor; rewrite ?Hf, ?Hr; done. Qed.

Lemma payload_limits_push seen request payload :
  payload_limits seen → payload_of request = Some payload →
  len payload ≤ DEFAULT_MAX_FRAME_BYTES →
  total_len (payloads seen) + len payload ≤ DEFAULT_MAX_STREAM_BYTES →
  len (payloads seen) < DEFAULT_MAX_STREAM_EVENTS →
  payload_limits (seen ++ [request]).
Proof.
  intros (H1 & H2 & H3) Hp Hf Hs He. unfold payload_limits.
  assert (payloads [request] = [payload]) as Hone by (cbn; by rewrite Hp).
  rewrite payloads_app, Hone, total_len_app, len_app. simpl. unfold len at 4. simpl.
  split_and!; [|lia..]. apply Forall_app. auto.
Qed.

Lemma payloads_skip seen request : payload_of request = None →
  payloads (seen ++ [request]) = payloads seen.
Proof. intros Hp. rewrite payloads_app. cbn. by rewrite Hp, app_nil_r. Qed.

(** What the branch of a request leaves behind, before the sequence number is
    advanced. *)
Definition handled (seen : list Request) (request : Request) (p p' : Progress) (t' : list Effect)
    : Prop :=
  synced (seen ++ [request]) p' t' ∧ (length (pending_frames p') < 64)%nat ∧
  expected_sequence p' = expected_sequence p ∧ request_count p' = request_count p ∧
  stats p' = MkStats (len (payloads (seen ++ [request]))) (total_len (payloads (seen ++ [request]))) ∧
  payload_limits (seen ++ [request]) ∧ finished_last (saw_finished p') (seen ++ [request]).

Lemma bazel_event_handled seen request any p t t' r :
  synced seen p t → (length (pending_frames p) < 64)%nat →
  seen ++ [request] `prefix_of` requests →
  item_of request = Some (FrameItem (encode_frame (value any))) →
  payload_of request = Some (value any) →
  payload_limits seen → FinishItem ∉ items seen → saw_finished p = false →
  stats p = MkStats (len (payloads seen)) (total_len (payloads seen)) →
  accept_bazel_event receiver client_open any (ack id (S (length seen))) p t = (t', r) →
  protocol t' ∧ ∀ p', r = Ok p' → handled seen request p p' t'.
Proof.
  intros Hsync Hlt Hpre Hit Hpay Hlim Hnf Hsf Hst H.
  destruct (bazel_event_synced _ _ _ _ _ _ _ Hsync Hlt Hpre Hit H) as [Ht' Hok].
  split; [done|]. intros p' Hr. destruct (Hok p' Hr) as (Hs' & Hl' & Hfr & He & Hc & Hst' & Hf').
  apply frame_limits in Hfr as (Hfr1 & Hfr2 & Hfr3). rewrite Hst in Hst', Hfr2, Hfr3.
  cbn [event_count bep_bytes] in *.
  pose proof (total_len_nonneg (payloads seen)). pose proof (len_nonneg (value any)).
  pose proof (len_nonneg (payloads seen)).
  assert (u64_add (total_len (payloads seen)) (len (value any))
          = total_len (payloads seen) + len (value any)) as Hadd
    by (unfold DEFAULT_MAX_STREAM_BYTES in *; width).
  assert (u64_add (len (payloads seen)) 1 = len (payloads seen) + 1) as Hadd1
    by (unfold DEFAULT_MAX_STREAM_EVENTS in *; width).
  rewrite Hadd in *. rewrite Hadd1 in *.
  assert (payloads [request] = [value any]) as Hone by (cbn; by rewrite Hpay).
  unfold handled. split_and!; [done..| | |].
  - rewrite Hst', payloads_app, Hone, total_len_app, len_app. simpl. f_equal. lia.
  - by eapply payload_limits_push.
  - rewrite Hf', Hsf. cbn. rewrite items_app. cbn. rewrite Hit. set_solver.
Qed.

Lemma process_request_invariant seen request p t t' r :
  invariant seen p t → seen ++ [request] `prefix_of` requests →
  process_request receiver client_open identity request p t = (t', r) →
  protocol t' ∧ ∀ p', r = Ok p' → invariant (seen ++ [request]) p' t'.
Proof.
  intros (Hsync & Hcount & Hlt) Hpre H. pose proof (synced_protocol _ _ _ Hsync) as Hp.
  apply task_bind_inv in H as [(e & [= <- _] & ->)|(t1 & [[p1 ordered] be] & [= -> Hchk] & H)];
    [by split|].
  apply check_request_inv in Hchk as (Ho & Hbe & Hid & Hsn & Hfin & Hrc & Hp1).
  assert (MkResponse (Some id) (sequence_number ordered) = ack id (S (length seen))) as Hresp.
  { rewrite Hsn, (counted_sequence _ _ _ Hcount). unfold ack, len. f_equal. lia. }
  cbv beta iota zeta in H. rewrite Hresp in H. clear Hresp.
  assert (synced seen p1 t1) as Hs1
    by (apply (synced_ext seen p); [by rewrite Hp1..|done]).
  assert (length (pending_frames p1) < 64)%nat as Hl1 by (by rewrite Hp1).
  pose proof (counted_limits _ _ _ Hcount) as Hlim.
  pose proof (counted_stats _ _ _ Hcount) as Hst.
  pose proof (counted_finished _ _ _ Hcount) as Hnf. rewrite Hfin in Hnf.
  match type of H with (?m ≫= _) _ = _ =>
    assert (∀ t2 r2, m t1 = (t2, r2) →
      protocol t2 ∧ ∀ p2, r2 = Ok p2 → handled seen request p1 p2 t2) as Hbranch end.
  { intros t2 r2 Hm. destruct (item_of_event _ _ _ Ho Hbe) as [Hit Hpay].
    destruct (event be) as [[type|any]|] eqn:Hev.
    - eapply finished_synced in Hm as [Ht2 Hok]; [|done..]. split; [done|].
      intros p2 Hr2. destruct (Hok p2 Hr2) as [Hs2 Hp2]. unfold handled.
      unfold payload_limits. rewrite (payloads_skip _ _ Hpay), Hp2. rewrite Hp2 in Hs2.
      split_and!; cbn; [done|lia|done|done|by rewrite Hp1|apply Hlim..|eauto].
    - eapply bazel_event_handled; [exact Hs1|done..|by rewrite Hp1|by rewrite Hp1|exact Hm].
    - eapply other_synced in Hm as [Ht2 Hok]; [|done..]. split; [done|].
      intros p2 Hr2. destruct (Hok p2 Hr2) as [Hs2 Hp2]. unfold handled.
      unfold payload_limits. rewrite (payloads_skip _ _ Hpay), Hp2. rewrite Hp2 in Hs2.
      split_and!; cbn; [done|lia|done|done|by rewrite Hp1|apply Hlim..|].
      rewrite Hp1. cbn. rewrite Hfin. cbn. rewrite items_app. cbn. by rewrite Hit, app_nil_r. }
  apply task_bind_inv in H as [(e & H & ->)|(t2 & p2 & H & [= <- <-])];
    destruct (Hbranch _ _ H) as [Ht2 Hok]; [by split|].
  split; [done|]. intros p' Hadv.
  destruct (Hok _ eq_refl) as (Hs2 & Hl2 & He2 & Hc2 & Hst2 & Hlim2 & Hf2).
  unfold advance in Hadv. case_match; [done|]. injection Hadv as <-. rewrite Hp1 in He2, Hc2. cbn in *.
  split_and!; [by apply (synced_ext _ p2)| |done].
  eapply counted_step; [done..| | | |done|done]; cbn; [lia|done|done].
Qed.

Lemma capture_loop_invariant input seen p t t' r :
  invariant seen p t → seen ++ messages input = requests →
  capture_loop receiver client_open display identity p input t = (t', r) →
  protocol t' ∧ ∀ p', r = Ok p' → invariant requests p' t'.
Proof.
  revert seen p t. induction input as [|[request| |status] input IH]; intros seen p t Hinv Hreq H.
  - injection H as <- <-. unfold messages in Hreq. cbn in Hreq. rewrite app_nil_r in Hreq.
    rewrite Hreq in Hinv. split; [by destruct Hinv as [[] _]|]. by intros p' [= <-].
  - assert (seen ++ [request] `prefix_of` requests) as Hpre
      by (exists (messages input); by rewrite <- app_assoc).
    cbn [capture_loop] in H. apply task_bind_inv in H as [(e & H & ->)|(t1 & p1 & H & H2)];
      destruct (process_request_invariant _ _ _ _ _ _ Hinv Hpre H) as [Ht1 Hok]; [by split|].
    eapply IH; [by apply Hok|by rewrite <- app_assoc|done].
  - cbn [capture_loop] in H. case_match; [by eapply IH|].
    destruct Hinv as (Hs & Hc & Hl).
    apply task_bind_inv in H as [(e & H & ->)|(t1 & p1 & H & H2)];
      destruct (flush_synced _ _ _ _ _ Hs ltac:(lia) H) as [Ht1 Hok]; [by split|].
    destruct (Hok _ eq_refl) as [Hs1 ->]. eapply IH; [|done..].
    split_and!; [done| |simpl; lia]. by destruct Hc.
  - injection H as <- <-. split; [by destruct Hinv as [[] _]|done].
Qed.
End simulation.

(** ** Whole runs of [capture_stream] *)

Section runs.
Context (receiver : list Effect → BesStreamEventKind → Delivery).
Context (client_open : list Effect → bool) (display : Status → string).

Lemma invariant_start identity requests :
  invariant identity requests [] start_progress [].
Proof.
  split; [by constructor; [constructor|apply prefix_nil|..]|].
  split; [|simpl; lia].
  constructor; [done..|by repeat split; try constructor|done|by apply not_elem_of_nil].
Qed.

Lemma capture_stream_invariant first input t r :
  capture_stream receiver client_open display first input [] = (t, r) →
  (∃ e, first_identity first = Err e ∧ t = [] ∧ r = Err e) ∨
  ∃ identity, first_identity first = Ok identity ∧
    protocol (to_owned identity) (first :: messages input) t ∧
    ∀ result, r = Ok result → ∃ p, invariant identity (first :: messages input) (first :: messages input) p t ∧
      pending_frames p = [] ∧ saw_finished p = true ∧ stats p = result.
Proof.
  intros H. unfold capture_stream in H.
  apply task_bind_inv in H as [(e & [= <- He] & ->)|(t1 & identity & [= <- He] & H)]; [by eauto|].
  right. exists identity. split; [done|].
  apply task_bind_inv in H as [(e & H & ->)|(t2 & p & H & H2)];
    eapply (capture_loop_invariant _ _ _ _ (first :: messages input) _ []) in H as [Ht2 Hok];
    try apply invariant_start; try done.
  destruct (Hok _ eq_refl) as (Hs & Hc & Hl). clear Hok.
  apply task_bind_inv in H2 as [(e & H2 & ->)|(t3 & p3 & H2 & H3)];
    destruct (flush_synced _ _ _ _ _ _ _ _ _ Hs ltac:(lia) H2) as [Ht3 Hok]; [done|].
  destruct (Hok _ eq_refl) as [Hs3 Hp3].
  destruct (saw_finished p3) eqn:Hfin; injection H3 as <- <-; split; try done.
  intros result [= <-]. exists p3. rewrite Hp3 in Hs3, Hfin |- *. split_and!; try done.
  split_and!; [done| |simpl; lia]. by destruct Hc.
Qed.
End runs.

(** ** Streams that are accepted *)

(** A stream the service must accept: in order, one identity, every request an
    event, the payloads typed and within the limits, finished exactly at the
    end. *)
Definition typed (request : Request) : Prop :=
  ∃ ordered build_event, ordered_build_event request = Some ordered ∧
    ordered_event_field ordered = Some build_event ∧
    match event build_event with
    | Some (BazelEvent any) =>
        str_len (type_url any) ≤ MAX_TYPE_URL_BYTES ∧
        (type_url any = EmptyString ∨ ends_with (type_url any) BAZEL_EVENT_TYPE_SUFFIX = true)
    | Some (ComponentStreamFinished type) => type = 1
    | None => True
    end.

Record well_formed (id : StreamId) (requests : list Request) : Prop := {
  wf_build_id : str_len (build_id id) ≤ MAX_STREAM_ID_FIELD_BYTES;
  wf_invocation_id : str_len (invocation_id id) ≤ MAX_STREAM_ID_FIELD_BYTES;
  wf_order : in_order id requests;
  wf_typed : Forall typed requests;
  wf_limits : payload_limits requests;
  wf_count : len requests ≤ DEFAULT_MAX_STREAM_EVENTS + 1;
  wf_finished : finished_last true requests;
}.

Section accepting.
Context (receiver : list Effect → BesStreamEventKind → Delivery).
Context (client_open : list Effect → bool) (display : Status → string).
Hypothesis receiver_accepts : ∀ trace kind, receiver trace kind = Acknowledged (Ok tt).
Hypothesis client_accepts : ∀ trace, client_open trace = true.

Lemma forward_succeeds kind t : ∃ t', forward_capture_event receiver kind t = (t', Ok tt).
Proof. unfold forward_capture_event. rewrite receiver_accepts. eauto. Qed.

Lemma send_response_succeeds response t : ∃ t', send_response client_open response t = (t', Ok tt).
Proof. unfold send_response. rewrite client_accepts. eauto. Qed.

Lemma send_responses_succeeds responses t :
  ∃ t', send_responses client_open responses t = (t', Ok tt).
Proof.
  revert t. induction responses as [|x rest IH]; intros t; [by eexists|].
  cbn [send_responses]. unfold mbind, task_bind.
  destruct (send_response_succeeds x t) as [t1 ->]. apply IH.
Qed.

Lemma flush_succeeds p t : ∃ t' p',
  flush_progress receiver client_open p t = (t', Ok p') ∧ expected_sequence p' = expected_sequence p.
Proof.
  unfold flush_progress, flush_capture_batch. destruct (pending_frames p) as [|f fs]; [by eauto|].
  unfold mbind, task_bind. destruct (forward_succeeds (Frames (f :: fs)) t) as [t1 ->].
  destruct (send_responses_succeeds (pending_responses p) t1) as [t2 ->]. by eauto.
Qed.

Lemma to_owned_from_view id : str_len (build_id id) ≤ MAX_STREAM_ID_FIELD_BYTES →
  str_len (invocation_id id) ≤ MAX_STREAM_ID_FIELD_BYTES →
  ∃ identity, from_view id = Ok identity ∧ to_owned identity = id.
Proof.
  intros Hb Hi. unfold from_view.
  destruct (_ || _) eqn:Hor; [apply orb_true_iff in Hor; lia|].
  eexists. split; [done|]. by destruct id.
Qed.

Lemma validate_to_owned identity : validate identity (to_owned identity) = Ok tt.
Proof. unfold validate, to_owned. cbn. by rewrite !bool_decide_true, Z.eqb_refl by done. Qed.

(** The checks of a well-formed stream succeed. *)
Lemma check_succeeds identity seen request later p :
  in_order (to_owned identity) (seen ++ request :: later) →
  len (seen ++ request :: later) ≤ DEFAULT_MAX_STREAM_EVENTS + 1 →
  typed request → counted (to_owned identity) seen p → saw_finished p = false →
  is_ok (check_request identity request p) = true.
Proof.
  intros Hord Hlen (ordered & be & Ho & Hbe & _) Hc Hfin.
  destruct (Hord (length seen) request) as (ordered' & Ho' & Hid & Hsn);
    [by rewrite list_lookup_middle|]. rewrite Ho in Ho'. injection Ho' as <-.
  destruct Hc as [Hs Hr _ _ _ _ _]. rewrite len_app, len_cons in Hlen.
  pose proof (len_nonneg later). pose proof (len_nonneg seen).
  assert (u64_add (request_count p) 1 = len seen + 1) as Hadd
    by (rewrite Hr; unfold DEFAULT_MAX_STREAM_EVENTS in *; width).
  unfold check_request, ordered_event. rewrite Ho. cbn [ok_or mbind result_bind request_count].
  rewrite Hadd. replace (u64_add DEFAULT_MAX_STREAM_EVENTS 1 <? len seen + 1) with false by
    (symmetry; apply Z.ltb_ge; change (u64_add DEFAULT_MAX_STREAM_EVENTS 1)
       with (DEFAULT_MAX_STREAM_EVENTS + 1); lia).
  cbn [reject_if mbind result_bind]. rewrite Hid. cbn [ok_or mbind result_bind].
  rewrite validate_to_owned. cbn [expected_sequence].
  rewrite Hsn, Hs. replace (Z.of_nat (S (length seen)) =? len seen + 1) with true by
    (symmetry; apply Z.eqb_eq; unfold len; lia).
  cbn [negb reject_if mbind result_bind]. rewrite Hbe. cbn [ok_or mbind result_bind saw_finished].
  by rewrite Hfin.
Qed.

Lemma frame_succeeds payload s :
  len payload ≤ DEFAULT_MAX_FRAME_BYTES → 0 ≤ bep_bytes s →
  bep_bytes s + len payload ≤ DEFAULT_MAX_STREAM_BYTES → event_count s < DEFAULT_MAX_STREAM_EVENTS →
  ∃ framed, frame_bep_payload payload s = Ok framed.
Proof.
  intros Hf Hb Hs He. pose proof (len_nonneg payload).
  assert (u64_add (bep_bytes s) (len payload) = bep_bytes s + len payload) as Hadd
    by (unfold DEFAULT_MAX_STREAM_BYTES in *; width).
  unfold frame_bep_payload. rewrite Hadd.
  destruct (reject_if (_ <? len payload) _) eqn:H1; [|apply reject_if_Err in H1; lia].
  destruct (reject_if (_ <? _ + _) _) eqn:H2; [|apply reject_if_Err in H2; lia].
  destruct (reject_if (_ <=? _) _) eqn:H3; [|apply reject_if_Err in H3; lia].
  cbn. eauto.
Qed.

Lemma branch_succeeds seen request later ordered build_event response p t :
  payload_limits (seen ++ request :: later) →
  stats p = MkStats (len (payloads seen)) (total_len (payloads seen)) → typed request →
  ordered_build_event request = Some ordered → ordered_event_field ordered = Some build_event →
  ∃ t' p', match event build_event with
           | Some (BazelEvent any) => accept_bazel_event receiver client_open any response p
           | Some (ComponentStreamFinished type) =>
               accept_finished receiver client_open type response p
           | None => accept_other receiver client_open response p
           end t = (t', Ok p') ∧ expected_sequence p' = expected_sequence p.
Proof.
  intros Hlim Hst (o & b & Ho' & Hb' & Htyped) Ho Hb.
  rewrite Ho in Ho'. injection Ho' as <-. rewrite Hb in Hb'. injection Hb' as <-.
  destruct (item_of_event _ _ _ Ho Hb) as [_ Hpay].
  destruct (event build_event) as [[type|any]|].
  - subst type. unfold accept_finished, lift, mbind, task_bind. cbn [Z.eqb Pos.eqb negb reject_if].
    destruct (flush_succeeds p t) as (t1 & p1 & -> & He).
    destruct (forward_succeeds Finished t1) as [t2 ->].
    destruct (send_response_succeeds response t2) as [t3 ->]. by eauto.
  - destruct Htyped as [Hurl Htyped].
    destruct Hlim as (Hf & Hs & Hn). rewrite payloads_app in Hf, Hs, Hn. cbn in Hf, Hs, Hn.
    rewrite Hpay in Hf, Hs, Hn. rewrite total_len_app in Hs. rewrite len_app, len_cons in Hn.
    apply Forall_app in Hf as [_ [Hf _]%Forall_cons]. simpl in Hs. change (omap payload_of later) with (payloads later) in *.
    pose proof (total_len_nonneg (payloads later)). pose proof (total_len_nonneg (payloads seen)).
    pose proof (len_nonneg (payloads later)).
    destruct (frame_succeeds (value any) (stats p)) as [framed Hframe];
      [done|rewrite Hst; cbn; lia..|].
    unfold accept_bazel_event, lift, mbind, task_bind.
    destruct (reject_if _ "unexpected BES Any type URL") as [[]|] eqn:Hrej.
    2: { apply reject_if_Err in Hrej as [Hrej _]. apply orb_true_iff in Hrej as [Hrej|Hrej]; [lia|].
         apply andb_true_iff in Hrej as [Hlong Hsuffix].
         destruct Htyped as [Hempty|Hends]; [by rewrite Hempty in Hlong|by rewrite Hends in Hsuffix]. }
    rewrite Hframe. cbv zeta.
    match goal with |- context [if ?c then _ else _] => destruct c end; [|by eauto].
    match goal with |- context [flush_progress _ _ ?q] =>
      destruct (flush_succeeds q t) as (t1 & p1 & -> & He) end. by eauto.
  - unfold accept_other, mbind, task_bind.
    destruct (flush_succeeds p t) as (t1 & p1 & -> & He).
    destruct (send_response_succeeds response t1) as [t2 ->]. by eauto.
Qed.

Lemma process_succeeds identity seen request later p t :
  in_order (to_owned identity) (seen ++ request :: later) →
  payload_limits (seen ++ request :: later) →
  len (seen ++ request :: later) ≤ DEFAULT_MAX_STREAM_EVENTS + 1 →
  typed request → counted (to_owned identity) seen p → saw_finished p = false →
  ∃ t' p', process_request receiver client_open identity request p t = (t', Ok p').
Proof.
  intros Hord Hlim Hlen Htyped Hc Hfin.
  pose proof (check_succeeds _ _ _ _ _ Hord Hlen Htyped Hc Hfin) as Hchk.
  unfold process_request, lift, mbind, task_bind.
  destruct (check_request identity request p) as [[[p1 ordered] be]|] eqn:Hreq; [|done].
  apply check_request_inv in Hreq as (Ho & Hbe & _ & _ & _ & _ & Hp1).
  destruct (branch_succeeds seen request later ordered be
    (MkResponse (Some (to_owned identity)) (sequence_number ordered)) p1 t)
    as (t1 & p2 & -> & He); [done|by rewrite Hp1; apply Hc|done..|].
  exists t1. unfold advance. rewrite He, Hp1. cbn [expected_sequence].
  rewrite (counted_sequence _ _ _ Hc). rewrite len_app in Hlen. pose proof (len_nonneg (request :: later)).
  destruct (len seen + 1 =? i64_max) eqn:Hmax; [|by eauto].
  unfold DEFAULT_MAX_STREAM_EVENTS in *. unfold i64_max in *. lia.
Qed.

Lemma finished_not_yet seen request later :
  finished_last true seen → finished_last true (seen ++ request :: later) → False.
Proof.
  intros (before & last & -> & Hlast & _) (before' & last' & Heq & _ & Hnot).
  destruct later as [|x later _] using rev_ind.
  - apply app_inj_tail in Heq as [<- _]. apply Hnot. rewrite items_app. cbn. rewrite Hlast. set_solver.
  - rewrite app_comm_cons, app_assoc in Heq. apply app_inj_tail in Heq as [<- _]. apply Hnot.
    rewrite !items_app. cbn. rewrite Hlast. set_solver.
Qed.

Lemma loop_succeeds identity input seen p t :
  invariant identity (seen ++ messages input) seen p t →
  well_formed (to_owned identity) (seen ++ messages input) →
  Forall (fun poll => match poll with Fault _ => False | _ => True end) input →
  ∃ t' p', capture_loop receiver client_open display identity p input t = (t', Ok p').
Proof.
  revert seen p t. induction input as [|[request| |status] input IH]; intros seen p t Hinv Hwf Hpolls.
  - by eexists _, _.
  - apply Forall_cons in Hpolls as [_ Hpolls]. cbn [capture_loop].
    change (messages (Message request :: input)) with (request :: messages input) in *.
    assert (saw_finished p = false) as Hfin.
    { destruct (saw_finished p) eqn:Hfin; [|done]. destruct Hinv as (_ & Hc & _).
      pose proof (counted_finished _ _ _ Hc) as Hf. rewrite Hfin in Hf.
      by destruct (finished_not_yet _ _ _ Hf (wf_finished _ _ Hwf)). }
    pose proof Hwf as [_ _ Hord Htyped Hlim Hlen _].
    apply Forall_app in Htyped as [_ [Htyped _]%Forall_cons].
    destruct (process_succeeds identity seen request (messages input) p t) as (t1 & p1 & Hproc);
      [done..|apply Hinv|done|].
    unfold mbind, task_bind. rewrite Hproc.
    rewrite (cons_middle request seen), app_assoc in Hinv, Hwf.
    apply (IH (seen ++ [request])); [|done..].
    eapply process_request_invariant; [exact Hinv| |exact Hproc|done]. by exists (messages input).
  - apply Forall_cons in Hpolls as [_ Hpolls]. cbn [capture_loop].
    change (messages (NotReady :: input)) with (messages input) in *.
    case_match; [by apply (IH seen)|]. destruct Hinv as (Hs & Hc & Hl).
    unfold mbind, task_bind. destruct (flush_succeeds p t) as (t1 & p1 & Hflush & _).
    rewrite Hflush. destruct (flush_synced _ _ _ _ _ _ _ _ _ Hs ltac:(lia) Hflush) as [_ Hok].
    destruct (Hok _ eq_refl) as [Hs1 ->]. apply (IH seen); [|done..].
    split_and!; [done| |simpl; lia]. by destruct Hc.
  - by apply Forall_cons in Hpolls as [[] _].
Qed.
End accepting.

(** ** Streams and captures interleaved *)

(** The registry with the captures that have not been dropped and the
    addresses of the captures whose stream has begun. *)
Record BesSystem : Type := MkBesSystem {
  registry : Registry;
  live : list BesCapture;
  claimed : list nat;
}.

(** The registry operations of the service, interleaved arbitrarily: every
    operation holds the registry lock or is one atomic access. *)
Inductive bes_step : BesSystem → BesSystem → Prop :=
| bes_register r r' l cl id c :
    register r id = (r', Ok c) → bes_step (MkBesSystem r l cl) (MkBesSystem r' (c :: l) cl)
| bes_remove r l1 l2 cl c :
    bes_step (MkBesSystem r (l1 ++ c :: l2) cl) (MkBesSystem (remove r c) (l1 ++ l2) cl)
| bes_begin r r' l cl capture_id first address :
    ingest_begin r capture_id first = (r', Ok address) →
    bes_step (MkBesSystem r l cl) (MkBesSystem r' l (address :: cl))
| bes_refuse r r' l cl capture_id first status :
    ingest_begin r capture_id first = (r', Err status) →
    bes_step (MkBesSystem r l cl) (MkBesSystem r' l cl)
| bes_complete r l cl address outcome :
    address ∈ cl → bes_step (MkBesSystem r l cl) (MkBesSystem (complete r address outcome) l cl).

Definition bes_start : BesSystem := MkBesSystem (MkRegistry ∅ ∅ false) [] [].

Definition is_active (r : Registry) (address : nat) : Prop :=
  ∃ s, states r !! address = Some s ∧ active s = true.

Record bes_invariant (s : BesSystem) : Prop := {
  inv_states : ∀ id address, captures (registry s) !! id = Some address →
    is_Some (states (registry s) !! address);
  inv_live : ∀ c, c ∈ live s →
    captures (registry s) !! capture_invocation_id c = Some (capture_state c);
  inv_live_ids : NoDup (capture_invocation_id <$> live s);
  inv_claimed : NoDup (claimed s);
  inv_active : ∀ address, address ∈ claimed s ↔ is_active (registry s) address;
}.

Lemma is_active_insert r address s other : is_active (set_state r address s) other ↔
  (other = address ∧ active s = true) ∨ (other ≠ address ∧ is_active r other).
Proof.
  unfold is_active, set_state. cbn. destruct (decide (other = address)) as [->|Hne].
  - rewrite lookup_insert_eq. naive_solver.
  - rewrite lookup_insert_ne by done. naive_solver.
Qed.

Lemma complete_active r address outcome other :
  is_active (complete r address outcome) other ↔ is_active r other.
Proof.
  unfold complete. destruct (states r !! address) as [s|] eqn:Hs; [|done].
  rewrite is_active_insert. cbn. unfold is_active.
  destruct (decide (other = address)) as [->|]; naive_solver.
Qed.

Lemma complete_captures r address outcome : captures (complete r address outcome) = captures r.
Proof. unfold complete. by destruct (states r !! address). Qed.

Lemma complete_states r address outcome other :
  is_Some (states (complete r address outcome) !! other) ↔ is_Some (states r !! other).
Proof.
  unfold complete. destruct (states r !! address) as [s|] eqn:Hs; [|done]. cbn.
  destruct (decide (other = address)) as [->|]; [rewrite lookup_insert_eq, Hs; naive_solver|].
  by rewrite lookup_insert_ne.
Qed.

Lemma bes_invariant_complete r l cl address outcome :
  bes_invariant (MkBesSystem r l cl) → bes_invariant (MkBesSystem (complete r address outcome) l cl).
Proof.
  intros [Hs Hl Hi Hc Ha]. cbn in *. constructor; cbn; rewrite ?complete_captures; try done.
  - intros id other Hid. rewrite complete_states. eauto.
  - intros other. by rewrite complete_active.
Qed.

Lemma bes_invariant_register r r' l cl id c :
  register r id = (r', Ok c) → bes_invariant (MkBesSystem r l cl) →
  bes_invariant (MkBesSystem r' (c :: l) cl).
Proof.
  unfold register. destruct (poisoned r); [done|].
  destruct (captures r !! id) eqn:Hid; [done|]. intros [= <- <-] [Hs Hl Hi Hc Ha]. cbn in *.
  set (address := fresh (dom (states r))).
  assert (states r !! address = None) as Hfresh by apply not_elem_of_dom, is_fresh.
  constructor; cbn.
  - intros id' a. destruct (decide (id' = id)) as [->|].
    + rewrite lookup_insert_eq. intros [= <-]. rewrite lookup_insert_eq. eauto.
    + rewrite lookup_insert_ne by done. intros Ha'%Hs. apply lookup_insert_is_Some'. by right.
  - intros c [->|Hc']%elem_of_cons; cbn; [by rewrite lookup_insert_eq|].
    apply Hl in Hc' as Hreg. rewrite lookup_insert_ne by congruence. done.
  - constructor; [|done]. intros (c & Heq & Hc')%list_elem_of_fmap.
    apply Hl in Hc'. by rewrite <- Heq, Hid in Hc'.
  - done.
  - intros a. rewrite Ha. unfold is_active. cbn. destruct (decide (a = address)) as [->|].
    + rewrite Hfresh, lookup_insert_eq. naive_solver.
    + by rewrite lookup_insert_ne.
Qed.

Lemma bes_invariant_remove r l1 l2 cl c :
  bes_invariant (MkBesSystem r (l1 ++ c :: l2) cl) →
  bes_invariant (MkBesSystem (remove r c) (l1 ++ l2) cl).
Proof.
  intros [Hs Hl Hi Hc Ha]. cbn in *.
  rewrite fmap_app, fmap_cons in Hi.
  assert (∀ d, d ∈ l1 ++ l2 → capture_invocation_id d ≠ capture_invocation_id c) as Hother.
  { intros d Hd Heq. apply NoDup_app in Hi as (_ & Hdisj & [Hnot _]%NoDup_cons).
    apply elem_of_app in Hd as [Hd|Hd].
    - apply (Hdisj (capture_invocation_id d)); [by apply list_elem_of_fmap_2|rewrite Heq; set_solver].
    - apply Hnot. rewrite <- Heq. by apply list_elem_of_fmap_2. }
  assert (NoDup (capture_invocation_id <$> l1 ++ l2)) as Hnd.
  { rewrite fmap_app. apply NoDup_app in Hi as (H1 & H2 & [_ H3]%NoDup_cons).
    apply NoDup_app. split_and!; [done| |done]. intros x Hx Hx'. apply (H2 x Hx). set_solver. }
  assert (∀ d, d ∈ l1 ++ l2 → d ∈ l1 ++ c :: l2) as Hsub by set_solver.
  unfold remove. destruct (poisoned r); [constructor; cbn; eauto|].
  case_bool_decide; [|constructor; cbn; eauto]. constructor; cbn; [|..|done|done|].
  - intros id a [_ Hid]%lookup_delete_Some. eauto.
  - intros d Hd. rewrite lookup_delete_ne by (symmetry; by apply Hother). auto.
  - done.
Qed.

Lemma bes_invariant_begin r r' l cl capture_id first outcome :
  ingest_begin r capture_id first = (r', outcome) → bes_invariant (MkBesSystem r l cl) →
  bes_invariant (MkBesSystem r' l (match outcome with Ok address => [address] | Err _ => [] end ++ cl)).
Proof.
  unfold ingest_begin. intros H Hinv.
  destruct (find_capture r capture_id first) as [address|status] eqn:Hfind;
    [|by injection H as <- <-].
  unfold find_capture in Hfind. inv_ok. pose proof Hinv as [Hs Hl Hi Hc Ha]. cbn in *.
  match goal with H : captures r !! _ = Some address |- _ => pose proof (Hs _ _ H) as [s Hst] end.
  rewrite Hst in H. destruct (active s) eqn:Hact; injection H as <- <-.
  { by apply bes_invariant_complete. }
  assert (address ∉ cl) as Hnot by (intros (s' & Hst' & Hact')%Ha; congruence).
  constructor; cbn; [|done|done|by constructor|].
  - intros id a Hid. apply lookup_insert_is_Some'. right. eauto.
  - intros a. rewrite is_active_insert, elem_of_cons, Ha. cbn.
    destruct (decide (a = address)); naive_solver.
Qed.

Lemma bes_reachable_invariant s : rtc bes_step bes_start s → bes_invariant s.
Proof.
  intros Hsteps. remember bes_start as start eqn:Hstart.
  assert (bes_invariant start) as Hinv.
  { subst. constructor; cbn; [done|set_solver|constructor|constructor|].
    intros a. split; [set_solver|]. by intros (s' & Hs' & _). }
  clear Hstart. induction Hsteps as [|s1 s2 s3 Hstep _ IH]; [done|]. apply IH. clear IH.
  destruct Hstep.
  - by eapply bes_invariant_register.
  - by apply bes_invariant_remove.
  - by eapply (bes_invariant_begin _ _ _ _ _ _ (Ok address)).
  - by eapply (bes_invariant_begin _ _ _ _ _ _ (Err status)).
  - by apply bes_invariant_complete.
Qed.

(** The bytes of the frames the receiver has accepted, in order. *)
Definition received_frames (trace : list Effect) : list (list Z) :=
  omap (fun item => match item with FrameItem frame => Some frame | FinishItem => None end)
    (accepted trace).

Lemma received_payloads bodies rest :
  omap (fun item => match item with FrameItem frame => Some frame | FinishItem => None end)
    (((FrameItem ∘ encode_frame) <$> bodies) ++ rest) =
  map encode_frame bodies ++
  omap (fun item => match item with FrameItem frame => Some frame | FinishItem => None end) rest.
Proof. induction bodies as [|b bodies IH]; [done|]. cbn. by rewrite <- IH. Qed.

(** C6: whatever the receiver and the client do, the effects of one stream
    follow the acknowledgement protocol, and so the [n]-th response carries
    sequence number [n] and is sent only after the receiver has accepted, in
    order, everything the first [n] requests contain. *)
Theorem capture_stream_protocol (receiver : list Effect → BesStreamEventKind → Delivery)
    (client_open : list Effect → bool) (display : Status → string)
    (first : Request) (input : list Poll) (trace : list Effect) (outcome : CaptureResult)
    (identity : StreamIdentity) :
  first_identity first = Ok identity →
  capture_stream receiver client_open display first input [] = (trace, outcome) →
  protocol (to_owned identity) (first :: messages input) trace ∧
  ∀ pre response post, trace = pre ++ Responded response :: post →
    response = ack (to_owned identity) (S (length (responses pre))) ∧
    items (take (S (length (responses pre))) (first :: messages input)) `prefix_of` accepted pre.
Proof.
  intros Hid H.
  destruct (capture_stream_invariant _ _ _ _ _ _ _ H) as [(e & He & _)|(i & Hi & Hp & _)];
    [congruence|]. rewrite Hid in Hi. injection Hi as <-. split; [done|].
  intros pre response post ->. apply (protocol_response_inv _ _ pre response).
  apply (protocol_prefix _ _ _ post). by rewrite <- app_assoc.
Qed.

(** C25: when a stream is captured successfully, the receiver has accepted the
    frames of all its payloads and then the end of the stream, every request has
    been acknowledged, the statistics are exact, and the accepted bytes decode,
    in any chunks and under the default limits of the BEP decoder, to the events
    of the payloads. *)
Theorem capture_stream_complete (receiver : list Effect → BesStreamEventKind → Delivery)
    (client_open : list Effect → bool) (display : Status → string)
    (first : Request) (input : list Poll) (trace : list Effect) (s : CaptureStats) :
  capture_stream receiver client_open display first input [] = (trace, Ok s) →
  ∃ identity before last, first_identity first = Ok identity ∧
    first :: messages input = before ++ [last] ∧
    accepted trace = ((FrameItem ∘ encode_frame) <$> payloads before) ++ [FinishItem] ∧
    responses trace = acks (to_owned identity) 0 (length (first :: messages input)) ∧
    s = MkStats (len (payloads before)) (total_len (payloads before)) ∧
    ∀ D I Event (decode_event : list Z → result D Event) capacity evs chunks,
      Forall2 (fun b e => decode_event b = Ok e) (payloads before) evs →
      Forall (.≠ []) chunks → concat chunks = concat (received_frames trace) →
      decode_stream_partial_bounded (I:=I) decode_event capacity (Ok <$> chunks)
        DEFAULT_MAX_FRAME_BYTES DEFAULT_MAX_STREAM_BYTES DEFAULT_MAX_STREAM_EVENTS
      = Some (MkPartialStream evs None).
Proof.
  intros H.
  destruct (capture_stream_invariant _ _ _ _ _ _ _ H) as [(e & _ & _ & [=])|(i & Hi & Hp & Hok)].
  destruct (Hok _ eq_refl) as (p & (Hsync & Hcount & _) & Hpf & Hfin & Hst).
  destruct Hsync as [_ _ Hitems _ Hlen]. rewrite Hpf in Hitems, Hlen. rewrite app_nil_r in Hitems.
  rewrite Nat.add_0_r in Hlen.
  destruct Hcount as [_ _ _ Hst' Hlim _ Hf]. rewrite Hfin in Hf.
  destruct Hf as (before & last & Hreq & Hlast & Hnf).
  assert (payload_of last = None) as Hpay.
  { destruct (item_payload last) as [[_ Hp']|Hp']; [done|]. rewrite Hlast in Hp'.
    by destruct (payload_of last). }
  assert (accepted trace = ((FrameItem ∘ encode_frame) <$> payloads before) ++ [FinishItem]) as Hacc.
  { rewrite Hitems, Hreq, items_app, items_unfinished by done. cbn. by rewrite Hlast. }
  rewrite Hreq in Hst', Hlim. unfold payload_limits in Hlim.
  rewrite (payloads_skip _ _ Hpay) in Hst', Hlim.
  exists i, before, last. split_and!; [done..| |congruence|].
  { rewrite Hlen. eapply protocol_responses, Hp. }
  intros D I Event decode_event capacity evs chunks Hdec Hne Hchunks.
  assert (received_frames trace = map encode_frame (payloads before)) as Hrec
    by (unfold received_frames; rewrite Hacc, received_payloads; by rewrite app_nil_r).
  destruct Hlim as (Hl1 & Hl2 & Hl3).
  apply (decode_stream_encoded _ _ _ _ _ (payloads before)); try done. by rewrite Hchunks, Hrec.
Qed.

(** A well-formed stream (one identity, sequence numbers from one, typed
    payloads within the limits, finished exactly at the end) is captured
    successfully when the receiver accepts every item and the client every
    response, however the polls of the input interleave. *)
Theorem capture_stream_accepts (receiver : list Effect → BesStreamEventKind → Delivery)
    (client_open : list Effect → bool) (display : Status → string)
    (first : Request) (input : list Poll) (id : StreamId) :
  (∀ trace kind, receiver trace kind = Acknowledged (Ok tt)) →
  (∀ trace, client_open trace = true) →
  well_formed id (first :: messages input) →
  Forall (fun poll => match poll with Fault _ => False | _ => True end) input →
  ∃ trace, capture_stream receiver client_open display first input [] =
    (trace, Ok (MkStats (len (payloads (first :: messages input)))
                        (total_len (payloads (first :: messages input))))).
Proof.
  intros Hr Hc Hwf Hpolls.
  destruct (to_owned_from_view id (wf_build_id _ _ Hwf) (wf_invocation_id _ _ Hwf)) as (identity & Hid & <-).
  destruct (wf_order _ _ Hwf 0%nat first eq_refl) as (ordered & Ho & Hsid & _).
  assert (first_identity first = Ok identity) as Hfirst.
  { unfold first_identity, ordered_event. rewrite Ho. cbn. by rewrite Hsid. }
  pose proof (invariant_start identity (first :: messages input)) as Hinv.
  destruct (loop_succeeds receiver client_open display Hr Hc identity (Message first :: input) []
    start_progress []) as (t1 & p1 & Hloop); [done..|by constructor|].
  destruct (capture_loop_invariant _ _ _ _ (first :: messages input) (Message first :: input) [] _ _ _ _
    Hinv eq_refl Hloop)
    as [_ Hok]. destruct (Hok _ eq_refl) as (Hs & Hcount & Hl).
  destruct (flush_succeeds receiver client_open Hr Hc p1 t1) as (t2 & p2 & Hflush & _).
  destruct (flush_synced _ _ _ _ _ _ _ _ _ Hs ltac:(lia) Hflush) as [_ Hok2].
  destruct (Hok2 _ eq_refl) as [_ Hp2].
  assert (saw_finished p1 = true) as Hfin.
  { destruct (saw_finished p1) eqn:Hfin; [done|]. pose proof (counted_finished _ _ _ Hcount) as Hf.
    rewrite Hfin in Hf. destruct (wf_finished _ _ Hwf) as (before & last & Hreq & Hlast & _).
    destruct Hf. rewrite Hreq, items_app. cbn. rewrite Hlast. set_solver. }
  exists t2. unfold capture_stream, lift, mbind, task_bind. rewrite Hfirst, Hloop, Hflush, Hp2.
  cbn [saw_finished stats]. rewrite Hfin. by rewrite (counted_stats _ _ _ Hcount).
Qed.

(** In every interleaving of registrations, drops and streams, a capture
    is claimed by at most one stream, a stream is refused exactly when the
    capture it finds has been claimed, and a capture that has not been dropped
    stays registered under its invocation. *)
Theorem bes_one_stream_per_capture (s : BesSystem) :
  rtc bes_step bes_start s →
  NoDup (claimed s) ∧
  (∀ c, c ∈ live s → captures (registry s) !! capture_invocation_id c = Some (capture_state c)) ∧
  ∀ capture_id first address, find_capture (registry s) capture_id first = Ok address →
    (ingest_begin (registry s) capture_id first).2 =
      if decide (address ∈ claimed s)
      then Err (MkStatus AlreadyExists "a BES stream is already active for this invocation")
      else Ok address.
Proof.
  intros [Hs Hl Hi Hc Ha]%bes_reachable_invariant. split_and!; [done..|].
  intros capture_id first address Hfind. unfold ingest_begin. rewrite Hfind.
  unfold find_capture in Hfind. inv_ok. destruct (Hs _ _ Hfind) as [st Hst]. rewrite Hst.
  case_decide as Hin; rewrite Ha in Hin; destruct (active st) eqn:Hact; try done.
  - destruct Hin as (st' & Hst' & Hact'). congruence.
  - destruct Hin. by exists st.
Qed.

(** ** Witnesses *)

Definition sample_id : StreamId := MkStreamId "build" "invocation" 0.
Definition sample_request (n : Z) (view : option EventView) : Request :=
  MkRequest (Some (MkOrdered (Some sample_id) n (Some (MkBuildEvent view)))).
Definition sample_any (bytes : list Z) : AnyView :=
  MkAny "type.googleapis.com/build_event_stream.BuildEvent" bytes.
Definition sample_first : Request := sample_request 1 (Some (BazelEvent (sample_any [7; 8]))).
Definition sample_input : list Poll :=
  [NotReady; Message (sample_request 2 (Some (BazelEvent (sample_any [9]))));
   Message (sample_request 3 None); NotReady;
   Message (sample_request 4 (Some (ComponentStreamFinished 1)))].
Definition sample_receiver (_ : list Effect) (_ : BesStreamEventKind) : Delivery :=
  Acknowledged (Ok tt).
Definition sample_client (_ : list Effect) : bool := true.
Definition sample_display (s : Status) : string := message s.
Definition sample_trace : list Effect :=
  let response n := Responded (MkResponse (Some sample_id) n) in
  [Forwarded (Frames [[2; 7; 8]]) (Acknowledged (Ok tt)); response 1;
   Forwarded (Frames [[1; 9]]) (Acknowledged (Ok tt)); response 2; response 3;
   Forwarded Finished (Acknowledged (Ok tt)); response 4].

Lemma sample_run :
  capture_stream sample_receiver sample_client sample_display sample_first sample_input []
  = (sample_trace, Ok (MkStats 2 3)).
Proof. vm_compute. reflexivity. Qed.

Lemma capture_stream_protocol_witness :
  protocol sample_id (sample_first :: messages sample_input) sample_trace.
Proof.
  exact (proj1 (capture_stream_protocol sample_receiver sample_client sample_display sample_first
    sample_input sample_trace (Ok (MkStats 2 3)) (MkIdentity "build" "invocation" 0)
    eq_refl sample_run)).
Defined.

Lemma capture_stream_complete_witness :
  ∃ identity : StreamIdentity,
    responses sample_trace = acks (to_owned identity) 0 4.
Proof.
  destruct (capture_stream_complete sample_receiver sample_client sample_display sample_first
    sample_input sample_trace (MkStats 2 3) sample_run)
    as (identity & before & last & Hid & Hreq & Hacc & Hresp & Hst & Hdec).
  exists identity. exact Hresp.
Defined.

Lemma sample_well_formed : well_formed sample_id (sample_first :: messages sample_input).
Proof.
  constructor; [done|done| | | |done|].
  - intros i request Hi. do 4 (destruct i as [|i]; [injection Hi as <-; by eexists|]). done.
  - repeat constructor; eexists _, _; (split_and!; [done..|]); cbn; auto.
    + split; [done|]. right. reflexivity.
    + split; [done|]. right. reflexivity.
  - split_and!; [|done|done]. by repeat constructor.
  - eexists [_; _; _], _. split_and!; [done..|]. cbn. set_solver.
Qed.

Lemma capture_stream_accepts_witness :
  ∃ trace, capture_stream sample_receiver sample_client sample_display sample_first sample_input []
    = (trace, Ok (MkStats 2 3)).
Proof.
  exact (capture_stream_accepts sample_receiver sample_client sample_display sample_first sample_input
    sample_id (fun _ _ => eq_refl) (fun _ => eq_refl) sample_well_formed
    ltac:(repeat constructor)).
Defined.

Definition sample_capture : BesCapture := MkBesCapture "invocation" (fresh (dom (∅ : gmap nat CaptureState))) true.
Definition sample_registered : Registry := (register (registry bes_start) "invocation").1.

Lemma bes_one_stream_per_capture_witness :
  (ingest_begin sample_registered None sample_first).2 = Ok (capture_state sample_capture).
Proof.
  refine (proj2 (proj2 (bes_one_stream_per_capture
    (MkBesSystem sample_registered [sample_capture] []) _)) None sample_first
    (capture_state sample_capture) _).
  - apply rtc_once. by eapply (bes_register _ _ _ _ "invocation").
  - reflexivity.
Defined.
