(* ===== verification/Capture.v ===== *)
(** * Live capture of build events (crates/bazel-mcp-runner/src/capture.rs)

    A capture feeds the bytes of the build event stream, in whatever chunks
    they arrive, through one pipeline: the incremental decoder, a durable writer
    that keeps the raw evidence, and the reduction.  A frame is written before
    the reduction sees its event.  When Bazel reports that its remote cache
    evicted an artifact (exit code 39) and starts over, the evidence starts over
    with it. *)

From S2P Require Import Prelude Collections Types Diagnostics Extension Bes Reduction Framing.

(** ** The reduction's subscriber *)

Record ReductionSubscriber : Type := MkSubscriber {
  accumulator : BepAccumulator;
  subscriber_decoded_bytes : Z;
  subscriber_event_count : Z;
}.

Definition new_accumulator (extension_limits : option (Z * Z)) : BepAccumulator :=
  match extension_limits with
  | None => default_accumulator
  | Some (max_events, max_bytes) => with_extension_events max_events max_bytes
  end.

Definition new_subscriber (extension_limits : option (Z * Z)) : ReductionSubscriber :=
  MkSubscriber (new_accumulator extension_limits) 0 0.

(** An event with the bytes of its frame ([BorrowedBepEvent]). *)
Definition BorrowedEvent : Type := Reduction.BepEvent * list Z.

Definition subscriber_observe (self : ReductionSubscriber) (event : BorrowedEvent) : ReductionSubscriber :=
  MkSubscriber (observe (accumulator self) event.1)
    (u64_add (subscriber_decoded_bytes self) (len event.2))
    (u64_add (subscriber_event_count self) 1).

Definition subscriber_outcome {D I} (self : ReductionSubscriber) : StreamOutcome D I :=
  MkOutcome (subscriber_event_count self) (subscriber_decoded_bytes self) None.

(** ** The durable writer

    The file is its bytes; the hasher is the bytes it was fed. The faults of
    the file system are a parameter: whether a write, a truncation or a flush
    of the file fails. *)

Class FileFaults (IoError : Type) : Type := {
  write_fault : list Z → list Z → option IoError;
  truncate_fault : list Z → option IoError;
  flush_fault : list Z → option IoError;
}.

Inductive DurableBepWriter : Type :=
| AlreadyPersisted (hasher : list Z) (bytes : Z)
| Append (file : list Z) (hasher : list Z) (bytes : Z).

Definition already_persisted : DurableBepWriter := AlreadyPersisted [] 0.
Definition append (file : list Z) : DurableBepWriter := Append file [] 0.

Definition writer_bytes (w : DurableBepWriter) : Z :=
  match w with AlreadyPersisted _ bytes | Append _ _ bytes => bytes end.
Definition writer_hashed (w : DurableBepWriter) : list Z :=
  match w with AlreadyPersisted hasher _ | Append _ hasher _ => hasher end.

Section capture.
Context {D I IoError : Type} `{Faults : FileFaults IoError}.
Context (decode_event : list Z → result D Reduction.BepEvent) (capacity : list Z → Z).
(** [io::Error::new(InvalidData, ..)], [io::Error::other] and the hash. *)
Context (invalid_data other_error : string → IoError) (blake3 : list Z → list Z).

(** [Ok] unless there is a fault. *)
Definition unless (fault : option IoError) : result IoError unit :=
  match fault with Some e => Err e | None => Ok tt end.

Definition commit (w : DurableBepWriter) (raw : list Z) : result IoError DurableBepWriter :=
  match w with
  | AlreadyPersisted hasher bytes => Ok (AlreadyPersisted (hasher ++ raw) (u64_add bytes (len raw)))
  | Append file hasher bytes =>
      _ ← unless (write_fault file raw);
      Ok (Append (file ++ raw) (hasher ++ raw) (u64_add bytes (len raw)))
  end.

Definition begin_retry (w : DurableBepWriter) : result IoError DurableBepWriter :=
  match w with
  | AlreadyPersisted _ _ => Ok w
  | Append file _ _ =>
      _ ← unless (flush_fault file);
      _ ← unless (truncate_fault file);
      Ok (Append [] [] 0)
  end.

Definition flush (w : DurableBepWriter) : result IoError unit :=
  match w with AlreadyPersisted _ _ => Ok tt | Append file _ _ => unless (flush_fault file) end.

Definition digest (w : DurableBepWriter) : list Z := blake3 (writer_hashed w).

(** ** The pipeline *)

(** The part of the state the visitor changes. *)
Record PipelineCore : Type := MkCore {
  durable : DurableBepWriter;
  reduction : ReductionSubscriber;
  saved_attempt : option ReductionSubscriber;
  expecting_retry : bool;
  pipeline_error : option IoError;
}.

Definition core_fail (e : IoError) (c : PipelineCore) : PipelineCore :=
  MkCore (durable c) (reduction c) (saved_attempt c) (expecting_retry c) (Some e).

Definition is_started (event : BorrowedEvent) : bool :=
  match payload event.1 with Some Started => true | _ => false end.
Definition is_remote_cache_evicted (event : BorrowedEvent) : bool :=
  match payload event.1 with Some (Reduction.Finished _ (Some code)) => code =? 39 | _ => false end.

Section visitor.
Context (extension_limits : option (Z * Z)).

(** The visitor of [ingest] from the retry test on, for a frame [raw]. *)
Definition visit_core (c : PipelineCore) (event : BorrowedEvent) (raw : list Z)
    : IncrementalStreamControl * PipelineCore :=
  let started := expecting_retry c && is_started event in
  match (if started then begin_retry (durable c) else Ok (durable c)) with
  | Err error => (Continue, core_fail error c)
  | Ok writer =>
      let saved := if started then None else saved_attempt c in
      let expecting := if started then false else expecting_retry c in
      match commit writer raw with
      | Err error => (Continue, MkCore writer (reduction c) saved expecting (Some error))
      | Ok writer =>
          let observed := subscriber_observe (reduction c) event in
          if is_remote_cache_evicted event
          then (ResetAfterFrame, MkCore writer (new_subscriber extension_limits) (Some observed) true None)
          else (Continue, MkCore writer observed saved expecting None)
      end
  end.

(** The visitor; its state is the core and [pending_raw]. *)
Definition pipeline_visitor (v : PipelineCore * list Z) (event : BorrowedEvent) (framed : list Z)
    : IncrementalStreamControl * (PipelineCore * list Z) :=
  let '(c, pending_raw) := v in
  match pipeline_error c with
  | Some _ => (Continue, v)
  | None =>
      if len pending_raw <? len framed
      then (Continue, (core_fail (invalid_data "BEP frame exceeded retained source bytes") c, pending_raw))
      else
        let raw := take (length framed) pending_raw in
        if bool_decide (raw ≠ framed)
        then (Continue, (core_fail (invalid_data "decoded BEP frame did not match retained source bytes") c,
                         pending_raw))
        else
          let '(control, c) := visit_core c event raw in
          (control, (c, match pipeline_error c with
                        | Some _ => pending_raw
                        | None => drop (length framed) pending_raw
                        end))
  end.
End visitor.

Record CapturePipeline : Type := MkPipeline {
  decoder : IncrementalStreamDecoder D I;
  core : PipelineCore;
  pending_raw : list Z;
  pipeline_limits : option (Z * Z);
}.

Definition new_pipeline (writer : DurableBepWriter) (extension_limits : option (Z * Z)) : CapturePipeline :=
  MkPipeline (new_decoder DEFAULT_MAX_FRAME_BYTES DEFAULT_MAX_STREAM_BYTES DEFAULT_MAX_STREAM_EVENTS)
    (MkCore writer (new_subscriber extension_limits) None false None) [] extension_limits.

Definition set_durable (w : DurableBepWriter) (c : PipelineCore) : PipelineCore :=
  MkCore w (reduction c) (saved_attempt c) (expecting_retry c) (pipeline_error c).

(** [event.frame_bytes()] goes with the decoded event. *)
Definition decode_borrowed (frame : list Z) : result D BorrowedEvent :=
  event ← decode_event frame; Ok (event, frame).

(** [ingest]; [None] would be the decoder running out of fuel. *)
Definition ingest (self : CapturePipeline) (input : list Z) : option (result IoError CapturePipeline) :=
  match input with
  | [] => Some (Ok self)
  | _ =>
      if is_terminal (decoder self) then
        Some (
          writer ← commit (durable (core self)) input;
          Ok (MkPipeline (decoder self) (set_durable writer (core self)) (pending_raw self) (pipeline_limits self)))
      else
        '(d, (c, raw)) ← push_frames decode_borrowed (pipeline_visitor (pipeline_limits self)) capacity
          (decoder self) (core self, pending_raw self ++ input) input;
        Some (
          match pipeline_error c with
          | Some error => Err error
          | None =>
              if is_terminal d && bool_decide (raw ≠ []) then
                writer ← commit (durable c) raw;
                Ok (MkPipeline d (set_durable writer c) [] (pipeline_limits self))
              else Ok (MkPipeline d c raw (pipeline_limits self))
          end)
  end.

Inductive BepReductionSource : Type := Incremental | Fifo | BesSource | PostHocFallback.

Record BepReduction : Type := MkReduction {
  reduction_accumulator : BepAccumulator;
  outcome : StreamOutcome D I;
  source : BepReductionSource;
}.

Record CapturePipelineOutput : Type := MkPipelineOutput {
  pipeline_reduction : BepReduction;
  durable_bytes : Z;
  durable_digest : list Z;
  final_writer : DurableBepWriter;
}.

(** [CapturePipeline::finish]; the writer is returned for what it left in the
    file. *)
Definition finish_pipeline (self : CapturePipeline) (source : BepReductionSource)
    : result IoError CapturePipelineOutput :=
  let c := core self in
  writer ← (if bool_decide (pending_raw self ≠ []) then commit (durable c) (pending_raw self) else Ok (durable c));
  _ ← flush writer;
  let decoder_outcome := Framing.finish (decoder self) in
  let '(subscriber, outcome) :=
    if expecting_retry c && (subscriber_event_count (reduction c) =? 0)
    then let saved := default (reduction c) (saved_attempt c) in (saved, subscriber_outcome saved)
    else (reduction c, decoder_outcome) in
  Ok (MkPipelineOutput (MkReduction (accumulator subscriber) outcome source)
        (writer_bytes writer) (digest writer) writer).

(** The bytes of successive reads through the pipeline. *)
Fixpoint ingest_all (self : CapturePipeline) (chunks : list (list Z)) : option (result IoError CapturePipeline) :=
  match chunks with
  | [] => Some (Ok self)
  | chunk :: rest =>
      r ← ingest self chunk;
      match r with Err error => Some (Err error) | Ok self => ingest_all self rest end
  end.

(** [pipeline.finish] after all reads. *)
Definition run_pipeline (writer : DurableBepWriter) (extension_limits : option (Z * Z)) (chunks : list (list Z))
    (source : BepReductionSource) : option (result IoError CapturePipelineOutput) :=
  r ← ingest_all (new_pipeline writer extension_limits) chunks;
  Some (self ← r; finish_pipeline self source).

(** ** The sources *)

(** [reduce_bep_file]: the reads of the file, or its absence. *)
Definition reduce_bep_file (file : option (list (list Z))) (extension_limits : option (Z * Z))
    : option (result IoError (BepAccumulator * StreamOutcome D I)) :=
  match file with
  | None => Some (Ok (default_accumulator, MkOutcome 0 0 None))
  | Some chunks =>
      r ← run_pipeline already_persisted extension_limits chunks PostHocFallback;
      Some (output ← r;
            Ok (reduction_accumulator (pipeline_reduction output), outcome (pipeline_reduction output)))
  end.

Definition post_hoc_reduction_file (file : option (list (list Z))) (extension_limits : option (Z * Z))
    : option (result IoError BepReduction) :=
  r ← reduce_bep_file file extension_limits;
  Some ('(a, o) ← r; Ok (MkReduction a o PostHocFallback)).

(** [tail_bep]: [chunks] is what the tail read until it was told to finish,
    [final] what the file holds then, and [later] the reads of it. *)
Definition tail_bep (chunks : list (list Z)) (extension_limits : option (Z * Z)) (final : list Z)
    (later : list (list Z)) : option (result IoError BepReduction) :=
  r ← run_pipeline already_persisted extension_limits chunks Incremental;
  match r with
  | Err error => Some (Err error)
  | Ok output =>
      if bool_decide (durable_bytes output = len final ∧ durable_digest output = blake3 final)
      then Some (Ok (pipeline_reduction output))
      else post_hoc_reduction_file (Some later) extension_limits
  end.

(** [read_fifo_bep] after its loop; the file is read back through another
    handle. *)
Definition read_fifo_bep (chunks : list (list Z)) (extension_limits : option (Z * Z)) (read_back : list Z)
    : option (result IoError BepReduction) :=
  r ← run_pipeline (append []) extension_limits chunks Fifo;
  Some (
    output ← r;
    _ ← reject_if (negb (durable_bytes output =? len read_back)
                   || bool_decide (durable_digest output ≠ blake3 read_back))
          (other_error "FIFO BEP evidence did not match captured bytes");
    Ok (pipeline_reduction output)).

(** [read_bes_bep]: the events of the channel until the stream is finished or
    the channel is closed. *)
Fixpoint read_bes_loop (self : CapturePipeline) (events : list BesStreamEventKind)
    : option (result IoError BepReduction) :=
  match events with
  | [] => Some (output ← finish_pipeline self BesSource; Ok (pipeline_reduction output))
  | Bes.Finished :: _ => Some (output ← finish_pipeline self BesSource; Ok (pipeline_reduction output))
  | Frames frames :: rest =>
      r ← ingest_all self frames;
      match r with Err error => Some (Err error) | Ok self => read_bes_loop self rest end
  end.
Definition read_bes_bep (events : list BesStreamEventKind) (extension_limits : option (Z * Z))
    : option (result IoError BepReduction) :=
  read_bes_loop (new_pipeline (append []) extension_limits) events.
End capture.

(** * Theorems *)

(** What a writer keeps of the stream. *)
Definition evidence (w : DurableBepWriter) : list Z :=
  match w with AlreadyPersisted hasher _ => hasher | Append file _ _ => file end.

(** The hash and the count are those of the kept bytes. *)
Definition writer_ok (w : DurableBepWriter) : Prop :=
  writer_hashed w = evidence w ∧ writer_bytes w = Z.min (len (evidence w)) u64_max.
Definition appends (w : DurableBepWriter) : bool :=
  match w with AlreadyPersisted _ _ => false | Append _ _ _ => true end.

Lemma writer_determined w1 w2 : writer_ok w1 → writer_ok w2 → appends w1 = appends w2 →
  evidence w1 = evidence w2 → w1 = w2.
Proof. destruct w1, w2; intros [H1 H2] [H3 H4]; cbn in *; congruence. Qed.

Section theory.
Context {D I IoError : Type} `{Faults : FileFaults IoError}.
Context (decode_event : list Z → result D Reduction.BepEvent) (capacity : list Z → Z).
Context (invalid_data other_error : string → IoError) (blake3 : list Z → list Z).
Context (limits : option (Z * Z)).

Abbreviation Decoder := (IncrementalStreamDecoder D I).
Abbreviation Core := (PipelineCore (IoError:=IoError)).
Abbreviation Pipeline := (CapturePipeline (D:=D) (I:=I) (IoError:=IoError)).
Abbreviation decode := (decode_borrowed decode_event).
Abbreviation visitor := (pipeline_visitor invalid_data limits).
Abbreviation visit_core := (visit_core limits).

Lemma commit_ok w raw w' : commit w raw = Ok w' →
  evidence w' = evidence w ++ raw ∧ appends w' = appends w ∧ (writer_ok w → writer_ok w').
Proof.
  pose proof (len_nonneg raw). destruct w as [h b|f h b]; cbn.
  - intros [= <-]. split_and!; [done|done|]. intros [H1 H2]. cbn in *.
    pose proof (len_nonneg h). unfold writer_ok. cbn. rewrite len_app. unfold u64_add. split; [done|lia].
  - destruct (unless _); cbn; [|done]. intros [= <-]. split_and!; [done|done|]. intros [H1 H2]. cbn in *.
    pose proof (len_nonneg f). unfold writer_ok. cbn. rewrite len_app, H1. unfold u64_add. split; [done|lia].
Qed.

Lemma begin_retry_ok w w' : begin_retry w = Ok w' →
  appends w' = appends w ∧ evidence w' = (if appends w then [] else evidence w) ∧ (writer_ok w → writer_ok w').
Proof.
  destruct w as [h b|f h b]; cbn; [by intros [= <-]|].
  destruct (unless (flush_fault f)); cbn; [|done]. destruct (unless _); cbn; [|done]. by intros [= <-].
Qed.

(** ** The visitor without the copy of the raw bytes

    [pending_raw] always starts with the frame that is visited, so the visitor
    acts on the frame itself.  The second component collects what a retry
    dropped. *)
Definition ghost_visitor (v : Core * list Z) (event : BorrowedEvent) (framed : list Z)
    : IncrementalStreamControl * (Core * list Z) :=
  let '(c, dropped) := v in
  match pipeline_error c with
  | Some _ => (Continue, v)
  | None =>
      let '(control, c') := visit_core c event framed in
      (control, (c', if expecting_retry c && is_started event && appends (durable c)
                     then dropped ++ evidence (durable c) else dropped))
  end.

Lemma visit_core_ok c event framed control c' :
  visit_core c event framed = (control, c') → pipeline_error c' = None →
  appends (durable c') = appends (durable c) ∧
  (writer_ok (durable c) → writer_ok (durable c')) ∧
  evidence (durable c') = (if expecting_retry c && is_started event && appends (durable c)
                           then [] else evidence (durable c)) ++ framed.
Proof.
  unfold Capture.visit_core.
  destruct (if expecting_retry c && is_started event then begin_retry (durable c) else Ok (durable c))
    as [w|e] eqn:Hw; [|by intros [= <- <-]].
  assert (appends w = appends (durable c) ∧ (writer_ok (durable c) → writer_ok w) ∧
    evidence w = if expecting_retry c && is_started event && appends (durable c)
                 then [] else evidence (durable c)) as (Ha & Hok & He).
  { destruct (expecting_retry c && is_started event); cbn.
    - apply begin_retry_ok in Hw as (? & ? & ?). done.
    - by injection Hw as <-. }
  destruct (commit w framed) as [w'|e] eqn:Hc; [|by intros [= <- <-]].
  apply commit_ok in Hc as (He' & Ha' & Hok').
  destruct (is_remote_cache_evicted event); intros [= <- <-] _; cbn; rewrite He', He, Ha', Ha; auto.
Qed.

(** One call of the visitor on a state that has the frame next. *)
Lemma visitor_ghost c rest event framed dropped :
  pipeline_error c = None →
  ∃ control c' raw' dropped',
    visitor (c, framed ++ rest) event framed = (control, (c', raw')) ∧
    ghost_visitor (c, dropped) event framed = (control, (c', dropped')) ∧
    (pipeline_error c' = None → raw' = rest ∧
       dropped ++ evidence (durable c) ++ framed ++ rest = dropped' ++ evidence (durable c') ++ raw' ∧
       appends (durable c') = appends (durable c) ∧ (writer_ok (durable c) → writer_ok (durable c'))).
Proof.
  intros Hc. unfold pipeline_visitor, ghost_visitor. rewrite Hc, len_app.
  rewrite (proj2 (Z.ltb_ge _ _)) by (pose proof (len_nonneg rest); lia).
  rewrite take_app_length, drop_app_length, bool_decide_false by (intros H; by apply H).
  destruct (visit_core c event framed) as [control c'] eqn:Hv. do 4 eexists. split; [done|]. split; [done|].
  intros He. rewrite He. destruct (visit_core_ok _ _ _ _ _ Hv He) as (Ha & Hok & Hev). split; [done|].
  split; [|done]. rewrite Hev.
  destruct (expecting_retry c && is_started event && appends (durable c)); cbn [app]; by rewrite <- !app_assoc.
Qed.

(** ** The pipeline against the ghost visitor *)

Abbreviation drains := (drains decode (I:=I)).

Lemma drains_sticky (d : Decoder) v bs d' v' :
  drains visitor d v bs d' v' → pipeline_error v.1 ≠ None → v' = v.
Proof.
  induction 1 as [| | | |d v bs p f d1 v1 d' v' Ht Hi Hv Hd IH]; intros Hc; [done..|].
  assert (v1 = v) as ->; [|by apply IH].
  unfold decode_frame, visit_decoded_frame in Hv. do 2 (case_match; [by injection Hv as <- <-|]).
  destruct (decode_borrowed _ _) as [event|]; cbn [mbind result_bind] in Hv; [|by injection Hv as <- <-].
  destruct v as [c raw]. cbn [fst] in Hc. unfold pipeline_visitor in Hv.
  destruct (pipeline_error c); [by injection Hv as <- <-|done].
Qed.

Lemma stopped_drains {V} (w : V → BorrowedEvent → list Z → IncrementalStreamControl * V)
    (d : Decoder) v bs d' v' :
  is_terminal d = true → drains w d v bs d' v' → d' = d ∧ v' = v.
Proof. intros Ht. inversion 1; simplify_eq; try congruence; done. Qed.

(** The visits of the two visitors go together. *)
Lemma visit_together (d : Decoder) c rest dropped frame framed d1 v1 :
  pipeline_error c = None →
  decode_frame decode visitor d (c, framed ++ rest) frame framed = (d1, v1) →
  ∃ dropped1, decode_frame decode ghost_visitor d (c, dropped) frame framed = (d1, (v1.1, dropped1)) ∧
    (is_terminal d1 = true ∧ v1 = (c, framed ++ rest) ∧ dropped1 = dropped ∨
     (pipeline_error v1.1 = None → v1.2 = rest ∧
        dropped ++ evidence (durable c) ++ framed ++ rest = dropped1 ++ evidence (durable v1.1) ++ v1.2 ∧
        appends (durable v1.1) = appends (durable c) ∧ (writer_ok (durable c) → writer_ok (durable v1.1)))).
Proof.
  intros Hc. unfold decode_frame, visit_decoded_frame.
  case_match. { intros [= <- <-]. exists dropped. split; [done|]. by left. }
  case_match. { intros [= <- <-]. exists dropped. split; [done|]. by left. }
  destruct (decode frame) as [event|e]; cbn [mbind result_bind].
  2: { intros [= <- <-]. exists dropped. split; [done|]. by left. }
  destruct (visitor_ghost c rest event framed dropped Hc) as (control & c' & raw' & dropped' & -> & -> & Hok).
  destruct control; intros [= <- <-]; exists dropped'; (split; [done|]; by right).
Qed.

Lemma drains_together (d : Decoder) v bs d' v' :
  drains visitor d v bs d' v' → pipeline_error v.1 = None → v.2 = bs → pipeline_error v'.1 = None →
  ∀ dropped, ∃ dropped', drains ghost_visitor d (v.1, dropped) bs d' (v'.1, dropped') ∧
    dropped ++ evidence (durable v.1) ++ bs = dropped' ++ evidence (durable v'.1) ++ v'.2 ∧
    appends (durable v'.1) = appends (durable v.1) ∧ (writer_ok (durable v.1) → writer_ok (durable v'.1)) ∧
    (is_terminal d' = false → v'.2 = pending d').
Proof.
  induction 1 as [d v bs Ht|d v bs Ht Hi|d v bs total Ht Hi|d v bs e Ht Hi
    |d v bs p f d1 v1 d' v' Ht Hi Hv Hd IH]; intros Hc Hraw He dropped.
  - exists dropped. rewrite Hraw. split_and!; [by constructor|done|done|done|congruence].
  - exists dropped. rewrite Hraw. split_and!; [by constructor|done..].
  - exists dropped. rewrite Hraw. split_and!; [by econstructor|done..].
  - exists dropped. rewrite Hraw. split_and!; [by constructor|done..].
  - destruct v as [c raw]. cbn [fst snd] in Hc, Hraw. subst raw.
    pose proof (inspect_frame_Complete _ _ _ _ Hi) as Hcomplete.
    set (framed := slice bs 0 (u64_add p f)) in *. set (rest := drop (Z.to_nat (u64_add p f)) bs) in *.
    assert (bs = framed ++ rest) as Hbs.
    { unfold framed, rest, slice. cbn [Z.to_nat]. rewrite drop_0, Z.sub_0_r. by rewrite take_drop. }
    rewrite Hbs in Hv at 1.
    destruct (visit_together d c rest dropped _ framed d1 v1 Hc Hv) as (dropped1 & Hghost & Hcase).
    destruct Hcase as [(Ht1 & -> & ->)|Hok].
    + destruct (stopped_drains _ _ _ _ _ _ Ht1 Hd) as [-> ->]. exists dropped.
      split_and!; [|by rewrite Hbs|done|done|congruence].
      eapply drains_frame; [done|done|exact Hghost|by constructor].
    + destruct (pipeline_error v1.1) eqn:He1.
      { apply drains_sticky in Hd; [|congruence]. congruence. }
      destruct (Hok eq_refl) as (Hraw1 & Htotal & Ha & Hw).
      destruct (IH eq_refl Hraw1 He dropped1) as (dropped' & Hd' & Htotal' & Ha' & Hw' & Hpend).
      exists dropped'. split_and!; [|by rewrite Hbs; cbn [fst]; rewrite Htotal, Hraw1|cbn; congruence|cbn; tauto|done].
      eapply drains_frame; [done|done|exact Hghost|]. exact Hd'.
Qed.

(** ** What the pipeline has done with the bytes it was given *)

Context (writer0 : DurableBepWriter) (Hwriter0 : writer_ok writer0 ∧ evidence writer0 = []).
Abbreviation start := (new_pipeline (D:=D) (I:=I) (IoError:=IoError) writer0 limits).
Abbreviation ingest := (ingest decode_event capacity invalid_data).
Abbreviation ingest_all := (ingest_all decode_event capacity invalid_data).

Definition same_attempt (c1 c2 : Core) : Prop :=
  reduction c1 = reduction c2 ∧ saved_attempt c1 = saved_attempt c2 ∧ expecting_retry c1 = expecting_retry c2.

Record Captured (total : list Z) (self : Pipeline) (d : Decoder) (c : Core) (dropped : list Z) : Prop := {
  cap_limits : pipeline_limits self = limits;
  cap_drains : drains ghost_visitor (decoder start) (core start, []) total d (c, dropped);
  cap_decoder : decoder self ≡ d;
  cap_attempt : same_attempt (core self) c;
  cap_total : total = dropped ++ evidence (durable (core self)) ++ pending_raw self;
  cap_writer : writer_ok (durable (core self)) ∧ appends (durable (core self)) = appends writer0;
  cap_error : pipeline_error (core self) = None ∧ pipeline_error c = None;
  cap_pending : if is_terminal (decoder self) then pending_raw self = []
                else core self = c ∧ pending_raw self = pending (decoder self);
}.

Lemma captured_start : Captured [] start (decoder start) (core start) [].
Proof.
  destruct Hwriter0 as [Hok He]. split; cbn; try done.
  - by apply drains_nil.
  - by rewrite He.
Qed.

Lemma terminal_eqv (d d' : Decoder) : d ≡ d' → is_terminal d = is_terminal d'.
Proof. destruct d, d'. intros [H1 _]. unfold set_pending in H1. cbn in *. by injection H1 as -> -> -> -> -> ->. Qed.

Lemma captured_waiting total self d c dropped : Captured total self d c dropped → waiting (decoder self).
Proof.
  intros Hcap. eapply waiting_eqv; [symmetry; apply Hcap|]. eapply drains_waiting, Hcap.
Qed.

Lemma stopped_eqv (d d' : Decoder) : d ≡ d' → is_terminal d = true → d ≡ set_pending [] d'.
Proof.
  intros [H1 _] Ht. split; [done|]. intros Hnone. unfold is_terminal in Ht. by rewrite Hnone in Ht.
Qed.

(** Bytes after the decoder has stopped are only kept. *)
Lemma captured_stopped total self d c dropped input writer :
  Captured total self d c dropped → is_terminal (decoder self) = true →
  commit (durable (core self)) input = Ok writer →
  Captured (total ++ input) (MkPipeline (decoder self) (set_durable writer (core self)) (pending_raw self)
    (pipeline_limits self)) (set_pending [] d) c dropped.
Proof.
  intros [H1 H2 H3 H4 H5 [H6 H6'] [H7 H7'] H8] Ht Hc. rewrite Ht in H8.
  apply commit_ok in Hc as (He & Ha & Hok). split; cbn; try done.
  - eapply drains_app; [exact H2|done|]. apply drains_stop. change (is_terminal d = true). by rewrite <- (terminal_eqv _ _ H3).
  - by apply stopped_eqv.
  - rewrite He, H5, H8, !app_nil_r. by rewrite <- !app_assoc.
  - split; [by apply Hok|congruence].
  - by rewrite Ht.
Qed.

(** A chunk goes through the decoder. *)
Lemma captured_push total self d c dropped input d2 c2 raw2 :
  Captured total self d c dropped → is_terminal (decoder self) = false →
  push_frames decode visitor capacity (decoder self) (core self, pending_raw self ++ input) input
    = Some (d2, (c2, raw2)) → pipeline_error c2 = None →
  ∃ d2' dropped2, drains ghost_visitor (decoder start) (core start, []) (total ++ input) d2' (c2, dropped2) ∧
    d2 ≡ d2' ∧ total ++ input = dropped2 ++ evidence (durable c2) ++ raw2 ∧
    writer_ok (durable c2) ∧ appends (durable c2) = appends writer0 ∧
    (is_terminal d2 = false → raw2 = pending d2).
Proof.
  intros Hcap Ht Hpush Herr. pose proof (captured_waiting _ _ _ _ _ Hcap) as Hwait.
  destruct Hcap as [_ H2 H3 _ H5 [H6 H6'] [H7 _] H8]. rewrite Ht in H8. destruct H8 as [Hcore Hpend].
  destruct (push_frames_drains _ _ _ _ _ _ _ _ Ht Hwait Hpush) as (d2' & Hd & Heqv).
  apply drains_together with (dropped := dropped) in Hd as (dropped2 & Hghost & Htotal & Ha & Hw & Hp2);
    cbn [fst snd] in *; [|done|by rewrite Hpend|done].
  exists d2', dropped2. destruct H3 as [Hset Hsame]. split_and!; [|done| |by apply Hw|congruence|].
  - eapply drains_app; [exact H2|done|]. rewrite <- Hset, <- Hsame, <- Hcore by (unfold is_terminal in Ht; by case_match).
    exact Hghost.
  - rewrite <- Htotal, H5, Hpend, <- !app_assoc. done.
  - intros Ht2. rewrite Hp2 by (by rewrite <- (terminal_eqv _ _ Heqv)).
    destruct Heqv as [_ Hp]. symmetry. apply Hp. unfold is_terminal in Ht2. by case_match.
Qed.

Lemma captured_ingest total self d c dropped input self' :
  Captured total self d c dropped → ingest self input = Some (Ok self') →
  ∃ d' c' dropped', Captured (total ++ input) self' d' c' dropped'.
Proof.
  intros Hcap. unfold Capture.ingest. destruct (decide (input = [])) as [->|Hne].
  { intros [= <-]. rewrite app_nil_r. by exists d, c, dropped. }
  assert (∀ A (x y : A), match input with [] => x | _ => y end = y) as -> by (by destruct input). destruct (is_terminal (decoder self)) eqn:Ht.
  { destruct (commit _ _) as [writer|] eqn:Hc; cbn; [|done]. intros [= <-].
    do 3 eexists. by eapply captured_stopped. }
  destruct (push_frames _ _ _ _ _ _) as [[d2 [c2 raw2]]|] eqn:Hpush; cbn [mbind option_bind]; [|done].
  rewrite (cap_limits _ _ _ _ _ Hcap) in Hpush |- *. destruct (pipeline_error c2) eqn:Herr; [done|].
  destruct (captured_push _ _ _ _ _ _ _ _ _ Hcap Ht Hpush Herr)
    as (d2' & dropped2 & Hghost & Heqv & Htotal & Hok & Ha & Hp).
  destruct (is_terminal d2 && bool_decide (raw2 ≠ [])) eqn:Hrest.
  - apply andb_true_iff in Hrest as [Ht2 _].
    destruct (commit (durable c2) raw2) as [writer|] eqn:Hc; cbn; [|done]. intros [= <-].
    apply commit_ok in Hc as (He & Ha' & Hok'). exists d2', c2, dropped2. split; cbn; try done.
    + by rewrite He, app_nil_r.
    + split; [by apply Hok'|congruence].
    + by rewrite Ht2.
  - intros [= <-]. exists d2', c2, dropped2. split; cbn; try done.
    destruct (is_terminal d2) eqn:Ht2; [|by split; [|apply Hp]]. cbn in Hrest.
    apply bool_decide_eq_false in Hrest. by apply dec_stable.
Qed.

Lemma captured_all chunks total self d c dropped self' :
  Captured total self d c dropped → ingest_all self chunks = Some (Ok self') →
  ∃ d' c' dropped', Captured (total ++ concat chunks) self' d' c' dropped'.
Proof.
  revert total self d c dropped. induction chunks as [|chunk chunks IH]; intros total self d c dropped Hcap;
    cbn [Capture.ingest_all concat].
  { intros [= <-]. rewrite app_nil_r. by exists d, c, dropped. }
  destruct (ingest self chunk) as [[self1|]|] eqn:H1; cbn [mbind option_bind]; [|done..].
  destruct (captured_ingest _ _ _ _ _ _ _ Hcap H1) as (d1 & c1 & dropped1 & Hcap1).
  rewrite app_assoc. by eapply IH.
Qed.

(** ** Finishing *)

Abbreviation run_pipeline := (run_pipeline (D:=D) (I:=I) decode_event capacity invalid_data blake3).
Abbreviation finish_pipeline := (finish_pipeline (D:=D) (I:=I) blake3).

(** The reduction of the attempt that counts. *)
Definition attempt_result (d : Decoder) (c : Core) (source : BepReductionSource) : BepReduction (D:=D) (I:=I) :=
  if expecting_retry c && (subscriber_event_count (reduction c) =? 0)
  then MkReduction (accumulator (default (reduction c) (saved_attempt c)))
         (subscriber_outcome (default (reduction c) (saved_attempt c))) source
  else MkReduction (accumulator (reduction c)) (Framing.finish d) source.

Lemma finish_captured total self d c dropped source output :
  Captured total self d c dropped → finish_pipeline self source = Ok output →
  total = dropped ++ evidence (final_writer output) ∧ writer_ok (final_writer output) ∧
  appends (final_writer output) = appends writer0 ∧
  pipeline_reduction output = attempt_result d c source ∧
  durable_bytes output = writer_bytes (final_writer output) ∧
  durable_digest output = blake3 (evidence (final_writer output)).
Proof.
  intros [_ _ H3 (Hr & Hs & He) H5 [H6 H6'] _ _]. unfold Capture.finish_pipeline.
  intros (writer & Hw & H)%bind_Ok_inv. apply bind_Ok_inv in H as ([] & _ & H).
  assert (evidence writer = evidence (durable (core self)) ++ pending_raw self ∧
    writer_ok writer ∧ appends writer = appends writer0) as (Hev & Hok & Ha).
  { case_bool_decide as Hp.
    - apply commit_ok in Hw as (? & ? & ?). split_and!; [done|tauto|congruence].
    - injection Hw as <-. by rewrite Hp, app_nil_r. }
  rewrite Hr, Hs, He, H3 in H. unfold attempt_result.
  destruct (expecting_retry c && _); injection H as <-; cbn; rewrite H5, Hev;
    (split_and!; [done..|]; unfold digest; by rewrite (proj1 Hok), Hev).
Qed.

Lemma run_captured chunks source output :
  run_pipeline writer0 limits chunks source = Some (Ok output) →
  ∃ d c dropped, drains ghost_visitor (decoder start) (core start, []) (concat chunks) d (c, dropped) ∧
    pipeline_error c = None ∧ concat chunks = dropped ++ evidence (final_writer output) ∧ writer_ok (final_writer output) ∧
    appends (final_writer output) = appends writer0 ∧
    pipeline_reduction output = attempt_result d c source ∧
    durable_bytes output = writer_bytes (final_writer output) ∧
    durable_digest output = blake3 (evidence (final_writer output)).
Proof.
  unfold Capture.run_pipeline. destruct (ingest_all start chunks) as [[self|]|] eqn:Hall; cbn; [|done..].
  intros [= Hfinish]. destruct (captured_all _ _ _ _ _ _ _ captured_start Hall) as (d & c & dropped & Hcap).
  cbn [app] in Hcap. exists d, c, dropped. split; [apply Hcap|]. split; [apply Hcap|]. by eapply finish_captured.
Qed.

(** No sequence of chunks makes the decoder run out of fuel. *)
Lemma ingest_total (self : Pipeline) input : is_Some (ingest self input).
Proof.
  unfold Capture.ingest. destruct input as [|byte rest]; [by eexists|].
  destruct (is_terminal (decoder self)); [by eexists|].
  destruct (push_frames_Some decode (pipeline_visitor invalid_data (pipeline_limits self)) capacity (decoder self)
    (core self, pending_raw self ++ byte :: rest) (byte :: rest)) as (d & [c raw] & ->). by eexists.
Qed.

Lemma run_total chunks source : is_Some (run_pipeline writer0 limits chunks source).
Proof.
  unfold Capture.run_pipeline. generalize start. induction chunks as [|chunk chunks IH]; intros self; [by eexists|].
  cbn [Capture.ingest_all]. destruct (ingest_total self chunk) as [[self'|e] ->]; cbn [mbind option_bind]; [apply IH|].
  by eexists.
Qed.

(** ** A stream of whole frames *)

Definition not_evicted (event : Reduction.BepEvent) : Prop := is_remote_cache_evicted (event, []) = false.

Lemma not_evicted_frame event frame : not_evicted event → is_remote_cache_evicted (event, frame) = false.
Proof. done. Qed.

Lemma ghost_plain_frame c dropped event frame framed control c' dropped' :
  not_evicted event → expecting_retry c = false → pipeline_error c = None →
  ghost_visitor (c, dropped) (event, frame) framed = (control, (c', dropped')) →
  dropped' = dropped ∧ control = Continue ∧
  (pipeline_error c' = None → reduction c' = subscriber_observe (reduction c) (event, frame) ∧
     expecting_retry c' = false).
Proof.
  intros Hn Hexp Herr. unfold ghost_visitor. rewrite Herr. unfold Capture.visit_core. rewrite Hexp. cbn [andb].
  destruct (commit (durable c) framed); [|by intros [= <- <- <-]].
  rewrite not_evicted_frame by done. by intros [= <- <- <-].
Qed.

Lemma ghost_sticky (d : Decoder) v bs d' v' :
  drains ghost_visitor d v bs d' v' → pipeline_error v.1 ≠ None → v' = v.
Proof.
  induction 1 as [| | | |d v bs p f d1 v1 d' v' Ht Hi Hv Hd IH]; intros Hc; [done..|].
  assert (v1 = v) as ->; [|by apply IH].
  unfold decode_frame, visit_decoded_frame in Hv. do 2 (case_match; [by injection Hv as <- <-|]).
  destruct (decode_borrowed _ _) as [event|]; cbn [mbind result_bind] in Hv; [|by injection Hv as <- <-].
  destruct v as [c raw]. cbn [fst] in Hc. unfold ghost_visitor in Hv.
  destruct (pipeline_error c); [by injection Hv as <- <-|done].
Qed.

Lemma encoded_slices b rest :
  let p := len (write_varint (len b)) in
  slice (encode_frame b ++ rest) p (p + len b) = b ∧
  drop (Z.to_nat (p + len b)) (encode_frame b ++ rest) = rest.
Proof.
  intros p. split.
  - unfold slice, encode_frame, p, len. rewrite <- app_assoc, Nat2Z.id, drop_app_length.
    rewrite take_app_le by lia. apply take_ge. lia.
  - replace (Z.to_nat (p + len b)) with (length (encode_frame b)); [apply drop_app_length|].
    unfold p. rewrite <- len_encode_frame. unfold len. lia.
Qed.

(** The decoder after a frame that was let through. *)
Definition after_frame (b : list Z) (d : Decoder) : Decoder :=
  set_counts (decoded_bytes d + len b) (Framing.event_count d + 1) d.

(** The visit of a frame there is room for. *)
Lemma visit_plain_frame (d : Decoder) c dropped b e framed bodies d1 c1 dropped1 :
  room_for d (b :: bodies) → decode_event b = Ok e → not_evicted e →
  expecting_retry c = false → pipeline_error c = None →
  decode_frame decode ghost_visitor d (c, dropped) b framed = (d1, (c1, dropped1)) →
  dropped1 = dropped ∧ d1 = after_frame b d ∧ room_for d1 bodies ∧
  (pipeline_error c1 = None → expecting_retry c1 = false ∧
     accumulator (reduction c1) = observe (accumulator (reduction c)) e).
Proof.
  intros (Ht & Hp & Hdb & Hec & Hx & Hms & Hme & Hl & Hs & He) Hb Hn Hexp Herr.
  apply Forall_cons in Hl as [Hlb Hl]. cbn [total_len foldr] in Hs. fold (total_len bodies) in Hs.
  rewrite len_cons in He. pose proof (len_nonneg b). pose proof (len_nonneg bodies).
  pose proof (total_len_nonneg bodies). unfold decode_frame, visit_decoded_frame.
  rewrite !u64_add_exact by lia.
  rewrite (proj2 (Z.ltb_ge _ _)), (proj2 (Z.leb_gt _ _)) by lia.
  unfold decode_borrowed. rewrite Hb. cbn [mbind result_bind].
  destruct (ghost_visitor (c, dropped) (e, b) framed) as [control [c' dropped']] eqn:Hg.
  destruct (ghost_plain_frame _ _ _ _ _ _ _ _ Hn Hexp Herr Hg) as (-> & -> & Hok).
  intros [= <- <- <-]. split_and!; [done| | |].
  - unfold after_frame. cbn. by rewrite u64_add_exact by lia.
  - repeat split; cbn; rewrite ?u64_add_exact by lia; try done; lia.
  - intros Hc. destruct (Hok Hc) as [-> ->]. done.
Qed.

Lemma ghost_encoded (d : Decoder) c dropped bodies events d' c' dropped' :
  room_for d bodies → Forall2 (fun b e => decode_event b = Ok e) bodies events → Forall not_evicted events →
  expecting_retry c = false → pipeline_error c = None → pipeline_error c' = None →
  drains ghost_visitor d (c, dropped) (concat (map encode_frame bodies)) d' (c', dropped') →
  dropped' = dropped ∧ expecting_retry c' = false ∧
  accumulator (reduction c') = foldl observe (accumulator (reduction c)) events ∧
  terminal_error d' = None ∧ pending d' = [] ∧
  Framing.event_count d' = Framing.event_count d + len bodies.
Proof.
  intros Hr Hd. revert d c dropped Hr.
  induction Hd as [|b e bodies events Hb Hd IH]; intros d c dropped Hr Hn Hexp Herr Herr'; cbn [map concat].
  { destruct Hr as (Ht & Hp & _). assert (terminal_error d = None) by (unfold is_terminal in Ht; by case_match).
    inversion 1; simplify_eq; try congruence; try done; cbn; rewrite ?Z.add_0_r; done. }
  apply Forall_cons in Hn as [Hne Hn]. pose proof Hr as (Ht & _ & _ & _ & Hx & _ & _ & Hl & _ & _).
  apply Forall_cons in Hl as [Hlb _].
  pose proof (inspect_frame_encoded (D:=D) (I:=I) b (concat (map encode_frame bodies)) (max_frame_bytes d) Hlb Hx) as Hi.
  intros Hdrains. pose proof (write_varint_short (len b)). pose proof (len_nonneg (write_varint (len b))).
  pose proof (len_nonneg b).
  inversion Hdrains as [| | | |d0 v0 bs p f d1 [c1 dropped1] ? ? _ Hi' Hv Hrest]; simplify_eq; try congruence.
  rewrite Hi in Hi'. injection Hi' as <- <-. rewrite !u64_add_exact in Hv, Hrest by lia.
  destruct (encoded_slices b (concat (map encode_frame bodies))) as [Hs1 Hs2]. rewrite Hs1 in Hv. rewrite Hs2 in Hrest.
  destruct (visit_plain_frame _ _ _ _ _ _ _ _ _ _ Hr Hb Hne Hexp Herr Hv) as (-> & -> & Hr1 & Hc1).
  destruct (pipeline_error c1) eqn:Herr1.
  { apply ghost_sticky in Hrest; [|cbn; congruence]. injection Hrest as -> ->. congruence. }
  destruct (Hc1 eq_refl) as [Hexp1 Hacc].
  destruct (IH _ _ _ Hr1 Hn Hexp1 Herr1 Herr' Hrest) as (-> & E1 & E2 & E3 & E4 & E5).
  split_and!; [done|done| |done|done|].
  - cbn [foldl]. by rewrite E2, Hacc.
  - rewrite E5, len_cons. cbn. lia.
Qed.

(** What a capture keeps, reduces and reports depends only on the bytes of
    the stream: two runs that received the same bytes in different chunks and
    met no I/O error end with the same evidence file, the same hash, the same
    reduction and the same outcome. *)
Theorem capture_chunking_irrelevant chunks1 chunks2 source output1 output2 :
  concat chunks1 = concat chunks2 →
  run_pipeline writer0 limits chunks1 source = Some (Ok output1) →
  run_pipeline writer0 limits chunks2 source = Some (Ok output2) → output1 = output2.
Proof.
  intros Heq (d1 & c1 & x1 & D1 & _ & T1 & W1 & A1 & R1 & B1 & G1)%run_captured
    (d2 & c2 & x2 & D2 & _ & T2 & W2 & A2 & R2 & B2 & G2)%run_captured.
  rewrite <- Heq in D2. destruct (drains_det _ _ _ _ _ _ _ _ _ D1 D2) as [-> [= -> ->]].
  assert (evidence (final_writer output1) = evidence (final_writer output2)) as Hev.
  { apply (app_inv_head x2). by rewrite <- T1, <- T2, Heq. }
  assert (final_writer output1 = final_writer output2) as Hw by (apply writer_determined; congruence).
  destruct output1, output2. cbn in *. congruence.
Qed.
End theory.

Section evidence.
Context {D I IoError : Type} `{Faults : FileFaults IoError}.
Context (decode_event : list Z → result D Reduction.BepEvent) (capacity : list Z → Z).
Context (invalid_data other_error : string → IoError) (blake3 : list Z → list Z).
Context (limits : option (Z * Z)).
Abbreviation run := (run_pipeline (D:=D) (I:=I) decode_event capacity invalid_data blake3 (append []) limits).

Lemma append_ok : writer_ok (append []) ∧ evidence (append []) = [].
Proof. done. Qed.

(** The evidence file of a capture that met no I/O error holds exactly the
    bytes received since the last attempt that was abandoned (all of them, when
    none was), and the file read back passes the check of its length and
    hash. *)
Theorem capture_keeps_evidence chunks source output :
  run chunks source = Some (Ok output) →
  ∃ abandoned file, final_writer output = Append file file (durable_bytes output) ∧
    concat chunks = abandoned ++ file ∧
    (len file < u64_max → source = Fifo →
     read_fifo_bep decode_event capacity invalid_data other_error blake3 chunks limits file
     = Some (Ok (pipeline_reduction output))).
Proof.
  intros Hrun. pose proof Hrun as (d & c & dropped & _ & _ & Htotal & [Hh Hb] & Ha & _ & Hbytes & Hdigest)
    %run_captured; [|apply append_ok].
  destruct (final_writer output) as [h b|file h b] eqn:Hw; [done|]. cbn in *. subst h b.
  exists dropped, file. rewrite Hbytes. split_and!; [done|done|]. intros Hlen ->. unfold read_fifo_bep.
  rewrite Hrun. cbn. rewrite Hbytes, Hdigest. rewrite bool_decide_false by tauto.
  pose proof (len_nonneg file). rewrite Z.min_l, Z.eqb_refl by lia. done.
Qed.

Lemma forget_new_accumulator : forget (new_accumulator limits) = default_accumulator.
Proof. by destruct limits as [[]|]. Qed.

Lemma room_for_new bodies :
  Forall (fun b => len b ≤ DEFAULT_MAX_FRAME_BYTES) bodies →
  total_len bodies ≤ DEFAULT_MAX_STREAM_BYTES → len bodies ≤ DEFAULT_MAX_STREAM_EVENTS →
  room_for (D:=D) (I:=I)
    (new_decoder DEFAULT_MAX_FRAME_BYTES DEFAULT_MAX_STREAM_BYTES DEFAULT_MAX_STREAM_EVENTS) bodies.
Proof. intros H1 H2 H3. by repeat split. Qed.

(** What a writer that starts empty makes of a well-formed stream. *)
Lemma captured_accumulator writer0 chunks bodies events source output :
  writer_ok writer0 ∧ evidence writer0 = [] →
  concat chunks = concat (map encode_frame bodies) →
  Forall2 (fun b e => decode_event b = Ok e) bodies events → Forall not_evicted events →
  Forall (fun b => len b ≤ DEFAULT_MAX_FRAME_BYTES) bodies →
  total_len bodies ≤ DEFAULT_MAX_STREAM_BYTES → len bodies ≤ DEFAULT_MAX_STREAM_EVENTS →
  run_pipeline (D:=D) (I:=I) decode_event capacity invalid_data blake3 writer0 limits chunks source = Some (Ok output) →
  evidence (final_writer output) = concat chunks ∧
  outcome_terminal_error _ _ (outcome (pipeline_reduction output)) = None ∧
  outcome_event_count _ _ (outcome (pipeline_reduction output)) = len events ∧
  reduction_accumulator (pipeline_reduction output) = foldl observe (new_accumulator limits) events.
Proof.
  intros Hwriter Hconcat Hdecode Hevict Hframes Hbytes Hcount Hrun.
  apply run_captured in Hrun as (d & c & dropped & Hdrains & Herr & Htotal & _ & _ & Hred & _ & _); [|exact Hwriter].
  rewrite Hconcat in Hdrains.
  edestruct (ghost_encoded (I:=I) decode_event limits) as (Hdrop & Hexp & Hacc & Hterm & Hpend & Hec);
    [by apply room_for_new|exact Hdecode|exact Hevict| | |exact Herr|exact Hdrains|]; [done..|].
  rewrite Hdrop in Htotal. cbn [app] in Htotal.
  unfold attempt_result in Hred. rewrite Hexp in Hred. cbn [andb] in Hred.
  rewrite Hred. cbn [outcome]. unfold Framing.finish. rewrite Hterm, Hpend. cbn.
  split_and!; [done|done| |exact Hacc].
  rewrite Hec. cbn. apply Forall2_length in Hdecode. unfold len. by rewrite Hdecode.
Qed.

End evidence.

(** * Witnesses *)

Module CaptureExamples.
#[local] Instance no_faults : FileFaults string :=
  {| write_fault _ _ := None; truncate_fault _ := None; flush_fault _ := None |}.
#[local] Instance no_text : TextDiagnostics := {| add_text_diagnostics _ ds := ds |}.

(** Events of one byte: a completed target, the end of the build, or the start
    of another attempt. *)
Definition example_decode (frame : list Z) : result unit Reduction.BepEvent :=
  match frame with
  | [1] => Ok (MkEvent (Some (IdTargetCompleted "//a")) (Some (Completed true "cc_library" [] [] [])))
  | [2] => Ok (MkEvent None (Some (Reduction.Finished true (Some 0))))
  | [3] => Ok (MkEvent None (Some (Reduction.Finished false (Some 39))))
  | [4] => Ok (MkEvent None (Some Started))
  | _ => Err tt
  end.
Definition example_run (chunks : list (list Z)) :=
  run_pipeline (D:=unit) (I:=unit) example_decode len id id (append []) None chunks Fifo.

(** An abandoned attempt leaves no evidence. *)
Example retry_starts_over :
  match example_run [[1; 4; 1; 1; 1]; [3; 1]; [4; 1; 1; 1; 2]] with
  | Some (Ok output) => final_writer output = Append [1; 4; 1; 1; 1; 2] [1; 4; 1; 1; 1; 2] 6
  | _ => False
  end.
Proof. vm_compute. reflexivity. Qed.

Lemma capture_chunking_irrelevant_witness :
  match example_run [[1; 1]; [1; 2]], example_run [[1]; [1; 1]; [2]] with
  | Some (Ok output1), Some (Ok output2) => durable_bytes output1 = 4 ∧ output1 = output2
  | _, _ => False
  end.
Proof.
  destruct (example_run [[1; 1]; [1; 2]]) as [[output1|]|] eqn:H1; [|vm_compute in H1; discriminate H1..].
  destruct (example_run [[1]; [1; 1]; [2]]) as [[output2|]|] eqn:H2; [|vm_compute in H2; discriminate H2..].
  split; [vm_compute in H1; injection H1 as <-; reflexivity|].
  exact (capture_chunking_irrelevant example_decode len id id None (append []) append_ok
           [[1; 1]; [1; 2]] [[1]; [1; 1]; [2]] Fifo output1 output2 eq_refl H1 H2).
Defined.

Lemma capture_keeps_evidence_witness :
  match example_run [[1; 1]; [1; 2]] with
  | Some (Ok output) => ∃ abandoned file, final_writer output = Append file file (durable_bytes output) ∧
      [1; 1; 1; 2] = abandoned ++ file ∧
      (len file < u64_max → Fifo = Fifo →
       read_fifo_bep example_decode len id id id [[1; 1]; [1; 2]] None file = Some (Ok (pipeline_reduction output)))
  | _ => False
  end.
Proof.
  destruct (example_run [[1; 1]; [1; 2]]) as [[output|]|] eqn:H1; [|vm_compute in H1; discriminate H1..].
  exact (capture_keeps_evidence example_decode len id id id None [[1; 1]; [1; 2]] Fifo output H1).
Defined.

Definition example_event (n : Z) : Reduction.BepEvent :=
  match example_decode [n] with Ok e => e | Err _ => MkEvent None None end.

End CaptureExamples.
