(* ===== verification/Scheduler.v ===== *)
(** * Invocation scheduling (crates/bazel-mcp-runner/src/scheduler.rs, the
    acquisition sequence of service.rs and output_base_lock.rs)

    An invocation is admitted against a bound on pending invocations, registered
    as live, serialized with the other invocations of its output base by an
    in-process mutex and by an advisory file lock shared with other processes,
    and executed under a bound on concurrent executions.  The mutexes live in a
    registry of weak references that every lookup prunes.

    The first part gives the operations of the scheduler; the second the steps
    of [run_prepared] of any number of invocations, interleaved with other
    processes that take and release the file locks; the last the output-base
    wait clock and the polling loop that takes the file lock. *)

From S2P Require Import Prelude Types.

(** ** The scheduler *)

Record LiveInvocation : Type := MkLive {
  cancellation : nat;
  lifecycle : InvocationState;
}.

(** [global] and [pending] are the free permits of the two semaphores;
    [workspace_locks] holds the addresses the weak references point to; a
    cancellation token is an address in [cancelled] once it is cancelled. *)
Record InvocationScheduler : Type := MkScheduler {
  global : Z;
  pending : Z;
  workspace_locks : gmap PathBuf nat;
  live : gmap InvocationId LiveInvocation;
  active_count : Z;
  cancelled : gset nat;
}.

Definition new_scheduler (global_concurrency maximum_pending : Z) : InvocationScheduler :=
  MkScheduler global_concurrency maximum_pending ∅ ∅ 0 ∅.

Definition set_global (n : Z) (s : InvocationScheduler) : InvocationScheduler :=
  MkScheduler n (pending s) (workspace_locks s) (live s) (active_count s) (cancelled s).
Definition set_pending (n : Z) (s : InvocationScheduler) : InvocationScheduler :=
  MkScheduler (global s) n (workspace_locks s) (live s) (active_count s) (cancelled s).
Definition set_locks (locks : gmap PathBuf nat) (s : InvocationScheduler) : InvocationScheduler :=
  MkScheduler (global s) (pending s) locks (live s) (active_count s) (cancelled s).
Definition set_live (l : gmap InvocationId LiveInvocation) (s : InvocationScheduler)
    : InvocationScheduler :=
  MkScheduler (global s) (pending s) (workspace_locks s) l (active_count s) (cancelled s).
Definition set_active_count (n : Z) (s : InvocationScheduler) : InvocationScheduler :=
  MkScheduler (global s) (pending s) (workspace_locks s) (live s) n (cancelled s).
Definition set_cancelled (tokens : gset nat) (s : InvocationScheduler) : InvocationScheduler :=
  MkScheduler (global s) (pending s) (workspace_locks s) (live s) (active_count s) tokens.

(** [try_acquire_pending]: [None] when no permit is free. *)
Definition try_acquire_pending (s : InvocationScheduler) : option InvocationScheduler :=
  if 0 <? pending s then Some (set_pending (pending s - 1) s) else None.

(** [acquire_execution] completes when a permit is free; [None] while it
    waits.  The semaphore is never closed. *)
Definition acquire_execution (s : InvocationScheduler) : option InvocationScheduler :=
  if 0 <? global s then Some (set_global (global s - 1) s) else None.

(** [workspace_lock]: [strong] gives the strong counts when the registry is
    pruned and [strong'] those when the weak reference is upgraded; another
    task may drop its reference in between. A new mutex gets an address no
    registered reference and no task uses. *)
Definition workspace_lock (strong strong' : nat → Z) (in_use : gset nat) (key : PathBuf)
    (s : InvocationScheduler) : InvocationScheduler * nat :=
  let locks := filter (fun entry => 0 < strong entry.2) (workspace_locks s) in
  match a ← locks !! key; if 0 <? strong' a then Some a else None with
  | Some lock => (set_locks locks s, lock)
  | None =>
      let lock := fresh (in_use ∪ map_img locks) in
      (set_locks (<[key := lock]> locks) s, lock)
  end.

Definition register (id : InvocationId) (token : nat) (initial_state : InvocationState)
    (s : InvocationScheduler) : InvocationScheduler :=
  let l := <[id := MkLive token initial_state]> (live s) in
  set_active_count (Z.of_nat (size l)) (set_live l s).

Definition remove (id : InvocationId) (s : InvocationScheduler) : InvocationScheduler :=
  match live s !! id with
  | Some _ =>
      let l := delete id (live s) in set_active_count (Z.of_nat (size l)) (set_live l s)
  | None => s
  end.

Definition cancellation_of (id : InvocationId) (s : InvocationScheduler) : option nat :=
  cancellation <$> live s !! id.

Definition lifecycle_state (id : InvocationId) (s : InvocationScheduler) : option InvocationState :=
  lifecycle <$> live s !! id.

Definition publish_state (id : InvocationId) (state : InvocationState) (s : InvocationScheduler)
    : InvocationScheduler :=
  match live s !! id with
  | Some invocation => set_live (<[id := MkLive (cancellation invocation) state]> (live s)) s
  | None => s
  end.

(** [cancel_all]: the tokens are collected, then cancelled one by one. *)
Definition cancel_all (s : InvocationScheduler) : InvocationScheduler * Z :=
  let cancellations := (fun entry => cancellation entry.2) <$> map_to_list (live s) in
  (set_cancelled (foldl (fun tokens token => {[token]} ∪ tokens) (cancelled s) cancellations) s,
   Z.of_nat (length cancellations)).

Definition live_count (s : InvocationScheduler) : Z := Z.of_nat (size (live s)).

(** [wait_until_idle] over the values of the watch channel it observes: the
    number of values read before it returns. *)
Fixpoint wait_until_idle (observed : list Z) : option nat :=
  match observed with
  | [] => None
  | count :: rest => if 0 <? count then S <$> wait_until_idle rest else Some 1%nat
  end.

(** ** The life of an invocation *)

(** Where an invocation is in [prepare_submission] and [run_prepared].  It
    holds its pending permit throughout, its reference to the mutex from
    [Locking] on, the mutex from [Filing] to [Executing], the file lock from
    [Permitting] to [Unlocked], and the execution permit from [Executing] to
    [Unfiled]. *)
Inductive Stage : Type :=
| Preparing
| Prepared
| Locking (lock : nat)      (* waits for the workspace mutex *)
| Filing (lock : nat)       (* waits for the output-base file lock *)
| Permitting (lock : nat)   (* waits for the execution permit *)
| Executing (lock : nat)
| Unlocked (lock : nat)     (* after drop(workspace_guard) *)
| Unfiled (lock : nat).     (* after drop(output_base_guard) *)

Record Submission : Type := MkSubmission {
  lock_key : PathBuf;
  token : nat;
  stage : Stage;
}.

Definition set_stage (st : Stage) (t : Submission) : Submission :=
  MkSubmission (lock_key t) (token t) st.

(** The owner of an output-base lock file. *)
Inductive Owner : Type := Mine (id : InvocationId) | Foreign.

#[export] Instance Owner_eq_dec : EqDecision Owner.
Proof. solve_decision. Defined.

Definition arc_of (t : Submission) : option nat :=
  match stage t with
  | Preparing | Prepared => None
  | Locking a | Filing a | Permitting a | Executing a | Unlocked a | Unfiled a => Some a
  end.
Definition mutex_of (t : Submission) : option nat :=
  match stage t with Filing a | Permitting a | Executing a => Some a | _ => None end.
Definition has_file (t : Submission) : bool :=
  match stage t with Permitting _ | Executing _ | Unlocked _ => true | _ => false end.
Definition has_permit (t : Submission) : bool :=
  match stage t with Executing _ | Unlocked _ | Unfiled _ => true | _ => false end.
Definition is_executing (t : Submission) : bool :=
  match stage t with Executing _ => true | _ => false end.

Section system.
(** The file name of the lock of an output base ([output_base_key_digest]). *)
Context (digest : PathBuf → string).

Record System : Type := MkSystem {
  scheduler : InvocationScheduler;
  submissions : gmap InvocationId Submission;
  mutexes : gmap nat InvocationId;
  files : gmap string Owner;
}.

(** [Arc::strong_count] of a mutex: the submissions that hold a reference. *)
Definition strong_count (s : System) (lock : nat) : Z :=
  Z.of_nat (size (filter (fun entry => arc_of entry.2 = Some lock) (submissions s))).

Definition in_use (s : System) : gset nat :=
  list_to_set (omap (fun entry => arc_of entry.2) (map_to_list (submissions s))).

(** The guards a submission drops when its [run_prepared] returns, on any of
    its paths. *)
Definition drop_mutex (t : Submission) (m : gmap nat InvocationId) : gmap nat InvocationId :=
  match mutex_of t with Some a => delete a m | None => m end.
Definition drop_file (t : Submission) (f : gmap string Owner) : gmap string Owner :=
  if has_file t then delete (digest (lock_key t)) f else f.
Definition drop_permits (t : Submission) (s : InvocationScheduler) : InvocationScheduler :=
  let s := if has_permit t then set_global (global s + 1) s else s in
  set_pending (pending s + 1) s.
Definition return_submission (id : InvocationId) (t : Submission) (s : System) : System :=
  MkSystem (drop_permits t (scheduler s)) (delete id (submissions s))
    (drop_mutex t (mutexes s)) (drop_file t (files s)).

(** A submission returns early from its preparation when a check refuses it,
    from the wait for the mutex or for the permit when its token is cancelled,
    from the wait for the file lock also on an I/O error, and before the
    execution when the starting state cannot be recorded. *)
Definition may_abort (t : Submission) (s : InvocationScheduler) : bool :=
  match stage t with
  | Preparing | Filing _ | Executing _ => true
  | Locking _ | Permitting _ => bool_decide (token t ∈ cancelled s)
  | Prepared | Unlocked _ | Unfiled _ => false
  end.

Definition with_stage (id : InvocationId) (t : Submission) (st : Stage) (s : System) : System :=
  MkSystem (scheduler s) (<[id := set_stage st t]> (submissions s)) (mutexes s) (files s).
Definition with_scheduler (sch : InvocationScheduler) (s : System) : System :=
  MkSystem sch (submissions s) (mutexes s) (files s).

(** What a submission does next. *)
Inductive task_step (id : InvocationId) : System → System → Prop :=
| step_accept t s :
    submissions s !! id = Some t → stage t = Preparing →
    task_step id s (with_stage id t Prepared
      (with_scheduler (register id (token t) Queued (scheduler s)) s))
| step_workspace_lock t s strong sch lock :
    submissions s !! id = Some t → stage t = Prepared →
    (∀ a, strong_count s a ≤ strong a) →
    workspace_lock strong (strong_count s) (in_use s) (lock_key t) (scheduler s) = (sch, lock) →
    task_step id s (with_stage id t (Locking lock) (with_scheduler sch s))
| step_mutex t s lock :
    submissions s !! id = Some t → stage t = Locking lock → mutexes s !! lock = None →
    task_step id s (MkSystem (scheduler s) (<[id := set_stage (Filing lock) t]> (submissions s))
      (<[lock := id]> (mutexes s)) (files s))
| step_file t s lock :
    submissions s !! id = Some t → stage t = Filing lock → files s !! digest (lock_key t) = None →
    task_step id s (MkSystem (scheduler s) (<[id := set_stage (Permitting lock) t]> (submissions s))
      (mutexes s) (<[digest (lock_key t) := Mine id]> (files s)))
| step_permit t s lock sch :
    submissions s !! id = Some t → stage t = Permitting lock →
    acquire_execution (scheduler s) = Some sch →
    task_step id s (with_stage id t (Executing lock) (with_scheduler sch s))
| step_drop_mutex t s lock :
    submissions s !! id = Some t → stage t = Executing lock →
    task_step id s (MkSystem (scheduler s) (<[id := set_stage (Unlocked lock) t]> (submissions s))
      (drop_mutex t (mutexes s)) (files s))
| step_drop_file t s lock :
    submissions s !! id = Some t → stage t = Unlocked lock →
    task_step id s (MkSystem (scheduler s) (<[id := set_stage (Unfiled lock) t]> (submissions s))
      (mutexes s) (drop_file t (files s)))
| step_return t s lock :
    submissions s !! id = Some t → stage t = Unfiled lock →
    task_step id s (return_submission id t s).

(** What else happens: submissions arrive and return early, invocations leave the live registry
    after their run, publish their state and are cancelled, and other processes
    take and release lock files. *)
Inductive other_step : System → System → Prop :=
| step_admit id key tok s sch :
    submissions s !! id = None → live (scheduler s) !! id = None →
    try_acquire_pending (scheduler s) = Some sch →
    other_step s (MkSystem sch (<[id := MkSubmission key tok Preparing]> (submissions s))
      (mutexes s) (files s))
| step_abort id t s :
    submissions s !! id = Some t → may_abort t (scheduler s) = true →
    other_step s (return_submission id t s)
| step_remove id s :
    submissions s !! id = None →
    other_step s (with_scheduler (remove id (scheduler s)) s)
| step_publish id state s :
    other_step s (with_scheduler (publish_state id state (scheduler s)) s)
| step_cancel tok s :
    other_step s (with_scheduler
      (set_cancelled ({[tok]} ∪ cancelled (scheduler s)) (scheduler s)) s)
| step_cancel_all s :
    other_step s (with_scheduler (cancel_all (scheduler s)).1 s)
| step_foreign_lock name s :
    files s !! name = None →
    other_step s (MkSystem (scheduler s) (submissions s) (mutexes s) (<[name := Foreign]> (files s)))
| step_foreign_unlock name s :
    files s !! name = Some Foreign →
    other_step s (MkSystem (scheduler s) (submissions s) (mutexes s) (delete name (files s))).

Definition step (s s' : System) : Prop := (∃ id, task_step id s s') ∨ other_step s s'.

Definition start (global_concurrency maximum_pending : Z) : System :=
  MkSystem (new_scheduler global_concurrency maximum_pending) ∅ ∅ ∅.

(** ** Counting submissions *)

Definition bz (b : bool) : Z := if b then 1 else 0.
Definition count (P : Submission → bool) (m : gmap InvocationId Submission) : Z :=
  Z.of_nat (size (filter (fun entry => P entry.2 = true) m)).

Lemma count_fresh P m id t : m !! id = None → count P (<[id := t]> m) = count P m + bz (P t).
Proof.
  intros Hid. unfold count. destruct (P t) eqn:Ht; cbn.
  - rewrite map_filter_insert_True by done. rewrite map_size_insert_None; [lia|].
    apply map_lookup_filter_None. by left.
  - rewrite map_filter_insert_False by (cbn; congruence). rewrite delete_id by done. lia.
Qed.

Lemma count_empty P : count P ∅ = 0.
Proof. unfold count. by rewrite map_filter_empty. Qed.

Lemma count_delete P m id t : m !! id = Some t → count P (delete id m) = count P m - bz (P t).
Proof.
  intros Hid. rewrite <- (insert_delete_id m id t Hid) at 2.
  rewrite count_fresh by apply lookup_delete_eq. lia.
Qed.

Lemma count_insert P m id t t' : m !! id = Some t →
  count P (<[id := t']> m) = count P m - bz (P t) + bz (P t').
Proof.
  intros Hid. rewrite <- insert_delete_eq, count_fresh by apply lookup_delete_eq.
  by rewrite (count_delete _ _ _ t).
Qed.

Lemma count_le (P Q : Submission → bool) m :
  (∀ t, P t = true → Q t = true) → count P m ≤ count Q m.
Proof.
  intros HPQ. unfold count. apply inj_le, map_subseteq_size.
  apply map_filter_subseteq_ext. intros i x _ H. cbn in *. by apply HPQ.
Qed.

Lemma count_pos P m id t : m !! id = Some t → P t = true → 0 < count P m.
Proof.
  intros Hid Ht. rewrite <- (insert_delete_id m id t Hid), count_fresh by apply lookup_delete_eq.
  rewrite Ht. unfold count, bz. lia.
Qed.

Lemma strong_count_pos s id t a :
  submissions s !! id = Some t → arc_of t = Some a → 0 < strong_count s a.
Proof.
  intros Hid Ha.
  assert (strong_count s a = count (fun t => bool_decide (arc_of t = Some a)) (submissions s)) as ->.
  { unfold strong_count, count. do 2 f_equal. apply map_filter_ext. intros i x _. cbn.
    by rewrite bool_decide_eq_true. }
  eapply count_pos; [done|]. by apply bool_decide_eq_true.
Qed.

Lemma in_use_spec s id t a :
  submissions s !! id = Some t → arc_of t = Some a → a ∈ in_use s.
Proof.
  intros Hid Ha. unfold in_use. apply elem_of_list_to_set, list_elem_of_omap.
  exists (id, t). split; [by apply elem_of_map_to_list|done].
Qed.

(** ** Permits *)

Record permits (G M : Z) (s : System) : Prop := {
  permits_global : global (scheduler s) + count has_permit (submissions s) = G;
  permits_global_nonneg : 0 ≤ global (scheduler s);
  permits_pending : pending (scheduler s) + count (fun _ => true) (submissions s) = M;
  permits_pending_nonneg : 0 ≤ pending (scheduler s);
}.

Lemma workspace_lock_permits strong strong' used key sch sch' lock :
  workspace_lock strong strong' used key sch = (sch', lock) →
  global sch' = global sch ∧ pending sch' = pending sch ∧ live sch' = live sch ∧
  active_count sch' = active_count sch.
Proof. unfold workspace_lock. case_match; by intros [= <- _]. Qed.

Lemma permits_task G M id s s' : task_step id s s' → permits G M s → permits G M s'.
Proof.
  destruct 1 as [t s Hid Hst|t s strong sch lock Hid Hst _ Hw|t s lock Hid Hst Hm|t s lock Hid Hst Hf
    |t s lock sch Hid Hst Hp|t s lock Hid Hst|t s lock Hid Hst|t s lock Hid Hst]; intros [Hg Hg0 Hp0 Hp1];
    try (apply workspace_lock_permits in Hw as (Hw1 & Hw2 & _)).
  5: unfold acquire_execution in Hp; destruct (0 <? global (scheduler s)) eqn:?; [|done]; injection Hp as <-.
  all: constructor; cbn; rewrite ?(count_insert _ _ _ _ _ Hid), ?(count_delete _ _ _ _ Hid);
    unfold has_permit in *; cbn; rewrite ?Hst; cbn; try lia.
  all: unfold drop_permits, has_permit; rewrite Hst; cbn; lia.
Qed.

Lemma permits_return G M id t s :
  submissions s !! id = Some t → permits G M s → permits G M (return_submission id t s).
Proof.
  intros Hid [Hg Hg0 Hp0 Hp1]. constructor; cbn; rewrite ?(count_delete _ _ _ _ Hid);
    unfold drop_permits; destruct (has_permit t); cbn in *; lia.
Qed.

Lemma permits_other G M s s' : other_step s s' → permits G M s → permits G M s'.
Proof.
  destruct 1 as [id key tok s sch Hid _ Hp|id t s Hid Hst|id s Hid|id state s|tok s|s|n s Hf|n s Hf];
    intros [Hg Hg0 Hp0 Hp1].
  - unfold try_acquire_pending in Hp. destruct (0 <? pending (scheduler s)) eqn:?; [|done].
    injection Hp as <-. constructor; cbn; rewrite ?count_fresh by done; cbn; lia.
  - by apply permits_return.
  - unfold remove. case_match; by constructor.
  - unfold publish_state. case_match; by constructor.
  - by constructor.
  - by constructor.
  - by constructor.
  - by constructor.
Qed.

(** ** The live registry *)

Record registered (s : System) : Prop := {
  registered_count : active_count (scheduler s) = Z.of_nat (size (live (scheduler s)));
  registered_live : ∀ id t, submissions s !! id = Some t → stage t ≠ Preparing →
    cancellation_of id (scheduler s) = Some (token t);
}.

Lemma registered_stage s id t st sch :
  submissions s !! id = Some t → stage t ≠ Preparing →
  live sch = live (scheduler s) → active_count sch = active_count (scheduler s) →
  registered s → ∀ m f, registered (MkSystem sch (<[id := set_stage st t]> (submissions s)) m f).
Proof.
  intros Hid Hst Hl Ha [Hc Hr] m f. constructor; cbn; [congruence|].
  intros id' t'. unfold cancellation_of. rewrite Hl. destruct (decide (id' = id)) as [->|Hne].
  - rewrite lookup_insert_eq. intros [= <-] _. cbn. by apply Hr.
  - rewrite lookup_insert_ne by done. apply Hr.
Qed.

Lemma registered_return id t s : registered s → registered (return_submission id t s).
Proof.
  intros [Hc Hr]. unfold return_submission, drop_permits.
  constructor; cbn; [by destruct (has_permit t)|]. intros id' t' [_ Hid']%lookup_delete_Some.
  unfold cancellation_of. destruct (has_permit t); cbn; by apply Hr.
Qed.

Lemma registered_task id s s' : task_step id s s' → registered s → registered s'.
Proof.
  destruct 1 as [t s Hid Hst|t s strong sch lock Hid Hst _ Hw|t s lock Hid Hst Hm|t s lock Hid Hst Hf
    |t s lock sch Hid Hst Hp|t s lock Hid Hst|t s lock Hid Hst|t s lock Hid Hst]; intros Hreg.
  - destruct Hreg as [Hc Hr]. constructor; cbn; [done|]. intros id' t'.
    unfold cancellation_of, register. cbn. destruct (decide (id' = id)) as [->|Hne].
    + rewrite !lookup_insert_eq. by intros [= <-] _.
    + rewrite !lookup_insert_ne by done. apply Hr.
  - apply workspace_lock_permits in Hw as (_ & _ & Hl & Ha).
    apply (registered_stage s id t _ _ Hid); [by rewrite Hst|done..].
  - apply (registered_stage s id t _ _ Hid); [by rewrite Hst|done..].
  - apply (registered_stage s id t _ _ Hid); [by rewrite Hst|done..].
  - unfold acquire_execution in Hp. case_match; [|done]. injection Hp as <-.
    apply (registered_stage s id t _ _ Hid); [by rewrite Hst|done..].
  - apply (registered_stage s id t _ _ Hid); [by rewrite Hst|done..].
  - apply (registered_stage s id t _ _ Hid); [by rewrite Hst|done..].
  - by apply registered_return.
Qed.

Lemma registered_other s s' : other_step s s' → registered s → registered s'.
Proof.
  destruct 1 as [id key tok s sch Hid _ Hp|id t s Hid Hst|id s Hid|id state s|tok s|s|n s Hf|n s Hf];
    intros [Hc Hr]; try by constructor.
  - unfold try_acquire_pending in Hp. case_match; [|done]. injection Hp as <-.
    constructor; cbn; [done|]. intros id' t' [[<- <-]|[_ Hid']]%lookup_insert_Some; [done|by apply Hr].
  - by apply registered_return.
  - unfold remove. case_match; [|by constructor]. constructor; cbn; [done|].
    intros id' t' Hid'. unfold cancellation_of. cbn.
    rewrite lookup_delete_ne by congruence. by apply Hr.
  - unfold publish_state. case_match eqn:Hl; [|by constructor]. constructor; cbn.
    + rewrite map_size_insert_Some by (by eexists). done.
    + intros id' t' Hid' Hst. pose proof (Hr _ _ Hid' Hst) as Ht. unfold cancellation_of in *. cbn.
      destruct (decide (id' = id)) as [->|]; [|by rewrite lookup_insert_ne].
      rewrite lookup_insert_eq. rewrite Hl in Ht. by cbn in *.
Qed.

(** ** Locks *)

Record locked (s : System) : Prop := {
  locked_arc : ∀ id t a, submissions s !! id = Some t → arc_of t = Some a →
    workspace_locks (scheduler s) !! lock_key t = Some a;
  locked_inj : ∀ k k' a, workspace_locks (scheduler s) !! k = Some a →
    workspace_locks (scheduler s) !! k' = Some a → k = k';
  locked_mutex : ∀ a id, mutexes s !! a = Some id ↔
    ∃ t, submissions s !! id = Some t ∧ mutex_of t = Some a;
  locked_file : ∀ n id, files s !! n = Some (Mine id) ↔
    ∃ t, submissions s !! id = Some t ∧ (has_file t = true ∧ digest (lock_key t) = n);
}.

Lemma exists_insert {A} (m : gmap InvocationId A) id u id' (P : A → Prop) :
  (∃ t, <[id := u]> m !! id' = Some t ∧ P t) ↔
  (id' = id ∧ P u) ∨ (id' ≠ id ∧ ∃ t, m !! id' = Some t ∧ P t).
Proof.
  destruct (decide (id' = id)) as [->|Hne].
  - rewrite lookup_insert_eq. naive_solver.
  - rewrite lookup_insert_ne by done. naive_solver.
Qed.

Lemma exists_delete {A} (m : gmap InvocationId A) id id' (P : A → Prop) :
  (∃ t, delete id m !! id' = Some t ∧ P t) ↔ id' ≠ id ∧ ∃ t, m !! id' = Some t ∧ P t.
Proof.
  destruct (decide (id' = id)) as [->|Hne].
  - rewrite lookup_delete_eq. naive_solver.
  - rewrite lookup_delete_ne by done. naive_solver.
Qed.

(** The reference a submission keeps to its mutex does not change after
    [Locking]. *)
Lemma arc_insert s id t st a0 :
  submissions s !! id = Some t → arc_of t = Some a0 → arc_of (set_stage st t) = Some a0 →
  locked s → ∀ id' t' a, <[id := set_stage st t]> (submissions s) !! id' = Some t' →
    arc_of t' = Some a → workspace_locks (scheduler s) !! lock_key t' = Some a.
Proof.
  intros Hid Ht Hst Hl id' t' a [[<- <-]|[_ Hid']]%lookup_insert_Some Ha.
  - cbn. eapply (locked_arc _ Hl id t); congruence.
  - by eapply (locked_arc _ Hl).
Qed.

(** A step that changes neither what the submission holds nor the locks. *)
Lemma locked_same s id t st sch :
  submissions s !! id = Some t → mutex_of (set_stage st t) = mutex_of t →
  has_file (set_stage st t) = has_file t →
  (∀ id' t' a, <[id := set_stage st t]> (submissions s) !! id' = Some t' → arc_of t' = Some a →
     workspace_locks sch !! lock_key t' = Some a) →
  (∀ k k' a, workspace_locks sch !! k = Some a → workspace_locks sch !! k' = Some a → k = k') →
  locked s → locked (with_stage id t st (with_scheduler sch s)).
Proof.
  intros Hid Hm Hf Harc Hinj [_ _ Hmu Hfi]. constructor; cbn; [done|done|..].
  - intros a id'. rewrite Hmu, exists_insert, Hm.
    destruct (decide (id' = id)) as [->|]; naive_solver.
  - intros n id'. rewrite Hfi, exists_insert, Hf. cbn.
    destruct (decide (id' = id)) as [->|]; naive_solver.
Qed.

Lemma workspace_lock_arcs s id t strong sch lock :
  locked s → submissions s !! id = Some t → stage t = Prepared →
  (∀ a, strong_count s a ≤ strong a) →
  workspace_lock strong (strong_count s) (in_use s) (lock_key t) (scheduler s) = (sch, lock) →
  (∀ id' t' a, <[id := set_stage (Locking lock) t]> (submissions s) !! id' = Some t' →
     arc_of t' = Some a → workspace_locks sch !! lock_key t' = Some a) ∧
  (∀ k k' a, workspace_locks sch !! k = Some a → workspace_locks sch !! k' = Some a → k = k').
Proof.
  intros [Harc Hinj _ _] Hid Hst Hstrong. unfold workspace_lock.
  set (kept := filter _ (workspace_locks (scheduler s))).
  assert (∀ id' t' a, submissions s !! id' = Some t' → arc_of t' = Some a →
    kept !! lock_key t' = Some a ∧ 0 < strong_count s a) as Hkept.
  { intros id' t' a Hid' Ha. pose proof (strong_count_pos _ _ _ _ Hid' Ha).
    split; [|done]. apply map_lookup_filter_Some. split; [by eapply Harc|].
    specialize (Hstrong a). cbn. lia. }
  assert (∀ k k' a, kept !! k = Some a → kept !! k' = Some a → k = k') as Hkinj.
  { intros k k' a [Hk _]%map_lookup_filter_Some [Hk' _]%map_lookup_filter_Some. by eapply Hinj. }
  destruct (a ← kept !! lock_key t; _) as [a0|] eqn:Hup; intros [= <- <-]; cbn; split; try done.
  - apply bind_Some in Hup as (a1 & Hk & Hpos). case_match; [|done]. injection Hpos as <-.
    intros id' t' a [[<- <-]|[_ Hid']]%lookup_insert_Some Ha; cbn in *; [congruence|].
    by apply (Hkept id').
  - intros id' t' a [[<- <-]|[_ Hid']]%lookup_insert_Some Ha; cbn in *.
    + rewrite lookup_insert_eq. congruence.
    + destruct (Hkept _ _ _ Hid' Ha) as [Hk Hpos]. rewrite lookup_insert_ne; [done|].
      intros Heq. rewrite Heq, Hk in Hup. cbn in Hup. apply Z.ltb_lt in Hpos. by rewrite Hpos in Hup.
  - set (new := fresh _).
    assert (new ∉ in_use s ∪ map_img kept) as Hnew by apply is_fresh.
    assert (∀ k, kept !! k ≠ Some new) as Hnot.
    { intros k Hk. apply Hnew, elem_of_union. right. by eapply elem_of_map_img_2. }
    intros k k' a [[<- <-]|[_ Hk]]%lookup_insert_Some [[<- Ha]|[_ Hk']]%lookup_insert_Some; try done.
    + by destruct (Hnot k').
    + subst a. by destruct (Hnot k).
    + by eapply Hkinj.
Qed.

(** Taking and dropping the guards. *)
Lemma locked_take_mutex s id t lock :
  submissions s !! id = Some t → stage t = Locking lock → mutexes s !! lock = None → locked s →
  locked (MkSystem (scheduler s) (<[id := set_stage (Filing lock) t]> (submissions s))
            (<[lock := id]> (mutexes s)) (files s)).
Proof.
  intros Hid Hst Hm Hl. pose proof Hl as [_ Hinj Hmu Hfi]. constructor; cbn; [|done|..].
  - eapply arc_insert; [done|unfold arc_of; by rewrite Hst|done|done].
  - intros a id'. rewrite exists_insert. cbn. unfold mutex_of at 1. cbn.
    destruct (decide (a = lock)) as [->|Hne].
    + rewrite lookup_insert_eq. split; [naive_solver|]. intros [[-> _]|[_ H]]; [done|].
      apply Hmu in H. congruence.
    + rewrite lookup_insert_ne by done. rewrite Hmu. split.
      * intros (t' & Hid' & Ht'). right. split; [|eauto]. intros ->. rewrite Hid in Hid'.
        injection Hid' as <-. unfold mutex_of in Ht'. by rewrite Hst in Ht'.
      * intros [[-> [= ->]]|[_ H]]; done.
  - intros n id'. rewrite Hfi, exists_insert. cbn. unfold has_file at 2. cbn.
    destruct (decide (id' = id)) as [->|]; [|naive_solver].
    split; [|naive_solver]. intros (t' & Hid' & Ht' & _). rewrite Hid in Hid'. injection Hid' as <-.
    unfold has_file in Ht'. by rewrite Hst in Ht'.
Qed.

Lemma locked_take_file s id t lock :
  submissions s !! id = Some t → stage t = Filing lock → files s !! digest (lock_key t) = None →
  locked s →
  locked (MkSystem (scheduler s) (<[id := set_stage (Permitting lock) t]> (submissions s))
            (mutexes s) (<[digest (lock_key t) := Mine id]> (files s))).
Proof.
  intros Hid Hst Hf Hl. pose proof Hl as [_ Hinj Hmu Hfi]. constructor; cbn; [|done|..].
  - eapply arc_insert; [done|unfold arc_of; by rewrite Hst|done|done].
  - intros a id'. rewrite Hmu, exists_insert. cbn. unfold mutex_of at 2. cbn.
    destruct (decide (id' = id)) as [->|]; [|naive_solver].
    rewrite Hid. unfold mutex_of. split.
    + intros (t' & [= <-] & Ht'). rewrite Hst in Ht'. by left.
    + intros [[_ Ht']|[? _]]; [|done]. exists t. by rewrite Hst.
  - intros n id'. rewrite exists_insert. cbn.
    destruct (decide (n = digest (lock_key t))) as [->|Hne].
    + rewrite lookup_insert_eq. split; [naive_solver|].
      intros [[-> _]|[_ H]]; [done|]. apply Hfi in H. congruence.
    + rewrite lookup_insert_ne by done. rewrite Hfi. split.
      * intros (t' & Hid' & Ht' & Hn). right. split; [|eauto]. intros ->. rewrite Hid in Hid'.
        injection Hid' as <-. unfold has_file in Ht'. by rewrite Hst in Ht'.
      * intros [[-> [_ Hn]]|[_ H]]; [congruence|done].
Qed.

Lemma locked_drop_mutex s id t lock :
  submissions s !! id = Some t → stage t = Executing lock → locked s →
  locked (MkSystem (scheduler s) (<[id := set_stage (Unlocked lock) t]> (submissions s))
            (drop_mutex t (mutexes s)) (files s)).
Proof.
  intros Hid Hst Hl. pose proof Hl as [_ Hinj Hmu Hfi]. constructor; cbn; [|done|..].
  - eapply arc_insert; [done|unfold arc_of; by rewrite Hst|done|done].
  - assert (mutex_of t = Some lock) as Ht by (unfold mutex_of; by rewrite Hst).
    unfold drop_mutex. rewrite Ht.
    assert (mutexes s !! lock = Some id) as Hown by (apply Hmu; eauto).
    intros a id'. rewrite exists_insert. cbn. unfold mutex_of at 1. cbn.
    rewrite lookup_delete_Some, Hmu. split.
    + intros [Hne (t' & Hid' & Ht')]. right. split; [|eauto]. intros ->. congruence.
    + intros [[_ ?]|[Hne (t' & Hid' & Ht')]]; [done|]. split; [|eauto]. intros <-.
      assert (mutexes s !! lock = Some id') by (apply Hmu; eauto). congruence.
  - intros n id'. rewrite Hfi, exists_insert. cbn. unfold has_file at 2. cbn.
    destruct (decide (id' = id)) as [->|]; [|naive_solver].
    rewrite Hid. unfold has_file. split.
    + intros (t' & [= <-] & _ & Hn). by left.
    + intros [[_ [_ Hn]]|[? _]]; [|done]. exists t. by rewrite Hst.
Qed.

Lemma file_owner_unique s id t n :
  locked s → submissions s !! id = Some t → has_file t = true → digest (lock_key t) = n →
  ∀ id', (∃ t', submissions s !! id' = Some t' ∧ (has_file t' = true ∧ digest (lock_key t') = n)) →
  id' = id.
Proof.
  intros Hl Hid Ht Hn id' H. apply (locked_file _ Hl) in H.
  assert (files s !! n = Some (Mine id)) by (apply (locked_file _ Hl); eauto). congruence.
Qed.

Lemma locked_drop_file s id t lock :
  submissions s !! id = Some t → stage t = Unlocked lock → locked s →
  locked (MkSystem (scheduler s) (<[id := set_stage (Unfiled lock) t]> (submissions s))
            (mutexes s) (drop_file t (files s))).
Proof.
  intros Hid Hst Hl. pose proof Hl as [_ Hinj Hmu Hfi].
  assert (has_file t = true) as Ht by (unfold has_file; by rewrite Hst).
  constructor; cbn; [|done|..].
  - eapply arc_insert; [done|unfold arc_of; by rewrite Hst|done|done].
  - intros a id'. rewrite Hmu, exists_insert. cbn. unfold mutex_of at 2. cbn.
    destruct (decide (id' = id)) as [->|]; [|naive_solver]. rewrite Hid. unfold mutex_of.
    split; [|naive_solver]. intros (t' & [= <-] & Ht'). by rewrite Hst in Ht'.
  - unfold drop_file. rewrite Ht. intros n id'. rewrite exists_insert. cbn. unfold has_file at 1. cbn.
    rewrite lookup_delete_Some, Hfi. split.
    + intros [Hne H]. right. split; [|done]. intros ->. destruct H as (t' & Hid' & _ & Hn). congruence.
    + intros [[_ [? _]]|[Hne H]]; [done|]. split; [|done]. intros <-.
      by destruct Hne; eapply file_owner_unique.
Qed.

Lemma locked_return s id t :
  submissions s !! id = Some t → locked s → locked (return_submission id t s).
Proof.
  intros Hid Hl. pose proof Hl as [Harc Hinj Hmu Hfi].
  assert (workspace_locks (drop_permits t (scheduler s)) = workspace_locks (scheduler s)) as Hw
    by (unfold drop_permits; by destruct (has_permit t)).
  unfold return_submission. constructor; cbn [scheduler submissions mutexes files].
  - intros id' t' a [_ Hid']%lookup_delete_Some. rewrite Hw. by apply Harc with id'.
  - intros k k' a. rewrite Hw. apply Hinj.
  - intros a id'. rewrite exists_delete. unfold drop_mutex.
    destruct (mutex_of t) as [lock|] eqn:Ht.
    + assert (mutexes s !! lock = Some id) as Hown by (apply Hmu; eauto).
      rewrite lookup_delete_Some, Hmu. split.
      * intros [Hne H]. split; [|done]. intros ->. destruct H as (t' & Hid' & Ht'). congruence.
      * intros [Hne H]. split; [|done]. intros <-. apply Hmu in H. congruence.
    + rewrite Hmu. split; [|naive_solver]. intros H. split; [|done]. intros ->.
      destruct H as (t' & Hid' & Ht'). congruence.
  - intros n id'. rewrite exists_delete. unfold drop_file. destruct (has_file t) eqn:Ht.
    + rewrite lookup_delete_Some, Hfi. split.
      * intros [Hne H]. split; [|done]. intros ->. destruct H as (t' & Hid' & _ & Hn). congruence.
      * intros [Hne H]. split; [|done]. intros <-. by destruct Hne; eapply file_owner_unique.
    + rewrite Hfi. split; [|naive_solver]. intros H. split; [|done]. intros ->.
      destruct H as (t' & Hid' & Ht' & _). congruence.
Qed.

Lemma locked_task id s s' : task_step id s s' → locked s → locked s'.
Proof.
  destruct 1 as [t s Hid Hst|t s strong sch lock Hid Hst Hstrong Hw|t s lock Hid Hst Hm
    |t s lock Hid Hst Hf|t s lock sch Hid Hst Hp|t s lock Hid Hst|t s lock Hid Hst|t s lock Hid Hst];
    intros Hl.
  - apply locked_same; [done|unfold mutex_of; by rewrite Hst|unfold has_file; by rewrite Hst| |apply Hl|done].
    intros id' t' a [[<- <-]|[_ Hid']]%lookup_insert_Some; [done|by apply (locked_arc _ Hl id')].
  - destruct (workspace_lock_arcs _ _ _ _ _ _ Hl Hid Hst Hstrong Hw) as [Ha Hi].
    apply locked_same; [done|unfold mutex_of; by rewrite Hst|unfold has_file; by rewrite Hst|done..].
  - by apply locked_take_mutex.
  - by apply locked_take_file.
  - unfold acquire_execution in Hp. case_match; [|done]. injection Hp as <-.
    apply locked_same; [done|unfold mutex_of; by rewrite Hst|unfold has_file; by rewrite Hst| |apply Hl|done].
    eapply arc_insert; [done|unfold arc_of; by rewrite Hst|done|done].
  - by apply locked_drop_mutex.
  - by apply locked_drop_file.
  - by apply locked_return.
Qed.

Lemma locked_other s s' : other_step s s' → locked s → locked s'.
Proof.
  destruct 1 as [id key tok s sch Hid _ Hp|id t s Hid Hst|id s Hid|id state s|tok s|s|n s Hf|n s Hf];
    intros Hl; pose proof Hl as [Ha Hi Hm Hfi].
  - unfold try_acquire_pending in Hp. case_match; [|done]. injection Hp as <-. constructor; cbn; [|done|..].
    + intros id' t' a [[<- <-]|[_ Hid']]%lookup_insert_Some; [done|by apply (Ha id')].
    + intros a id'. rewrite Hm, exists_insert. destruct (decide (id' = id)) as [->|]; naive_solver.
    + intros n id'. rewrite Hfi, exists_insert. destruct (decide (id' = id)) as [->|]; naive_solver.
  - by apply locked_return.
  - unfold remove. case_match; by constructor.
  - unfold publish_state. case_match; by constructor.
  - by constructor.
  - by constructor.
  - constructor; cbn; [done..|]. intros n' id. rewrite <- Hfi.
    destruct (decide (n' = n)) as [->|]; [rewrite lookup_insert_eq; naive_solver|].
    by rewrite lookup_insert_ne.
  - constructor; cbn; [done..|]. intros n' id. rewrite <- Hfi.
    destruct (decide (n' = n)) as [->|]; [rewrite lookup_delete_eq; naive_solver|].
    by rewrite lookup_delete_ne.
Qed.

Definition consistent (G M : Z) (s : System) : Prop := permits G M s ∧ registered s ∧ locked s.

Lemma reachable_consistent G M s :
  0 ≤ G → 0 ≤ M → rtc step (start G M) s → consistent G M s.
Proof.
  intros HG HM Hsteps. remember (start G M) as s0 eqn:Hs0.
  assert (consistent G M s0) as Hinv.
  { subst. split; [|split]; [constructor; cbn; rewrite ?count_empty; lia|by constructor|].
    constructor; cbn; [done..| |]; intros; split; [done|naive_solver|done|naive_solver]. }
  clear Hs0. induction Hsteps as [|s1 s2 s3 Hstep _ IH]; [done|]. apply IH. clear IH.
  destruct Hinv as (Hp & Hr & Hl). destruct Hstep as [[id Hstep]|Hstep]; split_and!.
  - by eapply permits_task.
  - by eapply registered_task.
  - by eapply locked_task.
  - by eapply permits_other.
  - by eapply registered_other.
  - by eapply locked_other.
Qed.
End system.

Lemma find_submission (P : Submission → bool) m :
  0 < count P m → ∃ id t, m !! id = Some t ∧ P t = true.
Proof.
  intros Hc. destruct (decide (filter (fun entry => P entry.2 = true) m = ∅)) as [He|Hne].
  - unfold count in Hc. rewrite He, map_size_empty in Hc. lia.
  - apply map_choose in Hne as (id & t & [Hid Ht]%map_lookup_filter_Some). eauto.
Qed.

(** ** Progress of submissions *)

Section progress.
Context (digest : PathBuf → string) (G M : Z).
Hypothesis G_positive : 0 < G.
Abbreviation can_step s := (∃ id s', task_step digest id s s').

Lemma progress_holding s id t :
  consistent digest G M s → submissions s !! id = Some t →
  has_permit t || has_file t = true → can_step s.
Proof.
  intros Hinv Hid Ht.
  assert (∀ id t, submissions s !! id = Some t → has_permit t = true → can_step s) as Hpermit.
  { clear id t Hid Ht. intros id t Hid Ht. unfold has_permit in Ht.
    destruct (stage t) eqn:Hst; try done; eexists id, _.
    - by eapply step_drop_mutex.
    - by eapply step_drop_file.
    - by eapply step_return. }
  destruct (has_permit t) eqn:Hp; [by eapply Hpermit|]. cbn in Ht.
  unfold has_file, has_permit in *. destruct (stage t) eqn:Hst; try done.
  destruct (acquire_execution (scheduler s)) as [sch|] eqn:Hacq.
  { eexists id, _. by eapply step_permit. }
  unfold acquire_execution in Hacq. case_match; [done|].
  destruct Hinv as ([Hg _ _ _] & _ & _).
  destruct (find_submission has_permit (submissions s)) as (id' & t' & Hid' & Ht'); [lia|].
  by eapply Hpermit.
Qed.

Lemma progress_filing s id t :
  consistent digest G M s → submissions s !! id = Some t → is_Some (mutex_of t) →
  files s !! digest (lock_key t) ≠ Some Foreign → can_step s.
Proof.
  intros Hinv Hid [a Ha] Hf. destruct (has_permit t || has_file t) eqn:Hh;
    [by eapply progress_holding|].
  assert (stage t = Filing a) as Hst.
  { unfold mutex_of, has_permit, has_file in *. by destruct (stage t); simplify_eq. }
  destruct (files s !! digest (lock_key t)) as [[id'|]|] eqn:Hfile; [|done|].
  - apply (locked_file _ _ (proj2 (proj2 Hinv))) in Hfile as (t' & Hid' & Ht' & _).
    eapply progress_holding; [done|exact Hid'|]. rewrite Ht'. apply orb_true_r.
  - eexists id, _. by eapply step_file.
Qed.

Lemma progress s id t :
  consistent digest G M s → submissions s !! id = Some t →
  files s !! digest (lock_key t) ≠ Some Foreign → can_step s.
Proof.
  intros Hinv Hid Hf. destruct (stage t) as [| |a|a|a|a|a|a] eqn:Hst.
  - eexists id, _. by eapply step_accept.
  - destruct (workspace_lock (strong_count s) (strong_count s) (in_use s) (lock_key t) (scheduler s))
      as [sch lock] eqn:Hw.
    eexists id, _. by eapply step_workspace_lock.
  - destruct (mutexes s !! a) as [id'|] eqn:Hm; [|by eexists id, _; eapply step_mutex].
    pose proof (proj2 (proj2 Hinv)) as Hl.
    apply (locked_mutex _ _ Hl) in Hm as (t' & Hid' & Ht').
    assert (lock_key t' = lock_key t) as Hkey.
    { eapply (locked_inj _ _ Hl).
      - eapply (locked_arc _ _ Hl); [exact Hid'|]. unfold mutex_of, arc_of in *.
        destruct (stage t'); by simplify_eq.
      - eapply (locked_arc _ _ Hl); [exact Hid|]. unfold arc_of. by rewrite Hst. }
    eapply progress_filing; [done|exact Hid'|by eexists|]. by rewrite Hkey.
  - eapply progress_filing; [done..| |done]. unfold mutex_of. rewrite Hst. by eexists.
  - eapply progress_holding; [done..|]. unfold has_permit, has_file. by rewrite Hst.
  - eapply progress_holding; [done..|]. unfold has_permit, has_file. by rewrite Hst.
  - eapply progress_holding; [done..|]. unfold has_permit, has_file. by rewrite Hst.
  - eapply progress_holding; [done..|]. unfold has_permit, has_file. by rewrite Hst.
Qed.
End progress.

(** ** The steps a submission has left *)

Definition remaining (t : Submission) : Z :=
  match stage t with
  | Preparing => 8 | Prepared => 7 | Locking _ => 6 | Filing _ => 5 | Permitting _ => 4
  | Executing _ => 3 | Unlocked _ => 2 | Unfiled _ => 1
  end.

Definition remaining_steps (m : gmap InvocationId Submission) : Z :=
  let at_least k := count (fun t => k <=? remaining t) m in
  at_least 1 + at_least 2 + at_least 3 + at_least 4 +
  at_least 5 + at_least 6 + at_least 7 + at_least 8.

Lemma remaining_bounds m : 0 ≤ remaining_steps m ≤ 8 * Z.of_nat (size m).
Proof.
  assert (∀ P, 0 ≤ count P m ≤ Z.of_nat (size m)) as Hc.
  { intros P. unfold count. split; [lia|]. apply inj_le, map_subseteq_size, map_filter_subseteq. }
  unfold remaining_steps.
  pose proof (Hc (fun t => 1 <=? remaining t)). pose proof (Hc (fun t => 2 <=? remaining t)).
  pose proof (Hc (fun t => 3 <=? remaining t)). pose proof (Hc (fun t => 4 <=? remaining t)).
  pose proof (Hc (fun t => 5 <=? remaining t)). pose proof (Hc (fun t => 6 <=? remaining t)).
  pose proof (Hc (fun t => 7 <=? remaining t)). pose proof (Hc (fun t => 8 <=? remaining t)). lia.
Qed.

Lemma remaining_step digest id s s' : task_step digest id s s' →
  remaining_steps (submissions s') = remaining_steps (submissions s) - 1.
Proof.
  destruct 1 as [t s Hid Hst|t s strong sch lock Hid Hst Hstrong Hw|t s lock Hid Hst Hm
    |t s lock Hid Hst Hf|t s lock sch Hid Hst Hp|t s lock Hid Hst|t s lock Hid Hst|t s lock Hid Hst];
    unfold remaining_steps; cbn; rewrite ?(count_insert _ _ _ _ _ Hid), ?(count_delete _ _ _ _ Hid);
    unfold remaining; cbn; rewrite Hst; cbn; lia.
Qed.

Lemma remaining_nsteps digest n s s' :
  nsteps (fun a b => ∃ id, task_step digest id a b) n s s' →
  remaining_steps (submissions s') = remaining_steps (submissions s) - Z.of_nat n.
Proof.
  induction 1 as [|n s1 s2 s3 [id Hstep] _ IH]; [lia|]. apply remaining_step in Hstep. lia.
Qed.

(** Submissions leave the lock files of other processes alone. *)
Lemma foreign_step digest id s s' : task_step digest id s s' →
  (∀ name, files s !! name ≠ Some Foreign) → ∀ name, files s' !! name ≠ Some Foreign.
Proof.
  destruct 1 as [t s Hid Hst|t s strong sch lock Hid Hst Hstrong Hw|t s lock Hid Hst Hm
    |t s lock Hid Hst Hf|t s lock sch Hid Hst Hp|t s lock Hid Hst|t s lock Hid Hst|t s lock Hid Hst];
    intros Hno name; cbn; auto.
  - destruct (decide (name = digest (lock_key t))) as [->|]; [by rewrite lookup_insert_eq|].
    rewrite lookup_insert_ne by done. apply Hno.
  - unfold drop_file. case_match; [|apply Hno]. intros [_ Hown]%lookup_delete_Some. by apply (Hno name).
  - unfold drop_file. case_match; [|apply Hno]. intros [_ Hown]%lookup_delete_Some. by apply (Hno name).
Qed.

Lemma foreign_nsteps digest n s s' :
  nsteps (fun a b => ∃ id, task_step digest id a b) n s s' →
  (∀ name, files s !! name ≠ Some Foreign) → ∀ name, files s' !! name ≠ Some Foreign.
Proof. induction 1 as [|n s1 s2 s3 [id Hstep] _ IH]; [done|]. eauto using foreign_step. Qed.

(** ** Theorems *)

(** C7: however submissions interleave with each other and with other
    processes, no two invocations execute on the same output base, none
    executes while another process holds its lock file, no more execute than
    [global_concurrency] allows and no more are admitted than
    [maximum_pending_invocations], and the published active count is the number
    of live invocations, which every accepted submission is one of. *)
Theorem executions_are_exclusive (digest : PathBuf → string)
    (global_concurrency maximum_pending : Z) (s : System) :
  0 ≤ global_concurrency → 0 ≤ maximum_pending →
  rtc (step digest) (start global_concurrency maximum_pending) s →
  (∀ id id' t t', submissions s !! id = Some t → submissions s !! id' = Some t' →
     is_executing t = true → is_executing t' = true → lock_key t = lock_key t' → id = id') ∧
  (∀ id t, submissions s !! id = Some t → is_executing t = true →
     files s !! digest (lock_key t) = Some (Mine id)) ∧
  count is_executing (submissions s) ≤ global_concurrency ∧
  Z.of_nat (size (submissions s)) ≤ maximum_pending ∧
  active_count (scheduler s) = live_count (scheduler s) ∧
  (∀ id t, submissions s !! id = Some t → stage t ≠ Preparing →
     cancellation_of id (scheduler s) = Some (token t)).
Proof.
  intros HG HM Hreach. apply reachable_consistent in Hreach as (Hp & Hr & Hl); [|done..].
  assert (∀ t, is_executing t = true → has_file t = true ∧ has_permit t = true) as Hex.
  { intros t. unfold is_executing, has_file, has_permit. by destruct (stage t). }
  assert (∀ id t, submissions s !! id = Some t → is_executing t = true →
    files s !! digest (lock_key t) = Some (Mine id)) as Hfile.
  { intros id t Hid Ht. apply (locked_file _ _ Hl). exists t. split_and!; [done|by apply Hex|done]. }
  destruct Hp as [Hg Hg0 Hpe Hp0]. split_and!; [|done| | |apply Hr|apply Hr].
  - intros id id' t t' Hid Hid' Ht Ht' Hkey. apply Hfile in Hid, Hid'; [|done..]. congruence.
  - assert (count is_executing (submissions s) ≤ count has_permit (submissions s)); [|lia].
    apply count_le. apply Hex.
  - assert (count (fun _ => true) (submissions s) = Z.of_nat (size (submissions s))) as <-; [|lia].
    unfold count. by rewrite map_filter_id.
Qed.

(** C26: the scheduler drains: with a positive concurrency limit and no lock
    file held by another process, the submissions of any reachable state take at
    most eight steps each however they interleave, and as long as one is left
    some submission can take its next step; so no interleaving of them
    deadlocks or runs for ever. *)
Theorem scheduler_drains (digest : PathBuf → string)
    (global_concurrency maximum_pending : Z) (s s' : System) (n : nat) :
  0 < global_concurrency → 0 ≤ maximum_pending →
  rtc (step digest) (start global_concurrency maximum_pending) s →
  (∀ name, files s !! name ≠ Some Foreign) →
  nsteps (fun a b => ∃ id, task_step digest id a b) n s s' →
  Z.of_nat n ≤ 8 * Z.of_nat (size (submissions s)) ∧
  (submissions s' ≠ ∅ → ∃ id s'', task_step digest id s' s'').
Proof.
  intros HG HM Hreach Hf Hn. split.
  - pose proof (remaining_nsteps _ _ _ _ Hn). pose proof (remaining_bounds (submissions s)).
    pose proof (remaining_bounds (submissions s')). lia.
  - intros (id & t & Hid)%map_choose. eapply progress; [exact HG| |exact Hid|].
    + apply (reachable_consistent _ _ maximum_pending); [lia|done|]. etrans; [exact Hreach|].
      apply rtc_nsteps_2 in Hn. revert Hn. apply rtc_subrel. intros a b [i Hi]. left. by exists i.
    + by apply (foreign_nsteps _ _ _ _ Hn).
Qed.

(** ** Witnesses *)

(** One submission, from its admission to its execution. *)
Definition sample_digest (key : PathBuf) : string := key.
Definition sample_submission (st : Stage) : Submission := MkSubmission "/base" 0 st.
Definition sample_admitted : System :=
  MkSystem (set_pending 1 (new_scheduler 1 2)) {[1 := sample_submission Preparing]} ∅ ∅.
Definition sample_accepted : System :=
  MkSystem (register 1 0 Queued (set_pending 1 (new_scheduler 1 2)))
    {[1 := sample_submission Prepared]} ∅ ∅.

Lemma sample_admit : rtc (step sample_digest) (start 1 2) sample_admitted.
Proof.
  apply rtc_once. right.
  apply (step_admit sample_digest 1 "/base" 0%nat (start 1 2) (set_pending 1 (new_scheduler 1 2)));
    reflexivity.
Qed.

Lemma sample_accept : rtc (step sample_digest) (start 1 2) sample_accepted.
Proof.
  etrans; [apply sample_admit|]. apply rtc_once. left. exists 1.
  by apply (step_accept sample_digest 1 (sample_submission Preparing) sample_admitted).
Qed.

Lemma executions_are_exclusive_witness :
  cancellation_of 1 (scheduler sample_accepted) = Some 0%nat.
Proof.
  destruct (executions_are_exclusive sample_digest 1 2 sample_accepted ltac:(lia) ltac:(lia)
    sample_accept) as (_ & _ & _ & _ & _ & Hlive).
  exact (Hlive 1 (sample_submission Prepared) eq_refl ltac:(discriminate)).
Defined.

Lemma scheduler_drains_witness :
  ∃ id s'', task_step sample_digest id sample_accepted s''.
Proof.
  refine (proj2 (scheduler_drains sample_digest 1 2 sample_accepted sample_accepted 0
    ltac:(lia) ltac:(lia) sample_accept _ _) _).
  - intros name. cbn [files sample_accepted]. by rewrite lookup_empty.
  - apply nsteps_O.
  - discriminate.
Defined.
