(* ===== verification/Text.v ===== *)
(** * Text (the Rust string operations the runner and the reducers use)

    [str] as the sequence of its UTF-8 bytes: trimming by the Unicode
    [White_Space] property, lines, searching and splitting by a string,
    replacing, and parsing of unsigned integers. *)

From S2P Require Import Prelude.
From Stdlib Require Import Ascii.

(** ** White space *)

(** The UTF-8 encodings of the characters with the [White_Space] property, by
    their length. *)
Definition space1 (a : Z) : bool := ((9 <=? a) && (a <=? 13)) || (a =? 32).
Definition space2 (a b : Z) : bool := (a =? 0xC2) && ((b =? 0x85) || (b =? 0xA0)).
Definition space3 (a b c : Z) : bool :=
  ((a =? 0xE1) && (b =? 0x9A) && (c =? 0x80))
  || ((a =? 0xE2) && (b =? 0x80) &&
      (((0x80 <=? c) && (c <=? 0x8A)) || (c =? 0xA8) || (c =? 0xA9) || (c =? 0xAF)))
  || ((a =? 0xE2) && (b =? 0x81) && (c =? 0x9F))
  || ((a =? 0xE3) && (b =? 0x80) && (c =? 0x80)).

(** [str::trim_start]. *)
Fixpoint trim_start (s : string) : string :=
  match s with
  | EmptyString => s
  | String a s1 =>
      if space1 (byte_of a) then trim_start s1
      else match s1 with
           | EmptyString => s
           | String b s2 =>
               if space2 (byte_of a) (byte_of b) then trim_start s2
               else match s2 with
                    | EmptyString => s
                    | String c s3 =>
                        if space3 (byte_of a) (byte_of b) (byte_of c) then trim_start s3 else s
                    end
           end
  end.

(** [str::trim().is_empty()]. *)
Definition blank (s : string) : bool := bool_decide (trim_start s = "").

(** [str::trim_end]: the longest suffix of white space is cut.  No encoding of a
    white-space character starts with a continuation byte, so the cut is at a
    character boundary. *)
Fixpoint trim_end (s : string) : string :=
  match s with
  | EmptyString => EmptyString
  | String a rest => if blank s then EmptyString else String a (trim_end rest)
  end.

Definition trim (s : string) : string := trim_end (trim_start s).

(** [chars().any(char::is_whitespace)]. *)
Fixpoint has_whitespace (s : string) : bool :=
  match s with
  | EmptyString => false
  | String a s1 =>
      space1 (byte_of a)
      || match s1 with
         | EmptyString => false
         | String b s2 =>
             space2 (byte_of a) (byte_of b)
             || match s2 with
                | EmptyString => false
                | String c _ => space3 (byte_of a) (byte_of b) (byte_of c)
                end
         end
      || has_whitespace s1
  end.

(** ** Lines *)

Definition newline : ascii := ascii_of_nat 10.
Definition carriage_return : ascii := ascii_of_nat 13.

(** [str::strip_suffix] for one character. *)
Fixpoint strip_last (c : ascii) (s : string) : option string :=
  match s with
  | EmptyString => None
  | String a EmptyString => if Ascii.eqb a c then Some EmptyString else None
  | String a rest => String a <$> strip_last c rest
  end.

Definition chomp (line : string) : string := default line (strip_last carriage_return line).

(** [str::lines]: a terminator is a line feed with an optional carriage return
    before it; the last line needs none. *)
Fixpoint lines_from (line : string) (s : string) : list string :=
  match s with
  | EmptyString => if bool_decide (line = "") then [] else [line]
  | String a rest =>
      if Ascii.eqb a newline then chomp line :: lines_from "" rest
      else lines_from (line +:+ String a "") rest
  end.
Definition lines (s : string) : list string := lines_from "" s.

(** ** Searching *)

(** [str::split_once] for a string pattern. *)
Fixpoint split_once_str (pattern s : string) : option (string * string) :=
  match strip_prefix pattern s with
  | Some rest => Some ("", rest)
  | None =>
      match s with
      | EmptyString => None
      | String a rest =>
          match split_once_str pattern rest with
          | Some (l, r) => Some (String a l, r)
          | None => None
          end
      end
  end.

Definition contains_str (s pattern : string) : bool := bool_decide (is_Some (split_once_str pattern s)).

(** [str::rsplit_once] for a string pattern. *)
Fixpoint rsplit_once_str (pattern s : string) : option (string * string) :=
  match s with
  | EmptyString => (fun rest => ("", rest)) <$> strip_prefix pattern s
  | String a rest =>
      match rsplit_once_str pattern rest with
      | Some (l, r) => Some (String a l, r)
      | None => (fun rest => ("", rest)) <$> strip_prefix pattern s
      end
  end.

(** [str::replace] for a string pattern: matches are taken from the left and do
    not overlap; [skip] bytes of the current match are still to be passed.  The
    empty pattern matches at every character boundary. *)
Fixpoint replace_from (pattern replacement : string) (skip : nat) (s : string) : string :=
  match s with
  | EmptyString => EmptyString
  | String a rest =>
      match skip with
      | S skip => replace_from pattern replacement skip rest
      | O =>
          if starts_with s pattern
          then replacement +:+ replace_from pattern replacement (String.length pattern - 1) rest
          else String a (replace_from pattern replacement 0 rest)
      end
  end.

Fixpoint intersperse (replacement s : string) : string :=
  match s with
  | EmptyString => replacement
  | String a rest =>
      (if (0x80 <=? byte_of a) && (byte_of a <=? 0xBF) then "" else replacement)
        +:+ String a (intersperse replacement rest)
  end.

Definition replace (s pattern replacement : string) : string :=
  if bool_decide (pattern = "") then intersperse replacement s
  else replace_from pattern replacement 0 s.

(** ** Case and suffixes *)

(** [str::to_ascii_lowercase]. *)
Fixpoint to_ascii_lowercase (s : string) : string :=
  match s with
  | EmptyString => ""
  | String c rest => String (ascii_of_N (Z.to_N (lower_byte (byte_of c)))) (to_ascii_lowercase rest)
  end.

(** [str::ends_with]. *)
Definition ends_with (s suffix : string) : bool :=
  bool_decide (drop (length (bytes_of s) - length (bytes_of suffix)) (bytes_of s) = bytes_of suffix).

(** [trim_matches] for one character. *)
Fixpoint trim_start_char (c : ascii) (s : string) : string :=
  match s with
  | String a rest => if Ascii.eqb a c then trim_start_char c rest else s
  | EmptyString => EmptyString
  end.
Fixpoint trim_end_char (c : ascii) (s : string) : string :=
  match s with
  | EmptyString => EmptyString
  | String a rest => if bool_decide (trim_start_char c s = "") then EmptyString else String a (trim_end_char c rest)
  end.
Definition trim_matches (c : ascii) (s : string) : string := trim_end_char c (trim_start_char c s).

(** [str::replace] of one ASCII character by another. *)
Fixpoint replace_char (from to : ascii) (s : string) : string :=
  match s with
  | EmptyString => EmptyString
  | String a rest => String (if Ascii.eqb a from then to else a) (replace_char from to rest)
  end.

(** The first [n] items of [str::split] for a string pattern. *)
Fixpoint split_take (n : nat) (pattern s : string) : list string :=
  match n with
  | O => []
  | S n => match split_once_str pattern s with
           | Some (item, rest) => item :: split_take n pattern rest
           | None => [s]
           end
  end.

(** ** Numbers *)

Definition digit (c : ascii) : option Z :=
  let b := byte_of c in if (48 <=? b) && (b <=? 57) then Some (b - 48) else None.

Fixpoint digits_from (acc maximum : Z) (s : string) : option Z :=
  match s with
  | EmptyString => Some acc
  | String c rest =>
      d ← digit c;
      if maximum <? acc * 10 + d then None else digits_from (acc * 10 + d) maximum rest
  end.

(** [parse::<uN>()], of an unsigned type with the given maximum: an optional
    sign, then one digit at least, and no overflow. *)
Definition parse_unsigned (maximum : Z) (s : string) : option Z :=
  match s with
  | EmptyString => None
  | String a rest =>
      let digits := if Ascii.eqb a "+" then rest else s in
      if bool_decide (digits = "") then None else digits_from 0 maximum digits
  end.
Definition parse_u32 : string → option Z := parse_unsigned u32_max.
Definition parse_usize : string → option Z := parse_unsigned usize_max.
