(* ===== verification/Runner.v ===== *)
(** * Runner configuration, drivers and command lines
    (crates/bazel-mcp-runner/src/service.rs, driver.rs, path_args.rs and the
    command construction of execution.rs)

    The settings of the runner and their validation, the choice between Bazel
    and the Aspect CLI, the checks a request passes before it is admitted, and
    the argument vector the chosen program is started with.  A [Duration] is its
    number of nanoseconds. *)

From stdpp Require Import pretty.
From Stdlib Require Import Ascii.
From S2P Require Import Prelude Collections Types Policy Record Text.
#[global] Open Scope Z_scope.

(** ** Durations *)

Abbreviation Duration := Z (only parsing).
Definition from_secs (n : Z) : Duration := n * 1000000000.
Definition from_millis (n : Z) : Duration := n * 1000000.
Definition as_secs (d : Duration) : Z := d / 1000000000.
(** [Duration::saturating_add], of durations up to [u64::MAX] seconds. *)
Definition duration_max : Duration := from_secs u64_max + 999999999.
Definition duration_add (a b : Duration) : Duration := Z.min (a + b) duration_max.
Definition is_zero (d : Duration) : bool := d =? 0.

(** [duration_millis]. *)
Definition duration_millis (d : Duration) : Z := u64_try_from_or_max (d / 1000000).

(** ** Reducer limits (reducer/src/starlark.rs) *)

Record StarlarkLimits : Type := MkLimits {
  max_source_bytes : Z;
  max_input_bytes : Z;
  max_events : Z;
  max_output_bytes : Z;
  max_output_items : Z;
  max_ticks : Z;
  max_heap_bytes : Z;
  max_callstack_size : Z;
  starlark_timeout : Duration;
}.
Definition default_limits : StarlarkLimits :=
  MkLimits (256 * 1024) (1024 * 1024) 10000 (64 * 1024) 1000 1000000 (16 * 1024 * 1024) 100 (from_millis 100).

Record StarlarkReducerConfig : Type := MkStarlarkConfig {
  reducer_files : list PathBuf;
  limits : StarlarkLimits;
}.

Definition validate_limits (l : StarlarkLimits) : result string unit :=
  reject_if ((max_source_bytes l =? 0) || (max_input_bytes l =? 0) || (max_events l =? 0)
             || (max_output_bytes l =? 0) || (max_output_items l =? 0) || (max_ticks l =? 0)
             || (max_heap_bytes l =? 0) || (max_callstack_size l =? 0) || is_zero (starlark_timeout l))
    "all Starlark reducer resource limits must be greater than zero".

Record RawStarlarkConfig : Type := MkRawStarlark {
  raw_files : list PathBuf;
  raw_max_source_bytes : Z;
  raw_max_input_bytes : Z;
  raw_max_events : Z;
  raw_max_output_bytes : Z;
  raw_max_output_items : Z;
  raw_max_ticks : Z;
  raw_max_heap_bytes : Z;
  raw_max_callstack_size : Z;
  raw_timeout_ms : Z;
}.

(** [TryFrom<RawStarlarkConfig> for StarlarkReducerConfig]. *)
Definition starlark_try_from (raw : RawStarlarkConfig) : result string StarlarkReducerConfig :=
  let config := MkStarlarkConfig (raw_files raw)
    (MkLimits (raw_max_source_bytes raw) (raw_max_input_bytes raw) (raw_max_events raw)
       (raw_max_output_bytes raw) (raw_max_output_items raw) (raw_max_ticks raw) (raw_max_heap_bytes raw)
       (raw_max_callstack_size raw) (from_millis (raw_timeout_ms raw))) in
  _ ← validate_limits (limits config);
  Ok config.

(** ** Aspect CLI routing (driver.rs) *)

Record AspectConfig : Type := MkAspect {
  aspect_executable : option PathBuf;
  aspect_commands : gset string;
  allow_workspace_mutation : bool;
}.

Definition enabled (self : AspectConfig) : bool := negb (bool_decide (aspect_commands self = ∅)).
Definition routes (self : AspectConfig) (command : BazelCommand) : bool :=
  bool_decide (command_as_str command ∈ aspect_commands self).
Definition has_invalid_command (self : AspectConfig) : bool :=
  existsb (fun command => bool_decide (command = "") || starts_with command "-" || has_whitespace command)
    (elements (aspect_commands self)).

Inductive ExecutionDriver : Type :=
| BazelDriver (executable : PathBuf)
| AspectDriver (executable : PathBuf) (bazel_executable : PathBuf).

Definition is_aspect (d : ExecutionDriver) : bool :=
  match d with AspectDriver _ _ => true | BazelDriver _ => false end.
Definition driver_executable (d : ExecutionDriver) : PathBuf :=
  match d with BazelDriver executable | AspectDriver executable _ => executable end.
Definition bazel_executable (d : ExecutionDriver) : PathBuf :=
  match d with BazelDriver executable | AspectDriver _ executable => executable end.
Definition display_name (d : ExecutionDriver) : string :=
  match d with BazelDriver _ => "Bazel" | AspectDriver _ _ => "Aspect CLI" end.
Definition command_class (d : ExecutionDriver) (command : BazelCommand) : CommandClass :=
  if is_aspect d && bool_decide (command_as_str command ∈ ["build"; "test"; "lint"])
  then BuildLike else class command.

(** ** Configuration (service.rs) *)

Inductive BepTransport : Type := Tail | Fifo | Bes.
#[export] Instance BepTransport_eq_dec : EqDecision BepTransport.
Proof. solve_decision. Defined.

Record RunnerConfig : Type := MkRunnerConfig {
  policy : PolicyConfig;
  default_timeout : Duration;
  maximum_timeout : Duration;
  maximum_run_output_bytes : Z;
  cancellation_interrupt_grace : Duration;
  cancellation_terminate_grace : Duration;
  global_concurrency : Z;
  output_user_root : option PathBuf;
  isolated_bazel_server_idle_timeout : Duration;
  supported_bazel_major_versions : gset Z;
  allow_unsupported_bazel_versions : bool;
  version_check_timeout : Duration;
  maximum_pending_invocations : Z;
  output_base_lock_root : PathBuf;
  bep_transport : BepTransport;
  aspect : AspectConfig;
  starlark_reducers : StarlarkReducerConfig;
}.

Definition default_aspect : AspectConfig := MkAspect None ∅ false.

(** [RunnerConfig::default]; the lock root is read from the environment. *)
Definition default_runner_config (default_output_base_lock_root : PathBuf) : RunnerConfig :=
  MkRunnerConfig default_policy_config (from_secs (30 * 60)) (from_secs (2 * 60 * 60)) (256 * 1024 * 1024)
    (from_secs 10) (from_secs 5) 4 None (from_secs 60) {[8; 9]} false (from_secs 30) 256
    default_output_base_lock_root Tail default_aspect (MkStarlarkConfig [] default_limits).

Inductive RunnerError (IoError RegexError : Type) : Type :=
| RPolicy (error : Policy.PolicyError IoError RegexError)
| RStore (error : StoreError)
| RIo (error : IoError)
| RJoin (message : string)
| SchedulerClosed
| QueueFull (maximum : Z)
| InvalidConfiguration (message : string)
| UnsupportedBazelVersion (detected : Z) (supported : list Z)
| VersionCheck (message : string)
| AlreadyTerminal (id : InvocationId)
| InvalidOffset
| ResponseTooLarge (limit : Z)
| CancelledBeforeAcceptance
| WaitCancelled (id : InvocationId)
| RJson (message : string)
| RBes (message : string)
| BesBackendConflict
| BesUploadModeConflict
| ReducerConfiguration (message : string).
Arguments RPolicy {_ _} _.
Arguments RStore {_ _} _.
Arguments RIo {_ _} _.
Arguments RJoin {_ _} _.
Arguments SchedulerClosed {_ _}.
Arguments QueueFull {_ _} _.
Arguments InvalidConfiguration {_ _} _.
Arguments UnsupportedBazelVersion {_ _} _ _.
Arguments VersionCheck {_ _} _.
Arguments AlreadyTerminal {_ _} _.
Arguments InvalidOffset {_ _}.
Arguments ResponseTooLarge {_ _} _.
Arguments CancelledBeforeAcceptance {_ _}.
Arguments WaitCancelled {_ _} _.
Arguments RJson {_ _} _.
Arguments RBes {_ _} _.
Arguments BesBackendConflict {_ _}.
Arguments BesUploadModeConflict {_ _}.
Arguments ReducerConfiguration {_ _} _.

Section runner.
Context {IoError RegexError : Type}.
Abbreviation RunnerError := (RunnerError IoError RegexError).

(** [RunnerConfig::validate]. *)
Definition validate (self : RunnerConfig) : result RunnerError unit :=
  _ ← reject_if (global_concurrency self =? 0)
        (InvalidConfiguration "global concurrency must be greater than zero");
  _ ← reject_if (maximum_pending_invocations self <? global_concurrency self)
        (InvalidConfiguration "maximum pending invocations must be at least global concurrency");
  _ ← reject_if (is_zero (maximum_timeout self))
        (InvalidConfiguration "maximum timeout must be greater than zero");
  _ ← reject_if (maximum_run_output_bytes self =? 0)
        (InvalidConfiguration "maximum run output bytes must be greater than zero");
  _ ← reject_if (maximum_timeout self <? default_timeout self)
        (InvalidConfiguration "default timeout exceeds maximum timeout");
  _ ← reject_if (is_zero (version_check_timeout self))
        (InvalidConfiguration "version check timeout must be greater than zero");
  _ ← reject_if (is_zero (isolated_bazel_server_idle_timeout self))
        (InvalidConfiguration "isolated Bazel server idle timeout must be greater than zero");
  _ ← reject_if (bool_decide (output_base_lock_root self = ""))
        (InvalidConfiguration "output-base lock root must not be empty");
  _ ← reject_if (has_invalid_command (aspect self))
        (InvalidConfiguration "Aspect routes must be non-empty command names without whitespace or a leading dash");
  _ ← reject_if (bool_decide ("run" ∈ aspect_commands (aspect self)))
        (InvalidConfiguration "bazel run cannot be routed through Aspect CLI");
  _ ← reject_if (existsb (fun command => negb (bool_decide (command ∈ allowed_commands (policy self)))
                                         || bool_decide (command ∈ denied_commands (policy self)))
                   (elements (aspect_commands (aspect self))))
        (InvalidConfiguration "every Aspect route must also be allowed by command policy");
  reject_if (negb (allow_unsupported_bazel_versions self)
             && bool_decide (supported_bazel_major_versions self = ∅))
    (InvalidConfiguration "supported Bazel major versions must not be empty").

Record RawRunnerConfig : Type := MkRawRunner {
  raw_default_timeout_seconds : Z;
  raw_maximum_timeout_seconds : Z;
  raw_maximum_run_output_bytes : Z;
  raw_cancellation_interrupt_grace_seconds : Z;
  raw_cancellation_terminate_grace_seconds : Z;
  raw_global_concurrency : Z;
  raw_output_user_root : option PathBuf;
  raw_isolated_bazel_server_idle_seconds : Z;
  raw_supported_bazel_major_versions : gset Z;
  raw_allow_unsupported_bazel_versions : bool;
  raw_version_check_timeout_seconds : Z;
  raw_maximum_pending_invocations : Z;
  raw_bep_transport : BepTransport;
  raw_aspect : AspectConfig;
  raw_starlark : RawStarlarkConfig;
}.

(** [TryFrom<(RawRunnerConfig, PolicyConfig)> for RunnerConfig]. *)
Definition runner_try_from (default_output_base_lock_root : PathBuf) (raw : RawRunnerConfig)
    (policy : PolicyConfig) : result RunnerError RunnerConfig :=
  starlark ← match starlark_try_from (raw_starlark raw) with
             | Ok starlark => Ok starlark
             | Err error => Err (ReducerConfiguration error)
             end;
  let config := MkRunnerConfig policy (from_secs (raw_default_timeout_seconds raw))
    (from_secs (raw_maximum_timeout_seconds raw)) (raw_maximum_run_output_bytes raw)
    (from_secs (raw_cancellation_interrupt_grace_seconds raw))
    (from_secs (raw_cancellation_terminate_grace_seconds raw)) (raw_global_concurrency raw)
    (raw_output_user_root raw) (from_secs (raw_isolated_bazel_server_idle_seconds raw))
    (raw_supported_bazel_major_versions raw) (raw_allow_unsupported_bazel_versions raw)
    (from_secs (raw_version_check_timeout_seconds raw)) (raw_maximum_pending_invocations raw)
    default_output_base_lock_root (raw_bep_transport raw) (raw_aspect raw) starlark in
  _ ← validate config;
  Ok config.

(** ** Admission *)

(** [is_flag] of service.rs. *)
Definition is_option (argument flag : string) : bool :=
  bool_decide (argument = flag) ||
  match strip_prefix flag argument with Some suffix => starts_with suffix "=" | None => false end.

Definition policy_error {A} (r : result (Policy.PolicyError IoError RegexError) A) : result RunnerError A :=
  match r with Ok a => Ok a | Err error => Err (RPolicy error) end.

(** The checks of [prepare_submission] on the request itself, up to the pending
    permit; the answer is [uses_aspect]. *)
Definition validate_request (unix : bool) (config : RunnerConfig) (q : InvocationRequest)
    : result RunnerError bool :=
  _ ← policy_error (validate_command (policy config) (command q));
  _ ← policy_error (validate_arguments (startup_arguments q));
  _ ← policy_error (validate_arguments (arguments q));
  _ ← policy_error (validate_run_arguments unix (command q) (arguments q) (target q) (program_arguments q));
  let uses_aspect := routes (aspect config) (command q) in
  _ ← policy_error
        (if uses_aspect
         then validate_aspect_arguments (command q) (arguments q) (allow_workspace_mutation (aspect config))
         else validate_query_arguments (command q) (arguments q));
  _ ← reject_if (negb uses_aspect && bool_decide (bep_transport config = Bes)
                 && existsb (fun argument => is_option argument "--bes_backend") (arguments q))
        BesBackendConflict;
  _ ← reject_if (negb uses_aspect && bool_decide (bep_transport config = Bes)
                 && existsb (fun argument => is_option argument "--bes_upload_mode") (arguments q))
        BesUploadModeConflict;
  Ok uses_aspect.
End runner.

(** ** Paths in arguments (path_args.rs) *)

Definition verbatim : string := "\\?\".
Definition verbatim_unc : string := "\\?\UNC\".

Definition is_ascii_alphabetic (b : Z) : bool :=
  ((65 <=? b) && (b <=? 90)) || ((97 <=? b) && (b <=? 122)).

Definition windows_bazel_path (path : string) : string :=
  match strip_prefix verbatim_unc path with
  | Some unc => "\\" +:+ unc
  | None =>
      match strip_prefix verbatim path with
      | Some drive =>
          match bytes_of drive with
          | letter :: 58 :: 92 :: _ => if is_ascii_alphabetic letter then drive else path
          | _ => path
          end
      | None => path
      end
  end.

(** [bazel_path] on the platform the program is compiled for. *)
Definition bazel_path (windows : bool) (path : PathBuf) : string :=
  if windows then windows_bazel_path path else path.

Fixpoint trim_end_slashes (s : string) : string :=
  match s with
  | EmptyString => EmptyString
  | String a rest =>
      match trim_end_slashes rest with
      | EmptyString => if Ascii.eqb a "/"%char then EmptyString else String a EmptyString
      | trimmed => String a trimmed
      end
  end.

(** [path.get(..n)]: the first [n] bytes, when they end at a character. *)
Definition get_prefix (n : nat) (s : string) : option string :=
  if (n <=? String.length s)%nat
     && match drop n (bytes_of s) with
        | b :: _ => negb ((0x80 <=? b) && (b <=? 0xBF))
        | [] => true
        end
  then Some (string_of_bytes (take n (bytes_of s))) else None.

Definition backslash_to_slash (s : string) : string := replace s "\" "/".

Definition workspace_relative_path (path workspace : string) (windows : bool) : string :=
  let '(path, workspace) :=
    if windows then (backslash_to_slash (windows_bazel_path path), backslash_to_slash (windows_bazel_path workspace))
    else (path, workspace) in
  let workspace := trim_end_slashes workspace in
  let n := String.length workspace in
  match get_prefix n path with
  | Some prefix =>
      if if windows then eq_ignore_ascii_case prefix workspace else bool_decide (prefix = workspace)
      then default path (strip_prefix "/" (string_of_bytes (drop n (bytes_of path))))
      else path
  | None => path
  end.

(** ** Command lines (execution.rs) *)

Definition captures_bep (c : CommandClass) : bool :=
  match c with BuildLike | RunClass => true | _ => false end.

(** The BEP transport of an execution. *)
Definition execution_transport (config : RunnerConfig) (d : ExecutionDriver) : BepTransport :=
  if is_aspect d then Bes else bep_transport config.

Definition is_test_command (c : BazelCommand) : bool :=
  match c with Test | Coverage => true | _ => false end.

Definition CAPTURE_ID_HEADER : string := "x-bazel-mcp-invocation-id".

Definition presentation_flags : list string :=
  ["--tool_tag=bazel-mcp"; "--color=no"; "--curses=no"; "--show_progress=false"; "--show_result=0"].
Definition test_flags (c : BazelCommand) : list string :=
  if is_test_command c then ["--test_output=errors"; "--test_summary=short"] else [].
Definition run_flags (c : BazelCommand) : list string :=
  if decide (c = Run) then
    ["--run=true"; "--omit_run_args=true"; "--noexperimental_run_bep_event_include_residue";
     "--subcommands=false"]
  else [].

(** A process to spawn. *)
Record ProcessCommand : Type := MkProcess {
  program : PathBuf;
  current_dir : PathBuf;
  process_env : gmap string string;
  process_args : list string;
}.

Section command_line.
Context {IoError RegexError : Type}.
Context (windows : bool) (id_string : InvocationId → string).
Abbreviation RunnerError := (RunnerError IoError RegexError).

Definition output_root_flags (config : RunnerConfig) : list string :=
  match output_user_root config with
  | Some root =>
      ["--output_user_root=" +:+ bazel_path windows root;
       "--max_idle_secs=" +:+ pretty (as_secs (isolated_bazel_server_idle_timeout config))]
  | None => []
  end.

(** The flags that select the transport; [bep_output] is the FIFO when one was
    prepared and the BEP file otherwise, [endpoint] that of the BES server. *)
Definition transport_flags (transport : BepTransport) (bep_file bep_output : PathBuf)
    (endpoint : option string) : result RunnerError (list string) :=
  match transport with
  | Tail => Ok ["--build_event_binary_file=" +:+ bazel_path windows bep_file;
                "--build_event_binary_file_path_conversion=false"]
  | Fifo => Ok ["--build_event_binary_file=" +:+ bazel_path windows bep_output;
                "--build_event_binary_file_path_conversion=false"]
  | Bes => endpoint ← ok_or endpoint (InvalidConfiguration "BES transport was not initialized");
           Ok ["--bes_backend=" +:+ endpoint; "--bes_upload_mode=wait_for_upload_complete"]
  end.

(** The flags the runner owns on a Bazel command line. *)
Definition owned_flags (q : InvocationRequest) (transport : list string) : list string :=
  ("--invocation_id=" +:+ id_string (request_id q)) :: transport
    ++ presentation_flags ++ test_flags (command q) ++ run_flags (command q).

(** What follows the arguments; a [run] request without a target panics. *)
Definition run_suffix (q : InvocationRequest) : option (list string) :=
  if decide (command q = Run) then (fun target => target :: "--" :: program_arguments q) <$> target q
  else Some [].

(** The arguments for the Bazel driver; [None] is a panic. *)
Definition bazel_arguments (config : RunnerConfig) (q : InvocationRequest) (c : CommandClass)
    (transport : BepTransport) (bep_file bep_output : PathBuf) (endpoint : option string)
    : option (result RunnerError (list string)) :=
  match (if captures_bep c
         then owned_flags q <$> transport_flags transport bep_file bep_output endpoint
         else Ok []) with
  | Err error => Some (Err error)
  | Ok owned =>
      suffix ← run_suffix q;
      Some (Ok (output_root_flags config ++ startup_arguments q ++ [command_as_str (command q)]
                  ++ owned ++ arguments q ++ suffix))
  end.

(** The flags the runner owns on an Aspect command line. *)
Definition aspect_owned_flags (q : InvocationRequest) (endpoint : string) : list string :=
  map (String.append "--bazel-flag=")
    (("--invocation_id=" +:+ id_string (request_id q)) :: presentation_flags ++ test_flags (command q))
  ++ ["--bes-backend=" +:+ endpoint;
      "--bes-header=" +:+ CAPTURE_ID_HEADER +:+ "=" +:+ id_string (request_id q)].

Definition aspect_arguments (config : RunnerConfig) (q : InvocationRequest) (c : CommandClass)
    (endpoint : option string) : result RunnerError (list string) :=
  owned ← (if decide (c = BuildLike) then
             endpoint ← ok_or endpoint (InvalidConfiguration "Aspect capture BES was not initialized");
             Ok (aspect_owned_flags q endpoint)
           else Ok []);
  Ok ([("--task:id=" +:+ id_string (request_id q)); "--task:timing-summary=none";
       command_as_str (command q)]
        ++ map (String.append "--bazel-startup-flag=") (output_root_flags config ++ startup_arguments q)
        ++ owned ++ arguments q).

(** The process [start_execution] spawns. *)
Definition build_command (config : RunnerConfig) (d : ExecutionDriver) (q : InvocationRequest)
    (bep_file bep_output : PathBuf) (endpoint : option string) (vars : list (string * string))
    : option (result RunnerError ProcessCommand) :=
  let c := command_class d (command q) in
  let env := filtered_environment (policy config) windows vars in
  match d with
  | BazelDriver executable =>
      r ← bazel_arguments config q c (execution_transport config d) bep_file bep_output endpoint;
      Some (args ← r; Ok (MkProcess executable (workspace q) env args))
  | AspectDriver executable bazel_executable =>
      Some (args ← aspect_arguments config q c endpoint;
            Ok (MkProcess executable (workspace q) (<["BAZEL_REAL" := bazel_executable]> env) args))
  end.
End command_line.

(** ** The server PID probe *)

(** The arguments of [probe_bazel_server_pid]. *)
Definition probe_arguments (windows : bool) (config : RunnerConfig) (startup_arguments : list string)
    : list string :=
  output_root_flags windows config ++ startup_arguments ++ ["info"; "server_pid"].

Fixpoint find_map {A B} (f : A → option B) (l : list A) : option B :=
  match l with
  | [] => None
  | x :: rest => match f x with Some y => Some y | None => find_map f rest end
  end.

(** The PID in the output of the probe. *)
Definition parse_server_pid (stdout : string) : option Z :=
  pid ← find_map (fun line =>
          let value := match strip_prefix "server_pid:" (trim line) with
                       | Some rest => trim rest
                       | None => trim line
                       end in
          parse_u32 value) (lines stdout);
  if (0 <? pid) && (pid <=? 2 ^ 31 - 1) then Some pid else None.

(** ** The execution plan *)

(** [queue_ms] and [timeout] of [ExecutionPlan::new]. *)
Definition plan_queue_ms (now : Z) (q : InvocationRequest) : Z :=
  let waited := i64_sub now (requested_at_ms q) in if 0 <=? waited then waited else 0.
Definition plan_timeout (config : RunnerConfig) (q : InvocationRequest) : Duration :=
  Z.min (Z.max (from_option from_millis (default_timeout config) (timeout_ms q)) (from_secs 1))
    (maximum_timeout config).

(** * Theorems *)

#[local] Arguments String.append !_ _ / : simpl nomatch.

(** ** Flags *)

(** The name of a flag: what precedes its first equals sign. *)
Definition flag_name (argument : string) : string :=
  match split_once "="%char argument with Some (name, _) => name | None => argument end.

Definition plain_name (flag : string) : bool := bool_decide (split_once "="%char flag = None).

Lemma split_once_plain flag rest :
  split_once "="%char flag = None → split_once "="%char (flag +:+ String "="%char rest) = Some (flag, rest).
Proof.
  induction flag as [|a flag IH]; simpl; [done|]. destruct (Ascii.eqb a "="%char); [done|].
  destruct (split_once _ flag) as [[l r]|]; [done|]. intros _. by rewrite IH.
Qed.

Lemma split_once_inv s l r : split_once "="%char s = Some (l, r) → s = (l +:+ String "="%char r).
Proof.
  revert l. induction s as [|a s IH]; simpl; [done|]. intros l.
  destruct (Ascii.eqb_spec a "="%char) as [-> | _]; [by intros [= <- <-]|].
  destruct (split_once _ s) as [[l' r']|]; [|done]. intros [= <- <-]. simpl. by rewrite (IH l').
Qed.

Lemma append_assoc (s t u : string) : ((s +:+ t) +:+ u) = (s +:+ (t +:+ u)).
Proof. induction s as [|a s IH]; simpl; [done|by rewrite IH]. Qed.

Lemma names_flag_name argument flag :
  plain_name flag = true → names_flag argument flag ↔ flag_name argument = flag.
Proof.
  intros Hplain%bool_decide_eq_true. unfold names_flag, flag_name. split.
  - intros [-> | [value ->]]; [by rewrite Hplain|].
    rewrite append_assoc. change ("=" +:+ value) with (String "="%char value). by rewrite split_once_plain.
  - destruct (split_once _ argument) as [[l r]|] eqn:Hsplit.
    + intros <-. right. exists r. apply split_once_inv in Hsplit as ->. by rewrite append_assoc.
    + intros <-. by left.
Qed.

Lemma is_option_is_flag argument flag : is_option argument flag = is_flag argument flag.
Proof.
  unfold is_option, is_flag. f_equal. apply eq_true_iff_eq. rewrite starts_with_true.
  destruct (strip_prefix flag argument) as [suffix|] eqn:Hprefix.
  - apply strip_prefix_Some in Hprefix as ->. rewrite starts_with_true. split.
    + intros [r ->]. exists r. by rewrite append_assoc.
    + intros [r Hr]. exists r. rewrite append_assoc in Hr.
      revert Hr. induction flag as [|a flag IH]; simpl; [done|]. intros [= Hr]. by apply IH.
  - split; [done|]. intros [r Hr]. rewrite append_assoc in Hr.
    apply strip_prefix_Some in Hr. congruence.
Qed.

#[export] Instance names_flag_dec argument flag : Decision (names_flag argument flag).
Proof. refine (cast_if (decide (is_flag argument flag = true))); by rewrite <- is_flag_true. Defined.

Definition naming (flag argument : string) : Prop := names_flag argument flag.
#[export] Instance naming_dec flag argument : Decision (naming flag argument) := names_flag_dec argument flag.

(** The flags a caller may not give: those the policy reserves and, where the
    build event service is the transport, its two flags. *)
Definition BES_FLAGS : list string := ["--bes_backend"; "--bes_upload_mode"].
Definition OWNED_NAMES : list string := RESERVED_FLAGS ++ BES_FLAGS.

Lemma owned_names_plain flag : flag ∈ OWNED_NAMES → plain_name flag = true.
Proof.
  intros Hin. assert (Forall (fun flag => plain_name flag = true) OWNED_NAMES) as Hall.
  { by apply (bool_decide_unpack _). }
  by eapply Forall_forall in Hall.
Qed.

Lemma filter_none {A} (P : A → Prop) `{!∀ x, Decision (P x)} (l : list A) :
  Forall (fun x => ¬ P x) l → filter P l = [].
Proof. induction 1 as [|x l Hx _ IH]; [done|]. by rewrite filter_cons_False. Qed.

Lemma filter_unique {A K} `{EqDecision K} (f : A → K) (P : A → Prop) `{!∀ x, Decision (P x)} (l : list A) (x : A) :
  NoDup (map f l) → x ∈ l → (∀ y, P y ↔ f y = f x) → filter P l = [x].
Proof.
  intros Hdup Hin HP. induction l as [|y l IH]; [by apply not_elem_of_nil in Hin|].
  simpl in Hdup. apply NoDup_cons in Hdup as [Hy Hdup].
  destruct (decide (f y = f x)) as [Heq | Hne].
  - assert (x = y) as <-.
    { apply elem_of_cons in Hin as [-> | Hin]; [done|]. exfalso. apply Hy.
      rewrite Heq. by apply (list_elem_of_fmap_2 f). }
    rewrite filter_cons_True by (by apply HP). f_equal.
    apply filter_none, Forall_forall. intros z Hz Hpz. apply HP in Hpz. apply Hy.
    rewrite <- Hpz. by apply (list_elem_of_fmap_2 f).
  - rewrite filter_cons_False by (by rewrite HP). apply IH; [done|].
    apply elem_of_cons in Hin as [-> | Hin]; [done|done].
Qed.

(** ** Accepted requests *)

Section accepted.
Context {IoError RegexError : Type}.
Abbreviation validate_request := (validate_request (IoError:=IoError) (RegexError:=RegexError)).

Lemma policy_error_Ok {A} (r : result (PolicyError IoError RegexError) A) a : policy_error r = Ok a ↔ r = Ok a.
Proof. destruct r; simpl; split; congruence. Qed.

Lemma no_option_flag flag arguments :
  existsb (fun argument => is_option argument flag) arguments = false ↔
  Forall (fun argument => ¬ names_flag argument flag) arguments.
Proof.
  induction arguments as [|argument rest IH]; simpl; [split; auto|].
  by rewrite orb_false_iff, Forall_cons, IH, is_option_is_flag, is_flag_false.
Qed.

Record Accepted (unix : bool) (config : RunnerConfig) (q : InvocationRequest) (uses_aspect : bool) : Prop := {
  accepted_routes : uses_aspect = routes (aspect config) (command q);
  accepted_startup : Forall (fun argument => ¬ names_reserved_flag argument) (startup_arguments q);
  accepted_arguments : Forall (fun argument => ¬ names_reserved_flag argument) (arguments q);
  accepted_run : validate_run_arguments (IoError:=IoError) (RegexError:=RegexError) unix (command q)
                   (arguments q) (target q) (program_arguments q) = Ok tt;
  accepted_aspect : uses_aspect = true →
    Forall (aspect_argument_allowed (command q) (allow_workspace_mutation (aspect config))) (arguments q);
  accepted_bes : uses_aspect = false → bep_transport config = Bes →
    Forall (fun argument => ∀ flag, flag ∈ BES_FLAGS → ¬ names_flag argument flag) (arguments q);
}.

Lemma validate_request_accepted unix config q uses_aspect :
  validate_request unix config q = Ok uses_aspect → Accepted unix config q uses_aspect.
Proof.
  unfold validate_request, Runner.validate_request. intros Hok. inv_ok.
  repeat match goal with
  | H : policy_error _ = Ok _ |- _ => apply policy_error_Ok in H
  | u : unit |- _ => destruct u
  end.
  injection Hok as <-.
  repeat match goal with H : validate_arguments _ = Ok tt |- _ => apply validate_arguments_Ok in H as [_ H] end.
  constructor; try done.
  - intros Huse. rewrite Huse in *.
    by match goal with H : validate_aspect_arguments _ _ _ = Ok tt |- _ => apply validate_aspect_arguments_Ok in H end.
  - intros Huse Hbes. rewrite Huse, Hbes in *. simpl in *.
    assert (Forall (fun argument => ¬ names_flag argument "--bes_backend") (arguments q)) as Hbackend
      by (by apply no_option_flag).
    assert (Forall (fun argument => ¬ names_flag argument "--bes_upload_mode") (arguments q)) as Hmode
      by (by apply no_option_flag).
    rewrite Forall_forall in *. intros argument Hin flag Hflag. unfold BES_FLAGS in Hflag.
    apply elem_of_cons in Hflag as [-> | ->%list_elem_of_singleton]; auto.
Qed.

Context (windows : bool) (id_string : InvocationId → string).

(** The runner's own flags have distinct names, all of them protected. *)
Lemma owned_flags_names q transport bep_file bep_output endpoint flags :
  transport_flags (IoError:=IoError) (RegexError:=RegexError) windows transport bep_file bep_output endpoint = Ok flags →
  NoDup (map flag_name (owned_flags id_string q flags)) ∧
  Forall (fun argument => flag_name argument ∈ OWNED_NAMES) (owned_flags id_string q flags).
Proof.
  intros Hflags. unfold owned_flags, test_flags, run_flags, presentation_flags.
  generalize (id_string (request_id q)) as id. intros id.
  assert ((∃ path, flags = ["--build_event_binary_file=" +:+ path; "--build_event_binary_file_path_conversion=false"]) ∨
          (∃ e, flags = ["--bes_backend=" +:+ e; "--bes_upload_mode=wait_for_upload_complete"])) as Hshape.
  { destruct transport; simpl in Hflags.
    - injection Hflags as <-. eauto.
    - injection Hflags as <-. eauto.
    - destruct endpoint as [e|]; [|done]. injection Hflags as <-. eauto. }
  clear Hflags. destruct Hshape as [[path ->] | [e ->]], (is_test_command (command q)), (decide (command q = Run));
    (split; [apply (bool_decide_unpack _); vm_compute; exact I
            |repeat constructor; apply (bool_decide_unpack _); vm_compute; exact I]).
Qed.

(** An argument that names no protected flag is not counted for any. *)
Lemma filter_unprotected (l : list string) flag :
  Forall (fun argument => ¬ names_flag argument flag) l → filter (naming flag) l = [].
Proof. apply filter_none. Qed.

Lemma owned_flag_unique q transport bep_file bep_output endpoint flags argument flag :
  transport_flags (IoError:=IoError) (RegexError:=RegexError) windows transport bep_file bep_output endpoint = Ok flags →
  argument ∈ owned_flags id_string q flags → flag ∈ OWNED_NAMES → names_flag argument flag →
  filter (naming flag) (owned_flags id_string q flags) = [argument].
Proof.
  intros [Hdup _]%(owned_flags_names q) Hin Hflag Hnames.
  apply owned_names_plain in Hflag. apply names_flag_name in Hnames as <-; [|done].
  apply (filter_unique flag_name); [done|done|]. intros y. by apply names_flag_name.
Qed.

(** The flags of the caller that could name a flag of the runner. *)
Lemma accepted_unprotected unix config q uses_aspect flags bep_file bep_output endpoint argument flag :
  Accepted unix config q uses_aspect → uses_aspect = false →
  transport_flags (IoError:=IoError) (RegexError:=RegexError) windows (bep_transport config) bep_file bep_output
    endpoint = Ok flags →
  argument ∈ owned_flags id_string q flags → flag ∈ OWNED_NAMES → names_flag argument flag →
  Forall (fun argument => ¬ names_flag argument flag) (arguments q).
Proof.
  intros Haccepted Huse Hflags Hin Hflag Hnames. unfold OWNED_NAMES in Hflag.
  apply elem_of_app in Hflag as [Hreserved | Hbes].
  - eapply Forall_impl; [apply (accepted_arguments _ _ _ _ Haccepted)|].
    intros a Hno Hname. apply Hno. by exists flag.
  - destruct (decide (bep_transport config = Bes)) as [Htransport | Htransport].
    + eapply Forall_impl; [by apply (accepted_bes _ _ _ _ Haccepted)|]. intros a Hno. by apply Hno.
    + exfalso. apply names_flag_name in Hnames; [|by apply owned_names_plain, elem_of_app; right].
      assert (flag_name argument ∉ BES_FLAGS) as Hnot; [|by rewrite Hnames in Hnot].
      assert (Forall (fun a => flag_name a ∉ BES_FLAGS) (owned_flags id_string q flags)) as Hall;
        [|by eapply Forall_forall in Hall].
      unfold owned_flags, test_flags, run_flags, presentation_flags.
      assert (∃ path, flags = ["--build_event_binary_file=" +:+ path; "--build_event_binary_file_path_conversion=false"])
        as [path ->] by (destruct (bep_transport config); [..|done]; injection Hflags as <-; eauto).
      destruct (is_test_command (command q)), (decide (command q = Run));
        repeat constructor; apply (bool_decide_unpack _); vm_compute; exact I.
Qed.

Lemma owned_name_dash argument flag :
  flag ∈ OWNED_NAMES → names_flag argument flag → starts_with argument "-" = true.
Proof.
  intros Hflag. assert (starts_with flag "-" = true) as [rest ->]%starts_with_true.
  { assert (Forall (fun flag => starts_with flag "-" = true) OWNED_NAMES) as Hall
      by (by apply (bool_decide_unpack _)). by eapply Forall_forall in Hall. }
  intros [-> | [value ->]]; apply starts_with_true; rewrite ?append_assoc; eauto.
Qed.

(** The checks of a request leave it exactly the [run] suffix it may have. *)
Lemma accepted_suffix unix config q uses_aspect :
  Accepted unix config q uses_aspect →
  ∃ suffix, run_suffix q = Some suffix ∧
    Forall (fun argument => starts_with argument "-" = false) (take 1 suffix) ∧
    if decide (command q = Run) then
      (∃ t, target q = Some t ∧ suffix = t :: "--" :: program_arguments q ∧ t ≠ "--") ∧
      Forall (fun argument => argument ≠ "--") (arguments q)
    else suffix = [].
Proof.
  intros Haccepted. pose proof (accepted_run _ _ _ _ Haccepted) as Hrun. unfold run_suffix.
  destruct (decide (command q = Run)) as [Heq | Hne]; [|by exists []].
  destruct unix; [|by unfold validate_run_arguments in Hrun; rewrite Heq in Hrun].
  apply validate_run_arguments_spec in Hrun. rewrite decide_True in Hrun by done.
  destruct Hrun as ((t & Ht & _ & _ & Hdash) & Harguments & _). rewrite Ht. simpl.
  exists (t :: "--" :: program_arguments q). split_and!; [done|by repeat constructor| |].
  - exists t. split_and!; [done|done|]. by intros ->.
  - eapply Forall_impl; [exact Harguments|]. by intros a [_ ?].
Qed.

Lemma owned_flags_dash q transport bep_file bep_output endpoint flags :
  transport_flags (IoError:=IoError) (RegexError:=RegexError) windows transport bep_file bep_output endpoint = Ok flags →
  "--" ∉ owned_flags id_string q flags.
Proof.
  intros [_ Hnames]%(owned_flags_names q) Hin. eapply Forall_forall in Hnames; [|exact Hin].
  revert Hnames. apply (bool_decide_unpack _). vm_compute. exact I.
Qed.


(** ** Aspect command lines *)

(** The settings of an Aspect task that belong to the runner. *)
Definition aspect_protected (argument : string) : Prop :=
  names_flag argument "--task:id" ∨ names_flag argument "--task:timing-summary" ∨
  (∃ nested, argument = ("--bazel-flag=" +:+ nested) ∧
     (names_reserved_flag nested ∨ names_flag nested "--bes_backend" ∨ names_flag nested "--bes_upload_mode")) ∨
  (∃ header, argument = ("--bes-header=" +:+ header) ∧
     eq_ignore_ascii_case (default (header, "") (split_once "="%char header)).1 CAPTURE_ID_HEADER = true).

Lemma allowed_not_protected command mutation argument :
  aspect_argument_allowed command mutation argument → ¬ aspect_protected argument.
Proof.
  intros (Hid & Htiming & _ & _ & _ & Hnested & Hheader & _)
    [? | [? | [(nested & -> & Hflag) | (header & -> & Hname)]]]; [done|done| |].
  - destruct (Hnested nested eq_refl) as (? & ? & ?). tauto.
  - specialize (Hheader header eq_refl). unfold CAPTURE_ID_HEADER in Hname. congruence.
Qed.

(** A protected setting is given by an option, and not by a startup flag. *)
Lemma protected_shape argument :
  aspect_protected argument →
  starts_with argument "-" = true ∧ flag_name argument ≠ "--bazel-startup-flag".
Proof.
  intros [H | [H | [(nested & -> & _) | (header & -> & _)]]]; [| |done..].
  all: destruct H as [-> | [value ->]]; split; apply (bool_decide_unpack _); vm_compute; exact I.
Qed.

Lemma startup_flag_unprotected argument : ¬ aspect_protected ("--bazel-startup-flag=" +:+ argument).
Proof. intros [_ Hname]%protected_shape. by destruct Hname. Qed.

Lemma valid_route config command :
  validate (IoError:=IoError) (RegexError:=RegexError) config = Ok tt →
  routes (aspect config) command = true →
  starts_with (command_as_str command) "-" = false ∧ command ≠ Run.
Proof.
  unfold validate. intros Hvalid Hroutes%bool_decide_eq_true. inv_ok.
  match goal with H : has_invalid_command _ = false |- _ => unfold has_invalid_command in H; rename H into Hnames end.
  match goal with H : bool_decide ("run" ∈ _) = false |- _ => apply bool_decide_eq_false in H; rename H into Hrun end.
  split; [|by intros ->].
  destruct (starts_with (command_as_str command) "-") eqn:Hdash; [|done].
  rewrite <- Hnames. symmetry. apply existsb_exists. exists (command_as_str command).
  split; [by apply list_elem_of_In, elem_of_elements|]. by rewrite Hdash, orb_true_r.
Qed.

(** Under a valid configuration a request routed to the Aspect CLI and
    accepted starts a process in which every argument that sets the task
    identity, a reserved or event service flag nested under [--bazel-flag=], or
    the invocation-identity header is one of the runner's own; the caller's
    startup arguments are passed as startup flags, its arguments come last in
    their order, and [BAZEL_REAL] names the resolved Bazel. *)
Theorem accepted_aspect_command_line unix config q exe bazel bep_file bep_output endpoint vars
    (Hvalid : validate (IoError:=IoError) (RegexError:=RegexError) config = Ok tt)
    (Haccepted : validate_request unix config q = Ok true) (Hendpoint : is_Some endpoint) :
  ∃ owned process,
    build_command (IoError:=IoError) (RegexError:=RegexError) windows id_string config (AspectDriver exe bazel) q
      bep_file bep_output endpoint vars = Some (Ok process) ∧
    process_env process !! "BAZEL_REAL" = Some bazel ∧
    process_args process =
      ["--task:id=" +:+ id_string (request_id q); "--task:timing-summary=none"; command_as_str (command q)]
      ++ map (String.append "--bazel-startup-flag=") (output_root_flags windows config ++ startup_arguments q)
      ++ owned ++ arguments q ∧
    (∀ argument, argument ∈ process_args process → aspect_protected argument →
       argument ∈ ["--task:id=" +:+ id_string (request_id q); "--task:timing-summary=none"] ++ owned).
Proof.
  apply validate_request_accepted in Haccepted.
  pose proof (accepted_aspect _ _ _ _ Haccepted eq_refl) as Hallowed.
  destruct (valid_route config (command q) Hvalid) as [Hdash _];
    [symmetry; apply (accepted_routes _ _ _ _ Haccepted)|].
  destruct Hendpoint as [e ->].
  set (owned := if decide (command_class (AspectDriver exe bazel) (command q) = BuildLike)
                then aspect_owned_flags id_string q e else []).
  set (args := ["--task:id=" +:+ id_string (request_id q); "--task:timing-summary=none"; command_as_str (command q)]
    ++ map (String.append "--bazel-startup-flag=") (output_root_flags windows config ++ startup_arguments q)
    ++ owned ++ arguments q).
  exists owned, (MkProcess exe (workspace q)
    (<["BAZEL_REAL" := bazel]> (filtered_environment (policy config) windows vars)) args).
  split_and!; [|apply lookup_insert_eq|done|].
  - unfold build_command, aspect_arguments, args, owned.
    by destruct (decide (command_class (AspectDriver exe bazel) (command q) = BuildLike)).
  - cbn [process_args]. intros argument Hin Hprotected. unfold args in Hin. rewrite !elem_of_app in Hin.
    rewrite elem_of_app. destruct Hin as [Hin | [Hin | [Hin | Hin]]].
    + rewrite !elem_of_cons in *. destruct Hin as [-> | [-> | [-> | Hin]]]; auto.
      apply protected_shape in Hprotected as [? _]. congruence.
    + apply (list_elem_of_fmap_1 (String.append _)) in Hin as (flag & -> & _).
      by apply startup_flag_unprotected in Hprotected.
    + by right.
    + eapply Forall_forall in Hallowed; [|exact Hin]. by apply allowed_not_protected in Hallowed.
Qed.
End accepted.

(** ** Timeouts *)

(** A valid configuration gives every execution a positive timeout of at most
    the configured maximum, and a request within the limits its own timeout. *)
Lemma plan_timeout_range {IoError RegexError} config q :
  validate (IoError:=IoError) (RegexError:=RegexError) config = Ok tt → 0 ≤ maximum_timeout config →
  0 < plan_timeout config q ≤ maximum_timeout config ∧
  (∀ ms, timeout_ms q = Some ms → 1000 ≤ ms → from_millis ms ≤ maximum_timeout config →
     plan_timeout config q = from_millis ms).
Proof.
  unfold validate, is_zero. intros Hvalid Hmax. inv_ok.
  unfold plan_timeout, from_secs in *. split; [lia|].
  intros ms -> Hlow Hhigh. cbn [from_option]. unfold from_millis in *. lia.
Qed.

Module RunnerExamples.
Definition example_policy : PolicyConfig :=
  MkPolicyConfig [] {["build"; "test"; "run"; "lint"]} ∅ ∅ [] None.
Definition example_config (transport : BepTransport) : RunnerConfig :=
  let d := default_runner_config "/locks" in
  MkRunnerConfig example_policy (default_timeout d) (maximum_timeout d) (maximum_run_output_bytes d)
    (cancellation_interrupt_grace d) (cancellation_terminate_grace d) (global_concurrency d) (Some "/isolated")
    (isolated_bazel_server_idle_timeout d) (supported_bazel_major_versions d) false (version_check_timeout d)
    (maximum_pending_invocations d) (output_base_lock_root d) transport (MkAspect None {["lint"]} false)
    (starlark_reducers d).
Definition example_run : InvocationRequest :=
  MkRequest 7 "/w" ["--output_user_root=/elsewhere"] Run ["--config=dev"] (Some "//cmd:example")
    ["--format=json"] None ∅ 1000.
Definition example_lint : InvocationRequest :=
  MkRequest 8 "/w" ["--nohome_rc"] (Custom "lint") ["--bazel-flag=--config=ci"; "//..."] None [] None ∅ 1000.
Definition example_id (id : InvocationId) : string := pretty id.


Lemma accepted_aspect_command_line_witness :
  ∃ owned process,
    build_command (IoError:=string) (RegexError:=string) false example_id (example_config Tail)
      (AspectDriver "/bin/aspect" "/bin/bazel") example_lint "/e/bep" "/e/bep" (Some "grpc://127.0.0.1:9") []
      = Some (Ok process) ∧
    (∀ argument, argument ∈ process_args process → aspect_protected argument →
       argument ∈ ["--task:id=8"; "--task:timing-summary=none"] ++ owned).
Proof.
  destruct (accepted_aspect_command_line (IoError:=string) (RegexError:=string) false example_id true
    (example_config Tail) example_lint "/bin/aspect" "/bin/bazel" "/e/bep" "/e/bep" (Some "grpc://127.0.0.1:9") [])
    as (owned & process & Hbuild & _ & _ & Hprotected).
  - vm_compute. reflexivity.
  - vm_compute. reflexivity.
  - eexists. reflexivity.
  - exists owned, process. split; [exact Hbuild|exact Hprotected].
Defined.

(** A startup argument of an accepted request sets the output root once more,
    after the configured one. *)
Lemma caller_sets_output_root :
  validate_request (IoError:=string) (RegexError:=string) true (example_config Tail) example_run = Ok false ∧
  ∃ rest, bazel_arguments (IoError:=string) (RegexError:=string) false example_id (example_config Tail) example_run
            RunClass Tail "/e/bep" "/e/bep" None
          = Some (Ok ("--output_user_root=/isolated" :: "--max_idle_secs=60" :: "--output_user_root=/elsewhere"
                        :: "run" :: rest)).
Proof. split; [vm_compute; reflexivity|]. eexists. vm_compute. reflexivity. Qed.
End RunnerExamples.
