(* ===== verification/StarlarkValue.v ===== *)
(** * Values of the reducer language (crates/bazel-mcp-reducer/src/starlark.rs)

    The values a custom reducer exchanges with the program live on a heap, where
    they may be shared or even contain themselves.  This file has the heap, and
    the length of a value's JSON text that [serialized_json_len] computes without
    printing it. *)

From stdpp Require Import pretty.
From Stdlib Require Import Ascii.
From S2P Require Import Prelude Collections Types Diagnostics.
#[global] Open Scope Z_scope.
#[local] Arguments String.append !_ _ / : simpl nomatch.

Inductive Value : Type :=
| VNone
| VBool (b : bool)
| VInt (n : Z)
| VStr (s : string)
| VFloat (f : f64)
| VRef (address : nat).

Inductive Object : Type :=
| OList (items : list Value)
| OTuple (items : list Value)
| ODict (entries : list (Value * Value))
| OOther (type_name : string).

Abbreviation Heap := (gmap nat Object).

(** A reference always points to an object; the default is never read. *)
Definition object (h : Heap) (a : nat) : Object := default (OOther "") (h !! a).

Definition object_type (o : Object) : string :=
  match o with OList _ => "list" | OTuple _ => "tuple" | ODict _ => "dict" | OOther name => name end.

(** ** Lengths *)

Definition byte_json_len (b : Z) : Z :=
  if bool_decide (b ∈ [34; 92; 8; 9; 10; 12; 13]) then 2 else if b <=? 31 then 6 else 1.

Definition serialized_json_string_len (s : string) : Z :=
  foldl (fun bytes b => u64_add bytes (byte_json_len b)) 2 (bytes_of s).

Fixpoint decimal_len_loop (fuel : nat) (value digits : Z) : Z :=
  match fuel with
  | O => digits
  | S fuel => if 10 <=? value then decimal_len_loop fuel (value / 10) (digits + 1) else digits
  end.

(** A [u64] has at most twenty digits. *)
Definition unsigned_decimal_len (value : Z) : Z := decimal_len_loop 20 value 1.

Definition signed_decimal_len (value : Z) : Z :=
  (if value <? 0 then 1 else 0) + unsigned_decimal_len (Z.abs value).

(** [len] of a text, as a [usize]. *)
Definition text_len (s : string) : Z := Z.min (str_len s) usize_max.

Section serialize.
(** [to_json] of a float, which fails for values JSON does not have. *)
Context (float_json : f64 → result string string) (h : Heap).

(** [serialized_json_sequence_len], for the rest of a sequence. *)
Fixpoint sequence_len (len : Value → option (result string Z)) (first : bool) (bytes : Z) (values : list Value)
    : option (result string Z) :=
  match values with
  | [] => Some (Ok bytes)
  | v :: rest =>
      match len v with
      | Some (Ok n) => sequence_len len false (u64_add (if first then bytes else u64_add bytes 1) n) rest
      | other => other
      end
  end.

(** The loop over the entries of a dictionary. *)
Fixpoint entries_len (len : Value → option (result string Z)) (first : bool) (bytes : Z) (entries : list (Value * Value))
    : option (result string Z) :=
  match entries with
  | [] => Some (Ok bytes)
  | (VStr key, v) :: rest =>
      match len v with
      | Some (Ok n) =>
          let bytes := if first then bytes else u64_add bytes 1 in
          entries_len len false (u64_add (u64_add (u64_add bytes (serialized_json_string_len key)) 1) n) rest
      | other => other
      end
  | _ => Some (Err "JSON object keys must be strings")
  end.

(** [serialized_json_len_inner]; the outer option is running out of fuel. *)
Fixpoint serialized_json_len_inner (fuel : nat) (ancestors : list nat) (v : Value) : option (result string Z) :=
  match v with
  | VNone => Some (Ok 4)
  | VBool b => Some (Ok (if b then 4 else 5))
  | VStr s => Some (Ok (serialized_json_string_len s))
  | VInt n => Some (Ok (if bool_decide (i64_min ≤ n ≤ i64_max) then signed_decimal_len n else text_len (pretty n)))
  | VFloat f => Some (text ← float_json f; Ok (text_len text))
  | VRef a =>
      let o := object h a in
      if bool_decide (a ∈ ancestors) then Some (Err ("cyclic " +:+ object_type o +:+ " value cannot be serialized"))
      else match fuel with
      | O => None
      | S fuel =>
          match o with
          | OList items | OTuple items => sequence_len (serialized_json_len_inner fuel (a :: ancestors)) true 2 items
          | ODict entries => entries_len (serialized_json_len_inner fuel (a :: ancestors)) true 2 entries
          | OOther name => Some (Err (name +:+ " values cannot be serialized as JSON"))
          end
      end
  end.

(** No path visits an object twice, so the objects bound the depth. *)
Definition serialized_json_len (v : Value) : option (result string Z) := serialized_json_len_inner (S (size h)) [] v.
End serialize.

(** ** JSON texts *)

Inductive Json : Type :=
| JNull
| JBool (b : bool)
| JNumber (text : string)
| JString (s : string)
| JArray (items : list Json)
| JObject (fields : list (string * Json)).

Definition quote_char : ascii := ascii_of_nat 34.
Definition hex_char (n : Z) : ascii := ascii_of_N (Z.to_N (if n <? 10 then 48 + n else 87 + n)).

(** The escapes of a JSON string. *)
Definition escape_char (c : ascii) : string :=
  let b := byte_of c in
  let short s := String (ascii_of_nat 92) s in
  if b =? 34 then short (String c "")
  else if b =? 92 then short (String c "")
  else if b =? 8 then short "b"
  else if b =? 9 then short "t"
  else if b =? 10 then short "n"
  else if b =? 12 then short "f"
  else if b =? 13 then short "r"
  else if b <=? 31 then short ("u00" +:+ String (hex_char (b / 16)) (String (hex_char (b mod 16)) ""))
  else String c "".
Fixpoint escape_json (s : string) : string :=
  match s with EmptyString => "" | String c rest => escape_char c +:+ escape_json rest end.
Definition print_string (s : string) : string := String quote_char (escape_json s +:+ String quote_char "").

Fixpoint join_comma (first : bool) (texts : list string) : string :=
  match texts with
  | [] => ""
  | t :: rest => (if first then "" else ",") +:+ t +:+ join_comma false rest
  end.

Fixpoint print_json (j : Json) : string :=
  match j with
  | JNull => "null"
  | JBool b => if b then "true" else "false"
  | JNumber text => text
  | JString s => print_string s
  | JArray items => "[" +:+ join_comma true (map print_json items) +:+ "]"
  | JObject fields =>
      "{" +:+ join_comma true (map (fun f => print_string f.1 +:+ ":" +:+ print_json f.2) fields) +:+ "}"
  end.

Fixpoint json_size (j : Json) : nat :=
  match j with
  | JArray items => S (sum_list_with json_size items)
  | JObject fields => S (sum_list_with (fun f => json_size f.2) fields)
  | _ => 1
  end.

(** The JSON value that a value on the heap stands for; one that contains
    itself stands for none. *)
Inductive unfolds (float_json : f64 → result string string) (h : Heap) : Value → Json → Prop :=
| unfolds_none : unfolds float_json h VNone JNull
| unfolds_bool b : unfolds float_json h (VBool b) (JBool b)
| unfolds_int n : unfolds float_json h (VInt n) (JNumber (pretty n))
| unfolds_float f text : float_json f = Ok text → unfolds float_json h (VFloat f) (JNumber text)
| unfolds_str s : unfolds float_json h (VStr s) (JString s)
| unfolds_sequence a items js :
    object h a = OList items ∨ object h a = OTuple items → Forall2 (unfolds float_json h) items js →
    unfolds float_json h (VRef a) (JArray js)
| unfolds_dict a entries fields :
    object h a = ODict entries →
    Forall2 (fun e f => e.1 = VStr f.1 ∧ unfolds float_json h e.2 f.2) entries fields →
    unfolds float_json h (VRef a) (JObject fields).

(** * Theorems *)

Lemma str_len_cons c s : str_len (String c s) = 1 + str_len s.
Proof. unfold str_len. cbn [String.length]. lia. Qed.

Lemma str_len_app s t : str_len (s +:+ t) = str_len s + str_len t.
Proof. induction s as [|c s IH]; [done|]. cbn [String.append]. rewrite !str_len_cons. lia. Qed.

Definition saturated (n : Z) : Z := Z.min n u64_max.

Lemma saturated_add a b : 0 ≤ a → 0 ≤ b → u64_add (saturated a) b = saturated (a + b).
Proof. unfold u64_add, saturated, u64_max. lia. Qed.

Lemma saturated_both a b : 0 ≤ a → 0 ≤ b → u64_add (saturated a) (saturated b) = saturated (a + b).
Proof. unfold u64_add, saturated, u64_max. lia. Qed.

(** ** Strings and numbers *)

Lemma escape_char_len c : str_len (escape_char c) = byte_json_len (byte_of c).
Proof.
  destruct c as [[] [] [] [] [] [] [] []]; vm_compute; reflexivity.
Qed.

Lemma json_string_len s : serialized_json_string_len s = saturated (str_len (print_string s)).
Proof.
  assert (Hfold : ∀ t n, 0 ≤ n → foldl (fun bytes b => u64_add bytes (byte_json_len b)) (saturated n) (bytes_of t)
            = saturated (n + str_len (escape_json t))).
  { intros t. induction t as [|c rest IH]; intros n Hn; cbn [bytes_of foldl escape_json].
    - change (str_len "") with 0. f_equal. lia.
    - assert (0 ≤ byte_json_len (byte_of c)) by (rewrite <- escape_char_len; unfold str_len; lia).
      rewrite saturated_add, IH, str_len_app, escape_char_len by lia. f_equal. lia. }
  unfold serialized_json_string_len. change 2 with (saturated 2). rewrite Hfold by lia. f_equal.
  unfold print_string. rewrite str_len_cons, str_len_app. change (str_len (String quote_char "")) with 1. lia.
Qed.

Lemma decimal_len_acc fuel value digits :
  decimal_len_loop fuel value digits = digits + decimal_len_loop fuel value 0.
Proof.
  revert value digits. induction fuel as [|fuel IH]; intros value digits; cbn; [lia|].
  destruct (10 <=? value); [|lia]. rewrite (IH _ (digits + 1)), (IH _ 1). lia.
Qed.

Lemma pretty_N_go_len fuel n s : (0 < n)%N → Z.of_N n < 10 ^ Z.of_nat fuel →
  str_len (pretty_N_go n s) = decimal_len_loop fuel (Z.of_N n) 1 + str_len s.
Proof.
  revert n s. induction fuel as [|fuel IH]; intros n s Hn Hfuel; [cbn in Hfuel; lia|].
  rewrite pretty_N_go_step by done. cbn [decimal_len_loop].
  destruct (10 <=? Z.of_N n) eqn:Hten.
  - assert (Hdiv : Z.of_N (n / 10) = Z.of_N n / 10) by (rewrite N2Z.inj_div; done).
    rewrite IH; [rewrite str_len_cons, Hdiv, (decimal_len_acc fuel _ (1 + 1)), (decimal_len_acc fuel _ 1); lia| |].
    + apply Z.leb_le in Hten. assert (1 ≤ Z.of_N (n / 10)) by (rewrite Hdiv; apply Z.div_le_lower_bound; lia). lia.
    + rewrite Hdiv. apply Z.div_lt_upper_bound; [lia|]. rewrite Nat2Z.inj_succ, Z.pow_succ_r in Hfuel by lia. lia.
  - apply Z.leb_gt in Hten. replace (n / 10)%N with 0%N by (symmetry; apply N.div_small; lia).
    rewrite pretty_N_go_0, str_len_cons. lia.
Qed.

Lemma unsigned_decimal_len_spec n : 0 ≤ n ≤ u64_max → unsigned_decimal_len n = str_len (pretty n).
Proof.
  intros Hn. unfold unsigned_decimal_len. destruct n as [|p|p]; [reflexivity| |lia].
  change (pretty (Z.pos p)) with (pretty_N_go (N.pos p) "").
  rewrite (pretty_N_go_len 20) by (cbn [Z.of_N]; unfold u64_max in Hn; lia). unfold str_len. cbn [Z.of_N String.length]. lia.
Qed.

Lemma signed_decimal_len_spec n : i64_min ≤ n ≤ i64_max → signed_decimal_len n = str_len (pretty n).
Proof.
  intros Hn. unfold signed_decimal_len. destruct (Z.ltb_spec n 0).
  - destruct n as [|p|p]; [lia|lia|]. rewrite unsigned_decimal_len_spec by (unfold i64_min, u64_max in *; lia).
    change (pretty (Z.neg p)) with ("-" +:+ pretty (Z.pos p)). rewrite str_len_app. cbn [Z.abs]. reflexivity.
  - rewrite Z.abs_eq, unsigned_decimal_len_spec by (unfold i64_max, u64_max in *; lia). lia.
Qed.

(** ** Values and the JSON they stand for *)

Lemma json_size_pos j : (0 < json_size j)%nat.
Proof. destruct j; cbn; lia. Qed.

Lemma sum_list_with_elem {A} (f : A → nat) x l : x ∈ l → (f x ≤ sum_list_with f l)%nat.
Proof. induction 1; cbn; lia. Qed.

(** Induction on the size of a JSON value. *)
Lemma json_induction (P : Json → Prop) :
  (∀ j, (∀ j', (json_size j' < json_size j)%nat → P j') → P j) → ∀ j, P j.
Proof. intros Hstep j. induction (well_founded_ltof _ json_size j) as [j _ IH]. by apply Hstep. Qed.

Lemma item_smaller j items : j ∈ items → (json_size j < json_size (JArray items))%nat.
Proof. intros Hj. pose proof (sum_list_with_elem json_size j items Hj). cbn. lia. Qed.

Lemma field_smaller key j fields : (key, j) ∈ fields → (json_size j < json_size (JObject fields))%nat.
Proof. intros Hj. pose proof (sum_list_with_elem (fun f => json_size f.2) (key, j) fields Hj). cbn in *. lia. Qed.

Section equivalence.
Context (float_json : f64 → result string string) (h : Heap).
Abbreviation unfolds := (unfolds float_json h).
Abbreviation len_inner := (serialized_json_len_inner float_json h).

Lemma unfolds_fun v j : unfolds v j → ∀ j', unfolds v j' → j = j'.
Proof.
  revert v. induction j as [j IH] using json_induction. intros v Hj j' Hj'.
  destruct Hj as [| | |f text Hf| |a items js Ha Hitems|a entries fields Ha Hentries]; inversion Hj' as [| | | | |? items' js' Ha' Hitems'|? entries' fields' Ha' Hentries']; subst;
    try congruence; try (destruct Ha; congruence); try (destruct Ha'; congruence).
  - f_equal. assert (items' = items) as -> by (destruct Ha, Ha'; congruence). clear Ha Ha' Hj'.
    revert js' Hitems'. induction Hitems as [|v j items js Hv Hitems IHitems]; intros js' Hitems'; inversion Hitems'; subst; [done|].
    f_equal; [eapply IH; [apply item_smaller, elem_of_cons; by left|done..]|].
    apply IHitems; [|done]. intros j0 Hsmall. apply IH. cbn in *. lia.
  - f_equal. assert (entries' = entries) as -> by congruence. clear Ha Ha' Hj'.
    revert fields' Hentries'. induction Hentries as [|[k v] [key j] entries fields [Hk Hv] Hentries IHentries];
      intros fields' Hentries'; inversion Hentries' as [|? [key' j'] ? ? [Hk' Hv']]; subst; [done|].
    cbn in Hk, Hv, Hk', Hv'. f_equal.
    + f_equal; [congruence|]. eapply IH; [eapply field_smaller, elem_of_cons; by left|done..].
    + apply IHentries; [|done]. intros j0 Hsmall. apply IH. cbn in *. lia.
Qed.

(** ** The loops *)

Lemma sequence_len_sound len first bytes items n :
  0 ≤ bytes → (∀ v k, v ∈ items → len v = Some (Ok k) → ∃ j, unfolds v j ∧ k = saturated (str_len (print_json j))) →
  sequence_len len first (saturated bytes) items = Some (Ok n) →
  ∃ js, Forall2 unfolds items js ∧ n = saturated (bytes + str_len (join_comma first (map print_json js))).
Proof.
  revert first bytes. induction items as [|v items IH]; intros first bytes Hbytes Hlen; cbn [sequence_len].
  - intros [= <-]. exists []. split; [done|]. cbn [map join_comma]. change (str_len "") with 0. f_equal. lia.
  - destruct (len v) as [[k|]|] eqn:Hv; [|done|done].
    destruct (Hlen v k) as (j & Hj & ->); [apply elem_of_cons; by left|done|].
    pose proof (str_len_nonneg (print_json j)) as Hpos.
    assert (Hsum : u64_add (if first then saturated bytes else u64_add (saturated bytes) 1) (saturated (str_len (print_json j)))
              = saturated (bytes + (if first then 0 else 1) + str_len (print_json j))).
    { destruct first; [rewrite saturated_both by done; f_equal; lia|]. by rewrite saturated_add, saturated_both by lia. }
    rewrite Hsum. intros Hrest. apply IH in Hrest as (js & Hjs & ->); [|destruct first; lia|].
    + exists (j :: js). split; [by constructor|]. cbn [map join_comma]. rewrite !str_len_app. f_equal.
      destruct first; [change (str_len "") with 0|change (str_len ",") with 1]; lia.
    + intros v' k' Hin. apply Hlen. apply elem_of_cons. by right.
Qed.

Lemma entries_len_sound len first bytes entries n :
  0 ≤ bytes →
  (∀ e k, e ∈ entries → len e.2 = Some (Ok k) → ∃ j, unfolds e.2 j ∧ k = saturated (str_len (print_json j))) →
  entries_len len first (saturated bytes) entries = Some (Ok n) →
  ∃ fields, Forall2 (fun e f => e.1 = VStr f.1 ∧ unfolds e.2 f.2) entries fields ∧
    n = saturated (bytes + str_len (join_comma first
          (map (fun f => print_string f.1 +:+ ":" +:+ print_json f.2) fields))).
Proof.
  revert first bytes. induction entries as [|[key v] entries IH]; intros first bytes Hbytes Hlen; cbn [entries_len].
  - intros [= <-]. exists []. split; [done|]. cbn [map join_comma]. change (str_len "") with 0. f_equal. lia.
  - destruct key as [| | |key| |]; try done.
    destruct (len v) as [[k|]|] eqn:Hv; [|done|done].
    destruct (Hlen (VStr key, v) k) as (j & Hj & ->); [apply elem_of_cons; by left|done|].
    pose proof (str_len_nonneg (print_json j)) as Hpos. pose proof (str_len_nonneg (print_string key)) as Hpos'.
    rewrite json_string_len.
    assert (Hsum : u64_add (u64_add (u64_add (if first then saturated bytes else u64_add (saturated bytes) 1)
                (saturated (str_len (print_string key)))) 1) (saturated (str_len (print_json j)))
              = saturated (bytes + (if first then 0 else 1) + str_len (print_string key) + 1 + str_len (print_json j))).
    { destruct first; [|rewrite saturated_add by lia]; rewrite !saturated_both by lia; rewrite saturated_add by lia;
        rewrite saturated_both by lia; f_equal; lia. }
    rewrite Hsum. intros Hrest. apply IH in Hrest as (fields & Hfields & ->); [|destruct first; lia|].
    + exists ((key, j) :: fields). split; [by constructor|]. cbn [map join_comma fst snd]. rewrite !str_len_app. f_equal.
      change (str_len ":") with 1. destruct first; [change (str_len "") with 0|change (str_len ",") with 1]; lia.
    + intros e k' Hin. apply Hlen. apply elem_of_cons. by right.
Qed.

Lemma bracketed open close body : str_len (String open (body +:+ String close "")) = 2 + str_len body.
Proof. rewrite str_len_cons, str_len_app. change (str_len (String close "")) with 1. lia. Qed.

Lemma print_array_len items : str_len (print_json (JArray items)) = 2 + str_len (join_comma true (map print_json items)).
Proof. apply (bracketed "["%char "]"%char). Qed.

Lemma print_object_len fields :
  str_len (print_json (JObject fields))
  = 2 + str_len (join_comma true (map (fun f => print_string f.1 +:+ ":" +:+ print_json f.2) fields)).
Proof. apply (bracketed "{"%char "}"%char). Qed.

Lemma int_len n :
  (if bool_decide (i64_min ≤ n ≤ i64_max) then signed_decimal_len n else text_len (pretty n))
  = saturated (str_len (pretty n)).
Proof.
  case_bool_decide as Hn; [|done]. rewrite signed_decimal_len_spec by done. unfold saturated.
  pose proof (signed_decimal_len_spec n Hn) as Hlen. unfold signed_decimal_len, unsigned_decimal_len in Hlen.
  assert (Hbound : ∀ fuel value, decimal_len_loop fuel value 1 ≤ 1 + Z.of_nat fuel).
  { intros fuel. induction fuel as [|fuel IH]; intros value; cbn [decimal_len_loop]; [lia|].
    destruct (10 <=? value); [|lia]. rewrite decimal_len_acc. specialize (IH (value / 10)). rewrite decimal_len_acc in IH. lia. }
  specialize (Hbound 20%nat (Z.abs n)). unfold u64_max. destruct (n <? 0); lia.
Qed.

(** A length is that of the JSON text of the value. *)
Lemma len_inner_sound fuel ancestors v n :
  len_inner fuel ancestors v = Some (Ok n) → ∃ j, unfolds v j ∧ n = saturated (str_len (print_json j)).
Proof.
  revert ancestors v n. induction fuel as [|fuel IH]; intros ancestors v n Hlen; destruct v as [| |i|s|f|a];
    cbn [serialized_json_len_inner] in Hlen.
  all: try (injection Hlen as <-; rewrite ?int_len, ?json_string_len; eexists; (split; [constructor|]); first [done | by case_match]).
  all: try (destruct (float_json f) as [text|] eqn:Hf; [|done]; injection Hlen as <-; eexists;
    (split; [by constructor|]); reflexivity).
  - by case_bool_decide.
  - case_bool_decide; [done|]. destruct (object h a) as [items|items|entries|name] eqn:Ha; [| | |done].
    1-2: change 2 with (saturated 2) in Hlen; eapply sequence_len_sound in Hlen as (js & Hjs & ->); [|lia|by eauto];
      exists (JArray js); (split; [econstructor; [|exact Hjs]; by auto|]); by rewrite print_array_len.
    change 2 with (saturated 2) in Hlen. eapply entries_len_sound in Hlen as (fields & Hfields & ->); [|lia|by eauto].
    exists (JObject fields). split; [by econstructor|]. by rewrite print_object_len.
Qed.

(** ** Fuel *)

Lemma sequence_len_total len first bytes items :
  (∀ v, v ∈ items → is_Some (len v)) → is_Some (sequence_len len first bytes items).
Proof.
  revert first bytes. induction items as [|v items IH]; intros first bytes Hlen; cbn; [done|].
  destruct (Hlen v) as [[k|e] ->]; [apply elem_of_cons; by left| |done]. apply IH. intros v' Hv'. apply Hlen, elem_of_cons. by right.
Qed.

Lemma entries_len_total len first bytes entries :
  (∀ e, e ∈ entries → is_Some (len e.2)) → is_Some (entries_len len first bytes entries).
Proof.
  revert first bytes. induction entries as [|[key v] entries IH]; intros first bytes Hlen; cbn; [done|].
  destruct key; try done. destruct (Hlen (VStr s, v)) as [[k|e] Hv]; [apply elem_of_cons; by left| |]; cbn in Hv; rewrite Hv; [|done].
  apply IH. intros e' He'. apply Hlen, elem_of_cons. by right.
Qed.

(** A path through the heap that visits nothing twice is no longer than the
    heap is large. *)
Lemma len_inner_total fuel ancestors v :
  NoDup ancestors → (∀ a, a ∈ ancestors → is_Some (h !! a)) → (size h < fuel + length ancestors)%nat →
  is_Some (len_inner fuel ancestors v).
Proof.
  revert ancestors v. induction fuel as [|fuel IH]; intros ancestors v Hnodup Hdom Hfuel;
    destruct v as [| |i|s|f|a]; cbn [serialized_json_len_inner]; try done; (case_bool_decide as Hin; [done|]).
  - exfalso. assert (length ancestors ≤ size h)%nat; [|lia].
    rewrite <- (size_list_to_set (C:=gset nat) ancestors Hnodup), <- (size_dom (D:=gset nat) h).
    apply subseteq_size. intros a'. rewrite elem_of_list_to_set, elem_of_dom. apply Hdom.
  - unfold object. destruct (h !! a) as [o|] eqn:Ha; cbn [default]; [|done].
    assert (Hsub : ∀ v', is_Some (len_inner fuel (a :: ancestors) v')).
    { intros v'. apply IH; [by constructor| |cbn; lia]. intros a' [-> | Ha']%elem_of_cons; [by eexists|by apply Hdom]. }
    destruct o; [apply sequence_len_total|apply sequence_len_total|apply entries_len_total|]; done.
Qed.

(** ** Values that stand for JSON are measured *)

Lemma sequence_len_Ok len first bytes items e :
  (∀ v e', v ∈ items → len v ≠ Some (Err e')) → sequence_len len first bytes items ≠ Some (Err e).
Proof.
  revert first bytes. induction items as [|v items IH]; intros first bytes Hlen; cbn; [done|].
  destruct (len v) as [[k|e']|] eqn:Hv; [|by apply Hlen in Hv; [|apply elem_of_cons; left]|done].
  apply IH. intros v' e' Hv'. apply Hlen, elem_of_cons. by right.
Qed.

Lemma entries_len_Ok len first bytes entries e :
  (∀ entry, entry ∈ entries → (∃ key, entry.1 = VStr key) ∧ ∀ e', len entry.2 ≠ Some (Err e')) →
  entries_len len first bytes entries ≠ Some (Err e).
Proof.
  revert first bytes. induction entries as [|[key v] entries IH]; intros first bytes Hlen; cbn; [done|].
  destruct (Hlen (key, v)) as [[key' Hkey] Hv]; [apply elem_of_cons; by left|]. cbn in Hkey, Hv. subst.
  destruct (len v) as [[k|e']|] eqn:Hlenv; [|by destruct (Hv e')|done].
  apply IH. intros entry Hentry. apply Hlen, elem_of_cons. by right.
Qed.

(** The ancestors of a value contain it, so they stand for larger JSON. *)
Definition contained (j : Json) (a : nat) : Prop := ∃ ja, unfolds (VRef a) ja ∧ (json_size j < json_size ja)%nat.

Lemma not_contained a j : unfolds (VRef a) j → ¬ contained j a.
Proof. intros Hj (ja & Hja & Hsmall). rewrite (unfolds_fun _ _ Hja _ Hj) in Hsmall. lia. Qed.

Lemma len_inner_complete fuel ancestors v j e :
  unfolds v j → Forall (contained j) ancestors → len_inner fuel ancestors v ≠ Some (Err e).
Proof.
  revert ancestors v j e. induction fuel as [|fuel IH]; intros ancestors v j e Hj Hancestors; pose proof Hj as Hself;
    (destruct Hj as [| | |f text Hf| |a items js Ha Hitems|a entries fields Ha Hentries];
     cbn [serialized_json_len_inner]; rewrite ?Hf; try done).
  all: assert (a ∉ ancestors) as Hfresh by (intros Hin; by apply (not_contained a _ Hself), (Forall_forall _ ancestors)).
  all: rewrite bool_decide_false by done; try done.
  - assert (Hitem : ∀ v' e', v' ∈ items → len_inner fuel (a :: ancestors) v' ≠ Some (Err e')).
    { intros v' e' (i & Hi)%list_elem_of_lookup. destruct (Forall2_lookup_l _ _ _ _ _ Hitems Hi) as (j' & Hj' & Hu).
      apply list_elem_of_lookup_2, item_smaller in Hj'. eapply IH; [exact Hu|]. constructor; [by eexists|].
      eapply Forall_impl; [exact Hancestors|]. intros a' (ja & Hja & Hsmall). exists ja. split; [done|lia]. }
    destruct Ha as [-> | ->]; by apply sequence_len_Ok.
  - rewrite Ha. apply entries_len_Ok.
    intros [key v'] (i & Hi)%list_elem_of_lookup.
    destruct (Forall2_lookup_l _ _ _ _ _ Hentries Hi) as ([key' j'] & Hj' & Hkey & Hu). cbn in Hkey, Hu |- *.
    split; [by eexists|]. intros e'. apply list_elem_of_lookup_2, field_smaller in Hj'. eapply IH; [exact Hu|].
    constructor; [by eexists|]. eapply Forall_impl; [exact Hancestors|]. intros a' (ja & Hja & Hsmall). exists ja. split; [done|lia].
Qed.

(** The measured length, and when there is one. *)
Lemma serialized_json_len_cases v :
  ∃ r, serialized_json_len float_json h v = Some r ∧
    ∀ n, r = Ok n ↔ ∃ j, unfolds v j ∧ n = saturated (str_len (print_json j)).
Proof.
  unfold serialized_json_len. destruct (len_inner_total (S (size h)) [] v) as [r Hr]; [constructor|by intros a ?%elem_of_nil|cbn; lia|].
  exists r. split; [done|]. intros n. split.
  - intros ->. by eapply len_inner_sound.
  - intros (j & Hj & ->). destruct r as [n|e]; [|by apply (len_inner_complete _ _ _ _ e Hj) in Hr].
    apply len_inner_sound in Hr as (j' & Hj' & ->). by rewrite (unfolds_fun _ _ Hj _ Hj').
Qed.
End equivalence.

(** C31: Measuring a reducer's output ends on every heap, shared and cyclic values
    included.  It yields a length exactly when the value stands for a JSON value,
    that is when it is finite and made of JSON types with string keys, and the
    length is that of its JSON text, up to the largest [usize]. *)
Theorem json_len_is_printed_length float_json h v :
  ∃ r, serialized_json_len float_json h v = Some r ∧
    ∀ n, r = Ok n ↔ ∃ j, unfolds float_json h v j ∧ n = Z.min (str_len (print_json j)) u64_max.
Proof. apply serialized_json_len_cases. Qed.

(** * Examples *)

(** A list that contains itself, and one that contains another twice. *)
Example cyclic_list :
  serialized_json_len (fun _ => Err "nan") {[0%nat := OList [VInt 1; VRef 0]]} (VRef 0)
  = Some (Err "cyclic list value cannot be serialized").
Proof. vm_compute. reflexivity. Qed.

Example shared_list :
  let h : Heap := <[0%nat := OList [VInt (-10); VStr "a"]]> {[1%nat := ODict [(VStr "x", VRef 0); (VStr "y", VRef 0)]]} in
  serialized_json_len (fun _ => Err "nan") h (VRef 1) = Some (Ok 29) ∧
  ∃ j, unfolds (fun _ => Err "nan") h (VRef 1) j ∧ str_len (print_json j) = 29.
Proof.
  split; [vm_compute; reflexivity|].
  set (item := JArray [JNumber (pretty (-10)); JString "a"]). exists (JObject [("x", item); ("y", item)]).
  split; [|vm_compute; reflexivity]. eapply unfolds_dict; [vm_compute; reflexivity|].
  assert (Hitem : ∀ h : Heap, object h 0 = OList [VInt (-10); VStr "a"] → unfolds (fun _ => Err "nan") h (VRef 0) item).
  { intros h Hh. eapply unfolds_sequence; [by left|]. repeat constructor. }
  repeat constructor; cbn; apply Hitem; vm_compute; reflexivity.
Qed.
