(* ===== verification/Sanitize.v ===== *)
(** * Public text (the text sanitising of crates/bazel-mcp-runner/src/execution.rs)

    Every text that becomes public first has the workspace path replaced and is
    then redacted and bounded.  The redactor is an interface, which the redactor
    of the policy crate ([Redaction.v]) implements; a text in which the workspace
    path has been replaced never shows it again. *)

From S2P Require Import Prelude Types Redaction Text Runner.

(** ** Occurrences *)

(** [pattern] occurs nowhere in [l]. *)
Definition Absent {A} (pattern l : list A) : Prop := ∀ before after, l ≠ before ++ pattern ++ after.
Definition Hidden (pattern s : string) : Prop := Absent (bytes_of pattern) (bytes_of s).

(** A token that cannot take part in an occurrence of the pattern: it contains
    no first byte of the pattern, and the pattern not its first byte. *)
Definition apart (token pattern : list Z) : Prop :=
  match token, pattern with
  | t :: _, p :: _ => (t ∉ pattern) ∧ (p ∉ token)
  | _, _ => False
  end.
#[export] Instance apart_dec token pattern : Decision (apart token pattern).
Proof. unfold apart. destruct token, pattern; apply _. Defined.

Lemma absent_infix {A} (pattern a l b : list A) : Absent pattern (a ++ l ++ b) → Absent pattern l.
Proof.
  intros Habsent before after ->. apply (Habsent (a ++ before) (after ++ b)).
  by rewrite <- !app_assoc.
Qed.

(** Separating two texts by such a token creates no occurrence. *)
Lemma absent_join (pattern token a b : list Z) :
  apart token pattern → Absent pattern a → Absent pattern b → Absent pattern (a ++ token ++ b).
Proof.
  unfold apart. destruct token as [|t token']; [done|]. destruct pattern as [|p pattern']; [done|].
  set (token := t :: token'). set (pattern := p :: pattern'). intros [Ht Hp] Ha Hb before after Heq.
  assert (Hlook : ∀ i, (a ++ token ++ b) !! i = (before ++ pattern ++ after) !! i) by (by rewrite Heq).
  destruct (decide (length before + length pattern ≤ length a)%nat) as [Hin | Hin].
  { apply (f_equal (take (length a))) in Heq. rewrite take_app_length in Heq.
    apply (Ha before (take (length a - length before - length pattern) after)).
    rewrite Heq at 1. rewrite take_app, take_app, (take_ge before), (take_ge pattern) by lia.
    done. }
  destruct (decide (length a + length token ≤ length before)%nat) as [Hout | Hout].
  { apply (f_equal (drop (length a + length token))) in Heq.
    rewrite <- drop_drop, drop_app_length, drop_app_length in Heq.
    apply (Hb (drop (length a + length token) before) after).
    rewrite Heq, drop_app_le by done. done. }
  destruct (decide (length before < length a)%nat) as [Hlt | Hge].
  - apply Ht. specialize (Hlook (length a)).
    rewrite (lookup_app_r a), Nat.sub_diag, (lookup_app_r before), (lookup_app_l pattern) in Hlook by lia.
    symmetry in Hlook. by eapply list_elem_of_lookup_2.
  - apply Hp. specialize (Hlook (length before)).
    rewrite (lookup_app_r a), (lookup_app_l token), (lookup_app_r before), Nat.sub_diag in Hlook by lia.
    by eapply list_elem_of_lookup_2.
Qed.

(** ** Replacing *)

Lemma bytes_of_app a b : bytes_of (a +:+ b) = bytes_of a ++ bytes_of b.
Proof. induction a as [|c a IH]; [done|]. change (String c a +:+ b) with (String c (a +:+ b)). simpl. by rewrite IH. Qed.

Lemma bytes_of_String c s : bytes_of (String c s) = byte_of c :: bytes_of s.
Proof. done. Qed.

Lemma starts_with_bytes s p : starts_with s p = true ↔ ∃ rest, bytes_of s = bytes_of p ++ rest.
Proof.
  rewrite starts_with_true. split.
  - intros [r ->]. exists (bytes_of r). apply bytes_of_app.
  - intros [rest Hrest]. exists (string_of_bytes rest). apply bytes_of_inj.
    rewrite bytes_of_app, bytes_of_string_of_bytes; [done|].
    pose proof (bytes_of_u8 s) as Hall. rewrite Hrest in Hall. by apply Forall_app in Hall as [_ ?].
Qed.

(** Passing the rest of a match drops it. *)
Lemma replace_from_skip pattern replacement skip s :
  bytes_of (replace_from pattern replacement skip s) =
  bytes_of (replace_from pattern replacement 0 (string_of_bytes (drop skip (bytes_of s)))).
Proof.
  revert skip. induction s as [|c s IH]; intros skip; [by destruct skip|].
  destruct skip as [|skip].
  - rewrite drop_0. f_equal. f_equal. symmetry. apply bytes_of_inj.
    apply bytes_of_string_of_bytes, bytes_of_u8.
  - cbn [replace_from]. rewrite bytes_of_String. cbn [drop]. apply IH.
Qed.

Lemma absent_cons {A} (pattern : list A) c l :
  (∀ rest, c :: l ≠ pattern ++ rest) → Absent pattern l → Absent pattern (c :: l).
Proof.
  intros Hhead Htail [|b before] after Heq; simpl in Heq; [by apply Hhead in Heq|].
  injection Heq as _ Heq. by apply Htail in Heq.
Qed.

(** Either nothing is replaced, or the text is cut at its first match. *)
Lemma replace_from_cases pattern replacement s :
  bytes_of pattern ≠ [] →
  (replace_from pattern replacement 0 s = s ∧ Hidden pattern s) ∨
  ∃ before rest, bytes_of s = before ++ bytes_of pattern ++ rest ∧ Absent (bytes_of pattern) before ∧
    bytes_of (replace_from pattern replacement 0 s) =
    before ++ bytes_of replacement ++ bytes_of (replace_from pattern replacement 0 (string_of_bytes rest)).
Proof.
  intros Hne. induction s as [|c s IH].
  { left. split; [done|]. intros before after Heq. by destruct before, (bytes_of pattern). }
  cbn [replace_from]. destruct (starts_with (String c s) pattern) eqn:Hstart.
  - right. apply starts_with_bytes in Hstart as [rest Hrest]. exists [], rest. split_and!; [done| |].
    { intros before after Heq. by destruct before, (bytes_of pattern). }
    rewrite bytes_of_app, replace_from_skip. simpl. do 3 f_equal.
    replace (String.length pattern - 1)%nat with (length (bytes_of pattern) - 1)%nat
      by (pose proof (length_bytes_of pattern) as Hlen; unfold str_len in Hlen; lia).
    destruct (bytes_of pattern) as [|p bytes]; [done|]. simpl in *. injection Hrest as _ Hrest.
    by rewrite Nat.sub_0_r, Hrest, drop_app_length.
  - assert (Hhead : ∀ l rest, bytes_of (String c s) = l ++ rest → ∀ tail, l ≠ bytes_of pattern ++ tail).
    { intros l rest Hbytes tail ->. enough (starts_with (String c s) pattern = true) by congruence.
      apply starts_with_bytes. exists (tail ++ rest). by rewrite Hbytes, <- app_assoc. }
    destruct IH as [[Hsame Habsent] | (before & rest & Hbytes & Habsent & Hreplaced)].
    + left. rewrite Hsame. split; [done|]. apply absent_cons; [|done].
      apply (Hhead _ []). by rewrite app_nil_r.
    + right. exists (byte_of c :: before), rest. split_and!.
      * simpl. by rewrite Hbytes.
      * apply absent_cons; [|done]. eapply Hhead. simpl. by rewrite Hbytes.
      * simpl. by rewrite Hreplaced.
Qed.

(** After the pattern has been replaced by a token apart from it, it no longer
    occurs. *)
Lemma replace_hides pattern replacement s :
  apart (bytes_of replacement) (bytes_of pattern) → Hidden pattern (replace s pattern replacement).
Proof.
  intros Hapart. assert (Hne : bytes_of pattern ≠ []) by (intros Heq; rewrite Heq in Hapart; by destruct (bytes_of replacement)).
  unfold replace. rewrite bool_decide_false by (by intros ->).
  remember (length (bytes_of s)) as n eqn:Hn. revert s Hn.
  induction n as [n IH] using lt_wf_ind. intros s ->.
  destruct (replace_from_cases pattern replacement s Hne)
    as [[-> Habsent] | (before & rest & Hbytes & Habsent & Hreplaced)]; [done|].
  unfold Hidden. rewrite Hreplaced. apply absent_join; [done|done|].
  assert (Hrest : bytes_of (string_of_bytes rest) = rest).
  { apply bytes_of_string_of_bytes. pose proof (bytes_of_u8 s) as Hall. rewrite Hbytes in Hall.
    by apply Forall_app in Hall as [_ [_ ?]%Forall_app]. }
  eapply IH; [|reflexivity]. rewrite Hrest, Hbytes, !length_app.
  destruct (bytes_of pattern); [done|]. simpl. lia.
Qed.

(** ** The redactor *)

(** What the summaries rely on: the bound, and that redacting a text in which a
    pattern apart from the replacement does not occur keeps it so. *)
Class BoundedRedactor : Type := {
  redact_str : string → Z → string;
  redact_str_len : ∀ value maximum_bytes, 0 ≤ maximum_bytes → str_len (redact_str value maximum_bytes) ≤ maximum_bytes;
  redact_str_hidden : ∀ pattern value maximum_bytes, apart REPLACEMENT (bytes_of pattern) →
    Hidden pattern value → Hidden pattern (redact_str value maximum_bytes);
}.

Lemma push_bounded_prefix output value maximum_bytes :
  (push_bounded output value maximum_bytes).1 = output ++ value ∨
  ∃ n, (push_bounded output value maximum_bytes).1 = output ++ take n value.
Proof. unfold push_bounded. destruct (_ <=? _)%nat; simpl; eauto. Qed.

Lemma floor_boundary_le value boundary : (floor_boundary value boundary ≤ boundary)%nat.
Proof.
  induction boundary as [|n IH]; cbn [floor_boundary]; [by destruct (is_char_boundary value 0)|].
  destruct (is_char_boundary value (S n)); lia.
Qed.

Lemma push_bounded_length output value maximum_bytes :
  (length output ≤ maximum_bytes)%nat → (length (push_bounded output value maximum_bytes).1 ≤ maximum_bytes)%nat.
Proof.
  intros Hfits. unfold push_bounded. destruct (length value <=? _)%nat eqn:Hle; simpl; rewrite length_app.
  - apply Nat.leb_le in Hle. lia.
  - rewrite length_take. pose proof (floor_boundary_le value (maximum_bytes - length output)). lia.
Qed.

Lemma str_slice_infix value start end_ gap :
  str_slice value start end_ = Some gap → ∃ a b, value = a ++ gap ++ b.
Proof.
  unfold str_slice. case_decide; [|done]. destruct (_ && _); [|done]. intros [= <-].
  exists (take start value), (drop (end_ - start) (drop start value)). by rewrite !take_drop.
Qed.

Section passes.
Context {Regex : Type} `{Engine : RegexEngine Regex}.

Lemma replace_matches_length matches value maximum_bytes previous_end output shown :
  (length output ≤ maximum_bytes)%nat →
  replace_matches matches value maximum_bytes previous_end output = Some shown →
  (length shown ≤ maximum_bytes)%nat.
Proof.
  revert previous_end output. induction matches as [|m rest IH]; intros previous_end output Hfits; cbn [replace_matches].
  - destruct (str_slice _ _ _) as [gap|]; [|done]. intros [= <-]. by apply push_bounded_length.
  - destruct (str_slice _ _ _) as [gap|]; [|done]. cbn [mbind option_bind].
    pose proof (push_bounded_length output gap _ Hfits) as Hpush.
    destruct (push_bounded _ _ _) as [next fitted]. cbn [fst] in Hpush.
    destruct fitted; cbn [negb]; [|by intros [= <-]].
    destruct (_ <? _)%nat eqn:Hroom; [by intros [= <-]|].
    apply Nat.ltb_ge in Hroom. apply IH. by rewrite length_app.
Qed.

(** The output of a pass is built from pieces of the value and replacements. *)
Lemma replace_matches_absent pattern matches value maximum_bytes previous_end output shown :
  apart REPLACEMENT pattern → Absent pattern value →
  (output = [] ∨ ∃ before, output = before ++ REPLACEMENT ∧ Absent pattern before) →
  replace_matches matches value maximum_bytes previous_end output = Some shown → Absent pattern shown.
Proof.
  intros Hapart Hvalue. revert previous_end output.
  assert (Hpiece : ∀ output piece, (output = [] ∨ ∃ before, output = before ++ REPLACEMENT ∧ Absent pattern before) →
            Absent pattern piece → Absent pattern (output ++ piece)).
  { intros output piece [-> | (before & -> & Hbefore)] Hpiece; [done|].
    rewrite <- app_assoc. by apply absent_join. }
  assert (Hpushed : ∀ output gap start end_, str_slice value start end_ = Some gap →
            (output = [] ∨ ∃ before, output = before ++ REPLACEMENT ∧ Absent pattern before) →
            Absent pattern (push_bounded output gap maximum_bytes).1).
  { intros output gap start end_ (a & b & Hgap)%str_slice_infix Houtput.
    assert (Absent pattern gap) as Habsent by (rewrite Hgap in Hvalue; by apply absent_infix in Hvalue).
    destruct (push_bounded_prefix output gap maximum_bytes) as [-> | [n ->]]; apply Hpiece; try done.
    apply (absent_infix _ [] _ (drop n gap)). simpl. by rewrite take_drop. }
  induction matches as [|m rest IH]; intros previous_end output Houtput; cbn [replace_matches].
  - destruct (str_slice _ _ _) as [gap|] eqn:Hgap; [|done]. intros [= <-]. by eapply Hpushed.
  - destruct (str_slice _ _ _) as [gap|] eqn:Hgap; [|done]. cbn [mbind option_bind].
    pose proof (Hpushed output gap _ _ Hgap Houtput) as Hpush.
    destruct (push_bounded _ _ _) as [next fitted]. cbn [fst] in Hpush.
    destruct fitted; cbn [negb]; [|by intros [= <-]].
    destruct (_ <? _)%nat; [by intros [= <-]|]. apply IH. right. eauto.
Qed.

Lemma redact_bounded_length (r : Redactor Regex) value maximum_bytes shown :
  redact_bounded r value maximum_bytes = Some shown → (length shown ≤ maximum_bytes)%nat.
Proof.
  assert (Hpasses : ∀ ps out, (length out ≤ maximum_bytes)%nat → redact_passes ps out maximum_bytes = Some shown →
            (length shown ≤ maximum_bytes)%nat).
  { induction ps as [|p ps IH]; intros out Hout; simpl; [by intros [= <-]|].
    destruct (replace_all_bounded _ _ _) as [next|] eqn:Hnext; [|done]. simpl. apply IH.
    eapply replace_matches_length; [|exact Hnext]. simpl. lia. }
  unfold redact_bounded, redact_bounded_into. destruct (patterns r) as [|p ps].
  - intros [= <-]. apply push_bounded_length. simpl. lia.
  - destruct (replace_all_bounded _ _ _) as [next|] eqn:Hnext; [|done]. simpl. apply Hpasses.
    eapply replace_matches_length; [|exact Hnext]. simpl. lia.
Qed.

Lemma redact_bounded_absent (r : Redactor Regex) pattern value maximum_bytes shown :
  apart REPLACEMENT pattern → Absent pattern value →
  redact_bounded r value maximum_bytes = Some shown → Absent pattern shown.
Proof.
  intros Hapart Hvalue.
  assert (Hpass : ∀ p v out, Absent pattern v → replace_all_bounded p v maximum_bytes = Some out → Absent pattern out).
  { intros p v out Hv. apply replace_matches_absent; [done|done|by left]. }
  assert (Hpasses : ∀ ps out, Absent pattern out → redact_passes ps out maximum_bytes = Some shown → Absent pattern shown).
  { induction ps as [|p ps IH]; intros out Hout; simpl; [by intros [= <-]|].
    destruct (replace_all_bounded _ _ _) as [next|] eqn:Hnext; [|done]. simpl. apply IH. by eapply Hpass. }
  unfold redact_bounded, redact_bounded_into. destruct (patterns r) as [|p ps].
  - intros [= <-]. destruct (push_bounded_prefix [] value maximum_bytes) as [-> | [n ->]]; simpl; [done|].
    apply (absent_infix _ [] _ (drop n value)). simpl. by rewrite take_drop.
  - destruct (replace_all_bounded _ _ _) as [next|] eqn:Hnext; [|done]. simpl. apply Hpasses. by eapply Hpass.
Qed.

Lemma replace_matches_forall (P : Z → Prop) matches value maximum_bytes previous_end output shown :
  Forall P value → Forall P REPLACEMENT → Forall P output →
  replace_matches matches value maximum_bytes previous_end output = Some shown → Forall P shown.
Proof.
  intros Hvalue Hreplacement. revert previous_end output.
  assert (Hpushed : ∀ output gap start end_, str_slice value start end_ = Some gap → Forall P output →
            Forall P (push_bounded output gap maximum_bytes).1).
  { intros output gap start end_ (a & b & Hgap)%str_slice_infix Houtput. rewrite Hgap in Hvalue.
    apply Forall_app in Hvalue as [_ [Hpiece _]%Forall_app].
    destruct (push_bounded_prefix output gap maximum_bytes) as [-> | [n ->]]; apply Forall_app; auto using Forall_take. }
  induction matches as [|m rest IH]; intros previous_end output Houtput; cbn [replace_matches].
  - destruct (str_slice _ _ _) as [gap|] eqn:Hgap; [|done]. intros [= <-]. by eapply Hpushed.
  - destruct (str_slice _ _ _) as [gap|] eqn:Hgap; [|done]. cbn [mbind option_bind].
    pose proof (Hpushed output gap _ _ Hgap Houtput) as Hpush.
    destruct (push_bounded _ _ _) as [next fitted]. cbn [fst] in Hpush.
    destruct fitted; cbn [negb]; [|by intros [= <-]].
    destruct (_ <? _)%nat; [by intros [= <-]|]. apply IH. by apply Forall_app.
Qed.

Lemma redact_bounded_u8 (r : Redactor Regex) value maximum_bytes shown :
  Forall is_u8 value → redact_bounded r value maximum_bytes = Some shown → Forall is_u8 shown.
Proof.
  intros Hvalue.
  assert (Hpass : ∀ p v out, Forall is_u8 v → replace_all_bounded p v maximum_bytes = Some out → Forall is_u8 out).
  { intros p v out Hv. apply replace_matches_forall; [done|apply bytes_of_u8|constructor]. }
  assert (Hpasses : ∀ ps out, Forall is_u8 out → redact_passes ps out maximum_bytes = Some shown → Forall is_u8 shown).
  { induction ps as [|p ps IH]; intros out Hout; simpl; [by intros [= <-]|].
    destruct (replace_all_bounded _ _ _) as [next|] eqn:Hnext; [|done]. simpl. apply IH. by eapply Hpass. }
  unfold redact_bounded, redact_bounded_into. destruct (patterns r) as [|p ps].
  - intros [= <-]. destruct (push_bounded_prefix [] value maximum_bytes) as [-> | [n ->]]; simpl; auto using Forall_take.
  - destruct (replace_all_bounded _ _ _) as [next|] eqn:Hnext; [|done]. simpl. apply Hpasses. by eapply Hpass.
Qed.

(** The redactor of the policy crate, on strings; a panic, which
    [redact_bounded] never has on a [str], shows nothing. *)
Definition redact_bounded_str (r : Redactor Regex) (value : string) (maximum_bytes : Z) : string :=
  string_of_bytes (default [] (redact_bounded r (bytes_of value) (Z.to_nat maximum_bytes))).

Lemma redact_bounded_str_bytes r value maximum_bytes :
  bytes_of (redact_bounded_str r value maximum_bytes) =
  default [] (redact_bounded r (bytes_of value) (Z.to_nat maximum_bytes)).
Proof.
  apply bytes_of_string_of_bytes. destruct (redact_bounded _ _ _) as [shown|] eqn:Hshown; [|constructor].
  eapply redact_bounded_u8; [|exact Hshown]. apply bytes_of_u8.
Qed.

Program Definition policy_redactor (r : Redactor Regex) : BoundedRedactor := {|
  redact_str := redact_bounded_str r;
|}.
Next Obligation.
  intros r value maximum_bytes Hmax. rewrite <- length_bytes_of, redact_bounded_str_bytes.
  destruct (redact_bounded _ _ _) as [shown|] eqn:Hshown; simpl; [|lia].
  apply redact_bounded_length in Hshown. lia.
Qed.
Next Obligation.
  intros r pattern value maximum_bytes Hapart Hvalue. unfold Hidden. rewrite redact_bounded_str_bytes.
  destruct (redact_bounded _ _ _) as [shown|] eqn:Hshown; simpl; [by eapply redact_bounded_absent|].
  intros before after Heq. by destruct before, (bytes_of pattern).
Qed.
End passes.


(** ** Summaries *)

Definition WORKSPACE_TOKEN : string := "<workspace>".

Section sanitize.
Context `{Redactor : BoundedRedactor} (windows : bool).

(** The closure [sanitize] of [sanitize_summary] and [reducer_context]. *)
Definition sanitize (workspace value : string) (maximum_bytes : Z) : string :=
  redact_str (replace value workspace WORKSPACE_TOKEN) maximum_bytes.

Definition option_else {A} (a b : option A) : option A := match a with Some _ => a | None => b end.

Definition sanitize_location (workspace : string) (l : DiagnosticLocation) : DiagnosticLocation :=
  let path := workspace_relative_path (location_path l) workspace windows in
  let path := default path
    (option_else (strip_prefix "<workspace>/" path)
    (option_else (strip_prefix "<workspace>\" path)
    (option_else (strip_prefix "<WORKSPACE>/" path) (strip_prefix "<WORKSPACE>\" path)))) in
  MkLocation (redact_str path 1000) (location_line l) (location_column l).

Definition sanitize_diagnostic (workspace : string) (d : Diagnostic) : Diagnostic :=
  MkDiagnostic (severity d) (category d) (sanitize workspace (message d) 1000)
    (sanitize_location workspace <$> location d)
    ((fun target => sanitize workspace target 1000) <$> diagnostic_target d)
    ((fun action => sanitize workspace action 1000) <$> action d) (repetition_count d).

Definition sanitize_case (workspace : string) (c : TestCase) : TestCase :=
  MkTestCase (sanitize workspace (case_name c) 512) (case_status c) (case_duration_ms c)
    ((fun message => sanitize workspace message 1000) <$> case_message c).

Definition sanitize_test (workspace : string) (t : TestResult) : TestResult :=
  MkTestResult (sanitize workspace (test_label t) 1000) (test_status t) (duration_ms t) (attempts t) (shard t)
    (sanitize_case workspace <$> cases t) (test_log_available t) (test_log_unavailable_reason t).

Definition sanitize_coverage (workspace : string) (c : CoverageSummary) : CoverageSummary :=
  MkCoverage (lines_found c) (lines_hit c) (coverage_percent c)
    ((fun file => MkCoverageFile (sanitize workspace (coverage_path file) 1000) (file_lines_found file)
                    (file_lines_hit file) (file_percent file)) <$> files c).

(** [sanitize_summary]. *)
Definition sanitize_summary (workspace : string) (s : InvocationSummary) : InvocationSummary :=
  MkSummary (success s) (sanitize workspace (headline s) 1000)
    ((fun t => MkTargetResult (sanitize workspace (target_label t) 1000) (target_success t)) <$> targets s)
    (target_counts s) (sanitize_diagnostic workspace <$> diagnostics s) (sanitize_test workspace <$> tests s)
    (test_counts s) (sanitize_coverage workspace <$> coverage s) (query_sample s) (query_result_count s)
    (elapsed_ms s) (truncated s) (inspect_hint s).

(** [redacted_request] of service.rs: the request as it is stored. *)
Definition redacted_request (q : InvocationRequest) : InvocationRequest :=
  let redact value := redact_str value (64 * 1024) in
  MkRequest (request_id q) (workspace q) (redact <$> startup_arguments q) (command q) (redact <$> arguments q)
    (redact <$> target q) ((fun _ => "[REDACTED]") <$> program_arguments q) (timeout_ms q)
    (redact <$> environment q) (requested_at_ms q).

(** The texts of a summary that a client reads, locations apart. *)
Definition diagnostic_texts (d : Diagnostic) : list string :=
  message d :: option_list (diagnostic_target d) ++ option_list (action d).
Definition case_texts (c : TestCase) : list string := case_name c :: option_list (case_message c).
Definition test_texts (t : TestResult) : list string := test_label t :: (cases t ≫= case_texts).
Definition public_texts (s : InvocationSummary) : list string :=
  headline s :: (target_label <$> targets s) ++ (diagnostics s ≫= diagnostic_texts) ++ (tests s ≫= test_texts)
    ++ (option_list (coverage s) ≫= fun c => coverage_path <$> files c).

Lemma sanitize_hidden workspace value maximum_bytes :
  apart (bytes_of WORKSPACE_TOKEN) (bytes_of workspace) → apart REPLACEMENT (bytes_of workspace) →
  Hidden workspace (sanitize workspace value maximum_bytes).
Proof. intros Htoken Hreplacement. by apply redact_str_hidden, replace_hides. Qed.

Lemma sanitize_len workspace value maximum_bytes :
  0 ≤ maximum_bytes → str_len (sanitize workspace value maximum_bytes) ≤ maximum_bytes.
Proof. apply redact_str_len. Qed.

(** A property of everything [sanitize] returns holds of every public text. *)
Lemma sanitized_texts workspace (P : string → Prop) s :
  (∀ value, P (sanitize workspace value 1000)) → (∀ value, P (sanitize workspace value 512)) →
  Forall P (public_texts (sanitize_summary workspace s)).
Proof.
  intros HP HP'. unfold public_texts. repeat (apply Forall_cons_2 || apply Forall_app_2); [apply HP|..].
  - simpl. rewrite !Forall_fmap. apply Forall_true. intros t. apply HP.
  - apply Forall_bind. simpl. rewrite Forall_fmap. apply Forall_true. intros d. unfold diagnostic_texts. simpl.
    constructor; [done|]. apply Forall_app_2; [destruct (diagnostic_target d)|destruct (action d)]; by repeat constructor.
  - apply Forall_bind. simpl. rewrite Forall_fmap. apply Forall_true. intros t. unfold test_texts. simpl.
    constructor; [done|]. apply Forall_bind. rewrite Forall_fmap. apply Forall_true. intros c.
    unfold case_texts. simpl. constructor; [done|]. destruct (case_message c); by repeat constructor.
  - simpl. destruct (coverage s) as [c|]; simpl; [|constructor]. rewrite app_nil_r, !Forall_fmap.
    apply Forall_true. intros file. apply HP.
Qed.

(** After sanitising, no headline, label, message, target, action, test case
    or coverage path of a summary contains the path of the workspace, whatever
    the redaction patterns are, and each is at most 1,000 bytes long; the path
    only has to share no byte with the start of either placeholder, nor its own
    first byte with them. *)
Theorem sanitized_summary_hides_workspace workspace s
    (Htoken : apart (bytes_of WORKSPACE_TOKEN) (bytes_of workspace))
    (Hreplacement : apart REPLACEMENT (bytes_of workspace)) :
  Forall (fun text => Hidden workspace text ∧ str_len text ≤ 1000)
    (public_texts (sanitize_summary workspace s)).
Proof.
  apply sanitized_texts; intros value; (split; [by apply sanitize_hidden|]).
  - by apply sanitize_len.
  - pose proof (sanitize_len workspace value 512). lia.
Qed.
End sanitize.

Module SanitizeExamples.
Import LiteralEngine.
Definition example_redactor : BoundedRedactor := policy_redactor (MkRedactor [bytes_of "s3cret"]).
Definition example_summary : InvocationSummary :=
  MkSummary false "/home/me/w: build failed" [] (MkTargetCounts 0 0 0)
    [MkDiagnostic SevError CatCompilation "token s3cret in /home/me/w/pkg/a.go"
       (Some (MkLocation "/home/me/w/pkg/a.go" (Some 3) None)) (Some "//pkg:a") None 1]
    [] (MkTestCounts 0 0 0 0 0) None [] None 7 false None.

Lemma sanitized_summary_hides_workspace_witness :
  let s := sanitize_summary (Redactor:=example_redactor) false "/home/me/w" example_summary in
  public_texts s = ["<workspace>: build failed"; "token [REDACTED] in <workspace>/pkg/a.go"; "//pkg:a"] ∧
  Forall (fun text => Hidden "/home/me/w" text ∧ str_len text ≤ 1000) (public_texts s).
Proof.
  split; [vm_compute; reflexivity|].
  apply sanitized_summary_hides_workspace; apply (bool_decide_unpack _); vm_compute; exact I.
Defined.
End SanitizeExamples.
