(* ===== verification/Artifacts.v ===== *)
(** * Local artifacts and coverage (crates/bazel-mcp-runner/src/artifacts.rs,
    crates/bazel-mcp-reducer/src/coverage.rs)

    Which of the artifacts Bazel reports the runner opens: the local ones whose
    real path stays in the workspace, in the configured output root or, for test
    logs, in the output base they name.  The coverage report of the first one
    that parses as LCOV.  Floating-point percentages are computed exactly, with
    the binary64 operations of [SpecFloat]. *)

From Stdlib Require Import Ascii SpecFloat.
From S2P Require Import Prelude Collections Types Policy Redaction QueryPaging Diagnostics Text Runner.
#[global] Open Scope Z_scope.

#[export] Instance ArtifactKind_eq_dec : EqDecision ArtifactKind.
Proof. solve_decision. Defined.

(** ** Reading a file *)

(** What can be read of an opened file: its bytes, up to its end or to an error. *)
Record FileRead : Type := MkRead { read_bytes : list Z; read_fails : bool }.

(** The opened files ([None]: the file cannot be opened). *)
Abbreviation OpenFile := (string → option FileRead) (only parsing).

(** The results of [read_until(b'\n')] until it reads nothing or fails; the
    unfinished line before an error is not returned. *)
Fixpoint until_newline (line : list Z) (bytes : list Z) (fails : bool) : list (list Z) :=
  match bytes with
  | [] => if fails || bool_decide (line = []) then [] else [line]
  | b :: rest =>
      if b =? 10 then (line ++ [b]) :: until_newline [] rest fails
      else until_newline (line ++ [b]) rest fails
  end.
Definition raw_lines (f : FileRead) : list (list Z) := until_newline [] (read_bytes f) (read_fails f).

(** [str::from_utf8]: bytes are UTF-8 when nothing of them has to be replaced. *)
Definition from_utf8 (bytes : list Z) : option string :=
  if bool_decide (from_utf8_lossy bytes = bytes) then Some (string_of_bytes bytes) else None.

(** [BufRead::lines]: each line without its terminator, or an error. *)
Definition without_terminator (line : string) : string :=
  match strip_last newline line with Some line => chomp line | None => line end.
Definition buf_lines (f : FileRead) : list (option string) :=
  ((fun line => without_terminator <$> from_utf8 line) <$> raw_lines f) ++ (if read_fails f then [None] else []).

(** ** Binary64 *)

Definition f64_of_u64 (n : Z) : spec_float := binary_normalize 53 1024 n 0 false.

(** [f64::to_bits]. *)
Definition to_bits (f : spec_float) : f64 :=
  let sign (s : bool) := if s then 2 ^ 63 else 0 in
  match f with
  | S754_zero s => sign s
  | S754_infinity s => sign s + 2047 * 2 ^ 52
  | S754_nan => 2047 * 2 ^ 52 + 2 ^ 51
  | S754_finite s m e =>
      if Z.pos m <? 2 ^ 52 then sign s + Z.pos m else sign s + (e + 1075) * 2 ^ 52 + (Z.pos m - 2 ^ 52)
  end.

(** ** Coverage *)

Inductive CoverageError : Type :=
| InvalidInteger (value : string)
| CoverageIo.

Definition bounded_path (value : string) : string := bounded_text value 1000.

Definition parse_u64 (value : string) : result CoverageError Z :=
  ok_or (parse_unsigned u64_max value) (InvalidInteger value).

Definition percent (hit found : Z) : f64 :=
  if found =? 0 then 0
  else to_bits (SFdiv 53 1024 (SFmul 53 1024 (f64_of_u64 hit) (f64_of_u64 100)) (f64_of_u64 found)).

(** The first two fields of [data.split(',')]; a missing one is the empty string. *)
Definition first_field (data : string) : string :=
  match split_once "," data with Some (field, _) => field | None => data end.
Definition second_field (data : string) : string :=
  match split_once "," data with Some (_, rest) => first_field rest | None => "" end.

Abbreviation LineTotals := (gmap string (Z * Z)) (only parsing).

Definition count_line (path : string) (hits : Z) (totals : LineTotals) : LineTotals :=
  let '(found, hit) := default (0, 0) (totals !! path) in
  <[path := (u64_add found 1, u64_add hit (if 0 <? hits then 1 else 0))]> totals.

Fixpoint lcov_loop (current : option string) (totals : LineTotals) (ls : list (option string))
    : result CoverageError LineTotals :=
  match ls with
  | [] => Ok totals
  | None :: _ => Err CoverageIo
  | Some line :: rest =>
      match strip_prefix "SF:" line with
      | Some path => lcov_loop (Some (bounded_path path)) totals rest
      | None =>
          match strip_prefix "DA:" line with
          | Some data =>
              _ ← parse_u64 (first_field data);
              hits ← parse_u64 (second_field data);
              lcov_loop current
                (match current with Some path => count_line path hits totals | None => totals end) rest
          | None => lcov_loop current totals rest
          end
      end
  end.

Definition coverage_of (totals : LineTotals) : CoverageSummary :=
  let items := btree_items totals in
  let found := foldl (fun total item => u64_add total item.2.1) 0 items in
  let hit := foldl (fun total item => u64_add total item.2.2) 0 items in
  MkCoverage found hit (percent hit found)
    ((fun item => MkCoverageFile item.1 item.2.1 item.2.2 (percent item.2.2 item.2.1)) <$> items).

Definition parse_lcov_reader (f : FileRead) : result CoverageError CoverageSummary :=
  totals ← lcov_loop None ∅ (buf_lines f); Ok (coverage_of totals).

(** ** Artifact paths *)

Definition component_name (c : Component) : string :=
  match c with RootDir => "/" | CurDir => "." | ParentDir => ".." | Normal name => name end.

(** Collecting components into a [PathBuf]. *)
Definition path_of (cs : list Component) : string := foldl join "" (component_name <$> cs).

(** [Path::extension]. *)
Definition path_extension (path : string) : option string :=
  match last (components path) with
  | Some (Normal name) =>
      match rsplit_once_str "." name with
      | Some (stem, extension) => if bool_decide (stem = "") then None else Some extension
      | None => None
      end
  | _ => None
  end.

Definition is_drive_uri (path : string) : bool :=
  match bytes_of path with
  | a :: b :: c :: d :: _ =>
      (a =? 47) && (((65 <=? b) && (b <=? 90)) || ((97 <=? b) && (b <=? 122))) && (c =? 58) && (d =? 47)
  | _ => false
  end.

Definition local_file_uri_path (path : string) (windows : bool) : string :=
  if windows && is_drive_uri path then String.substring 1 (String.length path - 1) path else path.

Definition local_artifact_path (windows : bool) (artifact : Artifact) : option string :=
  if negb (locally_available artifact) then None
  else match strip_prefix "file://" (uri artifact) with
       | Some path => Some (local_file_uri_path path windows)
       | None => if is_absolute (uri artifact) then Some (uri artifact) else None
       end.

(** [position]: the place of the first component with the given name, from
    [start] on. *)
Definition position_from (start : nat) (name : string) (cs : list Component) : option nat :=
  (fun found => (start + found.1)%nat) <$> list_find (fun c => component_name c = name) (drop start cs).

Definition bazel_test_log_output_base (path : string) : option string :=
  let cs := components path in
  execroot ← position_from 0 "execroot" cs;
  bazel_out ← position_from (execroot + 1) "bazel-out" cs;
  _ ← position_from (bazel_out + 1) "testlogs" cs;
  if bool_decide (path_extension path = Some "log" ∨ path_extension path = Some "xml")
  then Some (path_of (take execroot cs)) else None.

Section artifacts.
Context {IoError : Type} `{FS : FileSystem IoError} (windows : bool) (config : RunnerConfig).

Definition in_output_root (canonical : string) : bool :=
  match output_user_root config with
  | Some root => match canonicalize root with Ok root => path_starts_with canonical root | Err _ => false end
  | None => false
  end.

Definition in_bazel_testlogs (artifact : Artifact) (path canonical : string) : bool :=
  if bool_decide (artifact_kind artifact = TestLog) then
    match bazel_test_log_output_base path, bazel_test_log_output_base canonical with
    | Some lexical_root, Some canonical_root =>
        match canonicalize lexical_root with
        | Ok lexical_root => path_eq lexical_root canonical_root && path_starts_with canonical lexical_root
        | Err _ => false
        end
    | _, _ => false
    end
  else false.

Definition validated_artifact_path (workspace : string) (artifact : Artifact) : option string :=
  path ← local_artifact_path windows artifact;
  canonical ← ok_option (canonicalize path);
  if path_starts_with canonical workspace || in_output_root canonical || in_bazel_testlogs artifact path canonical
  then Some canonical else None.

(** [load_coverage]: the first coverage artifact that can be resolved, opened and
    parsed. *)
Definition artifact_coverage (open : OpenFile) (workspace : string) (artifact : Artifact) : option CoverageSummary :=
  canonical ← validated_artifact_path workspace artifact;
  file ← open canonical;
  ok_option (parse_lcov_reader file).

Fixpoint load_coverage (open : OpenFile) (workspace : string) (artifacts : list Artifact) : option CoverageSummary :=
  match artifacts with
  | [] => None
  | artifact :: rest =>
      if bool_decide (artifact_kind artifact = CoverageArtifact) then
        match artifact_coverage open workspace artifact with
        | Some coverage => Some coverage
        | None => load_coverage open workspace rest
        end
      else load_coverage open workspace rest
  end.
End artifacts.

(** * Theorems *)

(** ** Paths and their components *)

Lemma split_slash_cons s : ∃ segment segments, split_slash s = segment :: segments.
Proof.
  induction s as [|c s (segment & segments & IH)]; simpl; [eauto|].
  destruct (Ascii.eqb c "/"%char); [eauto|]. rewrite IH. eauto.
Qed.

Lemma split_slash_app a b : split_slash (a +:+ "/" +:+ b) = split_slash a ++ split_slash b.
Proof.
  induction a as [|c a IH]; [done|].
  change (split_slash (String c (a +:+ "/" +:+ b)) = split_slash (String c a) ++ split_slash b).
  cbn [split_slash]. rewrite IH. destruct (Ascii.eqb c "/"%char); [done|].
  by destruct (split_slash_cons a) as (segment & segments & ->).
Qed.

(** A name: what stands between two separators. *)
Definition Plain (name : string) : Prop := split_slash name = [name].

Lemma split_slash_plain s : Forall Plain (split_slash s).
Proof.
  induction s as [|c s IH]; cbn [split_slash]; [by repeat constructor|].
  destruct (Ascii.eqb c "/"%char) eqn:Hc; [by constructor|].
  destruct (split_slash_cons s) as (segment & segments & Heq). rewrite Heq in IH |- *.
  apply Forall_cons in IH as [Hsegment IH]. constructor; [|done].
  unfold Plain. cbn [split_slash]. by rewrite Hc, Hsegment.
Qed.

Lemma plain_relative name : Plain name → is_absolute name = false.
Proof.
  destruct name as [|c name]; [done|]. unfold Plain, is_absolute, starts_with. cbn [split_slash strip_prefix].
  destruct (Ascii.eqb c "/"%char) eqn:Hc; [done|]. apply Ascii.eqb_neq in Hc. rewrite <- (Ascii.eqb_sym c), (proj2 (Ascii.eqb_neq _ _) Hc). done.
Qed.

Lemma is_absolute_app a b : a ≠ "" → is_absolute (a +:+ b) = is_absolute a.
Proof.
  destruct a as [|c a]; [done|]. intros _. change (String c a +:+ b) with (String c (a +:+ b)).
  unfold is_absolute, starts_with. cbn [strip_prefix]. by destruct (Ascii.eqb _ c), a, b.
Qed.

Lemma string_snoc s : s = "" ∨ ∃ init c, s = init +:+ String c "".
Proof.
  induction s as [|c s [-> | (init & d & ->)]]; [by left| |]; right.
  - by exists "", c.
  - by exists (String c init), d.
Qed.

Lemma last_character init c :
  String.substring (String.length (init +:+ String c "") - 1) 1 (init +:+ String c "") = String c "".
Proof.
  induction init as [|d init IH]; [done|].
  change (String d init +:+ String c "") with (String d (init +:+ String c "")).
  cbn [String.length]. destruct (String.length (init +:+ String c "")) as [|n] eqn:Hlength.
  { by destruct init. }
  replace (S (S n) - 1)%nat with (S (S n - 1)) by lia. cbn [String.substring]. exact IH.
Qed.

(** What stands before the names. *)
Definition lead (path : string) : list Component :=
  if is_absolute path then [RootDir]
  else if bool_decide (head (split_slash path) = Some ".") then [CurDir] else [].

Lemma components_lead path : components path = lead path ++ concat (map segment_component (split_slash path)).
Proof.
  unfold components, lead. destruct (is_absolute path); [done|].
  destruct (split_slash_cons path) as (segment & segments & ->). cbn [head].
  destruct (decide (segment = ".")) as [-> | Hdot]; [done|]. rewrite bool_decide_false by congruence.
  destruct segment as [|a [|b ?]]; [done| |]; by repeat (destruct a as [[] [] [] [] [] [] [] []]; try done).
Qed.

Lemma lead_app a b : a ≠ "" → lead (a +:+ "/" +:+ b) = lead a.
Proof.
  intros Ha. unfold lead. rewrite is_absolute_app, split_slash_app by done.
  by destruct (split_slash_cons a) as (segment & segments & ->).
Qed.

(** Joining a relative path to a path appends its components, when it does not
    begin with a dot. *)
Lemma components_join_relative base path : base ≠ "" → lead path = [] →
  components (join base path) = components base ++ components path.
Proof.
  intros Hbase Hlead. assert (is_absolute path = false) as Hrelative.
  { unfold lead in Hlead. by destruct (is_absolute path). }
  unfold join. rewrite Hrelative, (bool_decide_false (base = "")) by done. cbn [orb].
  destruct (string_snoc base) as [-> | (init & c & ->)]; [done|]. rewrite last_character.
  destruct (decide (c = "/"%char)) as [-> | Hc].
  - rewrite bool_decide_true by done. rewrite append_assoc.
    change (components (init +:+ "/" +:+ path) = components (init +:+ "/" +:+ "") ++ components path).
    rewrite !components_lead, !split_slash_app, !map_app, !concat_app, Hlead.
    cbn [map concat split_slash]. change (segment_component "" ++ []) with (@nil Component).
    rewrite app_nil_r, <- app_assoc. f_equal.
    destruct (decide (init = "")) as [-> | Hinit]; [|by rewrite !lead_app].
    done.
  - rewrite bool_decide_false by (by intros [= ->]).
    rewrite !components_lead, split_slash_app, lead_app, map_app, concat_app, Hlead by (by destruct init).
    by rewrite app_assoc.
Qed.

(** Joining a name to a path adds its component. *)
Lemma components_join base name : base ≠ "" → Plain name → name ≠ "." →
  components (join base name) = components base ++ segment_component name.
Proof.
  intros Hbase Hname Hdot.
  assert (lead name = []) as Hlead.
  { unfold lead. by rewrite (plain_relative _ Hname), Hname, bool_decide_false by (intros [= ->]; done). }
  rewrite components_join_relative, (components_lead name), Hlead, Hname by done. cbn [map concat]. by rewrite app_nil_r.
Qed.

(** The components of a path are one optional lead and names. *)
Definition InnerComponent (c : Component) : Prop :=
  c = ParentDir ∨ ∃ name, c = Normal name ∧ Plain name ∧ segment_component name = [Normal name].

Lemma inner_components s : Forall InnerComponent (concat (map segment_component (split_slash s))).
Proof.
  apply Forall_concat, Forall_map. eapply Forall_impl; [apply split_slash_plain|]. intros segment Hplain.
  unfold segment_component at 1. destruct (bool_decide (segment = "") || bool_decide (segment = ".")) eqn:Hskip; [done|].
  destruct (bool_decide (segment = "..")) eqn:Hparent; apply Forall_singleton; [by left|]. right. exists segment.
  split_and!; [done|done|]. unfold segment_component. by rewrite Hskip, Hparent.
Qed.

Lemma path_of_snoc cs c : path_of (cs ++ [c]) = join (path_of cs) (component_name c).
Proof. unfold path_of. by rewrite fmap_app, foldl_app. Qed.

Lemma join_nonempty base name : name ≠ "" → join base name ≠ "".
Proof.
  intros Hname. unfold join. destruct (_ || _); [done|]. by case_bool_decide; destruct base.
Qed.

Lemma path_of_inner cs inner : path_of cs ≠ "" → Forall InnerComponent inner →
  components (path_of cs) = cs → components (path_of (cs ++ inner)) = cs ++ inner.
Proof.
  intros Hne Hinner Hcs. induction inner as [|c inner IH] using rev_ind; [by rewrite app_nil_r|].
  apply Forall_app in Hinner as [Hinner [Hc _]%Forall_cons_1]. specialize (IH Hinner).
  rewrite app_assoc, path_of_snoc.
  assert (path_of (cs ++ inner) ≠ "") as Hbase.
  { destruct inner as [|d inner _] using rev_ind; [by rewrite app_nil_r|]. rewrite app_assoc, path_of_snoc.
    apply Forall_app in Hinner as [_ [Hd _]%Forall_cons_1]. apply join_nonempty.
    destruct Hd as [-> | (name & -> & _ & Hname)]; [done|]. cbn. by intros ->. }
  destruct Hc as [-> | (name & -> & Hplain & Hname)]; cbn [component_name];
    rewrite components_join, IH by (done || by intros ->); [done|by rewrite Hname].
Qed.

(** A prefix of the components of a path, made a path, has these components. *)
Lemma components_path_of path n : components (path_of (take n (components path))) = take n (components path).
Proof.
  destruct n as [|n]; [done|]. rewrite (components_lead path). pose proof (inner_components path) as Hinner.
  unfold lead. destruct (is_absolute path); [|case_bool_decide]; cbn [app take].
  - apply (path_of_inner [RootDir]); [done|by apply Forall_take|done].
  - apply (path_of_inner [CurDir]); [done|by apply Forall_take|done].
  - destruct Hinner as [|c inner Hc Hinner]; [done|]. cbn [take].
    destruct Hc as [-> | (name & -> & Hplain & Hname)].
    + apply (path_of_inner [ParentDir]); [done|by apply Forall_take|done].
    + assert (name ≠ "") by (by intros ->). assert (name ≠ ".") by (by intros ->).
      assert (path_of [Normal name] = name) as Hpath.
      { unfold path_of, join. cbn. rewrite bool_decide_true by done. by rewrite orb_true_r. }
      apply (path_of_inner [Normal name]); [by rewrite Hpath|by apply Forall_take|].
      rewrite Hpath, components_lead. unfold lead. rewrite plain_relative, Hplain by done. cbn [head map concat].
      rewrite bool_decide_false by congruence. by rewrite app_nil_r, Hname.
Qed.

(** ** Containment *)

(** The path of a test log or test report below the output base [root]. *)
Definition InTestLogs (path root : string) : Prop :=
  (Normal "execroot" ∉ components root) ∧
  (∃ configuration package rest,
     components path = components root ++ Normal "execroot" :: configuration ++ Normal "bazel-out" :: package
                         ++ Normal "testlogs" :: rest) ∧
  (path_extension path = Some "log" ∨ path_extension path = Some "xml").

Definition special_names : list string := ["/"; "."; ".."].

Lemma component_name_normal c name : name ∉ special_names → component_name c = name ↔ c = Normal name.
Proof. unfold special_names. destruct c; cbn; set_solver. Qed.

Lemma position_from_split start name cs i : name ∉ special_names → position_from start name cs = Some i →
  ∃ before, drop start cs = before ++ Normal name :: drop (i + 1) cs ∧ (Normal name ∉ before) ∧
    i = (start + length before)%nat.
Proof.
  intros Hname. unfold position_from. intros ([k c] & (Hlook & Hc & Hbefore)%list_find_Some & ->)%fmap_Some. cbn [fst].
  apply component_name_normal in Hc as ->; [|done].
  exists (take k (drop start cs)). split_and!.
  - rewrite <- (take_drop_middle _ _ _ Hlook) at 1. rewrite drop_drop. do 3 f_equal. lia.
  - intros (j & Hj)%list_elem_of_lookup. apply lookup_take_Some in Hj as [Hj Hlt].
    apply (Hbefore j _ Hj Hlt). by apply component_name_normal.
  - rewrite length_take. apply lookup_lt_Some in Hlook. lia.
Qed.

Lemma position_from_found start name cs before rest : name ∉ special_names →
  drop start cs = before ++ Normal name :: rest →
  ∃ i skipped, position_from start name cs = Some i ∧ drop (i + 1) cs = skipped ++ rest ∧
    (Normal name ∉ before → i = (start + length before)%nat).
Proof.
  intros Hname Hdrop. unfold position_from.
  destruct (list_find (fun c => component_name c = name) (drop start cs)) as [[k c]|] eqn:Hfind; cbn [fmap option_fmap option_map fst].
  2: { apply list_find_None, Forall_forall with (x := Normal name) in Hfind; [done|]. rewrite Hdrop. set_solver. }
  pose proof Hfind as (Hlook & Hc & Hbefore)%list_find_Some. apply component_name_normal in Hc as ->; [|done].
  assert (k ≤ length before)%nat as Hk.
  { destruct (decide (length before < k)%nat) as [Hlt|]; [|lia]. exfalso.
    apply (Hbefore (length before) (Normal name)); [|done|done].
    by rewrite Hdrop, lookup_app_r, Nat.sub_diag by lia. }
  exists (start + k)%nat, (drop (k + 1) (before ++ [Normal name])). split_and!; [done| |].
  - replace (start + k + 1)%nat with (start + (k + 1))%nat by lia. rewrite <- drop_drop, Hdrop.
    replace (before ++ Normal name :: rest) with ((before ++ [Normal name]) ++ rest) by (by rewrite <- app_assoc).
    rewrite drop_app_le by (rewrite length_app; cbn; lia). done.
  - intros Hfresh. destruct (decide (k = length before)) as [->|]; [done|]. exfalso. apply Hfresh.
    rewrite Hdrop, lookup_app_l in Hlook by lia. by eapply list_elem_of_lookup_2.
Qed.

Lemma output_base_sound path root : bazel_test_log_output_base path = Some root → InTestLogs path root.
Proof.
  unfold bazel_test_log_output_base. set (cs := components path).
  intros (execroot & Hexecroot & (bazel_out & Hout & (testlogs & Hlogs & Hroot)%bind_Some)%bind_Some)%bind_Some.
  case_bool_decide as Hextension; [|done]. injection Hroot as <-.
  apply position_from_split in Hexecroot as (base & Hexecroot & Hfresh & Hlength); [|unfold special_names; set_solver].
  apply position_from_split in Hout as (configuration & Hout & _); [|unfold special_names; set_solver].
  apply position_from_split in Hlogs as (package & Hlogs & _); [|unfold special_names; set_solver].
  assert (take execroot cs = base) as Hbase.
  { rewrite drop_0 in Hexecroot. rewrite Hexecroot, Hlength. apply take_app_length. }
  unfold InTestLogs. subst cs. rewrite components_path_of, Hbase. split_and!; [done| |done].
  eexists configuration, package, _. rewrite drop_0 in Hexecroot. rewrite Hexecroot at 1. rewrite Hout at 1. by rewrite Hlogs at 1.
Qed.

Lemma output_base_complete path root : InTestLogs path root →
  ∃ found, bazel_test_log_output_base path = Some found ∧ components found = components root.
Proof.
  intros (Hfresh & (configuration & package & rest & Hpath) & Hextension).
  unfold bazel_test_log_output_base.
  destruct (position_from_found 0 "execroot" (components path) _ _ ltac:(unfold special_names; set_solver) Hpath)
    as (execroot & skipped & -> & Hexecroot & Hlength). specialize (Hlength Hfresh).
  cbn [mbind option_bind].
  rewrite app_assoc in Hexecroot.
  destruct (position_from_found _ "bazel-out" _ _ _ ltac:(unfold special_names; set_solver) Hexecroot)
    as (bazel_out & skipped' & -> & Hout & _). cbn [mbind option_bind]. rewrite app_assoc in Hout.
  destruct (position_from_found _ "testlogs" _ _ _ ltac:(unfold special_names; set_solver) Hout) as (testlogs & ? & -> & _).
  cbn [mbind option_bind]. rewrite bool_decide_true by done. eexists. split; [done|].
  rewrite components_path_of, Hlength, Hpath. apply take_app_length.
Qed.

Section containment.
Context {IoError : Type} `{FS : FileSystem IoError} (windows : bool) (config : RunnerConfig).

(** Where the files lie that the runner opens for an artifact. *)
Definition Contained (workspace : string) (artifact : Artifact) (path canonical : string) : Prop :=
  components workspace `prefix_of` components canonical ∨
  (∃ configured root, output_user_root config = Some configured ∧ canonicalize configured = Ok root ∧
     components root `prefix_of` components canonical) ∨
  (artifact_kind artifact = TestLog ∧
   ∃ lexical root real, InTestLogs path lexical ∧ InTestLogs canonical root ∧
     bazel_test_log_output_base path = Some lexical ∧ canonicalize lexical = Ok real ∧ components real = components root).

(** C38: The runner opens a file for an artifact exactly when the artifact is local and
    names a path whose real path lies in the workspace, in the real output root
    of the configuration or, for a test log, below the very output base the path
    names, at the place Bazel keeps test logs; a link that leads out of these
    places, or from one output base into another, is never followed. *)
Theorem artifact_containment workspace artifact canonical :
  validated_artifact_path windows config workspace artifact = Some canonical ↔
  locally_available artifact = true ∧
  ∃ path, local_artifact_path windows artifact = Some path ∧ canonicalize path = Ok canonical ∧
    Contained workspace artifact path canonical.
Proof.
  unfold validated_artifact_path. split.
  - intros (path & Hpath & (real & Hreal & Hin)%bind_Some)%bind_Some.
    split; [unfold local_artifact_path in Hpath; by destruct (locally_available artifact)|].
    exists path. destruct (canonicalize path) as [c|] eqn:Hcanonical; [|done]. injection Hreal as ->.
    destruct (path_starts_with real workspace || _ || _) eqn:Hany; [|done]. injection Hin as ->.
    split_and!; [done|done|]. apply orb_true_iff in Hany as [[Hws | Hroot]%orb_true_iff | Hlogs].
    + left. by apply bool_decide_eq_true in Hws.
    + right. left. unfold in_output_root in Hroot. destruct (output_user_root config) as [configured|]; [|done].
      destruct (canonicalize configured) as [root|] eqn:Hcanon; [|done].
      exists configured, root. split_and!; [done|done|]. by apply bool_decide_eq_true in Hroot.
    + right. right. unfold in_bazel_testlogs in Hlogs. case_bool_decide as Hkind; [|done]. split; [done|].
      destruct (bazel_test_log_output_base path) as [lexical|] eqn:Hlexical; [|done].
      destruct (bazel_test_log_output_base canonical) as [root|] eqn:Hroot; [|done].
      destruct (canonicalize lexical) as [r|] eqn:Hr; [|done]. apply andb_true_iff in Hlogs as [Heq%bool_decide_eq_true _].
      exists lexical, root, r. split_and!; [by apply output_base_sound..|done|done|done].
  - intros (Hlocal & path & -> & Hcanonical & Hin). cbn [mbind option_bind]. rewrite Hcanonical. cbn [ok_option mbind option_bind].
    enough (path_starts_with canonical workspace || in_output_root config canonical
            || in_bazel_testlogs artifact path canonical = true) as -> by done.
    apply orb_true_iff. destruct Hin as [Hws | [(configured & root & Hconfig & Hroot & Hin) | (Hkind & Hlogs)]].
    + left. apply orb_true_iff. left. by apply bool_decide_eq_true.
    + left. apply orb_true_iff. right. unfold in_output_root. rewrite Hconfig, Hroot. by apply bool_decide_eq_true.
    + right. destruct Hlogs as (lexical & root & r & Hpath & Hreal & Hlexical & Hr & Heq).
      unfold in_bazel_testlogs. rewrite bool_decide_true, Hlexical by done.
      destruct (output_base_complete _ _ Hreal) as (found & -> & Hfound). rewrite Hr.
      apply andb_true_iff. split; apply bool_decide_eq_true; [congruence|].
      destruct Hreal as (_ & (? & ? & ? & ->) & _). rewrite Heq. by apply prefix_app_r.
Qed.
End containment.

(** ** Coverage reports *)

(** A reading of an LCOV report: the lines it counts, each with its file and
    whether it was hit. *)
Definition line_data (line : string) : option string :=
  match strip_prefix "SF:" line with Some _ => None | None => strip_prefix "DA:" line end.
Definition hit_data (data : string) : bool :=
  match parse_unsigned u64_max (second_field data) with Some hits => 0 <? hits | None => false end.
Fixpoint attributed (current : option string) (ls : list string) : list (string * bool) :=
  match ls with
  | [] => []
  | line :: rest =>
      match strip_prefix "SF:" line with
      | Some path => attributed (Some (bounded_path path)) rest
      | None =>
          match strip_prefix "DA:" line, current with
          | Some data, Some path => (path, hit_data data) :: attributed current rest
          | _, _ => attributed current rest
          end
      end
  end.

Definition count (path : string) (records : list (string * bool)) : Z :=
  Z.of_nat (length (filter (fun r => r.1 = path) records)).
Definition hit_records (records : list (string * bool)) : list (string * bool) :=
  filter (fun r => r.2 = true) records.

Definition ValidLine (line : string) : Prop :=
  ∀ data, line_data line = Some data →
    is_Some (parse_unsigned u64_max (first_field data)) ∧ is_Some (parse_unsigned u64_max (second_field data)).

Lemma count_cons path r records :
  count path (r :: records) = (if decide (r.1 = path) then 1 else 0) + count path records.
Proof. unfold count. rewrite filter_cons. case_decide; cbn [length]; lia. Qed.

Lemma hit_records_cons r records : hit_records (r :: records) = (if r.2 then [r] else []) ++ hit_records records.
Proof. unfold hit_records. rewrite filter_cons. destruct (r.2); case_decide; done. Qed.

Lemma count_app path a b : count path (a ++ b) = count path a + count path b.
Proof. unfold count. rewrite filter_app, length_app. lia. Qed.

Lemma count_bounds path records : 0 ≤ count path records ≤ Z.of_nat (length records).
Proof. unfold count. pose proof (length_filter (fun r => r.1 = path) records). lia. Qed.

Lemma hit_count_le path records : count path (hit_records records) ≤ count path records.
Proof.
  induction records as [|r records IH]; [done|]. rewrite hit_records_cons, count_app, count_cons.
  destruct (r.2); [rewrite count_cons|]; cbn [count filter list_filter length]; change (count path []) with 0; case_decide; lia.
Qed.

Lemma count_absent path records : path ∉ records.*1 → count path records = 0.
Proof.
  induction records as [|r records IH]; [done|]. rewrite fmap_cons, not_elem_of_cons, count_cons. intros [Hne Habsent].
  rewrite decide_False, IH by congruence. done.
Qed.

(** Every record is counted once, with its file. *)
Lemma count_total (keys : list string) records : NoDup keys → (∀ r, r ∈ records → r.1 ∈ keys) →
  foldr (fun path total => count path records + total) 0 keys = Z.of_nat (length records).
Proof.
  intros Hkeys. revert records. induction Hkeys as [|path keys Hpath Hkeys IH]; intros records Hin; cbn [foldr].
  { destruct records as [|r records]; [done|]. by destruct (not_elem_of_nil _ (Hin r (list_elem_of_here _ _))). }
  set (others := filter (fun r => r.1 ≠ path) records).
  transitivity (count path records + foldr (fun path total => count path others + total) 0 keys).
  - f_equal. assert (∀ l, (path ∉ l) → foldr (fun p t => count p records + t) 0 l = foldr (fun p t => count p others + t) 0 l) as Hsame; [|by apply Hsame].
    induction l as [|p l IHl]; [done|]. rewrite not_elem_of_cons. intros [Hne Hl]. cbn [foldr]. rewrite IHl by done. f_equal.
    unfold others. clear -Hne. induction records as [|r records IHr]; [done|]. rewrite filter_cons.
    case_decide; rewrite !count_cons; [lia|]. rewrite decide_False by congruence. lia.
  - rewrite IH.
    + unfold others. clear. induction records as [|r records IHr]; [done|]. rewrite filter_cons, count_cons.
      repeat case_decide; cbn [length]; (lia || congruence).
    + intros r [Hr Hrecords]%list_elem_of_filter. apply Hin in Hrecords. by apply elem_of_cons in Hrecords as [?|?].
Qed.

(** The totals of a list of counted lines. *)
Definition Tally (totals : LineTotals) (records : list (string * bool)) : Prop :=
  ∀ path, totals !! path =
    if decide (path ∈ records.*1) then Some (count path records, count path (hit_records records)) else None.

Lemma count_line_tally totals records path hits : Z.of_nat (length records) < u64_max → Tally totals records →
  Tally (count_line path hits totals) (records ++ [(path, 0 <? hits)]).
Proof.
  intros Hbound Htally key. unfold count_line.
  assert (default (0, 0) (totals !! path) = (count path records, count path (hit_records records))) as ->.
  { rewrite Htally. case_decide as Hin; [done|]. pose proof (hit_count_le path records). pose proof (count_bounds path (hit_records records)).
    rewrite (count_absent path records) in * by done. cbn. f_equal. lia. }
  assert (hit_records (records ++ [(path, 0 <? hits)]) = hit_records records ++ if 0 <? hits then [(path, true)] else []) as Hhit.
  { unfold hit_records. rewrite filter_app, filter_cons. cbn [snd]. destruct (0 <? hits); case_decide; done. }
  pose proof (count_bounds path records). pose proof (hit_count_le path records).
  rewrite Hhit, fmap_app, !count_app, count_cons. cbn [fst fmap list_fmap]. change (count key []) with 0.
  destruct (decide (key = path)) as [-> | Hkey].
  - rewrite lookup_insert_eq, !decide_True by set_solver. unfold u64_add.
    destruct (0 <? hits); [rewrite count_cons, decide_True by done|]; change (count path []) with 0; do 2 f_equal; lia.
  - rewrite lookup_insert_ne by done. rewrite Htally, (decide_False (P := path = key)) by congruence.
    destruct (0 <? hits); [rewrite count_cons; cbn [fst]; rewrite (decide_False (P := path = key)) by congruence|]; change (count key []) with 0;
      rewrite !Z.add_0_r; repeat case_decide; set_solver.
Qed.

Lemma parse_u64_Ok value n : parse_u64 value = Ok n ↔ parse_unsigned u64_max value = Some n.
Proof. apply ok_or_Ok. Qed.

(** The lines a loop that succeeds has read. *)
Lemma lcov_loop_valid current totals ls totals' : lcov_loop current totals ls = Ok totals' →
  ∃ read, ls = Some <$> read ∧ Forall ValidLine read.
Proof.
  revert current totals. induction ls as [|[line|] ls IH]; intros current totals; cbn [lcov_loop]; [by exists []| |done].
  intros Hloop. assert (∃ current totals, lcov_loop current totals ls = Ok totals' ∧ ValidLine line) as (current' & totals'' & Hrest & Hline).
  { unfold ValidLine, line_data. destruct (strip_prefix "SF:" line) as [path|]; [by eexists _, _; split; [exact Hloop|]|].
    destruct (strip_prefix "DA:" line) as [data|]; [|by eexists _, _; split; [exact Hloop|]].
    apply bind_Ok_inv in Hloop as (number & Hnumber%parse_u64_Ok & (hits & Hhits%parse_u64_Ok & Hloop)%bind_Ok_inv).
    eexists _, _. split; [exact Hloop|]. intros ? [= <-]. eauto. }
  destruct (IH _ _ Hrest) as (read & -> & Hread). exists (line :: read). split; [done|by constructor].
Qed.

Lemma lcov_loop_total current totals ls : Forall ValidLine ls → is_ok (lcov_loop current totals (Some <$> ls)) = true.
Proof.
  intros Hvalid. revert current totals. induction Hvalid as [|line ls Hline Hvalid IH]; intros current totals; [done|].
  cbn [fmap list_fmap lcov_loop]. unfold ValidLine, line_data in Hline.
  destruct (strip_prefix "SF:" line) as [path|]; [apply IH|].
  destruct (strip_prefix "DA:" line) as [data|]; [|apply IH].
  destruct (Hline data eq_refl) as [[number Hnumber] [hits Hhits]].
  unfold parse_u64. rewrite Hnumber, Hhits. apply IH.
Qed.

Lemma lcov_loop_tally current totals records ls : Z.of_nat (length records + length ls) ≤ u64_max →
  Tally totals records → Forall ValidLine ls →
  ∃ totals', lcov_loop current totals (Some <$> ls) = Ok totals' ∧ Tally totals' (records ++ attributed current ls).
Proof.
  revert current totals records. induction ls as [|line ls IH]; intros current totals records Hbound Htally Hvalid.
  { exists totals. by rewrite app_nil_r. }
  apply Forall_cons in Hvalid as [Hline Hvalid]. cbn [fmap list_fmap lcov_loop attributed]. cbn [length] in Hbound.
  unfold ValidLine, line_data in Hline. destruct (strip_prefix "SF:" line) as [path|]; [apply IH; (done || lia)|].
  destruct (strip_prefix "DA:" line) as [data|]; [|apply IH; (done || lia)].
  destruct (Hline data eq_refl) as [[number Hnumber] [hits Hhits]].
  unfold parse_u64. rewrite Hnumber, Hhits. cbn [ok_or mbind result_bind].
  destruct current as [path|]; [|apply IH; (done || lia)].
  unfold hit_data. rewrite Hhits.
  replace (records ++ (path, 0 <? hits) :: attributed (Some path) ls)
    with ((records ++ [(path, 0 <? hits)]) ++ attributed (Some path) ls) by (by rewrite <- app_assoc).
  apply IH; [rewrite length_app; cbn; lia| |done]. apply count_line_tally; [lia|done].
Qed.

Lemma attributed_length current ls : (length (attributed current ls) ≤ length ls)%nat.
Proof.
  revert current. induction ls as [|line ls IH]; intros current; cbn [attributed length]; [lia|].
  destruct (strip_prefix "SF:" line) as [path|]; [specialize (IH (Some (bounded_path path))); lia|].
  destruct (strip_prefix "DA:" line), current as [path|];
    cbn [length]; [specialize (IH (Some path))|specialize (IH None)|specialize (IH (Some path))|specialize (IH None)]; lia.
Qed.

Lemma foldl_u64_add {A} (f : A → Z) total l : 0 ≤ total → Forall (fun x => 0 ≤ f x) l →
  total + foldr (fun x t => f x + t) 0 l ≤ u64_max →
  foldl (fun t x => u64_add t (f x)) total l = total + foldr (fun x t => f x + t) 0 l.
Proof.
  intros Htotal Hall. revert total Htotal. induction Hall as [|x l Hx Hall IH]; intros total Htotal Hbound; cbn [foldl foldr] in *; [lia|].
  assert (0 ≤ foldr (fun x t => f x + t) 0 l) by (clear -Hall; induction Hall; cbn; lia).
  rewrite u64_add_exact by lia. rewrite IH by lia. lia.
Qed.

Lemma tally_sum totals records (f : Z * Z → Z) (counted : list (string * bool)) :
  Tally totals records → (∀ r, r ∈ counted → r.1 ∈ records.*1) →
  (∀ path, f (count path records, count path (hit_records records)) = count path counted) →
  foldr (fun item t => f item.2 + t) 0 (btree_items totals) = Z.of_nat (length counted) ∧
  Forall (fun item : string * (Z * Z) => 0 ≤ f item.2) (btree_items totals).
Proof.
  intros Htally Hcounted Hf.
  assert (∀ item, item ∈ btree_items totals → f item.2 = count item.1 counted) as Hitems.
  { intros [path value] Hitem. apply btree_items_elem in Hitem. rewrite Htally in Hitem.
    case_decide; [|done]. injection Hitem as <-. apply Hf. }
  split; [|by apply Forall_forall; intros item Hitem; rewrite Hitems by done; apply count_bounds].
  rewrite <- (count_total (map fst (btree_items totals)) counted).
  - assert (∀ l, (∀ item, item ∈ l → f item.2 = count item.1 counted) →
      foldr (fun item t => f item.2 + t) 0 l = foldr (fun path t => count path counted + t) 0 (map fst l)) as Hfold; [|by apply Hfold].
    induction l as [|item l IH]; intros Hl; [done|]. cbn [foldr map]. rewrite Hl, IH by set_solver. done.
  - apply btree_items_keys.
  - intros r Hr. apply list_elem_of_In, in_map_iff. pose proof (Htally r.1) as Hr1. rewrite decide_True in Hr1 by auto.
    eexists (r.1, _). split; [done|]. apply list_elem_of_In, btree_items_elem. done.
Qed.

Lemma coverage_files_sorted totals : StronglySorted str_lt (coverage_path <$> files (coverage_of totals)).
Proof.
  cbn [coverage_of files]. rewrite <- list_fmap_compose.
  apply (sort_by_label_strict fst (map_to_list totals)), NoDup_fst_map_to_list.
Qed.

Lemma coverage_files_elem totals records file : Tally totals records →
  file ∈ files (coverage_of totals) ↔ (coverage_path file ∈ records.*1) ∧
    file_lines_found file = count (coverage_path file) records ∧
    file_lines_hit file = count (coverage_path file) (hit_records records) ∧
    file_percent file = percent (file_lines_hit file) (file_lines_found file).
Proof.
  intros Htally. cbn [coverage_of files]. rewrite list_elem_of_fmap. split.
  - intros ([path [found hit]] & -> & Hitem). apply btree_items_elem in Hitem. rewrite Htally in Hitem. cbn.
    case_decide; [|done]. by injection Hitem as <- <-.
  - destruct file as [path found hit p]. cbn. intros (Hin & -> & -> & ->).
    eexists (path, (_, _)). split; [done|]. apply btree_items_elem. by rewrite Htally, decide_True.
Qed.

(** A coverage report is accepted exactly when every line of it can be read as
    text and every line record has two integers; the totals are then the counts
    of its line records: each belongs to the file named last before it (records
    before any file count for none), files are listed once in their order, and
    no file has more lines hit than found. *)
Theorem coverage_report_spec f :
  (is_ok (parse_lcov_reader f) = true ↔ ∃ ls, buf_lines f = Some <$> ls ∧ Forall ValidLine ls) ∧
  ∀ coverage ls, parse_lcov_reader f = Ok coverage → buf_lines f = Some <$> ls → Z.of_nat (length ls) ≤ u64_max →
  let records := attributed None ls in
  lines_found coverage = Z.of_nat (length records) ∧
  lines_hit coverage = Z.of_nat (length (hit_records records)) ∧
  coverage_percent coverage = percent (lines_hit coverage) (lines_found coverage) ∧
  StronglySorted str_lt (coverage_path <$> files coverage) ∧
  (∀ file, file ∈ files coverage ↔ (coverage_path file ∈ records.*1) ∧
     file_lines_found file = count (coverage_path file) records ∧
     file_lines_hit file = count (coverage_path file) (hit_records records) ∧
     file_percent file = percent (file_lines_hit file) (file_lines_found file)) ∧
  (∀ file, file ∈ files coverage → file_lines_hit file ≤ file_lines_found file).
Proof.
  split.
  - unfold parse_lcov_reader. split.
    + destruct (lcov_loop None ∅ (buf_lines f)) as [totals|] eqn:Hloop; [|done]. intros _. by eapply lcov_loop_valid.
    + intros (ls & -> & Hvalid). pose proof (lcov_loop_total None ∅ ls Hvalid) as Hok.
      by destruct (lcov_loop None ∅ (Some <$> ls)).
  - intros coverage ls Hparse Hlines Hbound records. unfold parse_lcov_reader in Hparse.
    apply bind_Ok_inv in Hparse as (totals & Hloop & [= <-]). rewrite Hlines in Hloop.
    destruct (lcov_loop_valid _ _ _ _ Hloop) as (read & Hread & Hvalid). apply (inj (fmap Some)) in Hread as <-.
    destruct (lcov_loop_tally None ∅ [] ls) as (totals' & Hloop' & Htally); [cbn; lia| |done|].
    { intros path. by rewrite decide_False by apply not_elem_of_nil. }
    rewrite Hloop in Hloop'. injection Hloop' as <-. cbn [app] in Htally. fold records in Htally.
    assert (Z.of_nat (length records) ≤ u64_max) as Hrecords by (pose proof (attributed_length None ls); unfold records; lia).
    destruct (tally_sum totals records fst records Htally) as [Hfound Hnonneg]; [set_solver|done|].
    destruct (tally_sum totals records snd (hit_records records) Htally) as [Hhit Hnonneg']; [|done|].
    { intros r [_ Hr]%list_elem_of_filter. by apply list_elem_of_fmap_2. }
    assert (length (hit_records records) ≤ length records)%nat by apply length_filter.
    unfold coverage_of. cbn [lines_found lines_hit coverage_percent files].
    rewrite (foldl_u64_add (fun item => item.2.1)), Hfound by (done || lia).
    rewrite (foldl_u64_add (fun item => item.2.2)), Hhit by (done || lia).
    split_and!; [lia|lia|done| | |].
    + apply coverage_files_sorted.
    + intros file. by apply coverage_files_elem.
    + intros file. rewrite (coverage_files_elem totals records) by done. intros (_ & -> & -> & _). apply hit_count_le.
Qed.

Module ArtifactExamples.
Definition report : FileRead :=
  MkRead (bytes_of "TN:
DA:9,9
SF:b.rs
DA:1,4
DA:2,0
end_of_record
SF:a.rs
DA:7,1,checksum
") false.
Definition report_lines : list string :=
  ["TN:"; "DA:9,9"; "SF:b.rs"; "DA:1,4"; "DA:2,0"; "end_of_record"; "SF:a.rs"; "DA:7,1,checksum"].

(** 66.66...% and 50%, as binary64. *)
Example report_coverage :
  parse_lcov_reader report =
    Ok (MkCoverage 3 2 0x4050AAAAAAAAAAAB [MkCoverageFile "a.rs" 1 1 0x4059000000000000;
                                           MkCoverageFile "b.rs" 2 1 0x4049000000000000]) ∧
  parse_lcov_reader (MkRead (bytes_of "SF:a.rs
DA:7") false) = Err (InvalidInteger "") ∧
  parse_lcov_reader (MkRead [0xFF] false) = Err CoverageIo ∧
  parse_lcov_reader (MkRead (bytes_of "DA:1,1") true) = Err CoverageIo.
Proof. vm_compute. done. Qed.

Lemma coverage_report_spec_witness :
  match parse_lcov_reader report with
  | Ok coverage => lines_found coverage = 3 ∧ ∀ file, file ∈ files coverage → file_lines_hit file ≤ file_lines_found file
  | Err _ => False
  end.
Proof.
  destruct (coverage_report_spec report) as [_ Hspec]. destruct (parse_lcov_reader report) as [coverage|] eqn:Hparse.
  - destruct (Hspec coverage report_lines eq_refl) as (-> & _ & _ & _ & _ & Hhit);
      [vm_compute; reflexivity|vm_compute; done|]. split; [vm_compute; reflexivity|exact Hhit].
  - vm_compute in Hparse. discriminate.
Defined.

Definition default_config : RunnerConfig := default_runner_config "/locks".
Definition log_path : string := "/out/execroot/w/bazel-out/k8/testlogs/a/b/test.log".
Definition test_log (path : string) : Artifact := MkArtifact "test.log" TestLog ("file://" +:+ path) None true.

(** A machine where one test log is a link out of its output base. *)
#[local] Instance machine : FileSystem unit := {|
  canonicalize path := if bool_decide (path = "/out/execroot/w/bazel-out/k8/testlogs/a/evil/test.log")
                       then Ok "/etc/execroot/bazel-out/testlogs/test.log" else Ok path;
  symlink_metadata _ := Ok tt;
  metadata _ := Some (true, 0);
  is_not_found _ := true;
  other_error _ := tt;
|}.

Example contained_log :
  validated_artifact_path false default_config "/w" (test_log log_path) = Some log_path ∧
  validated_artifact_path false default_config "/w" (test_log "/out/execroot/w/bazel-out/k8/testlogs/a/evil/test.log") = None ∧
  validated_artifact_path false default_config "/w" (MkArtifact "app" File ("file://" +:+ log_path) None true) = None.
Proof. vm_compute. done. Qed.

Lemma artifact_containment_witness : Contained default_config "/w" (test_log log_path) log_path log_path.
Proof.
  destruct (artifact_containment false default_config "/w" (test_log log_path) log_path) as [Hsound _].
  destruct Hsound as (_ & path & Hpath & _ & Hin); [vm_compute; reflexivity|].
  injection Hpath as <-. exact Hin.
Defined.
End ArtifactExamples.
