(* ===== verification/Outcome.v ===== *)
(** * Terminal summaries (the reduction phase of
    crates/bazel-mcp-runner/src/execution.rs)

    What the runner makes of the captured evidence: the outcome of a [run], the
    headline, the input of the custom reducers and their notices, the inspection
    hint and, last, the sanitising of [Sanitize.v].  The normalisation of
    terminal text is an interface (a library the sources call). *)

From stdpp Require Import pretty.
From S2P Require Import Prelude Collections Types Redaction Store QueryPaging Diagnostics Extension Reduction Text Runner Sanitize.
#[global] Open Scope Z_scope.

(** [logcompact_builtins::normalize_terminal_text]. *)
Class TerminalText : Type := { normalize_terminal_text : list Z → string }.

(** ** Small summaries *)

Definition default_summary : InvocationSummary :=
  MkSummary false "" [] (MkTargetCounts 0 0 0) [] [] (MkTestCounts 0 0 0 0 0) None [] None 0 false None.

Definition set_headline (h : string) (s : InvocationSummary) : InvocationSummary :=
  set_diagnostics (diagnostics s) h (truncated s) (inspect_hint s) s.
Definition set_hint (hint : option InspectHint) (s : InvocationSummary) : InvocationSummary :=
  set_diagnostics (diagnostics s) (headline s) (truncated s) hint s.

Definition cancelled_summary : InvocationSummary :=
  set_headline "Bazel invocation was cancelled before starting" default_summary.

(** [format!("{exit_code:?}")] of an [Option<i32>]. *)
Definition debug_exit_code (exit_code : option Z) : string :=
  match exit_code with Some code => "Some(" +:+ pretty code +:+ ")" | None => "None" end.

Section outcome.
Context `{Redactor : BoundedRedactor} `{Terminal : TerminalText} (windows : bool).

(** [fallback_summary], used when the streaming reducer panics. *)
Definition fallback_summary (exit_code : option Z) (elapsed_ms : Z) (stderr stdout : list Z) : InvocationSummary :=
  let success := bool_decide (exit_code = Some 0) in
  let text := if bool_decide (stderr = []) then stdout else stderr in
  let message :=
    (fun line => bounded_text line 1000) <$>
      find (fun line => negb (blank line)) (reverse (lines (normalize_terminal_text text))) in
  let diagnostics := if success then []
    else option_list ((fun message => MkDiagnostic SevError CatUnknown message None None None 1) <$> message) in
  MkSummary success
    (if success then "Bazel completed successfully in " +:+ pretty elapsed_ms +:+ " ms"
     else match message with
          | Some message => "Bazel failed: " +:+ message
          | None => "Bazel failed with exit code " +:+ debug_exit_code exit_code
          end)
    [] (MkTargetCounts 0 0 0) diagnostics [] (MkTestCounts 0 0 0 0 0) None [] None elapsed_ms true (Some HintLog).

(** ** The outcome of a run *)

Definition run_outcome (termination : Termination) (launched : bool) (build_success : option bool)
    (exit_code : option Z) : RunOutcome :=
  match termination with
  | OutputLimit _ => if launched then OutputLimitDuringProgram else OutputLimitDuringBuild
  | TerminationCancelled => if launched then CancelledDuringProgram else CancelledDuringBuild
  | Timeout => if launched then TimedOutDuringProgram else TimedOutDuringBuild
  | _ =>
      if bool_decide (build_success = Some false) then BuildFailed
      else if negb launched then NotLaunched
      else if bool_decide (exit_code = Some 0) then RunSucceeded
      else ProgramFailed
  end.

Definition run_output_excerpt (workspace : string) (stdout stderr : list Z) : list string :=
  let normalized_stdout := normalize_terminal_text stdout in
  let text := if blank normalized_stdout then normalize_terminal_text stderr else normalized_stdout in
  reverse ((fun line => sanitize workspace line 512) <$>
    take 8 (reverse (filter (fun line => blank line = false) (lines text)))).

Definition build_run_summary (q : InvocationRequest) (exit_code : option Z) (termination : Termination)
    (bep : RunBepOutcome) (stdout stderr : list Z) : option RunSummary :=
  if decide (command q = Run) then
    let launched := bool_decide (exec_request_should_execute bep = Some true) in
    Some (MkRunSummary (redact_str (default "<missing target>" (target q)) 1000)
            (run_outcome termination launched (build_success bep) exit_code)
            (if launched then exit_code else None)
            (if launched then run_output_excerpt (workspace q) stdout stderr else []))
  else None.

(** The headline of a run. *)
Definition run_headline (r : RunSummary) (headline : string) : string :=
  match outcome r with
  | BuildFailed => headline
  | NotLaunched => run_target r +:+ " was built but not launched"
  | RunSucceeded => run_target r +:+ " exited successfully"
  | ProgramFailed =>
      match program_exit_code r with
      | None => run_target r +:+ " terminated without an exit code"
      | Some code => run_target r +:+ " exited with code " +:+ pretty code
      end
  | CancelledDuringBuild => run_target r +:+ " was cancelled while building"
  | CancelledDuringProgram => run_target r +:+ " was cancelled while running"
  | TimedOutDuringBuild => run_target r +:+ " timed out while building"
  | TimedOutDuringProgram => run_target r +:+ " timed out while running"
  | OutputLimitDuringBuild => run_target r +:+ " exceeded the output limit while building"
  | OutputLimitDuringProgram => run_target r +:+ " exceeded the output limit while running"
  end.

(** The arguments a record keeps. *)
Definition recorded_arguments (q : InvocationRequest) (canonical : option (list string)) : option (list string) :=
  map (fun argument => sanitize (workspace q) argument (64 * 1024)) <$>
    (if decide (command q = Run) then
       Some (startup_arguments q ++ ["run"] ++ arguments q ++ option_list (target q) ++
             (if decide (program_arguments q = []) then []
              else ["[REDACTED_PROGRAM_ARGS:" +:+ pretty (Z.of_nat (length (program_arguments q))) +:+ "]"]))
     else canonical).

Definition redact_artifact (a : Artifact) : Artifact :=
  MkArtifact (redact_str (artifact_name a) 1000) (artifact_kind a) (redact_str (uri a) 1000) (size_bytes a)
    (locally_available a).

(** ** Custom reducers *)

Definition custom_reducer_notice (message : string) : Diagnostic :=
  MkDiagnostic SevNote CatBazel message None None None 1.

Definition notice_bytes (notices : list Diagnostic) : Z := message_bytes notices.

(** [finalize_with_custom_notices]. *)
Definition finalize_with_custom_notices (s : InvocationSummary) (notices : list Diagnostic) : InvocationSummary :=
  match notices with
  | [] => finalize_diagnostics s result_default
  | _ =>
      let notice_summary := finalize_diagnostics
        (MkSummary true "" [] (MkTargetCounts 0 0 0) notices [] (MkTestCounts 0 0 0 0 0) None [] None 0 false None)
        (MkBudget 1024 4) in
      let notices := diagnostics notice_summary in
      let s := finalize_diagnostics s
        (MkBudget (u64_sub (max_bytes result_default) (notice_bytes notices))
           (u64_sub (max_items result_default) (Z.of_nat (length notices)))) in
      let truncated' := truncated notice_summary || truncated s in
      set_diagnostics (diagnostics s ++ notices) (headline s) truncated'
        (if truncated notice_summary then Some HintDiagnostics else inspect_hint s) s
  end.

Definition REDUCER_API_VERSION : Z := 1.
Definition MAX_ARGUMENTS : nat := 1024.

(** What each stream may contribute to the reducer input. *)
Definition stream_limits (maximum_input : Z) (stdout stderr : string) : Z * Z :=
  match bool_decide (stdout = ""), bool_decide (stderr = "") with
  | false, true => (maximum_input, 0)
  | true, false => (0, maximum_input)
  | _, _ => (maximum_input / 2, u64_sub maximum_input (maximum_input / 2))
  end.

Definition sanitize_event (workspace : string) (e : ReducerEvent) : ReducerEvent :=
  MkReducerEvent (event_ordinal e) (event_kind e)
    ((fun value => sanitize workspace value (4 * 1024)) <$> event_label e)
    ((fun value => sanitize workspace value (4 * 1024)) <$> event_target_kind e)
    ((fun value => sanitize workspace value (4 * 1024)) <$> event_action_type e)
    (event_success e) (event_exit_code e)
    ((fun value => sanitize workspace value (64 * 1024)) <$> event_message e).

(** [reducer_context]. *)
Definition reducer_context (l : StarlarkLimits) (q : InvocationRequest) (exit_code : option Z) (elapsed_ms : Z)
    (stdout stderr : list Z) (events : list ReducerEvent) (truncated_input : bool) (s : InvocationSummary)
    : ReducerContext :=
  let maximum_input := max_input_bytes l in
  let stdout := normalize_terminal_text stdout in
  let stderr := normalize_terminal_text stderr in
  let '(stdout_limit, stderr_limit) := stream_limits maximum_input stdout stderr in
  let raw_arguments := startup_arguments q ++ arguments q in
  MkContext REDUCER_API_VERSION (command_as_str (command q))
    ((fun value => sanitize (workspace q) value (4 * 1024)) <$> take MAX_ARGUMENTS raw_arguments)
    exit_code elapsed_ms
    (sanitize (workspace q) stdout stdout_limit) (sanitize (workspace q) stderr stderr_limit)
    (sanitize_event (workspace q) <$> events)
    (truncated_input || (stdout_limit <? str_len stdout) || (stderr_limit <? str_len stderr)
     || (MAX_ARGUMENTS <? length raw_arguments)%nat)
    (sanitize_summary windows (workspace q)
       (finalize_diagnostics s (MkBudget (maximum_input / 4) (max_output_items l)))).

(** ** Test counts of the console *)

(** The line of [bazel_passed_test_targets]. *)
Definition passed_line (line : string) : option Z :=
  let line := default (trim line) (strip_prefix "INFO: " (trim line)) in
  rest ← strip_prefix "Executed " line;
  '(executed, rest) ← split_once_str " out of " rest;
  executed ← parse_usize executed;
  '(total, rest) ← split_once_str " test" rest;
  total ← parse_usize total;
  rest ← option_else (strip_prefix ": " rest) (strip_prefix "s: " rest);
  '(passed, rest) ← split_once_str " test" rest;
  passed ← parse_usize passed;
  if (0 <? total) && (executed <=? total) && (passed =? total)
     && (bool_decide (rest = " passes.") || bool_decide (rest = "s pass."))
  then Some total else None.

Definition bazel_passed_test_targets (output : list Z) : option Z :=
  find_map passed_line (reverse (lines (string_of_bytes (from_utf8_lossy output)))).

(** ** Headlines *)

(** The result of a successful query or informational command. *)
Definition command_result (c : CommandClass) (exit_code : option Z) (stdout stderr : list Z) (query_row_count : Z)
    (sample : list QueryRow) (s : InvocationSummary) : InvocationSummary :=
  if bool_decide (c = QueryClass) && bool_decide (exit_code = Some 0) then
    MkSummary (success s) ("Bazel query returned " +:+ pretty query_row_count +:+ " rows") (targets s)
      (target_counts s) (diagnostics s) (tests s) (test_counts s) (coverage s) sample (Some query_row_count)
      (elapsed_ms s) (truncated s) (if 0 <? query_row_count then Some HintQueryResults else None)
  else if (bool_decide (c = Informational) || bool_decide (c = Unknown)) && bool_decide (exit_code = Some 0) then
    let excerpt := normalize_terminal_text (if bool_decide (stdout = []) then stderr else stdout) in
    if bool_decide (excerpt = "") then s
    else if 1000 <? str_len excerpt
    then set_diagnostics (diagnostics s) (bounded_text excerpt 1000) true (Some HintLog) s
    else set_headline (bounded_text excerpt 1000) s
  else s.

(** The headline of an Aspect task. *)
Definition aspect_headline (command : BazelCommand) (c : CommandClass) (exit_code : option Z) (wall_ms : Z)
    (s : InvocationSummary) : string :=
  let name := "Aspect " +:+ command_as_str command in
  match success s, diagnostics s with
  | false, first :: _ => name +:+ " failed: " +:+ message first
  | true, _ => if decide (c = BuildLike) then name +:+ " completed successfully in " +:+ pretty wall_ms +:+ " ms"
               else headline s
  | false, [] =>
      if bool_decide (headline s = "") || starts_with (headline s) "Bazel "
      then name +:+ " failed with exit code " +:+ debug_exit_code exit_code
      else headline s
  end.

(** What a successful test command reports of its tests. *)
Definition test_headline (command : BazelCommand) (o : RunBepOutcome) (terminal_error : bool) (stdout stderr : list Z)
    (s : InvocationSummary) : InvocationSummary :=
  let name := "Bazel " +:+ command_as_str command in
  if 0 <? recovered_test_targets o then
    set_headline (name +:+ " succeeded: " +:+ pretty (Z.of_nat (length (tests s))) +:+ " test target"
      +:+ (if bool_decide (length (tests s) = 1%nat) then "" else "s") +:+ " reported ("
      +:+ pretty (recovered_test_targets o) +:+ " recovered from BEP test attempts)") s
  else match tests s with
  | _ :: _ => s
  | [] =>
      match option_else (bazel_passed_test_targets stdout) (bazel_passed_test_targets stderr) with
      | Some passed =>
          let c := test_counts s in
          MkSummary (success s)
            (name +:+ " succeeded: " +:+ pretty passed
             +:+ " test targets passed (from Bazel console summary; BEP test results unavailable)")
            (targets s) (target_counts s) (diagnostics s) (tests s)
            (MkTestCounts passed (tests_failed c) (flaky c) (skipped c) (incomplete c)) (coverage s)
            (query_sample s) (query_result_count s) (elapsed_ms s) (truncated s) (inspect_hint s)
      | None =>
          set_headline
            (if bool_decide (build_success o = Some true) && negb terminal_error && negb (test_result_seen o)
                && negb (truncated s)
             then name +:+ " succeeded: no test targets were found"
             else name +:+ " succeeded, but test counts are unavailable because BEP results are incomplete") s
      end
  end.

Definition failure_hint (s : InvocationSummary) : InvocationSummary :=
  if negb (success s) && bool_decide (inspect_hint s = None) then
    set_hint (Some (if existsb (fun t => negb (bool_decide (test_status t = TestPassed)) && test_log_available t) (tests s)
                    then HintTestLog else HintLog)) s
  else s.
End outcome.

(** ** The whole reduction *)

(** [CapturedEvidence], with what the clock and the file sizes say; [panicked]
    tells whether the streaming reducer panicked. *)
Record CapturedEvidence : Type := MkCaptured {
  cap_request : InvocationRequest;
  cap_driver : ExecutionDriver;
  cap_exit_code : option Z;
  cap_termination : Termination;
  cap_state : InvocationState;
  cap_bep : BepAccumulator;
  cap_panicked : bool;
  cap_terminal_error : bool;
  cap_event_count : Z;
  cap_stdout : list Z;
  cap_stderr : list Z;
  cap_query_row_count : Z;
  cap_query_sample : list QueryRow;
  cap_stdout_size : Z;
  cap_stderr_size : Z;
  cap_bep_size : Z;
  cap_queue_ms : Z;
  cap_lock_wait_ms : Z;
  cap_wall_ms : Z;
  cap_reduction_ms : Z;
}.

Section reduce.
Context `{Redactor : BoundedRedactor} `{Terminal : TerminalText} `{Text : TextDiagnostics} (windows : bool).
(** The acquisition of failed-test evidence and of the coverage report. *)
Context (enrich_tests : list Artifact → InvocationSummary → InvocationSummary).
Context (load_coverage : list Artifact → option CoverageSummary).

Definition unlimited : Budget := MkBudget usize_max usize_max.

(** The output of the streaming reducer, or the fallback. *)
Definition streaming_output (c : CapturedEvidence) : StreamReductionOutput :=
  if cap_panicked c
  then MkOutput (fallback_summary (cap_exit_code c) (cap_wall_ms c) (cap_stderr c) (cap_stdout c)) [] None [] false
         default_run_bep
  else finish (cap_bep c) (cap_stdout c) (cap_stderr c) (cap_exit_code c) (cap_wall_ms c) unlimited.

Definition set_coverage (coverage : option CoverageSummary) (s : InvocationSummary) : InvocationSummary :=
  MkSummary (success s) (headline s) (targets s) (target_counts s) (diagnostics s) (tests s) (test_counts s)
    coverage (query_sample s) (query_result_count s) (elapsed_ms s) (truncated s) (inspect_hint s).

(** The custom reducers: the summary, the headline one of them set, and the
    notices of failures and collisions. *)
Definition apply_reducers (reducers : ReducerPipeline) (l : StarlarkLimits) (c : CapturedEvidence)
    (out : StreamReductionOutput) (s : InvocationSummary)
    : InvocationSummary * option string * list Diagnostic :=
  if decide (length reducers = 0%nat) then (s, None, [])
  else
    let context := reducer_context windows l (cap_request c) (cap_exit_code c) (cap_wall_ms c) (cap_stdout c)
      (cap_stderr c) (out_reducer_events out) (reducer_input_truncated out) s in
    let '(s, report) := Extension.apply reducers context s in
    (s, if headline_applied report then Some (headline s) else None,
     ((fun failure => custom_reducer_notice ("Custom reducer "
         +:+ debug_str (redact_str (failure_name failure) 128)
         +:+ " failed; native reducer output was retained")) <$> failures report)
     ++ ((fun collision => custom_reducer_notice (redact_str collision 512)) <$> override_collisions report)).

(** The last headline. *)
Definition final_headline (c : CapturedEvidence) (out : StreamReductionOutput) (custom : option string)
    (s : InvocationSummary) : InvocationSummary :=
  let q := cap_request c in
  let class := command_class (cap_driver c) (command q) in
  match custom with
  | Some headline => set_headline headline s
  | None =>
      let s := if is_aspect (cap_driver c)
               then set_headline (aspect_headline (command q) class (cap_exit_code c) (cap_wall_ms c) s) s else s in
      if success s && is_test_command (command q)
      then test_headline (command q) (out_run_bep out) (cap_terminal_error c) (cap_stdout c) (cap_stderr c) s
      else s
  end.

(** [reduce_evidence]: the completion to commit. *)
Definition reduce_evidence (reducers : ReducerPipeline) (l : StarlarkLimits) (c : CapturedEvidence)
    : InvocationCompletion :=
  let q := cap_request c in
  let class := command_class (cap_driver c) (command q) in
  let out := streaming_output c in
  let artifacts := redact_artifact <$> out_artifacts out in
  let s := command_result class (cap_exit_code c) (cap_stdout c) (cap_stderr c) (cap_query_row_count c)
             (cap_query_sample c) (out_summary out) in
  let run := build_run_summary q (cap_exit_code c) (cap_termination c) (out_run_bep out) (cap_stdout c)
               (cap_stderr c) in
  let s := match run with Some run => set_headline (run_headline run (headline s)) s | None => s end in
  let s := enrich_tests artifacts s in
  let s := if decide (command q = Coverage) then set_coverage (load_coverage artifacts) s else s in
  let '(s, custom, notices) := apply_reducers reducers l c out s in
  let s := finalize_with_custom_notices s notices in
  let s := failure_hint (final_headline c out custom s) in
  MkCompletion (cap_state c) (cap_termination c) (sanitize_summary windows (workspace q) s) run
    (MkMetrics (u64_add (cap_stdout_size c) (cap_stderr_size c)) (cap_bep_size c) (cap_event_count c) 0 0 0
       (cap_queue_ms c) (cap_lock_wait_ms c) (cap_wall_ms c) (cap_reduction_ms c))
    (recorded_arguments q (out_canonical_arguments out)) artifacts.
End reduce.

(** * Theorems *)

(** ** Notices *)

Lemma finalize_within s budget : 0 ≤ max_items budget → 0 ≤ max_bytes budget < u64_max →
  Z.of_nat (length (diagnostics (finalize_diagnostics s budget))) ≤ max_items budget ∧
  message_bytes (diagnostics (finalize_diagnostics s budget)) ≤ max_bytes budget.
Proof. intros Hitems Hbytes. destruct (finalize_shown s budget Hitems Hbytes) as (_ & Hlen & Hfit & _). done. Qed.

Lemma message_bytes_app a b : message_bytes (a ++ b) = message_bytes a + message_bytes b.
Proof. unfold message_bytes. induction a as [|d a IH]; simpl; [done|]. rewrite IH. lia. Qed.

Lemma finalize_truncated s budget :
  truncated (finalize_diagnostics s budget) = true → inspect_hint (finalize_diagnostics s budget) = Some HintDiagnostics.
Proof. unfold finalize_diagnostics. destruct (retain_within _ _ _). cbn. by intros ->. Qed.

(** The notices of custom reducers take their share of the result budget, so the
    result stays within it; whenever something was left out the summary says so. *)
Lemma finalize_with_custom_notices_bounds s notices :
  let out := finalize_with_custom_notices s notices in
  Z.of_nat (length (diagnostics out)) ≤ max_items result_default ∧
  message_bytes (diagnostics out) ≤ max_bytes result_default ∧
  (truncated out = true → inspect_hint out = Some HintDiagnostics) ∧
  (truncated out = false → ∀ d, d ∈ diagnostics s ++ notices →
     diagnostic_key d ∈ map diagnostic_key (diagnostics out)).
Proof.
  assert (Hkeys : ∀ s budget, 0 ≤ max_items budget → 0 ≤ max_bytes budget < u64_max →
    truncated (finalize_diagnostics s budget) = false → ∀ d, d ∈ diagnostics s →
    diagnostic_key d ∈ map diagnostic_key (diagnostics (finalize_diagnostics s budget))).
  { intros s' budget Hitems Hbytes Htr d Hd. destruct (finalize_shown s' budget Hitems Hbytes) as (_ & _ & _ & Hall).
    rewrite Hall by done. rewrite (proj2 (sort_by_priority_spec _)), deduplicate_merge_all. apply merge_all_keys.
    split; [|set_solver]. apply list_elem_of_fmap. by exists d. }
  unfold finalize_with_custom_notices. destruct notices as [|n notices].
  - destruct (finalize_within s result_default) as [Hitems Hbytes]; [done|done|]. split_and!; [done|done| |].
    + apply finalize_truncated.
    + intros Htr d. rewrite app_nil_r. by apply Hkeys.
  - set (all := n :: notices). set (ns := MkSummary _ _ _ _ all _ _ _ _ _ _ _ _).
    set (notice_summary := finalize_diagnostics ns (MkBudget 1024 4)).
    destruct (finalize_within ns (MkBudget 1024 4)) as [Hnitems Hnbytes]; [done|done|].
    cbn [max_items max_bytes] in Hnitems, Hnbytes. fold notice_summary in Hnitems, Hnbytes.
    set (budget := MkBudget _ _).
    assert (max_bytes budget = 4096 - message_bytes (diagnostics notice_summary)) as Hb.
    { cbn. unfold notice_bytes, u64_sub. pose proof (message_bytes_nonneg (diagnostics notice_summary)). lia. }
    assert (max_items budget = 20 - Z.of_nat (length (diagnostics notice_summary))) as Hi by (cbn; unfold u64_sub; lia).
    pose proof (message_bytes_nonneg (diagnostics notice_summary)).
    destruct (finalize_within s budget) as [Hsitems Hsbytes]; [lia|unfold u64_max; lia|].
    rewrite Hi in Hsitems. rewrite Hb in Hsbytes.
    cbn [diagnostics truncated inspect_hint set_diagnostics max_items max_bytes result_default].
    rewrite length_app, message_bytes_app. split_and!; [lia|lia| |].
    + destruct (truncated notice_summary); [done|]. simpl. apply finalize_truncated.
    + intros [Hn Hs]%orb_false_iff d. rewrite fmap_app, !elem_of_app. intros [Hd | Hd].
      * left. apply Hkeys; [lia|unfold u64_max; lia|done|done].
      * right. by apply (Hkeys ns).
Qed.

(** ** Runs *)

(** The runner stopped the process. *)
Definition stopped (termination : Termination) : bool :=
  match termination with OutputLimit _ | TerminationCancelled | Timeout => true | _ => false end.
Definition during_program (o : RunOutcome) : bool :=
  match o with OutputLimitDuringProgram | CancelledDuringProgram | TimedOutDuringProgram => true | _ => false end.
Definition during_build (o : RunOutcome) : bool :=
  match o with OutputLimitDuringBuild | CancelledDuringBuild | TimedOutDuringBuild => true | _ => false end.

Lemma run_outcome_spec termination launched built exit_code :
  let o := run_outcome termination launched built exit_code in
  (o = RunSucceeded ↔ launched = true ∧ exit_code = Some 0 ∧ built ≠ Some false ∧ stopped termination = false) ∧
  (during_program o = true ↔ launched = true ∧ stopped termination = true) ∧
  (during_build o = true ↔ launched = false ∧ stopped termination = true) ∧
  (o = BuildFailed ↔ built = Some false ∧ stopped termination = false).
Proof.
  unfold run_outcome. destruct termination, launched; cbn [negb stopped]; repeat case_bool_decide; cbn;
    intuition congruence.
Qed.

Lemma run_output_excerpt_bounds `{BoundedRedactor, TerminalText} workspace stdout stderr :
  (length (run_output_excerpt workspace stdout stderr) ≤ 8)%nat ∧
  Forall (fun line => str_len line ≤ 512) (run_output_excerpt workspace stdout stderr).
Proof.
  unfold run_output_excerpt. rewrite length_reverse, length_fmap, length_take. split; [lia|].
  rewrite Forall_reverse, Forall_fmap. apply Forall_true. intros line. by apply sanitize_len.
Qed.

(** A [run] request, and no other, gets a run summary.  It says that the
    program was running when the runner stopped it exactly when the build events
    asked for its execution; it reports the program's success exactly when the
    process ended by itself with code 0 after a build that did not fail, and
    gives an exit code and an output excerpt (eight lines of 512 bytes at most)
    only of a launched program. *)
Theorem run_summary_spec `{BoundedRedactor, TerminalText} q exit_code termination bep stdout stderr :
  match build_run_summary q exit_code termination bep stdout stderr with
  | None => command q ≠ Run
  | Some r =>
      let launched := exec_request_should_execute bep = Some true in
      command q = Run ∧
      (outcome r = RunSucceeded ↔
         launched ∧ exit_code = Some 0 ∧ build_success bep ≠ Some false ∧ stopped termination = false) ∧
      (during_program (outcome r) = true ↔ launched ∧ stopped termination = true) ∧
      (during_build (outcome r) = true ↔ ¬ launched ∧ stopped termination = true) ∧
      (outcome r = BuildFailed ↔ build_success bep = Some false ∧ stopped termination = false) ∧
      (program_exit_code r ≠ None → launched ∧ program_exit_code r = exit_code) ∧
      (output_excerpt r ≠ [] → launched) ∧
      (length (output_excerpt r) ≤ 8)%nat ∧ Forall (fun line => str_len line ≤ 512) (output_excerpt r)
  end.
Proof.
  unfold build_run_summary. destruct (decide (command q = Run)) as [Hrun | Hrun]; [|done].
  cbn [outcome program_exit_code output_excerpt].
  set (launched := bool_decide (exec_request_should_execute bep = Some true)).
  destruct (run_outcome_spec termination launched (build_success bep) exit_code) as (-> & -> & -> & ->).
  assert (launched = true ↔ exec_request_should_execute bep = Some true) as Htrue by apply bool_decide_eq_true.
  assert (launched = false ↔ exec_request_should_execute bep ≠ Some true) as Hfalse by apply bool_decide_eq_false.
  destruct (run_output_excerpt_bounds (workspace q) stdout stderr) as [Hlen Hlines].
  destruct launched; split_and!; try done; try tauto; simpl; lia.
Qed.

(** ** The committed summary *)

Lemma apply_one_success context s r : success (apply_summary (apply_one context s r)) = success (apply_summary s).
Proof.
  unfold apply_one. case_match; [done|]. destruct (reduce r context) as [patch|]; [|done].
  destruct (patch_is_empty patch); [done|]. unfold apply_patch, suppress_matching_diagnostics. cbn.
  by destruct (bool_decide _ && _).
Qed.

Lemma apply_success pipeline context s : success (Extension.apply pipeline context s).1 = success s.
Proof.
  unfold Extension.apply. cbn [fst].
  assert (∀ rs st, success (apply_summary (foldl (apply_one context) st rs)) = success (apply_summary st)) as Hfold.
  { induction rs as [|r rs IH]; intros st; simpl; [done|]. by rewrite IH, apply_one_success. }
  destruct (bool_decide _ && _); cbn; apply Hfold.
Qed.

Lemma finalize_success s budget : success (finalize_diagnostics s budget) = success s.
Proof. unfold finalize_diagnostics. by destruct (retain_within _ _ _). Qed.

Lemma finalize_notices_success s notices : success (finalize_with_custom_notices s notices) = success s.
Proof. unfold finalize_with_custom_notices. destruct notices; apply finalize_success. Qed.

Lemma command_result_success `{TerminalText} c exit_code stdout stderr rows sample s :
  success (command_result c exit_code stdout stderr rows sample s) = success s.
Proof.
  unfold command_result. destruct (_ && _); [done|]. destruct (_ && _); [|done].
  case_bool_decide; [done|]. by destruct (_ <? _).
Qed.

Lemma test_headline_keeps command o terminal_error stdout stderr s :
  let out := test_headline command o terminal_error stdout stderr s in
  success out = success s ∧ diagnostics out = diagnostics s ∧ inspect_hint out = inspect_hint s ∧ truncated out = truncated s.
Proof.
  unfold test_headline. destruct (_ <? _); [done|]. destruct (tests s); [|done].
  by destruct (option_else _ _).
Qed.

Lemma final_headline_keeps c out custom s :
  let s' := final_headline c out custom s in
  success s' = success s ∧ diagnostics s' = diagnostics s ∧ inspect_hint s' = inspect_hint s ∧ truncated s' = truncated s.
Proof.
  unfold final_headline. destruct custom; [done|]. destruct (is_aspect _); cbn [success set_headline set_diagnostics].
  all: destruct (_ && _); [|done].
  all: match goal with |- context [test_headline ?a ?b ?c ?d ?e ?x] =>
         destruct (test_headline_keeps a b c d e x) as (-> & -> & -> & ->) end; done.
Qed.

Lemma failure_hint_spec s :
  success (failure_hint s) = success s ∧ diagnostics (failure_hint s) = diagnostics s ∧
  (success s = false → is_Some (inspect_hint (failure_hint s))) ∧
  (inspect_hint s ≠ None → inspect_hint (failure_hint s) = inspect_hint s).
Proof.
  unfold failure_hint. destruct (success s) eqn:Hsuccess; cbn [negb andb]; [done|].
  case_bool_decide as Hhint; cbn; split_and!; try done. intros _.
  by destruct (inspect_hint s).
Qed.

Section reduced.
Context `{Redactor : BoundedRedactor} `{Terminal : TerminalText} `{Text : TextDiagnostics} (windows : bool).
Context (enrich_tests : list Artifact → InvocationSummary → InvocationSummary).
Context (load_coverage : list Artifact → option CoverageSummary).

Lemma streaming_success c : success (out_summary (streaming_output c)) = bool_decide (cap_exit_code c = Some 0).
Proof. unfold streaming_output. destruct (cap_panicked c); [done|]. unfold finish. cbn. apply finalize_success. Qed.

Lemma apply_reducers_success reducers l c out s :
  success (apply_reducers windows reducers l c out s).1.1 = success s.
Proof.
  unfold apply_reducers. destruct (decide _); [done|].
  pose proof (apply_success reducers (reducer_context windows l (cap_request c) (cap_exit_code c) (cap_wall_ms c)
    (cap_stdout c) (cap_stderr c) (out_reducer_events out) (reducer_input_truncated out) s) s) as Hsuccess.
  by destruct (Extension.apply _ _ _).
Qed.

(** The completion the reduction phase commits, for any enrichment of the tests
    that keeps the outcome. *)
Lemma reduce_evidence_outcome reducers l c
    (Henrich : ∀ artifacts s, success (enrich_tests artifacts s) = success s)
    (Htoken : apart (bytes_of WORKSPACE_TOKEN) (bytes_of (workspace (cap_request c))))
    (Hreplacement : apart REPLACEMENT (bytes_of (workspace (cap_request c)))) :
  let completion := reduce_evidence windows enrich_tests load_coverage reducers l c in
  let s := completion_summary completion in
  completion_state completion = cap_state c ∧ completion_termination completion = cap_termination c ∧
  success s = bool_decide (cap_exit_code c = Some 0) ∧
  Z.of_nat (length (diagnostics s)) ≤ 20 ∧
  (success s = false → is_Some (inspect_hint s)) ∧
  Forall (fun text => Hidden (workspace (cap_request c)) text ∧ str_len text ≤ 1000) (public_texts s) ∧
  (∀ q, command q = Run → ∀ program_arguments',
     length program_arguments' = length (program_arguments q) →
     ∀ canonical, recorded_arguments q canonical =
       recorded_arguments (MkRequest (request_id q) (workspace q) (startup_arguments q) (command q) (arguments q)
         (target q) program_arguments' (timeout_ms q) (environment q) (requested_at_ms q)) canonical).
Proof.
  intros completion s. subst completion s. unfold reduce_evidence.
  set (out := streaming_output c).
  set (s1 := command_result _ _ _ _ _ _ _). set (run := build_run_summary _ _ _ _ _ _).
  set (s2 := match run with Some run => _ | None => _ end).
  set (s3 := if decide (command (cap_request c) = Coverage) then _ else _).
  assert (success s3 = bool_decide (cap_exit_code c = Some 0)) as Hs3.
  { transitivity (success s2); [unfold s3; destruct (decide _); apply Henrich|].
    transitivity (success s1); [unfold s2; by destruct run|].
    unfold s1. rewrite command_result_success. apply streaming_success. }
  pose proof (apply_reducers_success reducers l c out s3) as Hreducers.
  destruct (apply_reducers windows reducers l c out s3) as [[s4 custom] notices]. cbn [fst] in Hreducers.
  set (s5 := finalize_with_custom_notices s4 notices).
  destruct (final_headline_keeps c out custom s5) as (Hsuccess & Hdiagnostics & _ & _).
  destruct (failure_hint_spec (final_headline c out custom s5)) as (Hsuccess' & Hdiagnostics' & Hhint & _).
  destruct (finalize_with_custom_notices_bounds s4 notices) as (Hitems & _).
  cbn [completion_state completion_termination completion_summary success diagnostics inspect_hint sanitize_summary].
  rewrite length_fmap, Hsuccess', Hsuccess, Hdiagnostics', Hdiagnostics.
  assert (success s5 = success s4) as Hs5 by apply finalize_notices_success.
  split_and!; [done|done|congruence|exact Hitems| | |].
  - intros Hfailed. apply Hhint. congruence.
  - apply sanitized_texts; intros value; (split; [by apply sanitize_hidden|]).
    + by apply sanitize_len.
    + pose proof (sanitize_len (workspace (cap_request c)) value 512). lia.
  - intros q Hrun program_arguments' Hlength canonical. unfold recorded_arguments.
    cbn [command startup_arguments arguments target program_arguments workspace].
    rewrite !(decide_True (P:=command q = Run)) by done.
    destruct (program_arguments q) as [|a l1], program_arguments' as [|b l2]; [done|done|done|].
    cbn [length] in *. by rewrite Hlength.
Qed.
End reduced.

Module OutcomeExamples.
Import LiteralEngine.
#[local] Instance example_redactor : BoundedRedactor := policy_redactor (MkRedactor [bytes_of "s3cret"]).
#[local] Instance plain_text : TerminalText := {| normalize_terminal_text bytes := string_of_bytes (from_utf8_lossy bytes) |}.
#[local] Instance no_text : TextDiagnostics := {| add_text_diagnostics _ ds := ds |}.

Definition example_request : InvocationRequest :=
  MkRequest 7 "/home/me/w" [] Run ["--config=dev"] (Some "//cmd:app") ["--password"; "s3cret"] None ∅ 1000.
Definition example_bep : BepAccumulator :=
  set_run_bep (MkRunBep (Some true) (Some true) false 0) default_accumulator.
Definition example_captured : CapturedEvidence :=
  MkCaptured example_request (BazelDriver "/bin/bazel") (Some 3) (Exit 3) Failed example_bep false false 4
    (bytes_of "reading /home/me/w/app.toml") [] 0 [] 27 0 100 5 0 120 2.
Definition example_completion : InvocationCompletion :=
  reduce_evidence false (fun _ s => s) (fun _ => None) [] default_limits example_captured.

Example example_outcome :
  headline (completion_summary example_completion) = "//cmd:app exited with code 3" ∧
  output_excerpt <$> completion_run example_completion = Some ["reading <workspace>/app.toml"] ∧
  completion_arguments example_completion = Some ["run"; "--config=dev"; "//cmd:app"; "[REDACTED_PROGRAM_ARGS:2]"].
Proof. vm_compute. done. Qed.

Example console_summary :
  bazel_passed_test_targets (bytes_of "INFO: Build completed
INFO: Executed 2 out of 7 tests: 7 tests pass.
") = Some 7 ∧
  bazel_passed_test_targets (bytes_of "Executed 1 out of 1 test: 1 test passes.") = Some 1 ∧
  bazel_passed_test_targets (bytes_of "Executed 2 out of 7 tests: 6 tests pass and 1 fails.") = None.
Proof. vm_compute. done. Qed.
End OutcomeExamples.
