(* ===== verification/BazelText.v ===== *)
(** * Bazel's own diagnostics (crates/bazel-mcp-reducer/src/diagnostics/)

    The text diagnostics of a failed invocation: the lines Bazel itself owns are
    parsed here ([bazel.rs]), the others go to the generic reducer of the
    [logcompact] library, which is an interface, and its diagnostics are mapped
    ([mod.rs]).  This is the instance of [TextDiagnostics] the program has. *)

From Stdlib Require Import Ascii.
From S2P Require Import Prelude Types Diagnostics Reduction Text Outcome.
#[global] Open Scope Z_scope.

(** ** The generic reducer *)

Inductive CoreSeverity : Type := CoreError | CoreWarning | CoreNote.
Inductive DiagnosticClass : Type := CompilerClass | TestLogClass | LintClass | InfrastructureClass | ToolClass | OtherClass.
Record CoreDiagnostic : Type := MkCore {
  core_severity : CoreSeverity; core_class : DiagnosticClass; core_code : option string;
  core_message : string; core_location : option DiagnosticLocation; core_repetition_count : Z;
}.

(** [deduplicate_lines], and [reduce_with_policy] without a budget or a
    redaction, for a mapping of paths. *)
Class LogCompact : Type := {
  deduplicate_lines : string → list (string * Z);
  reduce_with_policy : (string → string) → string → list CoreDiagnostic;
}.

(** ** Paths *)

(** What follows the last occurrence of a string. *)
Definition after_last (pattern s : string) : option string := snd <$> rsplit_once_str pattern s.

(** The relative path below an execution root. *)
Definition below_execroot (path : string) : option string :=
  after_execroot ← after_last "/execroot/" path;
  '(_, relative) ← split_once "/" after_execroot;
  Some relative.

(** The source of a file that was copied to the output tree. *)
Definition below_bin (path : string) : option string :=
  output ← strip_prefix "bazel-out/" path;
  '(configuration, rest) ← split_once "/" output;
  if bool_decide (configuration = "") then None else strip_prefix "bin/" rest.

Definition compact_bazel_path (path : string) : string :=
  let path := replace_char (ascii_of_nat 92) "/" (trim_matches (ascii_of_nat 34) path) in
  let path := match strip_prefix "<WORKSPACE>/" path with
              | Some rest => rest
              | None => default path (strip_prefix "<workspace>/" path)
              end in
  match after_last ".runfiles/_main/" path with
  | Some relative => relative
  | None =>
      match after_last ".runfiles/__main__/" path with
      | Some relative => relative
      | None =>
          let path := match below_execroot path with
                      | Some relative => relative
                      | None => default path (strip_prefix "./" path)
                      end in
          default path (below_bin path)
      end
  end.
Definition map_path_for_bazel : string → string := compact_bazel_path.

(** ** Lines Bazel owns *)

Definition found (lower pattern : string) : bool := contains_str lower pattern.

Definition is_starlark_traceback_header (line : string) : bool :=
  bool_decide (default (trim line) (strip_prefix "ERROR: " (trim line)) = "Traceback (most recent call last):").

Definition starlark_error_message (line : string) : option string :=
  let line := trim line in
  if starts_with line "Error in " || starts_with line "Error: " then Some line else None.

Definition is_starlark_root_cause (message : string) : bool :=
  let lower := to_ascii_lowercase message in
  found lower "syntax error" || found lower "contains syntax errors"
  || (found lower "name '" && found lower " is not defined").

(** The longest prefix of decimal digits, and the rest. *)
Fixpoint digit_prefix (s : string) : string * string :=
  match s with
  | EmptyString => ("", "")
  | String c rest =>
      match digit c with
      | Some _ => let '(digits, rest) := digit_prefix rest in (String c digits, rest)
      | None => ("", s)
      end
  end.

Definition all_digits (s : string) : bool := bool_decide ((digit_prefix s).2 = "").

Definition split_u32_prefix (value : string) : option (Z * string) :=
  '(number, remainder) ← split_once ":" value;
  let number := trim number in
  if negb (bool_decide (number = "")) && all_digits number
  then (fun number => (number, remainder)) <$> parse_u32 number else None.

Definition MARKERS : list string :=
  [".bzl:"; ".bazel:"; "/BUILD:"; "\BUILD:"; "/WORKSPACE:"; "\WORKSPACE:"].

(** [rfind]. *)
Definition rfind (s pattern : string) : option nat := (fun parts => String.length parts.1) <$> rsplit_once_str pattern s.

Definition option_max (a b : option nat) : option nat :=
  match a, b with Some a, Some b => Some (Nat.max a b) | Some a, None => Some a | None, b => b end.

Definition starlark_path_end (line : string) : option nat :=
  foldr option_max None
    ((fun marker => (fun index => (index + (String.length marker - 1))%nat) <$> rfind line marker) <$> MARKERS).

Definition text_diagnostic (s : Severity) (c : DiagnosticCategory) (message : string)
    (location : option DiagnosticLocation) : Diagnostic := MkDiagnostic s c message location None None 1.

Definition parse_starlark_inline (line : string) : option Diagnostic :=
  let line := trim line in
  if starts_with line "DEBUG: " || starts_with line "INFO: " then None
  else
    let line := default line (strip_prefix "ERROR: " line) in
    path_end ← starlark_path_end line;
    let path := String.substring 0 path_end line in
    '(line_number, remainder) ← split_u32_prefix
      (String.substring (path_end + 1) (String.length line - (path_end + 1)) line);
    let '(column, message) := match split_u32_prefix remainder with
                              | Some (column, message) => (Some column, message)
                              | None => (None, remainder)
                              end in
    let message := trim message in
    if bool_decide (message = "") then None
    else
      let lower := to_ascii_lowercase message in
      let category :=
        if (starts_with lower "in " && found lower " rule //") || found lower "analysis of target"
           || found lower "aspect on target"
        then CatAnalysis else CatLoading in
      Some (text_diagnostic (if found lower "warning:" then SevWarning else SevError) category message
              (Some (MkLocation (compact_bazel_path path) (Some line_number) column))).

(** The last segment of a path, with either separator. *)
Fixpoint last_segment (segment s : string) : string :=
  match s with
  | EmptyString => segment
  | String c rest =>
      if Ascii.eqb c "/" || Ascii.eqb c (ascii_of_nat 92) then last_segment "" rest
      else last_segment (segment +:+ String c "") rest
  end.

Definition is_starlark_path (path : string) : bool :=
  ends_with path ".bzl" || ends_with path ".bazel"
  || bool_decide (last_segment "" path = "BUILD" ∨ last_segment "" path = "WORKSPACE").

Definition quote_mark : string := String (ascii_of_nat 34) "".

Definition parse_starlark_traceback_location (line : string) : option DiagnosticLocation :=
  '(_, remainder) ← split_once_str ("File " +:+ quote_mark) line;
  '(path, remainder) ← split_once_str (quote_mark +:+ ", line ") remainder;
  if negb (is_starlark_path path) then None
  else
    let '(line_digits, rest) := digit_prefix remainder in
    if bool_decide (line_digits = "") then None
    else
      line_number ← parse_u32 line_digits;
      let column :=
        remainder ← strip_prefix ", column " rest;
        let '(digits, _) := digit_prefix remainder in
        if bool_decide (digits = "") then None else parse_u32 digits in
      Some (MkLocation (compact_bazel_path path) (Some line_number) column).

Definition parse_aspect_location (value : string) : option DiagnosticLocation :=
  '(prefix, final_number) ← rsplit_once_str ":" (trim value);
  final_number ← parse_u32 final_number;
  let with_column :=
    '(path, line) ← rsplit_once_str ":" prefix;
    line ← parse_u32 line;
    if bool_decide (path = "") then None
    else Some (MkLocation (compact_bazel_path path) (Some line) (Some final_number)) in
  match with_column with
  | Some location => Some location
  | None => if bool_decide (prefix = "") then None
            else Some (MkLocation (compact_bazel_path prefix) (Some final_number) None)
  end.

Definition aspect_severity (line : string) : option (Severity * string) :=
  match strip_prefix "🚨 " line with
  | Some remainder => Some (SevError, remainder)
  | None =>
      match (match strip_prefix "⚠️ " line with Some r => Some r | None => strip_prefix "⚠ " line end) with
      | Some remainder => Some (SevWarning, remainder)
      | None => pair SevNote <$>
          (match strip_prefix "ℹ️ " line with Some r => Some r | None => strip_prefix "ℹ " line end)
      end
  end.

Definition non_empty (s : option string) : option string :=
  s ← s; if bool_decide (s = "") then None else Some s.

Definition parse_aspect_lint (line : string) : option Diagnostic :=
  '(severity, remainder) ← aspect_severity (trim line);
  '(fields, message) ← split_once_str " — " remainder;
  let fields := trim <$> split_take 3 " · " fields in
  location ← (field ← fields !! 0%nat; parse_aspect_location field);
  let tool := non_empty (fields !! 1%nat) in
  let rule := non_empty (fields !! 2%nat) in
  let message := trim message in
  if bool_decide (message = "") then None
  else
    Some (text_diagnostic severity CatCompilation
            (match tool, rule with
             | Some tool, Some rule => tool +:+ " [" +:+ rule +:+ "]: " +:+ message
             | Some tool, None => tool +:+ ": " +:+ message
             | None, Some rule => "[" +:+ rule +:+ "]: " +:+ message
             | None, None => message
             end) (Some location)).

Definition parse_strict_dependency (line : string) : option Diagnostic :=
  '(before, after) ← split_once_str (": import of " +:+ quote_mark) line;
  let path := trim before in
  if negb (ends_with path ".go") then None
  else
    let import := trim (match split_once_str quote_mark after with Some (import, _) => import | None => after end) in
    if bool_decide (import = "") then None
    else
      let path := compact_bazel_path path in
      Some (text_diagnostic SevError CatCompilation
              ("missing strict dependency: " +:+ path +:+ " imports " +:+ quote_mark +:+ import +:+ quote_mark
                 +:+ "; add its target to deps")
              (Some (MkLocation path None None))).

Definition passed_test_line (lower : string) : bool := starts_with lower "test " && ends_with lower " ... ok".

Definition fallback_category (lower : string) : option DiagnosticCategory :=
  if found lower "root_cause" && negb (found lower "error:") && negb (found lower "error[") then Some CatTest
  else if found lower "no such package" || found lower "no such target" then Some CatLoading
  else if found lower "visibility" && found lower "error" then Some CatVisibility
  else if found lower "analysis" && (found lower "error" || found lower "fail") then Some CatAnalysis
  else if found lower "missing strict dependencies" then Some CatCompilation
  else None.

Definition parse_bazel_fallback (line : string) : option Diagnostic :=
  let line := trim line in
  let lower := to_ascii_lowercase line in
  if bool_decide (lower = "failure:" ∨ lower = "failures:") || passed_test_line lower then None
  else
    category ← fallback_category lower;
    Some (text_diagnostic (if found lower "warning:" then SevWarning else SevError) category
            (bounded_text line (64 * 1024)) None).

Definition parse_starlark_source_context (line : string) (category : DiagnosticCategory) : option Diagnostic :=
  let line := trim line in
  let lower := to_ascii_lowercase line in
  if negb (found lower "root_cause") || found lower "error:" || found lower "error[" || passed_test_line lower
  then None else Some (text_diagnostic SevError category line None).

Definition parse_starlark_wrapper (line : string) : option Diagnostic :=
  let lower := to_ascii_lowercase line in
  d ← parse_starlark_inline line;
  if is_starlark_root_cause (message d) then None
  else Some (text_diagnostic (severity d)
               (if found lower "visibility" then CatVisibility
                else if found lower "analysis" then CatAnalysis else CatCompilation)
               (trim line) None).

Definition is_bazel_status_line (line : string) : bool :=
  let lower := to_ascii_lowercase (trim line) in
  starts_with lower "debug:" || starts_with lower "info:"
  || bool_decide (lower = "error: build did not complete successfully").

Definition is_some {A} (o : option A) : bool := match o with Some _ => true | None => false end.

Definition is_bazel_owned_line (line : string) : bool :=
  is_bazel_status_line line || is_some (parse_aspect_lint line) || is_some (parse_strict_dependency line)
  || is_some (parse_bazel_fallback line) || is_some (parse_starlark_inline line)
  || is_some (parse_starlark_traceback_location line) || is_starlark_traceback_header line
  || is_some (starlark_error_message line).

(** ** The parser of tracebacks *)

Record StarlarkDiagnosticParser : Type := MkParser {
  parser_location : option DiagnosticLocation; parser_category : DiagnosticCategory;
}.
Definition default_parser : StarlarkDiagnosticParser := MkParser None CatLoading.

Definition observe_line (p : StarlarkDiagnosticParser) (line : string) : StarlarkDiagnosticParser * option Diagnostic :=
  if is_starlark_traceback_header line then
    (MkParser None (if starts_with (trim_start line) "ERROR:" then CatLoading else parser_category p), None)
  else
    match parse_starlark_inline line with
    | Some d => (MkParser (location d) (category d), if is_starlark_root_cause (message d) then Some d else None)
    | None =>
        match parse_starlark_traceback_location line with
        | Some location => (MkParser (Some location) (parser_category p), None)
        | None =>
            match starlark_error_message line with
            | None => (p, None)
            | Some message =>
                (MkParser None (parser_category p),
                 Some (text_diagnostic SevError (parser_category p) (bounded_text message (64 * 1024)) (parser_location p)))
            end
        end
    end.

Fixpoint observe_lines (p : StarlarkDiagnosticParser) (ls : list string) : list Diagnostic :=
  match ls with
  | [] => []
  | line :: rest => let '(p, d) := observe_line p line in option_list d ++ observe_lines p rest
  end.

(** ** All diagnostics of a text *)

Definition has_starlark_context (ls : list string) : bool :=
  existsb (fun line => is_some (parse_starlark_inline line)) ls
  || existsb (fun line => is_starlark_traceback_header line || is_some (parse_starlark_traceback_location line)) ls.

Definition inline_starlark_category (ls : list string) : DiagnosticCategory :=
  if existsb (fun line => match parse_starlark_inline line with
                          | Some d => bool_decide (category d = CatAnalysis) | None => false end) ls
  then CatAnalysis else CatLoading.

Definition or_else {A} (a b : option A) : option A := match a with Some a => Some a | None => b end.

Definition parse_bazel_line (starlark_category : option DiagnosticCategory) (line : string) : option Diagnostic :=
  if is_starlark_traceback_header line || is_some (parse_starlark_traceback_location line)
     || is_some (starlark_error_message line)
  then None
  else
    or_else (parse_aspect_lint line)
      (or_else (parse_strict_dependency line)
        (or_else (parse_starlark_wrapper line)
          (or_else (category ← starlark_category; parse_starlark_source_context line category)
            (parse_bazel_fallback line)))).

Definition set_repetition (n : Z) (d : Diagnostic) : Diagnostic :=
  MkDiagnostic (severity d) (category d) (message d) (location d) (diagnostic_target d) (action d) n.

Section text.
Context `{Logs : LogCompact} `{Terminal : TerminalText}.

Definition add_bazel_diagnostics (input : string) : list Diagnostic :=
  let ls := lines input in
  let starlark_category := if has_starlark_context ls then Some (inline_starlark_category ls) else None in
  observe_lines default_parser ls
  ++ omap (fun entry => set_repetition entry.2 <$> parse_bazel_line starlark_category entry.1) (deduplicate_lines input).

Definition core_category (d : CoreDiagnostic) : DiagnosticCategory :=
  let by_class := match core_class d with
                  | CompilerClass | LintClass => CatCompilation
                  | TestLogClass => CatTest
                  | InfrastructureClass | ToolClass | OtherClass => CatUnknown
                  end in
  match core_code d with
  | Some code =>
      if bool_decide (code = "starlark.loading" ∨ code = "tool.loading") then CatLoading
      else if bool_decide (code = "starlark.analysis" ∨ code = "tool.analysis") then CatAnalysis
      else if bool_decide (code = "tool.visibility") then CatVisibility
      else by_class
  | None => by_class
  end.

Definition map_diagnostic (d : CoreDiagnostic) : Diagnostic :=
  MkDiagnostic (match core_severity d with CoreError => SevError | CoreWarning => SevWarning | CoreNote => SevNote end)
    (core_category d) (core_message d)
    ((fun l => MkLocation (compact_bazel_path (location_path l)) (location_line l) (location_column l)) <$> core_location d)
    None None (core_repetition_count d).

Definition command_wrapper (d : Diagnostic) : bool :=
  let lower := to_ascii_lowercase (message d) in found lower "error executing " && found lower " command".

(** The text the generic reducer reads: the other lines, joined. *)
Definition generic_lines (normalized : string) : list string :=
  filter (fun line => is_bazel_owned_line line = false) (lines normalized).

Definition bazel_text_diagnostics (input : list Z) (ds : list Diagnostic) : list Diagnostic :=
  let normalized := normalize_terminal_text input in
  let bazel := add_bazel_diagnostics normalized in
  let reduction := reduce_with_policy compact_bazel_path
                     (String.concat (String newline "") (generic_lines normalized)) in
  let bazel := if existsb (fun d => bool_decide (core_code d = Some "swc.parser")) reduction
               then filter (fun d => command_wrapper d = false) bazel else bazel in
  ds ++ bazel ++ (map_diagnostic <$> reduction).

#[export] Instance bazel_text : TextDiagnostics := {| add_text_diagnostics := bazel_text_diagnostics |}.
End text.

(** * Theorems *)

Lemma is_some_true {A} (o : option A) : is_some o = true ↔ is_Some o.
Proof. destruct o; split; naive_solver. Qed.

Lemma or_else_Some {A} (a b : option A) x : or_else a b = Some x → a = Some x ∨ b = Some x.
Proof. destruct a; naive_solver. Qed.

(** One reason for which Bazel owns a line is enough. *)
Lemma owned_iff line :
  is_bazel_owned_line line = true ↔
  is_bazel_status_line line = true ∨ is_Some (parse_aspect_lint line) ∨ is_Some (parse_strict_dependency line) ∨
  is_Some (parse_bazel_fallback line) ∨ is_Some (parse_starlark_inline line) ∨
  is_Some (parse_starlark_traceback_location line) ∨ is_starlark_traceback_header line = true ∨
  is_Some (starlark_error_message line).
Proof. unfold is_bazel_owned_line. rewrite !orb_true_iff, !is_some_true. tauto. Qed.

(** The context of a root cause is also a fallback line. *)
Lemma source_context_fallback line category d :
  parse_starlark_source_context line category = Some d → is_Some (parse_bazel_fallback line).
Proof.
  unfold parse_starlark_source_context, parse_bazel_fallback, fallback_category.
  destruct (found _ "root_cause") eqn:Hcause; [|done]. destruct (found _ "error:"); [done|]. destruct (found _ "error["); [done|].
  cbn [negb orb andb]. destruct (passed_test_line _); [done|]. intros _. rewrite orb_false_r.
  case_bool_decide as Hfailure; [|done].
  by destruct Hfailure as [Heq | Heq]; rewrite Heq in Hcause; vm_compute in Hcause.
Qed.

Lemma parse_bazel_line_owned category line d :
  parse_bazel_line category line = Some d → is_bazel_owned_line line = true.
Proof.
  unfold parse_bazel_line. destruct (_ || _); [done|]. rewrite owned_iff.
  intros Hd. repeat apply or_else_Some in Hd as [Hd | Hd].
  - do 1 right. left. by exists d.
  - do 2 right. left. by exists d.
  - do 4 right. left. unfold parse_starlark_wrapper in Hd. apply bind_Some in Hd as (inline & Hinline & _). by exists inline.
  - do 3 right. left. apply bind_Some in Hd as (c & _ & Hd). exact (source_context_fallback line c d Hd).
  - do 3 right. left. by exists d.
Qed.

Lemma observe_line_owned p line d : (observe_line p line).2 = Some d → is_bazel_owned_line line = true.
Proof.
  unfold observe_line. rewrite owned_iff. destruct (is_starlark_traceback_header line); [done|].
  destruct (parse_starlark_inline line) as [inline|]; [intros _; do 4 right; left; by exists inline|].
  destruct (parse_starlark_traceback_location line); [done|].
  destruct (starlark_error_message line) as [m|]; [intros _; do 7 right; by exists m|done].
Qed.

Lemma observe_lines_owned p ls d : d ∈ observe_lines p ls → ∃ line, (line ∈ ls) ∧ is_bazel_owned_line line = true.
Proof.
  revert p. induction ls as [|line ls IH]; intros p; cbn [observe_lines]; [by intros ?%elem_of_nil|].
  destruct (observe_line p line) as [p' o] eqn:Hline. rewrite elem_of_app. intros [Hd | Hd].
  - exists line. split; [set_solver|]. apply (observe_line_owned p line d). rewrite Hline.
    destruct o as [o|]; cbn in Hd |- *; [apply list_elem_of_singleton in Hd; congruence|by apply elem_of_nil in Hd].
  - destruct (IH p' Hd) as (other & Hin & Howned). exists other. split; [set_solver|done].
Qed.

Section text_theorems.
Context `{Logs : LogCompact} `{Terminal : TerminalText}.

Lemma bazel_diagnostics_owned input d : d ∈ add_bazel_diagnostics input →
  ∃ line, ((line ∈ lines input) ∨ (line ∈ (deduplicate_lines input).*1)) ∧ is_bazel_owned_line line = true.
Proof.
  unfold add_bazel_diagnostics. rewrite elem_of_app, list_elem_of_omap.
  intros [(line & Hin & Howned)%observe_lines_owned | ([line n] & Hin & (parsed & Hparsed & _)%fmap_Some)].
  - eauto.
  - exists line. split; [right; by apply (list_elem_of_fmap_2 fst) in Hin|]. by eapply parse_bazel_line_owned.
Qed.

(** A text is divided between Bazel's parsers and the generic reducer: every
    diagnostic the parsers add comes from a line that Bazel owns, no such line is
    in the text the generic reducer reads, every other line is, in order; the
    diagnostics there were before stay first, and Bazel's are dropped only when
    the generic reducer explains a failed command better. *)
Theorem text_diagnostics_divide input ds :
  let normalized := normalize_terminal_text input in
  ∃ bazel generic,
    bazel_text_diagnostics input ds = ds ++ bazel ++ (map_diagnostic <$> reduce_with_policy compact_bazel_path generic) ∧
    (bazel `sublist_of` add_bazel_diagnostics normalized) ∧
    (∀ d, d ∈ bazel → ∃ line, ((line ∈ lines normalized) ∨ (line ∈ (deduplicate_lines normalized).*1)) ∧
       is_bazel_owned_line line = true) ∧
    (∃ kept, generic = String.concat (String newline "") kept ∧ (kept `sublist_of` lines normalized) ∧
       (∀ line, line ∈ lines normalized → is_bazel_owned_line line = true ↔ line ∉ kept)) ∧
    (∀ d, d ∈ add_bazel_diagnostics normalized → command_wrapper d = false → d ∈ bazel).
Proof.
  intros normalized. unfold bazel_text_diagnostics. fold normalized.
  set (reduction := reduce_with_policy _ _). set (swc := existsb _ reduction).
  exists (if swc then filter (fun d => command_wrapper d = false) (add_bazel_diagnostics normalized) else add_bazel_diagnostics normalized).
  eexists. split; [reflexivity|].
  assert (∀ d, d ∈ (if swc then filter (fun d => command_wrapper d = false) (add_bazel_diagnostics normalized)
                    else add_bazel_diagnostics normalized) → d ∈ add_bazel_diagnostics normalized) as Hsub.
  { intros d. destruct swc; [by intros [_ ?]%list_elem_of_filter|done]. }
  split_and!.
  - destruct swc; [apply sublist_filter|done].
  - intros d Hd%Hsub. by apply bazel_diagnostics_owned in Hd.
  - exists (generic_lines normalized). split; [done|]. split; [apply sublist_filter|].
    intros line Hline. unfold generic_lines. rewrite list_elem_of_filter.
    destruct (is_bazel_owned_line line); naive_solver.
  - intros d Hd Hwrapper. destruct swc; [|done]. by apply list_elem_of_filter.
Qed.
End text_theorems.

(** ** Tracebacks *)

(** A line inside a traceback: neither a header, nor a message. *)
Definition FrameLine (line : string) : Prop :=
  is_starlark_traceback_header line = false ∧ parse_starlark_inline line = None ∧ starlark_error_message line = None.
Definition ErrorLine (line message : string) : Prop :=
  is_starlark_traceback_header line = false ∧ parse_starlark_inline line = None ∧
  parse_starlark_traceback_location line = None ∧ starlark_error_message line = Some message.

Lemma observe_frames p frames rest : Forall FrameLine frames →
  observe_lines p (frames ++ rest) =
  observe_lines (MkParser (or_else (last (omap parse_starlark_traceback_location frames)) (parser_location p))
                   (parser_category p)) rest.
Proof.
  intros Hframes. revert p. induction Hframes as [|line frames (Hheader & Hinline & Herror) Hframes IH]; intros p.
  { by destruct p. }
  cbn [app observe_lines omap list_omap]. unfold observe_line. rewrite Hheader, Hinline.
  destruct (parse_starlark_traceback_location line) as [l|] eqn:Hlocation.
  - cbn [option_list app]. rewrite IH. cbn [parser_location parser_category]. rewrite last_cons.
    by destruct (last (omap _ frames)).
  - rewrite Herror. cbn [option_list app]. by rewrite IH.
Qed.

(** A Starlark traceback becomes one diagnostic: the message of its error line,
    bounded, at the location of its last frame (the call that failed), whatever
    the parser read before; frames of an earlier traceback never leak into it. *)
Theorem traceback_reported p header frames line m
    (Hheader : is_starlark_traceback_header header = true) (Hframes : Forall FrameLine frames)
    (Hline : ErrorLine line m) :
  ∃ category,
    observe_lines p (header :: frames ++ [line]) =
      [text_diagnostic SevError category (bounded_text m (64 * 1024)) (last (omap parse_starlark_traceback_location frames))].
Proof.
  destruct Hline as (Hline & Hinline & Hlocation & Hmessage). cbn [observe_lines]. unfold observe_line at 1. rewrite Hheader.
  cbn [option_list app]. rewrite observe_frames by done. cbn [parser_location parser_category observe_lines].
  unfold observe_line. rewrite Hline, Hinline, Hlocation, Hmessage. cbn. eexists. by destruct (last _).
Qed.

Module BazelTextExamples.
Example compacted_paths :
  compact_bazel_path "/tmp/out/execroot/_main/pkg/main.go" = "pkg/main.go" ∧
  compact_bazel_path "/tmp/test.runfiles/_main/pkg/test.py" = "pkg/test.py" ∧
  compact_bazel_path "C:\out\execroot\_main\bazel-out\k8\bin\a.js" = "a.js" ∧
  Forall (fun path => compact_bazel_path path = path)
    ["/opt/src/main.go"; "/opt/bazel-out/config/bin/main.js"; "bazel-out/config/testlogs/pkg/test.log";
     "bazel-out/config/genfiles/pkg/generated.h"].
Proof. split_and!; [vm_compute; reflexivity..|]. repeat constructor. Qed.

Example parsed_lines :
  parse_starlark_inline "ERROR: /tmp/execroot/_main/pkg/rules.bzl:4:7: name 'missing' is not defined" =
    Some (text_diagnostic SevError CatLoading "name 'missing' is not defined"
            (Some (MkLocation "pkg/rules.bzl" (Some 4) (Some 7)))) ∧
  parse_starlark_inline "DEBUG: /tmp/external/tool/extension.bzl:160:14: telemetry notice" = None ∧
  parse_aspect_lint "🚨 src/app.ts:8:3 · eslint · no-console — unexpected console statement" =
    Some (text_diagnostic SevError CatCompilation "eslint [no-console]: unexpected console statement"
            (Some (MkLocation "src/app.ts" (Some 8) (Some 3)))) ∧
  parse_bazel_fallback "ERROR: no such target '//pkg:missing'" =
    Some (text_diagnostic SevError CatLoading "ERROR: no such target '//pkg:missing'" None) ∧
  parse_bazel_fallback "INFO: 1 process" = None.
Proof. vm_compute. done. Qed.

Definition frame (path : string) (n : string) : string :=
  "	File " +:+ quote_mark +:+ path +:+ quote_mark +:+ ", line " +:+ n +:+ ", column 3, in <toplevel>".

Lemma traceback_reported_witness :
  ∃ category,
    observe_lines (MkParser (Some (MkLocation "stale.bzl" (Some 1) None)) CatAnalysis)
      ["ERROR: Traceback (most recent call last):"; frame "/w/BUILD" "7"; frame "/w/defs.bzl" "12"; "Error in fail: boom"] =
      [text_diagnostic SevError category "Error in fail: boom" (Some (MkLocation "/w/defs.bzl" (Some 12) (Some 3)))].
Proof.
  apply (traceback_reported _ "ERROR: Traceback (most recent call last):" [frame "/w/BUILD" "7"; frame "/w/defs.bzl" "12"]
           "Error in fail: boom" "Error in fail: boom").
  - vm_compute. reflexivity.
  - repeat constructor; vm_compute; reflexivity.
  - repeat split; vm_compute; reflexivity.
Defined.
End BazelTextExamples.
