(* ===== verification/Starlark.v ===== *)
(** * Starlark reducers (crates/bazel-mcp-reducer/src/starlark.rs)

    How a loaded reducer is checked, how its context is laid out on the heap of
    the language, what the functions [diagnostic], [patch] and
    [regex_diagnostics] build there, and how its answer is measured and parsed.
    The interpreter itself and regular expressions are arguments. *)

From stdpp Require Import pretty.
From S2P Require Import Prelude Collections Types Diagnostics Extension Text Runner Outcome StarlarkValue.
#[global] Open Scope Z_scope.
#[local] Arguments String.append !_ _ / : simpl nomatch.

(** ** Allocation *)

Definition H (A : Type) : Type := Heap → A * Heap.
#[export] Instance H_ret : MRet H := fun _ a h => (a, h).
#[export] Instance H_bind : MBind H := fun _ _ k m h => let '(a, h) := m h in k a h.

Definition alloc (o : Object) : H Value := fun h => let a := fresh (dom h) in (VRef a, <[a := o]> h).
Definition alloc_dict (fields : list (string * Value)) : H Value := alloc (ODict ((fun f => (VStr f.1, f.2)) <$> fields)).

Fixpoint alloc_all {A} (f : A → H Value) (items : list A) : H (list Value) :=
  match items with
  | [] => mret []
  | x :: rest => v ← f x; vs ← alloc_all f rest; mret (v :: vs)
  end.
Definition alloc_list {A} (f : A → H Value) (items : list A) : H Value := vs ← alloc_all f items; alloc (OList vs).

Definition alloc_optional {A} (f : A → Value) (o : option A) : Value := match o with Some a => f a | None => VNone end.

(** ** Names *)

Definition reducer_event_kind_name (kind : ReducerEventKind) : string :=
  match kind with
  | EvAborted => "aborted" | EvAction => "action" | EvTarget => "target" | EvTestSummary => "test_summary"
  end.

Definition severity_name (s : Severity) : string :=
  match s with SevError => "error" | SevWarning => "warning" | SevNote => "note" end.

Definition category_name (c : DiagnosticCategory) : string :=
  match c with
  | CatWorkspace => "workspace" | CatLoading => "loading" | CatAnalysis => "analysis" | CatVisibility => "visibility"
  | CatAction => "action" | CatCompilation => "compilation" | CatTest => "test" | CatBazel => "bazel"
  | CatUnknown => "unknown"
  end.

Definition test_status_name (s : TestStatus) : string :=
  match s with
  | TestPassed => "passed" | TestFailed => "failed" | TestFlaky => "flaky" | TestSkipped => "skipped"
  | TestTimedOut => "timed_out" | TestIncomplete => "incomplete" | TestRemote => "remote"
  end.

Definition inspect_hint_name (hint : InspectHint) : string :=
  match hint with
  | HintDiagnostics => "diagnostics" | HintTests => "tests" | HintTestLog => "test_log" | HintCoverage => "coverage"
  | HintArtifacts => "artifacts" | HintQueryResults => "query_results" | HintLog => "log"
  end.

(** ** The context of a reducer *)

Definition alloc_target_result (t : TargetResult) : H Value :=
  alloc_dict [("label", VStr (target_label t)); ("success", VBool (target_success t))].

Definition alloc_target_counts (c : TargetCounts) : H Value :=
  alloc_dict [("requested", VInt (requested c)); ("succeeded", VInt (targets_succeeded c));
              ("failed", VInt (targets_failed c))].

Definition alloc_diagnostic_location_fields (path : string) (line column : option Z) : H Value :=
  alloc_dict [("path", VStr path); ("line", alloc_optional VInt line); ("column", alloc_optional VInt column)].

Definition alloc_diagnostic_location (l : DiagnosticLocation) : H Value :=
  alloc_diagnostic_location_fields (location_path l) (location_line l) (location_column l).

Definition alloc_diagnostic_fields (severity category message : string) (location : Value) (target action : option string)
    (repetition_count : Z) : H Value :=
  alloc_dict [("severity", VStr severity); ("category", VStr category); ("message", VStr message); ("location", location);
              ("target", alloc_optional VStr target); ("action", alloc_optional VStr action);
              ("repetition_count", VInt repetition_count)].

Definition alloc_diagnostic (d : Diagnostic) : H Value :=
  location ← match location d with Some l => alloc_diagnostic_location l | None => mret VNone end;
  alloc_diagnostic_fields (severity_name (severity d)) (category_name (category d)) (message d) location
    (diagnostic_target d) (action d) (repetition_count d).

Definition alloc_test_case (c : TestCase) : H Value :=
  alloc_dict [("name", VStr (case_name c)); ("status", VStr (test_status_name (case_status c)));
              ("duration_ms", alloc_optional VInt (case_duration_ms c)); ("message", alloc_optional VStr (case_message c))].

Definition alloc_test_result (t : TestResult) : H Value :=
  cases ← alloc_list alloc_test_case (cases t);
  alloc_dict ([("label", VStr (test_label t)); ("status", VStr (test_status_name (test_status t)));
               ("duration_ms", alloc_optional VInt (duration_ms t)); ("attempts", VInt (attempts t));
               ("shard", alloc_optional VInt (shard t)); ("cases", cases);
               ("test_log_available", VBool (test_log_available t))]
              ++ match test_log_unavailable_reason t with
                 | Some reason => [("test_log_unavailable_reason", VStr reason)]
                 | None => []
                 end).

Definition alloc_test_counts (c : TestCounts) : H Value :=
  alloc_dict [("passed", VInt (passed c)); ("failed", VInt (tests_failed c)); ("flaky", VInt (flaky c));
              ("skipped", VInt (skipped c)); ("incomplete", VInt (incomplete c))].

Definition alloc_coverage_file (f : CoverageFile) : H Value :=
  alloc_dict [("path", VStr (coverage_path f)); ("lines_found", VInt (file_lines_found f));
              ("lines_hit", VInt (file_lines_hit f)); ("coverage_percent", VFloat (file_percent f))].

Definition alloc_coverage_summary (c : CoverageSummary) : H Value :=
  files ← alloc_list alloc_coverage_file (files c);
  alloc_dict [("lines_found", VInt (lines_found c)); ("lines_hit", VInt (lines_hit c));
              ("coverage_percent", VFloat (coverage_percent c)); ("files", files)].

Definition alloc_query_row (r : QueryRow) : H Value :=
  alloc_dict [("ordinal", VInt (ordinal r)); ("value", VStr (value r))].

Definition alloc_invocation_summary (s : InvocationSummary) : H Value :=
  targets ← alloc_list alloc_target_result (targets s);
  diagnostics ← alloc_list alloc_diagnostic (diagnostics s);
  tests ← alloc_list alloc_test_result (tests s);
  query_sample ← alloc_list alloc_query_row (query_sample s);
  coverage ← match coverage s with Some c => alloc_coverage_summary c | None => mret VNone end;
  target_counts ← alloc_target_counts (target_counts s);
  test_counts ← alloc_test_counts (test_counts s);
  alloc_dict [("success", VBool (success s)); ("headline", VStr (headline s)); ("targets", targets);
              ("target_counts", target_counts); ("diagnostics", diagnostics); ("tests", tests);
              ("test_counts", test_counts); ("coverage", coverage); ("query_sample", query_sample);
              ("query_result_count", alloc_optional VInt (query_result_count s)); ("elapsed_ms", VInt (elapsed_ms s));
              ("truncated", VBool (truncated s));
              ("inspect_hint", alloc_optional (fun hint => VStr (inspect_hint_name hint)) (inspect_hint s))].

Definition alloc_reducer_event (e : ReducerEvent) : H Value :=
  alloc_dict [("ordinal", VInt (event_ordinal e)); ("kind", VStr (reducer_event_kind_name (event_kind e)));
              ("label", alloc_optional VStr (event_label e)); ("target_kind", alloc_optional VStr (event_target_kind e));
              ("action_type", alloc_optional VStr (event_action_type e)); ("success", alloc_optional VBool (event_success e));
              ("exit_code", alloc_optional VInt (event_exit_code e)); ("message", alloc_optional VStr (event_message e))].

Definition alloc_reducer_context (c : ReducerContext) : H Value :=
  arguments ← alloc_list (fun argument => mret (VStr argument)) (context_arguments c);
  events ← alloc_list alloc_reducer_event (context_events c);
  baseline ← alloc_invocation_summary (baseline c);
  alloc_dict [("api_version", VInt (api_version c)); ("command", VStr (context_command c)); ("arguments", arguments);
              ("exit_code", alloc_optional VInt (context_exit_code c)); ("elapsed_ms", VInt (context_elapsed_ms c));
              ("stdout", VStr (context_stdout c)); ("stderr", VStr (context_stderr c)); ("events", events);
              ("input_truncated", VBool (input_truncated c)); ("baseline", baseline)].

(** ** Reading values *)

(** [with_context] on an error. *)
Definition context {A} (text : string) (r : result string A) : result string A :=
  match r with Ok a => Ok a | Err e => Err (text +:+ ": " +:+ e) end.

Definition unpack_str (v : Value) : option string := match v with VStr s => Some s | _ => None end.
Definition unpack_bool (v : Value) : option bool := match v with VBool b => Some b | _ => None end.
Definition i32_min : Z := - 2 ^ 31.
Definition i32_max : Z := 2 ^ 31 - 1.
Definition unpack_i32 (v : Value) : option Z :=
  match v with VInt n => if bool_decide (i32_min ≤ n ≤ i32_max) then Some n else None | _ => None end.

Abbreviation Dict := (list (Value * Value)).

(** [DictRef::get_str]. *)
Definition get_str (dict : Dict) (field : string) : option Value :=
  find_map (fun entry => match entry with (VStr key, v) => if bool_decide (key = field) then Some v else None | _ => None end)
    dict.

Section parse.
(** What the interpreter says of a value that is not a [u32]. *)
Context (not_u32 : Value → string) (h : Heap).

Definition required_dict (v : Value) (name : string) : result string Dict :=
  match v with
  | VRef a => match object h a with ODict entries => Ok entries | _ => Err (name +:+ " must be a dict") end
  | _ => Err (name +:+ " must be a dict")
  end.

Definition sequence_items (v : Value) (name : string) : result string (list Value) :=
  match v with
  | VRef a =>
      match object h a with
      | OList items | OTuple items => Ok items
      | _ => Err (name +:+ " must be a list or tuple")
      end
  | _ => Err (name +:+ " must be a list or tuple")
  end.

Definition validate_fields (dict : Dict) (allowed : list string) (name : string) : result string unit :=
  for_each (fun entry =>
    key ← ok_or (unpack_str entry.1) (name +:+ " field names must be strings");
    reject_if (negb (bool_decide (key ∈ allowed))) ("unknown field " +:+ debug_str key +:+ " in " +:+ name)) dict.

Definition required_field (dict : Dict) (field name : string) : result string Value :=
  ok_or (get_str dict field) ("required field " +:+ debug_str field +:+ " is missing from " +:+ name).

Definition required_str_field (dict : Dict) (field name : string) : result string string :=
  v ← required_field dict field name;
  ok_or (unpack_str v) (name +:+ " field " +:+ debug_str field +:+ " must be a string").

Definition optional_string_field (dict : Dict) (field name : string) : result string (option string) :=
  match get_str dict field with
  | None | Some VNone => Ok None
  | Some v =>
      s ← ok_or (unpack_str v) (name +:+ " field " +:+ debug_str field +:+ " must be a string or None");
      Ok (Some s)
  end.

Definition required_bool_field (dict : Dict) (field name : string) : result string bool :=
  v ← required_field dict field name;
  ok_or (unpack_bool v) (name +:+ " field " +:+ debug_str field +:+ " must be a bool").

Definition unpack_u32 (v : Value) : result string Z :=
  match v with VInt n => if bool_decide (0 ≤ n ≤ u32_max) then Ok n else Err (not_u32 v) | _ => Err (not_u32 v) end.

Definition required_u32_field (dict : Dict) (field name : string) : result string Z :=
  v ← required_field dict field name;
  context (name +:+ " field " +:+ debug_str field +:+ " must be an unsigned 32-bit integer") (unpack_u32 v).

Definition optional_u32_field (dict : Dict) (field name : string) : result string (option Z) :=
  match get_str dict field with
  | None | Some VNone => Ok None
  | Some v =>
      n ← context (name +:+ " field " +:+ debug_str field +:+ " must be an unsigned 32-bit integer or None") (unpack_u32 v);
      Ok (Some n)
  end.

Definition optional_location_field (dict : Dict) : result string (option DiagnosticLocation) :=
  match get_str dict "location" with
  | None | Some VNone => Ok None
  | Some v =>
      location ← required_dict v "diagnostic location";
      _ ← validate_fields location ["path"; "line"; "column"] "diagnostic location";
      path ← required_str_field location "path" "diagnostic location";
      line ← optional_u32_field location "line" "diagnostic location";
      column ← optional_u32_field location "column" "diagnostic location";
      Ok (Some (MkLocation path line column))
  end.

Definition parse_severity (s : string) : result string Severity :=
  if bool_decide (s = "error") then Ok SevError
  else if bool_decide (s = "warning") then Ok SevWarning
  else if bool_decide (s = "note") then Ok SevNote
  else Err ("invalid diagnostic severity " +:+ debug_str s).

Definition categories : list DiagnosticCategory :=
  [CatWorkspace; CatLoading; CatAnalysis; CatVisibility; CatAction; CatCompilation; CatTest; CatBazel; CatUnknown].

Definition parse_category (s : string) : result string DiagnosticCategory :=
  ok_or (find_map (fun c => if bool_decide (s = category_name c) then Some c else None) categories)
    ("invalid diagnostic category " +:+ debug_str s).

Definition parse_starlark_diagnostic (v : Value) : result string Diagnostic :=
  dict ← required_dict v "diagnostic";
  _ ← validate_fields dict ["severity"; "category"; "message"; "location"; "target"; "action"; "repetition_count"]
        "diagnostic";
  severity ← required_str_field dict "severity" "diagnostic";
  severity ← parse_severity severity;
  category ← required_str_field dict "category" "diagnostic";
  category ← parse_category category;
  message ← required_str_field dict "message" "diagnostic";
  location ← optional_location_field dict;
  target ← optional_string_field dict "target" "diagnostic";
  action ← optional_string_field dict "action" "diagnostic";
  repetition_count ← required_u32_field dict "repetition_count" "diagnostic";
  Ok (MkDiagnostic severity category message location target action repetition_count).

Fixpoint parse_diagnostics (index : Z) (values : list Value) : result string (list Diagnostic) :=
  match values with
  | [] => Ok []
  | v :: rest =>
      d ← context ("validate diagnostic at index " +:+ pretty index) (parse_starlark_diagnostic v);
      ds ← parse_diagnostics (index + 1) rest;
      Ok (d :: ds)
  end.

Definition parse_starlark_patch (v : Value) (max_output_items : Z) : result string ReducerPatch :=
  dict ← required_dict v "reducer patch";
  _ ← validate_fields dict ["headline"; "diagnostics"; "suppress_builtin_diagnostics"] "reducer patch";
  diagnostics_value ← required_field dict "diagnostics" "reducer patch";
  values ← sequence_items diagnostics_value "diagnostics";
  _ ← reject_if (max_output_items <? Z.of_nat (length values))
        ("reducer returned " +:+ pretty (Z.of_nat (length values)) +:+ " diagnostics, exceeding the "
         +:+ pretty max_output_items +:+ "-item limit");
  diagnostics ← parse_diagnostics 0 values;
  headline ← optional_string_field dict "headline" "reducer patch";
  suppress ← required_bool_field dict "suppress_builtin_diagnostics" "reducer patch";
  Ok (MkPatch headline diagnostics suppress).
End parse.

(** ** The functions reducers call *)

Definition validate_severity (s : string) : result string unit :=
  reject_if (negb (bool_decide (s ∈ ["error"; "warning"; "note"]))) ("invalid diagnostic severity " +:+ debug_str s).

Definition validate_category (s : string) : result string unit :=
  reject_if (negb (bool_decide (s ∈ ["workspace"; "loading"; "analysis"; "visibility"; "action"; "compilation"; "test";
                                      "bazel"; "unknown"])))
    ("invalid diagnostic category " +:+ debug_str s).

Definition positive_optional (value : option Z) (name : string) : result string (option Z) :=
  match value with
  | None => Ok None
  | Some n => if 0 <=? n then Ok (Some n)
              else Err (name +:+ " must not be negative: out of range integral type conversion attempted")
  end.

(** The arguments of [diagnostic]; the integers are [i32]s. *)
Record DiagnosticArguments : Type := MkArguments {
  arg_message : string;
  arg_severity : string;
  arg_category : string;
  arg_target : option string;
  arg_action : option string;
  arg_path : option string;
  arg_line : option Z;
  arg_column : option Z;
  arg_repetition_count : Z;
}.

Definition api_diagnostic (args : DiagnosticArguments) : result string (H Value) :=
  _ ← validate_severity (arg_severity args);
  _ ← validate_category (arg_category args);
  _ ← reject_if (arg_repetition_count args <=? 0) "repetition_count must be greater than zero";
  _ ← reject_if (bool_decide (arg_path args = None)
                 && (bool_decide (is_Some (arg_line args)) || bool_decide (is_Some (arg_column args))))
        "line and column require path";
  line ← positive_optional (arg_line args) "line";
  column ← positive_optional (arg_column args) "column";
  Ok (location ← match arg_path args with
                 | Some path => alloc_diagnostic_location_fields path line column
                 | None => mret VNone
                 end;
      alloc_diagnostic_fields (arg_severity args) (arg_category args) (arg_message args) location (arg_target args)
        (arg_action args) (arg_repetition_count args)).

Definition api_patch (h : Heap) (diagnostics : Value) (headline : option string) (suppress : bool) : result string (H Value) :=
  _ ← sequence_items h diagnostics "diagnostics";
  Ok (alloc_dict [("headline", alloc_optional VStr headline); ("diagnostics", diagnostics);
                  ("suppress_builtin_diagnostics", VBool suppress)]).

(** A match of a regular expression: its text and its named groups. *)
Record Captures : Type := MkCaptures { whole_match : string; named_group : string → option string }.

Definition parse_int_error (s : string) : string :=
  match s with
  | EmptyString => "cannot parse integer from empty string"
  | String a rest =>
      let digits := if Ascii.eqb a (Ascii.ascii_of_nat 43) then rest else s in
      if negb (bool_decide (digits = "")) && forallb (fun b => (48 <=? b) && (b <=? 57)) (bytes_of digits)
      then "number too large to fit in target type" else "invalid digit found in string"
  end.

Definition parse_position (captures : Captures) (name : string) : result string (option Z) :=
  match named_group captures name with
  | None => Ok None
  | Some text =>
      match parse_u32 text with
      | Some n => Ok (Some n)
      | None => Err ("capture " +:+ debug_str name +:+ " is not a positive integer: " +:+ parse_int_error text)
      end
  end.

Definition regex_diagnostic (severity category : string) (captures : Captures) : result string (H Value) :=
  position ← match named_group captures "path" with
             | Some path =>
                 line ← parse_position captures "line";
                 column ← parse_position captures "column";
                 Ok (Some (path, line, column))
             | None => Ok None
             end;
  Ok (location ← match position with
                 | Some (path, line, column) => alloc_diagnostic_location_fields path line column
                 | None => mret VNone
                 end;
      alloc_diagnostic_fields severity category (default (whole_match captures) (named_group captures "message")) location
        (named_group captures "target") (named_group captures "action") 1).

Fixpoint collect_results {A B} (f : A → result string B) (items : list A) : result string (list B) :=
  match items with
  | [] => Ok []
  | x :: rest => y ← f x; ys ← collect_results f rest; Ok (y :: ys)
  end.

(** [regex_diagnostics]; [compile] is [Regex::new] and [captures_iter]. *)
Definition api_regex_diagnostics (compile : string → result string (string → list Captures)) (text pattern : string)
    (severity category : string) (max_matches : Z) : result string (H Value) :=
  _ ← validate_severity severity;
  _ ← validate_category category;
  _ ← reject_if (negb ((1 <=? max_matches) && (max_matches <=? 1000))) "max_matches must be between 1 and 1000";
  captures_iter ← context "compile reducer regular expression" (compile pattern);
  diagnostics ← collect_results (regex_diagnostic severity category) (take (Z.to_nat max_matches) (captures_iter text));
  Ok (alloc_list (fun d => d) diagnostics).

(** ** Loading *)

(** A loaded module: its frozen heap, its exports, and the call of its
    [reduce] under the limits of the evaluator. *)
Record StarlarkModule : Type := MkModule {
  module_heap : Heap;
  get_option : string → result string (option Value);
  call_reduce : Heap → Value → result string (Heap * Value);
}.

Definition optional_string (m : StarlarkModule) (name : string) : result string (option string) :=
  v ← get_option m name;
  match v with
  | None => Ok None
  | Some v => s ← ok_or (unpack_str v) (name +:+ " must be a string"); Ok (Some s)
  end.

Definition required_string (m : StarlarkModule) (name : string) : result string string :=
  v ← optional_string m name; ok_or v ("required exported string " +:+ name +:+ " is missing").

Definition optional_i32 (m : StarlarkModule) (name : string) : result string (option Z) :=
  v ← get_option m name;
  match v with
  | None => Ok None
  | Some v => n ← ok_or (unpack_i32 v) (name +:+ " must be a 32-bit integer"); Ok (Some n)
  end.

Definition required_i32 (m : StarlarkModule) (name : string) : result string Z :=
  v ← optional_i32 m name; ok_or v ("required exported integer " +:+ name +:+ " is missing").

Definition optional_string_list (m : StarlarkModule) (name : string) : result string (list string) :=
  v ← get_option m name;
  match v with
  | None => Ok []
  | Some v =>
      items ← sequence_items (module_heap m) v name;
      collect_results (fun item => ok_or (unpack_str item) (name +:+ " must be a list of strings")) items
  end.

Definition optional_string_set (m : StarlarkModule) (name : string) : result string (gset string) :=
  l ← optional_string_list m name; Ok (list_to_set l).

Definition parse_mode (s : string) : result string ReducerMode :=
  if bool_decide (s = "augment") then Ok Augment
  else if bool_decide (s = "override_matching") then Ok OverrideMatching
  else Err ("MODE must be augment or override_matching, got " +:+ debug_str s).

Definition is_function (h : Heap) (v : Value) : bool :=
  match v with VRef a => bool_decide (object_type (object h a) = "function") | _ => false end.

Record LoadedStarlarkReducer : Type := MkLoaded {
  loaded_name : string;
  loaded_priority : Z;
  loaded_mode : ReducerMode;
  loaded_selector : ReducerSelector;
  loaded_module : StarlarkModule;
  loaded_limits : StarlarkLimits;
}.

(** [load]; [read n] are the first [n] bytes of the file, as text, and
    [evaluate] is parsing, checking and evaluating the module under the limits. *)
Definition load (read : Z → result string string) (evaluate : string → result string StarlarkModule)
    (limits : StarlarkLimits) : result string LoadedStarlarkReducer :=
  source ← read (u64_add (max_source_bytes limits) 1);
  _ ← reject_if (max_source_bytes limits <? str_len source)
        ("source exceeds the " +:+ pretty (max_source_bytes limits) +:+ "-byte limit");
  m ← evaluate source;
  version ← required_i32 m "API_VERSION";
  _ ← reject_if (negb (version =? REDUCER_API_VERSION))
        ("unsupported API_VERSION " +:+ pretty version +:+ "; expected " +:+ pretty REDUCER_API_VERSION);
  name ← required_string m "NAME";
  _ ← reject_if (bool_decide (name = "") || (128 <? str_len name)) "NAME must contain between 1 and 128 bytes";
  priority ← optional_i32 m "PRIORITY";
  mode ← optional_string m "MODE";
  mode ← parse_mode (default "augment" mode);
  commands ← optional_string_set m "COMMANDS";
  target_labels ← optional_string_list m "TARGET_LABELS";
  target_kinds ← optional_string_set m "TARGET_KINDS";
  action_types ← optional_string_set m "ACTION_TYPES";
  let selector := MkSelector commands target_labels target_kinds action_types in
  _ ← reject_if (bool_decide (mode = OverrideMatching) && negb (has_event_constraints selector))
        "override_matching reducers must declare an event selector";
  reduce ← get_option m "reduce";
  reduce ← ok_or reduce "required exported function reduce is missing";
  _ ← reject_if (negb (is_function (module_heap m) reduce)) "reduce must be a function";
  Ok (MkLoaded name (default 0 priority) mode selector m limits).

(** ** Running *)

Section run.
Context (float_json : f64 → result string string) (not_u32 : Value → string).

Definition default_patch : ReducerPatch := MkPatch None [] false.

(** The answer of a reducer; the fuel of the measurement always suffices. *)
Definition parse_output (limits : StarlarkLimits) (h : Heap) (v : Value) : result string ReducerPatch :=
  match v with
  | VNone => Ok default_patch
  | _ =>
      output_bytes ← context "serialize reducer output"
        (default (Err "out of fuel") (serialized_json_len float_json h v));
      _ ← reject_if (max_output_bytes limits <? output_bytes)
            ("reducer output is " +:+ pretty output_bytes +:+ " bytes, exceeding the "
             +:+ pretty (max_output_bytes limits) +:+ "-byte limit");
      context "validate reducer patch" (parse_starlark_patch not_u32 h v (max_output_items limits))
  end.

(** [reduce]: the context is laid out on a heap that holds the frozen module. *)
Definition run_reducer (r : LoadedStarlarkReducer) (c : ReducerContext) : result ReducerError ReducerPatch :=
  let '(argument, h) := alloc_reducer_context c (module_heap (loaded_module r)) in
  match ('(h, v) ← call_reduce (loaded_module r) h argument; parse_output (loaded_limits r) h v) with
  | Ok patch => Ok patch
  | Err e => Err (MkReducerError ("Starlark evaluation failed: " +:+ e))
  end.

Definition as_custom_reducer (r : LoadedStarlarkReducer) : CustomReducer :=
  MkReducer (loaded_name r) (loaded_priority r) (loaded_mode r) (loaded_selector r) (run_reducer r).

(** [load_starlark_reducers]; [files] gives the content and the evaluation of
    each configured file. *)
Definition load_starlark_reducers (config : StarlarkReducerConfig)
    (files : PathBuf → (Z → result string string) * (string → result string StarlarkModule))
    : result ReducerError ReducerPipeline :=
  match validate_limits (limits config) with
  | Err e => Err (MkReducerError e)
  | Ok _ =>
      match collect_results (fun path =>
              context ("load Starlark reducer " +:+ path) (load (files path).1 (files path).2 (limits config)))
              (reducer_files config) with
      | Err e => Err (MkReducerError e)
      | Ok reducers => new_pipeline (as_custom_reducer <$> reducers)
      end
  end.
End run.

(** * Theorems *)

(** ** Growing heaps *)

Lemma object_Some h a o : object h a = o → (∀ name, o ≠ OOther name) → h !! a = Some o.
Proof. unfold object. destruct (h !! a); cbn; intros <- Hother; [done|]. by destruct (Hother ""). Qed.

Lemma object_lookup h a o : h !! a = Some o → object h a = o.
Proof. unfold object. by intros ->. Qed.

Lemma alloc_spec o h : ∃ a, alloc o h = (VRef a, <[a := o]> h) ∧ h ⊆ <[a := o]> h ∧ object (<[a := o]> h) a = o.
Proof.
  exists (fresh (dom h)). split; [done|]. split.
  - apply insert_subseteq, not_elem_of_dom, is_fresh.
  - apply object_lookup, lookup_insert_eq.
Qed.

Section growing.
Context (not_u32 : Value → string) (h h' : Heap) (Hsub : h ⊆ h').

Lemma required_dict_grows v name dict : required_dict h v name = Ok dict → required_dict h' v name = Ok dict.
Proof.
  unfold required_dict. destruct v as [| | | | |a]; try done. destruct (object h a) eqn:Ha; try done. intros [= <-].
  apply object_Some in Ha; [|done]. by rewrite (object_lookup h' a _ (lookup_weaken _ _ _ _ Ha Hsub)).
Qed.

Lemma sequence_items_grows v name items : sequence_items h v name = Ok items → sequence_items h' v name = Ok items.
Proof.
  unfold sequence_items. destruct v as [| | | | |a]; try done. destruct (object h a) eqn:Ha; try done; intros [= <-];
    (apply object_Some in Ha; [|done]); by rewrite (object_lookup h' a _ (lookup_weaken _ _ _ _ Ha Hsub)).
Qed.

Lemma optional_location_grows dict l :
  optional_location_field not_u32 h dict = Ok l → optional_location_field not_u32 h' dict = Ok l.
Proof.
  unfold optional_location_field. destruct (get_str dict "location") as [[]|]; try done.
  intros (location & Hlocation & Hrest)%bind_Ok_inv. by rewrite (required_dict_grows _ _ _ Hlocation).
Qed.

Lemma parse_diagnostic_grows v d :
  parse_starlark_diagnostic not_u32 h v = Ok d → parse_starlark_diagnostic not_u32 h' v = Ok d.
Proof.
  unfold parse_starlark_diagnostic. intros Hd.
  apply bind_Ok_inv in Hd as (dict & Hdict & Hd). rewrite (required_dict_grows _ _ _ Hdict). cbn [mbind result_bind].
  do 6 (apply bind_Ok_inv in Hd as (? & -> & Hd); cbn [mbind result_bind]).
  apply bind_Ok_inv in Hd as (l & Hl & Hd). by rewrite (optional_location_grows _ _ Hl).
Qed.

Lemma parse_diagnostics_grows index vs ds :
  parse_diagnostics not_u32 h index vs = Ok ds → parse_diagnostics not_u32 h' index vs = Ok ds.
Proof.
  revert index ds. induction vs as [|v vs IH]; intros index ds; cbn; [done|].
  intros (d & Hd & (ds' & Hds & [= <-])%bind_Ok_inv)%bind_Ok_inv. rewrite (IH _ _ Hds).
  destruct (parse_starlark_diagnostic not_u32 h v) as [d'|] eqn:Hparse; [|done]. injection Hd as ->.
  by rewrite (parse_diagnostic_grows _ _ Hparse).
Qed.
End growing.

(** ** Diagnostics on the heap *)

(** The numbers of a diagnostic are [u32]s. *)
Definition diagnostic_in_range (d : Diagnostic) : Prop :=
  is_u32 (repetition_count d) ∧
  ∀ l, location d = Some l →
    (∀ n, location_line l = Some n → is_u32 n) ∧ (∀ n, location_column l = Some n → is_u32 n).

Lemma parse_severity_name s : parse_severity (severity_name s) = Ok s.
Proof. by destruct s. Qed.

Lemma parse_category_name c : parse_category (category_name c) = Ok c.
Proof. by destruct c. Qed.

Section parse_alloc.
Context (not_u32 : Value → string).

Lemma unpack_u32_Ok n : is_u32 n → unpack_u32 not_u32 (VInt n) = Ok n.
Proof. intros Hn. unfold unpack_u32. by rewrite bool_decide_true. Qed.

Lemma optional_u32_alloc dict field name o :
  get_str dict field = Some (alloc_optional VInt o) → (∀ n, o = Some n → is_u32 n) →
  optional_u32_field not_u32 dict field name = Ok o.
Proof.
  unfold optional_u32_field. intros -> Ho. destruct o as [n|]; [|done]. cbn [alloc_optional].
  by rewrite unpack_u32_Ok by (by apply Ho).
Qed.

Lemma optional_string_alloc dict field name o :
  get_str dict field = Some (alloc_optional VStr o) → optional_string_field dict field name = Ok o.
Proof. unfold optional_string_field. intros ->. by destruct o. Qed.

(** A location on the heap. *)
Lemma location_alloc path line column h :
  (∀ n, line = Some n → is_u32 n) → (∀ n, column = Some n → is_u32 n) →
  ∃ a h', alloc_diagnostic_location_fields path line column h = (VRef a, h') ∧ h ⊆ h' ∧
    ∀ dict, get_str dict "location" = Some (VRef a) →
      optional_location_field not_u32 h' dict = Ok (Some (MkLocation path line column)).
Proof.
  intros Hline Hcolumn. unfold alloc_diagnostic_location_fields, alloc_dict.
  match goal with |- context [alloc ?o h] => destruct (alloc_spec o h) as (a & -> & Hsub & Ha) end.
  eexists a, _. split; [done|]. split; [done|]. intros dict Hdict. unfold optional_location_field. rewrite Hdict.
  unfold required_dict. rewrite Ha. cbn [mbind result_bind fmap list_fmap fst snd].
  erewrite (optional_u32_alloc _ "line"), (optional_u32_alloc _ "column"); [reflexivity|reflexivity|done|reflexivity|done].
Qed.

(** A diagnostic on the heap, whatever its location. *)
Lemma fields_alloc severity category message location_value location target action count h :
  is_u32 count →
  (∀ h' dict, h ⊆ h' → get_str dict "location" = Some location_value →
     optional_location_field not_u32 h' dict = Ok location) →
  ∃ a h', alloc_diagnostic_fields (severity_name severity) (category_name category) message location_value target action
            count h = (VRef a, h') ∧ h ⊆ h' ∧
    parse_starlark_diagnostic not_u32 h' (VRef a)
    = Ok (MkDiagnostic severity category message location target action count).
Proof.
  intros Hcount Hlocation. unfold alloc_diagnostic_fields, alloc_dict.
  match goal with |- context [alloc ?o h] => destruct (alloc_spec o h) as (a & -> & Hsub & Ha) end.
  eexists a, _. split; [done|]. split; [done|]. unfold parse_starlark_diagnostic, required_dict. rewrite Ha.
  cbn [mbind result_bind fmap list_fmap fst snd].
  change (validate_fields _ _ _) with (Ok (E:=string) tt). cbn [mbind result_bind].
  change (required_str_field _ "severity" _) with (Ok (E:=string) (severity_name severity)).
  cbn [mbind result_bind]. rewrite parse_severity_name. cbn [mbind result_bind].
  change (required_str_field _ "category" _) with (Ok (E:=string) (category_name category)).
  cbn [mbind result_bind]. rewrite parse_category_name. cbn [mbind result_bind].
  change (required_str_field _ "message" _) with (Ok (E:=string) message). cbn [mbind result_bind].
  rewrite Hlocation by done. cbn [mbind result_bind].
  rewrite (optional_string_alloc _ "target" _ target) by done. rewrite (optional_string_alloc _ "action" _ action) by done.
  cbn [mbind result_bind]. unfold required_u32_field, required_field.
  change (get_str _ "repetition_count") with (Some (VInt count)). cbn [ok_or mbind result_bind].
  by rewrite unpack_u32_Ok.
Qed.
End parse_alloc.

(** A native diagnostic that is laid out on the heap for a reducer parses
    back to itself, on that heap and on every heap that grows from it, so a reducer
    can hand on what it was given. *)
Theorem diagnostic_roundtrip not_u32 d h h'
    (Hrange : diagnostic_in_range d) (Hgrows : (alloc_diagnostic d h).2 ⊆ h') :
  parse_starlark_diagnostic not_u32 h' (alloc_diagnostic d h).1 = Ok d.
Proof.
  destruct Hrange as [Hcount Hlocation]. unfold alloc_diagnostic, mbind, H_bind, mret, H_ret in *.
  destruct d as [severity category message [[path line column]|] target action count];
    cbn [Types.severity Types.category Types.message Types.location diagnostic_target Types.action repetition_count] in *.
  - destruct (Hlocation _ eq_refl) as [Hline Hcolumn].
    destruct (location_alloc not_u32 path line column h Hline Hcolumn) as (a & h1 & Halloc & _ & Hparse).
    cbn [location_line location_column] in *. unfold alloc_diagnostic_location in *.
    cbn [location_path location_line location_column] in *. rewrite Halloc in *.
    destruct (fields_alloc not_u32 severity category message (VRef a) (Some (MkLocation path line column)) target action count h1)
      as (a' & h2 & Hfields & _ & Hdiagnostic); [done| |].
    + intros h2 dict Hsub Hdict. eapply optional_location_grows; [exact Hsub|by apply Hparse].
    + rewrite Hfields in *. by eapply parse_diagnostic_grows.
  - destruct (fields_alloc not_u32 severity category message VNone None target action count h)
      as (a' & h2 & Hfields & _ & Hdiagnostic); [done| |].
    + intros h2 dict _ Hdict. unfold optional_location_field. by rewrite Hdict.
    + rewrite Hfields in *. by eapply parse_diagnostic_grows.
Qed.

(** ** The API *)

Lemma severity_valid s : validate_severity s = Ok tt → ∃ severity, s = severity_name severity.
Proof.
  intros Hs%reject_if_Ok. apply negb_false_iff, bool_decide_eq_true in Hs.
  rewrite !elem_of_cons, elem_of_nil in Hs. destruct Hs as [-> | [-> | [-> | []]]];
    [by exists SevError|by exists SevWarning|by exists SevNote].
Qed.

Lemma category_valid s : validate_category s = Ok tt → ∃ category, s = category_name category.
Proof.
  intros Hs%reject_if_Ok. apply negb_false_iff, bool_decide_eq_true in Hs.
  rewrite !elem_of_cons, elem_of_nil in Hs.
  repeat destruct Hs as [-> | Hs]; try done;
    [by exists CatWorkspace|by exists CatLoading|by exists CatAnalysis|by exists CatVisibility|by exists CatAction
    |by exists CatCompilation|by exists CatTest|by exists CatBazel|by exists CatUnknown].
Qed.

Lemma positive_optional_Ok o name o' :
  (∀ n, o = Some n → n ≤ i32_max) → positive_optional o name = Ok o' → o' = o ∧ ∀ n, o = Some n → is_u32 n.
Proof.
  unfold positive_optional. intros Hmax. destruct o as [n|]; [|by intros [= <-]]. destruct (Z.leb_spec 0 n); [|done].
  intros [= <-]. split; [done|]. intros ? [= <-]. specialize (Hmax n eq_refl). unfold is_u32, u32_max, i32_max in *. lia.
Qed.

(** What the function [diagnostic] of the reducer language builds is what the
    answer of a reducer may contain: when it accepts its arguments, the value it
    allocates parses to the diagnostic they describe, and its numbers are
    positive. *)
Theorem api_diagnostic_parses not_u32 args build h
    (Hi32 : arg_repetition_count args ≤ i32_max ∧ (∀ n, arg_line args = Some n → n ≤ i32_max) ∧
            (∀ n, arg_column args = Some n → n ≤ i32_max))
    (Hbuild : api_diagnostic args = Ok build) :
  ∃ severity category,
    arg_severity args = severity_name severity ∧ arg_category args = category_name category ∧
    0 < arg_repetition_count args ∧
    parse_starlark_diagnostic not_u32 (build h).2 (build h).1 =
      Ok (MkDiagnostic severity category (arg_message args)
            ((fun path => MkLocation path (arg_line args) (arg_column args)) <$> arg_path args)
            (arg_target args) (arg_action args) (arg_repetition_count args)).
Proof.
  destruct Hi32 as (Hcount & Hline & Hcolumn). unfold api_diagnostic in Hbuild.
  apply bind_Ok_inv in Hbuild as ([] & Hseverity & Hbuild). apply severity_valid in Hseverity as [severity Hseverity].
  apply bind_Ok_inv in Hbuild as ([] & Hcategory & Hbuild). apply category_valid in Hcategory as [category Hcategory].
  apply bind_Ok_inv in Hbuild as ([] & Hpositive & Hbuild). apply reject_if_Ok in Hpositive.
  apply bind_Ok_inv in Hbuild as ([] & _ & Hbuild).
  apply bind_Ok_inv in Hbuild as (line & Hl & Hbuild). apply bind_Ok_inv in Hbuild as (column & Hc & [= <-]).
  apply positive_optional_Ok in Hl as [-> Hl]; [|done]. apply positive_optional_Ok in Hc as [-> Hc]; [|done].
  apply Z.leb_gt in Hpositive. exists severity, category. split_and!; [done|done|done|]. rewrite Hseverity, Hcategory.
  assert (Hu32 : is_u32 (arg_repetition_count args)) by (unfold is_u32, u32_max, i32_max in *; lia).
  unfold mbind, H_bind, mret, H_ret. destruct (arg_path args) as [path|].
  - destruct (location_alloc not_u32 path _ _ h Hl Hc) as (a & h1 & -> & _ & Hparse).
    destruct (fields_alloc not_u32 severity category (arg_message args) (VRef a)
      (Some (MkLocation path (arg_line args) (arg_column args))) (arg_target args) (arg_action args) _ h1 Hu32)
      as (a' & h2 & -> & _ & Hdiagnostic); [|done].
    intros h2 dict Hsub Hdict. eapply optional_location_grows; [exact Hsub|by apply Hparse].
  - destruct (fields_alloc not_u32 severity category (arg_message args) VNone None (arg_target args) (arg_action args) _ h Hu32)
      as (a' & h2 & -> & _ & Hdiagnostic); [|done].
    intros h2 dict _ Hdict. unfold optional_location_field. by rewrite Hdict.
Qed.

(** ** The size of an answer *)

Lemma join_comma_len first texts :
  foldr (fun t total => str_len t + total) 0 texts ≤ str_len (join_comma first texts).
Proof.
  revert first. induction texts as [|t texts IH]; intros first; cbn [foldr join_comma]; [done|].
  rewrite !str_len_app. specialize (IH false). pose proof (str_len_nonneg (if first then "" else ",")). lia.
Qed.

Lemma text_in_join first t texts : t ∈ texts → str_len t ≤ str_len (join_comma first texts).
Proof.
  intros Ht. etrans; [|apply join_comma_len]. induction Ht as [|? t' ? _ IH]; cbn [foldr].
  - assert (∀ l, 0 ≤ foldr (fun t total => str_len t + total) 0 l) as Hpos.
    { intros ts. induction ts as [|u ts IHts]; cbn; [done|]. pose proof (str_len_nonneg u). lia. }
    match goal with |- context [foldr _ 0 ?l] => specialize (Hpos l) end. lia.
  - pose proof (str_len_nonneg t'). lia.
Qed.

Lemma print_string_len s : str_len s ≤ str_len (print_string s).
Proof.
  unfold print_string. rewrite str_len_cons, str_len_app.
  assert (str_len s ≤ str_len (escape_json s)); [|pose proof (str_len_nonneg (String quote_char "")); lia].
  induction s as [|c s IH]; [done|]. cbn [escape_json]. rewrite str_len_app, str_len_cons.
  assert (1 ≤ str_len (escape_char c)); [|lia]. rewrite escape_char_len. unfold byte_json_len. repeat case_match; lia.
Qed.

Lemma field_len key j fields : (key, j) ∈ fields → str_len (print_json j) ≤ str_len (print_json (JObject fields)).
Proof.
  intros Hin. rewrite print_object_len.
  assert (Ht : print_string key +:+ ":" +:+ print_json j ∈ map (fun f => print_string f.1 +:+ ":" +:+ print_json f.2) fields).
  { change (map ?f ?l) with (f <$> l). apply list_elem_of_fmap. by exists (key, j). }
  apply (text_in_join true) in Ht. rewrite !str_len_app in Ht.
  pose proof (str_len_nonneg (print_string key)). pose proof (str_len_nonneg ":"). lia.
Qed.

Section output.
Context (float_json : f64 → result string string) (not_u32 : Value → string) (h : Heap).
Abbreviation unfolds := (unfolds float_json h).

Lemma get_str_elem dict field v : get_str dict field = Some v → (VStr field, v) ∈ dict.
Proof.
  unfold get_str. induction dict as [|[key v'] dict IH]; cbn; [done|]. destruct key as [| | |key| |]; try (right; by apply IH).
  case_bool_decide; [|right; by apply IH]. intros [= <-]. subst. left.
Qed.

(** A field of a dictionary that stands for JSON. *)
Lemma unfolds_field v dict j name field w :
  unfolds v j → required_dict h v name = Ok dict → get_str dict field = Some w →
  ∃ jw, unfolds w jw ∧ str_len (print_json jw) ≤ str_len (print_json j).
Proof.
  intros Hj Hdict Hfield%get_str_elem. unfold required_dict in Hdict.
  destruct Hj as [| | | | |a items js Ha _|a entries fields Ha Hentries]; try done.
  { by destruct Ha as [Ha | Ha]; rewrite Ha in Hdict. }
  rewrite Ha in Hdict. injection Hdict as ->. apply list_elem_of_lookup in Hfield as [i Hi].
  destruct (Forall2_lookup_l _ _ _ _ _ Hentries Hi) as ([key jw] & Hkey & _ & Hw). exists jw. split; [done|].
  eapply field_len, list_elem_of_lookup_2, Hkey.
Qed.

Lemma str_field_len v dict j name field s :
  unfolds v j → required_dict h v name = Ok dict → required_str_field dict field name = Ok s →
  str_len s ≤ str_len (print_json j).
Proof.
  intros Hj Hdict (w & Hw%ok_or_Ok & Hs%ok_or_Ok)%bind_Ok_inv.
  destruct (unfolds_field _ _ _ _ _ _ Hj Hdict Hw) as (jw & Hjw & Hlen). destruct w; try done. injection Hs as ->.
  inversion Hjw. subst. etrans; [|exact Hlen]. apply print_string_len.
Qed.

Lemma diagnostic_message_len v j d :
  unfolds v j → parse_starlark_diagnostic not_u32 h v = Ok d → str_len (message d) ≤ str_len (print_json j).
Proof.
  intros Hj Hd. unfold parse_starlark_diagnostic in Hd. apply bind_Ok_inv in Hd as (dict & Hdict & Hd).
  do 5 apply bind_Ok_inv in Hd as (? & _ & Hd). apply bind_Ok_inv in Hd as (message & Hmessage & Hd).
  do 4 apply bind_Ok_inv in Hd as (? & _ & Hd). injection Hd as <-. cbn. by eapply str_field_len.
Qed.

Lemma diagnostics_messages_len index vs js ds :
  Forall2 unfolds vs js → parse_diagnostics not_u32 h index vs = Ok ds →
  length ds = length vs ∧ message_bytes ds ≤ foldr (fun t total => str_len t + total) 0 (map print_json js).
Proof.
  intros Hjs. revert index ds. induction Hjs as [|v j vs js Hj Hjs IH]; intros index ds; cbn [parse_diagnostics].
  - by intros [= <-].
  - intros (d & Hd & (ds' & Hds & [= <-])%bind_Ok_inv)%bind_Ok_inv. destruct (IH _ _ Hds) as [Hlength Hbytes].
    split; [cbn; by rewrite Hlength|]. unfold message_bytes in *. cbn [foldr map].
    destruct (parse_starlark_diagnostic not_u32 h v) as [d'|] eqn:Hparse; [|done]. injection Hd as ->.
    pose proof (diagnostic_message_len _ _ _ Hj Hparse). lia.
Qed.

Lemma sequence_unfolds v items j name :
  unfolds v j → sequence_items h v name = Ok items → ∃ js, j = JArray js ∧ Forall2 unfolds items js.
Proof.
  intros Hj Hitems. unfold sequence_items in Hitems.
  destruct Hj as [| | | | |a items' js Ha Hjs|a entries fields Ha _]; try done; [|by rewrite Ha in Hitems].
  exists js. split; [done|]. destruct Ha as [Ha | Ha]; rewrite Ha in Hitems; by injection Hitems as ->.
Qed.

Lemma patch_sizes v j items patch :
  unfolds v j → parse_starlark_patch not_u32 h v items = Ok patch →
  Z.of_nat (length (patch_diagnostics patch)) ≤ items ∧
  message_bytes (patch_diagnostics patch) ≤ str_len (print_json j) ∧
  str_len (default "" (patch_headline patch)) ≤ str_len (print_json j).
Proof.
  intros Hj Hpatch. unfold parse_starlark_patch in Hpatch. apply bind_Ok_inv in Hpatch as (dict & Hdict & Hpatch).
  apply bind_Ok_inv in Hpatch as (_u & _ & Hpatch). apply bind_Ok_inv in Hpatch as (dv & Hdv%ok_or_Ok & Hpatch).
  apply bind_Ok_inv in Hpatch as (vs & Hvs & Hpatch). apply bind_Ok_inv in Hpatch as (_u' & Hitems & Hpatch).
  apply bind_Ok_inv in Hpatch as (ds & Hds & Hpatch). apply bind_Ok_inv in Hpatch as (headline & Hheadline & Hpatch).
  apply bind_Ok_inv in Hpatch as (suppress & _ & [= <-]). cbn [patch_diagnostics patch_headline].
  apply reject_if_Ok, Z.ltb_ge in Hitems.
  destruct (unfolds_field _ _ _ _ _ _ Hj Hdict Hdv) as (jd & Hjd & Hlen).
  destruct (sequence_unfolds _ _ _ _ Hjd Hvs) as (js & -> & Hjs).
  destruct (diagnostics_messages_len _ _ _ _ Hjs Hds) as [Hlength Hbytes]. split_and!; [lia| |].
  - etrans; [exact Hbytes|]. etrans; [apply (join_comma_len true)|]. etrans; [|exact Hlen].
    rewrite print_array_len. lia.
  - unfold optional_string_field in Hheadline. destruct (get_str dict "headline") as [w|] eqn:Hw.
    2: { injection Hheadline as <-. apply str_len_nonneg. }
    destruct (unfolds_field _ _ _ _ _ _ Hj Hdict Hw) as (jw & Hjw & Hlenw).
    destruct w as [| | |s| |]; cbn in Hheadline; try done; injection Hheadline as <-; cbn [default]; [apply str_len_nonneg|].
    inversion Hjw. subst. etrans; [|exact Hlenw]. apply print_string_len.
Qed.
End output.

Lemma context_Ok {A} text (r : result string A) a : context text r = Ok a → r = Ok a.
Proof. by destruct r. Qed.

Lemma parse_output_Ok float_json not_u32 limits h v patch :
  parse_output float_json not_u32 limits h v = Ok patch →
  v = VNone ∧ patch = default_patch ∨
  ∃ n, serialized_json_len float_json h v = Some (Ok n) ∧ n ≤ max_output_bytes limits ∧
    parse_starlark_patch not_u32 h v (max_output_items limits) = Ok patch.
Proof.
  intros Hout. assert (Hcase : v = VNone ∨ v ≠ VNone) by (destruct v; auto). destruct Hcase as [-> | Hv].
  { left. by injection Hout as <-. }
  right. assert (Hsteps : (output_bytes ← context "serialize reducer output"
      (default (Err "out of fuel") (serialized_json_len float_json h v));
    _ ← reject_if (max_output_bytes limits <? output_bytes)
          ("reducer output is " +:+ pretty output_bytes +:+ " bytes, exceeding the "
           +:+ pretty (max_output_bytes limits) +:+ "-byte limit");
    context "validate reducer patch" (parse_starlark_patch not_u32 h v (max_output_items limits))) = Ok patch)
    by (destruct v; [done|exact Hout..]).
  apply bind_Ok_inv in Hsteps as (n & Hn%context_Ok & Hsteps).
  apply bind_Ok_inv in Hsteps as (u & Hbound & Hpatch%context_Ok). exists n.
  destruct (serialized_json_len float_json h v) as [r|]; [|done]. cbn in Hn. subst.
  split_and!; [done|by apply reject_if_Ok, Z.ltb_ge in Hbound|done].
Qed.

Lemma run_reducer_bounded float_json not_u32 r c patch
    (Hitems : 0 ≤ max_output_items (loaded_limits r)) (Hbytes : 0 ≤ max_output_bytes (loaded_limits r) < u64_max)
    (Hrun : run_reducer float_json not_u32 r c = Ok patch) :
  Z.of_nat (length (patch_diagnostics patch)) ≤ max_output_items (loaded_limits r) ∧
  message_bytes (patch_diagnostics patch) ≤ max_output_bytes (loaded_limits r) ∧
  str_len (default "" (patch_headline patch)) ≤ max_output_bytes (loaded_limits r).
Proof.
  unfold run_reducer in Hrun. destruct (alloc_reducer_context _ _) as [argument h0].
  destruct (_ ≫= _) as [patch'|] eqn:Hout; [|done]. injection Hrun as ->.
  apply bind_Ok_inv in Hout as ([h v] & _ & Hout).
  apply parse_output_Ok in Hout as [[-> ->] | (n & Hlen & Hn & Hpatch)].
  { unfold default_patch, message_bytes, str_len. cbn. split_and!; lia. }
  destruct (serialized_json_len_cases float_json h v) as (r' & Hr' & Hiff). rewrite Hlen in Hr'. injection Hr' as <-.
  destruct (proj1 (Hiff n) eq_refl) as (j & Hj & ->). unfold saturated in Hn.
  destruct (patch_sizes _ _ _ _ _ _ _ Hj Hpatch) as (? & ? & ?). split_and!; lia.
Qed.

(** ** Loading *)

Lemma collect_results_Ok {A B} (f : A → result string B) items ys :
  collect_results f items = Ok ys ↔ Forall2 (fun x y => f x = Ok y) items ys.
Proof.
  revert ys. induction items as [|x items IH]; intros ys; cbn.
  - split; [intros [= <-]; constructor|by inversion 1].
  - split.
    + intros (y & Hy & (ys' & Hys & [= <-])%bind_Ok_inv)%bind_Ok_inv. constructor; [done|by apply IH].
    + inversion 1 as [|? y ? ys' Hy Hys]; subst. rewrite Hy. cbn. by rewrite (proj2 (IH _) Hys).
Qed.

(** What loading checks of a reducer. *)
Record ValidReducer (r : CustomReducer) : Prop := {
  valid_name : 1 ≤ str_len (reducer_name r) ≤ 128;
  valid_priority : i32_min ≤ priority r ≤ i32_max;
  valid_override : mode r = OverrideMatching → has_event_constraints (selector r) = true;
}.

Lemma optional_i32_range m name n : optional_i32 m name = Ok (Some n) → i32_min ≤ n ≤ i32_max.
Proof.
  intros (v & _ & Hv)%bind_Ok_inv. destruct v as [v|]; [|done]. apply bind_Ok_inv in Hv as (n' & Hn%ok_or_Ok & [= ->]).
  unfold unpack_i32 in Hn. destruct v; try done. case_bool_decide; [|done]. by injection Hn as ->.
Qed.

Lemma load_valid float_json not_u32 read evaluate limits r :
  load read evaluate limits = Ok r → ValidReducer (as_custom_reducer float_json not_u32 r) ∧ loaded_limits r = limits.
Proof.
  unfold load. intros Hload. do 5 apply bind_Ok_inv in Hload as (? & _ & Hload).
  apply bind_Ok_inv in Hload as (name & _ & Hload).
  apply bind_Ok_inv in Hload as (u & Hname & Hload). apply bind_Ok_inv in Hload as (priority & Hpriority & Hload).
  apply bind_Ok_inv in Hload as (? & _ & Hload). apply bind_Ok_inv in Hload as (mode & _ & Hload).
  do 4 apply bind_Ok_inv in Hload as (? & _ & Hload). apply bind_Ok_inv in Hload as (u' & Hmode & Hload).
  do 3 apply bind_Ok_inv in Hload as (? & _ & Hload). injection Hload as <-. split; [|done].
  apply reject_if_Ok in Hname as [Hempty Hlong]%orb_false_iff. apply reject_if_Ok in Hmode.
  constructor; cbn.
  - apply bool_decide_eq_false in Hempty. apply Z.ltb_ge in Hlong. split; [|done].
    destruct name; [done|]. rewrite str_len_cons. pose proof (str_len_nonneg name). lia.
  - destruct priority; [by eapply optional_i32_range|]. cbn. unfold i32_min, i32_max. lia.
  - intros ->. rewrite bool_decide_true in Hmode by done. by apply negb_false_iff in Hmode.
Qed.

(** Loading accepts only reducers with a usable name, a 32-bit priority and,
    for overrides, a selector; their names differ; and every patch the loaded
    pipeline takes from any of them is within the configured limits. *)
Theorem loaded_pipeline_spec float_json not_u32 config files pipeline
    (Hbytes : max_output_bytes (limits config) < u64_max)
    (Hpositive : 0 ≤ max_output_bytes (limits config) ∧ 0 ≤ max_output_items (limits config))
    (Hload : load_starlark_reducers float_json not_u32 config files = Ok pipeline) :
  length pipeline = length (reducer_files config) ∧ NoDup (map reducer_name pipeline) ∧
  Forall (fun r => ValidReducer r ∧ ∀ c patch, reduce r c = Ok patch →
    Z.of_nat (length (patch_diagnostics patch)) ≤ max_output_items (limits config) ∧
    message_bytes (patch_diagnostics patch) ≤ max_output_bytes (limits config) ∧
    str_len (default "" (patch_headline patch)) ≤ max_output_bytes (limits config)) pipeline.
Proof.
  unfold load_starlark_reducers in Hload. destruct (validate_limits _); [|done].
  destruct (collect_results _ _) as [reducers|] eqn:Hreducers; [|done]. apply collect_results_Ok in Hreducers.
  set (rs := as_custom_reducer float_json not_u32 <$> reducers) in *.
  unfold new_pipeline in Hload. apply bind_Ok_inv in Hload as (u & Hunique & [= <-]).
  pose proof (stable_sort_perm reducer_leb rs) as Hperm. split_and!.
  - rewrite Hperm. unfold rs. rewrite length_fmap. symmetry. by eapply Forall2_length.
  - change (map ?f ?l) with (f <$> l). rewrite Hperm. assert (is_ok (unique_names ∅ rs) = true) as Hok by (by rewrite Hunique).
    by apply unique_names_spec in Hok as [? _].
  - rewrite Hperm. unfold rs. apply Forall_fmap, Forall_forall. intros r (i & Hi)%list_elem_of_lookup.
    destruct (Forall2_lookup_r _ _ _ _ _ Hreducers Hi) as (path & _ & Hr%context_Ok).
    apply (load_valid float_json not_u32) in Hr as [Hvalid Hlimits]. split; [exact Hvalid|]. intros c patch Hrun. rewrite <- Hlimits in *.
    by eapply run_reducer_bounded in Hrun; [|lia|lia].
Qed.

(** * Examples *)

Module StarlarkExamples.
Definition no_float (f : f64) : result string string := Err "nan".
Definition not_u32 (v : Value) : string := "not a u32".

Definition example_diagnostic : Diagnostic :=
  MkDiagnostic SevWarning CatAnalysis "unused dep" (Some (MkLocation "a/BUILD" (Some 3) None)) (Some "//a") None 2.

Lemma diagnostic_roundtrip_witness :
  parse_starlark_diagnostic not_u32 (alloc_diagnostic example_diagnostic ∅).2 (alloc_diagnostic example_diagnostic ∅).1
  = Ok example_diagnostic.
Proof.
  apply diagnostic_roundtrip; [|reflexivity]. split; [vm_compute; split; discriminate|].
  intros l [= <-]. split; [|discriminate]. intros n [= <-]. vm_compute. split; discriminate.
Defined.

Definition example_arguments : DiagnosticArguments :=
  MkArguments "boom" "error" "test" (Some "//a:t") None (Some "a.go") (Some 7) None 1.

Definition example_build : H Value :=
  location ← alloc_diagnostic_location_fields "a.go" (Some 7) None;
  alloc_diagnostic_fields "error" "test" "boom" location (Some "//a:t") None 1.

Lemma api_diagnostic_parses_witness :
  parse_starlark_diagnostic not_u32 (example_build ∅).2 (example_build ∅).1 =
    Ok (MkDiagnostic SevError CatTest "boom" (Some (MkLocation "a.go" (Some 7) None)) (Some "//a:t") None 1).
Proof.
  destruct (api_diagnostic_parses not_u32 example_arguments example_build ∅) as (severity & category & Hs & Hc & _ & Hparse).
  - split; [vm_compute; discriminate|]. split; intros n [= <-]. vm_compute. discriminate.
  - reflexivity.
  - destruct severity; try discriminate Hs. destruct category; try discriminate Hc. exact Hparse.
Defined.

(** A module whose [reduce] answers with one note, and one that is too chatty. *)
Definition answer (message : string) (h : Heap) : Heap * Value :=
  let '(d, h) := alloc_diagnostic (MkDiagnostic SevNote CatBazel message None None None 1) h in
  let '(ds, h) := alloc (OList [d]) h in
  let '(v, h) := alloc_dict [("headline", VStr "done"); ("diagnostics", ds); ("suppress_builtin_diagnostics", VBool false)] h in
  (h, v).
Definition example_module (message : string) : StarlarkModule :=
  MkModule {[0%nat := OOther "function"]}
    (fun name => Ok (if bool_decide (name = "API_VERSION") then Some (VInt 1)
                     else if bool_decide (name = "NAME") then Some (VStr message)
                     else if bool_decide (name = "reduce") then Some (VRef 0) else None))
    (fun h _ => Ok (answer message h)).
Definition example_limits : StarlarkLimits := MkLimits 1000 1000 10 200 5 10 10 10 100.
Definition example_config : StarlarkReducerConfig := MkStarlarkConfig ["a.star"; "b.star"] example_limits.
Definition example_files (path : PathBuf) : (Z → result string string) * (string → result string StarlarkModule) :=
  (fun _ => Ok "def reduce(ctx): ...", fun _ => Ok (example_module path)).

Definition example_pipeline : ReducerPipeline :=
  match load_starlark_reducers no_float not_u32 example_config example_files with Ok pipeline => pipeline | Err _ => [] end.

Lemma example_loads : load_starlark_reducers no_float not_u32 example_config example_files = Ok example_pipeline.
Proof.
  unfold example_pipeline. destruct (load_starlark_reducers _ _ _ _) as [pipeline|e] eqn:Hload; [reflexivity|].
  exfalso. assert (is_ok (load_starlark_reducers no_float not_u32 example_config example_files) = true) as Hok
    by (vm_compute; reflexivity). rewrite Hload in Hok. discriminate.
Qed.

Lemma loaded_pipeline_spec_witness :
  map reducer_name example_pipeline = ["a.star"; "b.star"] ∧ NoDup (map reducer_name example_pipeline).
Proof.
  split; [vm_compute; reflexivity|].
  refine (proj1 (proj2 (loaded_pipeline_spec no_float not_u32 example_config example_files example_pipeline _ _ example_loads))).
  - vm_compute. reflexivity.
  - vm_compute. split; discriminate.
Defined.

Definition loaded (message : string) : LoadedStarlarkReducer :=
  MkLoaded message 0 Augment (MkSelector ∅ [] ∅ ∅) (example_module message) example_limits.
Definition example_context : ReducerContext :=
  MkContext 1 "build" ["//..."] (Some 1) 7 "" "" [] false default_summary.

Example short_answer_accepted :
  match run_reducer no_float not_u32 (loaded "a note") example_context with
  | Ok patch => patch_headline patch = Some "done" ∧ message <$> patch_diagnostics patch = ["a note"]
  | Err _ => False
  end.
Proof. vm_compute. done. Qed.

Example chatty_reducer_rejected :
  is_ok (run_reducer no_float not_u32
    (loaded "this message is too long for the configured limit, which leaves room for two hundred bytes of text only")
    example_context) = false.
Proof. vm_compute. reflexivity. Qed.
End StarlarkExamples.
