(* ===== verification/Evidence.v ===== *)
(** * Evidence records and their pages
    (crates/bazel-mcp-runner/src/inspection.rs, and the views and results of
    crates/bazel-mcp-types/src/inspection.rs)

    The lines kept of a failed invocation, in the order a reader should see
    them, and the pages in which they are read back, with a filter and with room
    for fewer items than a page has. *)

From stdpp Require Import pretty.
From Stdlib Require Import Ascii.
From S2P Require Import Prelude Collections Types Diagnostics Record Store QueryPaging Text Runner Sanitize Outcome.
#[global] Open Scope Z_scope.
#[local] Arguments String.append !_ _ / : simpl nomatch.

(** ** Views *)

Inductive InspectView : Type :=
| ViewSummary | ViewMetrics | ViewDiagnostics | ViewTests | ViewTestLog | ViewCoverage | ViewArtifacts
| ViewQueryResults | ViewLog | ViewInvocations.
#[export] Instance InspectView_eq_dec : EqDecision InspectView.
Proof. solve_decision. Defined.

Definition FOLLOW_UP : list InspectView :=
  [ViewSummary; ViewMetrics; ViewDiagnostics; ViewTests; ViewTestLog; ViewCoverage; ViewArtifacts; ViewQueryResults; ViewLog].

Definition view_as_str (v : InspectView) : string :=
  match v with
  | ViewSummary => "summary" | ViewMetrics => "metrics" | ViewDiagnostics => "diagnostics" | ViewTests => "tests"
  | ViewTestLog => "test_log" | ViewCoverage => "coverage" | ViewArtifacts => "artifacts"
  | ViewQueryResults => "query_results" | ViewLog => "log" | ViewInvocations => "invocations"
  end.

Definition view_parse (value : string) : option InspectView :=
  find_map (fun v => if bool_decide (value = view_as_str v) then Some v else None) (FOLLOW_UP ++ [ViewInvocations]).

Record InspectRequest : Type := MkInspect {
  inspect_id : option InvocationId;
  inspect_workspace : option PathBuf;
  inspect_state : option InvocationState;
  inspect_command : option BazelCommand;
  inspect_view : InspectView;
  inspect_cursor : option string;
  inspect_filter : option string;
  inspect_item_limit : Z;
  inspect_scan_limit : Z;
}.

(** ** Cursors *)

Record LogCursor : Type := MkLogCursor {
  log_id : InvocationId;
  log_view : InspectView;
  next_record : Z;
  log_filter : option string;
}.
#[export] Instance LogCursor_eq_dec : EqDecision LogCursor.
Proof. solve_decision. Defined.

(** The text of a cursor: JSON in base64, which decodes to what was encoded. *)
Class LogCursorCodec : Type := {
  log_encode : LogCursor → string;
  log_decode : string → option LogCursor;
  log_roundtrip : ∀ c, is_u64 (next_record c) → log_decode (log_encode c) = Some c;
}.

(** ** Evidence records *)

Record EvidenceRecord : Type := MkEvidenceRecord { evidence_label : option string; evidence_text : string }.

Definition should_persist_failure_evidence (command : BazelCommand) (failed : bool) : bool :=
  failed || negb (bool_decide (class command = QueryClass)).

(** [failure_evidence_priority]. *)
Definition failure_evidence_priority (line : string) : option Z :=
  let line := trim line in
  let lower := to_ascii_lowercase line in
  let base := match split_once_str " [repeated " lower with Some (base, _) => base | None => lower end in
  let contains := contains_str lower in
  let quote := String (ascii_of_nat 34) "" in
  if bool_decide (base ∈ ["failure:"; "failures:"]) || (starts_with line "test " && ends_with base " ... ok") then None
  else if contains "root_cause" || contains "panicked at" || (contains "assertion" && contains " failed") then Some 0
  else if contains "error:" || starts_with lower "error " || contains "fatal:" || contains "no such target"
          || contains "no such package" || contains "undefined reference" || contains "missing strict dependencies"
          || (contains (".go: import of " +:+ quote) && ends_with lower quote) then Some 1
  else if contains "failed:" || contains "failure" || starts_with lower "test result: failed"
          || (starts_with line "test " && ends_with line " ... FAILED") then Some 2
  else None.

Definition is_actionable_evidence (line : string) : bool := bool_decide (is_Some (failure_evidence_priority line)).

(** The lines seen so far with how often, and where each stands. *)
Record SeenLines : Type := MkSeen { seen_positions : gmap string nat; seen_lines : list (string * Z) }.

Definition see_line (s : SeenLines) (line : string) : SeenLines :=
  let line := trim line in
  if bool_decide (line = "") then s
  else
    let line := bounded_text line (4 * 1024) in
    match seen_positions s !! line with
    | Some index => MkSeen (seen_positions s) (alter (fun entry => (entry.1, u32_add entry.2 1)) index (seen_lines s))
    | None => MkSeen (<[line := length (seen_lines s)]> (seen_positions s)) (seen_lines s ++ [(line, 1)])
    end.

Definition repeated_text (entry : string * Z) : string :=
  if 1 <? entry.2 then entry.1 +:+ " [repeated " +:+ pretty entry.2 +:+ " times]" else entry.1.

Definition actionable (r : EvidenceRecord) : Prop := is_actionable_evidence (evidence_text r) = true.
#[export] Instance actionable_dec r : Decision (actionable r).
Proof. unfold actionable. apply _. Defined.

Section records.
Context `{Terminal : TerminalText}.

Definition evidence_streams (command : BazelCommand) (failed : bool) (stdout stderr : list Z) : list (list Z) :=
  let test_like := bool_decide (command ∈ [Test; Coverage]) in
  if (failed && test_like) || (negb failed && negb (bool_decide (stdout = []))) then [stdout; stderr] else [stderr; stdout].

(** The lines of both streams, in the order they are read. *)
Definition evidence_lines (command : BazelCommand) (failed : bool) (stdout stderr : list Z) : list string :=
  concat ((fun stream => lines (normalize_terminal_text stream)) <$> evidence_streams command failed stdout stderr).

Definition failure_evidence_records (command : BazelCommand) (failed : bool) (stdout stderr : list Z) : list EvidenceRecord :=
  let seen := foldl see_line (MkSeen ∅ []) (evidence_lines command failed stdout stderr) in
  let records := (fun entry => MkEvidenceRecord None (repeated_text entry)) <$> seen_lines seen in
  let fallback := filter (fun r => ¬ actionable r) records in
  take 3000 (take 1000 (filter actionable records) ++ drop (length fallback - 2000) fallback).
End records.

(** ** Pages *)

Record EvidencePage : Type := MkEvidencePage {
  evidence_items : list string;
  evidence_cursors : list string;
  evidence_truncated : bool;
  evidence_next : option string;
}.

Definition evidence_record_matches (r : EvidenceRecord) (filter : string) : bool :=
  contains_str (to_ascii_lowercase (evidence_text r)) filter
  || match evidence_label r with Some label => contains_str (to_ascii_lowercase label) filter | None => false end.

Definition TEST_LOG_FILTER_CONTEXT_LINES : nat := 1.

Definition test_log_record_matches_context (records : list EvidenceRecord) (index : nat) (filter : string) : bool :=
  let start := (index - TEST_LOG_FILTER_CONTEXT_LINES)%nat in
  let last := Nat.min (index + TEST_LOG_FILTER_CONTEXT_LINES + 1) (length records) in
  existsb (fun candidate => bool_decide (Some (evidence_label candidate) = evidence_label <$> records !! index)
                            && evidence_record_matches candidate filter)
    (take (last - start) (drop start records)).

(** [matches] of [page_evidence_records]. *)
Definition evidence_matches (view : InspectView) (filter : option string) (records : list EvidenceRecord) (index : nat) : bool :=
  match to_ascii_lowercase <$> filter with
  | None => true
  | Some filter =>
      if bool_decide (view = ViewTestLog) then test_log_record_matches_context records index filter
      else match records !! index with Some record => evidence_record_matches record filter | None => false end
  end.

Section pages.
Context `{Codec : LogCursorCodec}.

(** [decode_for]. *)
Definition decode_log_cursor_for (value : string) (id : InvocationId) (view : InspectView) (filter : option string)
    : option LogCursor :=
  c ← log_decode value;
  if bool_decide (log_id c = id) && bool_decide (log_view c = view) && bool_decide (log_filter c = filter) then Some c
  else None.

(** The record a request starts at; [None] is [InvalidOffset]. *)
Definition start_record (request : InspectRequest) (id : InvocationId) : option Z :=
  match inspect_cursor request with
  | None => Some 0
  | Some value => next_record <$> decode_log_cursor_for value id (inspect_view request) (inspect_filter request)
  end.

Record EvidenceState : Type := MkEvidenceState {
  state_items : list string;
  state_cursors : list string;
  state_next : Z;
  state_scanned : nat;
  state_stopped : bool;
}.

Section loop.
Context (id : InvocationId) (view : InspectView) (filter : option string).
Context (maximum_items maximum_scanned : nat) (start : Z) (matches : nat → bool).

Definition log_cursor (next : Z) : string := log_encode (MkLogCursor id view next filter).

(** The loop of [page_evidence_records], from the record [index] on. *)
Fixpoint evidence_loop (index : nat) (records : list EvidenceRecord) (s : EvidenceState) : EvidenceState :=
  match records with
  | [] => s
  | record :: rest =>
      if Z.of_nat index <? start then evidence_loop (S index) rest s
      else if (state_scanned s =? maximum_scanned)%nat then
        MkEvidenceState (state_items s) (state_cursors s) (state_next s) (state_scanned s) true
      else if matches index && (length (state_items s) =? maximum_items)%nat then
        MkEvidenceState (state_items s) (state_cursors s) (Z.of_nat index) (state_scanned s) true
      else
        let next := u64_add (Z.of_nat index) 1 in
        evidence_loop (S index) rest
          (if matches index
           then MkEvidenceState (state_items s ++ [evidence_text record]) (state_cursors s ++ [log_cursor next]) next
                  (S (state_scanned s)) (state_stopped s)
           else MkEvidenceState (state_items s) (state_cursors s) next (S (state_scanned s)) (state_stopped s))
  end.
End loop.

(** [page_evidence_records]; [None] is a panic of [clamp]. *)
Definition page_evidence_records (records : list EvidenceRecord) (start : Z) (request : InspectRequest) (id : InvocationId)
    : option EvidencePage :=
  '(maximum_items, maximum_scanned) ←
    page_limits (MkPageRequest None (inspect_item_limit request) (inspect_scan_limit request));
  let view := inspect_view request in
  let filter := inspect_filter request in
  let s := evidence_loop id view filter maximum_items maximum_scanned start (evidence_matches view filter records)
             0 records (MkEvidenceState [] [] start 0 false) in
  Some (MkEvidencePage (state_items s) (state_cursors s) (state_stopped s)
          (if state_stopped s then Some (log_cursor id view filter (state_next s)) else None)).
End pages.

(** * Theorems *)

Lemma view_parse_as_str v : view_parse (view_as_str v) = Some v.
Proof. by destruct v. Qed.

Lemma view_parse_Some value v : view_parse value = Some v → value = view_as_str v.
Proof.
  unfold view_parse. cbn [find_map FOLLOW_UP app]. intros Hparse.
  repeat (case_bool_decide; [by injection Hparse as <-|]). done.
Qed.

(** ** One page *)

Section one_page.
Context (matches : nat → bool).

(** The matching records from [k] on, before [c]. *)
Definition positions (k c : nat) : list nat := base.filter (fun i => matches i = true) (seq k (c - k)).

Lemma positions_app k c c' : (k ≤ c ≤ c')%nat → positions k c' = positions k c ++ positions c c'.
Proof.
  intros Hk. unfold positions. rewrite <- filter_app. f_equal.
  replace (c' - k)%nat with ((c - k) + (c' - c))%nat by lia. rewrite seq_app. do 2 f_equal. lia.
Qed.

Lemma positions_step k : positions k (S k) = if matches k then [k] else [].
Proof.
  unfold positions. replace (S k - k)%nat with 1%nat by lia. cbn [seq]. rewrite filter_cons, filter_nil.
  destruct (matches k); [by rewrite decide_True|by rewrite decide_False].
Qed.

Lemma positions_empty k : positions k k = [].
Proof. unfold positions. by rewrite Nat.sub_diag. Qed.

Lemma positions_lookup k c n p : positions k c !! n = Some p →
  (k ≤ p < c)%nat ∧ matches p = true ∧ positions k (S p) = take (S n) (positions k c).
Proof.
  intros Hn. pose proof (list_elem_of_lookup_2 _ _ _ Hn) as Hin. apply list_elem_of_filter in Hin as [Hm Hp%elem_of_seq].
  assert (Hrange : (k ≤ p < c)%nat) by lia. split_and!; [lia|lia|done|].
  rewrite (positions_app k p c) in Hn |- * by lia. rewrite (positions_app p (S p) c) in Hn |- * by lia.
  rewrite positions_step, Hm in Hn |- *. rewrite (positions_app k p (S p)), positions_step, Hm by lia.
  assert (Hpos : n = length (positions k p)).
  { destruct (Nat.lt_trichotomy n (length (positions k p))) as [Hlt | [-> | Hgt]]; [|done|].
    - rewrite lookup_app_l in Hn by done. apply list_elem_of_lookup_2, list_elem_of_filter in Hn as [_ Hn%elem_of_seq]. lia.
    - rewrite lookup_app_r in Hn by lia. replace (n - length (positions k p))%nat with (S (n - length (positions k p) - 1)) in Hn by lia.
      cbn in Hn. apply list_elem_of_lookup_2, list_elem_of_filter in Hn as [_ Hn%elem_of_seq]. lia. }
  subst n. rewrite firstn_app. rewrite take_ge by lia. replace (S (length (positions k p)) - length (positions k p))%nat with 1%nat by lia.
  done.
Qed.

Context `{Codec : LogCursorCodec} (id : InvocationId) (view : InspectView) (filter : option string) (records : list EvidenceRecord).

Definition text_at (i : nat) : string := match records !! i with Some r => evidence_text r | None => "" end.
Definition matching_texts (k : nat) : list string := text_at <$> positions k (length records).

Context (Hlength : Z.of_nat (length records) ≤ u64_max).
Context (maximum_items maximum_scanned : nat) (Hitems : (0 < maximum_items)%nat) (Hscanned : (0 < maximum_scanned)%nat).
Abbreviation cursor_after := (fun p : nat => log_cursor id view filter (Z.of_nat (S p))).

Lemma evidence_skip k index s :
  (index ≤ k)%nat →
  evidence_loop id view filter maximum_items maximum_scanned (Z.of_nat k) matches index (drop index records) s =
  evidence_loop id view filter maximum_items maximum_scanned (Z.of_nat k) matches k (drop k records) s.
Proof.
  intros Hindex. remember (k - index)%nat as n eqn:Hn. revert index Hindex Hn.
  induction n as [|n IH]; intros index Hindex Hn; [by replace index with k by lia|].
  destruct (drop index records) as [|r rest] eqn:Hdrop.
  { apply (f_equal length) in Hdrop. rewrite length_drop in Hdrop. cbn in Hdrop. by rewrite (drop_ge records k) by lia. }
  cbn [evidence_loop]. destruct (Z.ltb_spec (Z.of_nat index) (Z.of_nat k)); [|lia].
  assert (rest = drop (S index) records) as -> by (rewrite <- Nat.add_1_r, <- drop_drop, Hdrop; done).
  apply IH; lia.
Qed.

(** What the loop has done when it stops at [c]. *)
Lemma evidence_loop_spec k i s :
  (k ≤ i ≤ length records)%nat →
  s = MkEvidenceState (text_at <$> positions k i) (cursor_after <$> positions k i) (Z.of_nat i) (i - k) false →
  ∃ c, (i ≤ c ≤ length records)%nat ∧
    evidence_loop id view filter maximum_items maximum_scanned (Z.of_nat k) matches i (drop i records) s
    = MkEvidenceState (text_at <$> positions k c) (cursor_after <$> positions k c) (Z.of_nat c) (c - k)
        (bool_decide (c < length records)%nat) ∧
    ((c < length records)%nat → (k < c)%nat).
Proof.
  remember (length records - i)%nat as n eqn:Hn. revert i s Hn.
  induction n as [|n IH]; intros i s Hn Hi ->.
  { exists i. rewrite drop_ge by lia. cbn [evidence_loop]. split; [lia|]. rewrite bool_decide_false by lia. split; [done|lia]. }
  destruct (drop i records) as [|r rest] eqn:Hdrop.
  { apply (f_equal length) in Hdrop. rewrite length_drop in Hdrop. cbn in Hdrop. lia. }
  assert (Hr : records !! i = Some r) by (rewrite <- (Nat.add_0_r i), <- lookup_drop, Hdrop; done).
  assert (rest = drop (S i) records) as -> by (rewrite <- Nat.add_1_r, <- drop_drop, Hdrop; done).
  cbn [evidence_loop state_scanned state_items state_next state_cursors state_stopped].
  destruct (Z.ltb_spec (Z.of_nat i) (Z.of_nat k)); [lia|].
  destruct (Nat.eqb_spec (i - k) maximum_scanned) as [Hfull | _].
  { exists i. split; [lia|]. rewrite bool_decide_true by lia. split; [done|]. lia. }
  destruct (matches i && (length (text_at <$> positions k i) =? maximum_items)%nat) eqn:Hstop.
  { exists i. split; [lia|]. rewrite bool_decide_true by lia. split; [done|]. intros _.
    apply andb_true_iff in Hstop as [_ Hstop%Nat.eqb_eq]. destruct (decide (i = k)) as [-> | ]; [|lia].
    rewrite positions_empty in Hstop. cbn in Hstop. lia. }
  destruct (IH (S i) (MkEvidenceState (text_at <$> positions k (S i)) (cursor_after <$> positions k (S i)) (Z.of_nat (S i))
    (S i - k) false)) as (c & Hc & Hloop & Hprogress); [lia|lia|done|].
  exists c. split; [lia|]. split; [|done]. rewrite <- Hloop. f_equal.
  rewrite (positions_app k i (S i)), positions_step by lia. rewrite u64_add_exact by lia.
  replace (Z.of_nat i + 1) with (Z.of_nat (S i)) by lia. replace (S i - k)%nat with (S (i - k)) by lia.
  destruct (matches i); rewrite ?app_nil_r, ?fmap_app; [|done]. cbn. unfold text_at at 3. by rewrite Hr.
Qed.

(** A page that starts at record [k] ends at some record [c]. *)
Lemma evidence_page_spec k :
  (k ≤ length records)%nat →
  ∃ c, (k ≤ c ≤ length records)%nat ∧ ((c < length records)%nat → (k < c)%nat) ∧
    evidence_loop id view filter maximum_items maximum_scanned (Z.of_nat k) matches 0 records
      (MkEvidenceState [] [] (Z.of_nat k) 0 false)
    = MkEvidenceState (text_at <$> positions k c) (cursor_after <$> positions k c) (Z.of_nat c) (c - k)
        (bool_decide (c < length records)%nat).
Proof.
  intros Hk. pose proof (evidence_skip k 0 (MkEvidenceState [] [] (Z.of_nat k) 0 false)) as Hskip.
  rewrite drop_0 in Hskip. rewrite Hskip by lia.
  destruct (evidence_loop_spec k k (MkEvidenceState [] [] (Z.of_nat k) 0 false)) as (c & Hc & Hloop & Hprogress); [lia| |].
  - by rewrite positions_empty, Nat.sub_diag.
  - exists c. rewrite Hloop. split; [lia|]. by split.
Qed.
End one_page.

(** ** The lines of a failure *)

(** The text of a line that is kept. *)
Definition kept_line (line : string) : option string :=
  let line := trim line in if bool_decide (line = "") then None else Some (bounded_text line (4 * 1024)).

(** The distinct lines, in the order of their first occurrence. *)
Definition firsts (ls : list string) : list string := reverse (remove_dups (reverse ls)).

(** A line with the number of its occurrences, up to the largest [u32]. *)
Definition occurrences (l : string) (ls : list string) : Z := Z.min (Z.of_nat (length (filter (eq l) ls))) u32_max.
Definition counted (ls : list string) (l : string) : string * Z := (l, occurrences l ls).

Lemma filter_app_complement {A} (P : A → Prop) `{!∀ x, Decision (P x)} (l : list A) :
  filter P l ++ filter (fun x => ¬ P x) l ≡ₚ l.
Proof.
  induction l as [|x l IH]; [done|]. rewrite !filter_cons. destruct (decide (P x)) as [Hx | Hx].
  - rewrite decide_False by tauto. cbn. by rewrite IH.
  - rewrite decide_True by done. by rewrite <- Permutation_middle, IH.
Qed.

Lemma firsts_snoc ls l : firsts (ls ++ [l]) = if bool_decide (l ∈ ls) then firsts ls else firsts ls ++ [l].
Proof.
  unfold firsts. rewrite reverse_snoc. cbn [remove_dups].
  destruct (decide_rel elem_of l (reverse ls)) as [Hr | Hr]; rewrite elem_of_reverse in Hr.
  - by rewrite bool_decide_true.
  - by rewrite bool_decide_false, reverse_cons.
Qed.

Lemma elem_of_firsts l ls : l ∈ firsts ls ↔ l ∈ ls.
Proof. unfold firsts. by rewrite elem_of_reverse, elem_of_remove_dups, elem_of_reverse. Qed.

Lemma NoDup_firsts ls : NoDup (firsts ls).
Proof. unfold firsts. rewrite reverse_Permutation. apply NoDup_remove_dups. Qed.

Lemma occurrences_snoc l l' ls :
  occurrences l' (ls ++ [l]) = if bool_decide (l = l') then u32_add (occurrences l' ls) 1 else occurrences l' ls.
Proof.
  unfold occurrences. rewrite filter_app, length_app, filter_cons, filter_nil. unfold u32_add.
  case_bool_decide; case_decide; try congruence; cbn [length]; unfold u32_max; lia.
Qed.

Lemma occurrences_absent l ls : l ∉ ls → occurrences l ls = 0.
Proof.
  intros Hl. unfold occurrences. replace (filter (eq l) ls) with (@nil string); [done|].
  symmetry. induction ls as [|x ls IH]; [done|]. apply not_elem_of_cons in Hl as [Hx Hl].
  rewrite filter_cons_False by done. by apply IH.
Qed.

Record SeenAll (ls : list string) (s : SeenLines) : Prop := {
  seen_are : seen_lines s = counted ls <$> firsts ls;
  seen_index : ∀ l i, seen_positions s !! l = Some i ↔ firsts ls !! i = Some l;
}.

Lemma see_line_step ls s line :
  SeenAll ls s → SeenAll (ls ++ option_list (kept_line line)) (see_line s line).
Proof.
  intros [Hlines Hindex]. unfold see_line, kept_line. case_bool_decide; [by rewrite app_nil_r|].
  set (l := bounded_text (trim line) (4 * 1024)). change (option_list (Some l)) with [l]. destruct (seen_positions s !! l) as [i|] eqn:Hl.
  - apply Hindex in Hl. assert (l ∈ ls) as Hin by (by apply elem_of_firsts, (list_elem_of_lookup_2 _ i)).
    split; cbn [seen_lines seen_positions]; rewrite firsts_snoc, bool_decide_true by done; [|done].
    rewrite Hlines. apply list_eq. intros j. rewrite list_lookup_fmap.
    destruct (decide (j = i)) as [-> | Hne].
    + rewrite list_lookup_alter_eq, list_lookup_fmap, Hl. cbn. unfold counted. by rewrite occurrences_snoc, bool_decide_true.
    + rewrite list_lookup_alter_ne, list_lookup_fmap by done. destruct (firsts ls !! j) as [l'|] eqn:Hl'; [|done]. cbn.
      unfold counted. rewrite occurrences_snoc, bool_decide_false; [done|]. intros <-.
      by apply Hne, (NoDup_lookup (firsts ls) j i l); [apply NoDup_firsts|..].
  - assert (l ∉ ls) as Hnew.
    { intros Hin. apply elem_of_firsts, list_elem_of_lookup in Hin as [i Hi]. apply Hindex in Hi. congruence. }
    split; cbn [seen_lines seen_positions]; rewrite firsts_snoc, bool_decide_false by done.
    + rewrite fmap_app, Hlines. f_equal.
      * apply list_fmap_ext. intros j l' Hj. unfold counted. rewrite occurrences_snoc, bool_decide_false; [done|]. intros <-.
        apply Hnew, elem_of_firsts, (list_elem_of_lookup_2 _ j), Hj.
      * cbn. unfold counted. by rewrite occurrences_snoc, bool_decide_true, occurrences_absent.
    + intros l' i. rewrite Hlines, length_fmap. destruct (decide (l' = l)) as [-> | Hne].
      * rewrite lookup_insert_eq. split.
        -- intros [= <-]. by rewrite lookup_app_r, Nat.sub_diag by done.
        -- intros Hi. f_equal. destruct (decide (i < length (firsts ls))%nat) as [Hlt | Hge].
           ++ rewrite lookup_app_l in Hi by done. exfalso. apply Hnew, elem_of_firsts, (list_elem_of_lookup_2 _ i), Hi.
           ++ rewrite lookup_app_r in Hi by lia. apply list_lookup_singleton_Some in Hi as [Hi _]. lia.
      * rewrite lookup_insert_ne, Hindex by done. split.
        -- intros Hi. apply lookup_app_l_Some, Hi.
        -- intros [Hi | [_ Hi]]%lookup_app_Some; [done|]. apply list_lookup_singleton_Some in Hi as [_ ->]. done.
Qed.

Lemma see_lines_all lines : SeenAll (omap kept_line lines) (foldl see_line (MkSeen ∅ []) lines).
Proof.
  rewrite <- (reverse_involutive lines). generalize (reverse lines) as rs. induction rs as [|line rs IH].
  - split; [done|]. intros l i. cbn. rewrite lookup_empty. by split.
  - rewrite reverse_cons, foldl_app, omap_app. cbn [foldl omap list_omap].
    replace (match kept_line line with Some y => y :: _ | None => _ end) with (option_list (kept_line line)) by (by destruct (kept_line line)).
    by apply see_line_step.
Qed.

(** The evidence kept of an invocation are its distinct lines, each once with
    the number of its occurrences, those that call for action before the others and
    otherwise in the order of their first occurrence.  At most 1000 of the former
    and the last 2000 of the latter are kept; below these limits nothing is lost. *)
Theorem failure_evidence_spec `{TerminalText} command failed stdout stderr :
  let ls := omap kept_line (evidence_lines command failed stdout stderr) in
  let entries := (fun l => MkEvidenceRecord None (repeated_text (counted ls l))) <$> firsts ls in
  let urgent := filter actionable entries in
  let other := filter (fun r => ¬ actionable r) entries in
  let records := failure_evidence_records command failed stdout stderr in
  records = take 1000 urgent ++ drop (length other - 2000) other ∧ (length records ≤ 3000)%nat ∧
  ((length urgent ≤ 1000)%nat → (length other ≤ 2000)%nat → records ≡ₚ entries).
Proof.
  intros ls entries urgent other records.
  assert (Hentries : (fun entry => MkEvidenceRecord None (repeated_text entry)) <$>
            seen_lines (foldl see_line (MkSeen ∅ []) (evidence_lines command failed stdout stderr)) = entries).
  { rewrite (seen_are _ _ (see_lines_all _)). unfold entries. by rewrite <- list_fmap_compose. }
  assert (Hrecords : records = take 3000 (take 1000 urgent ++ drop (length other - 2000) other)).
  { unfold records, failure_evidence_records. by rewrite Hentries. }
  assert (Hlength : (length (take 1000 urgent ++ drop (length other - 2000) other) ≤ 3000)%nat).
  { rewrite length_app, length_take, length_drop. lia. }
  rewrite take_ge in Hrecords by lia. rewrite Hrecords. split_and!; [done|done|]. intros Hurgent Hother.
  rewrite take_ge, (proj2 (Nat.sub_0_le _ _)), drop_0 by lia. apply filter_app_complement.
Qed.
