(* ===== verification/Inspection.v ===== *)
(** * Inspection (crates/bazel-mcp-runner/src/inspection.rs, the results of
    crates/bazel-mcp-types/src/inspection.rs and the paging operations of
    crates/bazel-mcp-store/src/storage.rs)

    [inspect] reads an invocation back, view by view and page by page.  The
    lists the store keeps are paged by the store; the evidence lines of a failure
    are files of JSON lines that the runner writes once and pages itself; the
    reasons why test logs are missing are paged out of the stored tests.  A page
    may be cut down to fewer items before it is shown ([truncate_items]), and its
    cursor then points behind the last item that is left. *)

From stdpp Require Import pretty.
From Stdlib Require Import Ascii.
From S2P Require Import Prelude Collections Types Diagnostics Record Cursor Index Store QueryPaging Retention Listing Redaction Text Runner Sanitize Artifacts Outcome Evidence.
#[global] Open Scope Z_scope.
#[local] Arguments String.append !_ _ / : simpl nomatch.

(** ** Results *)

Record InspectCoverageSummary : Type := MkInspectCoverage {
  inspect_lines_found : Z; inspect_lines_hit : Z; inspect_coverage_percent : f64;
}.

Record InspectSummary : Type := MkInspectSummary {
  shown_success : bool;
  shown_headline : string;
  shown_targets : TargetCounts;
  shown_tests : TestCounts;
  shown_diagnostics : list Diagnostic;
  shown_coverage : option InspectCoverageSummary;
  shown_query_result_count : option Z;
  shown_query_sample : list QueryRow;
  shown_run : option RunSummary;
  shown_elapsed_ms : Z;
  shown_truncated : bool;
  shown_inspect_hint : option InspectHint;
}.

Record InspectMetrics : Type := MkInspectMetrics {
  metrics_state : InvocationState;
  metrics_requested_at_ms : Z;
  metrics_started_at_ms : option Z;
  metrics_finished_at_ms : option Z;
  metrics_termination : option Termination;
  metrics_metrics : InvocationMetrics;
}.

Inductive InspectCoverageItem : Type :=
| CoverageItem (file : CoverageFile)
| CoverageUnavailable (availability_reason : string) (artifact : option Artifact).

Record InvocationLedgerEntry : Type := MkLedger {
  ledger_id : InvocationId;
  ledger_workspace : string;
  ledger_state : InvocationState;
  ledger_command : BazelCommand;
  ledger_arguments : list string;
  ledger_arguments_truncated : bool;
  ledger_requested_at_ms : Z;
  ledger_finished_at_ms : option Z;
  ledger_exit_code : option Z;
  ledger_duration_ms : Z;
  ledger_headline : option string;
  ledger_targets : option TargetCounts;
  ledger_tests : option TestCounts;
  ledger_raw_output_bytes : Z;
  ledger_model_visible_bytes : Z;
  ledger_inspect_calls : Z;
}.

Inductive InspectPayload : Type :=
| PSummary (items : list InspectSummary)
| PMetrics (items : list InspectMetrics)
| PDiagnostics (items : list Diagnostic)
| PTests (items : list TestResult)
| PTestLog (items : list string)
| PCoverage (items : list InspectCoverageItem)
| PArtifacts (items : list Artifact)
| PQueryResults (items : list QueryRow)
| PLog (items : list string)
| PInvocations (items : list InvocationLedgerEntry).

Definition payload_view (p : InspectPayload) : InspectView :=
  match p with
  | PSummary _ => ViewSummary | PMetrics _ => ViewMetrics | PDiagnostics _ => ViewDiagnostics | PTests _ => ViewTests
  | PTestLog _ => ViewTestLog | PCoverage _ => ViewCoverage | PArtifacts _ => ViewArtifacts
  | PQueryResults _ => ViewQueryResults | PLog _ => ViewLog | PInvocations _ => ViewInvocations
  end.

Definition payload_len (p : InspectPayload) : nat :=
  match p with
  | PSummary items => length items | PMetrics items => length items | PDiagnostics items => length items
  | PTests items => length items | PTestLog items | PLog items => length items | PCoverage items => length items
  | PArtifacts items => length items | PQueryResults items => length items | PInvocations items => length items
  end.

Definition payload_truncate (len : nat) (p : InspectPayload) : InspectPayload :=
  match p with
  | PSummary items => PSummary (take len items) | PMetrics items => PMetrics (take len items)
  | PDiagnostics items => PDiagnostics (take len items) | PTests items => PTests (take len items)
  | PTestLog items => PTestLog (take len items) | PCoverage items => PCoverage (take len items)
  | PArtifacts items => PArtifacts (take len items) | PQueryResults items => PQueryResults (take len items)
  | PLog items => PLog (take len items) | PInvocations items => PInvocations (take len items)
  end.

Record InspectResult : Type := MkInspectResult {
  result_invocation_id : option InvocationId;
  result_view : InspectView;
  result_items : InspectPayload;
  result_total_count : option Z;
  result_filtered_count : option Z;
  result_next_cursor : option string;
  result_truncated : bool;
  result_start_cursor : option string;
  result_item_cursors : list string;
}.

Definition new_inspect_result (id : option InvocationId) (items : InspectPayload) (total filtered : option Z)
    (next : option string) (truncated : bool) (cursors : list string) : InspectResult :=
  MkInspectResult id (payload_view items) items total filtered next truncated None cursors.

Definition with_start_cursor (start : option string) (r : InspectResult) : InspectResult :=
  MkInspectResult (result_invocation_id r) (result_view r) (result_items r) (result_total_count r)
    (result_filtered_count r) (result_next_cursor r) (result_truncated r) start (result_item_cursors r).

Definition truncate_items (len : nat) (r : InspectResult) : InspectResult :=
  if (payload_len (result_items r) <=? len)%nat then r
  else MkInspectResult (result_invocation_id r) (result_view r) (payload_truncate len (result_items r))
         (result_total_count r) (result_filtered_count r)
         (match len with O => result_start_cursor r | S index => result_item_cursors r !! index end)
         true (result_start_cursor r) (take len (result_item_cursors r)).

Definition invocation_ledger_row (h : InvocationHeader) : InvocationLedgerEntry :=
  MkLedger (request_id (header_request h)) (bounded_text (workspace (header_request h)) 256) (header_state h)
    (command (header_request h)) ((fun argument => bounded_text argument 128) <$> take 3 (arguments (header_request h)))
    (bool_decide (3 < length (arguments (header_request h)))%nat) (requested_at_ms (header_request h))
    (header_finished_at_ms h)
    (match header_termination h with Some (Exit code) => Some code | _ => None end)
    (bazel_wall_ms (header_metrics h))
    ((fun s => bounded_text (header_headline s) 256) <$> header_summary h)
    (header_target_counts <$> header_summary h) (header_test_counts <$> header_summary h)
    (raw_output_bytes (header_metrics h)) (model_visible_bytes (header_metrics h)) (inspect_calls (header_metrics h)).

(** ** Evidence files *)

(** [serde_json] on an evidence record: one line, which reads back. *)
Class EvidenceJson : Type := {
  evidence_to_json : EvidenceRecord → string;
  evidence_from_json : string → result string EvidenceRecord;
  evidence_json_roundtrip : ∀ r, evidence_from_json (evidence_to_json r) = Ok r;
  evidence_json_line : ∀ r, newline ∉ String.list_ascii_of_string (evidence_to_json r);
  evidence_json_end : ∀ r, chomp (evidence_to_json r) = evidence_to_json r;
}.

(** [while let Some(line) = lines.next_line()]. *)
Fixpoint parse_records `{EvidenceJson} {IoError RegexError} (ls : list string)
    : result (RunnerError IoError RegexError) (list EvidenceRecord) :=
  match ls with
  | [] => Ok []
  | line :: rest =>
      match evidence_from_json line with
      | Err message => Err (RJson message)
      | Ok record => records ← parse_records rest; Ok (record :: records)
      end
  end.

(** [read_bounded_tail] of a file, [None] if it is missing. *)
Definition read_bounded_tail (file : option (list Z)) (max_bytes : Z) : list Z :=
  match file with
  | None => []
  | Some bytes =>
      let len := Z.of_nat (length bytes) in
      let tail_length := Z.min len max_bytes in
      take (Z.to_nat tail_length) (drop (Z.to_nat (len - tail_length)) bytes)
  end.

(** What the directory of an invocation holds; [Ok None] is a missing file, [Err]
    a file that cannot be opened. *)
Record InvocationFiles (IoError : Type) : Type := MkFiles {
  file_evidence : result IoError (option string);
  file_test_log_exists : bool;
  file_test_log : result IoError (option string);
  file_stdout : result IoError (option (list Z));
  file_stderr : result IoError (option (list Z));
  file_query : option (Z → list (result StoreError (list Z)));
}.
Arguments MkFiles {_} _ _ _ _ _ _.
Arguments file_evidence {_} _.
Arguments file_test_log_exists {_} _.
Arguments file_test_log {_} _.
Arguments file_stdout {_} _.
Arguments file_stderr {_} _.
Arguments file_query {_} _.

(** ** The store's pages *)

(** Computations that panic ([None]) or fail. *)
Definition attempt {E A B} (m : option (result E A)) (k : A → option (result E B)) : option (result E B) :=
  match m with Some (Ok a) => k a | Some (Err e) => Some (Err e) | None => None end.

Section store_pages.
Context `{Text : IdText} `{Files : Serializer}.

Definition page_diagnostics (s : StoreInner) (id : InvocationId) (filter : option string) (page : PageRequest)
    : option (result StoreError (Page Diagnostic)) :=
  attempt (Some (get_invocation_header s id)) (fun header =>
    page_records "diagnostics" (id_to_string id) filter
      (fun item => message item +:+ " " +:+ default "" (diagnostic_target item)) page
      (match header_summary header with Some summary => header_diagnostics summary | None => [] end)).

Definition read_details (s : StoreInner) (id : InvocationId) : result StoreError InvocationDetails :=
  _ ← ensure_invocation s id;
  Ok (default default_details (disk s !! id ≫= details_file)).

Definition page_tests (s : StoreInner) (id : InvocationId) (filter : option string) (page : PageRequest)
    : option (result StoreError (Page TestResult)) :=
  attempt (Some (read_details s id)) (fun details =>
    page_records "test_results" (id_to_string id) filter test_label page (details_tests details)).

Definition page_artifacts (s : StoreInner) (id : InvocationId) (filter : option string) (page : PageRequest)
    : option (result StoreError (Page Artifact)) :=
  attempt (Some (ensure_invocation s id)) (fun _ =>
    page_records "artifacts" (id_to_string id) filter (fun item => artifact_name item +:+ " " +:+ uri item) page
      (default [] (disk s !! id ≫= artifacts_file))).

Definition page_coverage (s : StoreInner) (id : InvocationId) (filter : option string) (page : PageRequest)
    : option (result StoreError (Page CoverageFile)) :=
  attempt (Some (read_details s id)) (fun details =>
    page_records "coverage_files" (id_to_string id) filter coverage_path page (details_coverage_files details)).

Definition page_query_rows (s : StoreInner) (file : option (Z → list (result StoreError (list Z)))) (id : InvocationId)
    (filter : option string) (page : PageRequest) (transform : string → string → string)
    : option (result StoreError (Page QueryRow)) :=
  attempt (Some (get_invocation_header s id)) (fun header =>
    page_query_rows_mapped_into file (id_to_string id) (header_state header)
      (header_summary header ≫= header_query_result_count) filter page transform).
End store_pages.

(** ** The runner's pages *)

Section inspection.
Context {IoError RegexError : Type}.
Context `{Text : IdText} `{Files : Serializer} `{Redactor : BoundedRedactor} `{Terminal : TerminalText}.
Context `{Codec : LogCursorCodec} `{Json : EvidenceJson} (not_found : IoError).
Abbreviation RunnerError := (RunnerError IoError RegexError).

(** [?] on a [StoreError]. *)
Definition from_store {A} (m : option (result StoreError A)) : option (result RunnerError A) :=
  match m with Some (Ok a) => Some (Ok a) | Some (Err e) => Some (Err (RStore e)) | None => None end.
Definition from_io {A} (m : result IoError A) : result RunnerError A :=
  match m with Ok a => Ok a | Err e => Err (RIo e) end.
Definition from_option {A} (error : RunnerError) (m : option A) : result RunnerError A :=
  match m with Some a => Ok a | None => Err error end.
Definition from_panic {A} (m : option A) : option (result RunnerError A) := Ok <$> m.

(** The bytes [persist_failure_evidence] writes. *)
Definition persisted_record (workspace : string) (r : EvidenceRecord) : EvidenceRecord :=
  MkEvidenceRecord (evidence_label r) (redact_str (replace (evidence_text r) workspace "<workspace>") (4 * 1024)).
Definition json_lines (records : list EvidenceRecord) : string :=
  foldr (fun r rest => evidence_to_json r +:+ String newline rest) "" records.
Definition persist_failure_evidence (workspace : string) (command : BazelCommand) (failed : bool) (stdout stderr : list Z)
    : string :=
  json_lines (persisted_record workspace <$> failure_evidence_records command failed stdout stderr).

Definition read_evidence_page (file : result IoError (option string)) (files : InvocationFiles IoError)
    (request : InspectRequest) : option (result RunnerError EvidencePage) :=
  attempt (Some (from_option (RStore InvalidCursor) (inspect_id request))) (fun id =>
  attempt (Some (from_option InvalidOffset (start_record request id))) (fun start =>
  match file with
  | Err error => Some (Err (RIo error))
  | Ok None =>
      if bool_decide (inspect_view request = ViewLog) then
        attempt (Some (from_io (file_stdout files))) (fun stdout =>
        attempt (Some (from_io (file_stderr files))) (fun stderr =>
          from_panic (page_evidence_records
            (failure_evidence_records (Custom "retained") true (read_bounded_tail stdout (1024 * 1024))
               (read_bounded_tail stderr (1024 * 1024)))
            start request id)))
      else Some (Err (RIo not_found))
  | Ok (Some content) =>
      attempt (Some (parse_records (lines content))) (fun records => from_panic (page_evidence_records records start request id))
  end)).

(** *** The reasons of missing test logs *)

Definition reason_text (t : TestResult) (reason : string) : string :=
  redact_str (test_label t +:+ ": " +:+ reason) (4 * 1024).
Definition reason_matches (filter : option string) (text : string) : bool :=
  match to_ascii_lowercase <$> filter with None => true | Some filter => contains_str (to_ascii_lowercase text) filter end.

(** The inner loop, over the tests of one stored page: the number of reasons so
    far and the state, which is stopped when the page is full. *)
Fixpoint reasons_loop (id : InvocationId) (view : InspectView) (filter : option string)
    (maximum_items maximum_scanned : nat) (start : Z) (tests : list TestResult) (reason_index : Z) (s : EvidenceState)
    : Z * EvidenceState :=
  match tests with
  | [] => (reason_index, s)
  | t :: rest =>
      let continue := reasons_loop id view filter maximum_items maximum_scanned start rest in
      match test_log_unavailable_reason t with
      | None => continue reason_index s
      | Some reason =>
          let index := reason_index in
          let reason_index := u64_add reason_index 1 in
          if index <? start then continue reason_index s
          else if (state_scanned s =? maximum_scanned)%nat then
            (reason_index, MkEvidenceState (state_items s) (state_cursors s) (state_next s) (state_scanned s) true)
          else
            let text := reason_text t reason in
            let matches := reason_matches filter text in
            if matches && (length (state_items s) =? maximum_items)%nat then
              (reason_index, MkEvidenceState (state_items s) (state_cursors s) index (state_scanned s) true)
            else
              let next := u64_add index 1 in
              continue reason_index
                (if matches
                 then MkEvidenceState (state_items s ++ [text]) (state_cursors s ++ [log_cursor id view filter next]) next
                        (S (state_scanned s)) (state_stopped s)
                 else MkEvidenceState (state_items s) (state_cursors s) next (S (state_scanned s)) (state_stopped s))
      end
  end.

Definition stopped_page (id : InvocationId) (request : InspectRequest) (s : EvidenceState) : EvidencePage :=
  MkEvidencePage (state_items s) (state_cursors s) (state_stopped s)
    (if state_stopped s then Some (log_cursor id (inspect_view request) (inspect_filter request) (state_next s)) else None).

(** The outer loop, over the stored pages. *)
Fixpoint unavailable_loop (fuel : nat) (s : StoreInner) (id : InvocationId) (request : InspectRequest)
    (maximum_items maximum_scanned : nat) (start : Z) (storage_cursor : option string) (reason_index : Z)
    (state : EvidenceState) : option (result RunnerError EvidencePage) :=
  match fuel with
  | O => None
  | S fuel =>
      attempt (from_store (page_tests s id None (new_page_request storage_cursor 100))) (fun page =>
        let '(reason_index, state) :=
          reasons_loop id (inspect_view request) (inspect_filter request) maximum_items maximum_scanned start
            (Types.items page) reason_index state in
        if state_stopped state || negb (page_truncated page) then Some (Ok (stopped_page id request state))
        else unavailable_loop fuel s id request maximum_items maximum_scanned start (next_cursor page) reason_index state)
  end.

Definition stored_tests (s : StoreInner) (id : InvocationId) : list TestResult :=
  match read_details s id with Ok details => details_tests details | Err _ => [] end.

Definition read_test_log_unavailable_page (s : StoreInner) (id : InvocationId) (request : InspectRequest)
    : option (result RunnerError EvidencePage) :=
  attempt (Some (from_option InvalidOffset (start_record request id))) (fun start =>
    '(maximum_items, maximum_scanned) ←
      page_limits (MkPageRequest None (inspect_item_limit request) (inspect_scan_limit request));
    unavailable_loop (S (length (stored_tests s id))) s id request maximum_items maximum_scanned start None 0
      (MkEvidenceState [] [] start 0 false)).

(** *** The views *)

Definition page_result {A} (id : InvocationId) (payload : list A → InspectPayload) (page : Page A) : InspectResult :=
  new_inspect_result (Some id) (payload (Types.items page)) (Types.total_count page) (Types.filtered_count page) (next_cursor page)
    (page_truncated page) (item_cursors page).
Definition evidence_result (id : InvocationId) (payload : list string → InspectPayload) (page : EvidencePage) : InspectResult :=
  new_inspect_result (Some id) (payload (evidence_items page)) None None (evidence_next page) (evidence_truncated page)
    (evidence_cursors page).

Definition inspect_summary (r : InvocationRecord) (s : InvocationSummary) : InspectSummary :=
  MkInspectSummary (success s) (headline s) (target_counts s) (test_counts s) (diagnostics s)
    ((fun c => MkInspectCoverage (lines_found c) (lines_hit c) (coverage_percent c)) <$> coverage s)
    (query_result_count s) (query_sample s) (run r) (elapsed_ms s) (truncated s) (inspect_hint s).

Definition summary_result (id : InvocationId) (r : InvocationRecord) : InspectResult :=
  let count := Some (if bool_decide (is_Some (summary r)) then 1 else 0) in
  new_inspect_result (Some id) (PSummary (option_list (inspect_summary r <$> summary r))) count count None
    (match summary r with Some s => truncated s | None => false end) [].

Definition metrics_result (id : InvocationId) (r : InvocationRecord) : InspectResult :=
  new_inspect_result (Some id)
    (PMetrics [MkInspectMetrics (state r) (requested_at_ms (request r)) (started_at_ms r) (finished_at_ms r)
                 (termination r) (metrics r)])
    (Some 1) (Some 1) None false [].

(** The coverage artifacts that are not on this machine. *)
Definition missing_coverage (entry : Artifact * string) : bool :=
  bool_decide (artifact_kind entry.1 = CoverageArtifact) && negb (locally_available entry.1).

Definition unavailable_coverage (id : InvocationId) (artifacts : Page Artifact) : InspectResult :=
  let missing := base.filter (fun entry => missing_coverage entry = true) (zip (Types.items artifacts) (item_cursors artifacts)) in
  let found := (fun entry => CoverageUnavailable "remote_artifact_unavailable" (Some entry.1)) <$> missing in
  let shown := if (length found =? 0)%nat then [CoverageUnavailable "coverage_artifact_not_found" None] else found in
  let count := Some (Z.of_nat (length shown)) in
  new_inspect_result (Some id) (PCoverage shown) count count (next_cursor artifacts) (page_truncated artifacts)
    (missing.*2).

Definition coverage_result (s : StoreInner) (id : InvocationId) (request : InspectRequest) (page : PageRequest)
    : option (result RunnerError InspectResult) :=
  attempt (from_store (page_coverage s id (inspect_filter request) page)) (fun page =>
    if (length (Types.items page) =? 0)%nat then
      attempt (from_store (page_artifacts s id (inspect_filter request)
                 (MkPageRequest None (inspect_item_limit request) (inspect_scan_limit request)))) (fun artifacts =>
        Some (Ok (unavailable_coverage id artifacts)))
    else Some (Ok (page_result id (fun items => PCoverage (CoverageItem <$> items)) page))).

(** The page a request asks the store for. *)
Definition store_page (request : InspectRequest) : option PageRequest :=
  limit ← clamp (inspect_item_limit request) 1 100;
  Some (MkPageRequest (inspect_cursor request) limit (inspect_scan_limit request)).

Definition invocations_result (s : StoreInner) (request : InspectRequest) (page : PageRequest)
    : option (result RunnerError InspectResult) :=
  attempt (from_store (list_invocations (store_index s) (inspect_workspace request) (inspect_state request)
             (inspect_command request) page)) (fun page =>
    Some (Ok (new_inspect_result None (PInvocations (invocation_ledger_row <$> Types.items page)) (Types.total_count page)
                (Types.filtered_count page) (next_cursor page) (page_truncated page) (item_cursors page)))).

(** The view of one invocation. *)
Definition inspect_invocation (s : StoreInner) (files : InvocationFiles IoError) (request : InspectRequest)
    (id : InvocationId) (record : InvocationRecord) (page : PageRequest) : option (result RunnerError InspectResult) :=
  let filter := inspect_filter request in
  let shown {A} (payload : list A → InspectPayload) (m : option (result StoreError (Page A))) :=
    attempt (from_store m) (fun page => Some (Ok (page_result id payload page))) in
  let logged payload m := attempt m (fun page => Some (Ok (evidence_result id payload page))) in
  match inspect_view request with
  | ViewSummary => Some (Ok (summary_result id record))
  | ViewMetrics => Some (Ok (metrics_result id record))
  | ViewDiagnostics => shown PDiagnostics (page_diagnostics s id filter page)
  | ViewTests => shown PTests (page_tests s id filter page)
  | ViewArtifacts => shown PArtifacts (page_artifacts s id filter page)
  | ViewQueryResults =>
      shown PQueryResults (page_query_rows s (file_query files) id filter page (fun value _ => redact_str value (4 * 1024)))
  | ViewCoverage => coverage_result s id request page
  | ViewLog => logged PLog (read_evidence_page (file_evidence files) files request)
  | ViewTestLog =>
      logged PTestLog (if file_test_log_exists files then read_evidence_page (file_test_log files) files request
                       else read_test_log_unavailable_page s id request)
  | ViewInvocations => None
  end.

Definition inspect (s : StoreInner) (files : InvocationId → InvocationFiles IoError) (request : InspectRequest)
    : option (result RunnerError InspectResult) :=
  page ← store_page request;
  attempt
    (if bool_decide (inspect_view request = ViewInvocations) then invocations_result s request page
     else
       attempt (Some (from_option (RStore InvalidCursor) (inspect_id request))) (fun id =>
       attempt (from_store (Some (get_invocation s id))) (fun record =>
         inspect_invocation s (files id) request id record page)))
    (fun result => Some (Ok (with_start_cursor (inspect_cursor request) result))).
End inspection.

(** * Theorems *)

(** ** Evidence files read back *)

Lemma append_nil_r (s : string) : s +:+ "" = s.
Proof. induction s as [|a s IH]; [done|]. cbn. by rewrite IH. Qed.

Lemma lines_from_line line s rest :
  newline ∉ String.list_ascii_of_string s →
  lines_from line (s +:+ String newline rest) = chomp (line +:+ s) :: lines_from "" rest.
Proof.
  revert line. induction s as [|a s IH]; intros line Hs.
  - cbn [String.append lines_from]. rewrite Ascii.eqb_refl. by rewrite append_nil_r.
  - cbn [String.list_ascii_of_string] in Hs. apply not_elem_of_cons in Hs as [Ha Hs].
    change (String a s +:+ String newline rest) with (String a (s +:+ String newline rest)). cbn [lines_from]. destruct (Ascii.eqb_spec a newline) as [->|_]; [done|].
    rewrite IH by done. by rewrite append_assoc.
Qed.

Section persisted.
Context `{Json : EvidenceJson}.

Lemma lines_json_lines records : lines (json_lines records) = evidence_to_json <$> records.
Proof.
  unfold lines, json_lines. induction records as [|r records IH]; [done|]. cbn [foldr fmap list_fmap].
  rewrite lines_from_line by apply evidence_json_line. rewrite IH. f_equal. apply evidence_json_end.
Qed.

Lemma parse_json_lines {IoError RegexError} records :
  parse_records (lines (json_lines records)) = Ok (E := RunnerError IoError RegexError) records.
Proof.
  rewrite lines_json_lines. induction records as [|r records IH]; [done|]. cbn [fmap list_fmap parse_records].
  by rewrite evidence_json_roundtrip, IH.
Qed.
End persisted.

(** ** Following the pages of a log *)

Definition log_lines (p : InspectPayload) : option (list string) :=
  match p with PLog items | PTestLog items => Some items | _ => None end.

Lemma log_lines_truncate len p ls : log_lines p = Some ls →
  log_lines (payload_truncate len p) = Some (take len ls) ∧ payload_len p = length ls.
Proof. by destruct p; intros [= ->]. Qed.

Section follow.
Context {IoError RegexError : Type} `{Codec : LogCursorCodec}.
(** What a reader sees of the page at a cursor. *)
Context (read : option string → option (result (RunnerError IoError RegexError) InspectResult)).
(** Of each page, one item more than the width is shown. *)
Context (width : nat → nat).

Fixpoint follow_log (fuel : nat) (cursor : option string) : option (list string) :=
  match fuel with
  | O => None
  | S fuel =>
      match read cursor with
      | Some (Ok r) =>
          let r := truncate_items (S (width fuel)) r in
          ls ← log_lines (result_items r);
          match result_next_cursor r with
          | None => Some ls
          | Some next => rest ← follow_log fuel (Some next); Some (ls ++ rest)
          end
      | _ => None
      end
  end.

Context (id : InvocationId) (view : InspectView) (filter : option string) (records : list EvidenceRecord) (matches : nat → bool).
Abbreviation cursor_at := (fun k : nat => log_cursor id view filter (Z.of_nat k)).

(** A cursor that points at record [k]. *)
Definition PointsAt (k : nat) (cursor : option string) : Prop :=
  match cursor with None => k = 0%nat | Some value => value = cursor_at k end.

(** [read] shows the records page by page. *)
Definition Paged : Prop := ∀ k cursor, (k ≤ length records)%nat → PointsAt k cursor →
  ∃ c r, (k ≤ c ≤ length records)%nat ∧ ((c < length records)%nat → (k < c)%nat) ∧ read cursor = Some (Ok r) ∧
    log_lines (result_items r) = Some (text_at records <$> positions matches k c) ∧
    result_item_cursors r = (fun p => cursor_at (S p)) <$> positions matches k c ∧
    result_next_cursor r = if bool_decide (c < length records)%nat then Some (cursor_at c) else None.

Lemma follow_log_from (Hpaged : Paged) fuel k cursor :
  (k ≤ length records)%nat → PointsAt k cursor → (length records - k < fuel)%nat →
  follow_log fuel cursor = Some (matching_texts matches records k).
Proof.
  revert k cursor. induction fuel as [|fuel IH]; intros k cursor Hk Hat Hfuel; [lia|]. cbn [follow_log].
  destruct (Hpaged k cursor Hk Hat) as (c & r & Hc & Hprogress & -> & Hlines & Hcursors & Hnext).
  destruct (log_lines_truncate (S (width fuel)) _ _ Hlines) as [Hcut Hlen]. rewrite length_fmap in Hlen.
  unfold matching_texts, truncate_items. destruct (Nat.leb_spec (payload_len (result_items r)) (S (width fuel))) as [Hwhole | Hpart].
  - rewrite Hlines, Hnext. cbn [mbind option_bind]. case_bool_decide as Hmore.
    + rewrite (IH c) by (done || lia). cbn. unfold matching_texts.
      by rewrite <- fmap_app, <- positions_app by lia.
    + by replace (length records) with c by lia.
  - cbn [result_items result_next_cursor]. rewrite Hcut, Hcursors, list_lookup_fmap. cbn [mbind option_bind].
    destruct (lookup_lt_is_Some_2 (positions matches k c) (width fuel)) as [p Hp]; [lia|]. rewrite Hp. cbn [fmap option_fmap option_map].
    destruct (positions_lookup matches k c _ p Hp) as (Hrange & _ & Htake).
    rewrite (IH (S p)) by (done || lia). cbn. rewrite <- fmap_take, <- Htake. unfold matching_texts. rewrite <- fmap_app.
    by rewrite <- positions_app by lia.
Qed.

Lemma follow_log_all (Hpaged : Paged) : follow_log (S (length records)) None = Some (matching_texts matches records 0).
Proof. by apply follow_log_from; [..|lia]; [|lia|]. Qed.
End follow.

(** The matching texts as a filter of the records. *)
Lemma matching_texts_filter matches records (P : EvidenceRecord → bool) :
  (∀ i r, records !! i = Some r → matches i = P r) →
  matching_texts matches records 0 = evidence_text <$> base.filter (fun r => P r = true) records.
Proof.
  intros HP. unfold matching_texts, positions. rewrite Nat.sub_0_r.
  assert (∀ pre suf, records = pre ++ suf →
    text_at records <$> base.filter (fun i => matches i = true) (seq (length pre) (length suf))
    = evidence_text <$> base.filter (fun r => P r = true) suf) as Hall; [|by apply (Hall [])].
  intros pre suf. revert pre. induction suf as [|r suf IH]; intros pre Hrecords; [done|]. cbn [length seq].
  assert (Hr : records !! length pre = Some r) by (by rewrite Hrecords, list_lookup_middle).
  specialize (IH (pre ++ [r])). rewrite length_app, Nat.add_1_r, <- app_assoc in IH. specialize (IH Hrecords).
  rewrite !filter_cons, (HP _ _ Hr). destruct (P r).
  - rewrite !decide_True by done. cbn [fmap list_fmap]. rewrite IH. unfold text_at at 1. by rewrite Hr.
  - by rewrite !decide_False by done.
Qed.

Definition log_matches (filter : option string) (r : EvidenceRecord) : bool :=
  match to_ascii_lowercase <$> filter with None => true | Some filter => evidence_record_matches r filter end.

Lemma matching_log_texts filter records :
  matching_texts (evidence_matches ViewLog filter records) records 0
  = evidence_text <$> base.filter (fun r => log_matches filter r = true) records.
Proof.
  apply matching_texts_filter. intros i r Hr. unfold evidence_matches, log_matches.
  destruct (to_ascii_lowercase <$> filter); [|done]. by rewrite bool_decide_false, Hr by done.
Qed.

Lemma failure_evidence_length `{TerminalText} command failed stdout stderr :
  (length (failure_evidence_records command failed stdout stderr) ≤ 3000)%nat.
Proof. unfold failure_evidence_records. rewrite length_take. lia. Qed.

(** ** Reading back through [inspect] *)

Lemma store_page_clean request : ∃ page, store_page request = Some page.
Proof. unfold store_page, clamp. cbn. eauto. Qed.

Lemma store_page_limits request page : store_page request = Some page →
  cursor page = inspect_cursor request ∧ ∃ limits, page_limits page = Some limits.
Proof.
  unfold store_page, page_limits, clamp. cbn. intros [= <-]. split; [done|]. cbn.
  destruct (Z.leb_spec (Z.max (Z.max 1 (Z.min (inspect_item_limit request) 100)) 1) 10000); [|lia]. cbn. eauto.
Qed.

Section read_back.
Context {IoError RegexError : Type}.
Context `{Text : IdText} `{Files : Serializer} `{Redactor : BoundedRedactor} `{Terminal : TerminalText}.
Context `{Codec : !LogCursorCodec} `{Json : !EvidenceJson} (not_found : IoError).
Context (s : StoreInner) (files : InvocationId → InvocationFiles IoError) (id : InvocationId).
Context (filter : option string) (n scans : Z).

(** The requests of a reader. *)
Definition log_request (view : InspectView) (cursor : option string) : InspectRequest :=
  MkInspect (Some id) None None None view cursor filter n scans.
Definition read_view (view : InspectView) (cursor : option string)
    : option (result (RunnerError IoError RegexError) InspectResult) :=
  inspect not_found s files (log_request view cursor).

Lemma start_record_at view k cursor :
  Z.of_nat k ≤ u64_max → PointsAt id view filter k cursor → start_record (log_request view cursor) id = Some (Z.of_nat k).
Proof.
  intros Hk. unfold start_record, PointsAt, decode_log_cursor_for. cbn [inspect_cursor log_request].
  destruct cursor as [value|]; [|by intros ->]. intros ->. unfold log_cursor.
  rewrite log_roundtrip by (cbn; unfold is_u64; lia). cbn. by rewrite !bool_decide_true.
Qed.

Context (Hn : n ≤ 10000).
Lemma limits_exist cursor : ∃ items scanned, page_limits (MkPageRequest cursor n scans) = Some (items, scanned).
Proof.
  unfold page_limits, clamp. cbn. destruct (Z.leb_spec (Z.max n 1) 10000); [|lia]. cbn. eauto.
Qed.

Lemma page_evidence_at records view k cursor :
  Z.of_nat (length records) ≤ u64_max → (k ≤ length records)%nat →
  ∃ c page, (k ≤ c ≤ length records)%nat ∧ ((c < length records)%nat → (k < c)%nat) ∧
    page_evidence_records records (Z.of_nat k) (log_request view cursor) id = Some page ∧
    evidence_items page = text_at records <$> positions (evidence_matches view filter records) k c ∧
    evidence_cursors page = (fun p => log_cursor id view filter (Z.of_nat (S p))) <$> positions (evidence_matches view filter records) k c ∧
    evidence_next page = if bool_decide (c < length records)%nat then Some (log_cursor id view filter (Z.of_nat c)) else None.
Proof.
  intros Hlength Hk. destruct (limits_exist None) as (items & scanned & Hlimits).
  destruct (page_limits_positive _ _ _ Hlimits) as [Hitems Hscanned].
  destruct (evidence_page_spec (evidence_matches view filter records) id view filter records Hlength items scanned
    Hitems Hscanned k Hk) as (c & Hc & Hprogress & Hloop).
  exists c. eexists. split; [done|]. split; [done|].
  unfold page_evidence_records. cbn [inspect_item_limit inspect_scan_limit inspect_view inspect_filter log_request].
  rewrite Hlimits. cbn [mbind option_bind]. rewrite Hloop. done.
Qed.

Context (record : InvocationRecord) (Hget : get_invocation s id = Ok record).

Lemma evidence_file_paged view records :
  (view = ViewLog ∧ file_evidence (files id) = Ok (Some (json_lines records)) ∨
   view = ViewTestLog ∧ file_test_log_exists (files id) = true ∧ file_test_log (files id) = Ok (Some (json_lines records))) →
  Z.of_nat (length records) ≤ u64_max →
  Paged (read_view view) id view filter records (evidence_matches view filter records).
Proof.
  intros Hfile Hlength k cursor Hk Hat.
  destruct (page_evidence_at records view k cursor Hlength Hk) as (c & page & Hc & Hprogress & Hpage & Hitems & Hcursors & Hnext).
  destruct (store_page_clean (log_request view cursor)) as [store Hstore].
  assert (Hread : read_evidence_page (RegexError := RegexError) not_found (Ok (Some (json_lines records))) (files id)
    (log_request view cursor) = Some (Ok page)).
  { unfold read_evidence_page. cbn [inspect_id log_request from_option attempt].
    fold (log_request view cursor). rewrite (start_record_at view k cursor) by (done || lia).
    cbn [from_option attempt]. by rewrite parse_json_lines, Hpage. }
  assert (Hinspect : ∃ payload, read_view view cursor =
    Some (Ok (with_start_cursor cursor (evidence_result id payload page))) ∧ log_lines (payload (evidence_items page)) = Some (evidence_items page)).
  { unfold read_view, inspect. rewrite Hstore. cbn [mbind option_bind].
    destruct Hfile as [[-> Hfile] | (-> & Hexists & Hfile)]; [exists PLog|exists PTestLog]; (split; [|done]).
    - rewrite bool_decide_false by done. cbn [inspect_id log_request from_option attempt from_store].
      rewrite Hget. unfold inspect_invocation. cbn [attempt inspect_view]. fold (log_request ViewLog cursor).
      by rewrite Hfile, Hread.
    - rewrite bool_decide_false by done. cbn [inspect_id log_request from_option attempt from_store].
      rewrite Hget. unfold inspect_invocation. cbn [attempt inspect_view]. fold (log_request ViewTestLog cursor).
      by rewrite Hexists, Hfile, Hread. }
  destruct Hinspect as (payload & Hinspect & Hpayload). exists c. eexists. split; [done|]. split; [done|]. split; [exact Hinspect|].
  cbn [with_start_cursor evidence_result new_inspect_result result_items result_item_cursors result_next_cursor].
  by rewrite Hpayload, Hitems.
Qed.

(** C21: What [persist_failure_evidence] writes is read back completely by the
    log view of [inspect]: a reader who follows the cursors, and shows of every
    page as many items as fit (at least one), sees the redacted lines that match
    the filter, each once and in order, after at most one page per line. *)
Theorem log_pages_cover_evidence workspace command failed stdout stderr width :
  let records := persisted_record workspace <$> failure_evidence_records command failed stdout stderr in
  file_evidence (files id) = Ok (Some (persist_failure_evidence workspace command failed stdout stderr)) →
  follow_log (read_view ViewLog) width (S (length records)) None
  = Some (evidence_text <$> base.filter (fun r => log_matches filter r = true) records).
Proof.
  intros records Hfile. rewrite <- matching_log_texts. eapply follow_log_all, evidence_file_paged.
  - by left.
  - unfold records. rewrite length_fmap. pose proof (failure_evidence_length command failed stdout stderr). unfold u64_max. lia.
Qed.
End read_back.

(** ** Missing test logs *)

Section missing.
Context {IoError RegexError : Type}.
Context `{Cursors : CursorCodec} `{Laws : !CursorCodecLaws} `{Text : !IdText}.
Context `{Files : Serializer} `{Redactor : BoundedRedactor} `{Terminal : TerminalText}.
Context `{Codec : !LogCursorCodec} `{Json : !EvidenceJson} (not_found : IoError).

(** The reasons of all tests, as records. *)
Definition reasons (tests : list TestResult) : list EvidenceRecord :=
  omap (fun t => (fun reason => MkEvidenceRecord None (reason_text t reason)) <$> test_log_unavailable_reason t) tests.
Definition reason_record_matches (filter : option string) (r : EvidenceRecord) : bool := reason_matches filter (evidence_text r).

Section loops.
Context (id : InvocationId) (view : InspectView) (filter : option string) (maximum_items maximum_scanned : nat) (start : Z).
Context (all : list EvidenceRecord) (Hlength : Z.of_nat (length all) ≤ u64_max).
Definition reason_at (i : nat) : bool := match all !! i with Some r => reason_record_matches filter r | None => false end.
Abbreviation walk := (evidence_loop id view filter maximum_items maximum_scanned start reason_at).

Lemma reasons_loop_spec tests i rest s :
  drop i all = reasons tests ++ rest → state_stopped s = false →
  let '(j, s') := reasons_loop id view filter maximum_items maximum_scanned start tests (Z.of_nat i) s in
  walk i (reasons tests ++ rest) s
    = (if state_stopped s' then s' else walk (i + length (reasons tests)) rest s') ∧
  (state_stopped s' = false → j = Z.of_nat (i + length (reasons tests))).
Proof.
  revert i s. induction tests as [|t tests IH]; intros i s Hdrop Hs.
  { cbn. by rewrite Hs, Nat.add_0_r. }
  cbn [reasons_loop]. unfold reasons in Hdrop |- *. cbn [omap list_omap] in Hdrop |- *.
  destruct (test_log_unavailable_reason t) as [reason|]; cbn [fmap option_fmap option_map] in Hdrop |- *; [|by apply IH].
  fold (reasons tests) in Hdrop |- *. rewrite <- app_comm_cons in Hdrop |- *. cbn [length].
  set (r := MkEvidenceRecord None (reason_text t reason)) in *.
  assert (Hr : all !! i = Some r) by (rewrite <- (Nat.add_0_r i), <- lookup_drop, Hdrop; done).
  assert (Hnext : drop (S i) all = reasons tests ++ rest) by (rewrite <- Nat.add_1_r, <- drop_drop, Hdrop; done).
  pose proof (lookup_lt_Some _ _ _ Hr) as Hlt. cbn [evidence_loop].
  assert (Hmatch : reason_at i = reason_matches filter (reason_text t reason)) by (unfold reason_at; by rewrite Hr).
  rewrite !u64_add_exact by lia. replace (Z.of_nat i + 1) with (Z.of_nat (S i)) by lia.
  rewrite Nat.add_succ_r, <- Nat.add_succ_l. destruct (Z.of_nat i <? start); [by apply IH|].
  destruct (state_scanned s =? maximum_scanned)%nat; [done|]. rewrite Hmatch.
  destruct (_ && _); [done|]. apply IH; [done|]. by destruct (reason_matches _ _).
Qed.
End loops.

Context (s : StoreInner) (id : InvocationId) (details : InvocationDetails) (Hdetails : read_details s id = Ok details).
Context (Hlength : Z.of_nat (length (details_tests details)) ≤ i64_max).
Abbreviation tests := (details_tests details).

Lemma reasons_app l l' : reasons (l ++ l') = reasons l ++ reasons l'.
Proof. apply omap_app. Qed.
Lemma length_reasons l : (length (reasons l) ≤ length l)%nat.
Proof. unfold reasons. induction l as [|t l IH]; [done|]. cbn. destruct (_ <$> _); cbn; lia. Qed.

Lemma unavailable_loop_spec fuel request maximum_items maximum_scanned start k cursor state :
  (k ≤ length tests)%nat → RecordsAfter "test_results" (id_to_string id) None k cursor → (length tests - k < fuel)%nat →
  state_stopped state = false →
  unavailable_loop (IoError := IoError) (RegexError := RegexError) fuel s id request maximum_items maximum_scanned start cursor
    (Z.of_nat (length (reasons (take k tests)))) state
  = Some (Ok (stopped_page id request
      (evidence_loop id (inspect_view request) (inspect_filter request) maximum_items maximum_scanned start
         (reason_at (inspect_filter request) (reasons tests)) (length (reasons (take k tests))) (reasons (drop k tests)) state))).
Proof.
  revert k cursor state. induction fuel as [|fuel IH]; intros k cursor state Hk Hcursor Hfuel Hstate; [lia|].
  cbn [unavailable_loop]. unfold page_tests. rewrite Hdetails. cbn [attempt].
  destruct (page_records_after "test_results" (id_to_string id) None test_label tests Hlength k
    (new_page_request cursor 100) (100%nat, 1000%nat) Hk Hcursor eq_refl) as (p & c & -> & Hkc & Hitems & Hmore & _).
  rewrite record_unfiltered in Hitems by done. cbn [from_store attempt]. rewrite Hitems.
  assert (Hsplit : reasons (take k tests) ++ reasons (take c (drop k tests)) = reasons (take (k + c) tests)).
  { rewrite <- reasons_app. f_equal. by rewrite take_take_drop. }
  assert (Hrest : reasons (drop k tests) = reasons (take c (drop k tests)) ++ reasons (drop (k + c) tests)).
  { by rewrite <- reasons_app, <- drop_drop, take_drop. }
  pose proof (length_reasons tests). pose proof (reasons_loop_spec id (inspect_view request) (inspect_filter request) maximum_items
    maximum_scanned start (reasons tests) ltac:(unfold u64_max, i64_max in *; lia) (take c (drop k tests)) (length (reasons (take k tests)))
    (reasons (drop (k + c) tests)) state) as Hloop.
  destruct (reasons_loop _ _ _ _ _ _ (take c (drop k tests)) _ _) as [j s'].
  destruct Hloop as [Hwalk Hj]; [|done|].
  { rewrite <- Hrest. assert (reasons tests = reasons (take k tests) ++ reasons (drop k tests)) as ->;
      [by rewrite <- reasons_app, take_drop|]. by rewrite drop_app_length. }
  rewrite Hrest, Hwalk. destruct (state_stopped s') eqn:Hs'; [done|]. cbn [orb]. rewrite (Hj eq_refl), <- length_app, Hsplit.
  destruct (page_truncated p) eqn:Hp; cbn [negb].
  - destruct Hmore as [Hc Hmore]. by rewrite (IH (k + c)%nat) by (done || lia).
  - destruct Hmore as [_ Hall]. by rewrite (drop_ge tests) by lia.
Qed.

Context (files : InvocationId → InvocationFiles IoError) (filter : option string) (n scans : Z) (Hn : n ≤ 10000).
Context (record : InvocationRecord) (Hget : get_invocation s id = Ok record).
Context (Hmissing : file_test_log_exists (files id) = false).

Lemma missing_logs_paged :
  Paged (read_view (RegexError := RegexError) not_found s files id filter n scans ViewTestLog) id ViewTestLog filter (reasons tests)
    (reason_at filter (reasons tests)).
Proof.
  intros k cursor Hk Hat. pose proof (length_reasons tests) as Hreasons.
  assert (Hbound : Z.of_nat (length (reasons tests)) ≤ u64_max) by (unfold u64_max, i64_max in *; lia).
  destruct (limits_exist n scans Hn None) as (items & scanned & Hlimits).
  destruct (page_limits_positive _ _ _ Hlimits) as [Hitems Hscanned].
  destruct (evidence_page_spec (reason_at filter (reasons tests)) id ViewTestLog filter (reasons tests) Hbound items scanned
    Hitems Hscanned k Hk) as (c & Hc & Hprogress & Hloop).
  exists c. eexists. split; [done|]. split; [done|]. unfold read_view, inspect.
  destruct (store_page_clean (log_request id filter n scans ViewTestLog cursor)) as [page ->]. cbn [mbind option_bind].
  rewrite bool_decide_false by done. cbn [inspect_id log_request from_option attempt from_store]. rewrite Hget.
  unfold inspect_invocation. cbn [attempt inspect_view]. rewrite Hmissing. unfold read_test_log_unavailable_page.
  fold (log_request id filter n scans ViewTestLog cursor). rewrite (start_record_at id filter n scans ViewTestLog k cursor) by (done || lia).
  cbn [from_option attempt inspect_item_limit inspect_scan_limit log_request]. rewrite Hlimits. cbn [mbind option_bind].
  unfold stored_tests. rewrite Hdetails.
  pose proof (unavailable_loop_spec (S (length tests)) (log_request id filter n scans ViewTestLog cursor) items scanned (Z.of_nat k) 0 None
    (MkEvidenceState [] [] (Z.of_nat k) 0 false)) as Hwalk. rewrite take_0, drop_0 in Hwalk.
  fold (log_request id filter n scans ViewTestLog cursor).
  change (Z.of_nat (length (reasons []))) with 0 in Hwalk. rewrite Hwalk by (done || lia). cbn [attempt inspect_view inspect_filter log_request length reasons omap list_omap].
  rewrite Hloop. done.
Qed.

(** When the log of the failed tests is not on this machine, the test-log
    view shows why: a reader who follows its cursors sees the reason of every test
    that has one and matches the filter, each once and in the order of the tests,
    although the runner collects them from stored pages of other sizes. *)
Theorem missing_log_pages_cover width :
  follow_log (read_view (RegexError := RegexError) not_found s files id filter n scans ViewTestLog) width
    (S (length (reasons tests))) None
  = Some (evidence_text <$> base.filter (fun r => reason_record_matches filter r = true) (reasons tests)).
Proof.
  rewrite (follow_log_all _ _ _ _ _ _ _ missing_logs_paged). f_equal. apply matching_texts_filter.
  intros i r Hr. unfold reason_at. by rewrite Hr.
Qed.
End missing.

(** ** Coverage without coverage files *)

Section coverage.
Context {IoError RegexError : Type}.
Context `{Cursors : CursorCodec} `{Laws : !CursorCodecLaws} `{Text : !IdText}.
Context `{Files : Serializer} `{Redactor : BoundedRedactor} `{Terminal : TerminalText}.
Context `{Codec : !LogCursorCodec} `{Json : !EvidenceJson} (not_found : IoError).
Context (s : StoreInner) (files : InvocationId → InvocationFiles IoError) (id : InvocationId).
Context (filter : option string) (n scans : Z).

(** A cursor of one list is refused for another one. *)
Lemma foreign_records_page {T} scope scope' searchable page (records : list T) k value limits :
  scope ≠ scope' → Forall machine_string (scoped_parts scope (id_to_string id) filter) →
  Forall machine_string (scoped_parts scope' (id_to_string id) filter) → Z.of_nat k ≤ i64_max →
  RecordsAfter scope (id_to_string id) filter k (Some value) → cursor page = Some value → page_limits page = Some limits →
  page_records scope' (id_to_string id) filter searchable page records = Some (Err InvalidCursor) ∨
  ContextCollision (scoped_parts scope (id_to_string id) filter) (scoped_parts scope' (id_to_string id) filter).
Proof.
  intros Hscope Hparts Hparts' Hk [Hpos Hvalue] Hcursor Hlimits. destruct limits as [items scanned].
  unfold page_records. rewrite Hlimits, Hcursor. cbn [mbind option_bind]. unfold decode_ordinal_cursor_for.
  rewrite (ordinal_cursor_roundtrip scope (id_to_string id) filter (Z.of_nat k - 1) value) by (done || width).
  rewrite check_ordinal_cursor. destruct (check_context _ _) as [[]|error] eqn:Hcheck.
  - right. apply check_context_foreign in Hcheck as [Heq | ?]; [|done..]. by injection Heq.
  - left. unfold check_context, reject_if in Hcheck. destruct (negb _); by simplify_eq.
Qed.

Context (record : InvocationRecord) (Hget : get_invocation s id = Ok record).
Context (details : InvocationDetails) (Hdetails : read_details s id = Ok details) (Hnone : details_coverage_files details = []).
Abbreviation artifacts := (default [] (disk s !! id ≫= artifacts_file)).
Context (Hlength : Z.of_nat (length artifacts) ≤ i64_max).
Context (Hid : str_len (id_to_string id) ≤ u64_max) (Hfilter : str_len (default "" filter) ≤ u64_max).

Lemma coverage_inspection cursor :
  ∃ page, store_page (log_request id filter n scans ViewCoverage cursor) = Some page ∧
  read_view (RegexError := RegexError) not_found s files id filter n scans ViewCoverage cursor
  = attempt (coverage_result s id (log_request id filter n scans ViewCoverage cursor) page)
      (fun r => Some (Ok (with_start_cursor cursor r))).
Proof.
  destruct (store_page_clean (log_request id filter n scans ViewCoverage cursor)) as [page Hpage]. exists page.
  split; [done|]. unfold read_view, inspect. rewrite Hpage. cbn [mbind option_bind].
  rewrite bool_decide_false by done. cbn [inspect_id log_request from_option attempt from_store]. by rewrite Hget.
Qed.

Lemma no_coverage_first r :
  read_view (RegexError := RegexError) not_found s files id filter n scans ViewCoverage None = Some (Ok r) →
  ∃ k, (k ≤ length artifacts)%nat ∧
    (∀ value, result_next_cursor r = Some value → RecordsAfter "artifacts" (id_to_string id) filter k (Some value)).
Proof.
  destruct (coverage_inspection None) as (page & Hpage & ->). destruct (store_page_limits _ _ Hpage) as [Hcursor [limits Hlimits]].
  unfold coverage_result, page_coverage. rewrite Hdetails. cbn [attempt inspect_filter log_request]. rewrite Hnone.
  assert (∃ p, page_records "coverage_files" (id_to_string id) filter coverage_path page [] = Some (Ok p) ∧ Types.items p = [])
    as (p & -> & Hp).
  { unfold page_records. destruct limits. rewrite Hlimits, Hcursor. cbn. eauto. }
  cbn [from_store attempt]. rewrite Hp. cbn [length Nat.eqb]. unfold page_artifacts.
  destruct (ensure_invocation s id) as [[]|]; cbn [attempt from_store]; [|done].
  destruct (page_limits (MkPageRequest None n scans)) as [limits'|] eqn:Hlimits'.
  - destruct (page_records_after "artifacts" (id_to_string id) filter (fun item => artifact_name item +:+ " " +:+ uri item)
      artifacts Hlength 0 (MkPageRequest None n scans) limits' ltac:(lia) eq_refl Hlimits') as (q & c & Hq & Hc & _ & Hmore & _).
    cbn [inspect_item_limit inspect_scan_limit log_request]. rewrite Hq. cbn [from_store attempt]. intros [= <-].
    exists c. split; [lia|]. cbn. intros value Hvalue. rewrite Hvalue in Hmore. by destruct (page_truncated q), Hmore.
  - unfold page_records. cbn [inspect_item_limit inspect_scan_limit log_request]. by rewrite Hlimits'.
Qed.

(** C32: An invocation without coverage files answers the coverage view from its
    artifacts, but the cursor such a page offers is one of the artifact list: the
    coverage view refuses it, so the rest of the page cannot be read. *)
Theorem coverage_fallback_cursor_rejected r value :
  read_view (RegexError := RegexError) not_found s files id filter n scans ViewCoverage None = Some (Ok r) →
  result_next_cursor r = Some value →
  read_view (RegexError := RegexError) not_found s files id filter n scans ViewCoverage (Some value)
    = Some (Err (RStore InvalidCursor)) ∨
  ContextCollision (scoped_parts "artifacts" (id_to_string id) filter) (scoped_parts "coverage_files" (id_to_string id) filter).
Proof.
  intros Hfirst Hvalue. destruct (no_coverage_first r Hfirst) as (k & Hk & Hafter).
  destruct (coverage_inspection (Some value)) as (page & Hpage & ->). destruct (store_page_limits _ _ Hpage) as [Hcursor [limits Hlimits]].
  unfold coverage_result, page_coverage. rewrite Hdetails. cbn [attempt inspect_filter log_request].
  destruct (foreign_records_page "artifacts" "coverage_files" coverage_path page (details_coverage_files details) k value limits)
    as [-> | ?]; try done; [| |lia|by apply Hafter|by left|by right].
  1-2: repeat constructor; unfold machine_string; [vm_compute; congruence|done|done].
Qed.
End coverage.

Module InspectionExamples.
#[local] Existing Instance CursorExamples.example_codec.
#[local] Existing Instance CursorExamples.example_laws.
#[local] Existing Instance ListingExamples.example_ids.
#[local] Existing Instance StoreExamples.example_files.
#[local] Existing Instance SanitizeExamples.example_redactor.
#[local] Instance plain_text : TerminalText := {| normalize_terminal_text bytes := string_of_bytes bytes |}.

(** Any countable value as a string of binary digits. *)
Fixpoint digits (p : positive) : string :=
  match p with xH => "1" | xO p => String "0" (digits p) | xI p => String "1" (digits p) end.
Fixpoint of_digits (s : string) : option positive :=
  match s with
  | String "1" EmptyString => Some xH
  | String "0" rest => xO <$> of_digits rest
  | String "1" rest => xI <$> of_digits rest
  | _ => None
  end.

Lemma of_digits_digits p : of_digits (digits p) = Some p.
Proof. induction p as [p IH | p IH |]; cbn [digits of_digits]; rewrite ?IH; [by destruct p|done..]. Qed.
Lemma digits_line p : newline ∉ String.list_ascii_of_string (digits p).
Proof.
  induction p as [p IH | p IH |]; cbn [digits String.list_ascii_of_string]; rewrite not_elem_of_cons; (split; [done|]); [done..|].
  apply not_elem_of_nil.
Qed.
Lemma digits_end p : chomp (digits p) = digits p.
Proof.
  unfold chomp. assert (strip_last carriage_return (digits p) = None) as ->; [|done].
  induction p as [p IH | p IH |]; [| |done]; cbn [digits]; by destruct (digits p) eqn:Hp; [destruct p|cbn; cbn in IH; rewrite IH].
Qed.

Definition view_code (v : InspectView) : nat :=
  match v with
  | ViewSummary => 0 | ViewMetrics => 1 | ViewDiagnostics => 2 | ViewTests => 3 | ViewTestLog => 4 | ViewCoverage => 5
  | ViewArtifacts => 6 | ViewQueryResults => 7 | ViewLog => 8 | ViewInvocations => 9
  end.
Definition code_view (n : nat) : InspectView := default ViewInvocations (FOLLOW_UP !! n).

#[local] Instance example_cursors : LogCursorCodec.
Proof.
  refine {| log_encode c := digits (encode (log_id c, view_code (log_view c), next_record c, log_filter c));
            log_decode value :=
              p ← of_digits value; '(id, view, next, filter) ← decode p; Some (MkLogCursor id (code_view view) next filter) |}.
  intros [id view next filter] _. rewrite of_digits_digits. cbn [mbind option_bind]. rewrite decode_encode. cbn. by destruct view.
Defined.

#[local] Instance example_json : EvidenceJson.
Proof.
  refine {| evidence_to_json r := digits (encode (evidence_label r, evidence_text r));
            evidence_from_json line :=
              match p ← of_digits line; decode p with
              | Some (label, text) => Ok (MkEvidenceRecord label text)
              | None => Err "not a record"
              end |}.
  - intros [label text]. rewrite of_digits_digits. cbn [mbind option_bind]. by rewrite decode_encode.
  - intros r. apply digits_line.
  - intros r. apply digits_end.
Defined.

(** A failed test run: two tests without a log, and two artifacts. *)
Definition failed_test (label : string) (reason : option string) : TestResult :=
  MkTestResult label TestFailed None 1 None [] false reason.
Definition failed_summary : InvocationSummary :=
  MkSummary false "2 tests failed" [] (MkTargetCounts 3 1 2) []
    [failed_test "//a" (Some "remote"); failed_test "//b" None; failed_test "//c" (Some "missing")] (MkTestCounts 1 2 0 0 0)
    None [] None 5 false None.
Definition failed_artifact (name : string) : Artifact := MkArtifact name CoverageArtifact "bytestream://host/1" None false.
Definition failed_store : StoreInner :=
  StoreExamples.example_run
    (SFinish 7 10000 (MkCompletion Failed (Exit 3) failed_summary None default_metrics None
       [failed_artifact "a.dat"; failed_artifact "b.dat"]))
    StoreExamples.example_running.
Definition failed_stderr : list Z :=
  bytes_of ("analysing /w/a" +:+ String newline ("error: token s3cret" +:+ String newline
    ("error: token s3cret" +:+ String newline "error: /w/b.cc"))).
Definition failed_files (_ : InvocationId) : InvocationFiles string :=
  MkFiles (Ok (Some (persist_failure_evidence "/w" Build true [] failed_stderr))) false (Ok None) (Ok None) (Ok (Some failed_stderr)) None.

Abbreviation read := (read_view (RegexError := string) "not found" failed_store failed_files 7).

Lemma log_pages_cover_evidence_witness :
  follow_log (read (Some "ERROR") 1 10 ViewLog) (fun _ => 0%nat) 4 None
  = Some ["error: token [REDACTED] [repeated 2 times]"; "error: <workspace>/b.cc"] ∧
  follow_log (read (Some "ERROR") 1 10 ViewLog) (fun _ => 0%nat) 4 None
  = Some (evidence_text <$> base.filter (fun r => log_matches (Some "ERROR") r = true)
      (persisted_record "/w" <$> failure_evidence_records Build true [] failed_stderr)).
Proof.
  split; [vm_compute; reflexivity|].
  destruct (get_invocation failed_store 7) as [record|] eqn:Hget; [|exfalso; vm_compute in Hget; discriminate].
  exact (log_pages_cover_evidence "not found" failed_store failed_files 7 (Some "ERROR") 1 10 ltac:(lia) record Hget
    "/w" Build true [] failed_stderr (fun _ => 0%nat) eq_refl).
Defined.

Definition failed_details : InvocationDetails := MkDetails [] (tests failed_summary) [].

Lemma missing_log_pages_cover_witness :
  follow_log (read None 1 10 ViewTestLog) (fun _ => 0%nat) 3 None = Some ["//a: remote"; "//c: missing"] ∧
  follow_log (read None 1 10 ViewTestLog) (fun _ => 0%nat) 3 None
  = Some (evidence_text <$> base.filter (fun r => reason_record_matches None r = true) (reasons (tests failed_summary))).
Proof.
  split; [vm_compute; reflexivity|].
  destruct (get_invocation failed_store 7) as [record|] eqn:Hget; [|exfalso; vm_compute in Hget; discriminate].
  assert (Hdetails : read_details failed_store 7 = Ok failed_details) by (vm_compute; reflexivity).
  exact (missing_log_pages_cover "not found" failed_store 7 failed_details Hdetails ltac:(vm_compute; discriminate) failed_files None 1 10
    ltac:(lia) record Hget eq_refl (fun _ => 0%nat)).
Defined.

Definition coverage_page : option InspectResult :=
  match read None 1 10 ViewCoverage None with Some (Ok r) => Some r | _ => None end.

Lemma coverage_fallback_cursor_rejected_witness :
  match coverage_page ≫= result_next_cursor with
  | Some value =>
      read None 1 10 ViewCoverage (Some value) = Some (Err (RStore InvalidCursor)) ∨
      ContextCollision (scoped_parts "artifacts" (id_to_string 7) None) (scoped_parts "coverage_files" (id_to_string 7) None)
  | None => False
  end.
Proof.
  destruct (get_invocation failed_store 7) as [record|] eqn:Hget; [|exfalso; vm_compute in Hget; discriminate].
  assert (Hdetails : read_details failed_store 7 = Ok failed_details) by (vm_compute; reflexivity).
  destruct (coverage_page) as [r|] eqn:Hpage; [|exfalso; vm_compute in Hpage; discriminate].
  destruct (result_next_cursor r) as [value|] eqn:Hvalue; cbn [mbind option_bind]; rewrite ?Hvalue.
  - apply (coverage_fallback_cursor_rejected "not found" failed_store failed_files 7 None 1 10 record Hget failed_details Hdetails
      eq_refl ltac:(vm_compute; discriminate) ltac:(vm_compute; discriminate) ltac:(vm_compute; discriminate) r value); [|exact Hvalue].
    revert Hpage. unfold coverage_page. destruct (read None 1 10 ViewCoverage None) as [[r'|]|]; congruence.
  - exfalso. vm_compute in Hpage. injection Hpage as <-. discriminate.
Defined.

(** The second page of that coverage view is refused. *)
Example coverage_second_page :
  (coverage_page ≫= result_next_cursor) ≫= (fun value => read None 1 10 ViewCoverage (Some value))
  = Some (Err (RStore InvalidCursor)).
Proof. vm_compute. reflexivity. Qed.

(** Before the evidence is written the log view shows the captured lines as they
    are, the secret and the workspace included. *)
Example retained_log_is_raw :
  follow_log (read_view (RegexError := string) "not found" failed_store
      (fun _ => MkFiles (Ok None) false (Ok None) (Ok None) (Ok (Some failed_stderr)) None) 7 None 10 10 ViewLog)
    (fun _ => 9%nat) 1 None
  = Some ["error: token s3cret [repeated 2 times]"; "error: /w/b.cc"; "analysing /w/a"].
Proof. vm_compute. reflexivity. Qed.
End InspectionExamples.
