(* ===== verification/TestEvidence.v ===== *)
(** * Failed-test evidence (crates/bazel-mcp-runner/src/test_evidence.rs,
    crates/bazel-mcp-reducer/src/test.rs and test_evidence.rs)

    For every test that did not pass, the runner reads the cases of its XML
    report, copies its local logs to a private snapshot (the raw bytes, and one
    redacted record per visible line), reduces them to cases and diagnostics, and
    commits the snapshot with two renames.  Files are what can be read of them;
    every write, flush and rename may fail.  The XML library and the streaming
    reducer of test logs ([logcompact]) are interfaces. *)

From Stdlib Require Import Ascii SpecFloat.
From S2P Require Import Prelude Collections Types Record Cursor Index Store Policy Redaction QueryPaging Retention Listing Diagnostics Extension Reduction Text Runner Sanitize Artifacts Outcome BazelText Evidence Inspection.
#[global] Open Scope Z_scope.

(** ** Test reports (test.rs) *)

Record XmlMessage : Type := MkXmlMessage { xml_message : option string; xml_text : option string }.
Record XmlCase : Type := MkXmlCase {
  xml_name : string; xml_time : option spec_float;
  xml_failure : option XmlMessage; xml_error : option XmlMessage; xml_skipped : option XmlMessage;
}.
Record XmlDocument : Type := MkXmlDocument { xml_suites : list (list XmlCase); xml_cases : list XmlCase }.

(** [quick_xml::de::from_str]. *)
Class XmlReader : Type := { xml_from_str : string → option XmlDocument }.

(** [f64 as u64] of a finite number that is not negative. *)
Definition f64_to_u64 (f : spec_float) : Z :=
  match f with
  | S754_finite false m e => if 0 <=? e then Z.pos m * 2 ^ e else Z.pos m / 2 ^ (- e)
  | _ => 0
  end.

(** [duration_ms] of a report, from seconds. *)
Definition xml_duration_ms (seconds : spec_float) : option Z :=
  match seconds with
  | S754_nan | S754_infinity _ | S754_finite true _ _ => None
  | _ =>
      let milliseconds := SFmul 53 1024 seconds (f64_of_u64 1000) in
      if SFleb (f64_of_u64 u64_max) milliseconds then Some u64_max else Some (f64_to_u64 milliseconds)
  end.

Definition case_of_xml (c : XmlCase) : TestCase :=
  let detail (m : XmlMessage) := or_else (xml_message m) (xml_text m) in
  let '(status, message) :=
    match or_else (xml_failure c) (xml_error c), xml_skipped c with
    | Some m, _ => (TestFailed, detail m)
    | None, Some m => (TestSkipped, detail m)
    | None, None => (TestPassed, None)
    end in
  MkTestCase (xml_name c) status (xml_time c ≫= xml_duration_ms) message.

Definition parse_test_xml `{XmlReader} (input : string) : option (list TestCase) :=
  document ← xml_from_str input;
  Some (case_of_xml <$> xml_cases document ++ concat (xml_suites document)).

(** ** Reduction of one target's logs (test_evidence.rs of the reducer) *)

Record TestFailure : Type := MkTestFailure {
  failure_name : string; failure_message : string; failure_location : option DiagnosticLocation;
}.
Record TestLogReduction : Type := MkTestLogReduction {
  reduced_failures : list TestFailure; reduced_diagnostics : list CoreDiagnostic;
}.

(** [logcompact_builtins::TestLogReducer], whose provenance is the label of the
    target. *)
Class TestLogReducer : Type := {
  LogState : Type;
  log_default : LogState;
  log_observe : string → string → LogState → LogState;
  log_finish : bool → LogState → LogState;
  log_reduction : LogState → TestLogReduction;
}.

Definition MAX_FAILURES : nat := 20.

Definition map_test_failure (f : TestFailure) : TestFailure :=
  match failure_location f with
  | Some l =>
      let original := location_path l in
      let mapped := map_path_for_bazel original in
      if bool_decide (mapped = original) then f
      else MkTestFailure (failure_name f) (replace (failure_message f) original mapped)
             (Some (MkLocation mapped (location_line l) (location_column l)))
  | None => f
  end.

Definition map_test_diagnostic (d : CoreDiagnostic) (label : string) : Diagnostic :=
  let d := map_diagnostic d in
  MkDiagnostic (severity d) CatTest (message d)
    ((fun l => MkLocation (map_path_for_bazel (location_path l)) (location_line l) (location_column l)) <$> location d)
    (Some label) (action d) (repetition_count d).

(** [TestEvidenceReducer::finish]. *)
Definition finish_evidence (label : string) (reduced : TestLogReduction) : list TestCase * list Diagnostic :=
  let failures := map_test_failure <$> reduced_failures reduced in
  if decide (failures = []) then ([], (fun d => map_test_diagnostic d label) <$> reduced_diagnostics reduced)
  else
    ((fun f => MkTestCase (failure_name f) TestFailed None (Some (failure_message f))) <$> take MAX_FAILURES failures,
     (fun f => MkDiagnostic SevError CatTest (failure_message f) (failure_location f) (Some label) None 1)
       <$> take MAX_FAILURES failures).

(** ** Matching artifacts *)

(** [trim_start_matches("//")]. *)
Fixpoint trim_double_slashes (s : string) : string :=
  match s with
  | String "/" (String "/" rest) => trim_double_slashes rest
  | _ => s
  end.

Definition artifact_matches_test (artifact : Artifact) (label : string) : bool :=
  let label := match rsplit_once_str "//" label with Some (_, label) => label | None => label end in
  let '(package, target) :=
    match split_once ":" label with
    | Some (package, target) => (trim_double_slashes package, target)
    | None => ("", trim_double_slashes label)
    end in
  let fragment := if bool_decide (package = "") then "/testlogs/" +:+ target +:+ "/"
                  else "/testlogs/" +:+ package +:+ "/" +:+ target +:+ "/" in
  contains_str (replace_char (ascii_of_nat 92) "/" (uri artifact)) fragment.

Definition is_report (suffix : string) (artifact : Artifact) : bool :=
  bool_decide (artifact_kind artifact = TestLog) && ends_with (artifact_name artifact) suffix.

(** ** The snapshot *)

(** The files of an invocation the snapshot is made of. *)
Record LogDirectory : Type := MkDirectory {
  test_logs_raw : option (list Z);
  test_log_evidence : option (list Z);
  raw_temporary : option (list Z);
  evidence_temporary : option (list Z);
}.

(** What the operating system does: whether each operation succeeds, and for the
    writes of each file, [Some n] when one fails after [n] bytes. *)
Record SnapshotIo : Type := MkSnapshotIo {
  probe_raw : bool; probe_evidence : bool;
  create_raw : bool; create_evidence : bool;
  write_raw : nat → option nat; write_evidence : nat → option nat;
  flush_raw : bool; flush_evidence : bool;
  rename_raw : bool; rename_evidence : bool;
  remove_raw : bool; remove_evidence : bool;
}.

(** What has been written to the two temporary files, and by how many writes. *)
Record Writers : Type := MkWriters {
  raw_written : list Z; raw_writes : nat; evidence_written : list Z; evidence_writes : nat;
}.
Definition no_writes : Writers := MkWriters [] 0 [] 0.

Section snapshot.
Context (io : SnapshotIo).

Definition written (outcome : option nat) (bytes : list Z) : list Z :=
  match outcome with Some n => take n bytes | None => bytes end.

Definition write_raw_all (bytes : list Z) (w : Writers) : Writers * bool :=
  let outcome := write_raw io (raw_writes w) in
  (MkWriters (raw_written w ++ written outcome bytes) (S (raw_writes w)) (evidence_written w) (evidence_writes w),
   bool_decide (outcome = None)).

Definition write_evidence_all (bytes : list Z) (w : Writers) : Writers * bool :=
  let outcome := write_evidence io (evidence_writes w) in
  (MkWriters (raw_written w) (raw_writes w) (evidence_written w ++ written outcome bytes) (S (evidence_writes w)),
   bool_decide (outcome = None)).

Context {IoError : Type} `{FS : FileSystem IoError} (windows : bool) (config : RunnerConfig).
Context (open : OpenFile) (file_len : string → option Z).
Context `{Redactor : BoundedRedactor} `{Terminal : TerminalText} `{Json : EvidenceJson} `{Xml : XmlReader}
  `{Logs : TestLogReducer}.
Context (workspace : string) (artifacts : list Artifact).

(** The visible lines of one line of a log. *)
Definition visible_lines (line : list Z) : list string :=
  filter (fun l => l ≠ "") (trim <$> lines (normalize_terminal_text line)).

Definition visible_text (line : string) : string := redact_str (replace line workspace "<workspace>") (4 * 1024).

Definition log_record (label : string) (line : string) : EvidenceRecord :=
  MkEvidenceRecord (Some label) ("[" +:+ label +:+ "] " +:+ visible_text line).
Definition record_line (r : EvidenceRecord) : list Z := bytes_of (evidence_to_json r) ++ [10].

(** The inner loop over the visible lines; the flag is [complete]. *)
Fixpoint copy_visible (label : string) (ls : list string) (w : Writers) (r : LogState) : Writers * LogState * bool :=
  match ls with
  | [] => (w, r, true)
  | line :: rest =>
      let r := log_observe label (visible_text line) r in
      let '(w, ok) := write_evidence_all (record_line (log_record label line)) w in
      if ok then copy_visible label rest w r else (w, r, false)
  end.

(** The loop over the lines of one log. *)
Fixpoint copy_lines (label : string) (ls : list (list Z)) (w : Writers) (r : LogState) : Writers * LogState * bool :=
  match ls with
  | [] => (w, r, true)
  | line :: rest =>
      let '(w, ok) := write_raw_all line w in
      if ok then
        let '(w, r, ok) := copy_visible label (visible_lines line) w r in
        if ok then copy_lines label rest w r else (w, r, false)
      else (w, r, false)
  end.

Definition log_marker (label : string) (artifact : Artifact) : list Z :=
  let lf := String newline "" in
  bytes_of (lf +:+ "===== " +:+ label +:+ " :: " +:+ artifact_name artifact +:+ " =====" +:+ lf).

(** The locals of the loop over the logs of one test. *)
Record TestLogs : Type := MkTestLogs {
  logs_writers : Writers; logs_state : LogState;
  saw_artifact : bool; copied_for_test : bool; saw_remote : bool;
}.

Definition copy_log (label : string) (s : TestLogs) (log : Artifact) : TestLogs :=
  let seen w r copied := MkTestLogs w r true (copied_for_test s || copied) (saw_remote s) in
  if negb (locally_available log) then
    MkTestLogs (logs_writers s) (logs_state s) true (copied_for_test s) true
  else
    match validated_artifact_path windows config workspace log ≫= open with
    | None => seen (logs_writers s) (logs_state s) false
    | Some file =>
        let '(w, ok) := write_raw_all (log_marker label log) (logs_writers s) in
        if ok then
          let '(w, r, copied) := copy_lines label (raw_lines file) w (logs_state s) in
          let complete := copied && negb (read_fails file) in
          seen w (log_finish complete r) complete
        else seen w (logs_state s) false
    end.

(** ** One test *)

Definition bounded_case (c : TestCase) : TestCase :=
  MkTestCase (bounded_text (case_name c) 512) (case_status c) (case_duration_ms c)
    ((fun m => bounded_text m 1000) <$> case_message c).

(** [read_to_string]. *)
Definition read_to_string (path : string) : option string :=
  file ← open path; if read_fails file then None else from_utf8 (read_bytes file).

Definition report_cases (label : string) : option (list TestCase) :=
  xml ← find (fun a => is_report "test.xml" a && artifact_matches_test a label) artifacts;
  path ← validated_artifact_path windows config workspace xml;
  len ← file_len path;
  contents ← (if len <=? 16 * 1024 * 1024 then read_to_string path else None);
  cases ← parse_test_xml contents;
  Some (bounded_case <$> take 20 (filter (fun c => case_status c ≠ TestPassed) cases)).

Fixpoint merge_cases (merged previous : list TestCase) : list TestCase :=
  match previous with
  | [] => merged
  | c :: rest =>
      if 20 <=? Z.of_nat (length merged) then merged
      else if existsb (fun m => bool_decide (case_name m = case_name c) && bool_decide (case_message m = case_message c)) merged
      then merge_cases merged rest
      else merge_cases (merged ++ [c]) rest
  end.

Definition set_log (cs : list TestCase) (available : bool) (reason : option string) (t : TestResult) : TestResult :=
  MkTestResult (test_label t) (test_status t) (duration_ms t) (attempts t) (shard t) cs available reason.

Definition any_remote_test_log : bool :=
  existsb (fun a => is_report "test.log" a && negb (locally_available a)) artifacts.

(** The body of the loop over the tests that did not pass: the test, the
    diagnostics it adds, what was written, and whether a log was copied. *)
Definition enrich_test (t : TestResult) (w : Writers) : TestResult * list Diagnostic * Writers * bool :=
  let label := test_label t in
  let previous := default (cases t) (report_cases label) in
  let matching := filter (fun a => is_report "test.log" a && artifact_matches_test a label = true) artifacts in
  let s := foldl (copy_log label) (MkTestLogs w log_default false false false) matching in
  if copied_for_test s then
    let '(reduced, ds) := finish_evidence label (log_reduction (logs_state s)) in
    let cs := if decide (reduced = []) then previous else merge_cases reduced previous in
    (set_log cs true None t, ds, logs_writers s, true)
  else
    let reason :=
      if saw_remote s || (negb (saw_artifact s) && any_remote_test_log) then "remote_test_log_unavailable"
      else if saw_artifact s then "test_log_outside_allowed_roots_or_unreadable"
      else "test_log_not_found" in
    (set_log previous false (Some reason) t, [], logs_writers s, false).

Fixpoint enrich_all (ts : list TestResult) (w : Writers) : list TestResult * list Diagnostic * Writers * bool :=
  match ts with
  | [] => ([], [], w, false)
  | t :: rest =>
      if decide (test_status t = TestPassed) then
        let '(ts, ds, w, copied) := enrich_all rest w in (t :: ts, ds, w, copied)
      else
        let '(t, ds, w, copied) := enrich_test t w in
        let '(ts, ds', w, copied') := enrich_all rest w in
        (t :: ts, ds ++ ds', w, copied || copied')
  end.

(** ** The whole phase *)

Definition set_tests (ts : list TestResult) (ds : list Diagnostic) (s : InvocationSummary) : InvocationSummary :=
  MkSummary (success s) (headline s) (targets s) (target_counts s) ds ts (test_counts s) (coverage s)
    (query_sample s) (query_result_count s) (elapsed_ms s) (truncated s) (inspect_hint s).

Definition unavailable (reason : string) (t : TestResult) : TestResult :=
  if decide (test_status t = TestPassed) then t else set_log (cases t) false (Some reason) t.
Definition set_test_log_unavailable (reason : string) (s : InvocationSummary) : InvocationSummary :=
  set_tests (unavailable reason <$> tests s) (diagnostics s) s.

(** An existing diagnostic that a diagnostic of a test log replaces. *)
Definition superseded (d existing : Diagnostic) : bool :=
  let same_message := bool_decide (message existing = message d) in
  let embedded := bool_decide (is_Some (location existing)) && bool_decide (location existing = location d)
                  && contains_str (message d) (message existing) in
  (bool_decide (category existing = CatCompilation)
   || (bool_decide (category existing = category d) && bool_decide (diagnostic_target existing = None)))
  && ((same_message && (bool_decide (location existing = location d) || bool_decide (location existing = None)))
      || embedded).

Definition supersede (existing ds : list Diagnostic) : list Diagnostic :=
  foldl (fun kept d => filter (fun e => superseded d e = false) kept) existing ds.

Definition removed (ok : bool) (file : option (list Z)) : option (list Z) := if ok then None else file.

(** [create_private_file]: the file must not exist. *)
Definition create_new (ok : bool) (file : option (list Z)) : bool := ok && bool_decide (file = None).

Definition enrich_tests (dir : LogDirectory) (s : InvocationSummary) : LogDirectory * InvocationSummary :=
  if forallb (fun t => bool_decide (test_status t = TestPassed)) (tests s) then (dir, s)
  else if (probe_raw io && bool_decide (is_Some (test_logs_raw dir)))
          || (probe_evidence io && bool_decide (is_Some (test_log_evidence dir)))
  then (dir, set_test_log_unavailable "test_log_snapshot_already_exists" s)
  else
    let made_raw := create_new (create_raw io) (raw_temporary dir) in
    let made_evidence := create_new (create_evidence io) (evidence_temporary dir) in
    if negb (made_raw && made_evidence) then
      (MkDirectory (test_logs_raw dir) (test_log_evidence dir)
         (removed (remove_raw io) (if made_raw then Some [] else raw_temporary dir))
         (removed (remove_evidence io) (if made_evidence then Some [] else evidence_temporary dir)),
       set_test_log_unavailable "test_log_snapshot_failed" s)
    else
      let '(ts, ds, w, copied_any) := enrich_all (tests s) no_writes in
      let flushed := flush_raw io && flush_evidence io in
      let renamed_raw := copied_any && flushed && rename_raw io in
      let committed := renamed_raw && rename_evidence io in
      if committed then
        (MkDirectory (Some (raw_written w)) (Some (evidence_written w)) None None,
         set_tests ts (supersede (diagnostics s) ds ++ ds) s)
      else
        (MkDirectory (if renamed_raw then Some (raw_written w) else test_logs_raw dir) (test_log_evidence dir)
           (if renamed_raw then None else removed (remove_raw io) (Some (raw_written w)))
           (removed (remove_evidence io) (Some (evidence_written w))),
         let s := set_tests ts (diagnostics s) s in
         if copied_any then set_test_log_unavailable "test_log_snapshot_failed" s else s).
End snapshot.

(** * Theorems *)

(** ** Reading *)

Lemma until_newline_concat line bytes : concat (until_newline line bytes false) = line ++ bytes.
Proof.
  revert line. induction bytes as [|b bytes IH]; intros line; cbn [until_newline orb].
  - rewrite app_nil_r. case_bool_decide as Hline; [by subst|]. cbn. by rewrite app_nil_r.
  - destruct (b =? 10); cbn [concat]; rewrite IH; [|by rewrite <- app_assoc]. by rewrite <- app_assoc.
Qed.

Lemma file_lines_concat f : read_fails f = false → concat (raw_lines f) = read_bytes f.
Proof. unfold raw_lines. intros ->. apply until_newline_concat. Qed.

(** ** Copying *)

Definition Grows (w w' : Writers) : Prop :=
  raw_written w `prefix_of` raw_written w' ∧ evidence_written w `prefix_of` evidence_written w'.
#[export] Instance Grows_preorder : PreOrder Grows.
Proof. split; [by intros w|]. intros a b c [] []. by split; etrans. Qed.

Section copying.
Context (io : SnapshotIo).
Context {IoError : Type} `{FS : FileSystem IoError} (windows : bool) (config : RunnerConfig).
Context (open : OpenFile) (file_len : string → option Z).
Context `{Redactor : BoundedRedactor} `{Terminal : TerminalText} `{Json : EvidenceJson} `{Xml : XmlReader}
  `{Logs : TestLogReducer}.
Context (workspace : string) (artifacts : list Artifact).

Lemma write_raw_spec bytes w w' ok : write_raw_all io bytes w = (w', ok) →
  Grows w w' ∧ (ok = true → raw_written w' = raw_written w ++ bytes ∧ evidence_written w' = evidence_written w).
Proof.
  unfold write_raw_all. intros [= <- <-]. cbn. split; [split; [by apply prefix_app_r|done]|].
  intros Hok%bool_decide_eq_true. by rewrite Hok.
Qed.

Lemma write_evidence_spec bytes w w' ok : write_evidence_all io bytes w = (w', ok) →
  Grows w w' ∧ (ok = true → raw_written w' = raw_written w ∧ evidence_written w' = evidence_written w ++ bytes).
Proof.
  unfold write_evidence_all. intros [= <- <-]. cbn. split; [split; [done|by apply prefix_app_r]|].
  intros Hok%bool_decide_eq_true. by rewrite Hok.
Qed.

Definition records_bytes (records : list EvidenceRecord) : list Z := concat (record_line <$> records).

Lemma copy_visible_spec label ls w r w' r' ok : copy_visible io workspace label ls w r = (w', r', ok) →
  Grows w w' ∧ (ok = true → raw_written w' = raw_written w ∧
    evidence_written w' = evidence_written w ++ records_bytes (log_record workspace label <$> ls)).
Proof.
  revert w r. induction ls as [|line ls IH]; intros w r; cbn [copy_visible].
  { intros [= <- <- <-]. split; [done|]. by rewrite app_nil_r. }
  destruct (write_evidence_all io _ w) as [w1 ok1] eqn:Hwrite. apply write_evidence_spec in Hwrite as [Hgrows Hwritten].
  destruct ok1; [|by intros [= <- <- <-]]. intros [Hgrows' Hrest]%IH. split; [by etrans|]. intros [Hraw Hevidence]%Hrest.
  destruct Hwritten as [Hraw' Hevidence']; [done|]. rewrite Hraw, Hevidence, Hraw', Hevidence'. by rewrite <- app_assoc.
Qed.

(** The records of a log. *)
Definition log_records (label : string) (ls : list (list Z)) : list EvidenceRecord :=
  log_record workspace label <$> concat (visible_lines <$> ls).

Lemma copy_lines_spec label ls w r w' r' ok : copy_lines io workspace label ls w r = (w', r', ok) →
  Grows w w' ∧ (ok = true → raw_written w' = raw_written w ++ concat ls ∧
    evidence_written w' = evidence_written w ++ records_bytes (log_records label ls)).
Proof.
  revert w r. induction ls as [|line ls IH]; intros w r; cbn [copy_lines].
  { intros [= <- <- <-]. split; [done|]. by rewrite !app_nil_r. }
  destruct (write_raw_all io line w) as [w1 ok1] eqn:Hwrite. apply write_raw_spec in Hwrite as [Hgrows Hwritten].
  destruct ok1; [|by intros [= <- <- <-]]. destruct Hwritten as [Hraw1 Hevidence1]; [done|].
  destruct (copy_visible io workspace label _ w1 r) as [[w2 r2] ok2] eqn:Hvisible.
  apply copy_visible_spec in Hvisible as [Hgrows2 Hwritten2].
  destruct ok2; [|by intros [= <- <- <-]; split; [by etrans|]]. destruct Hwritten2 as [Hraw2 Hevidence2]; [done|].
  intros [Hgrows3 Hrest]%IH. split; [by repeat (etrans; [eassumption|])|]. intros [Hraw3 Hevidence3]%Hrest.
  rewrite Hraw3, Hevidence3, Hraw2, Hevidence2, Hraw1, Hevidence1. unfold log_records, records_bytes.
  cbn [fmap list_fmap concat]. rewrite !fmap_app, concat_app, <- !app_assoc. done.
Qed.

(** A log of the test [label] is in the snapshot: its marker and all its bytes in
    the raw file, one record for each visible line in the evidence file. *)
Definition LogKept (label : string) (raw evidence : list Z) : Prop :=
  ∃ log file, (log ∈ artifacts) ∧ is_report "test.log" log = true ∧ artifact_matches_test log label = true ∧
    locally_available log = true ∧ validated_artifact_path windows config workspace log ≫= open = Some file ∧
    read_fails file = false ∧
    (∃ before after, raw = before ++ log_marker label log ++ read_bytes file ++ after) ∧
    (∃ before after, evidence = before ++ records_bytes (log_records label (raw_lines file)) ++ after).

Lemma LogKept_grows label w w' : Grows w w' →
  LogKept label (raw_written w) (evidence_written w) → LogKept label (raw_written w') (evidence_written w').
Proof.
  intros [[a Hraw] [b Hevidence]] (log & file & Hlog & Hreport & Hmatches & Hlocal & Hfile & Hread & (x & y & Hx) & (x' & y' & Hx')).
  exists log, file. rewrite Hraw, Hevidence, Hx, Hx'. split_and!; try done.
  - exists x, (y ++ a). by rewrite <- !app_assoc.
  - exists x', (y' ++ b). by rewrite <- !app_assoc.
Qed.

(** What holds of the logs of a test. *)
Definition LogsInvariant (label : string) (w : Writers) (s : TestLogs) : Prop :=
  Grows w (logs_writers s) ∧
  (copied_for_test s = true → LogKept label (raw_written (logs_writers s)) (evidence_written (logs_writers s))).

Lemma copy_log_invariant label w s log : log ∈ artifacts → is_report "test.log" log && artifact_matches_test log label = true →
  LogsInvariant label w s → LogsInvariant label w (copy_log io windows config open workspace label s log).
Proof.
  intros Hlog [Hreport Hmatches]%andb_true_iff [Hgrows Hkept]. unfold copy_log.
  destruct (locally_available log) eqn:Hlocal; [|done]. cbn [negb].
  destruct (validated_artifact_path windows config workspace log ≫= open) as [file|] eqn:Hfile; cycle 1.
  { split; cbn; [done|]. by rewrite orb_false_r. }
  destruct (write_raw_all io (log_marker label log) (logs_writers s)) as [w1 ok1] eqn:Hwrite.
  apply write_raw_spec in Hwrite as [Hgrows1 Hwritten].
  destruct ok1; cycle 1.
  { split; cbn; [by etrans|]. rewrite orb_false_r. intros ?%Hkept. by eapply LogKept_grows. }
  destruct Hwritten as [Hraw Hevidence]; [done|].
  destruct (copy_lines io workspace label (raw_lines file) w1 (logs_state s)) as [[w2 r2] copied] eqn:Hcopy.
  apply copy_lines_spec in Hcopy as [Hgrows2 Hcopied]. split; cbn; [by etrans; [|etrans]|].
  intros [Hold | [-> Hread]%andb_true_iff]%orb_true_iff; [by apply (LogKept_grows label (logs_writers s)); [etrans|apply Hkept]|].
  apply negb_true_iff in Hread. destruct Hcopied as [Hraw2 Hevidence2]; [done|].
  exists log, file. rewrite Hraw2, Hraw, Hevidence2, Hevidence, file_lines_concat by done. split_and!; try done.
  - exists (raw_written (logs_writers s)), []. by rewrite !app_nil_r, <- !app_assoc.
  - exists (evidence_written (logs_writers s)), []. by rewrite !app_nil_r.
Qed.

Lemma logs_invariant label w r : LogsInvariant label w (foldl (copy_log io windows config open workspace label)
    (MkTestLogs w r false false false)
    (filter (fun a => is_report "test.log" a && artifact_matches_test a label = true) artifacts)).
Proof.
  apply foldl_filter_invariant; [|by split]. intros s a. apply copy_log_invariant.
Qed.

(** ** Cases *)

Definition few_cases (cs : list TestCase) : Prop := (length cs ≤ 20)%nat.

Lemma merge_cases_few merged previous : few_cases merged → few_cases (merge_cases merged previous).
Proof.
  unfold few_cases. revert merged. induction previous as [|c previous IH]; intros merged Hmerged; cbn [merge_cases]; [done|].
  destruct (Z.leb_spec 20 (Z.of_nat (length merged))); [done|]. destruct (existsb _ _); apply IH; [done|].
  rewrite length_app. cbn. lia.
Qed.

Lemma finish_evidence_few label reduced : few_cases (finish_evidence label reduced).1.
Proof.
  unfold finish_evidence, few_cases. destruct (decide _); cbn; [lia|]. rewrite length_fmap, length_take. unfold MAX_FAILURES. lia.
Qed.

Lemma report_cases_few label cs :
  report_cases windows config open file_len workspace artifacts label = Some cs → few_cases cs.
Proof.
  unfold report_cases. intros (xml & _ & (path & _ & (len & _ & (contents & _ & (all & _ & [= <-])%bind_Some)%bind_Some)%bind_Some)%bind_Some)%bind_Some.
  unfold few_cases. rewrite length_fmap, length_take. lia.
Qed.

(** ** Tests *)

(** A test after the phase, for the contents of the two files. *)
Definition Enriched (raw evidence : list Z) (t t' : TestResult) : Prop :=
  test_label t' = test_label t ∧ test_status t' = test_status t ∧
  (test_status t = TestPassed → t' = t) ∧ (few_cases (cases t) → few_cases (cases t')) ∧
  (test_status t ≠ TestPassed →
     test_log_available t' = true ∧ test_log_unavailable_reason t' = None ∧ LogKept (test_label t) raw evidence ∨
     test_log_available t' = false ∧ is_Some (test_log_unavailable_reason t')).

Lemma Enriched_grows w w' t t' : Grows w w' →
  Enriched (raw_written w) (evidence_written w) t t' → Enriched (raw_written w') (evidence_written w') t t'.
Proof.
  intros Hgrows (Hlabel & Hstatus & Hpassed & Hcases & Hlog). split_and!; try done.
  intros [(Havailable & Hreason & Hkept) | Hmissing]%Hlog; [left|by right]. split_and!; try done. by eapply LogKept_grows.
Qed.

Abbreviation enrich_test := (enrich_test io windows config open file_len workspace artifacts).
Abbreviation enrich_all := (enrich_all io windows config open file_len workspace artifacts).

Lemma enrich_test_spec t w t' ds w' copied : test_status t ≠ TestPassed → enrich_test t w = (t', ds, w', copied) →
  Grows w w' ∧ Enriched (raw_written w') (evidence_written w') t t' ∧ test_log_available t' = copied.
Proof.
  intros Hstatus. unfold TestEvidence.enrich_test. destruct (logs_invariant (test_label t) w log_default) as [Hgrows Hkept].
  set (s := foldl _ _ _) in *.
  assert (few_cases (cases t) → few_cases (default (cases t) (report_cases windows config open file_len workspace artifacts (test_label t)))) as Hprevious.
  { destruct (report_cases _ _ _ _ _ _ _) as [cs|] eqn:Hreport; [|done]. intros _. by eapply report_cases_few. }
  destruct (copied_for_test s).
  - pose proof (finish_evidence_few (test_label t) (log_reduction (logs_state s))) as Hfew.
    destruct (finish_evidence _ _) as [reduced extracted]. intros [= <- <- <- <-]. split_and!; [done| |done].
    split_and!; [done|done|done| |intros _; left; by split_and!; [..|apply Hkept]].
    cbn [cases set_log]. intros ?%Hprevious. destruct (decide (reduced = [])); [done|]. by apply merge_cases_few.
  - intros [= <- <- <- <-]. split_and!; [done| |done]. split_and!; [done..|]. intros _. right. by split; [|eexists].
Qed.

Lemma enrich_all_spec ts w ts' ds w' copied : enrich_all ts w = (ts', ds, w', copied) →
  Grows w w' ∧ Forall2 (Enriched (raw_written w') (evidence_written w')) ts ts' ∧
  (copied = false → Forall (fun t => test_status t ≠ TestPassed → test_log_available t = false) ts').
Proof.
  revert w ts' ds w' copied. induction ts as [|t ts IH]; intros w ts' ds w' copied; cbn [TestEvidence.enrich_all].
  { intros [= <- <- <- <-]. by split_and!. }
  destruct (decide (test_status t = TestPassed)) as [Hpassed | Hpassed].
  - destruct (enrich_all ts w) as [[[ts1 ds1] w1] copied1] eqn:Hall. intros [= <- <- <- <-].
    destruct (IH _ _ _ _ _ Hall) as (Hgrows & Hts & Hnone). split_and!; [done| |].
    + constructor; [|done]. by split_and!.
    + intros Hcopied. constructor; [done|by apply Hnone].
  - destruct (enrich_test t w) as [[[t1 ds1] w1] copied1] eqn:Htest.
    destruct (enrich_all ts w1) as [[[ts2 ds2] w2] copied2] eqn:Hall. intros [= <- <- <- <-].
    destruct (enrich_test_spec _ _ _ _ _ _ Hpassed Htest) as (Hgrows & Ht & Havailable).
    destruct (IH _ _ _ _ _ Hall) as (Hgrows' & Hts & Hnone). split_and!; [by etrans| |].
    + constructor; [|done]. by eapply Enriched_grows.
    + intros [-> ->]%orb_false_iff. constructor; [done|by apply Hnone].
Qed.

Lemma unavailable_enriched raw evidence raw' evidence' reason ts ts' :
  Forall2 (Enriched raw evidence) ts ts' → Forall2 (Enriched raw' evidence') ts (unavailable reason <$> ts').
Proof.
  intros Hts. apply Forall2_fmap_r. eapply Forall2_impl; [exact Hts|].
  intros t t' (Hlabel & Hstatus & Hpassed & Hcases & Hlog). unfold compose, unavailable.
  destruct (decide (test_status t' = TestPassed)) as [Hp | Hp].
  - split_and!; try done. congruence.
  - split_and!; try done; [congruence|]. intros _. right. by split; [|eexists].
Qed.

Lemma Enriched_none raw evidence ts :
  Forall (fun t => test_status t = TestPassed) ts → Forall2 (Enriched raw evidence) ts ts.
Proof. intros Hall. apply Forall_Forall2_diag. eapply Forall_impl; [exact Hall|]. intros t Ht. by split_and!. Qed.

(** Every test marked unavailable, whatever it was. *)
Lemma all_unavailable raw evidence reason ts : Forall2 (Enriched raw evidence) ts (unavailable reason <$> ts).
Proof.
  apply Forall2_fmap_r, Forall_Forall2_diag, Forall_forall. intros t _. unfold compose, unavailable.
  destruct (decide (test_status t = TestPassed)); split_and!; try done. intros _. right. by split; [|eexists].
Qed.

Abbreviation enrich_tests := (enrich_tests io windows config open file_len workspace artifacts).

(** A test whose log is said to be available. *)
Definition Shown (t : TestResult) : Prop := test_status t ≠ TestPassed ∧ test_log_available t = true.

Lemma unavailable_not_shown reason ts : ¬ Exists Shown (unavailable reason <$> ts).
Proof.
  rewrite Exists_exists. intros (t & (t' & -> & _)%list_elem_of_fmap & Hstatus & Havailable). revert Hstatus Havailable.
  unfold unavailable. by destruct (decide (test_status t' = TestPassed)).
Qed.

Lemma all_passed_not_shown ts : forallb (fun t => bool_decide (test_status t = TestPassed)) ts = true →
  Forall (fun t => test_status t = TestPassed) ts ∧ ¬ Exists Shown ts.
Proof.
  rewrite List.forallb_forall. intros Hall. assert (∀ t, t ∈ ts → test_status t = TestPassed) as Hpassed.
  { intros t Ht%list_elem_of_In. by apply Hall, bool_decide_eq_true in Ht. }
  split; [by apply Forall_forall|]. rewrite Exists_exists. intros (t & Ht%Hpassed & Hstatus & _). done.
Qed.

End copying.

(** ** The records of the evidence file *)

(** A record without the path of the workspace, of bounded length. *)
Definition PrivateRecord (workspace : string) (r : EvidenceRecord) : Prop :=
  ∃ label text, evidence_label r = Some label ∧ evidence_text r = "[" +:+ label +:+ "] " +:+ text ∧
    Hidden workspace text ∧ str_len text ≤ 4096.

Section recording.
Context (io : SnapshotIo).
Context {IoError : Type} `{FS : FileSystem IoError} (windows : bool) (config : RunnerConfig).
Context (open : OpenFile) (file_len : string → option Z).
Context `{Redactor : BoundedRedactor} `{Terminal : TerminalText} `{Json : EvidenceJson} `{Xml : XmlReader}
  `{Logs : TestLogReducer}.
Context (workspace : string) (artifacts : list Artifact).
Context (Htoken : apart (bytes_of WORKSPACE_TOKEN) (bytes_of workspace)).
Context (Hreplacement : apart REPLACEMENT (bytes_of workspace)).

Abbreviation Private := (Forall (PrivateRecord workspace)).

(** The records of a complete log of the test [label] are among [rs]. *)
Definition RecordsOf (label : string) (rs : list EvidenceRecord) : Prop :=
  ∃ log file before after, (log ∈ artifacts) ∧ is_report "test.log" log = true ∧ artifact_matches_test log label = true ∧
    validated_artifact_path windows config workspace log ≫= open = Some file ∧ read_fails file = false ∧
    rs = before ++ log_records workspace label (raw_lines file) ++ after.

Lemma RecordsOf_app label a rs b : RecordsOf label rs → RecordsOf label (a ++ rs ++ b).
Proof.
  intros (log & file & before & after & Hlog & Hreport & Hmatches & Hfile & Hread & ->).
  exists log, file, (a ++ before), (after ++ b). by rewrite <- !app_assoc.
Qed.

Lemma records_bytes_app a b : records_bytes (a ++ b) = records_bytes a ++ records_bytes b.
Proof. unfold records_bytes. by rewrite fmap_app, concat_app. Qed.

Lemma log_records_private label ls : Private (log_records workspace label ls).
Proof.
  apply Forall_fmap, Forall_forall. intros line _. exists label, (visible_text workspace line). split_and!; [done|done| |].
  - apply redact_str_hidden; [done|]. by apply replace_hides.
  - by apply redact_str_len.
Qed.

(** From [w] to [w'], exactly the records [more] were written. *)
Definition Recorded (w w' : Writers) (more : list EvidenceRecord) : Prop :=
  evidence_written w' = evidence_written w ++ records_bytes more ∧ Private more.

Lemma Recorded_nil w w' : evidence_written w' = evidence_written w → Recorded w w' [].
Proof. intros Heq. split; [|done]. cbn. by rewrite app_nil_r. Qed.

Lemma Recorded_app w w1 w2 a b : Recorded w w1 a → Recorded w1 w2 b → Recorded w w2 (a ++ b).
Proof. intros [Ha ?] [Hb ?]. split; [|by apply Forall_app]. by rewrite Hb, Ha, records_bytes_app, <- app_assoc. Qed.

Context (Hwrites : ∀ n, write_evidence io n = None).

Lemma copy_visible_total label ls w r w' r' ok : copy_visible io workspace label ls w r = (w', r', ok) → ok = true.
Proof.
  revert w r. induction ls as [|line ls IH]; intros w r; cbn [copy_visible]; [by intros [= _ _ <-]|].
  unfold write_evidence_all. rewrite Hwrites, bool_decide_true by done. apply IH.
Qed.

Lemma raw_write_records bytes w w' ok : write_raw_all io bytes w = (w', ok) → evidence_written w' = evidence_written w.
Proof. unfold write_raw_all. by intros [= <- <-]. Qed.

Lemma copy_lines_records label ls w r w' r' ok : copy_lines io workspace label ls w r = (w', r', ok) →
  ∃ more, Recorded w w' more ∧ (ok = true → more = log_records workspace label ls).
Proof.
  intros Hcopy. destruct ok.
  { apply copy_lines_spec in Hcopy as [_ Hwritten]. destruct Hwritten as [_ Hevidence]; [done|]. eexists.
    split; [split; [exact Hevidence|apply log_records_private]|done]. }
  enough (∃ more, Recorded w w' more) as [more Hmore] by (by exists more).
  revert w r Hcopy. induction ls as [|line ls IH]; intros w r; cbn [copy_lines]; [done|].
  destruct (write_raw_all io line w) as [w1 ok1] eqn:Hwrite. apply raw_write_records in Hwrite.
  destruct ok1; [|intros [= <- <-]; exists []; by apply Recorded_nil].
  destruct (copy_visible io workspace label _ w1 r) as [[w2 r2] ok2] eqn:Hvisible.
  pose proof (copy_visible_total _ _ _ _ _ _ _ Hvisible) as ->.
  apply copy_visible_spec in Hvisible as [_ Hvisible]. destruct (Hvisible eq_refl) as [_ Hevidence]. intros [more Hmore]%IH.
  eexists. eapply Recorded_app; [by apply Recorded_nil|]. eapply Recorded_app; [|exact Hmore].
  split; [exact Hevidence|]. pose proof (log_records_private label [line]) as Hprivate.
  unfold log_records in Hprivate. cbn [fmap list_fmap concat] in Hprivate. by rewrite app_nil_r in Hprivate.
Qed.

Definition RecordedLogs (label : string) (w : Writers) (s : TestLogs) : Prop :=
  ∃ more, Recorded w (logs_writers s) more ∧ (copied_for_test s = true → RecordsOf label more).

Lemma copy_log_records label w s log : log ∈ artifacts → is_report "test.log" log && artifact_matches_test log label = true →
  RecordedLogs label w s → RecordedLogs label w (copy_log io windows config open workspace label s log).
Proof.
  intros Hlog [Hreport Hmatches]%andb_true_iff (more & Hmore & Hcopied). unfold copy_log.
  destruct (locally_available log); [|by exists more]. cbn [negb].
  destruct (validated_artifact_path windows config workspace log ≫= open) as [file|] eqn:Hfile; cycle 1.
  { exists more. cbn. by rewrite orb_false_r. }
  destruct (write_raw_all io (log_marker label log) (logs_writers s)) as [w1 ok1] eqn:Hwrite. apply raw_write_records in Hwrite.
  destruct ok1; cycle 1.
  { exists (more ++ []). cbn. rewrite orb_false_r. split; [by eapply Recorded_app; [|apply Recorded_nil]|].
    by rewrite app_nil_r. }
  destruct (copy_lines io workspace label (raw_lines file) w1 (logs_state s)) as [[w2 r2] ok2] eqn:Hcopy.
  apply copy_lines_records in Hcopy as (new & Hnew & Hcomplete). exists (more ++ [] ++ new). cbn. split.
  { eapply Recorded_app; [done|]. by eapply (Recorded_app _ w1 _ []); [apply Recorded_nil|]. }
  intros [Hold | [-> Hread]%andb_true_iff]%orb_true_iff.
  - by apply (RecordsOf_app label [] more new), Hcopied.
  - rewrite Hcomplete by done. exists log, file, more, []. apply negb_true_iff in Hread. by rewrite app_nil_r.
Qed.

Lemma recorded_logs label w r : RecordedLogs label w (foldl (copy_log io windows config open workspace label)
    (MkTestLogs w r false false false)
    (filter (fun a => is_report "test.log" a && artifact_matches_test a label = true) artifacts)).
Proof.
  apply foldl_filter_invariant; [|exists []; split; [by apply Recorded_nil|done]]. intros s a. apply copy_log_records.
Qed.

Abbreviation enrich_test := (enrich_test io windows config open file_len workspace artifacts).
Abbreviation enrich_all := (enrich_all io windows config open file_len workspace artifacts).
Abbreviation enrich_tests := (enrich_tests io windows config open file_len workspace artifacts).

Lemma enrich_test_records t w t' ds w' copied : enrich_test t w = (t', ds, w', copied) →
  ∃ more, Recorded w w' more ∧ (test_log_available t' = true → RecordsOf (test_label t') more).
Proof.
  unfold TestEvidence.enrich_test. destruct (recorded_logs (test_label t) w log_default) as (more & Hmore & Hcopied).
  set (s := foldl _ _ _) in *. destruct (copied_for_test s).
  - destruct (finish_evidence _ _). intros [= <- <- <- <-]. exists more. split; [done|]. intros _. by apply Hcopied.
  - intros [= <- <- <- <-]. by exists more.
Qed.

Lemma enrich_all_records ts w ts' ds w' copied : enrich_all ts w = (ts', ds, w', copied) →
  ∃ more, Recorded w w' more ∧ ∀ t, t ∈ ts' → Shown t → RecordsOf (test_label t) more.
Proof.
  revert w ts' ds w' copied. induction ts as [|t ts IH]; intros w ts' ds w' copied; cbn [TestEvidence.enrich_all].
  { intros [= <- <- <- <-]. exists []. split; [by apply Recorded_nil|]. by intros t ?%elem_of_nil. }
  destruct (decide (test_status t = TestPassed)) as [Hpassed | Hpassed].
  - destruct (enrich_all ts w) as [[[ts1 ds1] w1] copied1] eqn:Hall. intros [= <- <- <- <-].
    destruct (IH _ _ _ _ _ Hall) as (more & Hmore & Hts). exists more. split; [done|].
    intros t' [-> | Ht']%elem_of_cons; [by intros [? _]|by apply Hts].
  - destruct (enrich_test t w) as [[[t1 ds1] w1] copied1] eqn:Htest.
    destruct (enrich_all ts w1) as [[[ts2 ds2] w2] copied2] eqn:Hall. intros [= <- <- <- <-].
    apply enrich_test_records in Htest as (a & Ha & Ht1). destruct (IH _ _ _ _ _ Hall) as (b & Hb & Hts).
    exists (a ++ b). split; [by eapply Recorded_app|]. intros t' [-> | Ht']%elem_of_cons [Hstatus Hshown].
    + by apply (RecordsOf_app _ [] a b), Ht1.
    + rewrite <- (app_nil_r (a ++ b)), <- app_assoc. by apply (RecordsOf_app _ a b []), Hts.
Qed.

Lemma records_bytes_length rs : (length rs ≤ length (records_bytes rs))%nat.
Proof.
  induction rs as [|r rs IH]; [done|]. unfold records_bytes, record_line in *. cbn [fmap list_fmap concat length].
  rewrite !length_app. cbn [length]. lia.
Qed.

Lemma json_lines_bytes rs : bytes_of (json_lines rs) = records_bytes rs.
Proof.
  induction rs as [|r rs IH]; [done|]. unfold records_bytes. cbn [json_lines foldr fmap list_fmap concat].
  rewrite bytes_of_app. unfold record_line. rewrite <- app_assoc. f_equal. cbn [app]. rewrite bytes_of_String. f_equal. exact IH.
Qed.

(** What the evidence file holds once a log is shown. *)
Lemma shown_records dir s dir' s' : enrich_tests dir s = (dir', s') → Exists Shown (tests s') →
  ∃ rs, string_of_bytes <$> test_log_evidence dir' = Some (json_lines rs) ∧ Private rs ∧
    ∀ t, t ∈ tests s' → Shown t → RecordsOf (test_label t) rs.
Proof.
  unfold TestEvidence.enrich_tests. destruct (forallb _ (tests s)) eqn:Hall.
  { apply all_passed_not_shown in Hall as [_ Hshown]. by intros [= <- <-] ?%Hshown. }
  destruct (_ || _); [by intros [= <- <-] ?%unavailable_not_shown|].
  destruct (negb _); [by intros [= <- <-] ?%unavailable_not_shown|].
  destruct (enrich_all (tests s) no_writes) as [[[ts ds] w] copied] eqn:Hts.
  pose proof (enrich_all_spec _ _ _ _ _ _ _ _ _ _ _ _ _ Hts) as (_ & _ & Hnone).
  apply enrich_all_records in Hts as (rs & [Hevidence Hprivate] & Hkept).
  destruct (copied && (flush_raw io && flush_evidence io) && rename_raw io && rename_evidence io).
  - intros [= <- <-] _. exists rs. split_and!; [|done|done]. cbn [test_log_evidence fmap option_fmap option_map]. f_equal.
    rewrite Hevidence. cbn [evidence_written no_writes app]. rewrite <- json_lines_bytes. apply bytes_of_inj.
    apply bytes_of_string_of_bytes, bytes_of_u8.
  - destruct copied; intros [= <- <-]; [by intros ?%unavailable_not_shown|]. intros (t & Ht & Hstatus & Havailable)%Exists_exists.
    specialize (Hnone eq_refl). rewrite Forall_forall in Hnone. cbn [tests set_tests] in Ht.
    by rewrite (Hnone t Ht Hstatus) in Havailable.
Qed.

(** A reader of the test-log view. *)
Section reader.
Context {RegexError : Type} `{Text : IdText} `{Files : Serializer} `{Codec : !LogCursorCodec} (not_found : IoError).

(** What the test-log view of [inspect] shows of a failed test is its whole log:
    once a log is marked available (and no write of the evidence file failed), a
    reader who follows the cursors, at any page size, sees a sequence of lines
    that contains, for every such test, every visible line of a complete log of
    it, in order and without gaps; no line shows the path of the workspace, and
    none is longer than 4096 bytes after its label. *)
Theorem test_log_pages_cover dir s dir' s' store files id n scans record width
    (Hrun : enrich_tests dir s = (dir', s')) (Hshown : Exists Shown (tests s'))
    (Hn : n ≤ 10000) (Hget : get_invocation store id = Ok record)
    (Hexists : file_test_log_exists (files id) = true)
    (Hfile : file_test_log (files id) = Ok (string_of_bytes <$> test_log_evidence dir'))
    (Hsize : Z.of_nat (length (default [] (test_log_evidence dir'))) ≤ u64_max) :
  ∃ rs,
    follow_log (read_view (RegexError := RegexError) not_found store files id None n scans ViewTestLog) width (S (length rs)) None
    = Some (evidence_text <$> rs) ∧
    Private rs ∧ (∀ t, t ∈ tests s' → Shown t → RecordsOf (test_label t) rs).
Proof.
  destruct (shown_records _ _ _ _ Hrun Hshown) as (rs & Hevidence & Hprivate & Hkept). exists rs. split_and!; [|done|done].
  assert (matching_texts (evidence_matches ViewTestLog None rs) rs 0 = evidence_text <$> rs) as <-.
  { rewrite (matching_texts_filter _ rs (fun _ => true)) by done. f_equal.
    clear. induction rs as [|r rs IH]; [done|]. rewrite filter_cons, decide_True by done. by rewrite IH. }
  apply follow_log_all with (id := id) (view := ViewTestLog) (filter := None).
  eapply evidence_file_paged; [done|exact Hget| |].
  - right. split_and!; [done|done|]. by rewrite Hfile, Hevidence.
  - destruct (test_log_evidence dir') as [bytes|]; [|done]. cbn [default fmap option_fmap option_map] in *.
    injection Hevidence as Hbytes. apply (f_equal bytes_of) in Hbytes. rewrite json_lines_bytes in Hbytes.
    pose proof (records_bytes_length rs) as Hlength. rewrite <- Hbytes in Hlength.
    assert (length (bytes_of (string_of_bytes bytes)) = length bytes) as Hsame.
    { clear. induction bytes as [|b bytes IH]; [done|]. cbn. by rewrite IH. }
    unfold Datatypes.id in Hsize. lia.
Qed.
End reader.
End recording.

(** ** The reduction phase *)

Section reduced.
Context (io : SnapshotIo).
Context {IoError : Type} `{FS : FileSystem IoError} (windows : bool) (config : RunnerConfig).
Context (open : OpenFile) (file_len : string → option Z).
Context `{Redactor : BoundedRedactor} `{Terminal : TerminalText} `{Json : EvidenceJson} `{Xml : XmlReader}
  `{Logs : TestLogReducer} `{Generic : LogCompact}.

Lemma enrich_tests_success workspace artifacts dir s :
  success (enrich_tests io windows config open file_len workspace artifacts dir s).2 = success s.
Proof.
  unfold enrich_tests. destruct (forallb _ (tests s)); [done|]. destruct (_ || _); [done|]. destruct (negb _); [done|].
  destruct (enrich_all _ _ _ _ _ _ _ _ _) as [[[ts ds] w] copied]. destruct (_ && _); [done|]. by destruct copied.
Qed.

(** The reduction phase of the program: [reduce_evidence] with Bazel's text
    diagnostics, the evidence of failed tests and the coverage report. *)
Definition reduce_captured (dir : LogDirectory) (reducers : ReducerPipeline) (l : StarlarkLimits) (c : CapturedEvidence)
    : InvocationCompletion :=
  reduce_evidence windows
    (fun artifacts s => (enrich_tests io windows config open file_len (workspace (cap_request c)) artifacts dir s).2)
    (load_coverage windows config open (workspace (cap_request c))) reducers l c.

End reduced.

Module TestEvidenceExamples.
Import InspectionExamples.
#[local] Existing Instance CursorExamples.example_codec.
#[local] Existing Instance CursorExamples.example_laws.
#[local] Existing Instance ListingExamples.example_ids.
#[local] Existing Instance StoreExamples.example_files.
#[local] Existing Instance SanitizeExamples.example_redactor.
#[local] Existing Instance plain_text.
#[local] Existing Instance example_cursors.
#[local] Existing Instance example_json.
#[local] Existing Instance ArtifactExamples.machine.

(** A reducer for which every line that names a failure is a failure. *)
#[local] Instance failing_lines : TestLogReducer := {|
  LogState := list string;
  log_default := [];
  log_observe _ line seen := if contains_str line "FAIL" then seen ++ [line] else seen;
  log_finish _ seen := seen;
  log_reduction seen := MkTestLogReduction ((fun line => MkTestFailure line line None) <$> seen) [];
|}.
#[local] Instance no_xml : XmlReader := {| xml_from_str _ := None |}.

Definition working : SnapshotIo :=
  MkSnapshotIo true true true true (fun _ => None) (fun _ => None) true true true true true true.
Definition empty_directory : LogDirectory := MkDirectory None None None None.

Definition log_text : string :=
  "FAIL: token s3cret in /w/a.go" +:+ String newline (String newline ("done" +:+ String newline "")).
Definition files (path : string) : option FileRead :=
  if bool_decide (path = ArtifactExamples.log_path) then Some (MkRead (bytes_of log_text) false) else None.

Definition failed (label : string) : TestResult := MkTestResult label TestFailed None 1 None [] false None.
Definition tested : InvocationSummary :=
  MkSummary false "2 tests failed" [] (MkTargetCounts 2 0 2) [] [failed "//a:b"; failed "//a:c"] (MkTestCounts 0 2 0 0 0)
    None [] None 5 false None.
Definition artifacts : list Artifact := [ArtifactExamples.test_log ArtifactExamples.log_path].
Definition run (io : SnapshotIo) (dir : LogDirectory) : LogDirectory * InvocationSummary :=
  enrich_tests io false ArtifactExamples.default_config files (fun _ => None) "/w" artifacts dir tested.

Example enriched_tests :
  tests (run working empty_directory).2 =
    [set_log [MkTestCase "FAIL: token [REDACTED] in <workspace>/a.go" TestFailed None
                (Some "FAIL: token [REDACTED] in <workspace>/a.go")] true None (failed "//a:b");
     set_log [] false (Some "test_log_not_found") (failed "//a:c")].
Proof. vm_compute. reflexivity. Qed.

(** The second rename fails: nothing is shown. *)
Example failed_rename :
  let io := MkSnapshotIo true true true true (fun _ => None) (fun _ => None) true true true false true true in
  Forall (fun t => test_log_available t = false ∧ test_log_unavailable_reason t = Some "test_log_snapshot_failed")
    (tests (run io empty_directory).2) ∧
  test_log_evidence (run io empty_directory).1 = None.
Proof. vm_compute. split; [repeat constructor|done]. Qed.


Definition test_files (id : InvocationId) : InvocationFiles unit :=
  MkFiles (Ok None) true (Ok (string_of_bytes <$> test_log_evidence (run working empty_directory).1)) (Ok None) (Ok None) None.

Lemma test_log_pages_cover_witness :
  ∃ rs,
    follow_log (read_view (RegexError := string) tt failed_store test_files 7 None 1 10 ViewTestLog) (fun _ => 0%nat) (S (length rs)) None
    = Some (evidence_text <$> rs) ∧ Forall (PrivateRecord "/w") rs.
Proof.
  destruct (get_invocation failed_store 7) as [record|] eqn:Hget; [|exfalso; vm_compute in Hget; discriminate].
  destruct (run working empty_directory) as [dir' s'] eqn:Hrun.
  destruct (test_log_pages_cover working false ArtifactExamples.default_config files (fun _ => None) "/w" artifacts
    ltac:(apply (bool_decide_unpack _); vm_compute; exact I) ltac:(apply (bool_decide_unpack _); vm_compute; exact I)
    ltac:(done) (RegexError := string) tt empty_directory tested dir' s' failed_store test_files 7 1 10 record (fun _ => 0%nat) Hrun)
    as (rs & Hread & Hprivate & _).
  - apply (f_equal (fun x => tests x.2)) in Hrun. cbn [snd] in Hrun. rewrite <- Hrun. left. vm_compute. split; [discriminate|reflexivity].
  - lia.
  - exact Hget.
  - reflexivity.
  - unfold test_files. cbn [file_test_log]. by rewrite Hrun.
  - apply (f_equal (fun x => test_log_evidence x.1)) in Hrun. cbn [fst] in Hrun. rewrite <- Hrun. vm_compute. discriminate.
  - exists rs. exact (conj Hread Hprivate).
Defined.

#[local] Instance no_generic : LogCompact := {| deduplicate_lines _ := []; reduce_with_policy _ _ := [] |}.
Definition example_completion : InvocationCompletion :=
  reduce_captured working false ArtifactExamples.default_config files (fun _ => None) empty_directory [] default_limits
    OutcomeExamples.example_captured.


(** The fragment of one test is also the directory of another: a log of
    [//a/b:c] is taken for a log of [//a:b]. *)
Example foreign_log_matches :
  artifact_matches_test (MkArtifact "test.log" TestLog "file:///out/execroot/w/bazel-out/k8/testlogs/a/b/c/test.log" None true)
    "//a:b" = true.
Proof. vm_compute. reflexivity. Qed.
End TestEvidenceExamples.
