(* ===== verification/Response.v ===== *)
(** * Tool results (crates/bazel-mcp-server/src/result.rs)

    What a model sees of an invocation: the result of a run and the pages of an
    inspection, encoded as JSON text, TOON or structured content, and shrunk item
    by item until they fit a byte budget.  The encoders themselves are an
    interface (serde_json and toon_format). *)

From S2P Require Import Prelude Collections Types Diagnostics Record Store QueryPaging Redaction Text Runner Sanitize Outcome Evidence Inspection.
#[global] Open Scope Z_scope.

(** ** Encodings *)

Inductive ResultEncoding : Type := EncText | EncToon | EncStructured | EncBoth.

Record RunResult : Type := MkRunResult {
  rr_invocation_id : string;
  rr_state : InvocationState;
  rr_command : string;
  rr_exit_code : option Z;
  rr_duration_ms : Z;
  rr_headline : string;
  rr_targets : TargetCounts;
  rr_tests : TestCounts;
  rr_diagnostics : list Diagnostic;
  rr_query_result_count : option Z;
  rr_query_sample : list QueryRow;
  rr_run : option RunSummary;
  rr_truncated : bool;
  rr_inspect_hint : option InspectHint;
  rr_available_views : list InspectView;
  rr_more_available : bool;
  rr_rerun_hint : option string;
}.

(** The JSON values of the two results, and the two text formats. *)
Class Wire : Type := {
  wire : Type;
  inspect_to_value : InspectResult → result string wire;
  run_to_value : RunResult → result string wire;
  json_to_string : wire → result string string;
  toon_encode : wire → result string string;
}.

Section encoding.
Context `{W : Wire}.

Record CallToolResult : Type := MkCallResult {
  content : list string;
  structured_content : option wire;
  is_error : option bool;
}.
Record EncodedResult : Type := MkEncoded { encoded_result : CallToolResult; visible_bytes : Z }.

Definition success_result (text : string) : CallToolResult := MkCallResult [text] None (Some false).

Definition encode_value (encoding : ResultEncoding) (value : wire) : result string EncodedResult :=
  match encoding with
  | EncText =>
      text ← json_to_string value;
      Ok (MkEncoded (success_result text) (str_len text))
  | EncToon =>
      match toon_encode value with
      | Err error => Err ("encode TOON result: " +:+ error)
      | Ok text => Ok (MkEncoded (success_result text) (str_len text))
      end
  | EncStructured =>
      text ← json_to_string value;
      Ok (MkEncoded (MkCallResult [] (Some value) (Some false)) (str_len text))
  | EncBoth =>
      text ← json_to_string value;
      Ok (MkEncoded (MkCallResult [text] (Some value) (Some false)) (u64_add (str_len text) (str_len text)))
  end.

Definition encode_inspect_result (encoding : ResultEncoding) (r : InspectResult) : result string EncodedResult :=
  value ← inspect_to_value r; encode_value encoding value.
Definition encode_run_result (encoding : ResultEncoding) (r : RunResult) : result string EncodedResult :=
  value ← run_to_value r; encode_value encoding value.
End encoding.

(** ** Shrinking *)

(** [shrink_utf8]: the shorter value, or [None] when it is short enough. *)
Definition shrink_utf8 (value : string) (minimum : Z) : option string :=
  let len := str_len value in
  if len <=? minimum then None
  else
    let target := Z.max (len * 3 / 4) minimum in
    let boundary := floor_boundary (bytes_of value) (Z.to_nat (Z.min target len)) in
    Some (string_of_bytes (take boundary (bytes_of value)) +:+ ellipsis).

(** [Vec::pop], when there is something to pop. *)
Definition pop {A} (l : list A) : option (list A) :=
  match l with [] => None | _ => Some (take (length l - 1) l) end.

(** The parts of a summary [shrink_inspect] changes. *)
Definition set_sample (sample : list QueryRow) (s : InspectSummary) : InspectSummary :=
  MkInspectSummary (shown_success s) (shown_headline s) (shown_targets s) (shown_tests s) (shown_diagnostics s)
    (shown_coverage s) (shown_query_result_count s) sample (shown_run s) (shown_elapsed_ms s) (shown_truncated s)
    (shown_inspect_hint s).
Definition set_shown_diagnostics (ds : list Diagnostic) (s : InspectSummary) : InspectSummary :=
  MkInspectSummary (shown_success s) (shown_headline s) (shown_targets s) (shown_tests s) ds
    (shown_coverage s) (shown_query_result_count s) (shown_query_sample s) (shown_run s) (shown_elapsed_ms s)
    (shown_truncated s) (shown_inspect_hint s).
Definition set_shown_headline (h : string) (s : InspectSummary) : InspectSummary :=
  MkInspectSummary (shown_success s) h (shown_targets s) (shown_tests s) (shown_diagnostics s)
    (shown_coverage s) (shown_query_result_count s) (shown_query_sample s) (shown_run s) (shown_elapsed_ms s)
    (shown_truncated s) (shown_inspect_hint s).
Definition mark_truncated (s : InspectSummary) : InspectSummary :=
  MkInspectSummary (shown_success s) (shown_headline s) (shown_targets s) (shown_tests s) (shown_diagnostics s)
    (shown_coverage s) (shown_query_result_count s) (shown_query_sample s) (shown_run s) (shown_elapsed_ms s) true
    (shown_inspect_hint s).

(** The smaller summary, or [None] when nothing of it can be dropped. *)
Definition shrink_summary (s : InspectSummary) : option InspectSummary :=
  match pop (shown_query_sample s) with
  | Some sample => Some (set_sample sample s)
  | None =>
      match pop (shown_diagnostics s) with
      | Some ds => Some (set_shown_diagnostics ds s)
      | None => (fun h => set_shown_headline h s) <$> shrink_utf8 (shown_headline s) 64
      end
  end.

Definition set_cases (cases : list TestCase) (t : TestResult) : TestResult :=
  MkTestResult (test_label t) (test_status t) (duration_ms t) (attempts t) (shard t) cases (test_log_available t)
    (test_log_unavailable_reason t).

(** The last test that has cases loses its last one. *)
Fixpoint pop_case (tests : list TestResult) : option (list TestResult) :=
  match tests with
  | [] => None
  | t :: rest =>
      match pop_case rest with
      | Some rest => Some (t :: rest)
      | None => (fun cases => set_cases cases t :: rest) <$> pop (cases t)
      end
  end.

Definition set_items (items : InspectPayload) (truncated : bool) (r : InspectResult) : InspectResult :=
  MkInspectResult (result_invocation_id r) (result_view r) items (result_total_count r) (result_filtered_count r)
    (result_next_cursor r) truncated (result_start_cursor r) (result_item_cursors r).

(** [shrink_inspect], [None] where it returns false. *)
Definition drop_item (r : InspectResult) : option InspectResult :=
  match payload_len (result_items r) with
  | O => None
  | S len => Some (truncate_items len r)
  end.

Definition shrink_inspect (r : InspectResult) : option InspectResult :=
  match result_items r with
  | PSummary items =>
      match last items with
      | Some summary =>
          let summary := mark_truncated summary in
          let put summary := set_items (PSummary (take (length items - 1) items ++ [summary])) true r in
          match shrink_summary summary with
          | Some summary => Some (put summary)
          | None => drop_item (put summary)
          end
      | None => drop_item r
      end
  | PTests items =>
      match pop_case items with
      | Some items => Some (set_items (PTests items) true r)
      | None => drop_item r
      end
  | _ => drop_item r
  end.

Section packing.
Context `{W : Wire} (encoding : ResultEncoding).

Definition inspect_overflow : string := "bounded bazel.inspect response could not fit its hard byte limit".

(** [encode_inspect]; [None] when the fuel is used up. *)
Fixpoint encode_inspect (fuel : nat) (r : InspectResult) (limit : Z) : option (result string EncodedResult) :=
  match fuel with
  | O => None
  | S fuel =>
      match encode_inspect_result encoding r with
      | Err error => Some (Err error)
      | Ok encoded =>
          if visible_bytes encoded <=? limit then Some (Ok encoded)
          else match shrink_inspect r with
               | None => Some (Err inspect_overflow)
               | Some r => encode_inspect fuel r limit
               end
      end
  end.

(** ** The result of a run *)

Record ExecutionResult : Type := MkExecutionResult {
  execution_record : InvocationRecord;
  tool_error : bool;
  retained : bool;
}.

Definition rerun_text : string := "rerun with --no-agent-mode for unfiltered Bazel output".

(** The first form of the result, before it is fitted. *)
Definition run_result (id_string : InvocationId → string) (e : ExecutionResult) (s : InvocationSummary) : RunResult :=
  let record := execution_record e in
  let follow_up_available :=
    truncated s || negb (length (targets s) =? 0)%nat || negb (length (tests s) =? 0)%nat
    || bool_decide (is_Some (inspect_hint s)) in
  MkRunResult (id_string (request_id (request record))) (state record) (command_as_str (command (request record)))
    (match termination record with Some (Exit code) => Some code | _ => None end)
    (bazel_wall_ms (metrics record)) (headline s) (target_counts s) (test_counts s) (diagnostics s)
    (query_result_count s) (query_sample s) (run record) (truncated s)
    (if retained e then inspect_hint s else None)
    (if retained e then FOLLOW_UP else [])
    (retained e && follow_up_available)
    (if negb (retained e) && follow_up_available then Some rerun_text else None).

(** The parts the loop of [build] changes. *)
Definition set_run_parts (headline command : string) (ds : list Diagnostic) (sample : list QueryRow)
    (run : option RunSummary) (r : RunResult) : RunResult :=
  MkRunResult (rr_invocation_id r) (rr_state r) command (rr_exit_code r) (rr_duration_ms r) headline (rr_targets r)
    (rr_tests r) ds (rr_query_result_count r) sample run (rr_truncated r) (rr_inspect_hint r)
    (rr_available_views r) (rr_more_available r) (rr_rerun_hint r).
Definition mark_run_truncated (retained : bool) (r : RunResult) : RunResult :=
  MkRunResult (rr_invocation_id r) (rr_state r) (rr_command r) (rr_exit_code r) (rr_duration_ms r) (rr_headline r)
    (rr_targets r) (rr_tests r) (rr_diagnostics r) (rr_query_result_count r) (rr_query_sample r) (rr_run r) true
    (rr_inspect_hint r) (rr_available_views r) retained
    (if retained then rr_rerun_hint r else Some rerun_text).

Definition pop_excerpt (run : option RunSummary) : option (option RunSummary) :=
  match run with
  | None => None
  | Some run =>
      (fun excerpt => Some (MkRunSummary (run_target run) (outcome run) (program_exit_code run) excerpt))
        <$> pop (output_excerpt run)
  end.

(** One round of the loop of [build], [None] where it gives up. *)
Definition shrink_run (retained : bool) (r : RunResult) : option RunResult :=
  let r := mark_run_truncated retained r in
  let put headline command ds sample run := Some (set_run_parts headline command ds sample run r) in
  match pop_excerpt (rr_run r) with
  | Some run => put (rr_headline r) (rr_command r) (rr_diagnostics r) (rr_query_sample r) run
  | None =>
      match pop (rr_query_sample r) with
      | Some sample => put (rr_headline r) (rr_command r) (rr_diagnostics r) sample (rr_run r)
      | None =>
          match pop (rr_diagnostics r) with
          | Some ds => put (rr_headline r) (rr_command r) ds (rr_query_sample r) (rr_run r)
          | None =>
              match shrink_utf8 (rr_headline r) 96 with
              | Some headline => put headline (rr_command r) (rr_diagnostics r) (rr_query_sample r) (rr_run r)
              | None =>
                  match shrink_utf8 (rr_command r) 32 with
                  | Some command => put (rr_headline r) command (rr_diagnostics r) (rr_query_sample r) (rr_run r)
                  | None => None
                  end
              end
          end
      end
  end.

Definition run_overflow : string := "bounded bazel.run response could not fit its hard byte limit".

Definition mark_error (tool_error : bool) (e : EncodedResult) : EncodedResult :=
  if tool_error
  then MkEncoded (MkCallResult (content (encoded_result e)) (structured_content (encoded_result e)) (Some true)) (visible_bytes e)
  else e.

Fixpoint fit_run (fuel : nat) (tool_error retained : bool) (limit : Z) (r : RunResult) : option (result string EncodedResult) :=
  match fuel with
  | O => None
  | S fuel =>
      match encode_run_result encoding r with
      | Err error => Some (Err error)
      | Ok encoded =>
          if visible_bytes encoded <=? limit then Some (Ok (mark_error tool_error encoded))
          else match shrink_run retained r with
               | None => Some (Err run_overflow)
               | Some r => fit_run fuel tool_error retained limit r
               end
      end
  end.

Definition run_limit (s : InvocationSummary) : Z := if success s then 2 * 1024 else 8 * 1024.

Definition build (fuel : nat) (id_string : InvocationId → string) (e : ExecutionResult) : option (result string EncodedResult) :=
  match summary (execution_record e) with
  | None => Some (Err "completed invocation has no summary")
  | Some s => fit_run fuel (tool_error e) (retained e) (run_limit s) (run_result id_string e s)
  end.

(** [build_cli]. *)
Definition build_cli (fuel : nat) (id_string : InvocationId → string) (record : InvocationRecord) : option (result string string) :=
  match build fuel id_string (MkExecutionResult record false false) with
  | None => None
  | Some (Err error) => Some (Err error)
  | Some (Ok encoded) =>
      Some (match content (encoded_result encoded) with
            | text :: _ => Ok text
            | [] =>
                match structured_content (encoded_result encoded) with
                | None => Err "encoded result has no CLI representation"
                | Some value => json_to_string value
                end
            end)
  end.
End packing.

(** * Theorems *)

(** ** Cutting a page *)

Lemma payload_truncate_len n p : payload_len (payload_truncate n p) = Nat.min n (payload_len p).
Proof. destruct p; cbn; apply length_take. Qed.

Lemma payload_truncate_twice n m p : (m ≤ n)%nat → payload_truncate m (payload_truncate n p) = payload_truncate m p.
Proof. intros Hm. destruct p; cbn; f_equal; rewrite take_take; f_equal; lia. Qed.

Lemma truncate_items_len n r : payload_len (result_items (truncate_items n r)) = Nat.min n (payload_len (result_items r)).
Proof.
  unfold truncate_items. destruct (Nat.leb_spec (payload_len (result_items r)) n); [lia|]. apply payload_truncate_len.
Qed.

(** Cutting twice is cutting once. *)
Lemma truncate_items_twice n m r : (m ≤ n)%nat → truncate_items m (truncate_items n r) = truncate_items m r.
Proof.
  intros Hm. unfold truncate_items at 2. destruct (Nat.leb_spec (payload_len (result_items r)) n) as [|Hn]; [done|].
  unfold truncate_items. cbn [result_items result_invocation_id result_view result_total_count result_filtered_count
    result_next_cursor result_truncated result_start_cursor result_item_cursors].
  rewrite payload_truncate_len. destruct (Nat.leb_spec (payload_len (result_items r)) m); [lia|].
  destruct (Nat.leb_spec (Nat.min n (payload_len (result_items r))) m) as [Hle|Hlt].
  - by replace m with n by lia.
  - rewrite payload_truncate_twice, take_take by lia. replace (Nat.min m n) with m by lia. f_equal.
    destruct m; [done|]. by rewrite lookup_take_lt by lia.
Qed.

(** The views whose items are only ever dropped. *)
Definition plain_payload (p : InspectPayload) : bool :=
  match p with PSummary _ | PTests _ => false | _ => true end.

Lemma plain_truncate n r : plain_payload (result_items (truncate_items n r)) = plain_payload (result_items r).
Proof. unfold truncate_items. destruct (_ <=? _)%nat; [done|]. by destruct (result_items r). Qed.

Lemma shrink_plain r : plain_payload (result_items r) = true → shrink_inspect r = drop_item r.
Proof. unfold shrink_inspect. by destruct (result_items r). Qed.

Section packing_theorems.
Context `{W : Wire} (encoding : ResultEncoding) (limit : Z).

(** The first [n] items of a page fit. *)
Definition fits (r : InspectResult) (n : nat) : Prop :=
  ∃ e, encode_inspect_result encoding (truncate_items n r) = Ok e ∧ visible_bytes e ≤ limit.

Context (Hencodes : ∀ r, ∃ e, encode_inspect_result encoding r = Ok e).

Lemma not_fits r n e :
  encode_inspect_result encoding (truncate_items n r) = Ok e → limit < visible_bytes e → ¬ fits r n.
Proof. intros He Hbig (e' & He' & Hfit). rewrite He in He'. injection He' as <-. lia. Qed.

Lemma not_fits_up_to r n : ¬ fits r (S n) → (∀ k, (k ≤ n)%nat → ¬ fits r k) → ∀ k, (k ≤ S n)%nat → ¬ fits r k.
Proof. intros Hlast Hbelow k Hk. destruct (decide (k = S n)) as [->|]; [done|]. apply Hbelow. lia. Qed.

Lemma pack_from r n fuel :
  plain_payload (result_items r) = true → (n ≤ payload_len (result_items r))%nat → (n < fuel)%nat →
  (∃ m e, (m ≤ n)%nat ∧ encode_inspect encoding fuel (truncate_items n r) limit = Some (Ok e) ∧
     encode_inspect_result encoding (truncate_items m r) = Ok e ∧ visible_bytes e ≤ limit ∧
     ∀ k, (m < k ≤ n)%nat → ¬ fits r k) ∨
  (encode_inspect encoding fuel (truncate_items n r) limit = Some (Err inspect_overflow) ∧ ∀ k, (k ≤ n)%nat → ¬ fits r k).
Proof.
  intros Hplain. revert fuel. induction n as [|n IH]; intros [|fuel] Hn Hfuel; try lia; cbn [encode_inspect].
  - destruct (Hencodes (truncate_items 0 r)) as [e He]. rewrite He. destruct (Z.leb_spec (visible_bytes e) limit) as [Hfit|Hbig].
    { left. exists 0%nat, e. split_and!; [done|done|done|done|lia]. }
    right. rewrite shrink_plain by (by rewrite plain_truncate). unfold drop_item. rewrite truncate_items_len. split; [done|].
    intros k Hk. replace k with 0%nat by lia. by eapply not_fits.
  - destruct (Hencodes (truncate_items (S n) r)) as [e He]. rewrite He. destruct (Z.leb_spec (visible_bytes e) limit) as [Hfit|Hbig].
    { left. exists (S n), e. split_and!; [done|done|done|done|lia]. }
    apply (not_fits r (S n) e) in Hbig; [|done].
    rewrite shrink_plain by (by rewrite plain_truncate). unfold drop_item. rewrite truncate_items_len, Nat.min_l by lia.
    rewrite truncate_items_twice by lia.
    destruct (IH fuel) as [(m & e' & Hm & Hpack & Hm' & Hfit & Hmore) | [Hpack Hmore]]; [lia|lia|left|right].
    + exists m, e'. split_and!; [lia|done|done|done|]. intros k Hk. destruct (decide (k = S n)) as [->|]; [done|]. apply Hmore. lia.
    + split; [done|]. by apply not_fits_up_to.
Qed.

(** A page of diagnostics, artifacts, coverage, query rows, invocations or
    log lines is shown with as many of its first items as fit the byte limit, its
    cursor pointing behind the last one shown, and fails only when not even the
    empty page fits; one round more than the page has items is enough. *)
Theorem packed_page_spec r :
  plain_payload (result_items r) = true →
  (∃ n e, encode_inspect encoding (S (payload_len (result_items r))) r limit = Some (Ok e) ∧
     encode_inspect_result encoding (truncate_items n r) = Ok e ∧ visible_bytes e ≤ limit ∧
     ∀ k, (n < k ≤ payload_len (result_items r))%nat → ¬ fits r k) ∨
  (encode_inspect encoding (S (payload_len (result_items r))) r limit = Some (Err inspect_overflow) ∧ ∀ k, ¬ fits r k).
Proof.
  intros Hplain. assert (Hwhole : truncate_items (payload_len (result_items r)) r = r) by (unfold truncate_items; by rewrite Nat.leb_refl).
  destruct (pack_from r (payload_len (result_items r)) (S (payload_len (result_items r))) Hplain) as [(n & e & Hn & Hpack & He & Hfit & Hmore) | [Hpack Hmore]];
    [lia|lia|left|right]; rewrite Hwhole in Hpack.
  - by exists n, e.
  - split; [done|]. intros k. destruct (decide (k ≤ payload_len (result_items r))%nat) as [|Hk]; [by apply Hmore|].
    intros (e & He & Hfit). apply (Hmore (payload_len (result_items r))); [lia|]. exists e. split; [|done]. rewrite Hwhole.
    unfold truncate_items in He. destruct (Nat.leb_spec (payload_len (result_items r)) k); [done|lia].
Qed.
End packing_theorems.

(** ** Shortening a text *)

Lemma shrink_utf8_None value minimum : shrink_utf8 value minimum = None ↔ str_len value ≤ minimum.
Proof. unfold shrink_utf8. destruct (Z.leb_spec (str_len value) minimum); split; (done || lia). Qed.

(** The text is longer than the minimum, and the minimum is not inside a
    character. *)
Definition Stuck (minimum : Z) (value : string) : Prop :=
  0 ≤ minimum < str_len value ∧ is_char_boundary (bytes_of value) (Z.to_nat minimum) = true.

Lemma floor_boundary_above value low boundary :
  is_char_boundary value low = true → (low ≤ boundary)%nat → (low ≤ floor_boundary value boundary)%nat.
Proof.
  intros Hlow. induction boundary as [|boundary IH]; intros Hle; cbn [floor_boundary].
  - destruct (is_char_boundary value 0); lia.
  - destruct (is_char_boundary value (S boundary)) eqn:Hb; [lia|].
    apply IH. destruct (decide (low = S boundary)) as [->|]; [congruence|lia].
Qed.

(** Such a text stays longer than the minimum, however often it is shortened. *)
Lemma shrink_utf8_stuck minimum value :
  Stuck minimum value → ∃ value', shrink_utf8 value minimum = Some value' ∧ Stuck minimum value'.
Proof.
  intros [Hlen Hmin]. unfold shrink_utf8. destruct (Z.leb_spec (str_len value) minimum); [lia|].
  eexists. split; [done|]. set (boundary := floor_boundary _ _).
  assert (Hlow : (Z.to_nat minimum ≤ boundary)%nat) by (apply floor_boundary_above; [done|lia]).
  assert (Hhigh : (boundary ≤ length (bytes_of value))%nat).
  { etransitivity; [apply floor_boundary_spec|]. rewrite <- length_bytes_of in *. lia. }
  pose proof (length_bytes_of (string_of_bytes (take boundary (bytes_of value)) +:+ ellipsis)) as Hlength.
  rewrite bytes_of_app, bytes_of_string_of_bytes in Hlength by apply Forall_take, bytes_of_u8.
  rewrite length_app, length_take, Nat.min_l in Hlength by done. unfold Stuck.
  rewrite <- Hlength, bytes_of_app, bytes_of_string_of_bytes by apply Forall_take, bytes_of_u8.
  split; [cbn [bytes_of ellipsis string_of_bytes length]; cbn; lia|].
  destruct (decide (Z.to_nat minimum = boundary)) as [->|Hne].
  - unfold is_char_boundary. rewrite lookup_app_r by (rewrite length_take; lia).
    rewrite length_take, Nat.min_l, Nat.sub_diag by done. apply orb_true_r.
  - revert Hmin. unfold is_char_boundary. rewrite lookup_app_l by (rewrite length_take; lia). rewrite lookup_take_lt by lia.
    rewrite !orb_true_iff, !bool_decide_eq_true. rewrite <- length_bytes_of in Hlen. intros [[Hmin|Hmin]|Hmin]; [auto|lia|auto].
Qed.

(** ** Inspections that return *)

Definition summary_size (s : InspectSummary) : nat := length (shown_query_sample s) + length (shown_diagnostics s).
Definition payload_size (p : InspectPayload) : nat :=
  match p with
  | PSummary items => length items + sum_list_with summary_size items
  | PTests items => length items + sum_list_with (fun t => length (cases t)) items
  | _ => payload_len p
  end.

(** The headlines are short. *)
Definition Settled (p : InspectPayload) : Prop :=
  match p with PSummary items => Forall (fun s => str_len (shown_headline s) ≤ 64) items | _ => True end.

Lemma pop_Some {A} (l l' : list A) : pop l = Some l' → length l = S (length l').
Proof. destruct l as [|x l]; [done|]. intros [= <-]. rewrite length_take. cbn. lia. Qed.

Lemma shrink_summary_smaller s s' :
  str_len (shown_headline s) ≤ 64 → shrink_summary s = Some s' →
  (summary_size s' < summary_size s)%nat ∧ shown_headline s' = shown_headline s.
Proof.
  intros Hshort. unfold shrink_summary, summary_size.
  destruct (pop (shown_query_sample s)) as [sample|] eqn:Hsample.
  { apply pop_Some in Hsample. intros [= <-]. cbn. split; [lia|done]. }
  destruct (pop (shown_diagnostics s)) as [ds|] eqn:Hds.
  { apply pop_Some in Hds. intros [= <-]. cbn. split; [lia|done]. }
  apply shrink_utf8_None in Hshort. by rewrite Hshort.
Qed.

Lemma pop_case_smaller items items' : pop_case items = Some items' →
  length items' = length items ∧
  (sum_list_with (fun t => length (cases t)) items' < sum_list_with (fun t => length (cases t)) items)%nat.
Proof.
  revert items'. induction items as [|t items IH]; intros items'; cbn [pop_case]; [done|].
  destruct (pop_case items) as [rest|] eqn:Hrest.
  - intros [= <-]. destruct (IH rest eq_refl). cbn. lia.
  - destruct (pop (cases t)) as [cs|] eqn:Hcs; cbn; [|done]. apply pop_Some in Hcs. intros [= <-]. cbn. lia.
Qed.

Lemma sum_list_take {A} (f : A → nat) n l : (sum_list_with f (take n l) ≤ sum_list_with f l)%nat.
Proof. rewrite <- (take_drop n l) at 2. rewrite sum_list_with_app. lia. Qed.

Lemma drop_item_smaller r r' : Settled (result_items r) → drop_item r = Some r' →
  (payload_size (result_items r') < payload_size (result_items r))%nat ∧ Settled (result_items r').
Proof.
  unfold drop_item. intros Hsettled. destruct (payload_len (result_items r)) as [|len] eqn:Hlen; [done|]. intros [= <-].
  unfold truncate_items. rewrite Hlen. destruct (Nat.leb_spec (S len) len); [lia|]. cbn [result_items].
  destruct (result_items r) as [l|l|l|l|l|l|l|l|l|l]; cbn in Hlen |- *; rewrite ?length_take; try (split; [lia|done]).
  - pose proof (sum_list_take summary_size len l). split; [lia|]. by apply Forall_take.
  - pose proof (sum_list_take (fun t => length (cases t)) len l). split; [lia|done].
Qed.

Lemma last_split {A} (l : list A) x : last l = Some x → l = take (length l - 1) l ++ [x].
Proof.
  intros [l' ->]%last_Some. rewrite length_app, Nat.add_sub. by rewrite take_app_length.
Qed.

Lemma shrink_inspect_smaller r r' : Settled (result_items r) → shrink_inspect r = Some r' →
  (payload_size (result_items r') < payload_size (result_items r))%nat ∧ Settled (result_items r').
Proof.
  unfold shrink_inspect. intros Hsettled. pose proof (drop_item_smaller r r' Hsettled) as Hdrop.
  destruct (result_items r) as [l|l|l|l|l|l|l|l|l|l] eqn:Hitems; try exact Hdrop.
  - destruct (last l) as [s|] eqn:Hlast; [|exact Hdrop]. apply last_split in Hlast. cbn in Hsettled.
    rewrite Hlast in Hsettled. apply Forall_app in Hsettled as [Hinit [Hs _]%Forall_cons].
    assert (Hsize : payload_size (PSummary l) = payload_size (PSummary (take (length l - 1) l ++ [mark_truncated s]))).
    { rewrite Hlast at 1. cbn. by rewrite !length_app, !sum_list_with_app. }
    rewrite Hsize. destruct (shrink_summary (mark_truncated s)) as [s'|] eqn:Hshrink.
    + apply shrink_summary_smaller in Hshrink as [Hsmall Hhead]; [|done]. intros [= <-]. cbn [result_items set_items payload_size Settled].
      rewrite !length_app, !sum_list_with_app. cbn [sum_list_with length]. split; [lia|]. apply Forall_app. split; [done|]. constructor; [|done].
      by rewrite Hhead.
    + intros Hput. apply drop_item_smaller in Hput; [done|]. cbn. apply Forall_app. by repeat constructor.
  - destruct (pop_case l) as [l'|] eqn:Hcases; [|exact Hdrop]. apply pop_case_smaller in Hcases as [Hlen Hsum].
    intros [= <-]. cbn. split; [lia|done].
Qed.

(** An inspection whose headline is at most 64 bytes long, and every view
    without headlines, is answered after a number of rounds that the size of the
    page bounds, and an answer never exceeds the byte limit. *)
Lemma inspection_response_bounded `{W : Wire} encoding limit r :
  Settled (result_items r) →
  ∃ outcome, encode_inspect encoding (S (payload_size (result_items r))) r limit = Some outcome ∧
    ∀ e, outcome = Ok e → visible_bytes e ≤ limit.
Proof.
  remember (payload_size (result_items r)) as n eqn:Hn. assert (Hle : (payload_size (result_items r) ≤ n)%nat) by lia. clear Hn.
  revert r Hle. induction n as [|n IH]; intros r Hle Hsettled; cbn [encode_inspect].
  all: destruct (encode_inspect_result encoding r) as [e|error]; [|by eexists].
  all: destruct (Z.leb_spec (visible_bytes e) limit); [eexists; split; [done|]; by intros e' [= <-]|].
  all: destruct (shrink_inspect r) as [r'|] eqn:Hshrink; [|by eexists].
  all: apply shrink_inspect_smaller in Hshrink as [Hsmall Hsettled']; [|done].
  - lia.
  - apply IH; [lia|done].
Qed.

(** ** Inspections that do not *)

Definition excerpt_bytes (s : InspectSummary) : Z :=
  match shown_run s with Some run => foldr (fun line total => str_len line + total) 0 (output_excerpt run) | None => 0 end.

(** A summary that is shrunk without getting anywhere. *)
Definition Unshrinkable (limit : Z) (r : InspectResult) : Prop :=
  ∃ s, result_items r = PSummary [s] ∧ Stuck 64 (shown_headline s) ∧ limit < excerpt_bytes s.

Lemma shrink_unshrinkable limit r : Unshrinkable limit r → ∃ r', shrink_inspect r = Some r' ∧ Unshrinkable limit r'.
Proof.
  intros (s & Hitems & Hstuck & Hexcerpt). unfold shrink_inspect. rewrite Hitems. cbn [last length Nat.sub take app].
  unfold shrink_summary. cbn [mark_truncated shown_query_sample shown_diagnostics shown_headline].
  destruct (pop (shown_query_sample s)) as [sample|]; [eexists; split; [done|]; eexists; split_and!; done|].
  destruct (pop (shown_diagnostics s)) as [ds|]; [eexists; split; [done|]; eexists; split_and!; done|].
  destruct (shrink_utf8_stuck 64 (shown_headline s) Hstuck) as (h & -> & Hh). cbn. eexists. split; [done|]. by eexists.
Qed.

(** C23: The inspection of a run whose headline is longer than 64 bytes is never
    answered when the excerpt of the program's output alone exceeds the byte
    limit: the excerpt is not dropped, and shortening the headline to 64 bytes
    appends three, so that every round shortens it again. *)
Theorem summary_inspection_hangs `{W : Wire} encoding limit r
    (Hshown : ∀ r' s, result_items r' = PSummary [s] →
      ∃ e, encode_inspect_result encoding r' = Ok e ∧ excerpt_bytes s ≤ visible_bytes e)
    (Hr : Unshrinkable limit r) :
  ∀ fuel, encode_inspect encoding fuel r limit = None.
Proof.
  intros fuel. revert r Hr. induction fuel as [|fuel IH]; intros r Hr; [done|]. cbn [encode_inspect].
  pose proof Hr as (s & Hitems & _ & Hexcerpt). destruct (Hshown r s Hitems) as (e & -> & He).
  destruct (Z.leb_spec (visible_bytes e) limit); [lia|].
  destruct (shrink_unshrinkable limit r Hr) as (r' & -> & Hr'). by apply IH.
Qed.

(** ** The result of a run *)

Section runs.
Context `{W : Wire} (encoding : ResultEncoding).

Lemma mark_error_bytes tool_error e : visible_bytes (mark_error tool_error e) = visible_bytes e.
Proof. by destruct tool_error. Qed.

Lemma fit_run_bounded fuel tool_error retained limit r e :
  fit_run encoding fuel tool_error retained limit r = Some (Ok e) → visible_bytes e ≤ limit.
Proof.
  revert r. induction fuel as [|fuel IH]; intros r; cbn [fit_run]; [done|].
  destruct (encode_run_result encoding r) as [encoded|]; [|done].
  destruct (Z.leb_spec (visible_bytes encoded) limit).
  - intros [= <-]. by rewrite mark_error_bytes.
  - destruct (shrink_run retained r) as [r'|]; [apply IH|done].
Qed.

Definition run_size (r : RunResult) : nat :=
  length (rr_query_sample r) + length (rr_diagnostics r)
  + match rr_run r with Some run => length (output_excerpt run) | None => 0 end.

Lemma shrink_run_smaller retained r r' :
  str_len (rr_headline r) ≤ 96 → str_len (rr_command r) ≤ 32 → shrink_run retained r = Some r' →
  (run_size r' < run_size r)%nat ∧ rr_headline r' = rr_headline r ∧ rr_command r' = rr_command r.
Proof.
  intros Hhead Hcommand. unfold shrink_run, run_size, pop_excerpt.
  cbn [mark_run_truncated rr_run rr_query_sample rr_diagnostics rr_headline rr_command].
  apply shrink_utf8_None in Hhead, Hcommand.
  destruct (rr_run r) as [run|]; [destruct (pop (output_excerpt run)) as [excerpt|] eqn:Hexcerpt|]; cbn [fmap option_fmap option_map].
  1: { apply pop_Some in Hexcerpt. intros [= <-]. cbn. split; [lia|done]. }
  all: destruct (pop (rr_query_sample r)) as [sample|] eqn:Hsample;
    [apply pop_Some in Hsample; intros [= <-]; cbn; split; [lia|done]|].
  all: destruct (pop (rr_diagnostics r)) as [ds|] eqn:Hds;
    [apply pop_Some in Hds; intros [= <-]; cbn; split; [lia|done]|].
  all: by rewrite Hhead, Hcommand.
Qed.

Lemma fit_run_returns fuel tool_error retained limit r :
  str_len (rr_headline r) ≤ 96 → str_len (rr_command r) ≤ 32 → (run_size r < fuel)%nat →
  is_Some (fit_run encoding fuel tool_error retained limit r).
Proof.
  revert r. induction fuel as [|fuel IH]; intros r Hhead Hcommand Hfuel; [lia|]. cbn [fit_run].
  destruct (encode_run_result encoding r) as [encoded|]; [|by eexists].
  destruct (_ <=? _); [by eexists|]. destruct (shrink_run retained r) as [r'|] eqn:Hshrink; [|by eexists].
  apply shrink_run_smaller in Hshrink as (Hsmall & Hh & Hc); [|done..].
  apply IH; rewrite ?Hh, ?Hc; (done || lia).
Qed.

Lemma shrink_run_stuck retained r : Stuck 96 (rr_headline r) →
  ∃ r', shrink_run retained r = Some r' ∧ Stuck 96 (rr_headline r').
Proof.
  intros Hstuck. unfold shrink_run. cbn [mark_run_truncated rr_run rr_query_sample rr_diagnostics rr_headline rr_command].
  destruct (pop_excerpt _); [by eexists|]. destruct (pop _); [by eexists|]. destruct (pop _); [by eexists|].
  destruct (shrink_utf8_stuck 96 (rr_headline r) Hstuck) as (h & -> & Hh). by eexists.
Qed.

Lemma fit_run_stuck fuel tool_error retained limit r :
  (∀ r', ∃ e, encode_run_result encoding r' = Ok e) → Stuck 96 (rr_headline r) →
  fit_run encoding fuel tool_error retained limit r = None ∨
  ∃ e, fit_run encoding fuel tool_error retained limit r = Some (Ok e).
Proof.
  intros Hencodes. revert r. induction fuel as [|fuel IH]; intros r Hstuck; cbn [fit_run]; [by left|].
  destruct (Hencodes r) as [e ->]. destruct (_ <=? _); [right; by eexists|].
  destruct (shrink_run_stuck retained r Hstuck) as (r' & -> & Hr'). by apply IH.
Qed.

(** The result of a run never exceeds 2048 bytes for a success and 8192
    for a failure.  With a headline of at most 96 and a command of at most 32
    bytes it is returned, or refused, after a bounded number of rounds; with a
    longer headline it is never refused, so that one that cannot fit is never
    answered. *)
Theorem run_response_spec id_string e s :
  summary (execution_record e) = Some s →
  let limit := if success s then 2048 else 8192 in
  (∀ fuel encoded, build encoding fuel id_string e = Some (Ok encoded) → visible_bytes encoded ≤ limit) ∧
  (str_len (headline s) ≤ 96 → str_len (command_as_str (command (request (execution_record e)))) ≤ 32 →
     is_Some (build encoding (S (run_size (run_result id_string e s))) id_string e)) ∧
  ((∀ r, ∃ encoded, encode_run_result encoding r = Ok encoded) → Stuck 96 (headline s) →
     ∀ fuel, build encoding fuel id_string e = None ∨ ∃ encoded, build encoding fuel id_string e = Some (Ok encoded)).
Proof.
  intros Hsummary limit. unfold build. rewrite Hsummary. split_and!.
  - intros fuel encoded. apply fit_run_bounded.
  - intros Hhead Hcommand. apply fit_run_returns; [done|done|lia].
  - intros Hencodes Hstuck fuel. by apply fit_run_stuck.
Qed.
End runs.

Module ResponseExamples.
(** An encoder that shows the texts one after the other. *)
Definition shown_texts (r : InspectResult) : list string :=
  match result_items r with
  | PSummary [s] => shown_headline s :: match shown_run s with Some run => output_excerpt run | None => [] end
  | PLog items | PTestLog items => items
  | _ => []
  end.
Definition join_texts (texts : list string) : string := foldr String.append "" texts.
#[local] Instance example_wire : Wire := {|
  wire := string; inspect_to_value r := Ok (join_texts (shown_texts r)); run_to_value r := Ok (rr_headline r);
  json_to_string := Ok; toon_encode := Ok |}.

Fixpoint repeat_x (n : nat) : string := match n with O => "" | S n => "x" +:+ repeat_x n end.

Definition example_page : InspectResult :=
  with_start_cursor None
    (new_inspect_result (Some 7) (PLog ["one"; "two"; "three"]) None None (Some "after three") true
       ["after one"; "after two"; "after three"]).

Lemma packed_page_spec_witness :
  encode_inspect EncText 4 example_page 7 = Some (Ok (MkEncoded (MkCallResult ["onetwo"] None (Some false)) 6)) ∧
  ((∃ n e, encode_inspect EncText 4 example_page 7 = Some (Ok e) ∧
     encode_inspect_result EncText (truncate_items n example_page) = Ok e ∧ visible_bytes e ≤ 7 ∧
     ∀ k, (n < k ≤ 3)%nat → ¬ fits EncText 7 example_page k) ∨
   (encode_inspect EncText 4 example_page 7 = Some (Err inspect_overflow) ∧ ∀ k, ¬ fits EncText 7 example_page k)).
Proof.
  split; [reflexivity|].
  assert (Hencodes : ∀ r, ∃ e, encode_inspect_result EncText r = Ok e) by (intros r; eexists; reflexivity).
  apply (packed_page_spec EncText 7 Hencodes example_page eq_refl).
Defined.

Example packed_cursor : result_next_cursor (truncate_items 2 example_page) = Some "after two".
Proof. reflexivity. Qed.

(** A run with a long target name and a verbose program. *)
Definition verbose_summary : InspectSummary :=
  MkInspectSummary false (repeat_x 70) (MkTargetCounts 1 1 0) (MkTestCounts 0 0 0 0 0) [] None None []
    (Some (MkRunSummary "//cmd" ProgramFailed (Some 1) [repeat_x 300; repeat_x 300])) 5 false None.
Definition verbose_page : InspectResult :=
  new_inspect_result (Some 7) (PSummary [verbose_summary]) (Some 1) (Some 1) None false [].

Lemma str_len_append (s t : string) : str_len (s +:+ t) = str_len s + str_len t.
Proof. rewrite <- !length_bytes_of, bytes_of_app, length_app. lia. Qed.

Lemma join_texts_bytes texts : foldr (fun line total => str_len line + total) 0 texts = str_len (join_texts texts).
Proof. induction texts as [|t texts IH]; [done|]. cbn. by rewrite IH, str_len_append. Qed.

Lemma summary_inspection_hangs_witness :
  result_items verbose_page = PSummary [verbose_summary] ∧
  (∀ fuel, encode_inspect EncText fuel verbose_page 512 = None).
Proof.
  split; [reflexivity|]. apply summary_inspection_hangs.
  - intros r' s Hitems. unfold encode_inspect_result. cbn. unfold shown_texts. rewrite Hitems. eexists. split; [reflexivity|].
    cbn [visible_bytes join_texts foldr]. rewrite str_len_append. fold (join_texts match shown_run s with Some run => output_excerpt run | None => [] end).
    pose proof (str_len_nonneg (shown_headline s)). unfold excerpt_bytes.
    destruct (shown_run s) as [run|]; [rewrite join_texts_bytes; lia|change (str_len (join_texts [])) with 0; lia].
  - exists verbose_summary. split; [reflexivity|]. split; [split; [split; [lia|reflexivity]|reflexivity]|reflexivity].
Defined.

Definition example_execution : ExecutionResult :=
  MkExecutionResult (MkRecord (new_request 7 1000 "/w" Test ["//..."]) Failed None None (Some (Exit 3))
    (Some (MkSummary false "2 tests failed" [] (MkTargetCounts 3 1 2) [] [] (MkTestCounts 1 2 0 0 0) None [] None 5 false None))
    None default_metrics None None) false true.

Lemma run_response_spec_witness :
  match summary (execution_record example_execution) with
  | Some s =>
      is_Some (build EncText (S (run_size (run_result (fun _ => "id") example_execution s))) (fun _ => "id") example_execution) ∧
      ∀ fuel encoded, build EncText fuel (fun _ => "id") example_execution = Some (Ok encoded) → visible_bytes encoded ≤ 8192
  | None => False
  end.
Proof.
  destruct (run_response_spec EncText (fun _ => "id") example_execution _ eq_refl) as (Hbound & Hreturns & _).
  split; [|exact Hbound]. apply Hreturns; apply Z.leb_le; reflexivity.
Defined.
End ResponseExamples.
