(* ===== verification/Tasks.v ===== *)
(** * Tasks and negotiated protocols (crates/bazel-mcp-server/src/tasks.rs and
    protocol.rs)

    How a deferred result is shown as a task: its state and what its result is,
    for the two protocols that have tasks, and what the server announces to a
    client that speaks one of them. *)

From stdpp Require Import pretty.
From S2P Require Import Prelude Collections Types Record Response.
#[global] Open Scope Z_scope.
#[local] Arguments String.append !_ _ / : simpl nomatch.

(** ** Snapshots (tasks.rs) *)

Inductive TaskState : Type := Working | TaskCompleted | TaskFailed | TaskCancelled.
#[export] Instance TaskState_eq_dec : EqDecision TaskState.
Proof. solve_decision. Defined.

Definition task_as_str (s : TaskState) : string :=
  match s with Working => "working" | TaskCompleted => "completed" | TaskFailed => "failed" | TaskCancelled => "cancelled" end.
Definition task_is_terminal (s : TaskState) : bool := negb (bool_decide (s = Working)).

Inductive TaskResultState : Type :=
| ResultPending
| ResultInvocation (tool_error : bool)
| ResultInternalFailure (redacted_message : string)
| ResultCancelled.

Record TaskSnapshot : Type := MkSnapshot {
  task_id : InvocationId;
  task_state : TaskState;
  task_result : TaskResultState;
  task_created_at_ms : Z;
  task_updated_at_ms : Z;
  task_ttl_ms : Z;
  task_poll_interval_ms : Z;
  task_status_message : string;
}.

#[export] Instance DeferredTerminalState_eq_dec : EqDecision DeferredTerminalState.
Proof. solve_decision. Defined.
#[export] Instance DeferredFailureKind_eq_dec : EqDecision DeferredFailureKind.
Proof. solve_decision. Defined.

Definition has_failure (d : DeferredResultRecord) : bool := bool_decide (is_Some (failure d)).

(** The message of an internal failure. *)
Definition internal_failure (d : DeferredResultRecord) : option string :=
  f ← failure d;
  if decide (failure_kind f = InternalFailure) then Some (redacted_message f) else None.

Definition legacy_cancelled (d : DeferredResultRecord) : bool :=
  bool_decide (retrieval d = SeparateResult) && bool_decide (terminal_override d = Some DeferredCancelled).

Definition classify (v : DeferredResultView) : TaskState * TaskResultState :=
  let d := deferred v in
  let st := state (invocation v) in
  if legacy_cancelled d then (TaskCancelled, ResultInvocation (has_failure d))
  else match internal_failure d with
  | Some message => (TaskFailed, ResultInternalFailure message)
  | None =>
      match retrieval d with
      | InlineResult =>
          if decide (st = Cancelled) then (TaskCancelled, ResultCancelled)
          else if is_terminal st then (TaskCompleted, ResultInvocation (has_failure d))
          else (Working, ResultPending)
      | SeparateResult =>
          if has_failure d then (TaskFailed, ResultInvocation true)
          else if is_terminal st then (TaskCompleted, ResultInvocation (has_failure d))
          else (Working, ResultPending)
      end
  end.

(** [from_view], at the clock reading [now]. *)
Definition from_view (now : Z) (v : DeferredResultView) (poll_interval_ms : Z) : TaskSnapshot :=
  let d := deferred v in
  let '(state, result) := classify v in
  let elapsed_ms := Z.max (i64_sub now (created_at_ms d)) 0 in
  MkSnapshot (invocation_id d) state result (created_at_ms d) (updated_at_ms d) (advertised_ttl_ms d) poll_interval_ms
    ("state=" +:+ task_as_str state +:+ " elapsed_ms=" +:+ pretty elapsed_ms).

(** ** Protocols (protocol.rs) *)

Definition TASKS_EXTENSION : string := "io.modelcontextprotocol/tasks".
Definition LEGACY_VERSION : string := "2025-11-25".
Definition EXTENSION_VERSION : string := "2026-06-30".

Inductive ProtocolFamily : Type := Earlier | LegacyTasks | TasksExtension.
#[export] Instance ProtocolFamily_eq_dec : EqDecision ProtocolFamily.
Proof. solve_decision. Defined.

Definition family_as_str (f : ProtocolFamily) : string :=
  match f with Earlier => "synchronous" | LegacyTasks => "legacy_tasks" | TasksExtension => "tasks_extension" end.

(** [ProtocolAdapter], one constructor per family. *)
Inductive ProtocolAdapter : Type := SyncAdapter | LegacyTasksAdapter | TasksExtensionAdapter.

Definition negotiate (version : option string) : ProtocolAdapter :=
  match version with
  | Some version =>
      if bool_decide (version = LEGACY_VERSION) then LegacyTasksAdapter
      else if negb (str_ltb version EXTENSION_VERSION) then TasksExtensionAdapter
      else SyncAdapter
  | None => SyncAdapter
  end.

Definition family (a : ProtocolAdapter) : ProtocolFamily :=
  match a with SyncAdapter => Earlier | LegacyTasksAdapter => LegacyTasks | TasksExtensionAdapter => TasksExtension end.

Inductive McpExecutionPolicy : Type := Auto | SyncOnly | TasksRequired.
#[export] Instance McpExecutionPolicy_eq_dec : EqDecision McpExecutionPolicy.
Proof. solve_decision. Defined.

Record TasksCapability : Type := MkTasksCapability { tasks_list : bool; tasks_cancel : bool; tasks_requests : bool }.
Record ServerCapabilities : Type := MkCapabilities {
  cap_tools : bool; cap_tasks : option TasksCapability; cap_extensions : option (list string);
}.

(** [server_default] is the library's default for servers. *)
Definition capabilities (server_default : TasksCapability) (a : ProtocolAdapter) (policy : McpExecutionPolicy) : ServerCapabilities :=
  match a with
  | LegacyTasksAdapter =>
      MkCapabilities true
        (Some (if decide (policy = SyncOnly) then MkTasksCapability true true false else server_default)) None
  | TasksExtensionAdapter => MkCapabilities true None (Some [TASKS_EXTENSION])
  | SyncAdapter => MkCapabilities true None None
  end.

Inductive TaskSupport : Type := SupportOptional | SupportRequired.
Record Tool : Type := MkTool { tool_name : string; tool_execution : option TaskSupport }.

Definition adapt_tool (policy : McpExecutionPolicy) (t : Tool) : Tool :=
  if bool_decide (tool_name t = "bazel.run")
  then MkTool (tool_name t) (match policy with
                             | Auto => Some SupportOptional | SyncOnly => None | TasksRequired => Some SupportRequired
                             end)
  else t.
Definition adapt_tools (a : ProtocolAdapter) (policy : McpExecutionPolicy) (tools : list Tool) : list Tool :=
  match a with LegacyTasksAdapter => adapt_tool policy <$> tools | _ => tools end.

(** ** Tasks on the wire *)

Section wire.
Context (rfc3339 : Z → option string) (id_string : InvocationId → string).

(** [format_timestamp]; [rfc3339] formats a time in nanoseconds. *)
Definition format_timestamp (timestamp_ms : Z) : string := default "1970-01-01T00:00:00Z" (rfc3339 (timestamp_ms * 1000000)).

Record Task : Type := MkTask {
  wire_id : string;
  wire_status : TaskState;
  wire_created : string;
  wire_updated : string;
  wire_message : string;
  wire_ttl : Z;
  wire_poll : Z;
}.

(** [LegacyTasksAdapter::task]. *)
Definition legacy_wire_task (s : TaskSnapshot) : Task :=
  MkTask (id_string (task_id s)) (task_state s) (format_timestamp (task_created_at_ms s)) (format_timestamp (task_updated_at_ms s))
    (task_status_message s) (task_ttl_ms s) (task_poll_interval_ms s).

Context {R : Type}.
(** The JSON objects of [TasksExtensionAdapter]. *)
Record ExtensionTask : Type := MkExtensionTask {
  ext_result_type : string;
  ext_id : string;
  ext_status : string;
  ext_created : string;
  ext_updated : string;
  ext_ttl : Z;
  ext_poll : Z;
  ext_result : option R;
  ext_error : option (Z * string);
}.

Definition creation (s : TaskSnapshot) : ExtensionTask :=
  MkExtensionTask "task" (id_string (task_id s)) (task_as_str (task_state s)) (format_timestamp (task_created_at_ms s))
    (format_timestamp (task_updated_at_ms s)) (task_ttl_ms s) (task_poll_interval_ms s) None None.

Definition INTERNAL_ERROR : Z := -32603.

Definition complete (s : TaskSnapshot) (result : option R) (error : option string) : ExtensionTask :=
  MkExtensionTask "complete" (id_string (task_id s)) (task_as_str (task_state s)) (format_timestamp (task_created_at_ms s))
    (format_timestamp (task_updated_at_ms s)) (task_ttl_ms s) (task_poll_interval_ms s) result
    (match result with Some _ => None | None => (fun message => (INTERNAL_ERROR, message)) <$> error end).
End wire.
Arguments ExtensionTask : clear implicits.
