(* ===== verification/Execution.v ===== *)
(** * Execution (crates/bazel-mcp-runner/src/execution.rs and the lifecycle
    functions of service.rs)

    An accepted invocation from its start to its terminal record: the phases of
    [execute], the single durable commit, the recovery from a failed phase, the
    paths that end an invocation before it starts, and what the supervisor does
    when the worker itself fails.  The functions run in a small state monad over
    the store and the scheduler; every store call also receives the time and,
    possibly, a fault, which strikes before or after the call took effect. *)

From S2P Require Import Prelude Types Record Index Store Scheduler Redaction Diagnostics Extension Reduction Text Runner Sanitize Outcome.

(** ** The service *)

Inductive Fault : Type := Before (e : StoreError) | After (e : StoreError).
Record Answer : Type := MkAnswer { clock : Z; fault : option Fault }.

Record World : Type := MkWorld {
  store : StoreInner;
  scheduler : InvocationScheduler;
  answers : list Answer;
}.

Definition M (A : Type) : Type := World → A * World.
#[export] Instance M_ret : MRet M := fun _ a w => (a, w).
#[export] Instance M_bind : MBind M := fun _ _ k m w => let '(a, w) := m w in k a w.

(** The answer to the next store call. *)
Definition next_answer : M Answer := fun w =>
  match answers w with
  | [] => (MkAnswer 0 None, w)
  | a :: rest => (a, MkWorld (store w) (scheduler w) rest)
  end.

(** A store call. *)
Definition store_call {A} (op : Z → StoreInner → result StoreError (StoreInner * A)) : M (result StoreError A) :=
  fun w =>
    let '(a, w) := next_answer w in
    match fault a with
    | Some (Before e) => (Err e, w)
    | after =>
        match op (clock a) (store w) with
        | Err e => (Err e, w)
        | Ok (s, x) =>
            (match after with Some (After e) => Err e | _ => Ok x end, MkWorld s (scheduler w) (answers w))
        end
    end.

(** A store call that only reads. *)
Definition store_read {A} (op : StoreInner → result StoreError A) : M (result StoreError A) :=
  store_call (fun _ s => x ← op s; Ok (s, x)).

Definition publish (id : InvocationId) (state : InvocationState) : M unit := fun w =>
  (tt, MkWorld (store w) (publish_state id state (scheduler w)) (answers w)).

Section service.
Context `{Files : Serializer}.

(** [transition_invocation] and [finish_invocation] of service.rs. *)
Definition transition_invocation (id : InvocationId) (next : InvocationState) (termination : option Termination)
    (summary : option InvocationSummary) : M (result StoreError InvocationRecord) :=
  r ← store_call (fun now s => store_transition s id now next termination summary);
  match r with
  | Ok record => _ ← publish id (state record); mret (Ok record)
  | Err e => mret (Err e)
  end.

Definition service_finish (id : InvocationId) (completion : InvocationCompletion)
    : M (result StoreError InvocationRecord) :=
  r ← store_call (fun now s => finish_invocation s id now completion);
  match r with
  | Ok record => _ ← publish id (state record); mret (Ok record)
  | Err e => mret (Err e)
  end.

(** ** Terminal commits *)

Record TerminalCommit : Type := MkCommit {
  commit_id : InvocationId;
  commit_completion : InvocationCompletion;
  recover_without_evidence : bool;
}.

Definition queue_metrics (queue_ms : Z) : InvocationMetrics := MkMetrics 0 0 0 0 0 0 queue_ms 0 0 0.

Definition commit_failure (id : InvocationId) (termination : Termination) (summary : InvocationSummary)
    (queue_ms : Z) : TerminalCommit :=
  MkCommit id (MkCompletion Failed termination summary None (queue_metrics queue_ms) None []) false.

Definition commit_cancelled (id : InvocationId) (queue_ms : Z) : TerminalCommit :=
  MkCommit id (MkCompletion Cancelled TerminationCancelled cancelled_summary None (queue_metrics queue_ms) None []) false.

(** The record of a header that is already terminal, with a summary. *)
Definition settled (r : result StoreError InvocationHeader) : option InvocationRecord :=
  match r with
  | Ok header =>
      if is_terminal (header_state header) && bool_decide (is_Some (header_summary header))
      then Some (header_into_record header) else None
  | Err _ => None
  end.

Definition commit_terminal (c : TerminalCommit) : M (result StoreError InvocationRecord) :=
  let completion := commit_completion c in
  r ← service_finish (commit_id c) completion;
  match r with
  | Ok record => mret (Ok record)
  | Err error =>
      header ← store_read (fun s => get_invocation_header s (commit_id c));
      match settled header with
      | Some record => mret (Ok record)
      | None =>
          if bool_decide (error = not_found_io) && recover_without_evidence c
          then transition_invocation (commit_id c) (completion_state completion)
                 (Some (completion_termination completion)) (Some (completion_summary completion))
          else mret (Err error)
      end
  end.

(** ** Phases *)

Record TerminalContext : Type := MkTerminalContext {
  context_id : InvocationId;
  context_workspace : PathBuf;
  context_state : InvocationState;
  context_termination : Termination;
  context_elapsed_ms : Z;
}.

Record ExitStatus : Type := MkStatus { status_code : option Z; status_signal : option Z }.
Definition status_success (s : ExitStatus) : bool := bool_decide (status_code s = Some 0).

(** [finish_from_status]. *)
Definition finish_from_status (unix : bool) (status : ExitStatus)
    : option ExitStatus * Termination * InvocationState :=
  let state := if status_success status then Succeeded else Failed in
  match status_code status with
  | Some code => (Some status, Exit code, state)
  | None => (Some status, if unix then Signal (default 0 (status_signal status)) else Exit (-1), state)
  end.
End service.

(** The branch of the [select!] that completed while the process ran, with what
    waiting for the process or terminating it returned. *)
Inductive ExitEvent (IoError : Type) : Type :=
| ChildExited (r : result IoError ExitStatus)
| CancelRequested (r : result IoError ExitStatus)
| TimeoutElapsed (r : result IoError ExitStatus)
| OutputLimitReached (r : result IoError ExitStatus).
Arguments ChildExited {_} _.
Arguments CancelRequested {_} _.
Arguments TimeoutElapsed {_} _.
Arguments OutputLimitReached {_} _.

(** What [capture_evidence] gathered. *)
Record Capture : Type := MkCapture {
  capt_bep : BepAccumulator;
  capt_panicked : bool;
  capt_terminal_error : bool;
  capt_event_count : Z;
  capt_stdout : list Z;
  capt_stderr : list Z;
  capt_query_row_count : Z;
  capt_query_sample : list QueryRow;
  capt_bep_size : Z;
  capt_reduction_ms : Z;
}.

(** The bound on the logs that [capture_evidence] reads. *)
Definition COMPLETE_BEP_LOG_LIMIT : Z := 2 * 1024 * 1024.
Definition FALLBACK_LOG_LIMIT : Z := 8 * 1024 * 1024.
Definition log_limit (event_count : Z) (terminal_error : bool) : Z :=
  if (0 <? event_count) && negb terminal_error then COMPLETE_BEP_LOG_LIMIT else FALLBACK_LOG_LIMIT.

(** What the rest of the world does during an execution; texts are those of
    the errors. *)
Record Env (IoError RegexError : Type) : Type := MkEnv {
  cancelled_at_start : bool;
  stdio_error : option string;
  cancelled_before_spawn : bool;
  bes_start_error : option (RunnerError IoError RegexError);
  bes_endpoint : option string;
  bep_file : PathBuf;
  bep_output : PathBuf;
  spawn_error : option string;
  exit_event : ExitEvent IoError;
  stdout_size : Z;
  stderr_size : Z;
  running_elapsed_ms : Z;
  wall_ms : Z;
  lock_wait_ms : Z;
  capture_result : result (RunnerError IoError RegexError) Capture;
  reducer_task_error : option (RunnerError IoError RegexError);
}.
Arguments cancelled_at_start {_ _} _.
Arguments stdio_error {_ _} _.
Arguments cancelled_before_spawn {_ _} _.
Arguments bes_start_error {_ _} _.
Arguments bes_endpoint {_ _} _.
Arguments bep_file {_ _} _.
Arguments bep_output {_ _} _.
Arguments spawn_error {_ _} _.
Arguments exit_event {_ _} _.
Arguments stdout_size {_ _} _.
Arguments stderr_size {_ _} _.
Arguments running_elapsed_ms {_ _} _.
Arguments wall_ms {_ _} _.
Arguments lock_wait_ms {_ _} _.
Arguments capture_result {_ _} _.
Arguments reducer_task_error {_ _} _.

Inductive StartExecution : Type := StartRunning | StartTerminal (commit : TerminalCommit) | StartPanicked.

Record Exited : Type := MkExited {
  exited_status : option ExitStatus;
  exited_termination : Termination;
  exited_state : InvocationState;
}.

Section execution.
Context {IoError RegexError : Type} `{Files : Serializer} `{Redactor : BoundedRedactor} `{Terminal : TerminalText}.
Context `{Text : TextDiagnostics} (unix windows : bool) (id_string : InvocationId → string).
Abbreviation RunnerError := (RunnerError IoError RegexError).
Abbreviation Env := (Env IoError RegexError).
(** [to_string] of an error, and the acquisition of test evidence. *)
Context (display : RunnerError → string).
Context (enrich_tests : list Artifact → InvocationSummary → InvocationSummary).
Context (load_coverage : list Artifact → option CoverageSummary).
Context (config : RunnerConfig) (reducers : ReducerPipeline) (vars : list (string * string)).

(** The text of an error, without the workspace. *)
Definition public_error (workspace : PathBuf) (e : RunnerError) : string := sanitize workspace (display e) 1000.

Definition failure_summary (headline : string) (truncated : bool) (hint : option InspectHint) (elapsed_ms : Z)
    : InvocationSummary :=
  MkSummary false headline [] (MkTargetCounts 0 0 0) [] [] (MkTestCounts 0 0 0 0 0) None [] None elapsed_ms truncated hint.

(** [start_execution]. *)
Definition start_execution (q : InvocationRequest) (d : ExecutionDriver) (queue_ms : Z) (env : Env)
    : M (result RunnerError StartExecution) :=
  let id := request_id q in
  let class := command_class d (command q) in
  if cancelled_at_start env then mret (Ok (StartTerminal (commit_cancelled id queue_ms)))
  else match stdio_error env with
  | Some error =>
      let message := redact_str ("could not create Bazel evidence files: " +:+ error) 1000 in
      mret (Ok (StartTerminal (commit_failure id (SpawnFailure message)
        (failure_summary ("Could not prepare Bazel invocation: " +:+ message) true None 0) queue_ms)))
  | None =>
      if cancelled_before_spawn env then mret (Ok (StartTerminal (commit_cancelled id queue_ms)))
      else match (if captures_bep class && bool_decide (execution_transport config d = Bes)
                     && bool_decide (is_Some (bes_endpoint env))
                  then bes_start_error env else None) with
      | Some error => mret (Err error)
      | None =>
          match build_command (IoError:=IoError) (RegexError:=RegexError) windows id_string config d q
                  (bep_file env) (bep_output env) (bes_endpoint env) vars with
          | None => mret (Ok StartPanicked)
          | Some (Err error) => mret (Err error)
          | Some (Ok process) =>
              match spawn_error env with
              | Some error =>
                  let message := redact_str error 1000 in
                  mret (Ok (StartTerminal (commit_failure id (SpawnFailure message)
                    (failure_summary ("Could not start " +:+ display_name d +:+ ": " +:+ message) false None 0) queue_ms)))
              | None =>
                  r ← transition_invocation id Running None None;
                  match r with
                  | Err error =>
                      let message := public_error (workspace q) (RStore error) in
                      mret (Ok (StartTerminal (commit_failure id TerminationInterrupted
                        (failure_summary ("Could not record Bazel execution state: " +:+ message) true (Some HintLog) 0)
                        queue_ms)))
                  | Ok _ => mret (Ok StartRunning)
                  end
              end
          end
      end
  end.

(** [wait_for_exit].  The output-limit branch is disabled for commands other
    than [run], whose process is then awaited. *)
Definition wait_for_exit (q : InvocationRequest) (env : Env) : result RunnerError Exited :=
  let stopped_as r termination state : result RunnerError Exited :=
    match r with
    | Ok status => Ok (MkExited (Some status) termination state)
    | Err e => Err (RIo e)
    end in
  let awaited r : result RunnerError Exited :=
    match r with
    | Ok status => let '(status, termination, state) := finish_from_status unix status in
                   Ok (MkExited status termination state)
    | Err e => Err (RIo e)
    end in
  exited ←
    match exit_event env with
    | ChildExited r => awaited r
    | CancelRequested r => stopped_as r TerminationCancelled Cancelled
    | TimeoutElapsed r => stopped_as r Timeout TimedOut
    | OutputLimitReached r =>
        if decide (command q = Run) then stopped_as r (OutputLimit (maximum_run_output_bytes config)) Failed
        else awaited r
    end;
  if bool_decide (command q = Run) && negb (stopped (exited_termination exited))
     && (maximum_run_output_bytes config <? u64_add (stdout_size env) (stderr_size env))
  then Ok (MkExited None (OutputLimit (maximum_run_output_bytes config)) Failed)
  else Ok exited.

(** The evidence the reduction phase receives. *)
Definition captured_evidence (q : InvocationRequest) (d : ExecutionDriver) (queue_ms : Z) (env : Env)
    (exited : Exited) (c : Capture) : CapturedEvidence :=
  MkCaptured q d (exited_status exited ≫= status_code) (exited_termination exited) (exited_state exited)
    (capt_bep c) (capt_panicked c) (capt_terminal_error c) (capt_event_count c) (capt_stdout c) (capt_stderr c)
    (capt_query_row_count c) (capt_query_sample c) (stdout_size env) (stderr_size env) (capt_bep_size c) queue_ms
    (lock_wait_ms env) (wall_ms env) (capt_reduction_ms c).

(** [recover_terminal_failure]. *)
Definition recover_terminal_failure (context : TerminalContext) (error : RunnerError)
    : M (result RunnerError InvocationRecord) :=
  let message := public_error (context_workspace context) error in
  header ← store_read (fun s => get_invocation_header s (context_id context));
  match settled header with
  | Some record => mret (Ok record)
  | None =>
      let terminal_state := if decide (context_state context = Succeeded) then Failed else context_state context in
      r ← commit_terminal (MkCommit (context_id context)
            (MkCompletion terminal_state (context_termination context)
               (failure_summary ("Could not finish processing Bazel results: " +:+ message) true (Some HintLog)
                  (context_elapsed_ms context))
               None default_metrics None []) true);
      match r with
      | Ok record => mret (Ok record)
      | Err _ => mret (Err error)
      end
  end.

(** [execute]; [None] when building the command line panics. *)
Definition execute (q : InvocationRequest) (d : ExecutionDriver) (now : Z) (env : Env)
    : M (option (result RunnerError InvocationRecord)) :=
  let id := request_id q in
  let queue_ms := plan_queue_ms now q in
  let starting_context := MkTerminalContext id (workspace q) Failed TerminationInterrupted 0 in
  let commit_or_recover context commit :=
    r ← commit_terminal commit;
    match r with
    | Ok record => mret (Some (Ok record))
    | Err error => r ← recover_terminal_failure context (RStore error); mret (Some r)
    end in
  started ← start_execution q d queue_ms env;
  match started with
  | Err error => r ← recover_terminal_failure starting_context error; mret (Some r)
  | Ok StartPanicked => mret None
  | Ok (StartTerminal commit) => commit_or_recover starting_context commit
  | Ok StartRunning =>
      match wait_for_exit q env with
      | Err error =>
          r ← recover_terminal_failure
                (MkTerminalContext id (workspace q) Failed TerminationInterrupted (running_elapsed_ms env)) error;
          mret (Some r)
      | Ok exited =>
          let terminal_context := MkTerminalContext id (workspace q) (exited_state exited) (exited_termination exited)
                                    (wall_ms env) in
          match (c ← capture_result env;
                 match reducer_task_error env with
                 | Some error => if decide (length reducers = 0%nat) then Ok c else Err error
                 | None => Ok c
                 end) with
          | Err error => r ← recover_terminal_failure terminal_context error; mret (Some r)
          | Ok c =>
              commit_or_recover terminal_context
                (MkCommit id
                   (reduce_evidence windows enrich_tests load_coverage reducers (limits (starlark_reducers config))
                      (captured_evidence q d queue_ms env exited c)) false)
          end
      end
  end.
End execution.

(** * Theorems *)

(** ** What the store says of an invocation *)

Definition state_of (s : StoreInner) (id : InvocationId) : option InvocationState :=
  (fun v : View => header_state v.1) <$> index_view (store_index s) id.

(** The index holds the record, accumulated metrics apart. *)
Definition recorded (s : StoreInner) (id : InvocationId) (r : InvocationRecord) : Prop :=
  ∃ deferred, index_view (store_index s) id = Some (forget_metrics (header_from_record r), deferred).

(** The invocation has ended in [st], with a summary. *)
Definition ended (s : StoreInner) (id : InvocationId) (st : InvocationState) : Prop :=
  is_terminal st = true ∧
  ∃ v : View, index_view (store_index s) id = Some v ∧ header_state v.1 = st ∧ is_Some (header_summary v.1).

Lemma recorded_state s id r : recorded s id r → state_of s id = Some (state r).
Proof. intros [deferred Hview]. unfold state_of. by rewrite Hview. Qed.

Lemma recorded_ended s id r st :
  recorded s id r → state r = st → is_terminal st = true → is_Some (summary r) → ended s id st.
Proof.
  intros [deferred Hview] <- Hterminal [sm Hsummary]. split; [done|]. eexists. split_and!; [exact Hview|done|].
  simpl. rewrite Hsummary. by eexists.
Qed.

Section store_steps.
Context `{Files : Serializer}.

Lemma state_of_entry s id st : state_of s id = Some st →
  ∃ entry, entries (store_index s) !! id = Some entry ∧ header_state (entry_record entry) = st.
Proof.
  unfold state_of, index_view. destruct (entries (store_index s) !! id) as [entry|]; [|done].
  intros [= <-]. by exists entry.
Qed.

Lemma state_of_manifest s id st : Mirrored s → state_of s id = Some st →
  ∃ ev, disk s !! id = Some ev ∧ header_state (durable_invocation (manifest ev)) = st.
Proof.
  intros Hs. unfold state_of. rewrite Hs. unfold disk_view. destruct (disk s !! id) as [ev|]; [|done].
  intros [= <-]. by exists ev.
Qed.

Lemma ensure_state_of s id st : state_of s id = Some st → ensure_invocation s id = Ok tt.
Proof.
  intros (entry & Hentry & _)%state_of_entry. unfold ensure_invocation, ensure_exists. by rewrite Hentry.
Qed.

(** A permitted transition of a tracked invocation succeeds and is recorded. *)
Lemma transition_total s id st now next t sm :
  Mirrored s → state_of s id = Some st → validate_transition st next = Ok tt →
  ∃ s' r, store_transition s id now next t sm = Ok (s', r) ∧ Mirrored s' ∧ recorded s' id r ∧
    state r = next ∧ termination r = t ∧ summary r = sm.
Proof.
  intros Hs Hst Hvalid. destruct (state_of_manifest s id st Hs Hst) as (ev & Hdisk & Hstate).
  destruct (store_transition s id now next t sm) as [[s' r]|e] eqn:Htransition.
  - exists s', r. split; [done|]. split; [by eapply transition_mirrored|].
    unfold store_transition in Htransition. rewrite (ensure_state_of s id st Hst), Hdisk in Htransition.
    cbn [mbind result_bind] in Htransition. destruct (merge_index_telemetry _ _ _) as [metrics generation].
    destruct (transition now next _) as [moved|] eqn:Hmoved; [|done]. injection Htransition as <- <-.
    unfold transition in Hmoved. apply bind_Ok_inv in Hmoved as (u & _ & [= <-]). split; [|done].
    set (durable := MkDurable _ _ _ _) in *. eexists.
    assert (∀ b s0, index_view (store_index (if b : bool then release_owner s0 id else s0)) id
                    = index_view (store_index s0) id) as -> by (by intros []).
    rewrite (proj1 (commit_record_views s id _ durable (is_terminal next) generation id)), decide_True by done.
    reflexivity.
  - exfalso. unfold store_transition in Htransition. rewrite (ensure_state_of s id st Hst), Hdisk in Htransition.
    cbn [mbind result_bind] in Htransition. destruct (merge_index_telemetry _ _ _) as [metrics generation].
    unfold transition in Htransition. cbn [state header_into_record set_metrics header_state] in Htransition.
    rewrite Hstate, Hvalid in Htransition. done.
Qed.

Lemma transition_refused s id st now next t sm e :
  Mirrored s → state_of s id = Some st → validate_transition st next = Err e →
  store_transition s id now next t sm = Err (StoreState e).
Proof.
  intros Hs Hst Hinvalid. destruct (state_of_manifest s id st Hs Hst) as (ev & Hdisk & Hstate).
  unfold store_transition. rewrite (ensure_state_of s id st Hst), Hdisk. cbn [mbind result_bind].
  destruct (merge_index_telemetry _ _ _) as [metrics generation].
  unfold transition. cbn [state header_into_record set_metrics header_state]. by rewrite Hstate, Hinvalid.
Qed.

(** A completion of a tracked invocation is recorded, when the transition is
    permitted. *)
Lemma finish_total s id st now c :
  Mirrored s → state_of s id = Some st → is_terminal (completion_state c) = true →
  validate_transition st (completion_state c) = Ok tt →
  ∃ s' r, finish_invocation s id now c = Ok (s', r) ∧ Mirrored s' ∧ recorded s' id r ∧
    state r = completion_state c ∧ termination r = Some (completion_termination c) ∧
    summary r = Some (completion_summary c).
Proof.
  intros Hs Hst Hterminal Hvalid. destruct (state_of_manifest s id st Hs Hst) as (ev & Hdisk & Hstate).
  destruct (finish_invocation s id now c) as [[s' r]|e] eqn:Hfinish.
  - exists s', r. split; [done|]. split; [by eapply finish_mirrored|].
    unfold finish_invocation, read_durable in Hfinish.
    rewrite Hterminal, (ensure_state_of s id st Hst), Hdisk in Hfinish. cbn [negb mbind result_bind] in Hfinish.
    destruct (transition now _ _) as [moved|] eqn:Hmoved; [|done].
    destruct (merge_index_telemetry _ _ _) as [metrics generation]. injection Hfinish as <- <-.
    unfold transition in Hmoved. apply bind_Ok_inv in Hmoved as (u & _ & [= <-]). split; [|done].
    set (durable := MkDurable _ _ _ _) in *. eexists. cbn [release_owner store_index].
    rewrite (proj1 (commit_record_views s id _ durable true generation id)), decide_True by done.
    reflexivity.
  - exfalso. unfold finish_invocation, read_durable in Hfinish.
    rewrite Hterminal, (ensure_state_of s id st Hst), Hdisk in Hfinish. cbn [negb mbind result_bind] in Hfinish.
    unfold transition in Hfinish. cbn [state header_into_record] in Hfinish.
    rewrite Hstate, Hvalid in Hfinish. cbn [mbind result_bind] in Hfinish.
    by destruct (merge_index_telemetry _ _ _).
Qed.

Lemma finish_refused s id st now c e :
  Mirrored s → state_of s id = Some st → is_terminal (completion_state c) = true →
  validate_transition st (completion_state c) = Err e → finish_invocation s id now c = Err (StoreState e).
Proof.
  intros Hs Hst Hterminal Hinvalid. destruct (state_of_manifest s id st Hs Hst) as (ev & Hdisk & Hstate).
  unfold finish_invocation, read_durable. rewrite Hterminal, (ensure_state_of s id st Hst), Hdisk.
  cbn [negb mbind result_bind]. unfold transition. cbn [state header_into_record].
  by rewrite Hstate, Hinvalid.
Qed.

Lemma terminal_refused st next : is_terminal st = true → validate_transition st next = Err (MkTransitionError st next).
Proof. by destruct st. Qed.

(** Reading the header of a tracked invocation. *)
Lemma header_view s id v : index_view (store_index s) id = Some v →
  ∃ header, get_invocation_header s id = Ok header ∧ forget_metrics header = v.1.
Proof.
  unfold index_view, get_invocation_header, ensure_invocation, ensure_exists.
  destruct (entries (store_index s) !! id) as [entry|]; [|done]. intros [= <-]. by eexists.
Qed.

Lemma settled_ended s id st : ended s id st →
  ∃ header record, get_invocation_header s id = Ok header ∧ settled (Ok header) = Some record ∧
    state record = st ∧ is_Some (summary record) ∧ recorded s id record.
Proof.
  intros (Hterminal & v & Hview & Hst & [sm Hsm]).
  destruct (header_view s id v Hview) as (header & Hheader & Hforget).
  exists header, (header_into_record header). split; [done|]. rewrite <- Hforget in Hst, Hsm. simpl in Hst, Hsm.
  unfold settled. rewrite Hst, Hterminal, Hsm. rewrite bool_decide_true by (by eexists). split_and!; [done|done| |].
  - simpl. rewrite Hsm. by eexists.
  - exists v.2. rewrite header_record_header, Hforget, Hview. by destruct v.
Qed.

Lemma settled_live s id st : state_of s id = Some st → is_terminal st = false →
  settled (get_invocation_header s id) = None.
Proof.
  intros (entry & Hentry & Hst)%state_of_entry Hlive.
  unfold get_invocation_header, ensure_invocation, ensure_exists. rewrite Hentry. simpl.
  by rewrite Hst, Hlive.
Qed.
End store_steps.

(** ** Steps of the service *)

(** No store call to come meets a fault. *)
Definition clean (w : World) : Prop := Forall (fun a => fault a = None) (answers w).

Lemma bind_M {A B} (m : M A) (k : A → M B) w b w' :
  (m ≫= k) w = (b, w') → ∃ a w1, m w = (a, w1) ∧ k a w1 = (b, w').
Proof. unfold mbind, M_bind. destruct (m w) as [a w1]. eauto. Qed.

(** A step of the service keeps the mirror and, when clean, stays so. *)
Definition kept (w w' : World) : Prop := Mirrored (store w') ∧ (clean w → clean w').

Lemma kept_trans w1 w2 w3 : kept w1 w2 → kept w2 w3 → kept w1 w3.
Proof. unfold kept. tauto. Qed.

Lemma store_call_cases {A} (op : Z → StoreInner → result StoreError (StoreInner * A)) w r w' :
  store_call op w = (r, w') →
  (clean w → clean w') ∧
  ((store w' = store w ∧ ∃ e, r = Err e ∧ (¬ clean w ∨ ∃ now, op now (store w) = Err e)) ∨
   (∃ now x, op now (store w) = Ok (store w', x) ∧ (r = Ok x ∨ (∃ e, r = Err e) ∧ ¬ clean w))).
Proof.
  unfold store_call, next_answer, clean. destruct (answers w) as [|a rest] eqn:Hanswers; cbn [fault clock].
  - destruct (op 0 (store w)) as [[s x]|e] eqn:Hop; intros [= <- <-]; cbn; rewrite Hanswers; split; auto.
    + right. eauto 6.
    + left. eauto 8.
  - assert (Forall (fun a => fault a = None) (a :: rest) → Forall (fun a => fault a = None) rest) as Hrest
      by (by intros [_ ?]%Forall_cons).
    destruct (fault a) as [[e|e]|] eqn:Hfault.
    + intros [= <- <-]. split; [done|]. left. split; [done|]. exists e. split; [done|]. left.
      intros [Hnone _]%Forall_cons. congruence.
    + cbn [store]. destruct (op (clock a) (store w)) as [[s x]|e'] eqn:Hop; intros [= <- <-]; (split; [done|]).
      * right. exists (clock a), x. split; [done|]. right. split; [eauto|].
        intros [Hnone _]%Forall_cons. congruence.
      * left. split; [done|]. eauto 8.
    + cbn [store]. destruct (op (clock a) (store w)) as [[s x]|e'] eqn:Hop; intros [= <- <-]; (split; [done|]).
      * right. eauto 6.
      * left. split; [done|]. eauto 8.
Qed.

Section steps.
Context `{Files : Serializer}.

Lemma transition_invocation_permitted id next t sm st w r w' :
  Mirrored (store w) → state_of (store w) id = Some st → validate_transition st next = Ok tt →
  transition_invocation id next t sm w = (r, w') →
  kept w w' ∧
  match r with
  | Ok record => recorded (store w') id record ∧ state record = next ∧ summary record = sm
  | Err _ => ¬ clean w ∧
      (store w' = store w ∨ ∃ record, recorded (store w') id record ∧ state record = next ∧ summary record = sm)
  end.
Proof.
  intros Hs Hst Hvalid (r1 & w1 & Hcall & Hrest)%bind_M.
  apply store_call_cases in Hcall as [Hclean Hcases].
  assert (Hpublished : store w' = store w1 ∧ answers w' = answers w1 ∧ match r1 with Ok x => r = Ok x | Err e => r = Err e end).
  { destruct r1; injection Hrest as <- <-; done. }
  destruct Hpublished as (Hstore & Hanswers & Hr). unfold kept, clean in *. rewrite Hstore, Hanswers.
  destruct Hcases as [(Hsame & e & -> & Hwhy) | (now & x & Hop & Hwhy)].
  - subst r. rewrite Hsame. split; [done|]. destruct Hwhy as [Hdirty | [now Hop]]; [by split; [|left]|].
    destruct (transition_total (store w) id st now next t sm Hs Hst Hvalid) as (s' & x & Hok & _). congruence.
  - destruct (transition_total (store w) id st now next t sm Hs Hst Hvalid)
      as (s' & x' & Hok & Hmirror & Hrecorded & Hnext & _ & Hsm).
    rewrite Hop in Hok. injection Hok as Hs' ->. rewrite Hs'. split; [done|].
    destruct Hwhy as [-> | [[e ->] Hdirty]]; subst r; [done|]. split; [done|]. right. eauto.
Qed.

Lemma transition_invocation_refused id next t sm st w r w' e :
  Mirrored (store w) → state_of (store w) id = Some st → validate_transition st next = Err e →
  transition_invocation id next t sm w = (r, w') →
  kept w w' ∧ store w' = store w ∧ ∃ e', r = Err e' ∧ (¬ clean w ∨ e' = StoreState e).
Proof.
  intros Hs Hst Hinvalid (r1 & w1 & Hcall & Hrest)%bind_M.
  apply store_call_cases in Hcall as [Hclean Hcases].
  destruct Hcases as [(Hsame & e' & -> & Hwhy) | (now & x & Hop & _)].
  - injection Hrest as <- <-. unfold kept. rewrite Hsame. split; [done|]. split; [done|]. exists e'. split; [done|].
    destruct Hwhy as [Hdirty | [now Hop]]; [by left|right].
    rewrite (transition_refused _ _ _ _ _ _ _ _ Hs Hst Hinvalid) in Hop. congruence.
  - rewrite (transition_refused _ _ _ _ _ _ _ _ Hs Hst Hinvalid) in Hop. done.
Qed.

Lemma service_finish_permitted id c st w r w' :
  Mirrored (store w) → state_of (store w) id = Some st → is_terminal (completion_state c) = true →
  validate_transition st (completion_state c) = Ok tt →
  service_finish id c w = (r, w') →
  kept w w' ∧
  match r with
  | Ok record => recorded (store w') id record ∧ state record = completion_state c ∧ is_Some (summary record)
  | Err _ => ¬ clean w ∧ (store w' = store w ∨ ended (store w') id (completion_state c))
  end.
Proof.
  intros Hs Hst Hterminal Hvalid (r1 & w1 & Hcall & Hrest)%bind_M.
  apply store_call_cases in Hcall as [Hclean Hcases].
  assert (Hpublished : store w' = store w1 ∧ answers w' = answers w1 ∧ match r1 with Ok x => r = Ok x | Err e => r = Err e end).
  { destruct r1; injection Hrest as <- <-; done. }
  destruct Hpublished as (Hstore & Hanswers & Hr). unfold kept, clean in *. rewrite Hstore, Hanswers.
  destruct Hcases as [(Hsame & e & -> & Hwhy) | (now & x & Hop & Hwhy)].
  - subst r. rewrite Hsame. split; [done|]. destruct Hwhy as [Hdirty | [now Hop]]; [by split; [|left]|].
    destruct (finish_total (store w) id st now c Hs Hst Hterminal Hvalid) as (s' & x & Hok & _). congruence.
  - destruct (finish_total (store w) id st now c Hs Hst Hterminal Hvalid)
      as (s' & x' & Hok & Hmirror & Hrecorded & Hnext & _ & Hsm).
    rewrite Hop in Hok. injection Hok as Hs' ->. rewrite Hs'. split; [done|].
    assert (is_Some (summary x')) by (rewrite Hsm; eauto).
    destruct Hwhy as [-> | [[e ->] Hdirty]]; subst r; [done|]. split; [done|]. right.
    by eapply recorded_ended.
Qed.

Lemma service_finish_refused id c st w r w' e :
  Mirrored (store w) → state_of (store w) id = Some st → is_terminal (completion_state c) = true →
  validate_transition st (completion_state c) = Err e →
  service_finish id c w = (r, w') →
  kept w w' ∧ store w' = store w ∧ ∃ e', r = Err e' ∧ (¬ clean w ∨ e' = StoreState e).
Proof.
  intros Hs Hst Hterminal Hinvalid (r1 & w1 & Hcall & Hrest)%bind_M.
  apply store_call_cases in Hcall as [Hclean Hcases].
  destruct Hcases as [(Hsame & e' & -> & Hwhy) | (now & x & Hop & _)].
  - injection Hrest as <- <-. unfold kept. rewrite Hsame. split; [done|]. split; [done|]. exists e'. split; [done|].
    destruct Hwhy as [Hdirty | [now Hop]]; [by left|right].
    rewrite (finish_refused _ _ _ _ _ _ Hs Hst Hterminal Hinvalid) in Hop. congruence.
  - rewrite (finish_refused _ _ _ _ _ _ Hs Hst Hterminal Hinvalid) in Hop. done.
Qed.

(** Reading the header: a fault, or what the index says. *)
Lemma read_header_cases id w r w' :
  Mirrored (store w) → store_read (fun s => get_invocation_header s id) w = (r, w') →
  kept w w' ∧ store w' = store w ∧ (r = get_invocation_header (store w) id ∨ (∃ e, r = Err e) ∧ ¬ clean w).
Proof.
  intros Hs Hcall. unfold store_read in Hcall. apply store_call_cases in Hcall as [Hclean Hcases]. unfold kept.
  destruct Hcases as [(Hsame & e & -> & Hwhy) | (now & x & Hop & Hwhy)].
  - rewrite Hsame. split_and!; [done|done|done|]. destruct Hwhy as [Hdirty | [now Hop]]; [by right; eauto|left].
    destruct (get_invocation_header (store w) id); simpl in Hop; congruence.
  - destruct (get_invocation_header (store w) id) as [h|]; [|done]. simpl in Hop. injection Hop as Hsame ->.
    rewrite <- Hsame. split_and!; [done|done|done|]. destruct Hwhy as [-> | [He Hdirty]]; [by left|by right].
Qed.

(** What the return value of a commit says. *)
Definition commits {E} (w w' : World) (id : InvocationId) (st : InvocationState) (r : result E InvocationRecord) : Prop :=
  match r with
  | Ok record => state record = st ∧ is_Some (summary record) ∧ recorded (store w') id record
  | Err _ => ¬ clean w
  end.

Lemma ended_state s id st : ended s id st → state_of s id = Some st.
Proof. intros (_ & v & Hview & <- & _). unfold state_of. by rewrite Hview. Qed.

Lemma validate_live st next : validate_transition st next = Ok tt → is_terminal st = false.
Proof. by destruct st. Qed.

(** An ended invocation stays as it is; the caller gets its record. *)
Lemma commit_terminal_ended c st w r w' :
  Mirrored (store w) → ended (store w) (commit_id c) st → is_terminal (completion_state (commit_completion c)) = true →
  commit_terminal c w = (r, w') →
  kept w w' ∧ store w' = store w ∧ commits w w' (commit_id c) st r.
Proof.
  intros Hs Hended Hterminal (r1 & w1 & Hfinish & Hrest)%bind_M.
  pose proof (ended_state _ _ _ Hended) as Hst. destruct Hended as [Hend Hview].
  apply (service_finish_refused _ _ st _ _ _ _ Hs Hst Hterminal (terminal_refused _ _ Hend)) in Hfinish
    as (Hkept1 & Hsame1 & e1 & -> & Hwhy1).
  apply bind_M in Hrest as (r2 & w2 & Hread & Hrest).
  apply read_header_cases in Hread as (Hkept2 & Hsame2 & Hread); [|by rewrite Hsame1].
  destruct (settled_ended (store w) (commit_id c) st) as (header & record & Hheader & Hsettled & Hrecord & Hsummary & Hrecorded);
    [by split|].
  destruct Hread as [-> | [[e2 ->] Hdirty]].
  - rewrite Hsame1, Hheader, Hsettled in Hrest. injection Hrest as <- <-.
    split; [by eapply kept_trans|]. rewrite Hsame2, Hsame1. split; [done|]. cbn. by rewrite Hsame2, Hsame1.
  - cbn [settled] in Hrest.
    assert (Hdirty0 : ¬ clean w) by (intros Hclean; by apply Hdirty, Hkept1).
    destruct (bool_decide (e1 = not_found_io) && recover_without_evidence c).
    + assert (Hst2 : state_of (store w2) (commit_id c) = Some st) by (by rewrite Hsame2, Hsame1).
      apply (transition_invocation_refused _ _ _ _ st _ _ _ _ (proj1 Hkept2) Hst2 (terminal_refused _ _ Hend)) in Hrest
        as (Hkept3 & Hsame3 & e3 & -> & _).
      split; [by eapply kept_trans; [|eapply kept_trans]|]. split; [congruence|done].
    + injection Hrest as <- <-. split; [by eapply kept_trans|]. split; [congruence|done].
Qed.

(** A live invocation: a failed commit leaves it live or ended as asked. *)
Lemma commit_terminal_live c st w r w' :
  let next := completion_state (commit_completion c) in
  Mirrored (store w) → state_of (store w) (commit_id c) = Some st → is_terminal next = true →
  validate_transition st next = Ok tt → commit_terminal c w = (r, w') →
  kept w w' ∧ commits w w' (commit_id c) next r ∧
  (state_of (store w') (commit_id c) = Some st ∨ ended (store w') (commit_id c) next).
Proof.
  intros next Hs Hst Hterminal Hvalid (r1 & w1 & Hfinish & Hrest)%bind_M.
  apply (service_finish_permitted _ _ st _ _ _ Hs Hst Hterminal Hvalid) in Hfinish as (Hkept1 & Hfinish).
  destruct r1 as [record|e1].
  { injection Hrest as <- <-. destruct Hfinish as (Hrecorded & Hstate & Hsummary). split; [done|]. split.
    - by cbn.
    - right. by eapply recorded_ended. }
  destruct Hfinish as [Hdirty Hstore].
  apply bind_M in Hrest as (r2 & w2 & Hread & Hrest).
  apply read_header_cases in Hread as (Hkept2 & Hsame2 & Hread); [|apply Hkept1].
  assert (Hkept12 : kept w w2) by (by eapply kept_trans).
  assert (Hstate2 : state_of (store w2) (commit_id c) = Some st ∨ ended (store w2) (commit_id c) next).
  { rewrite Hsame2. destruct Hstore as [-> | Hended]; [by left|by right]. }
  destruct (settled r2) as [record|] eqn:Hsettled.
  { injection Hrest as <- <-. split; [done|]. split; [|done].
    destruct Hread as [-> | [[e2 ->] _]]; [|done]. destruct Hstore as [Hsame1 | Hended].
    - rewrite Hsame1, (settled_live _ _ st Hst) in Hsettled; [done|by eapply validate_live].
    - destruct (settled_ended _ _ _ Hended) as (header & record' & Hheader & Hsome & Hrecord).
      rewrite Hheader in Hsettled. rewrite Hsome in Hsettled. injection Hsettled as <-.
      cbn. by rewrite Hsame2. }
  destruct (bool_decide (e1 = not_found_io) && recover_without_evidence c).
  - destruct Hstate2 as [Hst2 | Hended2].
    + apply (transition_invocation_permitted _ _ _ _ st _ _ _ (proj1 Hkept2) Hst2 Hvalid) in Hrest as (Hkept3 & Hrest).
      split; [by eapply kept_trans|]. destruct r as [record|e3].
      * destruct Hrest as (Hrecorded & Hstate & Hsummary). split.
        { cbn. split_and!; [done| |done]. rewrite Hsummary. by eexists. }
        right. eapply recorded_ended; [done|done|done|rewrite Hsummary; by eexists].
      * split; [done|]. destruct Hrest as [_ [-> | (record & Hrecorded & Hstate & Hsummary)]]; [by left|].
        right. eapply recorded_ended; [done|done|done|rewrite Hsummary; by eexists].
    + apply (transition_invocation_refused _ _ _ _ next _ _ _ _ (proj1 Hkept2) (ended_state _ _ _ Hended2)
        (terminal_refused _ _ Hterminal)) in Hrest as (Hkept3 & Hsame3 & e3 & -> & _).
      split; [by eapply kept_trans|]. split; [done|]. right. by rewrite Hsame3.
  - injection Hrest as <- <-. split; [done|]. by split.
Qed.
End steps.

Section execution_theorems.
Context {IoError RegexError : Type} `{Files : Serializer} `{Redactor : BoundedRedactor} `{Terminal : TerminalText}.
Context `{Text : TextDiagnostics} (unix windows : bool) (id_string : InvocationId → string).
Context (display : RunnerError IoError RegexError → string).
Context (enrich_tests : list Artifact → InvocationSummary → InvocationSummary).
Context (load_coverage : list Artifact → option CoverageSummary).
Context (config : RunnerConfig) (reducers : ReducerPipeline) (vars : list (string * string)).

(** The state a failed phase is recorded with: never success. *)
Definition failed_as (st : InvocationState) : InvocationState := if decide (st = Succeeded) then Failed else st.

Lemma commits_clean {E} w0 w w' id st (r : result E InvocationRecord) :
  (clean w0 → clean w) → commits w w' id st r → commits w0 w' id st r.
Proof. destruct r; [done|]. unfold commits. tauto. Qed.

Lemma recover_live context error st w r w' :
  Mirrored (store w) → state_of (store w) (context_id context) = Some st → is_terminal (context_state context) = true →
  validate_transition st (failed_as (context_state context)) = Ok tt →
  recover_terminal_failure display context error w = (r, w') →
  kept w w' ∧ commits w w' (context_id context) (failed_as (context_state context)) r.
Proof.
  intros Hs Hst Hterminal Hvalid (r1 & w1 & Hread & Hrest)%bind_M.
  apply read_header_cases in Hread as (Hkept1 & Hsame1 & Hread); [|done].
  assert (settled r1 = None) as Hnone.
  { destruct Hread as [-> | [[e ->] _]]; [|done]. eapply settled_live; [done|by eapply validate_live]. }
  rewrite Hnone in Hrest. apply bind_M in Hrest as (r2 & w2 & Hcommit & Hrest).
  apply (commit_terminal_live _ st) in Hcommit as (Hkept2 & Hcommits & _).
  - split; [by eapply kept_trans; [|destruct r2; injection Hrest as <- <-]|].
    cbn [commit_id commit_completion completion_state] in Hcommits. fold (failed_as (context_state context)) in Hcommits.
    destruct r2; injection Hrest as <- <-; [done|]. cbn in *. intros Hclean. by apply Hcommits, Hkept1.
  - apply Hkept1.
  - cbn. by rewrite Hsame1.
  - cbn. destruct (decide _); [done|]. done.
  - done.
Qed.

Lemma recover_ended context error st w r w' :
  Mirrored (store w) → ended (store w) (context_id context) st → is_terminal (context_state context) = true →
  recover_terminal_failure display context error w = (r, w') →
  kept w w' ∧ commits w w' (context_id context) st r.
Proof.
  intros Hs Hended Hterminal (r1 & w1 & Hread & Hrest)%bind_M.
  apply read_header_cases in Hread as (Hkept1 & Hsame1 & Hread); [|done].
  destruct (settled_ended _ _ _ Hended) as (header & record & Hheader & Hsettled & Hrecord).
  destruct Hread as [-> | [[e ->] Hdirty]].
  { rewrite Hheader, Hsettled in Hrest. injection Hrest as <- <-. split; [done|]. cbn. by rewrite Hsame1. }
  cbn [settled] in Hrest. apply bind_M in Hrest as (r2 & w2 & Hcommit & Hrest).
  apply (commit_terminal_ended _ st) in Hcommit as (Hkept2 & _ & Hcommits).
  - destruct r2; injection Hrest as <- <-; (split; [by eapply kept_trans|done]).
  - apply Hkept1.
  - cbn. by rewrite Hsame1.
  - cbn. by destruct (decide _).
Qed.

Definition active (st : InvocationState) : Prop := st = Starting ∨ st = Running.
Definition unsuccessful (st : InvocationState) : Prop := is_terminal st = true ∧ st ≠ Succeeded.

Lemma active_unsuccessful st next : active st → unsuccessful next → validate_transition st next = Ok tt.
Proof. intros [-> | ->] [Hterminal Hne]; by destruct next. Qed.

Lemma failed_as_unsuccessful st : is_terminal st = true → unsuccessful (failed_as st).
Proof. unfold failed_as, unsuccessful. case_decide; [done|]. done. Qed.

(** The end of an execution: a terminal record in one of the given states, which
    the store holds, or an error that a fault caused. *)
Definition concludes {E} (w w' : World) (id : InvocationId) (ends : InvocationState → Prop)
    (r : result E InvocationRecord) : Prop :=
  match r with
  | Ok record => ends (state record) ∧ is_terminal (state record) = true ∧ is_Some (summary record) ∧
                 recorded (store w') id record
  | Err _ => ¬ clean w
  end.

Lemma concludes_weaken {E} w0 w w' id (ends ends' : InvocationState → Prop) (r : result E InvocationRecord) :
  (clean w0 → clean w) → (∀ st, ends st → ends' st) → concludes w w' id ends r → concludes w0 w' id ends' r.
Proof. intros Hclean Hends. destruct r; cbn; [|tauto]. intros (? & ? & ? & ?). eauto. Qed.

Lemma commits_concludes {E} w w' id st (r : result E InvocationRecord) :
  is_terminal st = true → commits w w' id st r → concludes w w' id (eq st) r.
Proof. destruct r; cbn; [|done]. intros Hterminal (<- & ? & ?). eauto. Qed.

(** Recovering from a failed phase. *)
Lemma recover_concludes context error st w r w' :
  Mirrored (store w) → state_of (store w) (context_id context) = Some st → active st →
  is_terminal (context_state context) = true → recover_terminal_failure display context error w = (r, w') →
  kept w w' ∧ concludes w w' (context_id context) unsuccessful r.
Proof.
  intros Hs Hst Hactive Hterminal Hrecover. pose proof (failed_as_unsuccessful _ Hterminal) as Hfailed.
  eapply recover_live in Hrecover as [Hkept Hcommits]; [|done|done|done|by apply active_unsuccessful].
  split; [done|]. eapply concludes_weaken; [| |apply commits_concludes; [|exact Hcommits]]; [done| |apply Hfailed].
  by intros ? <-.
Qed.

(** A commit, and the recovery when it fails. *)
Lemma commit_or_recover_concludes context commit st w r w' :
  context_id context = commit_id commit → Mirrored (store w) →
  state_of (store w) (commit_id commit) = Some st → active st →
  let next := completion_state (commit_completion commit) in
  is_terminal next = true → validate_transition st next = Ok tt → is_terminal (context_state context) = true →
  (r ← commit_terminal commit;
   match r with
   | Ok record => mret (Some (Ok record))
   | Err error => r ← recover_terminal_failure display context (RStore error); mret (Some r)
   end) w = (r, w') →
  kept w w' ∧ ∃ r', r = Some r' ∧ concludes w w' (commit_id commit) (fun st => st = next ∨ unsuccessful st) r'.
Proof.
  intros Hid Hs Hst Hactive next Hterminal Hvalid Hcontext (r1 & w1 & Hcommit & Hrest)%bind_M.
  apply (commit_terminal_live commit st) in Hcommit as (Hkept1 & Hcommits & Hstate); [|done..].
  destruct r1 as [record|error].
  { injection Hrest as <- <-. split; [done|]. eexists. split; [done|].
    eapply concludes_weaken; [| |apply commits_concludes; [|exact Hcommits]]; [done| |done]. by intros ? <-; left. }
  apply bind_M in Hrest as (r2 & w2 & Hrecover & [= <- <-]). rewrite <- Hid in Hstate.
  destruct Hstate as [Hst1 | Hended].
  - apply (recover_concludes _ _ st) in Hrecover as [Hkept2 Hconcludes]; [|apply Hkept1|done|done|done].
    split; [by eapply kept_trans|]. eexists. split; [done|]. rewrite <- Hid.
    eapply concludes_weaken; [apply Hkept1| |exact Hconcludes]. by right.
  - apply (recover_ended _ _ next) in Hrecover as [Hkept2 Hcommits2]; [|apply Hkept1|done|done].
    split; [by eapply kept_trans|]. eexists. split; [done|]. rewrite <- Hid.
    eapply concludes_weaken; [apply Hkept1| |apply commits_concludes; [|exact Hcommits2]]; [|done]. by intros ? <-; left.
Qed.

(** Starting: the process runs, or a commit follows, or an error. *)
Lemma start_execution_spec q d queue_ms env w r w' :
  Mirrored (store w) → state_of (store w) (request_id q) = Some Starting →
  start_execution windows id_string display config vars q d queue_ms env w = (r, w') →
  kept w w' ∧ ∃ st, state_of (store w') (request_id q) = Some st ∧ active st ∧
  match r with
  | Ok StartRunning => st = Running ∧ cancelled_at_start env = false ∧ cancelled_before_spawn env = false ∧
      spawn_error env = None
  | Ok (StartTerminal commit) => commit_id commit = request_id q ∧
      unsuccessful (completion_state (commit_completion commit))
  | Ok StartPanicked => build_command (IoError:=IoError) (RegexError:=RegexError) windows id_string config d q
      (bep_file env) (bep_output env) (bes_endpoint env) vars = None
  | Err _ => True
  end.
Proof.
  intros Hs Hst. assert (Hsame : kept w w ∧ ∃ st, state_of (store w) (request_id q) = Some st ∧ active st).
  { split; [done|]. exists Starting. split; [done|by left]. }
  destruct Hsame as (Hkept & st & Hstate & Hactive). unfold start_execution.
  destruct (cancelled_at_start env); [intros [= <- <-]; split; [done|]; exists st; by split_and!|].
  destruct (stdio_error env); [intros [= <- <-]; split; [done|]; exists st; by split_and!|].
  destruct (cancelled_before_spawn env); [intros [= <- <-]; split; [done|]; exists st; by split_and!|].
  destruct (if captures_bep _ && _ && _ then _ else _); [intros [= <- <-]; split; [done|]; exists st; by split_and!|].
  destruct (build_command _ _ _ _ _ _ _ _ _) as [[process|error]|] eqn:Hbuild;
    [|intros [= <- <-]; (split; [done|]); exists st; by split_and!..].
  destruct (spawn_error env) eqn:Hspawn; [intros [= <- <-]; split; [done|]; exists st; by split_and!|].
  intros (r1 & w1 & Htransition & Hrest)%bind_M.
  apply (transition_invocation_permitted _ _ _ _ Starting) in Htransition as (Hkept1 & Hrecord); [|done..].
  destruct r1 as [record|error]; injection Hrest as <- <-; (split; [done|]).
  - destruct Hrecord as (Hrecorded & Hnext & _). exists Running. rewrite (recorded_state _ _ _ Hrecorded), Hnext.
    split_and!; [done|by right|done..].
  - destruct Hrecord as [_ [-> | (record & Hrecorded & Hnext & _)]]; [exists st; by split_and!|].
    exists Running. rewrite (recorded_state _ _ _ Hrecorded), Hnext. split_and!; [done|by right|done..].
Qed.

Lemma completion_state_reduced l c :
  completion_state (reduce_evidence windows enrich_tests load_coverage reducers l c) = cap_state c.
Proof. unfold reduce_evidence. by destruct (apply_reducers _ _ _ _ _ _) as [[? ?] ?]. Qed.

(** The process ended by itself with code 0 and, for [run], its output fits. *)
Definition exits_cleanly (q : InvocationRequest) (env : Env IoError RegexError) : Prop :=
  ∃ status, status_code status = Some 0 ∧
    (exit_event env = ChildExited (Ok status) ∨ command q ≠ Run ∧ exit_event env = OutputLimitReached (Ok status)) ∧
    (command q = Run → u64_add (stdout_size env) (stderr_size env) ≤ maximum_run_output_bytes config).

Lemma finish_from_status_state status out termination st :
  finish_from_status unix status = (out, termination, st) →
  (st = Succeeded ↔ status_code status = Some 0) ∧ (st = Succeeded ∨ st = Failed) ∧ stopped termination = false.
Proof.
  unfold finish_from_status, status_success. destruct (status_code status) as [code|].
  - case_bool_decide as Hcode; intros [= <- <- <-]; split_and!; try done; auto; split; congruence.
  - rewrite bool_decide_false by done. intros [= <- <- <-]. split_and!; [done|by right|by destruct unix].
Qed.

Lemma wait_for_exit_spec q env exited :
  wait_for_exit unix config q env = Ok exited →
  is_terminal (exited_state exited) = true ∧ validate_transition Running (exited_state exited) = Ok tt ∧
  (exited_state exited = Succeeded → exits_cleanly q env).
Proof.
  unfold wait_for_exit. intros (e & Hselect & Hlimit)%bind_Ok_inv.
  assert (Hawaited : ∀ r : result IoError ExitStatus,
    match r with
    | Ok status => let '(status, termination, state) := finish_from_status unix status in
                   Ok (MkExited status termination state)
    | Err e => Err (RIo (RegexError:=RegexError) e)
    end = Ok e → (exited_state e = Succeeded ∨ exited_state e = Failed) ∧ stopped (exited_termination e) = false ∧
    (exited_state e = Succeeded → ∃ status, r = Ok status ∧ status_code status = Some 0)).
  { intros [status|]; [|done]. destruct (finish_from_status unix status) as [[out termination] st] eqn:Hfinish.
    apply finish_from_status_state in Hfinish as (Hcode & Hst & Hstopped). intros [= <-]. cbn.
    split_and!; [done|done|]. intros Hok. exists status. by rewrite <- Hcode. }
  assert (Hcases : (exited_state e = Succeeded ∧ stopped (exited_termination e) = false ∧ ∃ status, status_code status = Some 0 ∧
            (exit_event env = ChildExited (Ok status) ∨ command q ≠ Run ∧ exit_event env = OutputLimitReached (Ok status)))
          ∨ exited_state e ∈ [Failed; Cancelled; TimedOut]).
  { destruct (exit_event env) as [r|[status|]|[status|]|r]; try done.
    - apply Hawaited in Hselect as ([Hst | Hst] & Hstopped & Hok); [left|right; rewrite Hst; set_solver].
      destruct (Hok Hst) as (status & -> & Hcode). eauto 8.
    - injection Hselect as <-. right. cbn. set_solver.
    - injection Hselect as <-. right. cbn. set_solver.
    - destruct (decide (command q = Run)) as [Hrun | Hrun].
      + destruct r; [|done]. injection Hselect as <-. right. cbn. set_solver.
      + apply Hawaited in Hselect as ([Hst | Hst] & Hstopped & Hok); [left|right; rewrite Hst; set_solver].
        destruct (Hok Hst) as (status & -> & Hcode). eauto 8. }
  destruct (bool_decide (command q = Run) && negb (stopped (exited_termination e)) && _) eqn:Hover.
  { injection Hlimit as <-. done. }
  injection Hlimit as <-. destruct Hcases as [(-> & Hstopped & status & Hcode & Hevent) | Hother].
  - split_and!; [done|done|]. intros _. exists status. split_and!; [done|done|]. intros Hrun.
    rewrite Hstopped, bool_decide_true in Hover by done. cbn in Hover. by apply Z.ltb_ge.
  - rewrite !elem_of_cons, elem_of_nil in Hother. by destruct Hother as [-> | [-> | [-> | []]]].
Qed.

(** When an execution may be recorded as a success: the process was started,
    ended by itself with code 0 and within the output limit, and its evidence was
    captured and reduced. *)
Definition succeeds_only (q : InvocationRequest) (env : Env IoError RegexError) (st : InvocationState) : Prop :=
  st = Succeeded →
    cancelled_at_start env = false ∧ cancelled_before_spawn env = false ∧ spawn_error env = None ∧
    exits_cleanly q env ∧ is_ok (capture_result env) = true ∧
    (reducer_task_error env = None ∨ reducers = []).

Lemma unsuccessful_succeeds_only q env st : unsuccessful st → succeeds_only q env st.
Proof. by intros [_ Hne] Heq. Qed.

(** The outcome of a phase that follows [w]. *)
Definition outcome (q : InvocationRequest) (env : Env IoError RegexError) (w w' : World)
    (r : option (result (RunnerError IoError RegexError) InvocationRecord)) : Prop :=
  kept w w' ∧ ∃ r', r = Some r' ∧ concludes w w' (request_id q) (succeeds_only q env) r'.

Lemma outcome_after q env w w1 w' r : kept w w1 → outcome q env w1 w' r → outcome q env w w' r.
Proof.
  intros Hkept1 (Hkept2 & r' & -> & Hconcludes). split; [by eapply kept_trans|]. exists r'. split; [done|].
  by eapply concludes_weaken; [apply Hkept1| |exact Hconcludes].
Qed.

Lemma recover_outcome q env context error st w r w' :
  context_id context = request_id q → is_terminal (context_state context) = true →
  Mirrored (store w) → state_of (store w) (request_id q) = Some st → active st →
  (r ← recover_terminal_failure display context error; mret (Some r)) w = (r, w') → outcome q env w w' r.
Proof.
  intros Hid Hterminal Hs Hst Hactive (r2 & w2 & Hrecover & [= <- <-])%bind_M. rewrite <- Hid in Hst.
  apply (recover_concludes _ _ st) in Hrecover as [Hkept Hconcludes]; [|done..].
  split; [done|]. eexists. split; [done|]. rewrite <- Hid.
  eapply concludes_weaken; [done| |exact Hconcludes]. apply unsuccessful_succeeds_only.
Qed.

Lemma commit_outcome q env context commit st w r w' :
  context_id context = request_id q → commit_id commit = request_id q → is_terminal (context_state context) = true →
  Mirrored (store w) → state_of (store w) (request_id q) = Some st → active st →
  let next := completion_state (commit_completion commit) in
  is_terminal next = true → validate_transition st next = Ok tt → succeeds_only q env next →
  (r ← commit_terminal commit;
   match r with
   | Ok record => mret (Some (Ok record))
   | Err error => r ← recover_terminal_failure display context (RStore error); mret (Some r)
   end) w = (r, w') → outcome q env w w' r.
Proof.
  intros Hcontext Hid Hterminal Hs Hst Hactive next Hnext Hvalid Honly Hrest. rewrite <- Hid in Hst.
  eapply commit_or_recover_concludes in Hrest as (Hkept & r' & -> & Hconcludes); [| |done..]; [|congruence].
  split; [done|]. exists r'. split; [done|]. rewrite <- Hid. eapply concludes_weaken; [done| |exact Hconcludes].
  intros st' [-> | Hun]; [exact Honly|by apply unsuccessful_succeeds_only].
Qed.

Lemma execute_outcome q d now env w
    (Hmirrored : Mirrored (store w)) (Hstarting : state_of (store w) (request_id q) = Some Starting)
    (Hbuild : is_Some (build_command (IoError:=IoError) (RegexError:=RegexError) windows id_string config d q
                (bep_file env) (bep_output env) (bes_endpoint env) vars)) r w' :
  execute unix windows id_string display enrich_tests load_coverage config reducers vars q d now env w = (r, w') →
  outcome q env w w' r.
Proof.
  unfold execute. intros (started & w1 & Hstart & Hrest)%bind_M.
  apply start_execution_spec in Hstart as (Hkept1 & st & Hst1 & Hactive & Hstart); [|done|done].
  apply (outcome_after _ _ _ w1); [done|]. destruct Hkept1 as [Hs1 _].
  destruct started as [[|commit|]|error]; [| | |by eapply recover_outcome; [| | | | |exact Hrest]].
  - destruct Hstart as (-> & Hlive & Hlive' & Hspawned).
    destruct (wait_for_exit unix config q env) as [exited|error] eqn:Hwait;
      [|by eapply recover_outcome; [| | | | |exact Hrest]].
    apply wait_for_exit_spec in Hwait as (Hterminal & Hvalid & Hclean).
    destruct (capture_result env ≫= _) as [c|error] eqn:Hcapture; [|by eapply recover_outcome; [| | | | |exact Hrest]].
    eapply commit_outcome in Hrest; [exact Hrest|..]; cbn [commit_completion]; try done;
      rewrite ?completion_state_reduced; [done..|]. intros Hsucceeded.
    apply bind_Ok_inv in Hcapture as (c' & Hc & Hreducer). rewrite Hc. split_and!; try done; [by apply Hclean|].
    destruct (reducer_task_error env); [|by left]. destruct (decide _); [|done]. right. by apply nil_length_inv.
  - destruct Hstart as [Hid Hun]. eapply commit_outcome in Hrest; [exact Hrest|done|done|done|done|done|done|..].
    + apply Hun.
    + by apply active_unsuccessful.
    + by apply unsuccessful_succeeds_only.
  - rewrite Hstart in Hbuild. by destruct Hbuild.
Qed.

(** C2: Whatever happens to the process, its capture and its reduction, and
    whatever faults the store meets, executing a started invocation ends with a
    terminal record with a summary, which the store then holds, unless a store
    call failed.  The record says the invocation succeeded only when the process
    was started, ended by itself with code 0 and within the output limit, and
    both the capture and the reduction of its evidence succeeded. *)
Theorem execution_concludes q d now env w
    (Hmirrored : Mirrored (store w)) (Hstarting : state_of (store w) (request_id q) = Some Starting)
    (Hbuild : is_Some (build_command (IoError:=IoError) (RegexError:=RegexError) windows id_string config d q
                (bep_file env) (bep_output env) (bes_endpoint env) vars)) :
  ∃ r w', execute unix windows id_string display enrich_tests load_coverage config reducers vars q d now env w
          = (Some r, w') ∧ Mirrored (store w') ∧
    concludes w w' (request_id q)
      (fun st => st = Succeeded →
         cancelled_at_start env = false ∧ cancelled_before_spawn env = false ∧ spawn_error env = None ∧
         exits_cleanly q env ∧ is_ok (capture_result env) = true ∧
         (reducer_task_error env = None ∨ reducers = [])) r.
Proof.
  destruct (execute _ _ _ _ _ _ _ _ _ _ _ _ _ _) as [r w'] eqn:Hexecute.
  apply execute_outcome in Hexecute as ([Hs' _] & r' & -> & Hconcludes); [|done..]. by exists r', w'.
Qed.
End execution_theorems.

(** * Examples *)

Module ExecutionExamples.
Import LiteralEngine.
#[local] Instance example_files : Serializer := {|
  manifest_len _ := 100; details_len _ := 10; artifacts_len _ := 5 |}.
#[local] Instance example_redactor : BoundedRedactor := policy_redactor (MkRedactor [bytes_of "s3cret"]).
#[local] Instance plain_text : TerminalText := {| normalize_terminal_text bytes := string_of_bytes bytes |}.
#[local] Instance no_text : TextDiagnostics := {| add_text_diagnostics _ ds := ds |}.

Definition example_request : InvocationRequest :=
  MkRequest 7 "/w" [] Build ["--config=dev"; "//..."] None [] None ∅ 1000.
Definition example_capture : Capture :=
  MkCapture default_accumulator false false 4 [] (bytes_of "INFO: Build completed successfully") 0 [] 100 2.

(** A process that ends with code 0. *)
Definition clean_env : Env string string :=
  MkEnv _ _ false None false None None "/e/bep" "/e/bep" None (ChildExited (Ok (MkStatus (Some 0) None))) 0 34 120 125 0
    (Ok example_capture) None.

Definition starting_store : StoreInner :=
  StoreExamples.example_run (STransition 7 1010 Starting None None)
    (StoreExamples.example_run (SCreate (queued (redacted_request example_request)) None) empty_store).
Definition starting_world (faults : list Answer) : World :=
  MkWorld starting_store (register 7 0 Starting (new_scheduler 1 4)) faults.

Lemma starting_mirrored : Mirrored starting_store.
Proof. apply reachable_mirrored. do 2 (apply StoreExamples.example_run_reachable; [|vm_compute; reflexivity]). apply store_empty. Qed.

Definition run_example (faults : list Answer) :=
  execute (IoError:=string) (RegexError:=string) true false RunnerExamples.example_id (fun _ => "error") (fun _ s => s)
    (fun _ => None) (RunnerExamples.example_config Tail) [] [] example_request (BazelDriver "/bin/bazel") 1005 clean_env
    (starting_world faults).

Definition final_state (r : option (result (RunnerError string string) InvocationRecord)) : option InvocationState :=
  match r with Some (Ok record) => Some (state record) | _ => None end.

Lemma execution_concludes_witness :
  final_state (run_example []).1 = Some Succeeded ∧
  ∃ r w', run_example [] = (Some r, w') ∧ Mirrored (store w') ∧
    concludes (starting_world []) w' 7 (fun _ => True) r.
Proof.
  split; [vm_compute; reflexivity|].
  destruct (execution_concludes (IoError:=string) (RegexError:=string) true false RunnerExamples.example_id
    (fun _ => "error") (fun _ s => s) (fun _ => None) (RunnerExamples.example_config Tail) [] []
    example_request (BazelDriver "/bin/bazel") 1005 clean_env (starting_world [])) as (r & w' & Hrun & Hs & Hconcludes).
  - exact starting_mirrored.
  - vm_compute. reflexivity.
  - eexists. vm_compute. reflexivity.
  - exists r, w'. split; [exact Hrun|]. split; [exact Hs|]. destruct r as [record|e]; [|exact Hconcludes].
    destruct Hconcludes as (_ & Hrest). split; [exact I|exact Hrest].
Defined.

(** The final commit is stored, but its answer is lost; reading the header, the
    only other call that can find the outcome, fails too: the recovery finds the
    invocation ended and returns the outcome that was stored. *)
Example lost_answer_recovered :
  final_state (run_example [MkAnswer 1010 None; MkAnswer 1100 (Some (After (StoreIo "lost")));
                            MkAnswer 1101 (Some (Before (StoreIo "busy")))]).1 = Some Succeeded.
Proof. vm_compute. reflexivity. Qed.
End ExecutionExamples.
