(* ===== verification/Service.v ===== *)
(** * The invocation service (crates/bazel-mcp-runner/src/service.rs, version.rs
    and cancel.rs)

    Admission of a request, the worker that runs it once it holds its locks, the
    supervisor that reports a failed worker, cancellation, the check of the
    Bazel version and the termination of a process group. *)

From S2P Require Import Prelude Collections Types Policy Record Index Store Scheduler QueryPaging Redaction Diagnostics Extension Reduction Text Runner Sanitize Outcome Execution.

(** ** The Bazel version (version.rs) *)

Record BazelVersion : Type := MkVersion { raw_version : string; major : Z }.

Definition is_ascii_digit (c : Ascii.ascii) : bool := (48 <=? byte_of c) && (byte_of c <=? 57).

Fixpoint skip_non_digits (s : string) : string :=
  match s with
  | EmptyString => EmptyString
  | String c rest => if is_ascii_digit c then s else skip_non_digits rest
  end.

Fixpoint all_digits (s : string) : bool :=
  match s with EmptyString => true | String c rest => is_ascii_digit c && all_digits rest end.

(** The version a line of the output names. *)
Definition version_line (line : string) : option BazelVersion :=
  let candidate := trim (default line (option_else (strip_prefix "bazel " line) (strip_prefix "Build label: " line))) in
  let release := default candidate (strip_prefix "release " candidate) in
  let digits := match split_once_str "." (skip_non_digits release) with Some (major, _) => major | None => release end in
  if negb (bool_decide (digits = "")) && all_digits digits
  then MkVersion candidate <$> parse_u32 digits else None.

Definition parse_bazel_version (output : string) : option BazelVersion := find_map version_line (lines output).

(** [chars().take(n)]. *)
Fixpoint take_chars (n : nat) (bytes : list Z) : list Z :=
  match bytes with
  | [] => []
  | b :: rest =>
      if is_continuation b then b :: take_chars n rest
      else match n with O => [] | S n => b :: take_chars n rest end
  end.

Definition normalized_output (stdout stderr : list Z) : string :=
  let bytes := if decide (stdout = []) then stderr else stdout in
  string_of_bytes (take_chars 2000 (bytes_of (trim (string_of_bytes (from_utf8_lossy bytes))))).

(** ** The version cache *)

Abbreviation VersionCacheKey := (string * string * list (string * string))%type.

Section service.
Context {IoError RegexError : Type}.
Abbreviation RunnerError := (RunnerError IoError RegexError).

(** [validate_bazel_version]: only a successful probe stays in the cache. *)
Definition validate_bazel_version (config : RunnerConfig) (cache : gmap VersionCacheKey Z) (key : VersionCacheKey)
    (probe : result string Z) : result RunnerError unit * gmap VersionCacheKey Z :=
  if allow_unsupported_bazel_versions config then (Ok tt, cache)
  else
    match match cache !! key with Some major => Ok major | None => probe end with
    | Err error => (Err (VersionCheck error), delete key cache)
    | Ok major =>
        (reject_if (negb (bool_decide (major ∈ supported_bazel_major_versions config)))
           (UnsupportedBazelVersion major (stable_sort Z.leb (elements (supported_bazel_major_versions config)))),
         <[key := major]> cache)
    end.
End service.

(** ** Terminating a process group (cancel.rs) *)

Inductive ProcessSignal : Type := SigInt | SigTerm | SigKill.

(** [terminate_child] on Unix, given what waiting returned within each grace
    period ([None] when it elapsed): the signals sent to the group, and the
    status. *)
Definition terminate_child {E} (interrupted terminated : option (result E ExitStatus)) (killed : result E ExitStatus)
    : list ProcessSignal * result E ExitStatus :=
  let '(signals, status) :=
    match interrupted with
    | Some status => ([SigInt], status)
    | None =>
        match terminated with
        | Some status => ([SigInt; SigTerm], status)
        | None => ([SigInt; SigTerm; SigKill], killed)
        end
    end in
  match status with
  | Ok status => (signals ++ [SigKill], Ok status)
  | Err e => (signals, Err e)
  end.

(** ** The worker *)

(** How the worker fared with its locks and its permit. *)
Inductive AcquireEvent : Type :=
| WorkspaceCancelled
| OutputBaseCancelled
| OutputBaseFailed (error : string)
| PermitClosed
| PermitCancelled
| Acquired (cancelled : bool).

Section worker.
Context {IoError RegexError : Type} `{Files : Serializer} `{Redactor : BoundedRedactor} `{Terminal : TerminalText}.
Context `{Text : TextDiagnostics} (unix windows : bool) (id_string : InvocationId → string).
Abbreviation RunnerError := (RunnerError IoError RegexError).
Context (display : RunnerError → string).
Context (enrich_tests : list Artifact → InvocationSummary → InvocationSummary).
Context (load_coverage : list Artifact → option CoverageSummary).
Context (config : RunnerConfig) (reducers : ReducerPipeline) (vars : list (string * string)).

(** [finish_cancelled]. *)
Definition finish_cancelled (id : InvocationId) : M (result RunnerError InvocationRecord) :=
  current ← store_read (fun s => get_invocation s id);
  match current with
  | Err e => mret (Err (RStore e))
  | Ok current =>
      if is_terminal (state current) then mret (Ok current)
      else
        r ← transition_invocation id Cancelled (Some TerminationCancelled) (Some cancelled_summary);
        match r with
        | Ok record => mret (Ok record)
        | Err (StoreState _) =>
            r ← store_read (fun s => get_invocation s id);
            match r with
            | Err e => mret (Err (RStore e))
            | Ok record =>
                if is_terminal (state record) then mret (Ok record)
                else mret (Err (RStore (StoreState (MkTransitionError (state record) Cancelled))))
            end
        | Err e => mret (Err (RStore e))
        end
  end.

Definition start_failure_summary (message : string) : InvocationSummary :=
  failure_summary ("Could not start Bazel: " +:+ message) true None 0.

(** [finish_start_failure]. *)
Definition finish_start_failure (id : InvocationId) (message : string) : M (result RunnerError InvocationRecord) :=
  let message := redact_str message 1000 in
  current ← store_read (fun s => get_invocation s id);
  match current with
  | Err e => mret (Err (RStore e))
  | Ok current =>
      if is_terminal (state current) then mret (Ok current)
      else
        started ← (if decide (state current = Queued) then
                     r ← transition_invocation id Starting None None;
                     mret (match r with Err (StoreState _) | Ok _ => None | Err e => Some e end)
                   else mret None);
        match started with
        | Some e => mret (Err (RStore e))
        | None =>
            current ← store_read (fun s => get_invocation s id);
            match current with
            | Err e => mret (Err (RStore e))
            | Ok current =>
                if is_terminal (state current) then mret (Ok current)
                else
                  r ← transition_invocation id Failed (Some (SpawnFailure message))
                        (Some (start_failure_summary message));
                  mret (match r with Ok record => Ok record | Err e => Err (RStore e) end)
            end
        end
  end.

Definition live_header (r : result StoreError InvocationHeader) : bool :=
  match r with Ok header => negb (is_terminal (header_state header)) | Err _ => false end.

(** What [run_prepared] does when the starting state cannot be recorded. *)
Definition starting_failed (id : InvocationId) (error : StoreError) : M (result RunnerError InvocationRecord) :=
  let message := redact_str ("could not record Bazel starting state: " +:+ display (RStore error)) 1000 in
  header ← store_read (fun s => get_invocation_header s id);
  _ ← (if live_header header
       then r ← transition_invocation id Failed (Some (SpawnFailure message)) (Some (start_failure_summary message));
            mret tt
       else mret tt);
  header ← store_read (fun s => get_invocation_header s id);
  mret (match settled header with Some record => Ok record | None => Err (RStore error) end).

(** [run_prepared], without the locks themselves ([Scheduler.v]); [None] is a
    panic of the worker. *)
Definition run_prepared (q : InvocationRequest) (d : ExecutionDriver) (event : AcquireEvent) (now : Z)
    (env : Env IoError RegexError) : M (option (result RunnerError InvocationRecord)) :=
  let id := request_id q in
  match event with
  | WorkspaceCancelled | OutputBaseCancelled | PermitCancelled | Acquired true =>
      r ← finish_cancelled id; mret (Some r)
  | OutputBaseFailed error =>
      r ← finish_start_failure id ("could not acquire output-base coordination lock: " +:+ error); mret (Some r)
  | PermitClosed => mret (Some (Err SchedulerClosed))
  | Acquired false =>
      r ← transition_invocation id Starting None None;
      match r with
      | Err error => r ← starting_failed id error; mret (Some r)
      | Ok _ => execute unix windows id_string display enrich_tests load_coverage config reducers vars q d now env
      end
  end.

(** [materialize_worker_failure]. *)
Definition materialize_worker_failure (id : InvocationId) (deferred : bool) (error : RunnerError) : M unit :=
  let message := redact_str ("accepted invocation worker failed: " +:+ display error) 1000 in
  _ ← (if deferred
       then r ← store_call (fun now s =>
                  s ← persist_deferred_failure s id (MkDeferredFailure ExecutionFailure message) now; Ok (s, tt));
            mret tt
       else mret tt);
  header ← store_read (fun s => get_invocation_header s id);
  if live_header header
  then r ← transition_invocation id Failed (Some (SpawnFailure message))
             (Some (failure_summary "Accepted Bazel invocation could not be executed" true None 0));
       mret tt
  else mret tt.

Definition unregister (id : InvocationId) : M unit := fun w =>
  (tt, MkWorld (store w) (remove id (scheduler w)) (answers w)).

(** The two tasks [submit] spawns: the worker and its supervisor. *)
Definition supervised_worker (q : InvocationRequest) (d : ExecutionDriver) (deferred : bool) (event : AcquireEvent)
    (now : Z) (env : Env IoError RegexError) : M unit :=
  r ← run_prepared q d event now env;
  _ ← match r with
      | Some (Ok _) => mret tt
      | Some (Err error) => materialize_worker_failure (request_id q) deferred error
      | None => materialize_worker_failure (request_id q) deferred (RJoin "panic")
      end;
  unregister (request_id q).

(** ** Cancellation *)

Record CancelResult : Type := MkCancelResult {
  prior_state : InvocationState;
  current_state : InvocationState;
  cancellation_requested : bool;
}.

Definition cancel_token (id : InvocationId) : M bool := fun w =>
  match cancellation_of id (scheduler w) with
  | Some token => (true, MkWorld (store w) (set_cancelled ({[token]} ∪ cancelled (scheduler w)) (scheduler w)) (answers w))
  | None => (false, w)
  end.

(** The first step of [cancel_with_reason]. *)
Definition record_reason (id : InvocationId) (reason : option string) : M (result StoreError unit) :=
  match reason with
  | Some reason => store_call (fun _ s => s ← update_cancellation_reason s id (redact_str reason 1000); Ok (s, tt))
  | None => mret (Ok tt)
  end.

(** [cancel_with_reason]. *)
Definition cancel_with_reason (id : InvocationId) (reason : option string) : M (result RunnerError CancelResult) :=
  header ← store_read (fun s => get_invocation_header s id);
  match header with
  | Err e => mret (Err (RStore e))
  | Ok header =>
      let prior := header_state header in
      if is_terminal prior then mret (Ok (MkCancelResult prior prior false))
      else
        updated ← record_reason id reason;
        match updated with
        | Err e => mret (Err (RStore e))
        | Ok _ =>
            requested ← cancel_token id;
            let report :=
              header ← store_read (fun s => get_invocation_header s id);
              match header with
              | Err e => mret (Err (RStore e))
              | Ok header => mret (Ok (MkCancelResult prior (header_state header) requested))
              end in
            if decide (prior = Queued) then
              r ← transition_invocation id Cancelled (Some TerminationCancelled) (Some cancelled_summary);
              match r with
              | Ok record => mret (Ok (MkCancelResult prior (state record) true))
              | Err (StoreState _) => report
              | Err e => mret (Err (RStore e))
              end
            else report
        end
  end.
End worker.

(** ** Admission *)

Record PreparedSubmission : Type := MkPrepared {
  prepared_request : InvocationRequest;
  lock_key : PathBuf;
  explicit_output_base : option PathBuf;
  prepared_driver : ExecutionDriver;
  prepared_deferred : bool;
}.

Definition set_workspace (canonical : PathBuf) (q : InvocationRequest) : InvocationRequest :=
  MkRequest (request_id q) canonical (startup_arguments q) (command q) (arguments q) (target q)
    (program_arguments q) (timeout_ms q) (environment q) (requested_at_ms q).

(** The deferred result an accepted submission is recorded with. *)
Definition deferred_record (id : InvocationId) (now : Z) (disposition : ResultDisposition) : option DeferredResultRecord :=
  match disposition with
  | Attached => None
  | Deferred retrieval expires_at_ms => Some (new_deferred id retrieval now expires_at_ms)
  end.

Section admission.
Context {IoError RegexError : Type} `{FS : FileSystem IoError} `{Files : Serializer} `{Redactor : BoundedRedactor}.
Abbreviation RunnerError := (RunnerError IoError RegexError).
Context (unix windows : bool) (vars : list (string * string)).
(** The programs on the search path, and what the version probe reports. *)
Context (which_all : string → option (list string)) (which_in : option string).
Context (probe : PathBuf → PathBuf → result string Z).

(** The paths of a submission, once it holds a pending permit. *)
Definition resolve_submission (config : RunnerConfig) (cache : gmap VersionCacheKey Z) (uses_aspect : bool)
    (q : InvocationRequest)
    : result RunnerError (PathBuf * option PathBuf * ExecutionDriver) * gmap VersionCacheKey Z :=
  match (workspace ← policy_error (validate_workspace (workspace q) (allowed_roots (policy config)));
         output_base ← policy_error (effective_output_base workspace (startup_arguments q));
         bazel ← policy_error (resolve_bazel_executable unix which_all workspace (policy config));
         Ok (workspace, output_base, bazel)) with
  | Err error => (Err error, cache)
  | Ok (workspace, output_base, bazel) =>
      let env := filtered_environment (policy config) windows vars in
      match validate_bazel_version (IoError:=IoError) (RegexError:=RegexError) config cache
              (bazel, workspace, btree_items env) (probe bazel workspace) with
      | (Err error, cache) => (Err error, cache)
      | (Ok _, cache) =>
          (driver ← (if uses_aspect : bool
                     then aspect ← policy_error (resolve_aspect_executable unix which_in (aspect_executable (aspect config)));
                          Ok (AspectDriver aspect bazel)
                     else Ok (BazelDriver bazel));
           Ok (workspace, output_base, driver), cache)
      end
  end.

(** [prepare_submission]; a pending permit taken is returned on every error, and
    [first] and [second] are the cancellation token at its two readings. *)
Definition prepare_submission (config : RunnerConfig) (first second : bool) (token : nat) (now : Z)
    (q : InvocationRequest) (disposition : ResultDisposition) (cache : gmap VersionCacheKey Z)
    : M (result RunnerError PreparedSubmission * gmap VersionCacheKey Z) := fun w =>
  if first then ((Err CancelledBeforeAcceptance, cache), w)
  else match validate_request unix config q with
  | Err error => ((Err error, cache), w)
  | Ok uses_aspect =>
      match try_acquire_pending (scheduler w) with
      | None => ((Err (QueueFull (maximum_pending_invocations config)), cache), w)
      | Some sched =>
          match resolve_submission config cache uses_aspect q with
          | (Err error, cache) => ((Err error, cache), w)
          | (Ok (canonical, output_base, driver), cache) =>
              if second then ((Err CancelledBeforeAcceptance, cache), w)
              else
                let q := set_workspace canonical q in
                let stored := queued (redacted_request q) in
                let deferred := deferred_record (request_id q) now disposition in
                match store_call (fun _ s => s ← create_invocation_with_deferred s stored deferred; Ok (s, tt)) w with
                | (Err error, w) => ((Err (RStore error), cache), w)
                | (Ok _, w) =>
                    ((Ok (MkPrepared q (default canonical output_base) output_base driver
                            (bool_decide (is_Some deferred))), cache),
                     MkWorld (store w) (register (request_id q) token (state stored) sched) (answers w))
                end
          end
      end
  end.
End admission.

(** * Theorems *)

(** ** Reading a hydrated record *)

Lemma header_hydrate d h : header_from_record (hydrate d (header_into_record h)) = h.
Proof. destruct h as [? ? ? ? ? [[? ? ? ? ? [[]|]]|]]; reflexivity. Qed.

Lemma store_call_scheduler {A} (op : Z → StoreInner → result StoreError (StoreInner * A)) w r w' :
  store_call op w = (r, w') → scheduler w' = scheduler w.
Proof.
  unfold store_call, next_answer. destruct (answers w) as [|a rest]; cbn [fault clock scheduler];
    [|destruct (fault a) as [[]|]]; repeat case_match; by intros [= <- <-].
Qed.

Lemma publish_cancelled id st s : cancelled (publish_state id st s) = cancelled s.
Proof. unfold publish_state. by destruct (live s !! id). Qed.

Lemma cancel_token_spec id w requested w' :
  cancel_token id w = (requested, w') →
  store w' = store w ∧ answers w' = answers w ∧
  requested = bool_decide (is_Some (cancellation_of id (scheduler w))) ∧
  (∀ token, cancellation_of id (scheduler w) = Some token → token ∈ cancelled (scheduler w')).
Proof.
  unfold cancel_token. destruct (cancellation_of id (scheduler w)) as [token|]; intros [= <- <-]; split_and!; try done.
  intros token' [= <-]. cbn. set_solver.
Qed.

Section worker_theorems.
Context {IoError RegexError : Type} `{Files : Serializer} `{Redactor : BoundedRedactor} `{Terminal : TerminalText}.
Context `{Text : TextDiagnostics} (unix windows : bool) (id_string : InvocationId → string).
Context (display : RunnerError IoError RegexError → string).
Context (enrich_tests : list Artifact → InvocationSummary → InvocationSummary).
Context (load_coverage : list Artifact → option CoverageSummary).
Context (config : RunnerConfig) (reducers : ReducerPipeline) (vars : list (string * string)).

Lemma get_invocation_recorded s id st : Mirrored s → state_of s id = Some st →
  ∃ record, get_invocation s id = Ok record ∧ state record = st ∧ recorded s id record.
Proof.
  intros Hs Hst. destruct (state_of_manifest s id st Hs Hst) as (ev & Hdisk & Hstate).
  unfold get_invocation, read_hydrated_invocation, read_durable.
  rewrite (ensure_state_of s id st Hst), Hdisk. eexists. split; [reflexivity|]. split; [exact Hstate|].
  exists (durable_deferred (manifest ev)). unfold hydrated_into_record. cbn [hydrated_header hydrated_details].
  rewrite header_hydrate, (Hs id). unfold disk_view. by rewrite Hdisk.
Qed.

Lemma recorded_summary s id st r : recorded s id r → ended s id st → is_Some (summary r).
Proof.
  intros [deferred Hview] (_ & v & Hv & _ & Hsome). rewrite Hview in Hv. injection Hv as <-. simpl in Hsome.
  destruct (summary r); [by eexists|by destruct Hsome].
Qed.

Lemma read_invocation_cases id st w r w' :
  Mirrored (store w) → state_of (store w) id = Some st → store_read (fun s => get_invocation s id) w = (r, w') →
  kept w w' ∧ store w' = store w ∧
  match r with
  | Ok record => state record = st ∧ recorded (store w) id record
  | Err _ => ¬ clean w
  end.
Proof.
  intros Hs Hst Hcall. destruct (get_invocation_recorded (store w) id st Hs Hst) as (record & Hget & Hstate & Hrecorded).
  unfold store_read in Hcall. apply store_call_cases in Hcall as [Hclean Hcases]. unfold kept.
  destruct Hcases as [(Hsame & e & -> & Hwhy) | (now & x & Hop & Hwhy)].
  - rewrite Hsame. split; [done|]. split; [done|]. destruct Hwhy as [Hdirty | [now Hop]]; [done|].
    rewrite Hget in Hop. done.
  - rewrite Hget in Hop. injection Hop as Hsame <-. rewrite <- Hsame. split; [done|]. split; [done|].
    by destruct Hwhy as [-> | [[e ->] Hdirty]].
Qed.

(** ** Ending before the start *)

(** Queued, or already ended by someone else. *)
Definition waiting (s : StoreInner) (id : InvocationId) (st : InvocationState) : Prop :=
  st = Queued ∧ state_of s id = Some Queued ∨ ended s id st.

Lemma waiting_state s id st : waiting s id st → state_of s id = Some st.
Proof. intros [[-> Hst] | Hended]; [done|by apply ended_state]. Qed.

Lemma ended_terminal s id st : ended s id st → is_terminal st = true.
Proof. by intros [Hterminal _]. Qed.

Lemma ended_concludes {E} w w' id st record :
  ended (store w') id st → state record = st → recorded (store w') id record →
  concludes (E:=E) w w' id (fun _ => True) (Ok record).
Proof.
  intros Hended Hstate Hrecorded. cbn. rewrite Hstate. split_and!; [done|by eapply ended_terminal| |done].
  by eapply recorded_summary.
Qed.

Lemma finish_cancelled_concludes id st w r w' :
  Mirrored (store w) → waiting (store w) id st → finish_cancelled (IoError:=IoError) (RegexError:=RegexError) id w = (r, w') →
  kept w w' ∧ concludes w w' id (fun _ => True) r.
Proof.
  intros Hs Hwaiting (r1 & w1 & Hread & Hrest)%bind_M. pose proof (waiting_state _ _ _ Hwaiting) as Hst.
  apply (read_invocation_cases _ st) in Hread as (Hkept1 & Hsame1 & Hread); [|done|done].
  destruct r1 as [current|e]; [|injection Hrest as <- <-; by split].
  destruct Hread as [Hcurrent Hrecorded]. rewrite Hcurrent in Hrest.
  destruct Hwaiting as [[-> _] | Hended].
  - cbn [is_terminal] in Hrest. apply bind_M in Hrest as (r2 & w2 & Htransition & Hrest).
    rewrite <- Hsame1 in Hst.
    apply (transition_invocation_permitted _ _ _ _ Queued) in Htransition as (Hkept2 & Hrecord); [|apply Hkept1|done|done].
    destruct r2 as [record|e].
    + injection Hrest as <- <-. split; [by eapply kept_trans|]. destruct Hrecord as (Hrecorded2 & Hstate & Hsummary).
      cbn. rewrite Hstate, Hsummary. split_and!; [done|done|by eexists|done].
    + destruct Hrecord as [Hdirty Hstore].
      assert (Hdirty0 : ¬ clean w) by (intros Hclean; by apply Hdirty, Hkept1).
      assert (Hst2 : ∃ st2, state_of (store w2) id = Some st2 ∧ (is_terminal st2 = true → ended (store w2) id st2)).
      { destruct Hstore as [-> | (record & Hrecorded2 & Hstate & Hsummary)]; [by exists Queued|].
        exists Cancelled. split; [by rewrite (recorded_state _ _ _ Hrecorded2), Hstate|]. intros Hterminal.
        eapply recorded_ended; [done|done|done|]. rewrite Hsummary. by eexists. }
      destruct Hst2 as (st2 & Hst2 & Hended2).
      destruct e; try (injection Hrest as <- <-; split; [by eapply kept_trans|done]).
      apply bind_M in Hrest as (r3 & w3 & Hread3 & Hrest).
      apply (read_invocation_cases _ st2) in Hread3 as (Hkept3 & Hsame3 & Hread3); [|apply Hkept2|done].
      destruct r3 as [record|e3]; [|injection Hrest as <- <-; split; [by eapply kept_trans; [|eapply kept_trans]|done]].
      destruct Hread3 as [Hstate3 Hrecorded3]. rewrite Hstate3 in Hrest.
      destruct (is_terminal st2) eqn:Hterminal; injection Hrest as <- <-;
        (split; [by eapply kept_trans; [|eapply kept_trans]|]); [|done].
      rewrite <- Hsame3 in *. by apply (ended_concludes w w3 id st2); [apply Hended2|..].
  - rewrite (ended_terminal _ _ _ Hended) in Hrest. injection Hrest as <- <-. split; [done|].
    rewrite <- Hsame1 in *. by eapply ended_concludes.
Qed.

(** ** Without faults *)

Lemma transition_clean id next t sm st w :
  clean w → Mirrored (store w) → state_of (store w) id = Some st → validate_transition st next = Ok tt →
  ∃ record w', transition_invocation id next t sm w = (Ok record, w') ∧ kept w w' ∧
    recorded (store w') id record ∧ state record = next ∧ summary record = sm.
Proof.
  intros Hclean Hs Hst Hvalid. destruct (transition_invocation id next t sm w) as [r w'] eqn:Htransition.
  apply (transition_invocation_permitted _ _ _ _ st) in Htransition as (Hkept & Hrecord); [|done..].
  destruct r as [record|]; [|by destruct Hrecord]. exists record, w'. by destruct Hrecord as (? & ? & ?).
Qed.

Lemma read_clean id st w :
  clean w → Mirrored (store w) → state_of (store w) id = Some st →
  ∃ record w', store_read (fun s => get_invocation s id) w = (Ok record, w') ∧ kept w w' ∧ store w' = store w ∧
    state record = st ∧ recorded (store w') id record.
Proof.
  intros Hclean Hs Hst. destruct (store_read _ w) as [r w'] eqn:Hread.
  apply (read_invocation_cases _ st) in Hread as (Hkept & Hsame & Hrecord); [|done..].
  destruct r as [record|]; [|done]. exists record, w'. rewrite Hsame. by destruct Hrecord.
Qed.

Lemma finish_start_failure_clean id message st w :
  clean w → Mirrored (store w) → waiting (store w) id st →
  ∃ record w', finish_start_failure (IoError:=IoError) (RegexError:=RegexError) id message w = (Ok record, w') ∧
    kept w w' ∧ ended (store w') id (state record).
Proof.
  intros Hclean Hs Hwaiting. pose proof (waiting_state _ _ _ Hwaiting) as Hst. unfold finish_start_failure, mbind, M_bind.
  destruct (read_clean id st w Hclean Hs Hst) as (current & w1 & -> & Hkept1 & Hsame1 & Hcurrent & Hrecorded1).
  rewrite Hcurrent. destruct Hwaiting as [[-> _] | Hended].
  - cbn [is_terminal]. rewrite decide_True by done. rewrite <- Hsame1 in Hst.
    destruct (transition_clean id Starting None None Queued w1) as (r2 & w2 & -> & Hkept2 & Hrecorded2 & Hstate2 & _);
      [by apply Hkept1|apply Hkept1|done|done|]. cbn [mret M_ret].
    destruct (read_clean id Starting w2) as (r3 & w3 & -> & Hkept3 & Hsame3 & Hstate3 & _);
      [by apply Hkept2, Hkept1|apply Hkept2|by rewrite (recorded_state _ _ _ Hrecorded2), Hstate2|].
    rewrite Hstate3. cbn [is_terminal].
    destruct (transition_clean id Failed (Some (SpawnFailure (redact_str message 1000)))
      (Some (start_failure_summary (redact_str message 1000))) Starting w3)
      as (r4 & w4 & -> & Hkept4 & Hrecorded4 & Hstate4 & Hsummary4);
      [by apply Hkept3, Hkept2, Hkept1|apply Hkept3|by rewrite Hsame3, (recorded_state _ _ _ Hrecorded2), Hstate2|done|].
    exists r4, w4. split; [done|]. split; [by do 3 (eapply kept_trans; [done|])|].
    eapply recorded_ended; [done|done|by rewrite Hstate4|rewrite Hsummary4; by eexists].
  - rewrite (ended_terminal _ _ _ Hended). exists current, w1. split; [done|]. split; [done|].
    rewrite Hcurrent. by rewrite Hsame1.
Qed.

Lemma read_header_clean id w v :
  clean w → Mirrored (store w) → index_view (store_index (store w)) id = Some v →
  ∃ header w', store_read (fun s => get_invocation_header s id) w = (Ok header, w') ∧ kept w w' ∧
    store w' = store w ∧ get_invocation_header (store w) id = Ok header ∧ forget_metrics header = v.1.
Proof.
  intros Hclean Hs Hview. destruct (header_view _ _ _ Hview) as (header & Hheader & Hforget).
  destruct (store_read _ w) as [r w'] eqn:Hread.
  apply read_header_cases in Hread as (Hkept & Hsame & [-> | [_ Hdirty]]); [|done|done].
  exists header, w'. by rewrite Hheader.
Qed.

Lemma starting_failed_ended id error st w :
  clean w → Mirrored (store w) → ended (store w) id st →
  ∃ record w', starting_failed display id error w = (Ok record, w') ∧ kept w w' ∧ ended (store w') id (state record).
Proof.
  intros Hclean Hs Hended. destruct (settled_ended _ _ _ Hended) as (header & record & Hheader & Hsettled & Hstate & _).
  pose proof Hended as (Hterminal & v & Hview & Hst & _). unfold starting_failed, mbind, M_bind.
  destruct (read_header_clean id w v) as (h1 & w1 & -> & Hkept1 & Hsame1 & Hget1 & Hforget1); [done..|].
  assert (header_state h1 = st) as Hh1 by (rewrite <- Hst, <- Hforget1; done).
  cbn [live_header]. rewrite Hh1, Hterminal. cbn [negb mret M_ret].
  destruct (read_header_clean id w1 v) as (h2 & w2 & -> & Hkept2 & Hsame2 & Hget2 & _);
    [by apply Hkept1|apply Hkept1|by rewrite Hsame1|].
  rewrite Hsame1, Hheader in Hget2. injection Hget2 as <-. rewrite Hsettled.
  exists record, w2. split; [done|]. split; [by eapply kept_trans|]. rewrite Hsame2, Hsame1, Hstate. done.
Qed.

(** An accepted request has a command line. *)
Lemma build_command_total q d bep_file bep_output endpoint uses_aspect :
  validate_request (IoError:=IoError) (RegexError:=RegexError) unix config q = Ok uses_aspect →
  is_Some (build_command (IoError:=IoError) (RegexError:=RegexError) windows id_string config d q bep_file bep_output
    endpoint vars).
Proof.
  intros Haccepted%validate_request_accepted.
  destruct (accepted_suffix _ _ _ _ Haccepted) as (suffix & Hsuffix & _).
  unfold build_command. destruct d; [|by eexists]. unfold bazel_arguments. rewrite Hsuffix.
  destruct (if captures_bep _ then _ else _); by eexists.
Qed.

Lemma run_prepared_clean q d uses_aspect event now env st w :
  validate_request (IoError:=IoError) (RegexError:=RegexError) unix config q = Ok uses_aspect →
  clean w → Mirrored (store w) → waiting (store w) (request_id q) st → event ≠ PermitClosed →
  ∃ record w', run_prepared unix windows id_string display enrich_tests load_coverage config reducers vars q d event now
                 env w = (Some (Ok record), w') ∧ kept w w' ∧ ended (store w') (request_id q) (state record).
Proof.
  intros Haccepted Hclean Hs Hwaiting Hevent.
  assert (Hconcluded : ∀ w0 w' (r : result (RunnerError IoError RegexError) InvocationRecord) ends,
    clean w0 → concludes w0 w' (request_id q) ends r →
    ∃ record, r = Ok record ∧ ended (store w') (request_id q) (state record)).
  { intros w0 w' [record|] ends Hclean0; [|done]. intros (_ & Hterminal & Hsummary & Hrecorded).
    exists record. split; [done|]. by eapply recorded_ended. }
  assert (Hcancel : ∃ record w', (r ← finish_cancelled (IoError:=IoError) (RegexError:=RegexError) (request_id q);
      mret (Some r)) w = (Some (Ok record), w') ∧ kept w w' ∧ ended (store w') (request_id q) (state record)).
  { unfold mbind, M_bind. destruct (finish_cancelled _ _) as [r w'] eqn:Hcancel.
    eapply finish_cancelled_concludes in Hcancel as [Hkept Hconcludes]; [|done|done].
    destruct (Hconcluded w w' r _ Hclean Hconcludes) as (record & -> & Hended). by exists record, w'. }
  unfold run_prepared. destruct event as [| |error| | |[]]; try done.
  - unfold mbind, M_bind. destruct (finish_start_failure_clean (request_id q)
      ("could not acquire output-base coordination lock: " +:+ error) st w) as (record & w' & -> & Hkept & Hended); [done..|].
    by exists record, w'.
  - destruct Hwaiting as [[-> Hst] | Hended].
    + destruct (transition_clean (request_id q) Starting None None Queued w)
        as (r1 & w1 & Htransition & Hkept1 & Hrecorded1 & Hstate1 & _); [done..|].
      unfold mbind, M_bind. rewrite Htransition.
      destruct (execute _ _ _ _ _ _ _ _ _ _ _ _ _ _) as [r w'] eqn:Hexecute.
      apply execute_outcome in Hexecute as (Hkept2 & r' & -> & Hconcludes);
        [|apply Hkept1|by rewrite (recorded_state _ _ _ Hrecorded1), Hstate1|by eapply build_command_total].
      assert (clean w1) as Hclean1 by (by apply Hkept1).
      destruct (Hconcluded w1 w' r' _ Hclean1 Hconcludes) as (record & -> & Hended).
      exists record, w'. split; [done|]. split; [by eapply kept_trans|done].
    + unfold mbind, M_bind. destruct (transition_invocation _ _ _ _ w) as [r1 w1] eqn:Htransition.
      apply (transition_invocation_refused _ _ _ _ st _ _ _ _ Hs (ended_state _ _ _ Hended)
        (terminal_refused _ _ (ended_terminal _ _ _ Hended))) in Htransition as (Hkept1 & Hsame1 & e & -> & _).
      destruct (starting_failed_ended (request_id q) e st w1) as (record & w' & -> & Hkept2 & Hended2);
        [by apply Hkept1|apply Hkept1|by rewrite Hsame1|].
      exists record, w'. split; [done|]. split; [by eapply kept_trans|done].
Qed.

(** ** Updates that leave the state alone *)

Lemma mutate_state s id recount operation s' st :
  Mirrored s → state_of s id = Some st →
  (∀ durable durable', operation durable = Ok durable' →
     header_state (durable_invocation durable') = header_state (durable_invocation durable)) →
  mutate s id recount operation = Ok s' → state_of s' id = Some st.
Proof.
  intros Hs Hst Hoperation Hmutate. destruct (state_of_manifest s id st Hs Hst) as (ev & Hdisk & Hstate).
  unfold mutate, read_durable in Hmutate. rewrite (ensure_state_of s id st Hst), Hdisk in Hmutate.
  cbn [mbind result_bind] in Hmutate. destruct (merge_index_telemetry _ _ _) as [metrics generation].
  apply bind_Ok_inv in Hmutate as (durable & Hdurable & [= <-]). apply Hoperation in Hdurable.
  unfold state_of. rewrite (proj1 (commit_record_views s id ev durable recount generation id)), decide_True by done.
  simpl. rewrite Hdurable. simpl. by rewrite Hstate.
Qed.

Lemma mutate_call id recount (operation : Z → DurableRecord → result StoreError DurableRecord) st w r w' :
  Mirrored (store w) → state_of (store w) id = Some st →
  (∀ now durable durable', operation now durable = Ok durable' →
     header_state (durable_invocation durable') = header_state (durable_invocation durable)) →
  store_call (fun now s => s ← mutate s id recount (operation now); Ok (s, tt)) w = (r, w') →
  kept w w' ∧ state_of (store w') id = Some st.
Proof.
  intros Hs Hst Hoperation [Hclean Hcases]%store_call_cases. unfold kept.
  destruct Hcases as [(-> & _) | (now & x & Hop & _)]; [done|].
  apply bind_Ok_inv in Hop as (s & Hmutate & [= <- _]). split; [split; [|done]|].
  - by eapply mutate_mirrored.
  - eapply mutate_state; [done|done| |exact Hmutate]. apply Hoperation.
Qed.

Lemma update_deferred_state id f durable durable' :
  update_deferred id f durable = Ok durable' →
  header_state (durable_invocation durable') = header_state (durable_invocation durable).
Proof. unfold update_deferred. by intros (d & _ & [= <-])%bind_Ok_inv. Qed.

(** C30: A failed worker cannot be recorded while its invocation is queued: the
    state machine refuses to go from queued to failed, and the invocation stays
    queued whatever the error was. *)
Theorem worker_failure_leaves_queued id deferred error w
    (Hmirrored : Mirrored (store w)) (Hqueued : state_of (store w) id = Some Queued) :
  state_of (store (materialize_worker_failure display id deferred error w).2) id = Some Queued.
Proof.
  destruct (materialize_worker_failure _ _ _ _ w) as [u w'] eqn:Hfailure. cbn [snd].
  apply bind_M in Hfailure as (u1 & w1 & Hdeferred & Hrest).
  assert (kept w w1 ∧ state_of (store w1) id = Some Queued) as [[Hs1 _] Hst1].
  { destruct deferred; [|by injection Hdeferred as <- <-].
    apply bind_M in Hdeferred as (r & w2 & Hcall & [= _ <-]).
    eapply (mutate_call id false (fun now => update_deferred id _)); [done|done| |exact Hcall].
    intros now. apply update_deferred_state. }
  apply bind_M in Hrest as (header & w2 & Hread & Hrest).
  apply read_header_cases in Hread as ([Hs2 _] & Hsame2 & _); [|done]. rewrite <- Hsame2 in Hst1.
  destruct (live_header header); [|by injection Hrest as _ <-].
  apply bind_M in Hrest as (r & w3 & Htransition & [= _ <-]).
  by eapply transition_invocation_refused in Htransition as (_ & -> & _).
Qed.

(** ** The supervised worker *)

Lemma remove_live id s : live (remove id s) !! id = None.
Proof.
  unfold remove. destruct (live s !! id) eqn:Hlive; [|done]. cbn. apply lookup_delete_eq.
Qed.

Lemma supervised_clean q d deferred uses_aspect event now env st w :
  validate_request (IoError:=IoError) (RegexError:=RegexError) unix config q = Ok uses_aspect →
  clean w → Mirrored (store w) → waiting (store w) (request_id q) st → event ≠ PermitClosed →
  ∃ w' st', supervised_worker unix windows id_string display enrich_tests load_coverage config reducers vars q d deferred
              event now env w = (tt, w') ∧ kept w w' ∧ ended (store w') (request_id q) st' ∧
            live (scheduler w') !! request_id q = None.
Proof.
  intros Haccepted Hclean Hs Hwaiting Hevent.
  destruct (run_prepared_clean q d uses_aspect event now env st w) as (record & w' & Hrun & Hkept & Hended); [done..|].
  unfold supervised_worker, mbind, M_bind. rewrite Hrun. cbn [mret M_ret unregister].
  exists (MkWorld (store w') (remove (request_id q) (scheduler w')) (answers w')), (state record).
  split; [done|]. split; [exact Hkept|]. split; [exact Hended|apply remove_live].
Qed.
(** ** Cancellation *)

Lemma transition_cancelled id next t sm w r w' :
  transition_invocation id next t sm w = (r, w') → cancelled (scheduler w') = cancelled (scheduler w).
Proof.
  intros (r1 & w1 & Hcall & Hrest)%bind_M. apply store_call_scheduler in Hcall as <-.
  destruct r1; injection Hrest as _ <-; [apply publish_cancelled|done].
Qed.

Lemma reason_clean id reason st w :
  clean w → Mirrored (store w) → state_of (store w) id = Some st →
  ∃ w', store_call (fun _ s => s ← update_cancellation_reason s id reason; Ok (s, tt)) w = (Ok tt, w') ∧
    kept w w' ∧ state_of (store w') id = Some st ∧ scheduler w' = scheduler w.
Proof.
  intros Hclean Hs Hst. destruct (store_call _ w) as [r w'] eqn:Hcall.
  pose proof (store_call_scheduler _ _ _ _ Hcall) as Hscheduler.
  pose proof (store_call_cases _ _ _ _ Hcall) as [_ Hcases].
  apply (mutate_call id false (fun _ durable => Ok (MkDurable (schema_version durable)
    (set_cancellation_reason reason (durable_invocation durable)) (durable_deferred durable) (payload_bytes durable))) st)
    in Hcall as [Hkept Hst']; [|done|done|by intros ? ? ? [= <-]].
  exists w'. split; [|done]. f_equal. destruct Hcases as [(_ & e & -> & [? | [now Hop]]) | (now & [] & _ & [-> | [_ ?]])];
    [done| |done|done].
  destruct (state_of_manifest _ id st Hs Hst) as (ev & Hdisk & _).
  unfold update_cancellation_reason, mutate, read_durable in Hop. rewrite (ensure_state_of _ id st Hst), Hdisk in Hop.
  cbn [mbind result_bind] in Hop. by destruct (merge_index_telemetry _ _ _).
Qed.

Lemma record_reason_clean id reason st w :
  clean w → Mirrored (store w) → state_of (store w) id = Some st →
  ∃ w', record_reason id reason w = (Ok tt, w') ∧ kept w w' ∧ state_of (store w') id = Some st ∧
    scheduler w' = scheduler w.
Proof. intros Hclean Hs Hst. destruct reason; [by apply reason_clean|by exists w]. Qed.

Lemma header_clean id st w :
  clean w → Mirrored (store w) → state_of (store w) id = Some st →
  ∃ header w', store_read (fun s => get_invocation_header s id) w = (Ok header, w') ∧ kept w w' ∧
    store w' = store w ∧ header_state header = st ∧ scheduler w' = scheduler w.
Proof.
  intros Hclean Hs Hst. assert (∃ v, index_view (store_index (store w)) id = Some v ∧ header_state v.1 = st) as (v & Hv & Hvst).
  { unfold state_of in Hst. destruct (index_view _ id) as [v|]; [|done]. injection Hst as <-. by exists v. }
  destruct (read_header_clean id w v Hclean Hs Hv) as (header & w' & Hread & Hkept & Hsame & _ & Hforget).
  exists header, w'. split_and!; [done|exact Hkept|done|by rewrite <- Hvst, <- Hforget|].
  by eapply store_call_scheduler.
Qed.

(** Cancelling an invocation that has ended changes nothing and reports that
    nothing was requested.  Cancelling a live one cancels its token when it is
    registered; a queued invocation then ends cancelled at once, with a summary,
    and one that was started is left for its worker to end. *)
Theorem cancel_spec id reason st w
    (Hclean : clean w) (Hmirrored : Mirrored (store w)) (Hstate : state_of (store w) id = Some st) :
  ∃ c w', cancel_with_reason (IoError:=IoError) (RegexError:=RegexError) id reason w = (Ok c, w') ∧
    Mirrored (store w') ∧ prior_state c = st ∧
    (if is_terminal st then current_state c = st ∧ cancellation_requested c = false ∧
       store w' = store w ∧ scheduler w' = scheduler w
     else (∀ token, cancellation_of id (scheduler w) = Some token → token ∈ cancelled (scheduler w')) ∧
       if decide (st = Queued)
       then current_state c = Cancelled ∧ cancellation_requested c = true ∧ ended (store w') id Cancelled
       else current_state c = st ∧ state_of (store w') id = Some st ∧
         cancellation_requested c = bool_decide (is_Some (cancellation_of id (scheduler w)))).
Proof.
  unfold cancel_with_reason, mbind, M_bind.
  destruct (header_clean id st w) as (header & w1 & -> & Hkept1 & Hsame1 & -> & Hsched1); [done..|].
  destruct (is_terminal st) eqn:Hterminal.
  { eexists _, w1. split; [done|]. split; [apply Hkept1|]. by split_and!. }
  destruct (record_reason_clean id reason st w1) as (w2 & -> & Hkept2 & Hst2 & Hsched2);
    [by apply Hkept1|apply Hkept1|by rewrite Hsame1|].
  destruct (cancel_token id w2) as [requested w3] eqn:Htoken.
  apply cancel_token_spec in Htoken as (Hstore3 & Hanswers3 & -> & Hsched3). rewrite Hsched2, Hsched1 in *.
  assert (clean w3 ∧ Mirrored (store w3) ∧ state_of (store w3) id = Some st) as (Hclean3 & Hs3 & Hst3).
  { unfold clean. rewrite Hanswers3, Hstore3. split_and!; [by apply Hkept2, Hkept1|apply Hkept2|done]. }
  destruct (decide (st = Queued)) as [-> | Hne].
  - destruct (transition_clean id Cancelled (Some TerminationCancelled) (Some cancelled_summary) Queued w3)
      as (record & w4 & Htransition & Hkept4 & Hrecorded & Hnext & Hsummary); [done..|]. rewrite Htransition.
    eexists _, w4. split; [done|]. split; [apply Hkept4|]. cbn. split_and!; [done| |done|done|].
    + intros token Hlookup. rewrite (transition_cancelled _ _ _ _ _ _ _ Htransition). by apply Hsched3.
    + eapply recorded_ended; [done|done|done|rewrite Hsummary; by eexists].
  - destruct (header_clean id st w3) as (header' & w4 & -> & Hkept4 & Hsame4 & -> & Hsched4); [done..|].
    eexists _, w4. split; [done|]. split; [apply Hkept4|]. cbn. rewrite Hsched4, Hsame4. by split_and!.
Qed.
End worker_theorems.

(** ** Admission *)

Section admission_theorems.
Context {IoError RegexError : Type} `{FS : FileSystem IoError} `{Files : Serializer} `{Redactor : BoundedRedactor}.
Context (unix windows : bool) (vars : list (string * string)).
Context (which_all : string → option (list string)) (which_in : option string).
Context (probe : PathBuf → PathBuf → result string Z) (config : RunnerConfig).
Abbreviation validate_request := (validate_request (IoError:=IoError) (RegexError:=RegexError) unix config).
Abbreviation prepare_submission :=
  (prepare_submission (IoError:=IoError) (RegexError:=RegexError) unix windows vars which_all which_in probe config).

Lemma create_recorded s record deferred s' :
  create_invocation_with_deferred s record deferred = Ok s' →
  let id := request_id (request record) in
  entries (store_index s) !! id = None ∧
  index_view (store_index s') id = Some (forget_metrics (header_from_record record), deferred).
Proof.
  unfold create_invocation_with_deferred. intros (u & Hfresh & [= <-])%bind_Ok_inv. cbv zeta.
  split; [apply reject_if_Ok in Hfresh; by apply bool_decide_eq_false, eq_None_not_Some in Hfresh|].
  assert (∀ (b : bool) (s1 : StoreInner) leases, store_index (if b then s1 else
    MkStore (disk s1) (store_index s1) leases (published s1)) = store_index s1) as -> by (by intros []).
  unfold commit, publish_change. cbn [store_index]. rewrite index_view_insert, decide_True by done. reflexivity.
Qed.

(** The paths of an accepted submission. *)
Lemma resolve_submission_Ok cache uses_aspect q canonical output_base d cache' :
  resolve_submission (RegexError:=RegexError) unix windows vars which_all which_in probe config cache uses_aspect q
    = (Ok (canonical, output_base, d), cache') →
  validate_workspace (RegexError:=RegexError) (workspace q) (allowed_roots (policy config)) = Ok canonical ∧
  is_aspect d = uses_aspect.
Proof.
  unfold resolve_submission. destruct (_ ≫= _) as [[[w0 o0] b0]|] eqn:Hpaths; [|done].
  inv_ok. injection Hpaths as -> -> ->.
  destruct (validate_bazel_version _ _ _ _) as [[[]|] c]; [|done]. intros [= Hdriver <-]. inv_ok.
  destruct uses_aspect; inv_ok; simplify_eq; (split; [by apply policy_error_Ok|done]).
Qed.

Lemma prepare_submission_cases first second token now q disposition cache w r cache' w' :
  Mirrored (store w) →
  prepare_submission first second token now q disposition cache w = ((r, cache'), w') →
  match r with
  | Ok p =>
      kept w w' ∧ first = false ∧ second = false ∧ validate_request q = Ok (is_aspect (prepared_driver p)) ∧
      (∃ canonical, validate_workspace (RegexError:=RegexError) (workspace q) (allowed_roots (policy config)) = Ok canonical ∧
         prepared_request p = set_workspace canonical q) ∧
      entries (store_index (store w)) !! request_id q = None ∧
      index_view (store_index (store w')) (request_id q)
        = Some (forget_metrics (header_from_record (queued (redacted_request (prepared_request p)))),
                deferred_record (request_id q) now disposition) ∧
      0 < pending (scheduler w) ∧
      scheduler w' = register (request_id q) token Queued (set_pending (pending (scheduler w) - 1) (scheduler w))
  | Err _ => scheduler w' = scheduler w ∧ (clean w → store w' = store w)
  end.
Proof.
  intros Hs. unfold prepare_submission, Service.prepare_submission.
  destruct first; [by intros [= <- <- <-]|].
  destruct (validate_request q) as [uses_aspect|] eqn:Hvalid; [|by intros [= <- <- <-]].
  unfold try_acquire_pending. destruct (0 <? pending (scheduler w)) eqn:Hpending; [|by intros [= <- <- <-]].
  destruct (resolve_submission _ _ _ _ _ _ _ _ _ _) as [[[[canonical output_base] d]|] cache1] eqn:Hresolve;
    [|by intros [= <- <- <-]].
  apply resolve_submission_Ok in Hresolve as [Hworkspace Haspect].
  destruct second; [by intros [= <- <- <-]|].
  destruct (store_call _ w) as [r1 w1] eqn:Hcall.
  pose proof (store_call_scheduler _ _ _ _ Hcall) as Hscheduler.
  apply store_call_cases in Hcall as [Hclean Hcases].
  destruct Hcases as [(Hsame & e & -> & _) | (now' & x & Hop & Hwhy)]; [by intros [= <- <- <-]|].
  apply bind_Ok_inv in Hop as (s & Hcreate & [= Hstore _]).
  destruct Hwhy as [-> | [[e ->] Hdirty]]; [|by intros [= <- <- <-]]. intros [= <- <- <-]. cbn.
  pose proof (create_mirrored _ _ _ _ Hs Hcreate) as Hmirrored.
  apply create_recorded in Hcreate as [Hfresh Hview]. rewrite <- Hstore. unfold kept, clean in *. cbn.
  split_and!; try done; [by rewrite Haspect|by eexists|by apply Z.ltb_lt].
Qed.
End admission_theorems.

(** ** From submission to end *)

Section submission_theorems.
Context {IoError RegexError : Type} `{FS : FileSystem IoError} `{Files : Serializer} `{Redactor : BoundedRedactor}.
Context `{Terminal : TerminalText} `{Text : TextDiagnostics} (unix windows : bool) (vars : list (string * string)).
Context (which_all : string → option (list string)) (which_in : option string).
Context (probe : PathBuf → PathBuf → result string Z) (config : RunnerConfig) (id_string : InvocationId → string).
Context (display : RunnerError IoError RegexError → string).
Context (enrich_tests : list Artifact → InvocationSummary → InvocationSummary).
Context (load_coverage : list Artifact → option CoverageSummary) (reducers : ReducerPipeline).
Abbreviation prepare_submission :=
  (prepare_submission (IoError:=IoError) (RegexError:=RegexError) unix windows vars which_all which_in probe config).

(** A submission is accepted or leaves nothing behind.  Accepted, its request
    passed every check, its workspace is the canonical path that the policy
    accepts, the store holds it queued with its redacted request under an
    identity that was new, the scheduler knows its cancellation token, and it
    holds one pending permit.  Refused, the scheduler is as before, and so is the
    store unless a store call failed. *)
Theorem submission_spec first second token now q disposition cache w r cache' w'
    (Hmirrored : Mirrored (store w))
    (Hprepare : prepare_submission first second token now q disposition cache w = ((r, cache'), w')) :
  match r with
  | Ok p =>
      first = false ∧ second = false ∧
      validate_request (IoError:=IoError) (RegexError:=RegexError) unix config q = Ok (is_aspect (prepared_driver p)) ∧
      (∃ canonical, validate_workspace (RegexError:=RegexError) (workspace q) (allowed_roots (policy config)) = Ok canonical ∧
         prepared_request p = set_workspace canonical q) ∧
      entries (store_index (store w)) !! request_id q = None ∧
      index_view (store_index (store w')) (request_id q)
        = Some (forget_metrics (header_from_record (queued (redacted_request (prepared_request p)))),
                deferred_record (request_id q) now disposition) ∧
      0 < pending (scheduler w) ∧
      scheduler w' = register (request_id q) token Queued (set_pending (pending (scheduler w) - 1) (scheduler w))
  | Err _ => scheduler w' = scheduler w ∧ (clean w → store w' = store w)
  end.
Proof. apply prepare_submission_cases in Hprepare; [|done]. destruct r; [apply Hprepare|done]. Qed.

(** C1: An accepted submission comes to its end: however its worker fares with
    the locks and whatever happens to its process, the supervised worker leaves a
    terminal record with a summary in the store and takes the invocation out of
    the scheduler, as long as the store calls succeed and the execution semaphore
    is open. *)
Theorem submission_ends first second token now q disposition cache w p cache' w1 event started env
    (Hclean : clean w) (Hmirrored : Mirrored (store w))
    (Hprepare : prepare_submission first second token now q disposition cache w = ((Ok p, cache'), w1))
    (Hopen : event ≠ PermitClosed) :
  ∃ w2 st, supervised_worker unix windows id_string display enrich_tests load_coverage config reducers vars
             (prepared_request p) (prepared_driver p) (prepared_deferred p) event started env w1 = (tt, w2) ∧
    Mirrored (store w2) ∧ ended (store w2) (request_id q) st ∧ live (scheduler w2) !! request_id q = None.
Proof.
  apply prepare_submission_cases in Hprepare
    as ([Hs1 Hclean1] & _ & _ & Haccepted & (canonical & _ & Hrequest) & _ & Hview & _); [|done].
  rewrite Hrequest in *.
  destruct (supervised_clean unix windows id_string display enrich_tests load_coverage config reducers vars
    (set_workspace canonical q) (prepared_driver p) (prepared_deferred p) (is_aspect (prepared_driver p)) event started env
    Queued w1) as (w2 & st & Hworker & [Hs2 _] & Hended & Hgone); [done|by apply Hclean1|done| |done|].
  - left. split; [done|]. unfold state_of. cbn [request_id set_workspace]. by rewrite Hview.
  - by exists w2, st.
Qed.
End submission_theorems.

(** * Examples *)

Module ServiceExamples.
Import LiteralEngine ExecutionExamples.
#[local] Existing Instances PolicyExamples.example_fs example_files example_redactor plain_text no_text.

Definition example_config : RunnerConfig :=
  let c := RunnerExamples.example_config Tail in
  MkRunnerConfig (MkPolicyConfig ["/w"] {["build"]} ∅ ∅ [] None)
    (default_timeout c) (maximum_timeout c) (maximum_run_output_bytes c)
    (cancellation_interrupt_grace c) (cancellation_terminate_grace c) (global_concurrency c) (output_user_root c)
    (isolated_bazel_server_idle_timeout c) (supported_bazel_major_versions c) false (version_check_timeout c)
    (maximum_pending_invocations c) (output_base_lock_root c) Tail (aspect c) (starlark_reducers c).
Definition idle_world : World := MkWorld empty_store (new_scheduler 1 4) [].

Definition example_submit :=
  prepare_submission (IoError:=string) (RegexError:=string) true false [] (fun _ => Some ["/bin/bazel"]) None
    (fun _ _ => Ok 9) example_config false false 0 1000 example_request Attached ∅ idle_world.

Definition submitted_world : World := example_submit.2.
Definition prepared : PreparedSubmission :=
  MkPrepared example_request "/w" None (BazelDriver "/w/tools/bazel") false.

Lemma submitted : example_submit = ((Ok prepared, example_submit.1.2), submitted_world).
Proof.
  unfold submitted_world. assert (example_submit.1.1 = Ok prepared) as H by (vm_compute; reflexivity).
  destruct example_submit as [[r c] w]. cbn in *. by rewrite H.
Qed.

Lemma idle_mirrored : Mirrored (store idle_world).
Proof. apply reachable_mirrored, store_empty. Qed.

Lemma submitted_mirrored : Mirrored (store submitted_world).
Proof. exact (proj1 (proj1 (prepare_submission_cases _ _ _ _ _ _ _ _ _ _ _ _ _ _ _ _ _ _ idle_mirrored submitted))). Qed.

Lemma submission_spec_witness :
  pending (scheduler submitted_world) = 3 ∧
  scheduler submitted_world = register 7 0%nat Queued (set_pending (pending (scheduler idle_world) - 1) (scheduler idle_world)).
Proof.
  split; [vm_compute; reflexivity|].
  exact (proj2 (proj2 (proj2 (proj2 (proj2 (proj2 (proj2
    (submission_spec (IoError:=string) (RegexError:=string) true false [] (fun _ => Some ["/bin/bazel"]) None
       (fun _ _ => Ok 9) example_config false false 0 1000 example_request Attached ∅ idle_world (Ok prepared) _
       submitted_world idle_mirrored submitted)))))))).
Defined.

Lemma submission_ends_witness :
  ∃ w2 st, supervised_worker (IoError:=string) (RegexError:=string) true false RunnerExamples.example_id (fun _ => "error")
             (fun _ s => s) (fun _ => None) example_config [] [] example_request (BazelDriver "/w/tools/bazel") false
             (Acquired false) 1005 clean_env submitted_world = (tt, w2) ∧
    Mirrored (store w2) ∧ ended (store w2) 7 st ∧ live (scheduler w2) !! 7 = None.
Proof.
  apply (submission_ends (IoError:=string) (RegexError:=string) true false [] (fun _ => Some ["/bin/bazel"]) None
    (fun _ _ => Ok 9) example_config RunnerExamples.example_id (fun _ => "error") (fun _ s => s) (fun _ => None) []
    false false 0 1000 example_request Attached ∅ idle_world prepared (example_submit.1.2) submitted_world).
  - constructor.
  - exact idle_mirrored.
  - exact submitted.
  - discriminate.
Defined.

Lemma worker_failure_leaves_queued_witness :
  state_of (store (materialize_worker_failure (IoError:=string) (RegexError:=string) (fun _ => "closed") 7 false
    SchedulerClosed submitted_world).2) 7 = Some Queued.
Proof.
  apply (worker_failure_leaves_queued (IoError:=string) (RegexError:=string) (fun _ => "closed") 7 false SchedulerClosed
    submitted_world).
  - exact submitted_mirrored.
  - vm_compute. reflexivity.
Defined.

Lemma cancel_spec_witness :
  ∃ c w', cancel_with_reason (IoError:=string) (RegexError:=string) 7 (Some "superseded") submitted_world = (Ok c, w') ∧
    prior_state c = Queued ∧ current_state c = Cancelled ∧ ended (store w') 7 Cancelled ∧ 0%nat ∈ cancelled (scheduler w').
Proof.
  destruct (cancel_spec (IoError:=string) (RegexError:=string) 7 (Some "superseded") Queued submitted_world)
    as (c & w' & Hcancel & _ & Hprior & Htoken & Hend).
  - vm_compute. constructor.
  - exact submitted_mirrored.
  - vm_compute. reflexivity.
  - rewrite decide_True in Hend by reflexivity. destruct Hend as (Hcurrent & _ & Hended).
    exists c, w'. split_and!; [exact Hcancel|exact Hprior|exact Hcurrent|exact Hended|].
    apply Htoken. vm_compute. reflexivity.
Defined.

Example versions :
  major <$> parse_bazel_version "bazel 8.4.2" = Some 8 ∧
  major <$> parse_bazel_version "Build label: 7.6.1" = Some 7 ∧
  parse_bazel_version "development version" = None.
Proof. vm_compute. done. Qed.
End ServiceExamples.
