(* ===== verification/Server.v ===== *)
(** * The MCP server (crates/bazel-mcp-server/src/handler.rs)

    The three tools and the task methods, on top of the invocation service
    ([Service.v]), inspection ([Inspection.v]), the encoded results
    ([Response.v]) and the task snapshots ([Tasks.v]).  Which requests become
    tasks depends on the negotiated protocol and on the configured policy.

    A handler is a computation of the service monad; its value is [None] where
    the server never answers (a result that cannot be fitted, or a wait that does
    not end within the steps the environment takes). *)

From S2P Require Import Prelude Collections Types Policy Record Cursor Index Store Listing Scheduler QueryPaging Redaction Diagnostics Extension Reduction Text Runner Sanitize Outcome Evidence Inspection Response Tasks Execution Service.
#[global] Open Scope Z_scope.

(** ** Errors and parameters *)

Inductive ErrorData : Type :=
| MethodNotFound (message : string)
| InvalidParams (message : string)
| InternalErrorData (message : string)
| MissingCapability.

Record RunParams : Type := MkRunParams {
  param_workspace : string;
  param_startup_args : list string;
  param_command : string;
  param_args : list string;
  param_target : option string;
  param_program_args : list string;
  param_timeout_seconds : option Z;
}.

(** [RunParams::into_request], with the identity and the time the new request
    gets. *)
Definition into_request (id : InvocationId) (now : Z) (p : RunParams) : InvocationRequest :=
  MkRequest id (param_workspace p) (param_startup_args p) (command_from_str (param_command p)) (param_args p)
    (param_target p) (param_program_args p) ((fun seconds => Z.min (seconds * 1000) u64_max) <$> param_timeout_seconds p)
    ∅ now.

Record InspectParams : Type := MkInspectParams {
  param_invocation_id : option string;
  param_inspect_workspace : option string;
  param_state : option string;
  param_inspect_command : option string;
  param_view : string;
  param_filter : option string;
  param_limit : option Z;
  param_max_bytes : option Z;
  param_cursor : option string;
}.

Record CancelParams : Type := MkCancelParams { param_cancel_id : string; param_reason : option string }.

Definition parse_inspect_state (value : string) : result string InvocationState :=
  match find_map (fun st => if bool_decide (value = state_as_str st) then Some st else None)
          [Queued; Starting; Running; Succeeded; Failed; Cancelled; TimedOut; Interrupted] with
  | Some st => Ok st
  | None => Err ("unsupported invocation state: " +:+ value)
  end.

(** [clamp] with ordered bounds. *)
Definition clamp_to (x lo hi : Z) : Z := Z.max lo (Z.min x hi).
Definition inspect_visible_budget (requested : option Z) : Z := clamp_to (default (8 * 1024) requested) 512 (8 * 1024).

(** ** Handlers *)

Abbreviation Handler E A := (M (option (result E A))).
Definition answer {E A} (a : A) : Handler E A := mret (Some (Ok a)).
Definition refuse {E A} (e : E) : Handler E A := mret (Some (Err e)).
Definition and_then {E A B} (m : Handler E A) (k : A → Handler E B) : Handler E B :=
  r ← m; match r with Some (Ok a) => k a | Some (Err e) => refuse e | None => mret None end.
(** [map_err] of a service call. *)
Definition calling {E E' A} (convert : E → E') (m : M (result E A)) : Handler E' A :=
  r ← m; match r with Ok a => answer a | Err e => refuse (convert e) end.
(** A pure result. *)
Definition checked {E A} (r : result E A) : Handler E A := mret (Some r).

Declare Scope handler_scope.
Delimit Scope handler_scope with handler.
Notation "'let*' x ':=' m 'in' k" := (and_then m (fun x => k)) (at level 10, x name, m at level 100, k at level 200) : handler_scope.
#[local] Open Scope handler_scope.

(** *** Deferred results of the service *)

Section service_calls.
Context `{Files : Serializer}.

Definition deferred_result (id : InvocationId) (wanted : DeferredRetrieval) : M (result StoreError DeferredResultView) :=
  r ← store_call (fun now s => let '(r, s) := get_deferred_result s id wanted now in Ok (s, r));
  mret (match r with Ok r => r | Err e => Err e end).

Definition unit_call (op : Z → StoreInner → result StoreError StoreInner) : M (result StoreError unit) :=
  store_call (fun now s => s ← op now s; Ok (s, tt)).
Definition service_record_deferred_cancellation (id : InvocationId) : M (result StoreError unit) :=
  unit_call (fun now s => record_deferred_cancellation s id now).
Definition set_deferred_cancelled (id : InvocationId) : M (result StoreError unit) :=
  unit_call (fun now s => set_deferred_terminal_override s id DeferredCancelled now).
Definition service_extend_deferred_expiry (id : InvocationId) (minimum : Z) : M (result StoreError unit) :=
  unit_call (fun now s => extend_deferred_expiry s id minimum now).
Definition record_model_visible_result (id : InvocationId) (bytes : Z) (inspection : bool) : M (result StoreError unit) :=
  unit_call (fun _ s => with_telemetry (record_model_visible bytes inspection) id s).
Definition record_progress_notifications (id : InvocationId) (count : Z) : M (result StoreError unit) :=
  unit_call (fun _ s => with_telemetry (record_progress count) id s).

(** What happens while a wait sleeps: the steps of the other tasks, or the
    cancellation of the wait. *)
Inductive WaitEvent : Type := Elapsed (others : World → World) | WaitDropped.

(** [wait]; [None] while the invocation has not ended after all these events. *)
Fixpoint wait {IoError RegexError} (events : list WaitEvent) (id : InvocationId)
    : M (option (result (RunnerError IoError RegexError) InvocationRecord)) := fun w =>
  let sleep w :=
    match events with
    | [] => (None, w)
    | WaitDropped :: _ => (Some (Err (WaitCancelled id)), w)
    | Elapsed others :: rest => wait rest id (others w)
    end in
  let finished w :=
    let '(r, w) := store_read (fun s => get_invocation s id) w in
    (Some (match r with Ok record => Ok record | Err e => Err (RStore e) end), w) in
  match lifecycle_state id (scheduler w) with
  | Some st => if is_terminal st then finished w else sleep w
  | None =>
      match store_read (fun s => get_invocation_header s id) w with
      | (Err e, w) => (Some (Err (RStore e)), w)
      | (Ok header, w) => if is_terminal (header_state header) then finished w else sleep w
      end
  end.
End service_calls.

(** ** The server *)

Record ServerSettings : Type := MkServer {
  result_encoding : ResultEncoding;
  execution_policy : McpExecutionPolicy;
  task_ttl_ms_config : Z;
  task_poll_config : Z;
}.

Inductive ServerResult (R Args : Type) : Type :=
| RInitialize (version : string) (caps : ServerCapabilities)
| REmpty
| RTools (tools : list Tool)
| RCallTool (r : R)
| RCreateTask (task : Task) (immediate related : string)
| RGetTask (task : Task)
| RListTasks (tasks : list Task) (next : option string)
| RTaskPayload (related : string) (r : R)
| RCancelTask (task : Task)
| RExtensionTask (task : ExtensionTask R)
| RAcknowledge
| RDiscover.
Arguments RInitialize {R Args} _ _.
Arguments REmpty {R Args}.
Arguments RTools {R Args} _.
Arguments RCallTool {R Args} _.
Arguments RCreateTask {R Args} _ _ _.
Arguments RGetTask {R Args} _.
Arguments RListTasks {R Args} _ _.
Arguments RTaskPayload {R Args} _ _.
Arguments RCancelTask {R Args} _.
Arguments RExtensionTask {R Args} _.
Arguments RAcknowledge {R Args}.
Arguments RDiscover {R Args}.

(** A tool call; [call_arguments] is its JSON object, [task_requested] whether it
    asks for a task, and [capable] whether the client announces the extension. *)
Record CallToolParams (Args : Type) : Type := MkCall {
  call_name : string; call_arguments : option Args; task_requested : bool; capable : bool;
}.
Arguments MkCall {_} _ _ _ _.
Arguments call_name {_} _.
Arguments call_arguments {_} _.
Arguments task_requested {_} _.
Arguments capable {_} _.

Section server.
Context {IoError RegexError : Type} `{FS : FileSystem IoError} `{Files : Serializer} `{Redactor : BoundedRedactor}.
Context `{Terminal : TerminalText} `{Text : TextDiagnostics} `{Cursors : CursorCodec} `{Ids : !IdText}.
Context `{Codec : !LogCursorCodec} `{Json : !EvidenceJson} `{W : Wire}.
Context (unix windows : bool) (vars : list (string * string)).
Context (which_all : string → option (list string)) (which_in : option string).
Context (probe : PathBuf → PathBuf → result string Z) (config : RunnerConfig).
Context (display : RunnerError IoError RegexError → string).
Context (enrich_tests : list Artifact → InvocationSummary → InvocationSummary).
Context (load_coverage : list Artifact → option CoverageSummary) (reducers : ReducerPipeline).
(** UUIDs, times and the JSON of the parameters and of a cancellation. *)
Context (parse_uuid : string → option InvocationId) (rfc3339 : Z → option string).
Context {Args : Type} (decode_run : option Args → result string RunParams).
Context (decode_inspect : option Args → result string InspectParams) (decode_cancel : option Args → result string CancelParams).
Context (cancel_to_value : CancelResult → result string wire).
Context (server : ServerSettings).
(** The rounds the encoder is watched for. *)
Context (rounds : nat).
Abbreviation RunnerError := (RunnerError IoError RegexError).
Abbreviation Resp := (ServerResult CallToolResult Args).

Definition parse_id (value : string) : result string InvocationId :=
  match parse_uuid value with Some id => Ok id | None => Err "invocation_id must be a UUID" end.
Definition parse_task_id (value : string) : result ErrorData InvocationId :=
  match parse_id value with Ok id => Ok id | Err _ => Err (InvalidParams "taskId must be a UUID") end.

Definition tool_error_result (message : string) : CallToolResult := MkCallResult [message] None (Some true).
Definition task_not_found {E} (value : string) (_ : E) : ErrorData := InvalidParams ("unknown or expired task ID: " +:+ value).
Definition internal (error : RunnerError) : ErrorData := InternalErrorData (display error).
Definition internal_store (error : StoreError) : ErrorData := internal (RStore error).

(** [build_run_result]: a failure to record the metrics is only logged. *)
Definition build_run_result (record : InvocationRecord) (tool_error : bool) : Handler string CallToolResult :=
  match build (result_encoding server) rounds id_to_string (MkExecutionResult record tool_error true) with
  | None => mret None
  | Some (Err error) => refuse error
  | Some (Ok encoded) =>
      _ ← record_model_visible_result (request_id (request record)) (visible_bytes encoded) false;
      answer (encoded_result encoded)
  end.

(** *** The tools *)

(** [run_with_cancellation], with the events of the worker. *)
Definition run_with_cancellation (first second : bool) (token : nat) (now : Z) (q : InvocationRequest)
    (cache : gmap VersionCacheKey Z) (event : AcquireEvent) (started : Z) (env : Env IoError RegexError)
    : M (option (result RunnerError InvocationRecord)) :=
  prepared ← prepare_submission (IoError:=IoError) (RegexError:=RegexError) unix windows vars which_all which_in probe config
               first second token now q Attached cache;
  match prepared.1 with
  | Err error => mret (Some (Err error))
  | Ok p =>
      r ← run_prepared unix windows id_to_string display enrich_tests load_coverage config reducers vars
            (prepared_request p) (prepared_driver p) event started env;
      _ ← unregister (request_id q);
      mret r
  end.

(** What the environment does during a synchronous run: its identity, the
    readings of the cancellation token, the events of the worker, and how many
    progress notifications were sent. *)
Record RunEvents : Type := MkRunEvents {
  run_id : InvocationId;
  run_now : Z;
  run_first : bool;
  run_second : bool;
  run_token : nat;
  run_cache : gmap VersionCacheKey Z;
  run_event : AcquireEvent;
  run_started : Z;
  run_env : Env IoError RegexError;
  run_notifications : Z;
}.

Definition bazel_run (e : RunEvents) (p : RunParams) : Handler string CallToolResult :=
  let q := into_request (run_id e) (run_now e) p in
  r ← run_with_cancellation (run_first e) (run_second e) (run_token e) (run_now e) q (run_cache e) (run_event e)
        (run_started e) (run_env e);
  match r with
  | None => refuse (display (RJoin "panic"))
  | Some (Err error) => refuse (display error)
  | Some (Ok record) =>
      _ ← (if 0 <? run_notifications e
           then r ← record_progress_notifications (request_id q) (run_notifications e); mret tt else mret tt);
      build_run_result record false
  end.

(** The checks of [bazel_inspect], and the request they make. *)
Definition inspect_request (p : InspectParams) : result string InspectRequest :=
  match view_parse (param_view p) with
  | None => Err ("unsupported inspection view: " +:+ param_view p)
  | Some view =>
      let listing := bool_decide (view = ViewInvocations) in
      id ← (if listing then
              reject_if (bool_decide (is_Some (param_invocation_id p))) "invocation_id is not supported for the invocations view" ≫= fun _ => Ok None
            else match param_invocation_id p with
                 | None => Err "invocation_id is required for this view"
                 | Some value => id ← parse_id value; Ok (Some id)
                 end);
      _ ← reject_if (bool_decide (is_Some (param_inspect_workspace p)) && negb listing) "workspace is supported only for the invocations view";
      state ← match param_state p with None => Ok None | Some value => st ← parse_inspect_state value; Ok (Some st) end;
      _ ← reject_if (bool_decide (is_Some state) && negb listing) "state is supported only for the invocations view";
      _ ← reject_if (bool_decide (is_Some (param_inspect_command p)) && negb listing) "command is supported only for the invocations view";
      let item_limit := clamp_to (default 20 (param_limit p)) 1 100 in
      Ok (MkInspect id (param_inspect_workspace p) state (command_from_str <$> param_inspect_command p) view (param_cursor p)
            (param_filter p) item_limit (clamp_to (item_limit * 20) 1000 10000))
  end.

Definition bazel_inspect (not_found : IoError) (files : InvocationId → InvocationFiles IoError) (p : InspectParams)
    : Handler string CallToolResult :=
  match inspect_request p with
  | Err message => refuse message
  | Ok request => fun w =>
      match inspect not_found (store w) files request with
      | None => (None, w)
      | Some (Err error) => (Some (Err (display error)), w)
      | Some (Ok r) =>
          match encode_inspect (result_encoding server) rounds r (inspect_visible_budget (param_max_bytes p)) with
          | None => (None, w)
          | Some (Err error) => (Some (Err error), w)
          | Some (Ok encoded) =>
              (_ ← (match inspect_id request with
                    | Some id => record_model_visible_result id (visible_bytes encoded) true
                    | None => mret (Ok tt)
                    end);
               answer (encoded_result encoded)) w
          end
      end
  end.

Definition bazel_cancel (p : CancelParams) : Handler string CallToolResult :=
  let* id := checked (parse_id (param_cancel_id p)) in
  let* r := calling display (cancel_with_reason (IoError:=IoError) (RegexError:=RegexError) id (param_reason p)) in
  checked (value ← cancel_to_value r; encoded ← encode_value (result_encoding server) value; Ok (encoded_result encoded)).

(** The router of the tools: an error message becomes a result that is marked as
    an error, arguments that do not parse and unknown tools are errors. *)
Definition tool_answer (m : Handler string CallToolResult) : Handler ErrorData CallToolResult :=
  r ← m; mret (match r with
               | Some (Ok r) => Some (Ok r)
               | Some (Err message) => Some (Ok (tool_error_result message))
               | None => None
               end).
Definition call_tool (e : RunEvents) (not_found : IoError) (files : InvocationId → InvocationFiles IoError)
    (params : CallToolParams Args) : Handler ErrorData CallToolResult :=
  let decoded {A} (r : result string A) : Handler ErrorData A := checked (match r with Ok a => Ok a | Err m => Err (InvalidParams m) end) in
  if bool_decide (call_name params = "bazel.run") then
    let* p := decoded (decode_run (call_arguments params)) in tool_answer (bazel_run e p)
  else if bool_decide (call_name params = "bazel.inspect") then
    let* p := decoded (decode_inspect (call_arguments params)) in tool_answer (bazel_inspect not_found files p)
  else if bool_decide (call_name params = "bazel.cancel") then
    let* p := decoded (decode_cancel (call_arguments params)) in tool_answer (bazel_cancel p)
  else refuse (InvalidParams "tool not found").

(** *** Deferred submission *)

Definition ttl_ms : Z := if task_ttl_ms_config server <=? i64_max then task_ttl_ms_config server else i64_max.

(** [submit]; the worker it spawns is a step of the environment. *)
Definition submit (token : nat) (now : Z) (q : InvocationRequest) (disposition : ResultDisposition)
    (cache : gmap VersionCacheKey Z) : M (result RunnerError InvocationId) :=
  prepared ← prepare_submission (IoError:=IoError) (RegexError:=RegexError) unix windows vars which_all which_in probe config
               false false token now q disposition cache;
  mret (match prepared.1 with Ok p => Ok (request_id (prepared_request p)) | Err error => Err error end).

(** [submit_deferred]: its error is a tool result. *)
Definition submit_deferred (e : RunEvents) (arguments : option Args) (wanted : DeferredRetrieval)
    : Handler CallToolResult DeferredResultView :=
  let failed error := tool_error_result (display error) in
  let failed_store error := failed (RStore error) in
  let* p := checked (match decode_run arguments with
                     | Ok p => Ok p
                     | Err message => Err (tool_error_result ("invalid bazel.run arguments: " +:+ message))
                     end) in
  let q := into_request (run_id e) (run_now e) p in
  let* id := calling failed (submit (run_token e) (run_now e) q (Deferred wanted (i64_add (run_now e) ttl_ms)) (run_cache e)) in
  let* view := calling failed_store (deferred_result id wanted) in
  let minimum_expiry := i64_add (created_at_ms (deferred view)) ttl_ms in
  if expires_at_ms (deferred view) <? minimum_expiry then
    let* _ := calling failed_store (service_extend_deferred_expiry id minimum_expiry) in
    calling failed_store (deferred_result id wanted)
  else answer view.

(** *** Task results *)

Definition legacy_task (now : Z) (view : DeferredResultView) : Task :=
  legacy_wire_task rfc3339 id_to_string (from_view now view (task_poll_config server)).
Definition extension_task_value (now : Z) (view : DeferredResultView) : ExtensionTask CallToolResult :=
  creation rfc3339 id_to_string (from_view now view (task_poll_config server)).

Definition extension_get_value (now : Z) (view : DeferredResultView) : Handler ErrorData (ExtensionTask CallToolResult) :=
  let snapshot := from_view now view (task_poll_config server) in
  let* shown :=
    (match task_result snapshot with
     | ResultInvocation tool_error =>
         if task_is_terminal (task_state snapshot) then
           r ← build_run_result (invocation view) tool_error;
           mret (match r with
                 | Some (Ok result) => Some (Ok (Some result, None))
                 | Some (Err error) => Some (Err (InternalErrorData error))
                 | None => None
                 end)
         else answer (None, None)
     | ResultInternalFailure message => answer (None, Some message)
     | ResultPending | ResultCancelled => answer (None, None)
     end) in
  answer (complete rfc3339 id_to_string snapshot shown.1 shown.2).

(** *** Calling a tool *)

Definition call_tool_request (fam : ProtocolFamily) (now : Z) (e : RunEvents) (not_found : IoError)
    (files : InvocationId → InvocationFiles IoError) (params : CallToolParams Args) : Handler ErrorData Resp :=
  let is_run := bool_decide (call_name params = "bazel.run") in
  let policy := execution_policy server in
  let call := let* r := call_tool e not_found files params in answer (RCallTool r) in
  (** An error of the submission is an answer. *)
  let deferring wanted (k : DeferredResultView → Resp) : Handler ErrorData Resp :=
    r ← submit_deferred e (call_arguments params) wanted;
    mret (match r with
          | Some (Ok view) => Some (Ok (k view))
          | Some (Err result) => Some (Ok (RCallTool result))
          | None => None
          end) in
  match fam with
  | LegacyTasks =>
      if negb (bool_decide (policy = SyncOnly)) && task_requested params then
        if negb is_run then refuse (MethodNotFound "task execution is not supported for this tool")
        else deferring SeparateResult (fun view =>
          RCreateTask (legacy_task now view)
            ("Bazel invocation " +:+ id_to_string (invocation_id (deferred view)) +:+ " is running.")
            (id_to_string (invocation_id (deferred view))))
      else if is_run && bool_decide (policy = TasksRequired) && negb (task_requested params)
      then refuse (MethodNotFound "bazel.run requires task-based invocation")
      else call
  | TasksExtension =>
      if is_run && negb (bool_decide (policy = SyncOnly)) then
        if negb (capable params) then
          if bool_decide (policy = TasksRequired) then refuse MissingCapability else call
        else deferring InlineResult (fun view => RExtensionTask (extension_task_value now view))
      else call
  | Earlier =>
      if is_run && bool_decide (policy = TasksRequired)
      then refuse (MethodNotFound "task execution is unavailable for the negotiated protocol")
      else call
  end.

(** *** Task methods *)

Definition find_task (value : string) (wanted : DeferredRetrieval) : Handler ErrorData (InvocationId * DeferredResultView) :=
  let* id := checked (parse_task_id value) in
  let* view := calling (task_not_found value) (deferred_result id wanted) in
  answer (id, view).

Definition legacy_get_task (now : Z) (value : string) : Handler ErrorData Task :=
  let* found := find_task value SeparateResult in
  answer (legacy_task now found.2).

Definition waiting (events : list WaitEvent) (id : InvocationId) : Handler ErrorData InvocationRecord :=
  r ← wait (IoError:=IoError) (RegexError:=RegexError) events id;
  mret (match r with
        | Some (Ok record) => Some (Ok record)
        | Some (Err error) => Some (Err (internal error))
        | None => None
        end).

Definition legacy_task_result (events : list WaitEvent) (value : string) : Handler ErrorData Resp :=
  let* found := find_task value SeparateResult in
  let* record := waiting events found.1 in
  let* view := calling (task_not_found value) (deferred_result found.1 SeparateResult) in
  r ← build_run_result record (has_failure (deferred view));
  mret (match r with
        | Some (Ok result) => Some (Ok (RTaskPayload value result))
        | Some (Err error) => Some (Err (InternalErrorData error))
        | None => None
        end).

Definition legacy_cancel_task (now : Z) (events : list WaitEvent) (value : string) : Handler ErrorData Task :=
  let* found := find_task value SeparateResult in
  let id := found.1 in
  let view := found.2 in
  if is_terminal (state (invocation view)) || bool_decide (terminal_override (deferred view) = Some DeferredCancelled)
  then refuse (InvalidParams "task is already terminal")
  else
    let* _ := calling internal_store (service_record_deferred_cancellation id) in
    let* _ := calling internal (cancel_with_reason (IoError:=IoError) (RegexError:=RegexError) id None) in
    let* _ := waiting events id in
    let* _ := calling internal_store (set_deferred_cancelled id) in
    let* view := calling (task_not_found value) (deferred_result id SeparateResult) in
    answer (legacy_task now view).

Definition extension_get_task (now : Z) (value : string) : Handler ErrorData (ExtensionTask CallToolResult) :=
  let* found := find_task value InlineResult in
  extension_get_value now found.2.

Definition extension_cancel_task (value : string) : Handler ErrorData Resp :=
  let* found := find_task value InlineResult in
  let* _ := calling internal_store (service_record_deferred_cancellation found.1) in
  let* _ := calling internal (cancel_with_reason (IoError:=IoError) (RegexError:=RegexError) found.1 None) in
  answer RAcknowledge.

(** *** Requests *)

Inductive ClientRequest : Type :=
| InitializeRequest (version : string)
| PingRequest
| ListToolsRequest
| CallToolRequest (params : CallToolParams Args)
| GetTaskRequest (task : string) (client_capable : bool)
| ListTasksRequest (cursor : option string)
| GetTaskPayloadRequest (task : string)
| CancelTaskRequest (task : string) (client_capable : bool)
| CustomRequest (method : string) (task : option string) (client_capable : bool)
| OtherRequest (method : string).

Context (known_versions : list string) (latest : string) (server_default : TasksCapability).

Definition negotiated_version (requested : string) : string :=
  if bool_decide (requested ∈ known_versions) || bool_decide (requested = EXTENSION_VERSION) then requested else latest.

Definition tools : list Tool := [MkTool "bazel.cancel" None; MkTool "bazel.inspect" None; MkTool "bazel.run" None].
Definition tools_for (fam : ProtocolFamily) : list Tool :=
  adapt_tools
    (match fam with
     | Earlier => negotiate None | LegacyTasks => negotiate (Some LEGACY_VERSION) | TasksExtension => TasksExtensionAdapter
     end)
    (execution_policy server) tools.

Definition custom_request (fam : ProtocolFamily) (method : string) (task : option string) (client_capable : bool)
    : Handler ErrorData Resp :=
  if bool_decide (method = "server/discover") then answer RDiscover
  else if bool_decide (method = "tasks/update") && bool_decide (fam = TasksExtension) then
    if negb client_capable then refuse MissingCapability
    else
      let* value := checked (match task with Some value => Ok value | None => Err (InvalidParams "taskId is required") end) in
      let* _ := find_task value InlineResult in
      answer RAcknowledge
  else refuse (MethodNotFound method).

Definition list_tasks (now : Z) (cursor : option string) : Handler ErrorData Resp := fun w =>
  match list_deferred_results (store_index (store w)) SeparateResult now (new_page_request cursor 100) with
  | None => (None, w)
  | Some (Err error) => (Some (Err (InvalidParams (display (RStore error)))), w)
  | Some (Ok page) => (Some (Ok (RListTasks (legacy_task now <$> items page) (next_cursor page))), w)
  end.

(** [handle_request], on a connection with the protocol version [version]. *)
Definition handle_request (version : option string) (now : Z) (e : RunEvents) (events : list WaitEvent) (not_found : IoError)
    (files : InvocationId → InvocationFiles IoError) (request : ClientRequest) : Handler ErrorData Resp :=
  let fam := family (negotiate version) in
  match request with
  | InitializeRequest requested =>
      let negotiated := negotiated_version requested in
      answer (RInitialize negotiated (capabilities server_default (negotiate (Some negotiated)) (execution_policy server)))
  | PingRequest => answer REmpty
  | ListToolsRequest => answer (RTools (tools_for fam))
  | CallToolRequest params => call_tool_request fam now e not_found files params
  | GetTaskRequest task client_capable =>
      match fam with
      | LegacyTasks => let* t := legacy_get_task now task in answer (RGetTask t)
      | TasksExtension =>
          if negb client_capable then refuse MissingCapability
          else let* t := extension_get_task now task in answer (RExtensionTask t)
      | Earlier => refuse (MethodNotFound "tasks/get")
      end
  | ListTasksRequest cursor =>
      if negb (bool_decide (fam = LegacyTasks)) then refuse (MethodNotFound "tasks/list") else list_tasks now cursor
  | GetTaskPayloadRequest task =>
      if negb (bool_decide (fam = LegacyTasks)) then refuse (MethodNotFound "tasks/result") else legacy_task_result events task
  | CancelTaskRequest task client_capable =>
      match fam with
      | LegacyTasks => let* t := legacy_cancel_task now events task in answer (RCancelTask t)
      | TasksExtension => if negb client_capable then refuse MissingCapability else extension_cancel_task task
      | Earlier => refuse (MethodNotFound "tasks/cancel")
      end
  | CustomRequest method task client_capable => custom_request fam method task client_capable
  | OtherRequest method => refuse (MethodNotFound method)
  end.
End server.

(** * Theorems *)

(** ** Inspections are answered *)

Definition reads_size (reads : list (result StoreError (list Z))) : nat := length reads + length (concat (omap ok_option reads)).

Lemma next_line_loop_size limit reads offset value saw value' offset' rest saw' :
  next_line_loop limit reads offset value saw = Ok (value', offset', rest, saw') →
  (reads_size rest ≤ reads_size reads)%nat ∧ (saw' ≠ saw → (reads_size rest < reads_size reads)%nat).
Proof.
  unfold reads_size. revert offset value saw. induction reads as [|[available|error] reads IH]; intros offset value saw; cbn [next_line_loop]; [|destruct available as [|byte available]|done].
  - intros [= <- <- <- <-]. split; [lia|done].
  - intros [= <- <- <- <-]. split; [lia|done].
  - destruct (newline_position (byte :: available)) as [position|].
    + intros [= _ _ <- _]. assert (length (drop position available) ≤ length available)%nat as Hleft by (rewrite length_drop; lia).
      destruct (decide (drop position available = [])); cbn [length omap list_omap ok_option concat]; rewrite !length_app; cbn [length]; lia.
    + intros Hloop. apply IH in Hloop as [Hle _]. cbn [length omap list_omap ok_option concat]. rewrite length_app. cbn [length]. lia.
Qed.

Section totality.
Context `{Cursors : CursorCodec}.

Lemma page_loop_total id filter request transform fuel lines s :
  (reads_size (reader lines) < fuel)%nat → is_Some (page_loop id filter request transform fuel lines s).
Proof.
  revert lines s. induction fuel as [|fuel IH]; intros lines s Hfuel; [lia|]. cbn [page_loop].
  unfold next_line. destruct (next_line_loop _ _ _ _ _) as [[[[value offset'] rest] saw]|error] eqn:Hloop; cbn [mbind result_bind]; [|by eexists].
  apply next_line_loop_size in Hloop as [_ Hsmall]. destruct saw; cbn [negb]; [|by eexists].
  destruct (page_line _ _ _ _ _ s) as [[s'|s']|error]; [by eexists| |by eexists].
  apply IH. cbn [reader]. specialize (Hsmall ltac:(done)). lia.
Qed.

Lemma page_query_rows_total file id st count filter page transform limits :
  page_limits page = Some limits → is_Some (page_query_rows_mapped_into file id st count filter page transform).
Proof.
  intros Hlimits. unfold page_query_rows_mapped_into. destruct (match cursor page with None => _ | Some _ => _ end) as [c|error]; [|by eexists].
  destruct limits. rewrite Hlimits. cbn [mbind option_bind]. unfold page_query_file. destruct file as [read|]; [|by eexists].
  unfold page_query_file_from_cursor. match goal with |- context [page_loop ?i ?f ?r ?t ?n ?l ?s] =>
    destruct (page_loop_total i f r t n l s) as [outcome ->] end; [cbn; unfold reads_fuel, reads_size; lia|by eexists].
Qed.

Lemma page_records_total {T} scope id filter (searchable : T → string) page records limits :
  page_limits page = Some limits → is_Some (page_records scope id filter searchable page records).
Proof. intros Hlimits. unfold page_records. destruct limits. rewrite Hlimits. by eexists. Qed.
End totality.

Lemma attempt_total {E A B} (m : option (result E A)) (k : A → option (result E B)) :
  is_Some m → (∀ a, m = Some (Ok a) → is_Some (k a)) → is_Some (attempt m k).
Proof. intros [[a|e] ->] Hk; cbn; [by apply Hk|by eexists]. Qed.

Lemma from_store_total {IoError RegexError A} (m : option (result StoreError A)) :
  is_Some m → is_Some (from_store (IoError:=IoError) (RegexError:=RegexError) m).
Proof. intros [[a|e] ->]; by eexists. Qed.

Section answered.
Context {IoError RegexError : Type} `{Files : Serializer} `{Redactor : BoundedRedactor} `{Terminal : TerminalText}.
Context `{Cursors : CursorCodec} `{Laws : !CursorCodecLaws} `{Ids : !IdText} `{Codec : !LogCursorCodec} `{Json : !EvidenceJson}.
Context (not_found : IoError) (s : StoreInner) (files : InvocationId → InvocationFiles IoError).
(** The stored tests can be counted. *)
Context (Htests : ∀ id details, read_details s id = Ok details → Z.of_nat (length (details_tests details)) ≤ i64_max).

Lemma evidence_page_total request start id records cursor :
  inspect_item_limit request ≤ 10000 →
  page_limits (MkPageRequest cursor (inspect_item_limit request) (inspect_scan_limit request)) ≠ None ∧
  is_Some (page_evidence_records records start request id).
Proof.
  intros Hlimit. destruct (limits_exist (inspect_item_limit request) (inspect_scan_limit request) Hlimit cursor) as (n & m & Hlimits).
  split; [congruence|]. unfold page_evidence_records.
  destruct (limits_exist (inspect_item_limit request) (inspect_scan_limit request) Hlimit None) as (n' & m' & ->). by eexists.
Qed.

Lemma read_evidence_total file fs request :
  inspect_item_limit request ≤ 10000 →
  is_Some (read_evidence_page (RegexError:=RegexError) not_found file fs request).
Proof.
  intros Hlimit. unfold read_evidence_page. apply attempt_total; [by eexists|intros id _].
  apply attempt_total; [by eexists|intros start _].
  assert (∀ records, is_Some (from_panic (IoError:=IoError) (RegexError:=RegexError) (page_evidence_records records start request id))) as Hpage.
  { intros records. destruct (evidence_page_total request start id records None Hlimit) as [_ [page ->]]. by eexists. }
  destruct file as [[content|]|]; [| |by eexists].
  - apply attempt_total; [by eexists|intros records _; apply Hpage].
  - case_bool_decide; [|by eexists]. apply attempt_total; [by eexists|intros stdout _].
    apply attempt_total; [by eexists|intros stderr _; apply Hpage].
Qed.

Lemma unavailable_total request id :
  inspect_item_limit request ≤ 10000 →
  is_Some (read_test_log_unavailable_page (IoError:=IoError) (RegexError:=RegexError) s id request).
Proof.
  intros Hlimit. unfold read_test_log_unavailable_page. apply attempt_total; [by eexists|intros start _].
  destruct (limits_exist (inspect_item_limit request) (inspect_scan_limit request) Hlimit None) as (n & m & ->). cbn [mbind option_bind].
  unfold stored_tests. destruct (read_details s id) as [details|error] eqn:Hdetails.
  - pose proof (unavailable_loop_spec (IoError:=IoError) (RegexError:=RegexError) s id details Hdetails (Htests _ _ Hdetails)
      (S (length (details_tests details))) request n m start 0 None (MkEvidenceState [] [] start 0 false)) as Hloop.
    rewrite take_0 in Hloop. change (Z.of_nat (length (reasons []))) with 0 in Hloop.
    rewrite Hloop by (done || lia). by eexists.
  - cbn [length unavailable_loop]. unfold page_tests. rewrite Hdetails. by eexists.
Qed.

Lemma list_invocations_total index workspace st command page :
  item_limit page ≤ 20000 → is_Some (list_invocations index workspace st command page).
Proof.
  intros Hlimit. unfold list_invocations, list_limits, clamp. cbn [mbind option_bind].
  destruct (Z.leb_spec 1 200); [|lia]. cbn [mbind option_bind].
  destruct (Z.leb_spec (Z.max (item_limit page) 1) 20000); [|lia]. by eexists.
Qed.

Lemma shown_total {A} id (payload : list A → InspectPayload) m :
  is_Some m → is_Some (attempt (from_store (IoError:=IoError) (RegexError:=RegexError) m) (fun page => Some (Ok (page_result id payload page)))).
Proof. intros Hm. apply attempt_total; [by apply from_store_total|intros; by eexists]. Qed.

Lemma inspect_invocation_total request id record page limits :
  inspect_item_limit request ≤ 10000 → page_limits page = Some limits → inspect_view request ≠ ViewInvocations →
  is_Some (inspect_invocation (RegexError:=RegexError) not_found s (files id) request id record page).
Proof.
  intros Hlimit Hlimits Hview. unfold inspect_invocation. destruct (inspect_view request); try done; try (by eexists).
  - apply shown_total, attempt_total; [by eexists|intros]. by eapply page_records_total.
  - apply shown_total, attempt_total; [by eexists|intros]. by eapply page_records_total.
  - apply attempt_total; [|intros; by eexists]. destruct (file_test_log_exists (files id)); [by apply read_evidence_total|by apply unavailable_total].
  - unfold coverage_result. apply attempt_total.
    { apply from_store_total, attempt_total; [by eexists|intros]. by eapply page_records_total. }
    intros coverage _. destruct (_ =? _)%nat; [|by eexists]. apply attempt_total; [|intros; by eexists].
    apply from_store_total, attempt_total; [by eexists|intros].
    destruct (limits_exist (inspect_item_limit request) (inspect_scan_limit request) Hlimit None) as (n & m & Hfirst). by eapply page_records_total.
  - apply shown_total, attempt_total; [by eexists|intros]. by eapply page_records_total.
  - apply shown_total, attempt_total; [by eexists|intros]. by eapply page_query_rows_total.
  - apply attempt_total; [by apply read_evidence_total|intros; by eexists].
Qed.

(** Every request with an ordinary limit has an answer. *)
Lemma inspect_total request :
  inspect_item_limit request ≤ 10000 → is_Some (inspect (RegexError:=RegexError) not_found s files request).
Proof.
  intros Hlimit. destruct (store_page_clean request) as [page Hpage]. destruct (store_page_limits request page Hpage) as [_ [limits Hlimits]].
  unfold inspect. rewrite Hpage. cbn [mbind option_bind]. apply attempt_total; [|intros; by eexists]. case_bool_decide as Hview.
  - apply attempt_total; [|intros; by eexists]. apply from_store_total, list_invocations_total.
    unfold store_page, clamp in Hpage. cbn in Hpage. injection Hpage as <-. cbn. lia.
  - apply attempt_total; [by eexists|intros id _]. apply attempt_total; [by apply from_store_total; eexists|intros record _].
    by eapply inspect_invocation_total.
Qed.

Lemma attempt_Ok {E A B} (m : option (result E A)) (k : A → option (result E B)) b :
  attempt m k = Some (Ok b) → ∃ a, m = Some (Ok a) ∧ k a = Some (Ok b).
Proof. destruct m as [[a|e]|]; cbn; [eauto|done|done]. Qed.

(** Only the summary view has headlines. *)
Lemma inspect_settled request r :
  inspect (RegexError:=RegexError) not_found s files request = Some (Ok r) → inspect_view request ≠ ViewSummary →
  Settled (result_items r).
Proof.
  intros Hinspect Hview. unfold inspect in Hinspect. destruct (store_page request) as [page|]; [|done]. cbn [mbind option_bind] in Hinspect.
  apply attempt_Ok in Hinspect as (r' & Hr' & [= <-]). cbn [with_start_cursor result_items]. revert Hr'. case_bool_decide.
  - by intros (p & _ & [= <-])%attempt_Ok.
  - intros (id & _ & (record & _ & Hshown)%attempt_Ok)%attempt_Ok. revert Hshown. unfold inspect_invocation, coverage_result.
    destruct (inspect_view request); try done; try (by intros (p & _ & [= <-])%attempt_Ok); try (by intros [= <-]).
    intros (p & _ & Hshown)%attempt_Ok. revert Hshown. destruct (_ =? _)%nat; [|by intros [= <-]].
    by intros (q & _ & [= <-])%attempt_Ok.
Qed.
End answered.

Lemma encode_inspect_more `{W : Wire} encoding limit fuel fuel' r outcome :
  encode_inspect encoding fuel r limit = Some outcome → (fuel ≤ fuel')%nat → encode_inspect encoding fuel' r limit = Some outcome.
Proof.
  revert fuel' r. induction fuel as [|fuel IH]; intros [|fuel'] r; cbn [encode_inspect]; try done; [lia|]. intros Houtcome Hle.
  destruct (encode_inspect_result encoding r) as [e|]; [|done]. destruct (_ <=? _); [done|].
  destruct (shrink_inspect r) as [r'|]; [|done]. apply IH; [done|lia].
Qed.

Lemma inspect_request_limit parse_uuid p request : inspect_request parse_uuid p = Ok request →
  1 ≤ inspect_item_limit request ≤ 100 ∧ view_parse (param_view p) = Some (inspect_view request).
Proof.
  unfold inspect_request. destruct (view_parse (param_view p)) as [view|]; [|done].
  intros (id & _ & (_ & _ & (st & _ & (_ & _ & (_ & _ & [= <-])%bind_Ok_inv)%bind_Ok_inv)%bind_Ok_inv)%bind_Ok_inv)%bind_Ok_inv.
  cbn [inspect_item_limit inspect_view]. unfold clamp_to. split; [lia|done].
Qed.

(** C22: Every call of [bazel.inspect] for a view other than the summary is
    answered after a bounded number of rounds of the encoder, whatever its
    parameters, the store and the evidence files are, and an answer that is not
    an error is at most as long as the requested budget, which lies between 512
    and 8192 bytes. *)
Theorem inspection_is_answered {IoError RegexError : Type} `{Files : Serializer} `{Redactor : BoundedRedactor} `{Terminal : TerminalText}
    `{Cursors : CursorCodec} `{Laws : !CursorCodecLaws} `{Ids : !IdText} `{Codec : !LogCursorCodec} `{Json : !EvidenceJson} `{W : Wire}
    (display : RunnerError IoError RegexError → string) parse_uuid server not_found files p w
    (Htests : ∀ id details, read_details (store w) id = Ok details → Z.of_nat (length (details_tests details)) ≤ i64_max)
    (Hview : view_parse (param_view p) ≠ Some ViewSummary) :
  ∃ n, ∀ rounds, (n ≤ rounds)%nat →
    ∃ outcome w', bazel_inspect display parse_uuid server rounds not_found files p w = (Some outcome, w') ∧
      512 ≤ inspect_visible_budget (param_max_bytes p) ≤ 8192 ∧
      ∀ r, outcome = Ok r → ∃ e, encoded_result e = r ∧ visible_bytes e ≤ inspect_visible_budget (param_max_bytes p).
Proof.
  assert (Hbudget : 512 ≤ inspect_visible_budget (param_max_bytes p) ≤ 8192) by (unfold inspect_visible_budget, clamp_to; lia).
  unfold bazel_inspect. destruct (inspect_request parse_uuid p) as [request|message] eqn:Hrequest; [|exists 0%nat; intros; by eexists _, w].
  apply inspect_request_limit in Hrequest as [Hlimit Hparsed]. rewrite Hparsed in Hview.
  destruct (inspect_total (RegexError:=RegexError) not_found (store w) files Htests request ltac:(lia)) as [[r|error] Hinspect]; rewrite Hinspect;
    [|exists 0%nat; intros; by eexists _, w].
  apply inspect_settled in Hinspect; [|congruence].
  destruct (inspection_response_bounded (result_encoding server) (inspect_visible_budget (param_max_bytes p)) r Hinspect) as (outcome & Hencode & Hfits).
  exists (S (payload_size (result_items r))). intros rounds Hrounds. rewrite (encode_inspect_more _ _ _ _ _ _ Hencode Hrounds).
  destruct outcome as [e|error]; [|by eexists _, w].
  unfold mbind, M_bind, answer, mret, M_ret. match goal with |- context [let '(_, _) := ?m in _] => destruct m as [recorded w'] end.
  eexists _, w'. split; [done|]. split; [done|]. intros r' [= <-]. exists e. split; [done|]. by apply Hfits.
Qed.

(** ** Which calls become tasks *)

(** The call asks for a task in the way its protocol provides. *)
Definition task_flow {Args} (fam : ProtocolFamily) (params : CallToolParams Args) : bool :=
  match fam with Earlier => false | LegacyTasks => task_requested params | TasksExtension => capable params end.

Section routing.
Context {IoError RegexError : Type} `{FS : FileSystem IoError} `{Files : Serializer} `{Redactor : BoundedRedactor}.
Context `{Terminal : TerminalText} `{Text : TextDiagnostics} `{Cursors : CursorCodec} `{Ids : !IdText}.
Context `{Codec : !LogCursorCodec} `{Json : !EvidenceJson} `{W : Wire}.
Context (unix windows : bool) (vars : list (string * string)).
Context (which_all : string → option (list string)) (which_in : option string).
Context (probe : PathBuf → PathBuf → result string Z) (config : RunnerConfig).
Context (display : RunnerError IoError RegexError → string).
Context (enrich_tests : list Artifact → InvocationSummary → InvocationSummary).
Context (load_coverage : list Artifact → option CoverageSummary) (reducers : ReducerPipeline).
Context (parse_uuid : string → option InvocationId) (rfc3339 : Z → option string).
Context {Args : Type} (decode_run : option Args → result string RunParams).
Context (decode_inspect : option Args → result string InspectParams) (decode_cancel : option Args → result string CancelParams).
Context (cancel_to_value : CancelResult → result string wire) (server : ServerSettings) (rounds : nat).

Abbreviation call_tool_request :=
  (call_tool_request unix windows vars which_all which_in probe config display enrich_tests load_coverage reducers parse_uuid rfc3339
     decode_run decode_inspect decode_cancel cancel_to_value server rounds).
Abbreviation call_tool :=
  (call_tool unix windows vars which_all which_in probe config display enrich_tests load_coverage reducers parse_uuid
     decode_run decode_inspect decode_cancel cancel_to_value server rounds).
Abbreviation submit_deferred := (submit_deferred unix windows vars which_all which_in probe config display decode_run server).

(** A synchronous call. *)
Definition ordinary (r : option (result ErrorData CallToolResult) * World) : option (result ErrorData (ServerResult CallToolResult Args)) * World :=
  (match r.1 with Some (Ok result) => Some (Ok (RCallTool result)) | Some (Err error) => Some (Err error) | None => None end, r.2).

End routing.

(** ** Deferred results in the store *)

Section deferred.
Context `{Files : Serializer}.

Lemma deferred_result_Ok id wanted w v w' :
  deferred_result id wanted w = (Ok v, w') →
  (clean w → clean w') ∧ ∃ now, get_deferred_result (store w) id wanted now = (Ok v, store w').
Proof.
  intros (r & w1 & Hcall & Hret)%bind_M. unfold mret, M_ret in Hret.
  apply store_call_cases in Hcall as [Hclean Hcases]. destruct r as [r|]; [|done]. injection Hret as -> <-. split; [done|].
  destruct Hcases as [(_ & e & [=] & _) | (now & x & Hop & [[= ->] | [[e [=]] _]])]. exists now.
  by destruct (get_deferred_result (store w) id wanted now) as [r s]; injection Hop as -> ->.
Qed.

(** A result that is found is the indexed one, and finding it changes nothing. *)
Lemma get_deferred_Ok s id wanted now v s' :
  get_deferred_result s id wanted now = (Ok v, s') →
  s' = s ∧ ∃ entry, entries (store_index s) !! id = Some entry ∧ entry_deferred entry = Some (deferred v) ∧
    retrieval (deferred v) = wanted ∧ (entry_terminal entry = false → invocation v = header_into_record (entry_record entry)).
Proof.
  unfold get_deferred_result. destruct (ensure_invocation s id); [|done].
  destruct (entries (store_index s) !! id) as [entry|]; [|done].
  destruct (entry_deferred entry) as [d|] eqn:Hd; [|done].
  destruct (bool_decide (retrieval d ≠ wanted)) eqn:Hwanted; cbn [orb].
  { destruct (is_expired _ _ _); [|done]. by destruct (mutate _ _ _ _). }
  apply bool_decide_eq_false, dec_stable in Hwanted.
  destruct (is_expired _ _ _); [by destruct (mutate _ _ _ _)|].
  destruct (entry_terminal entry) eqn:Hterminal.
  - destruct (get_invocation s id) as [record|]; [|done]. intros [= <- <-]. split; [done|]. exists entry. split_and!; try done. by rewrite Hterminal.
  - intros [= <- <-]. split; [done|]. exists entry. by split_and!.
Qed.

(** The result of an invocation that has not ended does not expire. *)
Lemma get_deferred_live s id wanted now entry d :
  entries (store_index s) !! id = Some entry → entry_deferred entry = Some d → retrieval d = wanted → entry_terminal entry = false →
  get_deferred_result s id wanted now = (Ok (MkDeferredView d (header_into_record (entry_record entry))), s).
Proof.
  intros Hentry Hd Hwanted Hlive. unfold get_deferred_result, ensure_invocation, ensure_exists. rewrite Hentry, Hd.
  rewrite bool_decide_false by (intros []; done). unfold is_expired. by rewrite Hlive.
Qed.

Lemma deferred_result_live id wanted w entry d :
  clean w → entries (store_index (store w)) !! id = Some entry → entry_deferred entry = Some d → retrieval d = wanted →
  entry_terminal entry = false →
  ∃ w', deferred_result id wanted w = (Ok (MkDeferredView d (header_into_record (entry_record entry))), w') ∧
    store w' = store w ∧ clean w'.
Proof.
  intros Hclean Hentry Hd Hwanted Hlive. unfold deferred_result. unfold mbind, M_bind.
  destruct (store_call _ w) as [r w'] eqn:Hcall. exists w'. apply store_call_cases in Hcall as [Hclean' Hcases].
  destruct Hcases as [(_ & e & -> & [Hdirty | [now Hop]]) | (now & x & Hop & Hr)]; [done| |].
  - by rewrite (get_deferred_live _ _ _ _ _ _ Hentry Hd Hwanted Hlive) in Hop.
  - rewrite (get_deferred_live _ _ _ _ _ _ Hentry Hd Hwanted Hlive) in Hop. injection Hop as Hstore <-.
    destruct Hr as [-> | [_ Hdirty]]; [|done]. split_and!; [done|done|by apply Hclean'].
Qed.

(** What an update of a deferred result leaves in the index. *)
Lemma update_deferred_view s id recount f s' :
  mutate s id recount (update_deferred id f) = Ok s' →
  ∃ header d, index_view (store_index s') id = Some (header, Some (f d)) ∧ (Mirrored s → index_view (store_index s) id = Some (header, Some d)).
Proof.
  unfold mutate, read_durable. intros (u & Hensure & Hrest)%bind_Ok_inv.
  destruct (disk s !! id) as [ev|] eqn:Hdisk; [|done]. cbn [mbind result_bind] in Hrest.
  destruct (merge_index_telemetry _ _ _) as [metrics generation]. apply bind_Ok_inv in Hrest as (durable & Hupdate & [= <-]).
  unfold update_deferred in Hupdate. apply bind_Ok_inv in Hupdate as (d & Hd & [= <-]). cbn [durable_deferred] in Hd.
  apply ok_or_Ok in Hd. eexists _, d. rewrite (proj1 (commit_record_views s id ev _ recount generation id)), decide_True by done.
  split; [reflexivity|]. intros Hs. rewrite Hs. unfold disk_view. rewrite Hdisk. cbn. unfold durable_view. by rewrite Hd.
Qed.
End deferred.

(** ** Inverting handlers *)

Lemma and_then_Ok {E A B} (m : Handler E A) (k : A → Handler E B) w b w' :
  and_then m k w = (Some (Ok b), w') → ∃ a w1, m w = (Some (Ok a), w1) ∧ k a w1 = (Some (Ok b), w').
Proof.
  unfold and_then. intros (r & w1 & Hm & Hk)%bind_M. destruct r as [[a|e]|]; [eauto|done|done].
Qed.

Lemma calling_Ok {E E' A} (convert : E → E') (m : M (result E A)) w a w' :
  calling convert m w = (Some (Ok a), w') → m w = (Ok a, w').
Proof.
  unfold calling. intros (r & w1 & Hm & Hk)%bind_M. destruct r as [r|e]; [|done].
  unfold answer, mret, M_ret in Hk. by injection Hk as -> ->.
Qed.

Lemma checked_Ok {E A} (r : result E A) w a w' : checked r w = (Some (Ok a), w') → r = Ok a ∧ w' = w.
Proof. unfold checked, mret, M_ret. by intros [= -> ->]. Qed.

Lemma calling_run {E E' A} (convert : E → E') (m : M (result E A)) w a w' :
  m w = (Ok a, w') → calling convert m w = (Some (Ok a), w').
Proof. intros Hm. unfold calling, mbind, M_bind. by rewrite Hm. Qed.

Lemma and_then_run {E A B} (m : Handler E A) (k : A → Handler E B) w a w' :
  m w = (Some (Ok a), w') → and_then m k w = k a w'.
Proof. intros Hm. unfold and_then, mbind, M_bind. by rewrite Hm. Qed.

(** ** A new task *)

Section new_task.
Context {IoError RegexError : Type} `{FS : FileSystem IoError} `{Files : Serializer} `{Redactor : BoundedRedactor}.
Context `{Cursors : CursorCodec} `{Ids : !IdText} `{W : Wire}.
Context (unix windows : bool) (vars : list (string * string)).
Context (which_all : string → option (list string)) (which_in : option string).
Context (probe : PathBuf → PathBuf → result string Z) (config : RunnerConfig).
Context (display : RunnerError IoError RegexError → string).
Context (parse_uuid : string → option InvocationId).
Context {Args : Type} (decode_run : option Args → result string RunParams) (server : ServerSettings).
Abbreviation submit_deferred := (submit_deferred unix windows vars which_all which_in probe config display decode_run server).

(** The stored result of an invocation that waits in the queue. *)
Definition Queueing (s : StoreInner) (id : InvocationId) (d : DeferredResultRecord) : Prop :=
  ∃ header, index_view (store_index s) id = Some (header, Some d) ∧ header_state header = Queued.

Lemma queueing_entry s id d : Queueing s id d →
  ∃ entry, entries (store_index s) !! id = Some entry ∧ entry_deferred entry = Some d ∧ entry_terminal entry = false.
Proof.
  intros (header & Hview & Hstate). unfold index_view in Hview. destruct (entries (store_index s) !! id) as [entry|]; [|done].
  exists entry. injection Hview as Hheader Hd. split_and!; [done|done|]. unfold entry_terminal.
  assert (header_state (entry_record entry) = Queued) as -> by (by rewrite <- Hstate, <- Hheader). done.
Qed.

Lemma queueing_found s id d wanted now v s' : Queueing s id d → get_deferred_result s id wanted now = (Ok v, s') →
  s' = s ∧ deferred v = d ∧ retrieval d = wanted ∧ state (invocation v) = Queued.
Proof.
  intros Hqueue (-> & entry & Hentry & Hd & Hwanted & Hinvocation)%get_deferred_Ok.
  pose proof Hqueue as (header & Hview & Hstate). destruct (queueing_entry s id d Hqueue) as (entry' & Hentry' & Hd' & Hlive).
  rewrite Hentry in Hentry'. injection Hentry' as <-. rewrite Hd in Hd'. injection Hd' as <-. split_and!; [done|done|done|].
  rewrite Hinvocation by done. unfold index_view in Hview. rewrite Hentry in Hview. injection Hview as Hheader _.
  cbn. by rewrite <- Hstate, <- Hheader.
Qed.

(** The record of an accepted submission. *)
Lemma submit_queueing token now q wanted expires cache w id w' :
  Mirrored (store w) →
  submit (RegexError:=RegexError) unix windows vars which_all which_in probe config token now q (Deferred wanted expires) cache w
    = (Ok id, w') →
  id = request_id q ∧ kept w w' ∧ Queueing (store w') id (new_deferred id wanted now expires).
Proof.
  intros Hs (r & w1 & Hprepare & Hret)%bind_M. destruct r as [r cache']. unfold mret, M_ret in Hret. cbn [fst] in Hret.
  apply prepare_submission_cases in Hprepare; [|done]. destruct r as [p|error]; [|done]. injection Hret as <- <-.
  destruct Hprepare as (Hkept & _ & _ & _ & (canonical & _ & Hrequest) & _ & Hview & _). rewrite Hrequest. cbn [set_workspace request_id].
  split_and!; [done|done|]. eexists. split; [exact Hview|done].
Qed.

(** A task that waits is working, for both protocols. *)
Lemma new_task_working now v poll :
  failure (deferred v) = None → terminal_override (deferred v) = None → state (invocation v) = Queued →
  task_state (from_view now v poll) = Working.
Proof.
  intros Hfailure Hoverride Hstate. unfold from_view, classify, legacy_cancelled, internal_failure, has_failure.
  rewrite Hfailure, Hoverride, Hstate. rewrite (bool_decide_false (None = _)), andb_false_r by done. cbn [mbind option_bind].
  by destruct (retrieval (deferred v)).
Qed.

(** A deferred result without failure or override. *)
Definition Fresh (d : DeferredResultRecord) : Prop := failure d = None ∧ terminal_override d = None.

Lemma submit_deferred_queueing e arguments wanted w view w1 :
  Mirrored (store w) → submit_deferred e arguments wanted w = (Some (Ok view), w1) →
  (clean w → clean w1) ∧ Queueing (store w1) (run_id e) (deferred view) ∧ retrieval (deferred view) = wanted ∧ Fresh (deferred view) ∧
  state (invocation view) = Queued ∧ i64_add (created_at_ms (deferred view)) (ttl_ms server) ≤ expires_at_ms (deferred view).
Proof.
  intros Hs (p & w2 & (_ & ->)%checked_Ok & Hsubmit)%and_then_Ok.
  apply and_then_Ok in Hsubmit as (id & w3 & Hsubmit%calling_Ok & Hrest).
  apply submit_queueing in Hsubmit as (-> & [Hs3 Hclean3] & Hqueue); [|done]. cbn [request_id into_request] in *.
  apply and_then_Ok in Hrest as (v & w4 & (Hclean4 & now & Hget)%calling_Ok%deferred_result_Ok & Hrest).
  destruct (queueing_found _ _ _ _ _ _ _ Hqueue Hget) as (Hstore4 & Hd & Hwanted & Hstate).
  destruct (Z.ltb_spec (expires_at_ms (deferred v)) (i64_add (created_at_ms (deferred v)) (ttl_ms server))) as [Hshort | Hlong].
  - apply and_then_Ok in Hrest as (u & w5 & Hextend%calling_Ok & Hrest). apply calling_Ok, deferred_result_Ok in Hrest as (Hclean6 & now' & Hget').
    unfold service_extend_deferred_expiry, unit_call in Hextend. apply store_call_cases in Hextend as [Hclean5 Hcases].
    destruct Hcases as [(_ & ? & [=] & _) | (now5 & x & Hop & _)]. apply bind_Ok_inv in Hop as (s5 & Hmutate & [= Hs5 _]). subst s5.
    unfold extend_deferred_expiry in Hmutate. apply update_deferred_view in Hmutate as (header & d & Hview & Hbefore).
    rewrite Hstore4 in Hbefore. specialize (Hbefore Hs3). destruct Hqueue as (header' & Hview' & Hqueued).
    rewrite Hview' in Hbefore. injection Hbefore as -> <-.
    destruct (queueing_found (store w5) (run_id e) _ wanted now' view (store w1) ltac:(eexists; split; [exact Hview|exact Hqueued]) Hget')
      as (Hstore6 & Hd' & Hwanted' & Hstate').
    split; [tauto|]. rewrite Hstore6, Hd'. split_and!; try done; [by exists header|]. cbn [expires_at_ms created_at_ms].
    rewrite Hd. lia.
  - unfold answer, mret, M_ret in Hrest. injection Hrest as -> ->. split; [tauto|]. rewrite Hstore4, Hd in *. by split_and!.
Qed.

(** The task that a deferred call of [bazel.run] creates is found again
    under its identifier, with what the creation reported: it is working, however
    late it is asked for while it waits in the queue, and its result is promised
    for the configured time to live at least. *)
Theorem created_task_is_found e arguments wanted w view w1
    (Hclean : clean w) (Hmirrored : Mirrored (store w))
    (Hparse : parse_uuid (id_to_string (run_id e)) = Some (run_id e))
    (Hsubmit : submit_deferred e arguments wanted w = (Some (Ok view), w1)) :
  (∃ found w2, find_task parse_uuid (id_to_string (run_id e)) wanted w1 = (Some (Ok (run_id e, found)), w2) ∧
     store w2 = store w1 ∧ deferred found = deferred view ∧ ∀ now poll, task_state (from_view now found poll) = Working) ∧
  (∀ now poll, task_state (from_view now view poll) = Working) ∧
  i64_add (created_at_ms (deferred view)) (ttl_ms server) ≤ expires_at_ms (deferred view).
Proof.
  apply submit_deferred_queueing in Hsubmit as (Hclean1 & Hqueue & Hwanted & [Hfailure Hoverride] & Hstate & Httl); [|done].
  split; [|split; [intros; by apply new_task_working|done]].
  destruct (queueing_entry _ _ _ Hqueue) as (entry & Hentry & Hd & Hlive).
  destruct (deferred_result_live (run_id e) wanted w1 entry (deferred view)) as (w2 & Hfound & Hstore & _); [by apply Hclean1|done..|].
  assert (Hheader : header_state (entry_record entry) = Queued).
  { destruct Hqueue as (header & Hview & Hqueued). unfold index_view in Hview. rewrite Hentry in Hview. injection Hview as <- _. exact Hqueued. }
  exists (MkDeferredView (deferred view) (header_into_record (entry_record entry))), w2. split_and!; [|done|reflexivity|].
  - unfold find_task. rewrite (and_then_run _ _ w1 (run_id e) w1); [rewrite (and_then_run _ _ _ _ _ (calling_run _ _ _ _ _ Hfound)); reflexivity|].
    unfold checked, parse_task_id, parse_id. by rewrite Hparse.
  - intros now poll. by apply new_task_working.
Qed.
End new_task.

(** ** Cancelled tasks *)

Section cancelling.
Context {IoError RegexError : Type} `{Files : Serializer} `{Redactor : BoundedRedactor} `{Cursors : CursorCodec} `{Ids : !IdText}.
Context (display : RunnerError IoError RegexError → string) (parse_uuid : string → option InvocationId) (rfc3339 : Z → option string).
Context (server : ServerSettings).
Abbreviation legacy_cancel_task := (legacy_cancel_task display parse_uuid rfc3339 server).

Lemma find_task_Ok value wanted w found w' :
  find_task parse_uuid value wanted w = (Some (Ok found), w') →
  parse_uuid value = Some found.1 ∧ deferred_result found.1 wanted w = (Ok found.2, w').
Proof.
  intros (id & w1 & [Hid ->]%checked_Ok & Hrest)%and_then_Ok. apply and_then_Ok in Hrest as (view & w2 & Hview%calling_Ok & Hret).
  unfold answer, mret, M_ret in Hret. injection Hret as <- <-. split; [|done].
  unfold parse_task_id, parse_id in Hid. destruct (parse_uuid value); [by injection Hid as ->|done].
Qed.

Lemma override_view id w u w' : set_deferred_cancelled id w = (Ok u, w') →
  ∃ header d, index_view (store_index (store w')) id = Some (header, Some d) ∧ terminal_override d = Some DeferredCancelled.
Proof.
  unfold set_deferred_cancelled, unit_call. intros [_ Hcases]%store_call_cases.
  destruct Hcases as [(_ & e & [=] & _) | (now & x & Hop & _)]. apply bind_Ok_inv in Hop as (s & Hmutate & [= <- _]).
  unfold set_deferred_terminal_override in Hmutate. apply update_deferred_view in Hmutate as (header & d & Hview & _).
  by eexists _, _.
Qed.

(** A task with the override is cancelled for its protocol. *)
Lemma overridden_cancelled now v poll :
  retrieval (deferred v) = SeparateResult → terminal_override (deferred v) = Some DeferredCancelled →
  task_state (from_view now v poll) = TaskCancelled.
Proof.
  intros Hretrieval Hoverride. unfold from_view, classify, legacy_cancelled. rewrite Hretrieval, Hoverride. by rewrite !bool_decide_true.
Qed.

Lemma overridden_found s id header d wanted now v s' :
  index_view (store_index s) id = Some (header, Some d) → get_deferred_result s id wanted now = (Ok v, s') →
  s' = s ∧ deferred v = d ∧ retrieval d = wanted.
Proof.
  intros Hview (-> & entry & Hentry & Hd & Hwanted & _)%get_deferred_Ok. split; [done|]. unfold index_view in Hview. rewrite Hentry in Hview.
  injection Hview as _ Hview. rewrite Hd in Hview. injection Hview as <-. done.
Qed.

End cancelling.

Module ServerExamples.
Import LiteralEngine ExecutionExamples ServiceExamples.
#[local] Existing Instances PolicyExamples.example_fs example_files example_redactor plain_text no_text.
#[local] Existing Instance CursorExamples.example_codec.
#[local] Existing Instance CursorExamples.example_laws.
#[local] Existing Instance ListingExamples.example_ids.
#[local] Existing Instance InspectionExamples.example_cursors.
#[local] Existing Instance InspectionExamples.example_json.
#[local] Existing Instance ResponseExamples.example_wire.

Definition settings : ServerSettings := MkServer EncText Auto 60000 2000.
Definition parse_example (value : string) : option InvocationId := if bool_decide (value = id_to_string 7) then Some 7 else None.
Definition params : RunParams := MkRunParams "/w" [] "build" ["--config=dev"; "//..."] None [] None.
Definition events : RunEvents (IoError:=string) (RegexError:=string) :=
  MkRunEvents 7 1000 false false 0 ∅ (Acquired false) 1005 clean_env 0.

Definition submit_example :=
  submit_deferred (RegexError:=string) (Args:=unit) true false [] (fun _ => Some ["/bin/bazel"]) None (fun _ _ => Ok 9) example_config
    (fun _ => "error") (fun _ => Ok params) settings events None SeparateResult idle_world.
Definition task_world : World := submit_example.2.

Lemma created_task_is_found_witness :
  match submit_example.1 with
  | Some (Ok view) =>
      expires_at_ms (deferred view) = 61000 ∧
      ∃ found w2, find_task parse_example (id_to_string 7) SeparateResult task_world = (Some (Ok (7, found)), w2) ∧
        deferred found = deferred view ∧ ∀ now poll, task_state (from_view now found poll) = Working
  | _ => False
  end.
Proof.
  destruct (submit_example.1) as [[view|]|] eqn:Hr; [|exfalso; vm_compute in Hr; discriminate..].
  assert (Hsubmit : submit_example = (Some (Ok view), task_world)).
  { unfold task_world. rewrite <- Hr. by destruct submit_example. }
  split; [vm_compute in Hr; injection Hr as <-; reflexivity|].
  destruct (created_task_is_found (RegexError:=string) (Args:=unit) true false [] (fun _ => Some ["/bin/bazel"]) None (fun _ _ => Ok 9)
    example_config (fun _ => "error") parse_example (fun _ => Ok params) settings events None SeparateResult idle_world view task_world)
    as [(found & w2 & Hfound & _ & Hsame & Hworking) _]; [constructor|exact idle_mirrored|vm_compute; reflexivity|exact Hsubmit|].
  by exists found, w2.
Defined.

(** While the cancellation waits, the invocation ends by itself. *)
Definition finishing (w : World) : World :=
  MkWorld (StoreExamples.example_run (SFinish 7 2000 (MkCompletion Succeeded (Exit 0) cancelled_summary None default_metrics None []))
             (store w)) (remove 7 (scheduler w)) (answers w).
Definition running_world : World :=
  MkWorld (StoreExamples.example_run (STransition 7 1020 Running None None)
             (StoreExamples.example_run (STransition 7 1010 Starting None None) (store task_world)))
    (remove 7 (scheduler task_world)) [].
Definition cancel_example :=
  legacy_cancel_task (IoError:=string) (RegexError:=string) (fun _ => "error") parse_example (fun _ => None) settings 3000
    [Elapsed finishing] (id_to_string 7) running_world.
Definition status_at (now : Z) (w : World) : option TaskState :=
  match (legacy_get_task parse_example (fun _ => None) settings now (id_to_string 7) w).1 with
  | Some (Ok task) => Some (wire_status task)
  | _ => None
  end.


(** A poll just before the cancellation is recorded sees the task completed. *)
Example completed_before_cancelled :
  status_at 2500 (finishing running_world) = Some TaskCompleted ∧ status_at 3500 cancel_example.2 = Some TaskCancelled.
Proof. vm_compute. by split. Qed.

Definition failed_world : World := MkWorld InspectionExamples.failed_store (new_scheduler 1 4) [].

Lemma read_details_Ok s id details : read_details s id = Ok details → details = default default_details (disk s !! id ≫= details_file).
Proof. unfold read_details. by intros (u & _ & [= <-])%bind_Ok_inv. Qed.

Lemma failed_tests id details : read_details InspectionExamples.failed_store id = Ok details →
  Z.of_nat (length (details_tests details)) ≤ i64_max.
Proof.
  intros ->%read_details_Ok. destruct (decide (id = 7)) as [->|Hne]; [vm_compute; discriminate|].
  assert (Hdom : dom (disk InspectionExamples.failed_store) = ({[7]} : gset InvocationId)) by (vm_compute; reflexivity).
  assert (disk InspectionExamples.failed_store !! id = None) as ->; [|vm_compute; discriminate].
  apply not_elem_of_dom. rewrite Hdom. exact (not_elem_of_singleton_2 _ _ Hne).
Qed.

Lemma inspection_is_answered_witness :
  ∃ n, ∀ rounds, (n ≤ rounds)%nat →
    ∃ outcome w', bazel_inspect (RegexError:=string) (fun _ => "error") parse_example settings rounds "not found" InspectionExamples.failed_files
        (MkInspectParams (Some (id_to_string 7)) None None None "log" None (Some 1) (Some 600) None) failed_world = (Some outcome, w') ∧
      512 ≤ inspect_visible_budget (Some 600) ≤ 8192 ∧
      ∀ r, outcome = Ok r → ∃ e, encoded_result e = r ∧ visible_bytes e ≤ inspect_visible_budget (Some 600).
Proof.
  apply (inspection_is_answered (RegexError:=string) (fun _ => "error") parse_example settings "not found" InspectionExamples.failed_files
    (MkInspectParams (Some (id_to_string 7)) None None None "log" None (Some 1) (Some 600) None) failed_world).
  - exact failed_tests.
  - vm_compute. discriminate.
Defined.

(** The first line of the evidence, as the tool shows it. *)
Example inspected_line :
  match (bazel_inspect (RegexError:=string) (fun _ => "error") parse_example settings 2 "not found" InspectionExamples.failed_files
           (MkInspectParams (Some (id_to_string 7)) None None None "log" None (Some 1) (Some 600) None) failed_world).1 with
  | Some (Ok r) => content r = ["error: token [REDACTED] [repeated 2 times]"]
  | _ => False
  end.
Proof. vm_compute. reflexivity. Qed.
End ServerExamples.
