(* ===== verification/CaptureEvidence.v ===== *)
(** * Gathering the evidence of an exited invocation
    (crates/bazel-mcp-runner/src/capture.rs: the live captures and their ends;
    crates/bazel-mcp-runner/src/execution.rs: [capture_evidence])

    When Bazel has exited, the live capture of its event stream is finished, with
    the retained file decoded again should its task have failed, query rows are
    counted and sampled, the tails of the logs are read and the failure evidence
    is written.  The pipeline behind the captures is that of Capture.v. *)

From S2P Require Import Prelude Types Record Cursor QueryPaging Framing Bes Reduction Capture Text Runner Sanitize Artifacts Outcome Evidence Inspection Execution.
#[global] Open Scope Z_scope.

Section capture_evidence.
Context {D I IoError RegexError : Type} `{Faults : FileFaults IoError}.
Context (decode_event : list Z → result D Reduction.BepEvent) (capacity : list Z → Z).
Context (invalid_data other_error : string → IoError) (blake3 : list Z → list Z).
Context (limits : option (Z * Z)).
Abbreviation BepReduction := (BepReduction (D:=D) (I:=I)).
Abbreviation RunnerError := (RunnerError IoError RegexError).

(** ** Live captures *)

(** [LiveBepCapture], with what its task reads: the chunks of the tail and the file
    it compares them with, those of the FIFO and the file read back, or the events
    of the build event service. *)
Inductive LiveBepCapture : Type :=
| LiveTail (chunks : list (list Z)) (final : list Z) (later : list (list Z))
| LiveFifo (chunks : list (list Z)) (read_back : list Z)
| LiveBes (events : list BesStreamEventKind).

(** The task of a capture. *)
Definition capture_task (capture : LiveBepCapture) : option (result IoError BepReduction) :=
  match capture with
  | LiveTail chunks final later => tail_bep decode_event capacity invalid_data blake3 chunks limits final later
  | LiveFifo chunks read_back => read_fifo_bep decode_event capacity invalid_data other_error blake3 chunks limits read_back
  | LiveBes events => read_bes_bep decode_event capacity invalid_data blake3 events limits
  end.

(** [finish]: the result of the task or, when it failed or panicked, of decoding
    the retained file. *)
Definition finish_live (capture : LiveBepCapture) (panicked : bool) (retained : option (list (list Z)))
    : option (result IoError BepReduction) :=
  r ← capture_task capture;
  match r with
  | Ok reduction => if panicked then post_hoc_reduction_file decode_event capacity invalid_data blake3 retained limits
                    else Some (Ok reduction)
  | Err _ => post_hoc_reduction_file decode_event capacity invalid_data blake3 retained limits
  end.

(** ** [capture_evidence] *)

Context `{Codec : CursorCodec} `{Redactor : BoundedRedactor} `{Terminal : TerminalText} `{Json : EvidenceJson}.
Context (id_string : InvocationId → string).

Record CaptureInputs : Type := MkInputs {
  live_bep : option (LiveBepCapture * bool);
  retained_bep : option (list (list Z));
  counted_stdout : option (list (result StoreError (list Z)));
  paged_stdout : option (Z → list (result StoreError (list Z)));
  tail_stdout : result IoError (option (list Z));
  tail_stderr : result IoError (option (list Z));
  persist_error : option IoError;
  bep_bytes : Z;
  elapsed_reduction_ms : Z;
}.

(** The count and the sample of query rows. *)
Definition query_evidence (q : InvocationRequest) (d : ExecutionDriver) (inputs : CaptureInputs)
    : option (result RunnerError (Z * list QueryRow)) :=
  if decide (command_class d (command q) = QueryClass) then
    match count_query_file (counted_stdout inputs) with
    | Err error => Some (Err (RStore error))
    | Ok count =>
        page ← QueryPaging.page_query_rows_mapped_into (paged_stdout inputs) (id_string (request_id q)) Running None None
                 (MkPageRequest None 3 3) (fun value _ => redact_str value (4 * 1024));
        Some (match page with Err error => Err (RStore error) | Ok page => Ok (count, Types.items page) end)
    end
  else Some (Ok (0, [])).

(** The reduction of the event stream. *)
Definition bep_evidence (inputs : CaptureInputs) : option (result RunnerError (BepAccumulator * StreamOutcome D I)) :=
  match live_bep inputs with
  | Some (capture, panicked) =>
      r ← finish_live capture panicked (retained_bep inputs);
      Some (match r with Err e => Err (RIo e) | Ok reduction => Ok (reduction_accumulator reduction, Capture.outcome reduction) end)
  | None =>
      r ← reduce_bep_file decode_event capacity invalid_data blake3 (retained_bep inputs) limits;
      Some (match r with Err e => Err (RIo e) | Ok reduced => Ok reduced end)
  end.

Definition log_tail (file : result IoError (option (list Z))) (limit : Z) : result RunnerError (list Z) :=
  match file with Err e => Err (RIo e) | Ok file => Ok (Inspection.read_bounded_tail file limit) end.

Definition ended_with_error (o : StreamOutcome D I) : bool :=
  match outcome_terminal_error D I o with Some _ => true | None => false end.

(** The logs and the failure evidence, for the outcome of the event stream. *)
Definition log_evidence (q : InvocationRequest) (exit_code : option Z) (o : StreamOutcome D I) (inputs : CaptureInputs)
    : result RunnerError (list Z * list Z * option string) :=
  let limit := log_limit (outcome_event_count D I o) (ended_with_error o) in
  stdout ← log_tail (tail_stdout inputs) limit;
  stderr ← log_tail (tail_stderr inputs) limit;
  let failed := bool_decide (exit_code ≠ Some 0) in
  if should_persist_failure_evidence (command q) failed then
    match persist_error inputs with
    | Some e => Err (RIo e)
    | None => Ok (stdout, stderr, Some (persist_failure_evidence (workspace q) (command q) failed stdout stderr))
    end
  else Ok (stdout, stderr, None).

(** [capture_evidence]: what the reduction receives, and the evidence file it
    wrote.  A live capture is finished before the query rows are read, and a file
    without one is reduced after. *)
Definition capture_evidence (q : InvocationRequest) (d : ExecutionDriver) (exit_code : option Z) (inputs : CaptureInputs)
    : option (result RunnerError (Execution.Capture * option string)) :=
  query ← query_evidence q d inputs;
  bep ← bep_evidence inputs;
  Some (
    let go := ('(count, sample) ← query;
               '(accumulator, o) ← bep;
               '(stdout, stderr, persisted) ← log_evidence q exit_code o inputs;
               Ok (MkCapture accumulator false (ended_with_error o)
                     (outcome_event_count D I o) stdout stderr count sample (bep_bytes inputs)
                     (elapsed_reduction_ms inputs), persisted)) in
    match live_bep inputs, bep with
    | Some _, Err e => Err e
    | _, _ => go
    end).
End capture_evidence.

(** * Theorems *)

Section captured_evidence.
Context {D I IoError RegexError : Type} `{Faults : FileFaults IoError}.
Context (decode_event : list Z → result D Reduction.BepEvent) (capacity : list Z → Z).
Context (invalid_data other_error : string → IoError) (blake3 : list Z → list Z).
Context (limits : option (Z * Z)).
Abbreviation run := (run_pipeline (D:=D) (I:=I) decode_event capacity invalid_data blake3).
Abbreviation finish_live := (finish_live (D:=D) (I:=I) decode_event capacity invalid_data other_error blake3 limits).
Abbreviation post_hoc := (post_hoc_reduction_file (D:=D) (I:=I) decode_event capacity invalid_data blake3).

(** The frames that a build event service capture ingests. *)
Fixpoint bes_frames (events : list BesStreamEventKind) : list (list Z) :=
  match events with
  | [] | Bes.Finished :: _ => []
  | Frames frames :: rest => frames ++ bes_frames rest
  end.

Lemma ingest_all_app self (first rest : list (list Z)) :
  ingest_all (D:=D) (I:=I) decode_event capacity invalid_data self (first ++ rest)
  = (r ← ingest_all decode_event capacity invalid_data self first;
     match r with Err error => Some (Err error) | Ok self => ingest_all decode_event capacity invalid_data self rest end).
Proof.
  revert self. induction first as [|chunk first IH]; intros self; [done|]. cbn [app ingest_all].
  destruct (ingest _ _ _ self chunk) as [[self'|]|]; cbn [mbind option_bind]; [apply IH|done|done].
Qed.

(** The task of such a capture is the pipeline on those frames. *)
Lemma read_bes_run events :
  read_bes_bep (D:=D) (I:=I) decode_event capacity invalid_data blake3 events limits
  = (r ← run (append []) limits (bes_frames events) BesSource; Some (output ← r; Ok (pipeline_reduction output))).
Proof.
  unfold read_bes_bep, run_pipeline. generalize (new_pipeline (D:=D) (I:=I) (IoError:=IoError) (append []) limits).
  induction events as [|[frames|] events IH]; intros self; [done| |done]. cbn [read_bes_loop bes_frames].
  rewrite ingest_all_app. destruct (ingest_all _ _ _ self frames) as [[self'|]|]; cbn [mbind option_bind]; [apply IH|done|done].
Qed.

(** No capture runs out of fuel. *)
Lemma post_hoc_total retained : is_Some (post_hoc retained limits).
Proof.
  unfold post_hoc_reduction_file, reduce_bep_file. destruct retained as [chunks|]; [|by eexists].
  destruct (run_total (D:=D) (I:=I) decode_event capacity invalid_data blake3 limits already_persisted chunks PostHocFallback) as [r ->]. by eexists.
Qed.

Lemma finish_live_total capture panicked retained : is_Some (finish_live capture panicked retained).
Proof.
  assert (∀ writer chunks source, is_Some (run writer limits chunks source)) as Hrun by (intros; apply run_total).
  assert (is_Some (capture_task (D:=D) (I:=I) decode_event capacity invalid_data other_error blake3 limits capture)) as [r Hr].
  { destruct capture as [chunks final later|chunks read_back|events]; cbn [capture_task].
    - unfold tail_bep. destruct (Hrun already_persisted chunks Incremental) as [[output|] ->]; cbn [mbind option_bind]; [|by eexists].
      case_bool_decide; [by eexists|]. apply post_hoc_total.
    - unfold read_fifo_bep. destruct (Hrun (append []) chunks Capture.Fifo) as [r ->]. by eexists.
    - rewrite read_bes_run. destruct (Hrun (append []) (bes_frames events) BesSource) as [r ->]. by eexists. }
  unfold CaptureEvidence.finish_live. rewrite Hr. cbn [mbind option_bind].
  destruct r, panicked; try apply post_hoc_total; by eexists.
Qed.

(** ** A well-formed stream *)

Context (bodies : list (list Z)) (events : list Reduction.BepEvent).
Hypothesis Hdecode : Forall2 (fun b e => decode_event b = Ok e) bodies events.
Hypothesis Hevict : Forall not_evicted events.
Hypothesis Hframes : Forall (fun b => len b ≤ DEFAULT_MAX_FRAME_BYTES) bodies.
Hypothesis Hbytes : total_len bodies ≤ DEFAULT_MAX_STREAM_BYTES.
Hypothesis Hcount : len bodies ≤ DEFAULT_MAX_STREAM_EVENTS.
Definition stream : list Z := concat (map encode_frame bodies).

(** What every capture of the stream must end with. *)
Definition Reduces (a : BepAccumulator) (o : StreamOutcome D I) : Prop :=
  a = foldl observe (new_accumulator limits) events ∧
  outcome_terminal_error D I o = None ∧ outcome_event_count D I o = len events.

(** The capture received the bytes of the stream. *)
Definition Carries (capture : LiveBepCapture) : Prop :=
  match capture with
  | LiveTail chunks _ later => concat chunks = stream ∧ concat later = stream
  | LiveFifo chunks _ => concat chunks = stream
  | LiveBes kinds => concat (bes_frames kinds) = stream
  end.

Lemma run_reduces writer chunks source output : writer_ok writer ∧ evidence writer = [] → concat chunks = stream →
  run writer limits chunks source = Some (Ok output) →
  Reduces (reduction_accumulator (pipeline_reduction output)) (Capture.outcome (pipeline_reduction output)).
Proof.
  intros Hwriter Hchunks Hrun.
  destruct (captured_accumulator _ _ _ _ _ _ _ _ _ _ _ Hwriter Hchunks Hdecode Hevict Hframes Hbytes Hcount Hrun) as (_ & H1 & H2 & H3).
  by split_and!.
Qed.

Lemma persisted_ok : writer_ok already_persisted ∧ evidence already_persisted = [].
Proof. done. Qed.

Lemma post_hoc_reduces chunks r : concat chunks = stream → post_hoc (Some chunks) limits = Some (Ok r) →
  Reduces (reduction_accumulator r) (Capture.outcome r).
Proof.
  intros Hchunks. unfold post_hoc_reduction_file, reduce_bep_file.
  destruct (run already_persisted limits chunks PostHocFallback) as [[output|]|] eqn:Hrun; cbn; [|done|done].
  intros [= <-]. exact (run_reduces _ _ _ _ persisted_ok Hchunks Hrun).
Qed.

(** Live or decoded again from the retained file, a capture of the stream ends
    with the same reduction. *)
Lemma finish_live_reduces capture panicked retained r : Carries capture → concat retained = stream →
  finish_live capture panicked (Some retained) = Some (Ok r) → Reduces (reduction_accumulator r) (Capture.outcome r).
Proof.
  intros Hcarries Hretained. unfold CaptureEvidence.finish_live.
  destruct (capture_task _ _ _ _ _ _ capture) as [[live|]|] eqn:Htask; cbn [mbind option_bind]; [|by apply post_hoc_reduces|done].
  destruct panicked; [by apply post_hoc_reduces|]. intros [= <-].
  destruct capture as [chunks final later|chunks read_back|kinds]; cbn [Carries capture_task] in Hcarries, Htask.
  - unfold tail_bep in Htask. destruct (run already_persisted limits chunks Incremental) as [[output|]|] eqn:Hrun; cbn [mbind option_bind] in Htask; [|done|done].
    destruct Hcarries as [Hchunks Hlater]. case_bool_decide; [|exact (post_hoc_reduces _ _ Hlater Htask)]. injection Htask as <-.
    exact (run_reduces _ _ _ _ persisted_ok Hchunks Hrun).
  - unfold read_fifo_bep in Htask. destruct (run (append []) limits chunks Capture.Fifo) as [[output|]|] eqn:Hrun; cbn [mbind option_bind] in Htask; [|done|done].
    injection Htask as Htask. apply bind_Ok_inv in Htask as (? & _ & [= <-]).
    exact (run_reduces _ _ _ _ append_ok Hcarries Hrun).
  - rewrite read_bes_run in Htask. destruct (run (append []) limits (bes_frames kinds) BesSource) as [[output|]|] eqn:Hrun; cbn [mbind option_bind] in Htask; [|done|done].
    injection Htask as <-. exact (run_reduces _ _ _ _ append_ok Hcarries Hrun).
Qed.

(** ** The evidence of an invocation *)

Context `{Codec : CursorCodec} `{Redactor : BoundedRedactor} `{Terminal : TerminalText} `{Json : EvidenceJson}.
Context (id_string : InvocationId → string).
Abbreviation capture_evidence :=
  (capture_evidence (D:=D) (I:=I) (RegexError:=RegexError) decode_event capacity invalid_data other_error blake3 limits id_string).

Lemma bounded_tail_drop bytes limit : 0 ≤ limit →
  Inspection.read_bounded_tail (Some bytes) limit = drop (length bytes - Z.to_nat limit) bytes.
Proof.
  intros Hlimit. unfold Inspection.read_bounded_tail. rewrite take_ge; [f_equal; lia|]. rewrite length_drop. lia.
Qed.

Lemma bep_evidence_reduces (inputs : CaptureInputs (IoError:=IoError)) retained reduced :
  match live_bep inputs with Some (capture, _) => Carries capture | None => True end →
  retained_bep inputs = Some retained → concat retained = stream →
  bep_evidence (RegexError:=RegexError) decode_event capacity invalid_data other_error blake3 limits inputs = Some (Ok reduced) →
  Reduces reduced.1 reduced.2.
Proof.
  intros Hlive Hretained Hstream. unfold bep_evidence. rewrite Hretained. destruct (live_bep inputs) as [[capture panicked]|].
  - destruct (finish_live capture panicked (Some retained)) as [[r|]|] eqn:Hfinish; cbn [mbind option_bind]; [|done|done].
    intros [= <-]. by eapply finish_live_reduces.
  - destruct (reduce_bep_file _ _ _ _ (Some retained) limits) as [[[a o]|]|] eqn:Hreduce; cbn [mbind option_bind]; [|done|done].
    intros [= <-]. apply (post_hoc_reduces retained (MkReduction a o PostHocFallback) Hstream).
    unfold post_hoc_reduction_file. by rewrite Hreduce.
Qed.

Lemma log_evidence_spec q exit_code o (inputs : CaptureInputs (IoError:=IoError)) out err stdout stderr persisted :
  tail_stdout inputs = Ok (Some out) → tail_stderr inputs = Ok (Some err) →
  log_evidence (RegexError:=RegexError) q exit_code o inputs = Ok (stdout, stderr, persisted) →
  let limit := log_limit (outcome_event_count D I o) (ended_with_error o) in
  let failed := bool_decide (exit_code ≠ Some 0) in
  stdout = drop (length out - Z.to_nat limit) out ∧ stderr = drop (length err - Z.to_nat limit) err ∧
  persisted = if should_persist_failure_evidence (command q) failed
              then Some (persist_failure_evidence (workspace q) (command q) failed stdout stderr) else None.
Proof.
  intros Hout Herr Hlog limit failed. unfold log_evidence, log_tail in Hlog. rewrite Hout, Herr in Hlog.
  cbn [mbind result_bind] in Hlog. fold limit in Hlog.
  assert (0 ≤ limit) as Hlimit by (subst limit; unfold log_limit, COMPLETE_BEP_LOG_LIMIT, FALLBACK_LOG_LIMIT; destruct (_ && _); lia).
  rewrite !bounded_tail_drop in Hlog by done. fold failed in Hlog.
  destruct (should_persist_failure_evidence (command q) failed); [destruct (persist_error inputs); [done|]|];
    injection Hlog as <- <- <-; by split_and!.
Qed.

End captured_evidence.

(** * Witnesses *)

Module CaptureEvidenceExamples.
#[local] Existing Instance CursorExamples.example_codec.
#[local] Existing Instance SanitizeExamples.example_redactor.
#[local] Existing Instance InspectionExamples.plain_text.
#[local] Existing Instance InspectionExamples.example_json.
#[local] Existing Instance CaptureExamples.no_faults.

(** A query whose capture task panicked. *)
Definition example_query : InvocationRequest := new_request 7 1000 "/w" Query ["//..."].
Definition example_output : list Z := bytes_of ("//a" +:+ String newline "//b").
Definition example_inputs : CaptureInputs (IoError:=string) :=
  MkInputs (Some (LiveBes [Frames [[1; 1]; [1; 2]]; Bes.Finished], true)) (Some [[1; 1; 1]; [2]])
    (Some [Ok example_output]) (Some (fun offset => [Ok (drop (Z.to_nat offset) example_output)]))
    (Ok (Some example_output)) (Ok (Some [])) None 4 5.

Definition example_evidence :=
  capture_evidence (D:=unit) (I:=unit) (RegexError:=string) CaptureExamples.example_decode len id id id None
    (fun _ => "id") example_query (BazelDriver "bazel") (Some 1) example_inputs.

End CaptureEvidenceExamples.
