(* ===== verification/OutputBaseLock.v ===== *)
(** * The lock of an output base (crates/bazel-mcp-runner/src/output_base_lock.rs)

    Processes that share an output base take an advisory lock on a file named by
    the digest of its path, polling while it is busy; a second observer watches
    for Bazel's own lock.  Both account for the time they wait in one shared
    status.  Time is a clock reading ([Instant]) given to every operation. *)

From stdpp Require Import pretty.
From Stdlib Require Import Ascii.
From S2P Require Import Prelude Types Redaction QueryPaging Text Runner Artifacts.
#[global] Open Scope Z_scope.

Abbreviation Instant := Z (only parsing).

(** ** The wait status *)

Record OutputBaseWaitTiming : Type := MkTiming {
  active_since : option Instant;
  accumulated : Duration;
  wait_owner : option string;
}.
Definition default_timing : OutputBaseWaitTiming := MkTiming None 0 None.

Record OutputBaseWaitSnapshot : Type := MkSnapshot {
  wait_active : bool; wait_elapsed_ms : Z; snapshot_owner : option string;
}.

(** [Instant::elapsed]. *)
Definition elapsed_since (started now : Instant) : Duration := Z.max (now - started) 0.

Definition begin_wait (now : Instant) (owner : option string) (t : OutputBaseWaitTiming) : OutputBaseWaitTiming :=
  match active_since t with
  | None => MkTiming (Some now) (accumulated t) owner
  | Some started => MkTiming (Some started) (accumulated t)
      (match wait_owner t with None => owner | Some owner => Some owner end)
  end.

Definition end_wait (now : Instant) (t : OutputBaseWaitTiming) : OutputBaseWaitTiming :=
  MkTiming None
    (match active_since t with
     | Some started => duration_add (accumulated t) (elapsed_since started now)
     | None => accumulated t
     end) None.

(** The time waited up to now. *)
Definition waited (now : Instant) (t : OutputBaseWaitTiming) : Duration :=
  duration_add (accumulated t) (match active_since t with Some started => elapsed_since started now | None => 0 end).

Definition snapshot (now : Instant) (t : OutputBaseWaitTiming) : OutputBaseWaitSnapshot :=
  MkSnapshot (bool_decide (is_Some (active_since t))) (duration_millis (waited now t)) (wait_owner t).

(** ** Lock files *)

Record LockOwner : Type := MkLockOwner { owner_pid : Z; owner_invocation : InvocationId; acquired_at_ms : Z }.

(** The ranges of the fields: [u32], a UUID and [i64]. *)
Definition OwnerInRange (o : LockOwner) : Prop :=
  0 ≤ owner_pid o < 2 ^ 32 ∧ 0 ≤ owner_invocation o < 2 ^ 128 ∧ - 2 ^ 63 ≤ acquired_at_ms o < 2 ^ 63.

(** [serde_json] on an owner. *)
Class LockJson : Type := {
  owner_to_json : LockOwner → list Z;
  owner_from_json : list Z → option LockOwner;
  owner_json_roundtrip : ∀ o, OwnerInRange o → owner_from_json (owner_to_json o ++ [10]) = Some o;
  owner_json_short : ∀ o, OwnerInRange o → Z.of_nat (length (owner_to_json o)) < 4096;
}.

(** A lock file: whether it is locked, and what it holds. *)
Record LockFile : Type := MkLockFile { locked : bool; lock_contents : list Z }.
Abbreviation LockRoot := (gmap string LockFile) (only parsing).

Inductive LockAttempt : Type := AttemptAcquired | Busy (owner : option LockOwner).

Definition OWNER_BYTES_LIMIT : nat := 4096.

(** What fails in an attempt: opening the file, locking or reading it, or
    writing the owner, before the file is emptied or after some of its bytes. *)
Inductive LockFault : Type := OpenFails | LockFails | TruncateFails | WriteFails (written : nat).

Section locks.
Context `{Json : LockJson}.

Definition lock_file (root : LockRoot) (path : string) : LockFile := default (MkLockFile false []) (root !! path).

(** Dropping a handle, with or without a guard around it, unlocks the file. *)
Definition unlock (path : string) (root : LockRoot) : LockRoot :=
  <[path := MkLockFile false (lock_contents (lock_file root path))]> root.

Definition write_bytes (path : string) (bytes : list Z) (root : LockRoot) : LockRoot :=
  <[path := MkLockFile (locked (lock_file root path)) bytes]> root.

(** The first half of [try_lock]: opening the file and locking it, or reading who
    holds it. *)
Inductive LockAnswer : Type := LockTaken | WouldBlock (owner : option LockOwner).

Definition take_lock (path : string) (fault : option LockFault) (root : LockRoot) : LockRoot * option LockAnswer :=
  let file := lock_file root path in
  match fault with
  | Some OpenFails => (root, None)
  | Some LockFails => (<[path := file]> root, None)
  | _ =>
      if locked file then
        (<[path := file]> root, Some (WouldBlock (owner_from_json (take OWNER_BYTES_LIMIT (lock_contents file)))))
      else (<[path := MkLockFile true (lock_contents file)]> root, Some LockTaken)
  end.

(** The second half, with the lock held: writing the owner; an error drops the
    handle. *)
Definition write_owner (path : string) (owner : LockOwner) (fault : option LockFault) (root : LockRoot) : LockRoot * bool :=
  let bytes := owner_to_json owner ++ [10] in
  match fault with
  | Some TruncateFails => (unlock path root, false)
  | Some (WriteFails n) => (unlock path (write_bytes path (take n bytes) root), false)
  | _ => (write_bytes path bytes root, true)
  end.

Definition try_lock (path : string) (owner : LockOwner) (fault : option LockFault) (root : LockRoot)
    : LockRoot * option LockAttempt :=
  let '(root, answer) := take_lock path fault root in
  match answer with
  | None => (root, None)
  | Some (WouldBlock current) => (root, Some (Busy current))
  | Some LockTaken =>
      let '(root, written) := write_owner path owner fault root in
      (root, if written then Some AttemptAcquired else None)
  end.

(** ** Acquisition *)

(** One round of the loop of [acquire]: what the other processes did before, the
    clock at each of its steps, and what happens to it. *)
Record LockPoll : Type := MkPoll {
  poll_others : LockRoot → LockRoot;
  cancelled_before : bool;
  poll_fault : option LockFault;
  poll_now : Instant;
  cancelled_asleep : option Instant;
}.

Inductive Acquisition : Type := LockAcquired | LockCancelled | LockFailed.

Definition end_if (waiting : bool) (now : Instant) (t : OutputBaseWaitTiming) : OutputBaseWaitTiming :=
  if waiting then end_wait now t else t.

(** The loop; [None] while it still waits after all these rounds. *)
Fixpoint acquire_loop (path : string) (owner : LockOwner) (polls : list LockPoll) (waiting : bool)
    (root : LockRoot) (t : OutputBaseWaitTiming) : option Acquisition * LockRoot * OutputBaseWaitTiming :=
  match polls with
  | [] => (None, root, t)
  | poll :: rest =>
      let now := poll_now poll in
      let root := poll_others poll root in
      if cancelled_before poll then (Some LockCancelled, root, end_if waiting now t)
      else
        let '(root, attempt) := try_lock path owner (poll_fault poll) root in
        match attempt with
        | None => (Some LockFailed, root, t)
        | Some AttemptAcquired => (Some LockAcquired, root, end_if waiting now t)
        | Some (Busy current) =>
            let t := if waiting then t
                     else begin_wait now ((fun o => "bazel_mcp:pid=" +:+ pretty (owner_pid o)) <$> current) t in
            match cancelled_asleep poll with
            | Some now => (Some LockCancelled, root, end_wait now t)
            | None => acquire_loop path owner rest true root t
            end
        end
  end.
End locks.

(** ** Bazel's own lock *)

Definition NATIVE_LOCK_MARKER : list Z := bytes_of "Another command holds the output base lock:".
Definition NATIVE_WAIT_MARKER : list Z := bytes_of "Waiting for it to complete...".
Definition NATIVE_WAIT_TAIL_BYTES : nat := 32 * 1024.
Definition NATIVE_WAIT_DETECTION_WINDOW : Duration := from_secs 2.

(** [find] on bytes. *)
Fixpoint find_bytes (haystack needle : list Z) : option nat :=
  if bool_decide (needle = []) then None
  else if bool_decide (take (length needle) haystack = needle) then Some 0%nat
  else match haystack with [] => None | _ :: rest => S <$> find_bytes rest needle end.
Definition contains_needle (haystack needle : list Z) : bool := bool_decide (is_Some (find_bytes haystack needle)).

Definition is_ascii_whitespace (b : Z) : bool := bool_decide (b ∈ [9; 10; 12; 13; 32]).

(** [read_bounded_tail]. *)
Definition tail_bytes (maximum : nat) (file : option (list Z)) : list Z :=
  match file with Some bytes => drop (length bytes - maximum) bytes | None => [] end.

Definition parse_bazel_lock_pid (bytes : list Z) : option Z :=
  text ← from_utf8 bytes;
  value ← head (omap (strip_prefix "pid=") (lines text));
  parse_u32 (trim value).

(** [process_exists], for the answer of [kill(pid, 0)]. *)
Definition process_exists (unix : bool) (kill_zero : Z → bool) (pid : Z) : bool :=
  unix && (pid <=? 2 ^ 31 - 1) && kill_zero pid.

Definition active_bazel_lock_owner (unix : bool) (kill_zero : Z → bool) (lock : option (list Z)) : option Z :=
  bytes ← lock;
  pid ← parse_bazel_lock_pid (take OWNER_BYTES_LIMIT bytes);
  if process_exists unix kill_zero pid then Some pid else None.

(** One round of [observe_native_wait]: what it reads, in order, and whether it
    is cancelled while it sleeps. *)
Record ObserverPoll : Type := MkObserverPoll {
  initial_alive : bool;
  observed_stderr : option (list Z);
  observed_elapsed : Duration;
  first_stdout : Z; first_bep : Z;
  second_stdout : Z; second_bep : Z;
  observed_now : Instant;
  observer_cancelled : option Instant;
}.

(** The locals of [observe_native_wait]. *)
Record ObserverState : Type := MkObserver {
  observer_waiting : bool;
  waiting_marker_end : option nat;
  baseline_stdout : Z; baseline_bep : Z; baseline_stderr_len : nat;
}.

(** The detection of a wait: [None] when the observer returns. *)
Definition detect_wait (tail : list Z) (p : ObserverPoll) (s : ObserverState) (t : OutputBaseWaitTiming)
    : option (ObserverState * OutputBaseWaitTiming) :=
  if observer_waiting s then Some (s, t)
  else if contains_needle tail NATIVE_LOCK_MARKER || contains_needle tail NATIVE_WAIT_MARKER then
    Some (MkObserver true (waiting_marker_end s) (first_stdout p) (first_bep p) (baseline_stderr_len s),
          begin_wait (observed_now p) (Some "bazel_client") t)
  else if (NATIVE_WAIT_DETECTION_WINDOW <=? observed_elapsed p) || (0 <? first_stdout p) || (0 <? first_bep p) then None
  else Some (s, t).

(** What follows the marker in the tail. *)
Definition note_marker (tail : list Z) (s : ObserverState) : ObserverState * bool :=
  match find_bytes tail NATIVE_WAIT_MARKER with
  | Some position =>
      let marker_end := (position + length NATIVE_WAIT_MARKER)%nat in
      (MkObserver (observer_waiting s) (Some (default marker_end (waiting_marker_end s))) (baseline_stdout s) (baseline_bep s)
         (Nat.max (baseline_stderr_len s) (length tail)),
       existsb (fun b => negb (is_ascii_whitespace b)) (drop marker_end tail))
  | None => (s, false)
  end.

(** Whether Bazel has gone on. *)
Definition has_progress (tail : list Z) (p : ObserverPoll) (s : ObserverState) : bool :=
  bool_decide (is_Some (waiting_marker_end s))
  && ((baseline_stdout s <? second_stdout p) || (baseline_bep s <? second_bep p)
      || (baseline_stderr_len s <? length tail)%nat).

(** [observe_native_wait]; the flag tells whether it has returned. *)
Fixpoint observe_native_wait (has_initial : bool) (polls : list ObserverPoll) (s : ObserverState) (t : OutputBaseWaitTiming)
    : bool * OutputBaseWaitTiming :=
  match polls with
  | [] => (false, t)
  | p :: rest =>
      if has_initial && negb (initial_alive p) then (true, end_wait (observed_now p) t)
      else
        let tail := tail_bytes NATIVE_WAIT_TAIL_BYTES (observed_stderr p) in
        match detect_wait tail p s t with
        | None => (true, t)
        | Some (s, t) =>
            let '(s, output) := if observer_waiting s then note_marker tail s else (s, false) in
            if observer_waiting s && (output || has_progress tail p s) then (true, end_wait (observed_now p) t)
            else
              match observer_cancelled p with
              | Some now => (true, end_if (observer_waiting s) now t)
              | None => observe_native_wait has_initial rest s t
              end
        end
  end.

(** [NativeOutputBaseWaitObserver::start], the rounds of its task, and [finish]. *)
Definition observe_output_base (now finished : Instant) (initial : option Z) (polls : list ObserverPoll) (t : OutputBaseWaitTiming)
    : OutputBaseWaitTiming :=
  let t := match initial with
           | Some pid => begin_wait now (Some ("bazel_client:pid=" +:+ pretty pid)) t
           | None => t
           end in
  let '(_, t) := observe_native_wait (bool_decide (is_Some initial)) polls
                   (MkObserver (bool_decide (is_Some initial)) None 0 0 0) t in
  end_wait finished t.

(** * Theorems *)

(** ** Exclusion *)

Section exclusion.
Context `{Json : LockJson}.

(** All tasks of all processes that share the lock root: the files, the attempts
    that have locked a file and still write its owner, and the guards held. *)
Record LockSystem : Type := MkSystem {
  system_root : LockRoot;
  writing : list (string * LockOwner);
  guards : list (string * LockOwner);
}.

(** The two halves of every attempt, with any fault, the writes between them, and
    dropped guards, in any order. *)
Inductive lock_step : LockSystem → LockSystem → Prop :=
| take_step root ws gs path owner fault root' answer :
    take_lock path fault root = (root', answer) →
    lock_step (MkSystem root ws gs)
      (MkSystem root' (match answer with Some LockTaken => (path, owner) :: ws | _ => ws end) gs)
| partial_step root before path owner after gs n :
    lock_step (MkSystem root (before ++ (path, owner) :: after) gs)
      (MkSystem (write_bytes path (take n (owner_to_json owner ++ [10])) root) (before ++ (path, owner) :: after) gs)
| write_step root before path owner after gs fault root' written :
    write_owner path owner fault root = (root', written) →
    lock_step (MkSystem root (before ++ (path, owner) :: after) gs)
      (MkSystem root' (before ++ after) (if written then (path, owner) :: gs else gs))
| drop_step root ws before path owner after :
    lock_step (MkSystem root ws (before ++ (path, owner) :: after)) (MkSystem (unlock path root) ws (before ++ after)).

Definition holders (s : LockSystem) : list string := (writing s).*1 ++ (guards s).*1.

(** A file is locked exactly while one task holds it, and the file of a guard
    names its owner. *)
Definition Guarded (s : LockSystem) : Prop :=
  NoDup (holders s) ∧
  (∀ path, locked (lock_file (system_root s) path) = true ↔ path ∈ holders s) ∧
  (∀ path owner, (path, owner) ∈ guards s → lock_contents (lock_file (system_root s) path) = owner_to_json owner ++ [10]).

Lemma lock_file_insert root path file other :
  lock_file (<[path := file]> root) other = if decide (other = path) then file else lock_file root other.
Proof.
  unfold lock_file. destruct (decide (other = path)) as [->|Hne]; [by rewrite lookup_insert_eq|by rewrite lookup_insert_ne].
Qed.

Lemma lock_file_same root path other : lock_file (<[path := lock_file root path]> root) other = lock_file root other.
Proof. rewrite lock_file_insert. by destruct (decide (other = path)) as [->|]. Qed.

(** A file changes only under the task that holds it. *)
Definition same_elsewhere (path : string) (root root' : LockRoot) : Prop :=
  ∀ other, other ≠ path → lock_file root' other = lock_file root other.

(** The first half changes nothing, or takes a free file. *)
Lemma take_lock_cases path fault root root' answer : take_lock path fault root = (root', answer) →
  (answer = Some LockTaken ∧ locked (lock_file root path) = false ∧
     root' = <[path := MkLockFile true (lock_contents (lock_file root path))]> root) ∨
  (answer ≠ Some LockTaken ∧ ∀ other, lock_file root' other = lock_file root other).
Proof.
  unfold take_lock. destruct fault as [[| | |n]|], (locked (lock_file root path)) eqn:Hfree;
    intros [<- <-]%pair_equal_spec;
    first [ right; split; [discriminate|]; intros other; first [reflexivity | apply lock_file_same]
          | left; split_and!; reflexivity ].
Qed.

Lemma write_owner_cases path owner fault root root' written :
  write_owner path owner fault root = (root', written) → locked (lock_file root path) = true →
  same_elsewhere path root root' ∧ locked (lock_file root' path) = written ∧
  (written = true → lock_contents (lock_file root' path) = owner_to_json owner ++ [10]).
Proof.
  unfold write_owner, unlock, write_bytes. intros Hwrite Hlocked.
  destruct fault as [[| | |n]|]; apply pair_equal_spec in Hwrite as [<- <-];
    (split_and!; [intros other Hne; by rewrite ?lock_file_insert, ?decide_False by done
                 | rewrite !lock_file_insert, ?decide_True by done; done
                 | intros; rewrite ?lock_file_insert, ?decide_True by done; done ]).
Qed.

(** Adding a holder of a free file. *)
Lemma guarded_take root ws gs path owner : Guarded (MkSystem root ws gs) → locked (lock_file root path) = false →
  Guarded (MkSystem (<[path := MkLockFile true (lock_contents (lock_file root path))]> root) ((path, owner) :: ws) gs).
Proof.
  intros (Hnodup & Hlocked & Hcontents) Hfree. unfold holders in *. cbn in *.
  assert (path ∉ ws.*1 ++ gs.*1) as Hfresh by (rewrite <- Hlocked; congruence).
  split_and!; cbn.
  - by constructor.
  - intros other. rewrite lock_file_insert, elem_of_cons, <- Hlocked. destruct (decide (other = path)); naive_solver.
  - intros other o Hin. rewrite lock_file_insert, decide_False; [by apply Hcontents|]. intros ->. apply Hfresh.
    apply elem_of_app. right. by apply (list_elem_of_fmap_2 fst) in Hin.
Qed.

(** What the holder of a file does leaves the others' files alone. *)
Lemma guarded_change s s' path : Guarded s → path ∈ holders s →
  same_elsewhere path (system_root s) (system_root s') →
  holders s ≡ₚ (if locked (lock_file (system_root s') path) then [] else [path]) ++ holders s' →
  (∀ other o, (other, o) ∈ guards s' → (other ≠ path ∧ (other, o) ∈ guards s) ∨
     (other = path ∧ lock_contents (lock_file (system_root s') path) = owner_to_json o ++ [10])) →
  Guarded s'.
Proof.
  intros (Hnodup & Hlocked & Hcontents) Hin Hsame Hperm Hguards.
  rewrite Hperm in Hnodup. apply NoDup_app in Hnodup as (_ & Hfresh & Hnodup).
  split_and!; [done| |].
  - intros other. destruct (decide (other = path)) as [->|Hne].
    + rewrite Hperm in Hin. destruct (locked (lock_file (system_root s') path)); [by split|].
      split; [done|]. intros Hheld. exfalso. apply (Hfresh path); [by constructor|done].
    + rewrite (Hsame other Hne), Hlocked, Hperm, elem_of_app.
      destruct (locked (lock_file (system_root s') path)); rewrite ?elem_of_nil, ?list_elem_of_singleton; naive_solver.
  - intros other o [[Hne Hold]| [-> Hnew]]%Hguards; [|done]. rewrite (Hsame other Hne). by apply Hcontents.
Qed.

(** The path of a guard is not the path of another holder. *)
Lemma guard_elsewhere path owner other o ws gs (l : list string) :
  NoDup (l ++ (ws ++ (path, owner) :: gs : list (string * LockOwner)).*1) → (other, o) ∈ ws ++ gs → other ≠ path.
Proof.
  rewrite NoDup_app, fmap_app, fmap_cons. cbn. intros (_ & _ & Hnodup) Hin ->.
  apply (list_elem_of_fmap_2 fst) in Hin. cbn in Hin. rewrite fmap_app in Hin.
  apply NoDup_app in Hnodup as (_ & Hcross & [Hnot _]%NoDup_cons). apply elem_of_app in Hin as [Hin|Hin]; [|done].
  apply (Hcross path Hin). by constructor.
Qed.

Lemma guarded_step s s' : lock_step s s' → Guarded s → Guarded s'.
Proof.
  intros Hstep Hguarded. pose proof Hguarded as (Hnodup & Hlocked & Hcontents). unfold holders in Hnodup.
  destruct Hstep as [root ws gs path owner fault root' answer Htake | root before path owner after gs n
    | root before path owner after gs fault root' written Hwrite | root ws before path owner after]; cbn in *.
  - apply take_lock_cases in Htake as [(-> & Hfree & ->) | [Hnot Hsame]]; [by apply guarded_take|].
    replace (match answer with Some LockTaken => (path, owner) :: ws | _ => ws end) with ws by (by destruct answer as [[]|]).
    split_and!; cbn; [done| |]; intros other; rewrite Hsame; [apply Hlocked|apply Hcontents].
  - assert (path ∈ holders (MkSystem root (before ++ (path, owner) :: after) gs)) as Hin
      by (unfold holders; cbn; rewrite fmap_app, fmap_cons, !elem_of_app, elem_of_cons; auto).
    apply (guarded_change _ _ path Hguarded Hin); cbn; unfold write_bytes.
    + intros other Hne. by rewrite lock_file_insert, decide_False.
    + rewrite lock_file_insert, decide_True by done. cbn. by rewrite (proj2 (Hlocked path) Hin).
    + intros other o Hguard. left. split; [|done]. intros ->.
      apply NoDup_app in Hnodup as (_ & Hcross & _). apply (Hcross path).
      * rewrite fmap_app, elem_of_app. right. by constructor.
      * by apply (list_elem_of_fmap_2 fst) in Hguard.
  - assert (path ∈ holders (MkSystem root (before ++ (path, owner) :: after) gs)) as Hin
      by (unfold holders; cbn; rewrite fmap_app, fmap_cons, !elem_of_app, elem_of_cons; auto).
    apply write_owner_cases in Hwrite as (Hsame & Hheld & Hnamed); [|by apply Hlocked].
    apply (guarded_change _ _ path Hguarded Hin); cbn; [done| |].
    + rewrite Hheld. unfold holders. cbn. rewrite !fmap_app, fmap_cons. destruct written; cbn; solve_Permutation.
    + assert (∀ o, (path, o) ∈ gs → False) as Hother.
      { intros o Hguard. apply NoDup_app in Hnodup as (_ & Hcross & _). apply (Hcross path).
        - rewrite fmap_app, elem_of_app. right. by constructor.
        - by apply (list_elem_of_fmap_2 fst) in Hguard. }
      intros other o Hguard. destruct written; [|by left; split; [intros ->; eapply Hother|]].
      apply elem_of_cons in Hguard as [[= -> ->]|Hguard]; [right; by rewrite Hnamed|]. left. split; [intros ->; by eapply Hother|done].
  - assert (path ∈ holders (MkSystem root ws (before ++ (path, owner) :: after))) as Hin
      by (unfold holders; cbn; rewrite fmap_app, fmap_cons, !elem_of_app, elem_of_cons; auto).
    apply (guarded_change _ _ path Hguarded Hin); cbn; unfold unlock.
    + intros other Hne. by rewrite lock_file_insert, decide_False.
    + rewrite lock_file_insert, decide_True by done. unfold holders. cbn. rewrite !fmap_app, fmap_cons. cbn. solve_Permutation.
    + intros other o Hguard. left. split; [by eapply guard_elsewhere|].
      apply elem_of_app in Hguard as [Hguard|Hguard]; apply elem_of_app; [by left|right; by constructor].
Qed.

Lemma guarded_reachable s s' : Guarded s → rtc lock_step s s' → Guarded s'.
Proof. intros Hs. induction 1 as [|x y z Hstep Hrest IH]; [done|]. apply IH. by eapply guarded_step. Qed.

Lemma guarded_initial : Guarded (MkSystem ∅ [] []).
Proof.
  split_and!; cbn; [constructor| |by intros path owner ?%elem_of_nil].
  intros path. unfold lock_file. rewrite lookup_empty. cbn. split; [done|]. by intros ?%elem_of_nil.
Qed.

End exclusion.

(** ** The wait status *)

Lemma end_wait_accumulates now t : 0 ≤ accumulated t ≤ duration_max → accumulated t ≤ accumulated (end_wait now t) ≤ duration_max.
Proof.
  intros Hrange. unfold end_wait, duration_add, elapsed_since. destruct t as [[started|] total o]; cbn in *; lia.
Qed.

Lemma begin_wait_accumulated now o t : accumulated (begin_wait now o t) = accumulated t.
Proof. by destruct t as [[]]. Qed.

(** An acquisition that ends with the lock or with a cancellation leaves no wait
    running and only adds to the time waited; with the lock, the file names its
    owner. *)
Lemma acquire_ends_wait `{Json : LockJson} path owner polls waiting root t r root' t' :
  0 ≤ accumulated t ≤ duration_max → (waiting = false → active_since t = None) →
  acquire_loop path owner polls waiting root t = (Some r, root', t') → r ≠ LockFailed →
  active_since t' = None ∧ accumulated t ≤ accumulated t' ≤ duration_max ∧
  (r = LockAcquired → lock_file root' path = MkLockFile true (owner_to_json owner ++ [10])).
Proof.
  revert waiting root t. induction polls as [|poll polls IH]; intros waiting root t Hrange Hidle; [done|]. cbn [acquire_loop].
  assert (∀ now, active_since (end_if waiting now t) = None ∧ accumulated t ≤ accumulated (end_if waiting now t) ≤ duration_max) as Hend.
  { intros now. destruct waiting; cbn; [split; [done|by apply end_wait_accumulates]|]. split; [by apply Hidle|lia]. }
  destruct (cancelled_before poll).
  { intros [= <- <- <-] _. destruct (Hend (poll_now poll)). by split. }
  destruct (try_lock path owner (poll_fault poll) (poll_others poll root)) as [root1 [[|current]|]] eqn:Hlock; [| |by intros [= <- <- <-]].
  - intros [= <- <- <-] _. destruct (Hend (poll_now poll)). split; [done|]. split; [done|]. intros _.
    revert Hlock. unfold try_lock, take_lock, write_owner, unlock, write_bytes.
    destruct (poll_fault poll) as [[| | |n]|], (locked (lock_file (poll_others poll root) path)); try discriminate.
    intros [= <-]. unfold lock_file. by rewrite !lookup_insert_eq.
  - set (t1 := if waiting then t else _). assert (accumulated t1 = accumulated t) as Hsame.
    { subst t1. destruct waiting; [done|apply begin_wait_accumulated]. }
    destruct (cancelled_asleep poll) as [now|].
    + intros [= <- <- <-] _. rewrite <- Hsame. split; [done|]. split; [apply end_wait_accumulates; lia|done].
    + rewrite <- Hsame. intros Hrest Hok. apply IH in Hrest; [done|lia|done|done].
Qed.

Module OutputBaseLockExamples.
(** Owners as the sequence of their fields. *)
Definition fields_of (o : LockOwner) : list Z := [owner_pid o; owner_invocation o; acquired_at_ms o].
Definition owner_of (bytes : list Z) : option LockOwner :=
  match bytes with [pid; id; at_ms; _] => Some (MkLockOwner pid id at_ms) | _ => None end.

#[export] Instance field_json : LockJson.
Proof. refine {| owner_to_json := fields_of; owner_from_json := owner_of |}; by intros []. Defined.

Definition first_owner : LockOwner := MkLockOwner 41 7 1000.
Definition second_owner : LockOwner := MkLockOwner 42 8 2000.
Definition taken : LockRoot := (try_lock "a.lock" first_owner None ∅).1.
Definition first_holds : LockSystem := MkSystem taken [] [("a.lock", first_owner)].


(** A wait: the file is busy for one round, then free. *)
Example waits_for_release :
  acquire_loop "a.lock" second_owner
    [MkPoll id false None 100 None; MkPoll (unlock "a.lock") false None 350 None] false taken default_timing
  = (Some LockAcquired, <["a.lock" := MkLockFile true [42; 8; 2000; 10]]> taken, MkTiming None 250 None).
Proof. by vm_compute. Qed.

Example lock_pid_parsed :
  parse_bazel_lock_pid (bytes_of ("pid=12345" +:+ String (ascii_of_nat 10) "owner=client")) = Some 12345.
Proof. by vm_compute. Qed.
End OutputBaseLockExamples.
