(* ===== verification/Process.v ===== *)
(** * Beside the execution (crates/bazel-mcp-runner/src/version.rs, with the guard
    of cancel.rs, the named pipe of capture.rs and the progress of service.rs)

    [bazel --version] runs in a process group of its own, with bounded output and a
    time limit.  What the operating system does is an argument; the signals sent
    to the group are part of the result, so that it can be told what a probe
    leaves behind.  The named pipe an event stream may come through lives as long
    as the handle that owns it.  Progress is what a client sees meanwhile. *)

From S2P Require Import Prelude Collections Types Record Store Index Scheduler QueryPaging Text Outcome Execution Service OutputBaseLock.
#[global] Open Scope Z_scope.

(** ** The version probe *)

Definition VERSION_OUTPUT_LIMIT : nat := 64 * 1024.

Inductive VersionError (IoError : Type) : Type :=
| VersionSpawn (source : IoError)
| VersionTimeout
| VersionFailed (exit_code : option Z) (output : string)
| VersionUnrecognized (output : string)
| VersionRead (source : IoError).
Arguments VersionSpawn {IoError} _.
Arguments VersionTimeout {IoError}.
Arguments VersionFailed {IoError} _ _.
Arguments VersionUnrecognized {IoError} _.
Arguments VersionRead {IoError} _.

(** [ProcessGroupGuard]: the process group it still has to kill, if any. *)
Definition Guard : Type := option Z.
Definition guard_for_child (pid : option Z) : Guard :=
  match pid with Some pid => if pid <=? 2 ^ 31 - 1 then Some pid else None | None => None end.
Definition disarm (g : Guard) : Guard := None.
Definition drop_guard (g : Guard) : list ProcessSignal := match g with Some _ => [SigKill] | None => [] end.

(** What happens to the child: whether it starts, what waiting gives within the
    time limit ([None] when it elapses) and while it is being terminated, and what
    the two pipes carry. *)
Record ProbeRun (IoError : Type) : Type := MkProbe {
  spawned : result IoError (option Z);
  waited : option (result IoError ExitStatus);
  after_interrupt : option (result IoError ExitStatus);
  after_terminate : option (result IoError ExitStatus);
  after_kill : result IoError ExitStatus;
  probe_stdout : result IoError (list Z);
  probe_stderr : result IoError (list Z);
}.
Arguments MkProbe {IoError} _ _ _ _ _ _ _.
Arguments spawned {IoError} _.
Arguments waited {IoError} _.
Arguments after_interrupt {IoError} _.
Arguments after_terminate {IoError} _.
Arguments after_kill {IoError} _.
Arguments probe_stdout {IoError} _.
Arguments probe_stderr {IoError} _.

Section probe.
Context {IoError : Type}.

(** [read_bounded] and [join_output]. *)
Definition read_output (pipe : result IoError (list Z)) : result (VersionError IoError) (list Z) :=
  match pipe with Ok bytes => Ok (take VERSION_OUTPUT_LIMIT bytes) | Err source => Err (VersionRead source) end.

(** [detect_bazel_version] behind a child that exited. *)
Definition exited_version (status : ExitStatus) (run : ProbeRun IoError) : result (VersionError IoError) BazelVersion :=
  stdout ← read_output (probe_stdout run);
  stderr ← read_output (probe_stderr run);
  let output := normalized_output stdout stderr in
  if negb (status_success status) then Err (VersionFailed (status_code status) output)
  else ok_or (parse_bazel_version output) (VersionUnrecognized output).

(** [detect_bazel_version]: the signals sent to the group, and the version. *)
Definition detect_bazel_version (run : ProbeRun IoError) : list ProcessSignal * result (VersionError IoError) BazelVersion :=
  match spawned run with
  | Err source => ([], Err (VersionSpawn source))
  | Ok pid =>
      let guard := guard_for_child pid in
      match waited run with
      | Some (Err source) => (drop_guard guard, Err (VersionRead source))
      | None =>
          ((terminate_child (after_interrupt run) (after_terminate run) (after_kill run)).1 ++ drop_guard guard, Err VersionTimeout)
      | Some (Ok status) => (drop_guard (disarm guard), exited_version status run)
      end
  end.

End probe.

(** ** The named pipe *)

(** What exists in the directory of an invocation: the pipe and, emptied when it
    is opened, the evidence file. *)
Record FifoFiles : Type := MkFifoFiles { fifo_exists : bool; fifo_evidence : option (list Z) }.

Inductive FifoFault : Type := MkfifoFault | InspectFault | NotAFifo | ReaderFault | EvidenceFault.

(** Removing the pipe, which is attempted and may fail. *)
Definition remove_fifo (remove_fails : bool) (d : FifoFiles) : FifoFiles :=
  MkFifoFiles (fifo_exists d && remove_fails) (fifo_evidence d).

(** [PreparedFifoBepCapture::prepare]: the directory, and whether there is a handle. *)
Definition prepare_fifo (fault : option FifoFault) (remove_fails : bool) (d : FifoFiles) : FifoFiles * bool :=
  if fifo_exists d then (d, false)
  else
    match fault with
    | Some MkfifoFault => (d, false)
    | None => (MkFifoFiles true (Some []), true)
    | Some _ => (remove_fifo remove_fails (MkFifoFiles true (fifo_evidence d)), false)
    end.

(** The life of a handle: it is started or dropped; a started capture is finished
    or dropped. *)
Inductive FifoHandle : Type := PreparedFifo | StartedFifo | NoFifo.
#[export] Instance FifoHandle_eq_dec : EqDecision FifoHandle.
Proof. solve_decision. Defined.

Inductive fifo_step : FifoHandle * FifoFiles → FifoHandle * FifoFiles → Prop :=
| fifo_start d : fifo_step (PreparedFifo, d) (StartedFifo, d)
| fifo_written d bytes : fifo_step (StartedFifo, d) (StartedFifo, MkFifoFiles (fifo_exists d) (Some bytes))
| fifo_finish d : fifo_step (StartedFifo, d) (NoFifo, remove_fifo false d)
| fifo_drop h d : h ≠ NoFifo → fifo_step (h, d) (NoFifo, remove_fifo false d).

(** ** Progress *)

Record InvocationProgress : Type := MkProgress {
  progress_state : InvocationState; progress_phase : option string;
  progress_wait_ms : Z; progress_owner : option string;
}.

(** [invocation_state]. *)
Definition invocation_state (id : InvocationId) (scheduler : InvocationScheduler) (store : StoreInner) : result StoreError InvocationState :=
  match lifecycle_state id scheduler with
  | Some state => Ok state
  | None => header ← get_invocation_header store id; Ok (header_state header)
  end.

(** [invocation_progress], for the wait status of a live invocation. *)
Definition invocation_progress (now : Z) (id : InvocationId) (wait : option OutputBaseWaitTiming) (scheduler : InvocationScheduler)
    (store : StoreInner) : result StoreError InvocationProgress :=
  state ← invocation_state id scheduler store;
  let wait := match wait with Some timing => snapshot now timing | None => MkSnapshot false 0 None end in
  Ok (MkProgress state (if wait_active wait then Some "output_base_lock_wait" else None) (wait_elapsed_ms wait) (snapshot_owner wait)).

(** * Theorems *)

Section probe_spec.
Context {IoError : Type}.

(** The major version of a probe whose child exited with success, and nothing
    else, is what a check of the version sees. *)
Lemma detect_version_Ok (run : ProbeRun IoError) v : (detect_bazel_version run).2 = Ok v ↔
  ∃ pid status stdout stderr, spawned run = Ok pid ∧ waited run = Some (Ok status) ∧ status_success status = true ∧
    probe_stdout run = Ok stdout ∧ probe_stderr run = Ok stderr ∧
    parse_bazel_version (normalized_output (take VERSION_OUTPUT_LIMIT stdout) (take VERSION_OUTPUT_LIMIT stderr)) = Some v.
Proof.
  unfold detect_bazel_version, exited_version, read_output. split.
  - destruct (spawned run) as [pid|]; [|done]. destruct (waited run) as [[status|]|]; [|done|done]. cbn [snd].
    destruct (probe_stdout run) as [stdout|]; [|done]. cbn [mbind result_bind].
    destruct (probe_stderr run) as [stderr|]; [|done]. cbn [mbind result_bind].
    destruct (status_success status) eqn:Hs; [|done]. cbn [negb]. intros Hv%ok_or_Ok.
    by exists pid, status, stdout, stderr.
  - intros (pid & status & stdout & stderr & -> & -> & Hs & -> & -> & Hv). cbn [snd mbind result_bind]. by rewrite Hs, Hv.
Qed.

(** A probe leaves no process behind: a child that was seen to exit is not
    signalled, and the group of one that was not is killed at the end. *)
Lemma probe_leaves_nothing (run : ProbeRun IoError) pid : spawned run = Ok (Some pid) → pid ≤ 2 ^ 31 - 1 →
  let signals := (detect_bazel_version run).1 in
  match waited run with
  | Some (Ok _) => signals = []
  | _ => last signals = Some SigKill
  end.
Proof.
  intros Hspawned Hpid signals. unfold signals, detect_bazel_version. rewrite Hspawned. unfold guard_for_child.
  rewrite (proj2 (Z.leb_le _ _) Hpid). destruct (waited run) as [[]|]; [done|done|]. cbn [fst drop_guard]. apply last_snoc.
Qed.
End probe_spec.

(** No pipe outlives its handle: one that could not be prepared is gone, and so is
    one whose handle was finished or dropped, while an open handle has its pipe. *)
Lemma fifo_lives_with_handle fault d d' : fifo_exists d = false →
  (prepare_fifo fault false d = (d', false) → fifo_exists d' = false) ∧
  (prepare_fifo fault false d = (d', true) → ∀ h d'', rtc fifo_step (PreparedFifo, d') (h, d'') →
     fifo_exists d'' = bool_decide (h ≠ NoFifo)).
Proof.
  intros Hd. unfold prepare_fifo, remove_fifo. rewrite Hd. split.
  - destruct fault as [[]|]; intros [= <-]; cbn; done.
  - destruct fault as [[]|]; intros [= <-]. intros h d'' Hsteps.
    assert (∀ x y, rtc fifo_step x y → fifo_exists x.2 = bool_decide (x.1 ≠ NoFifo) → fifo_exists y.2 = bool_decide (y.1 ≠ NoFifo)) as Hinv.
    { intros x y Hxy. induction Hxy as [|x y z Hstep _ IH]; [done|]. intros Hx. apply IH. destruct Hstep; cbn in *; try done.
      - apply andb_false_r.
      - apply andb_false_r. }
    exact (Hinv _ _ Hsteps eq_refl).
Qed.

Module ProcessExamples.
Definition answered (code : Z) (out : string) : ProbeRun unit :=
  MkProbe (Ok (Some 7)) (Some (Ok (MkStatus (Some code) None))) None None (Err tt) (Ok (bytes_of out)) (Ok []).
Example probes :
  (detect_bazel_version (answered 0 "bazel 9.1.0")).2 = Ok (MkVersion "9.1.0" 9) ∧
  (detect_bazel_version (answered 1 "bazel 9.1.0")).2 = Err (VersionFailed (Some 1) "bazel 9.1.0") ∧
  (detect_bazel_version (answered 0 "bazel development version")).2 = Err (VersionUnrecognized "bazel development version") ∧
  detect_bazel_version (MkProbe (Ok (Some 7)) None None None (Ok (MkStatus None (Some 9))) (Ok []) (Ok [])) =
    ([SigInt; SigTerm; SigKill; SigKill; SigKill], Err (VersionTimeout (IoError:=unit))).
Proof. vm_compute. done. Qed.
End ProcessExamples.
