(* ===== verification/Coordination.v ===== *)
(** * Coordination of the processes that share a cache
    (crates/bazel-mcp-store/src/coordination.rs, and [refresh_index] and the order
    of writes in storage.rs and retention.rs)

    Every process that opens a store publishes its changes by renaming a marker
    file, [publisher.change], in one directory; another process compares the
    markers with those it has observed and reloads its index when they differ.
    The first part models the directory and the operations on it; the second the
    processes themselves, whose steps interleave: a write reaches the disk, is
    announced and is put in the index one step at a time, and a refresh reads the
    manifests one by one.  The third part is the registry of mutation locks. *)

From Stdlib Require Import Ascii.
From S2P Require Import Prelude Types Record Text.
#[global] Open Scope Z_scope.

Abbreviation Uuid := Z (only parsing).
Abbreviation Changes := (gmap Uuid Uuid) (only parsing).

Definition CHANGE_POLL_INTERVAL_US : Z := 1000.

(** ** The directory of changes *)

(** The text of a UUID: 36 hexadecimal digits and hyphens. *)
Class UuidText : Type := {
  uuid_to_string : Uuid → string;
  uuid_parse : string → option Uuid;
  uuid_roundtrip : ∀ u, uuid_parse (uuid_to_string u) = Some u;
  uuid_has_no_dot : ∀ u, (("."%char : ascii) ∉ String.list_ascii_of_string (uuid_to_string u));
  lock_is_no_uuid : uuid_parse "lock" = None;
}.

(** The names in the directory, in the order they are listed, and the lock files
    that are held. *)
Record ChangesDirectory : Type := MkDirectory { names : list string; held : list string }.

Section directory.
Context `{Uuids : UuidText}.

Definition marker_name (publisher change : Uuid) : string :=
  uuid_to_string publisher +:+ "." +:+ uuid_to_string change.
Definition publisher_lock (publisher : Uuid) : string := uuid_to_string publisher +:+ ".lock".

Definition parse_change_marker (name : string) : option (Uuid * Uuid) :=
  '(publisher, change) ← split_once "."%char name;
  publisher ← uuid_parse publisher;
  change ← uuid_parse change;
  Some (publisher, change).

Definition note_change (changes : Changes) (name : string) : Changes :=
  match parse_change_marker name with
  | Some (publisher, change) => <[publisher := change]> changes
  | None => changes
  end.
Definition read_changes (d : ChangesDirectory) : Changes := foldl note_change ∅ (names d).

(** [ChangePublisher::create], with a fresh publisher and change; the marker must
    be new. *)
Definition create_publisher (publisher change : Uuid) (d : ChangesDirectory) : option ChangesDirectory :=
  let lock := publisher_lock publisher in
  let present := if bool_decide (lock ∈ names d) then names d else names d ++ [lock] in
  if bool_decide (marker_name publisher change ∈ present) then None
  else Some (MkDirectory (present ++ [marker_name publisher change]) (lock :: held d)).

(** [ChangePublisher::publish]: the rename of the marker. *)
Definition publish_marker (publisher old new : Uuid) (d : ChangesDirectory) : option ChangesDirectory :=
  let marker := marker_name publisher old in
  let next := marker_name publisher new in
  if bool_decide (marker ∈ names d) then
    Some (MkDirectory ((filter (fun name => name ≠ marker ∧ name ≠ next) (names d)) ++ [next]) (held d))
  else None.

(** The publisher whose lock file has this name. *)
Definition lock_publisher (name : string) : option Uuid :=
  '(stem, extension) ← rsplit_once_str "." name;
  if bool_decide (extension = "lock") then uuid_parse stem else None.

Definition stale_publishers (d : ChangesDirectory) : list (Uuid * string) :=
  omap (fun name => publisher ← lock_publisher name;
                    if bool_decide (name ∈ held d) then None else Some (publisher, name)) (names d).

Definition stale_marker (stale : list Uuid) (name : string) : bool :=
  match parse_change_marker name with Some (publisher, _) => bool_decide (publisher ∈ stale) | None => false end.

(** [cleanup_stale_change_publishers]. *)
Definition cleanup_stale_change_publishers (d : ChangesDirectory) : ChangesDirectory :=
  let stale := stale_publishers d in
  let remaining := filter (fun name => stale_marker stale.*1 name = false) (names d) in
  MkDirectory (filter (fun name => name ∉ stale.*2) remaining) (held d).

(** [ChangeCoordinator::open]: the directory left and the changes observed. *)
Definition open_directory (publisher change : Uuid) (d : ChangesDirectory) : option (ChangesDirectory * Changes) :=
  d ← create_publisher publisher change d;
  let d := cleanup_stale_change_publishers d in
  Some (d, read_changes d).
End directory.

(** ** The coordinator of a process *)

(** [ChangeRefresh], with the load it waits for: the directories listed and not
    yet read, and the manifests read. *)
Record Refresh (V : Type) : Type := MkRefresh {
  refresh_changes : Changes;
  listed : gset InvocationId;
  loaded : gmap InvocationId V;
}.
Arguments MkRefresh {V}.
Arguments refresh_changes {V}.
Arguments listed {V}.
Arguments loaded {V}.

(** A process: its publisher's last change, what it has observed, its index, and
    the refresh under way, which holds the mutex of the coordinator. *)
Record Process (V : Type) : Type := MkProcess {
  marker : Uuid;
  observed : Changes;
  process_index : gmap InvocationId V;
  refreshing : option (Refresh V);
}.
Arguments MkProcess {V}.
Arguments marker {V}.
Arguments observed {V}.
Arguments process_index {V}.
Arguments refreshing {V}.

Section coordinator.
Context {V : Type}.
Implicit Types (P : Process V) (disk : gmap InvocationId V).

(** [publish]; waits while a refresh holds the mutex. *)
Definition publish_own (publisher change : Uuid) (P : Process V) : option (Process V) :=
  match refreshing P with
  | Some _ => None
  | None => Some (MkProcess change (<[publisher := change]> (observed P)) (process_index P) None)
  end.

(** [claim_check]: the new time of the next check, and whether it is claimed. *)
Definition claim_check (next_check_us now_us : Z) : Z * bool :=
  if next_check_us <=? now_us then (u64_add now_us CHANGE_POLL_INTERVAL_US, true) else (next_check_us, false).

(** [begin_refresh], with the listing that starts [load_index]. *)
Definition begin_refresh (changes : Changes) (disk : gmap InvocationId V) (force : bool) (P : Process V) : option (Process V) :=
  match refreshing P with
  | Some _ => None
  | None =>
      if negb force && bool_decide (changes = observed P) then None
      else Some (MkProcess (marker P) (observed P) (process_index P) (Some (MkRefresh changes (dom disk) ∅)))
  end.

(** Reading one manifest of the listing. *)
Definition read_listed (id : InvocationId) (disk : gmap InvocationId V) (R : Refresh V) : Refresh V :=
  MkRefresh (refresh_changes R) (listed R ∖ {[id]}) (partial_alter (fun _ => disk !! id) id (loaded R)).

(** [replace_from_disk] and [commit], once everything is read. *)
Definition commit_refresh (P : Process V) : option (Process V) :=
  R ← refreshing P;
  if bool_decide (listed R = ∅) then Some (MkProcess (marker P) (refresh_changes R) (loaded R) None) else None.

(** The error of a load drops the refresh. *)
Definition drop_refresh (P : Process V) : Process V := MkProcess (marker P) (observed P) (process_index P) None.

Definition set_refresh (R : Refresh V) (P : Process V) : Process V :=
  MkProcess (marker P) (observed P) (process_index P) (Some R).

Definition set_index (id : InvocationId) (value : option V) (P : Process V) : Process V :=
  MkProcess (marker P) (observed P) (partial_alter (fun _ => value) id (process_index P)) (refreshing P).

(** ** The processes *)

(** How far a write has come.  [create_invocation], [transition],
    [finish_invocation] and [mutate] announce it and then change the index;
    [reclaim_terminal] and [recover_orphaned_invocations] change the index and
    then announce it. *)
Inductive WriteStage : Type := Persisted | Announced | Indexed.
Record Write : Type := MkWrite { writer : Uuid; written_value : option V; stage : WriteStage }.

Record CacheSystem : Type := MkCoordination {
  changes : Changes;
  manifests : gmap InvocationId V;
  writes : gmap InvocationId Write;
  processes : gmap Uuid (Process V);
  used : gset Uuid;
  unannounced : gset InvocationId;
}.

Definition initial_system : CacheSystem := MkCoordination ∅ ∅ ∅ ∅ ∅ ∅.

(** The publishers whose lease is held. *)
Definition live_changes (s : CacheSystem) : Changes :=
  filter (fun entry => is_Some (processes s !! entry.1)) (changes s).

(** A new process: it publishes its marker, removes those of the processes that
    are gone, and loads its index. *)
Definition open_process (publisher change : Uuid) (s : CacheSystem) : CacheSystem :=
  let changes := <[publisher := change]> (live_changes s) in
  MkCoordination changes (manifests s) (writes s)
    (<[publisher := MkProcess change ∅ ∅ (Some (MkRefresh changes (dom (manifests s)) ∅))]> (processes s))
    ({[publisher; change]} ∪ used s) (unannounced s).

Definition with_process (publisher : Uuid) (P : Process V) (s : CacheSystem) : CacheSystem :=
  MkCoordination (changes s) (manifests s) (writes s) (<[publisher := P]> (processes s)) (used s) (unannounced s).

Definition persist_write (publisher : Uuid) (id : InvocationId) (value : option V) (s : CacheSystem) : CacheSystem :=
  MkCoordination (changes s) (partial_alter (fun _ => value) id (manifests s))
    (<[id := MkWrite publisher value Persisted]> (writes s)) (processes s) (used s) (unannounced s).

(** The announcement of a set of writes by one change. *)
Definition announce (publisher change : Uuid) (P : Process V) (writes' : gmap InvocationId Write)
    (announced : gset InvocationId) (s : CacheSystem) : CacheSystem :=
  MkCoordination (<[publisher := change]> (changes s)) (manifests s) writes' (<[publisher := P]> (processes s))
    ({[change]} ∪ used s) (unannounced s ∖ announced).

Definition index_write (publisher : Uuid) (P : Process V) (id : InvocationId) (w : Write) (next : option Write) (s : CacheSystem) : CacheSystem :=
  MkCoordination (changes s) (manifests s) (partial_alter (fun _ => next) id (writes s))
    (<[publisher := set_index id (written_value w) P]> (processes s)) (used s) (unannounced s).

(** A write whose announcement fails, or whose process dies, is not announced. *)
Definition abandon_write (id : InvocationId) (s : CacheSystem) : CacheSystem :=
  MkCoordination (changes s) (manifests s) (delete id (writes s)) (processes s) (used s) ({[id]} ∪ unannounced s).

Definition crash (publisher : Uuid) (s : CacheSystem) : CacheSystem :=
  MkCoordination (changes s) (manifests s) (filter (fun entry => writer entry.2 ≠ publisher) (writes s))
    (delete publisher (processes s)) (used s)
    (dom (filter (fun entry => writer entry.2 = publisher) (writes s)) ∪ unannounced s).

(** The steps of all the processes.  An invocation has one writer at a time, since
    its mutation lock is held from before the write reaches the disk; [late] tells
    whether writes may enter the index before they are announced. *)
Inductive coordination_step (late : bool) : CacheSystem → CacheSystem → Prop :=
| open_step s publisher change :
    publisher ∉ used s → change ∉ used s → publisher ≠ change →
    coordination_step late s (open_process publisher change s)
| persist_step s publisher id value :
    is_Some (processes s !! publisher) → writes s !! id = None →
    coordination_step late s (persist_write publisher id value s)
| announce_step s publisher P P' change id value :
    processes s !! publisher = Some P → writes s !! id = Some (MkWrite publisher value Persisted) →
    change ∉ used s → publish_own publisher change P = Some P' →
    coordination_step late s
      (announce publisher change P' (<[id := MkWrite publisher value Announced]> (writes s)) {[id]} s)
| index_step s publisher P id value :
    processes s !! publisher = Some P → writes s !! id = Some (MkWrite publisher value Announced) →
    coordination_step late s (index_write publisher P id (MkWrite publisher value Announced) None s)
| late_index_step s publisher P id value :
    late = true → processes s !! publisher = Some P → writes s !! id = Some (MkWrite publisher value Persisted) →
    coordination_step late s
      (index_write publisher P id (MkWrite publisher value Persisted) (Some (MkWrite publisher value Indexed)) s)
| late_announce_step s publisher P P' change id value :
    late = true → processes s !! publisher = Some P → writes s !! id = Some (MkWrite publisher value Indexed) →
    change ∉ used s → publish_own publisher change P = Some P' →
    coordination_step late s (announce publisher change P' (delete id (writes s)) {[id]} s)
| begin_step s publisher P P' force :
    processes s !! publisher = Some P → begin_refresh (changes s) (manifests s) force P = Some P' →
    coordination_step late s (with_process publisher P' s)
| read_step s publisher P R id :
    processes s !! publisher = Some P → refreshing P = Some R → id ∈ listed R →
    coordination_step late s (with_process publisher (set_refresh (read_listed id (manifests s) R) P) s)
| commit_step s publisher P P' :
    processes s !! publisher = Some P → commit_refresh P = Some P' →
    coordination_step late s (with_process publisher P' s)
| drop_refresh_step s publisher P :
    processes s !! publisher = Some P → observed P ≠ ∅ →
    coordination_step late s (with_process publisher (drop_refresh P) s)
| abandon_step s id :
    is_Some (writes s !! id) →
    coordination_step late s (abandon_write id s)
| crash_step s publisher :
    coordination_step late s (crash publisher s).
End coordinator.
Arguments Write : clear implicits.
Arguments CacheSystem : clear implicits.

(** ** Mutation locks *)

(** [LeaseManager::mutation_locks]: the lock last made for an invocation, and the
    tasks that keep a strong reference to a lock, each with its invocation. *)
Record LockRegistry : Type := MkRegistry {
  mutation_locks : gmap InvocationId Z;
  references : list (InvocationId * Z);
  next_lock : Z;
}.

(** [mutation_lock]: the lock to hold, and the registry with the new reference. *)
Definition mutation_lock (id : InvocationId) (registry : LockRegistry) : LockRegistry * Z :=
  let locks := filter (fun entry => entry.2 ∈ (references registry).*2) (mutation_locks registry) in
  match locks !! id with
  | Some lock => (MkRegistry locks ((id, lock) :: references registry) (next_lock registry), lock)
  | None =>
      let lock := next_lock registry in
      (MkRegistry (<[id := lock]> locks) ((id, lock) :: references registry) (lock + 1), lock)
  end.

Inductive registry_step : LockRegistry → LockRegistry → Prop :=
| request_lock id registry : registry_step registry (mutation_lock id registry).1
| drop_lock locks before reference after next :
    registry_step (MkRegistry locks (before ++ reference :: after) next) (MkRegistry locks (before ++ after) next).

(** * Theorems *)

(** ** An index that has observed every change is the disk *)

Section coherence.
Context {V : Type}.
Implicit Types (s : CacheSystem V) (P : Process V) (R : Refresh V).

(** A write that is over, or that other processes can learn of. *)
Definition write_settled (ws : gmap InvocationId (Write V)) (id : InvocationId) : Prop :=
  ws !! id = None ∨ ∃ publisher value, ws !! id = Some (MkWrite publisher value Announced).
Definition settled_for (publisher : Uuid) (ws : gmap InvocationId (Write V)) (id : InvocationId) : Prop :=
  ws !! id = None ∨ ∃ other value, other ≠ publisher ∧ ws !! id = Some (MkWrite other value Announced).

Definition known (uuids : gset Uuid) (m : Changes) : Prop := ∀ p c, m !! p = Some c → p ∈ uuids ∧ c ∈ uuids.

Definition IndexCurrent s (publisher : Uuid) P : Prop :=
  observed P = changes s → ∀ id, (id ∉ unannounced s) → settled_for publisher (writes s) id →
  process_index P !! id = manifests s !! id.
Definition LoadCurrent s R : Prop :=
  refresh_changes R = changes s → ∀ id, (id ∉ unannounced s) → write_settled (writes s) id → (id ∉ listed R) →
  loaded R !! id = manifests s !! id.

Record ProcessCoherent s (publisher : Uuid) P : Prop := {
  own_marker : changes s !! publisher = Some (marker P);
  observed_known : known (used s) (observed P);
  observed_own : observed P = ∅ ∧ is_Some (refreshing P) ∨ observed P !! publisher = Some (marker P);
  index_current : IndexCurrent s publisher P;
  refresh_known : ∀ R, refreshing P = Some R → known (used s) (refresh_changes R);
  refresh_own : ∀ R, refreshing P = Some R → refresh_changes R !! publisher = Some (marker P);
  load_current : ∀ R, refreshing P = Some R → LoadCurrent s R;
}.

Record Coherent s : Prop := {
  writes_on_disk : ∀ id w, writes s !! id = Some w → manifests s !! id = written_value w;
  changes_known : known (used s) (changes s);
  processes_coherent : ∀ publisher P, processes s !! publisher = Some P → ProcessCoherent s publisher P;
}.

Lemma known_mono (us us' : gset Uuid) m : us ⊆ us' → known us m → known us' m.
Proof. intros Hsub Hknown p c [Hp Hc]%Hknown. split; by apply Hsub. Qed.

Lemma known_insert us p c m : known us m → p ∈ us → c ∈ us → known us (<[p := c]> m).
Proof. intros Hknown Hp Hc q d [[<- <-]|[_ Hq]]%lookup_insert_Some; [done|by apply Hknown]. Qed.

(** A step of another process that publishes nothing. *)
Lemma process_coherent_quiet s s' publisher P : ProcessCoherent s publisher P →
  changes s' = changes s → used s' = used s →
  (∀ id, (id ∉ unannounced s') → write_settled (writes s') id →
     (id ∉ unannounced s) ∧ write_settled (writes s) id ∧ manifests s' !! id = manifests s !! id) →
  (∀ id, (id ∉ unannounced s') → settled_for publisher (writes s') id →
     (id ∉ unannounced s) ∧ settled_for publisher (writes s) id ∧ manifests s' !! id = manifests s !! id) →
  ProcessCoherent s' publisher P.
Proof.
  intros [] Hchanges Hused Hsettled Hsettled_for. split; rewrite ?Hchanges, ?Hused; try done.
  - intros Hobserved id Hid Hsettle. destruct (Hsettled_for id Hid Hsettle) as (Hid' & Hsettle' & ->).
    apply index_current0; [congruence|done|done].
  - intros R HR Hread id Hid Hsettle Hlisted. destruct (Hsettled id Hid Hsettle) as (Hid' & Hsettle' & ->).
    apply (load_current0 R HR); [congruence|done|done|done].
Qed.

(** A step of another process that publishes a fresh change. *)
Lemma process_coherent_fresh s s' publisher P q u : ProcessCoherent s publisher P → used s ⊆ used s' →
  changes s' !! publisher = changes s !! publisher →
  (changes s' !! q = Some u ∧ (q ∉ used s ∨ u ∉ used s)) →
  ProcessCoherent s' publisher P.
Proof.
  intros [] Hused Hown [Hq Hfresh].
  assert (∀ m, known (used s) m → m ≠ changes s') as Hdiffer.
  { intros m Hm ->. apply Hm in Hq as [? ?]. by destruct Hfresh. }
  split.
  - by rewrite Hown.
  - by eapply known_mono.
  - done.
  - intros Hobserved. exfalso. by eapply Hdiffer.
  - intros R HR. eapply known_mono; [done|]. by apply refresh_known0.
  - done.
  - intros R HR Hread. exfalso. by eapply (Hdiffer _ (refresh_known0 R HR)).
Qed.

(** A process about to load: nothing is read, and everything on disk is listed. *)
Lemma fresh_load_current s m : LoadCurrent s (MkRefresh m (dom (manifests s)) ∅).
Proof. intros _ id _ _ Hlisted. cbn in *. rewrite lookup_empty. symmetry. by apply not_elem_of_dom. Qed.

Lemma coherent_open s publisher change : Coherent s → (publisher ∉ used s) → (change ∉ used s) →
  Coherent (open_process publisher change s).
Proof.
  intros [Hwrites Hknown Hprocesses] Hpublisher Hchange.
  assert (known ({[publisher; change]} ∪ used s) (<[publisher := change]> (live_changes s))) as Hknown'.
  { apply known_insert; [|set_solver|set_solver]. intros p c [Hp _]%map_lookup_filter_Some.
    apply Hknown in Hp. set_solver. }
  split; cbn; [done|done|].
  intros p P [[<- <-]|[Hne Hp]]%lookup_insert_Some.
  - split; cbn.
    + by rewrite lookup_insert_eq.
    + intros ? ?. by rewrite lookup_empty.
    + left. by split; [|eexists].
    + intros Hempty. exfalso. cbn in Hempty. by apply (insert_non_empty (live_changes s) publisher change).
    + intros R [= <-]. done.
    + intros R [= <-]. cbn. by rewrite lookup_insert_eq.
    + intros R [= <-]. apply (fresh_load_current (open_process publisher change s)).
  - pose proof (Hprocesses p P Hp) as Hcoherent.
    eapply (process_coherent_fresh s _ p P publisher change); [done| | |split; [by apply lookup_insert_eq|by left]]; cbn.
    + set_solver.
    + rewrite lookup_insert_ne by done. unfold live_changes. rewrite map_lookup_filter.
      rewrite (own_marker _ _ _ Hcoherent). cbn. rewrite option_guard_True; [done|by eexists].
Qed.

Lemma coherent_persist s publisher id value : Coherent s → writes s !! id = None → Coherent (persist_write publisher id value s).
Proof.
  intros [Hwrites Hknown Hprocesses] Hfree. split; cbn; [|done|].
  - intros other w [[<- <-]|[Hne Hw]]%lookup_insert_Some; [by rewrite lookup_partial_alter_eq|].
    rewrite lookup_partial_alter_ne by done. by apply Hwrites.
  - intros p P Hp. apply (process_coherent_quiet s); [by apply Hprocesses|done|done| |]; cbn.
    + intros other Hother [Hsettled|(q & v & Hsettled)];
        (destruct (decide (other = id)) as [->|Hne]; [rewrite lookup_insert_eq in Hsettled; discriminate|]);
        rewrite lookup_insert_ne in Hsettled by done; rewrite lookup_partial_alter_ne by done; split_and!; try done; [by left|right; eauto].
    + intros other Hother [Hsettled|(q & v & Hq & Hsettled)];
        (destruct (decide (other = id)) as [->|Hne]; [rewrite lookup_insert_eq in Hsettled; discriminate|]);
        rewrite lookup_insert_ne in Hsettled by done; rewrite lookup_partial_alter_ne by done; split_and!; try done; [by left|right; eauto].
Qed.

(** What a process that publishes learns of its own change. *)
Lemma observed_publish s publisher P change : ProcessCoherent s publisher P → refreshing P = None →
  <[publisher := change]> (observed P) = <[publisher := change]> (changes s) → observed P = changes s.
Proof.
  intros [] Hidle Heq. destruct observed_own0 as [[_ [R HR]]|Hown]; [congruence|].
  apply map_eq. intros p. destruct (decide (p = publisher)) as [->|Hne]; [congruence|].
  apply (f_equal (lookup p)) in Heq. by rewrite !lookup_insert_ne in Heq.
Qed.

Lemma coherent_announce s publisher P P' change id value : Coherent s →
  processes s !! publisher = Some P → writes s !! id = Some (MkWrite publisher value Persisted) →
  (change ∉ used s) → publish_own publisher change P = Some P' →
  Coherent (announce publisher change P' (<[id := MkWrite publisher value Announced]> (writes s)) {[id]} s).
Proof.
  intros [Hwrites Hknown Hprocesses] HP Hwrite Hchange Hpublish. unfold publish_own in Hpublish.
  destruct (refreshing P) as [|] eqn:Hidle; [done|]. injection Hpublish as <-.
  pose proof (Hprocesses publisher P HP) as Hown.
  assert (publisher ∈ used s) as Hin by (by apply (Hknown publisher (marker P)), own_marker).
  split; cbn.
  - intros other w [[<- <-]|[Hne Hw]]%lookup_insert_Some; [by apply (Hwrites _ _ Hwrite)|by apply Hwrites].
  - apply known_insert; [|set_solver|set_solver]. eapply known_mono; [|done]. set_solver.
  - intros p Q [[<- <-]|[Hne Hp]]%lookup_insert_Some.
    + split; cbn.
      * by rewrite lookup_insert_eq.
      * apply known_insert; [|set_solver|set_solver]. eapply known_mono; [|by apply (observed_known _ _ _ Hown)]. set_solver.
      * right. by rewrite lookup_insert_eq.
      * intros Heq other Hother Hsettled. cbn in *. apply (observed_publish s) in Heq; [|done|done].
        destruct (decide (other = id)) as [->|Hne].
        { exfalso. destruct Hsettled as [Hsettled|(q & v & Hq & Hsettled)]; rewrite lookup_insert_eq in Hsettled; congruence. }
        apply (index_current _ _ _ Hown); [done|set_solver|]. unfold settled_for in *. by rewrite lookup_insert_ne in Hsettled.
      * done.
      * done.
      * done.
    + eapply (process_coherent_fresh s _ p Q publisher change); [by apply Hprocesses| | |split; [by apply lookup_insert_eq|by right]]; cbn.
      * set_solver.
      * by rewrite lookup_insert_ne.
Qed.

Lemma coherent_index s publisher P id value : Coherent s →
  processes s !! publisher = Some P → writes s !! id = Some (MkWrite publisher value Announced) →
  Coherent (index_write publisher P id (MkWrite publisher value Announced) None s).
Proof.
  intros [Hwrites Hknown Hprocesses] HP Hwrite.
  assert (∀ other, write_settled (delete id (writes s)) other → write_settled (writes s) other) as Hsettled.
  { intros other. unfold write_settled. destruct (decide (other = id)) as [->|Hne]; [eauto|by rewrite lookup_delete_ne]. }
  split; cbn; [|done|].
  - intros other w [Hne Hw]%lookup_delete_Some. by apply Hwrites.
  - intros p Q [[<- <-]|[Hne Hp]]%lookup_insert_Some.
    + destruct (Hprocesses publisher P HP) as [Hmarker Hobserved Hown Hindex Hrefresh Hrefresh_own Hload].
      split; cbn; try done.
      * intros Heq other Hother Hsettle. cbn in *. destruct (decide (other = id)) as [->|Hne].
        { rewrite lookup_partial_alter_eq. symmetry. by apply (Hwrites _ _ Hwrite). }
        rewrite lookup_partial_alter_ne by done. apply Hindex; [done|done|]. unfold settled_for in *. by rewrite lookup_partial_alter_ne in Hsettle.
      * intros R HR Heq other Hother Hsettle. apply (Hload R HR Heq other Hother). by apply Hsettled.
    + apply (process_coherent_quiet s); [by apply Hprocesses|done|done| |]; cbn.
      * intros other Hother Hsettle. split_and!; [done|by apply Hsettled|done].
      * intros other Hother Hsettle. split_and!; [done| |done]. unfold settled_for in *.
        destruct (decide (other = id)) as [->|Hneq]; [right; by exists publisher, value|by rewrite lookup_partial_alter_ne in Hsettle].
Qed.

(** A process that changes what it holds of a refresh and nothing else. *)
Lemma coherent_process s publisher P : Coherent s → ProcessCoherent s publisher P → Coherent (with_process publisher P s).
Proof.
  intros [Hwrites Hknown Hprocesses] HP. split; cbn; [done|done|].
  intros p Q [[<- <-]|[Hne Hp]]%lookup_insert_Some; [by destruct HP|by destruct (Hprocesses p Q Hp)].
Qed.

Lemma coherent_begin s publisher P P' force : Coherent s → processes s !! publisher = Some P →
  begin_refresh (changes s) (manifests s) force P = Some P' → Coherent (with_process publisher P' s).
Proof.
  intros Hs HP. unfold begin_refresh. destruct (refreshing P) as [|] eqn:Hidle; [done|].
  destruct (negb force && _); [done|]. intros [= <-]. apply coherent_process; [done|].
  destruct (processes_coherent _ Hs _ _ HP) as [Hmarker Hobserved Hown Hindex _ _ _].
  split; cbn; try done.
  - destruct Hown as [[_ [R HR]]|Hown]; [congruence|by right].
  - intros R [= <-]. apply Hs.
  - intros R [= <-]. done.
  - intros R [= <-]. apply fresh_load_current.
Qed.

Lemma coherent_read s publisher P R id : Coherent s → processes s !! publisher = Some P → refreshing P = Some R →
  Coherent (with_process publisher (set_refresh (read_listed id (manifests s) R) P) s).
Proof.
  intros Hs HP HR. apply coherent_process; [done|].
  destruct (processes_coherent _ Hs _ _ HP) as [Hmarker Hobserved Hown Hindex Hrefresh Hrefresh_own Hload].
  split; cbn; try done.
  - destruct Hown as [[Hempty _]|Hown]; [left; by split; [|eexists]|by right].
  - intros R' [= <-]. exact (Hrefresh R HR).
  - intros R' [= <-]. exact (Hrefresh_own R HR).
  - intros R' [= <-] Heq other Hother Hsettled Hlisted. cbn in *.
    destruct (decide (other = id)) as [->|Hne]; [by rewrite lookup_partial_alter_eq|].
    rewrite lookup_partial_alter_ne by done. apply (Hload R HR Heq other Hother Hsettled). set_solver.
Qed.

Lemma settled_for_settled publisher (ws : gmap InvocationId (Write V)) id : settled_for publisher ws id → write_settled ws id.
Proof. intros [|(q & v & _ & ?)]; [by left|right; eauto]. Qed.

Lemma coherent_commit s publisher P P' : Coherent s → processes s !! publisher = Some P → commit_refresh P = Some P' →
  Coherent (with_process publisher P' s).
Proof.
  intros Hs HP. unfold commit_refresh. destruct (refreshing P) as [R|] eqn:HR; [|done]. cbn.
  case_bool_decide as Hdone; [|done]. intros [= <-]. apply coherent_process; [done|].
  destruct (processes_coherent _ Hs _ _ HP) as [Hmarker Hobserved Hown Hindex Hrefresh Hrefresh_own Hload].
  split; cbn; try done.
  - by apply Hrefresh.
  - right. by apply Hrefresh_own.
  - intros Heq id Hid Hsettled. cbn in *. apply (Hload R HR Heq id Hid); [by eapply settled_for_settled|set_solver].
Qed.

Lemma coherent_drop s publisher P : Coherent s → processes s !! publisher = Some P → observed P ≠ ∅ →
  Coherent (with_process publisher (drop_refresh P) s).
Proof.
  intros Hs HP Hopen. apply coherent_process; [done|].
  destruct (processes_coherent _ Hs _ _ HP) as [Hmarker Hobserved Hown Hindex Hrefresh Hrefresh_own Hload].
  split; cbn; try done. by destruct Hown as [[]|]; [|right].
Qed.

(** Writes that nobody will announce. *)
Lemma coherent_forget s s' : Coherent s → changes s' = changes s → manifests s' = manifests s → used s' = used s →
  writes s' ⊆ writes s → processes s' ⊆ processes s →
  (∀ id, (id ∉ unannounced s') → (id ∉ unannounced s) ∧ writes s' !! id = writes s !! id) → Coherent s'.
Proof.
  intros [Hwrites Hknown Hprocesses] Hchanges Hmanifests Hused Hsub Hprocs Hforget. split.
  - intros id w Hw. rewrite Hmanifests. apply Hwrites. by eapply lookup_weaken.
  - by rewrite Hchanges, Hused.
  - intros p P Hp. apply (process_coherent_quiet s); [by eapply Hprocesses, lookup_weaken|done|done| |];
      intros id [Hid Hsame]%Hforget; unfold write_settled, settled_for; rewrite Hsame, Hmanifests; by auto.
Qed.

Lemma coherent_abandon s id : Coherent s → Coherent (abandon_write id s).
Proof.
  intros Hs. apply (coherent_forget s); cbn; try done; [apply delete_subseteq|].
  intros other Hother. split; [set_solver|]. rewrite lookup_delete_ne; [done|set_solver].
Qed.

Lemma coherent_crash s publisher : Coherent s → Coherent (crash publisher s).
Proof.
  intros Hs. apply (coherent_forget s); cbn; try done; [apply map_filter_subseteq|apply delete_subseteq|].
  intros id Hid. split; [set_solver|]. apply not_elem_of_union in Hid as [Hid _].
  apply not_elem_of_dom, map_lookup_filter_None in Hid. rewrite map_lookup_filter.
  destruct (writes s !! id) as [w|] eqn:Hw; [|done]. cbn. destruct Hid as [Hid|Hid]; [done|].
  rewrite option_guard_True; [done|]. by apply (Hid w).
Qed.

Lemma coherent_step s s' : coordination_step false s s' → Coherent s → Coherent s'.
Proof.
  destruct 1; intros Hs; try done;
    eauto using coherent_open, coherent_persist, coherent_announce, coherent_index, coherent_begin, coherent_read,
      coherent_commit, coherent_drop, coherent_abandon, coherent_crash.
Qed.

Lemma coherent_reachable s s' : Coherent s → rtc (coordination_step false) s s' → Coherent s'.
Proof. intros Hs. induction 1 as [|x y z Hstep Hrest IH]; [done|]. apply IH. by eapply coherent_step. Qed.

Lemma coherent_initial : Coherent (initial_system (V := V)).
Proof. split; cbn; intros ? ?; by rewrite lookup_empty. Qed.

End coherence.

(** ** The directory and the changes it holds *)

Section directory_theorems.
Context `{Uuids : UuidText}.

Lemma split_once_first (c : ascii) a b : (c ∉ String.list_ascii_of_string a) → split_once c (a +:+ String c b) = Some (a, b).
Proof.
  induction a as [|x a IH]; intros Hfree.
  - change (split_once c (String c b) = Some ("", b)). cbn [split_once]. by destruct (Ascii.eqb_spec c c).
  - cbn in Hfree. apply not_elem_of_cons in Hfree as [Hne Hfree].
    change (split_once c (String x (a +:+ String c b)) = Some (String x a, b)).
    cbn [split_once]. destruct (Ascii.eqb_spec x c) as [->|]; [done|]. by rewrite (IH Hfree).
Qed.

Lemma parse_marker p c : parse_change_marker (marker_name p c) = Some (p, c).
Proof.
  unfold parse_change_marker, marker_name. change ("." +:+ uuid_to_string c) with (String "."%char (uuid_to_string c)).
  rewrite split_once_first by apply uuid_has_no_dot. cbn. rewrite !uuid_roundtrip. done.
Qed.

Lemma parse_lock p : parse_change_marker (publisher_lock p) = None.
Proof.
  unfold parse_change_marker, publisher_lock. change ".lock" with (String "."%char "lock").
  rewrite split_once_first by apply uuid_has_no_dot. cbn. rewrite uuid_roundtrip, lock_is_no_uuid. done.
Qed.

Lemma lock_publisher_of p : lock_publisher (publisher_lock p) = Some p.
Proof.
  assert (∀ a, rsplit_once_str "." (a +:+ ".lock") = Some (a, "lock")) as Hsplit.
  { induction a as [|x a IH]; [done|]. change (rsplit_once_str "." (String x (a +:+ ".lock")) = Some (String x a, "lock")).
    cbn [rsplit_once_str]. by rewrite IH. }
  unfold lock_publisher, publisher_lock. rewrite Hsplit. cbn. apply uuid_roundtrip.
Qed.

(** A directory holds the changes of a map: one marker and one lock file per
    publisher, each with its canonical name. *)
Record Represents (d : ChangesDirectory) (m : Changes) : Prop := {
  marker_listed : ∀ p c, marker_name p c ∈ names d ↔ m !! p = Some c;
  marker_canonical : ∀ name p c, name ∈ names d → parse_change_marker name = Some (p, c) → name = marker_name p c;
  lock_listed : ∀ p, publisher_lock p ∈ names d ↔ is_Some (m !! p);
  lock_canonical : ∀ name p, name ∈ names d → lock_publisher name = Some p → name = publisher_lock p;
}.

(** Reading a list of names, whatever their order, when no publisher has two
    changes. *)
Lemma lookup_note_changes l :
  (∀ name name' p c c', name ∈ l → name' ∈ l → parse_change_marker name = Some (p, c) → parse_change_marker name' = Some (p, c') → c = c') →
  ∀ p c, foldl note_change ∅ l !! p = Some c ↔ ∃ name, name ∈ l ∧ parse_change_marker name = Some (p, c).
Proof.
  induction l as [|name l IH] using rev_ind; intros Hfun p c.
  - cbn. rewrite lookup_empty. split; [done|]. by intros (? & ?%elem_of_nil & _).
  - rewrite foldl_snoc. unfold note_change at 1.
    assert (∀ p c, foldl note_change ∅ l !! p = Some c ↔ ∃ name, name ∈ l ∧ parse_change_marker name = Some (p, c)) as IH'.
    { apply IH. intros n n' q a b Hn Hn'. apply Hfun; apply elem_of_app; by left. }
    setoid_rewrite elem_of_app. setoid_rewrite list_elem_of_singleton.
    destruct (parse_change_marker name) as [[q d]|] eqn:Hparse.
    + rewrite lookup_insert_Some, IH'. split.
      * intros [[<- <-]|[_ (n & Hn & Hn')]]; [by eauto|by eauto].
      * intros (n & [Hn| ->] & Hn'); [|left; by simplify_eq]. destruct (decide (q = p)) as [->|]; [left|right; by eauto].
        split; [done|]. apply (Hfun name n p); [set_solver|set_solver|done|done].
    + rewrite IH'. split; intros (n & Hn & Hn'); exists n; [by split; [left|]|]. destruct Hn as [| ->]; [done|congruence].
Qed.

Lemma represents_read d m : Represents d m → read_changes d = m.
Proof.
  intros Hd. apply map_eq. intros p. apply option_eq. intros c. unfold read_changes. rewrite lookup_note_changes.
  - rewrite <- (marker_listed _ _ Hd). split.
    + intros (name & Hin & Hparse). by rewrite <- (marker_canonical _ _ Hd name p c).
    + intros Hin. exists (marker_name p c). by rewrite parse_marker.
  - intros name name' q a b Hn Hn' Ha Hb. apply (marker_canonical _ _ Hd) in Ha as ->; [|done].
    apply (marker_canonical _ _ Hd) in Hb as ->; [|done]. apply (marker_listed _ _ Hd) in Hn, Hn'. congruence.
Qed.

Lemma marker_name_inj p c p' c' : marker_name p c = marker_name p' c' → p = p' ∧ c = c'.
Proof. intros Heq%(f_equal parse_change_marker). rewrite !parse_marker in Heq. by simplify_eq. Qed.

Lemma marker_is_no_lock p c q : marker_name p c ≠ publisher_lock q.
Proof. intros Heq%(f_equal parse_change_marker). by rewrite parse_marker, parse_lock in Heq. Qed.

Lemma lock_name_inj p q : publisher_lock p = publisher_lock q → p = q.
Proof. intros Heq%(f_equal lock_publisher). rewrite !lock_publisher_of in Heq. by simplify_eq. Qed.

Lemma rsplit_no_dot b : ((("."%char : ascii) ∉ String.list_ascii_of_string b)) → rsplit_once_str "." b = None.
Proof.
  induction b as [|x b IH]; [done|]. cbn [String.list_ascii_of_string]. intros [Hne Hfree]%not_elem_of_cons.
  cbn [rsplit_once_str]. rewrite (IH Hfree).
  destruct (strip_prefix "." (String x b)) as [r|] eqn:Hstrip; [|done].
  apply strip_prefix_Some in Hstrip. injection Hstrip as Hx _. by destruct Hne.
Qed.

Lemma rsplit_last a b : ((("."%char : ascii) ∉ String.list_ascii_of_string b)) → rsplit_once_str "." (a +:+ "." +:+ b) = Some (a, b).
Proof.
  intros Hfree. induction a as [|x a IH].
  - change (rsplit_once_str "." (String "."%char b) = Some ("", b)). cbn [rsplit_once_str]. rewrite rsplit_no_dot by done.
    assert (strip_prefix "." (String "."%char b) = Some b) as -> by (by apply strip_prefix_Some). done.
  - change (rsplit_once_str "." (String x (a +:+ "." +:+ b)) = Some (String x a, b)). cbn [rsplit_once_str]. by rewrite IH.
Qed.

Lemma marker_no_publisher p c : lock_publisher (marker_name p c) = None.
Proof.
  unfold lock_publisher, marker_name. rewrite rsplit_last by apply uuid_has_no_dot. cbn.
  case_bool_decide as Hlock; [|done]. exfalso. pose proof (uuid_roundtrip c) as Hparse.
  rewrite Hlock, lock_is_no_uuid in Hparse. done.
Qed.

Lemma represents_create d m u c : Represents d m → m !! u = None →
  ∃ d', create_publisher u c d = Some d' ∧ held d' = publisher_lock u :: held d ∧ Represents d' (<[u := c]> m).
Proof.
  intros Hd Hfresh. pose proof Hd as [Hmarker Hmarkers Hlock Hlocks]. unfold create_publisher.
  assert (publisher_lock u ∉ names d) as Hl by (rewrite Hlock, Hfresh; by intros [? ?]).
  assert (marker_name u c ∉ names d) as Hm by (rewrite Hmarker; congruence).
  rewrite (bool_decide_eq_false_2 (publisher_lock u ∈ _)) by done.
  rewrite bool_decide_eq_false_2; [|rewrite elem_of_app, list_elem_of_singleton; intros [?|?%marker_is_no_lock]; done].
  eexists. split_and!; [done|done|]. split; cbn.
  - intros p e. rewrite !elem_of_app, !list_elem_of_singleton, Hmarker, lookup_insert_Some. split.
    + intros [[Hp|?%marker_is_no_lock]|[-> ->]%marker_name_inj]; [right|done|by left]. split; [congruence|done].
    + intros [[<- <-]|[_ Hp]]; auto.
  - intros name p e. rewrite !elem_of_app, !list_elem_of_singleton. intros [[Hin| ->]| ->] Hparse.
    + by apply Hmarkers.
    + by rewrite parse_lock in Hparse.
    + rewrite parse_marker in Hparse. by simplify_eq.
  - intros p. rewrite !elem_of_app, !list_elem_of_singleton, Hlock. destruct (decide (u = p)) as [<-|Hne].
    + rewrite lookup_insert_eq. split; [by eexists|]. auto.
    + rewrite lookup_insert_ne by done. split; [|by auto]. intros [[Hp| ->%lock_name_inj]|Hp]; [done|done|]. by apply symmetry, marker_is_no_lock in Hp.
  - intros name p. rewrite !elem_of_app, !list_elem_of_singleton. intros [[Hin| ->]| ->] Hparse.
    + by apply Hlocks.
    + rewrite lock_publisher_of in Hparse. by simplify_eq.
    + by rewrite marker_no_publisher in Hparse.
Qed.

Lemma stale_publishers_spec d m p name : Represents d m →
  (p, name) ∈ stale_publishers d ↔ name = publisher_lock p ∧ is_Some (m !! p) ∧ (name ∉ held d).
Proof.
  intros Hd. unfold stale_publishers. rewrite list_elem_of_omap. split.
  - intros (n & Hn & Hstale). destruct (lock_publisher n) as [q|] eqn:Hq; [|done]. cbn in Hstale.
    case_bool_decide as Hheld; [done|]. injection Hstale as -> ->.
    pose proof (lock_canonical _ _ Hd _ _ Hn Hq) as ->. split_and!; [done|by apply (lock_listed _ _ Hd)|done].
  - intros (-> & Hp & Hheld). exists (publisher_lock p). split; [by apply (lock_listed _ _ Hd)|].
    rewrite lock_publisher_of. cbn. by rewrite bool_decide_eq_false_2.
Qed.

Lemma represents_cleanup d m : Represents d m →
  Represents (cleanup_stale_change_publishers d) (filter (fun entry => publisher_lock entry.1 ∈ held d) m).
Proof.
  intros Hd. pose proof Hd as [Hmarker Hmarkers Hlock Hlocks].
  assert (∀ p, p ∈ (stale_publishers d).*1 ↔ is_Some (m !! p) ∧ (publisher_lock p ∉ held d)) as Hstale.
  { intros p. rewrite list_elem_of_fmap. split.
    - intros ([q n] & -> & Hq). apply (stale_publishers_spec d m _ _ Hd) in Hq as (-> & Hq). done.
    - intros [Hp Hheld]. exists (p, publisher_lock p). split; [done|]. by apply (stale_publishers_spec d m). }
  assert (∀ n, n ∈ (stale_publishers d).*2 ↔ ∃ p, n = publisher_lock p ∧ is_Some (m !! p) ∧ (n ∉ held d)) as Hstale'.
  { intros n. rewrite list_elem_of_fmap. split.
    - intros ([q n'] & -> & Hq). apply (stale_publishers_spec d m _ _ Hd) in Hq. by exists q.
    - intros (p & Hp). exists (p, n). split; [done|]. by apply (stale_publishers_spec d m). }
  unfold cleanup_stale_change_publishers. split; cbn.
  - intros p c. rewrite !list_elem_of_filter, Hmarker, map_lookup_filter_Some. unfold stale_marker. rewrite parse_marker. cbn.
    rewrite bool_decide_eq_false, Hstale, Hstale'. split.
    + intros (_ & Hlive & Hp). split; [done|]. destruct (decide (publisher_lock p ∈ held d)); [done|]. exfalso. apply Hlive. by split; [eexists|].
    + intros [Hp Hheld]. split_and!; [|by intros [_ ?]|done]. by intros (q & ?%marker_is_no_lock & _).
  - intros name p c [_ [_ Hin]%list_elem_of_filter]%list_elem_of_filter. by apply Hmarkers.
  - intros p. rewrite !list_elem_of_filter, Hlock, Hstale'. unfold stale_marker. rewrite parse_lock. split.
    + intros (Hlive & _ & [c Hp]). exists c. apply map_lookup_filter_Some. split; [done|]. cbn.
      destruct (decide (publisher_lock p ∈ held d)); [done|]. exfalso. apply Hlive. exists p. by rewrite Hp.
    + intros [c [Hp Hheld]%map_lookup_filter_Some]. split_and!; [|done|by eexists]. by intros (q & Hq & _ & Hnot).
  - intros name p [_ [_ Hin]%list_elem_of_filter]%list_elem_of_filter. by apply Hlocks.
Qed.

(** Opening a store: the directory holds the new publisher and those whose lease
    is held, and this is what the store observes. *)
Lemma open_directory_spec d m u c : Represents d m → m !! u = None →
  let live := <[u := c]> (filter (fun entry => publisher_lock entry.1 ∈ held d) m) in
  ∃ d', open_directory u c d = Some (d', live) ∧ Represents d' live.
Proof.
  intros Hd Hfresh live. destruct (represents_create d m u c Hd Hfresh) as (d1 & Hcreate & Hheld & Hd1).
  pose proof (represents_cleanup _ _ Hd1) as Hclean.
  assert (filter (fun entry => publisher_lock entry.1 ∈ held d1) (<[u := c]> m) = live) as Hlive.
  { subst live. rewrite Hheld. rewrite map_filter_insert_True by (cbn; by constructor). f_equal.
    apply map_filter_ext. intros p e Hp. cbn. rewrite elem_of_cons. split; [|by right].
    intros [->%lock_name_inj|]; [congruence|done]. }
  rewrite Hlive in Hclean. exists (cleanup_stale_change_publishers d1). split; [|exact Hclean].
  unfold open_directory. rewrite Hcreate.
  change (Some (cleanup_stale_change_publishers d1, read_changes (cleanup_stale_change_publishers d1)) = Some (cleanup_stale_change_publishers d1, live)).
  by rewrite (represents_read _ _ Hclean).
Qed.

(** Publishing renames the marker of the publisher. *)
Lemma publish_marker_spec d m u old new : Represents d m → m !! u = Some old → old ≠ new →
  ∃ d', publish_marker u old new d = Some d' ∧ held d' = held d ∧ Represents d' (<[u := new]> m).
Proof.
  intros Hd Hold Hne. pose proof Hd as [Hmarker Hmarkers Hlock Hlocks]. unfold publish_marker.
  rewrite bool_decide_eq_true_2 by (by apply Hmarker). eexists. split_and!; [done|done|]. split; cbn.
  - intros p c. rewrite elem_of_app, list_elem_of_filter, list_elem_of_singleton, Hmarker, lookup_insert_Some. split.
    + intros [[[Hnold Hnnew] Hp]|[-> ->]%marker_name_inj]; [right|by left]. split; [|done]. intros <-. apply Hnold. congruence.
    + intros [[<- <-]|[Hp Hpc]]; [by right|left]. split; [|done]. split; by intros [? ?]%marker_name_inj.
  - intros name p c [[_ Hin]%list_elem_of_filter| ->%list_elem_of_singleton]%elem_of_app Hparse; [by apply Hmarkers|].
    rewrite parse_marker in Hparse. by simplify_eq.
  - intros p. rewrite elem_of_app, list_elem_of_filter, list_elem_of_singleton, Hlock.
    rewrite lookup_insert_is_Some. split.
    + intros [[_ Hp]|Hp]; [|by apply symmetry, marker_is_no_lock in Hp]. destruct (decide (u = p)); auto.
    + intros [<-|[_ Hp]]; left; (split; [split; intros Hbad; by apply symmetry, marker_is_no_lock in Hbad|]); [by eexists|done].
  - intros name p [[_ Hin]%list_elem_of_filter| ->%list_elem_of_singleton]%elem_of_app Hparse; [by apply Hlocks|].
    by rewrite marker_no_publisher in Hparse.
Qed.
End directory_theorems.

(** ** Mutation locks *)

Record RegistryOk (r : LockRegistry) : Prop := {
  references_registered : ∀ id lock, (id, lock) ∈ references r → mutation_locks r !! id = Some lock;
  locks_distinct : ∀ id id' lock, mutation_locks r !! id = Some lock → mutation_locks r !! id' = Some lock → id = id';
  locks_below : ∀ id lock, mutation_locks r !! id = Some lock → lock < next_lock r;
}.

Lemma registry_step_ok r r' : registry_step r r' → RegistryOk r → RegistryOk r'.
Proof.
  destruct 1 as [id r|locks before reference after next]; intros [Hreferences Hdistinct Hbelow].
  - unfold mutation_lock.
    assert (∀ other lock, (other, lock) ∈ references r →
      filter (fun entry => entry.2 ∈ (references r).*2) (mutation_locks r) !! other = Some lock) as Hkept.
    { intros other lock Hin. apply map_lookup_filter_Some. split; [by apply Hreferences|]. cbn. by apply (list_elem_of_fmap_2 snd) in Hin. }
    destruct (filter _ _ !! id) as [lock|] eqn:Hlock; split; cbn.
    + intros other l [[= -> ->]|Hin]%elem_of_cons; [done|by apply Hkept].
    + intros a b l [Ha _]%map_lookup_filter_Some [Hb _]%map_lookup_filter_Some. by eapply Hdistinct.
    + intros a l [Ha _]%map_lookup_filter_Some. by eapply Hbelow.
    + intros other l [[= -> ->]|Hin]%elem_of_cons; [by rewrite lookup_insert_eq|].
      rewrite lookup_insert_ne; [by apply Hkept|]. intros <-. apply Hkept in Hin. congruence.
    + intros a b l. rewrite !lookup_insert_Some, !map_lookup_filter_Some.
      intros [[<- <-]|[_ [Ha _]]] [[<- Hb]|[_ [Hb _]]]; [done| | |by eapply Hdistinct].
      * apply Hbelow in Hb. lia.
      * subst l. apply Hbelow in Ha. lia.
    + intros a l [[<- <-]|[_ [Ha _]%map_lookup_filter_Some]]%lookup_insert_Some; [lia|]. apply Hbelow in Ha. lia.
  - split; cbn in *; [|done|done]. intros id lock Hin. apply Hreferences. apply elem_of_app in Hin as [Hin|Hin]; apply elem_of_app; [by left|right; by constructor].
Qed.

(** Whatever the order in which tasks ask for mutation locks and drop them, two
    tasks hold the same lock exactly when it is for the same invocation. *)
Lemma mutation_locks_exclude r id id' lock lock' : rtc registry_step (MkRegistry ∅ [] 0) r →
  (id, lock) ∈ references r → (id', lock') ∈ references r → id = id' ↔ lock = lock'.
Proof.
  intros Hreach. assert (RegistryOk r) as [Hreferences Hdistinct _].
  { assert (RegistryOk (MkRegistry ∅ [] 0)) as Hinit.
    { split; cbn; [by intros ? ? ?%elem_of_nil|intros ? ? ?|intros ? ?]; by rewrite lookup_empty. }
    induction Hreach as [|x y z Hstep Hrest IH]; [done|]. apply IH. by eapply registry_step_ok. }
  intros H1%Hreferences H2%Hreferences. split; [intros <-; congruence|intros <-; by eapply Hdistinct].
Qed.

(** Claims of the periodic check are at least an interval apart. *)
Lemma claims_apart next now next' now' : 0 ≤ now → now + CHANGE_POLL_INTERVAL_US ≤ u64_max →
  claim_check next now = (next', true) → (claim_check next' now').2 = true → now + CHANGE_POLL_INTERVAL_US ≤ now'.
Proof.
  unfold claim_check, u64_add. intros Hnow Hmax. destruct (Z.leb_spec next now); [|done]. intros [= <-].
  destruct (Z.leb_spec (Z.min (now + CHANGE_POLL_INTERVAL_US) u64_max) now'); [|done]. lia.
Qed.

Module CoordinationExamples.
#[local] Open Scope Z_scope.
Abbreviation ExampleSystem := (CacheSystem Z) (only parsing).

Definition process_of (s : CacheSystem Z) (p : Z) : Process Z := default (MkProcess 0 ∅ ∅ None) (processes s !! p).
Definition updated (p : option (Process Z)) : Process Z := default (MkProcess 0 ∅ ∅ None) p.

(** Process 1 opens; process 3 opens; process 1 creates invocation 7. *)
Definition opened : CacheSystem Z := open_process 1 2 initial_system.
Definition ready : CacheSystem Z := with_process 1 (updated (commit_refresh (process_of opened 1))) opened.
Definition both : CacheSystem Z := open_process 3 4 ready.
Definition persisted : CacheSystem Z := persist_write 1 7 (Some 70) both.
Definition announced : CacheSystem Z :=
  announce 1 5 (updated (publish_own 1 5 (process_of persisted 1))) (<[7 := MkWrite 1 (Some 70) Announced]> (writes persisted)) {[7]} persisted.
Definition created : CacheSystem Z := index_write 1 (process_of announced 1) 7 (MkWrite 1 (Some 70) Announced) None announced.

Lemma created_reachable late : rtc (coordination_step late) initial_system created.
Proof.
  eapply rtc_l; [apply (open_step late initial_system 1 2); [set_solver|set_solver|done]|].
  eapply rtc_l; [apply (commit_step late opened 1 (process_of opened 1) (updated (commit_refresh (process_of opened 1)))); by vm_compute|].
  eapply rtc_l; [apply (open_step late ready 3 4); [by vm_compute; set_solver|by vm_compute; set_solver|done]|].
  eapply rtc_l; [apply (persist_step late both 1 7 (Some 70)); [by eexists|done]|].
  eapply rtc_l; [apply (announce_step late persisted 1 (process_of persisted 1) (updated (publish_own 1 5 (process_of persisted 1))) 5 7 (Some 70)); [done|done|by vm_compute; set_solver|done]|].
  eapply rtc_l; [by apply (index_step late announced 1 (process_of announced 1) 7 (Some 70))|].
  apply rtc_refl.
Qed.

(** Process 1 learns of process 3 and loads the manifests again. *)
Definition began : CacheSystem Z :=
  with_process 1 (updated (begin_refresh (changes created) (manifests created) false (process_of created 1))) created.
Definition the_refresh (s : CacheSystem Z) : Refresh Z := default (MkRefresh ∅ ∅ ∅) (refreshing (process_of s 1)).
Definition read : CacheSystem Z :=
  with_process 1 (set_refresh (read_listed 7 (manifests began) (the_refresh began)) (process_of began 1)) began.

Lemma read_reachable late : rtc (coordination_step late) initial_system read.
Proof.
  etrans; [apply created_reachable|].
  eapply rtc_l; [by apply (begin_step late created 1 (process_of created 1)
    (updated (begin_refresh (changes created) (manifests created) false (process_of created 1))) false)|].
  eapply rtc_l; [apply (read_step late began 1 (process_of began 1) (the_refresh began) 7); [done|done|by vm_compute; set_solver]|].
  apply rtc_refl.
Qed.

Definition refreshed : CacheSystem Z := with_process 1 (updated (commit_refresh (process_of read 1))) read.


(** While the refresh still holds what it read, retention deletes invocation 7 and
    takes it out of the index; the refresh ends, and retention announces. *)
Definition reclaimed : CacheSystem Z := persist_write 1 7 None read.
Definition forgotten : CacheSystem Z :=
  index_write 1 (process_of reclaimed 1) 7 (MkWrite 1 None Persisted) (Some (MkWrite 1 None Indexed)) reclaimed.
Definition restored : CacheSystem Z := with_process 1 (updated (commit_refresh (process_of forgotten 1))) forgotten.
Definition notified : CacheSystem Z :=
  announce 1 6 (updated (publish_own 1 6 (process_of restored 1))) (delete 7 (writes restored)) {[7]} restored.

(** C19: The order of retention, which takes an invocation out of the index and
    announces the deletion later with its batch, lets the index keep what was
    deleted: a refresh of the same process that read the manifest before and ends
    between the two puts the entry back, and since the process then counts its
    own announcement as observed it finds nothing to refresh, although no write
    is under way and every write was announced. *)
Theorem late_announcement_keeps_deleted :
  ∃ (s : CacheSystem Z) publisher P id, rtc (coordination_step true) initial_system s ∧
    processes s !! publisher = Some P ∧ refreshing P = None ∧
    begin_refresh (changes s) (manifests s) false P = None ∧
    writes s = ∅ ∧ unannounced s = ∅ ∧
    is_Some (process_index P !! id) ∧ manifests s !! id = None.
Proof.
  exists notified, 1, (process_of notified 1), 7. split_and!; [|by vm_compute|by vm_compute|by vm_compute|by vm_compute|by vm_compute|by eexists|by vm_compute].
  etrans; [apply read_reachable|].
  eapply rtc_l; [apply (persist_step true read 1 7 None); [by eexists|done]|].
  eapply rtc_l; [by apply (late_index_step true reclaimed 1 (process_of reclaimed 1) 7 None)|].
  eapply rtc_l; [by apply (commit_step true forgotten 1 (process_of forgotten 1) (updated (commit_refresh (process_of forgotten 1))))|].
  eapply rtc_l; [apply (late_announce_step true restored 1 (process_of restored 1) (updated (publish_own 1 6 (process_of restored 1))) 6 7 None);
    [done|done|done|by vm_compute; set_solver|done]|].
  apply rtc_refl.
Qed.
End CoordinationExamples.
