(* ===== verification/Files.v ===== *)
(** * The files of an invocation (crates/bazel-mcp-store/src/files.rs, the raw
    evidence and trash of storage.rs, the leftovers of recovery.rs, and
    crates/bazel-mcp-runner/src/evidence.rs)

    Where the files of an invocation are, how one is replaced, and what a crash
    at any point of the replacement leaves behind.  A directory maps the names of
    its files to their bytes; the replacement is a machine whose steps are the
    system calls, each of which may fail, so that a crash is any state it
    reaches.  Loss of data the kernel has accepted is not modelled: the code asks
    for no synchronization. *)

From Stdlib Require Import Ascii.
From S2P Require Import Prelude Types Record Text.
#[global] Open Scope Z_scope.

(** ** Paths *)

Definition hex_nibble (n : Z) : ascii := ascii_of_N (Z.to_N (if n <? 10 then 48 + n else 87 + n)).
(** [{n:0wx}] for a number of at most [w] digits. *)
Fixpoint padded_hex (width : nat) (n : Z) : string :=
  match width with
  | O => ""
  | S width => padded_hex width (n / 16) +:+ String (hex_nibble (n mod 16)) ""
  end.

(** The milliseconds, the day and the shard of a UUIDv7. *)
Definition id_timestamp_ms (id : InvocationId) : Z := Z.shiftr id 80.
Definition id_day (id : InvocationId) : Z := id_timestamp_ms id / 86400000.
Definition id_shard (id : InvocationId) : Z := Z.land id 15.

Record InvocationPaths : Type := MkPaths {
  directory : string;
  path_manifest : string;
  path_details : string;
  path_stdout : string;
  path_stderr : string;
  path_evidence : string;
  path_bep : string;
  path_artifacts : string;
  path_test_logs_raw : string;
  path_test_log_evidence : string;
}.

Definition join (base name : string) : string := base +:+ "/" +:+ name.

(** [InvocationPaths::new], for the text of an identifier. *)
Definition invocation_paths (id_to_string : InvocationId → string) (cache_root : string) (id : InvocationId) : InvocationPaths :=
  let dir := join (join (join (join cache_root "invocations") (padded_hex 8 (id_day id))) (padded_hex 2 (id_shard id)))
               (id_to_string id) in
  MkPaths dir (join dir "manifest.json") (join dir "details.json") (join dir "stdout.log") (join dir "stderr.log")
    (join dir "failure-evidence.jsonl") (join dir "events.bep") (join dir "artifacts.json")
    (join dir "failed-test-logs.raw") (join dir "failed-test-evidence.jsonl").

(** ** Replacing a file *)

Abbreviation Directory := (gmap string (list Z)) (only parsing).

(** [Path::with_extension] on a file name. *)
Definition with_extension (name extension : string) : string :=
  match rsplit_once_str "." name with
  | Some (stem, _) => if bool_decide (stem = "") then name +:+ "." +:+ extension else stem +:+ "." +:+ extension
  | None => name +:+ "." +:+ extension
  end.
Definition temporary_of (name : string) : string := with_extension name "tmp".

(** Which call fails; a write may fail after some bytes.  [remove_fails] makes the
    removal of the temporary file fail as well. *)
Inductive ReplaceFault : Type := OpenFault | WriteFault (written : nat) | RenameFault.

(** [write_bytes_atomic_blocking] and [write_private_atomic]: the directory left
    and whether they succeed. *)
Definition write_bytes_atomic (fault : option ReplaceFault) (remove_fails : bool) (name : string) (bytes : list Z)
    (d : Directory) : Directory * bool :=
  let temporary := temporary_of name in
  let failed (d : Directory) := (if remove_fails then d else delete temporary d, false) in
  match d !! temporary, fault with
  | Some _, _ => failed d
  | None, Some OpenFault => failed d
  | None, Some (WriteFault n) => failed (<[temporary := take n bytes]> d)
  | None, Some RenameFault => failed (<[temporary := bytes]> d)
  | None, None => (<[name := bytes]> (delete temporary (<[temporary := bytes]> d)), true)
  end.

(** [remove_if_exists]: a missing file is not an error. *)
Definition remove_if_exists (remove_fails : bool) (name : string) (d : Directory) : Directory * bool :=
  match d !! name with
  | Some _ => if remove_fails then (d, false) else (delete name d, true)
  | None => (d, true)
  end.

(** The same, one system call at a time. *)
Inductive ReplacePhase : Type := Opening | Writing (written : nat) | Renaming | Removing | Finished (ok : bool).

Inductive replace_step (name : string) (bytes : list Z) : ReplacePhase * Directory → ReplacePhase * Directory → Prop :=
| opened_new d : d !! temporary_of name = None →
    replace_step name bytes (Opening, d) (Writing 0, <[temporary_of name := []]> d)
| open_refused d : replace_step name bytes (Opening, d) (Removing, d)
| wrote_some d n n' : (n ≤ n')%nat →
    replace_step name bytes (Writing n, d) (Writing n', <[temporary_of name := take n' bytes]> d)
| write_refused d n : replace_step name bytes (Writing n, d) (Removing, d)
| wrote_all d n : (length bytes ≤ n)%nat → replace_step name bytes (Writing n, d) (Renaming, d)
| renamed d contents : d !! temporary_of name = Some contents →
    replace_step name bytes (Renaming, d) (Finished true, <[name := contents]> (delete (temporary_of name) d))
| rename_refused d : replace_step name bytes (Renaming, d) (Removing, d)
| removed d : replace_step name bytes (Removing, d) (Finished false, delete (temporary_of name) d)
| remove_refused d : replace_step name bytes (Removing, d) (Finished false, d).

(** ** Leftovers *)

(** [temporary_files]. *)
Definition TEMPORARY_NAMES : list string :=
  ["manifest.tmp"; "details.tmp"; "artifacts.tmp"; "failure-evidence.tmp"; "failed-test-logs.tmp"; "failed-test-evidence.tmp"].
Definition temporary_files (d : Directory) : list string := filter (fun name => name ∈ TEMPORARY_NAMES) (elements (dom d)).

(** [cleanup_temporary_files], when the mutation lock is free or held by another
    process, and its removals succeed. *)
Definition cleanup_temporary_files (lock_free : bool) (d : Directory) : Directory :=
  if lock_free then foldr delete d (temporary_files d) else d.

(** The files that are replaced. *)
Definition durable_names : list string :=
  ["manifest.json"; "details.json"; "artifacts.json"; "failure-evidence.jsonl"; "failed-test-logs.raw"; "failed-test-evidence.jsonl"].

(** ** Raw evidence and the trash *)

Definition raw_names : list string :=
  ["stdout.log"; "stderr.log"; "failure-evidence.jsonl"; "events.bep"; "artifacts.json"; "failed-test-logs.raw"; "failed-test-evidence.jsonl"].

(** [stage_raw_evidence]: the renames into an empty trash directory, up to the one
    that fails; a missing file is skipped. *)
Fixpoint stage_files (fails : string → bool) (sources : list string) (d trash : Directory) : Directory * Directory * bool :=
  match sources with
  | [] => (d, trash, true)
  | name :: rest =>
      if fails name then (d, trash, false)
      else match d !! name with
           | Some bytes => stage_files fails rest (delete name d) (<[name := bytes]> trash)
           | None => stage_files fails rest d trash
           end
  end.
Definition stage_raw_files (fails : string → bool) (d : Directory) : Directory * Directory * bool := stage_files fails raw_names d ∅.

(** The directories of the invocations and those in the trash, by their names. *)
Record CacheRoot : Type := MkCacheRoot { live_directories : gmap string Directory; trash_directories : gmap string Directory }.

(** [rename_to_trash]: whether there was a directory to move; a rename onto a
    directory that is not empty fails, as any other rename may. *)
Definition rename_to_trash (fails : bool) (id : string) (c : CacheRoot) : CacheRoot * option bool :=
  match live_directories c !! id with
  | None => (c, Some false)
  | Some d =>
      if fails || bool_decide (default ∅ (trash_directories c !! id) ≠ ∅) then (c, None)
      else (MkCacheRoot (delete id (live_directories c)) (<[id := d]> (trash_directories c)), Some true)
  end.

(** [finish_staged_evidence]. *)
Definition finish_staged_evidence (fails : bool) (id : string) (c : CacheRoot) : CacheRoot * bool :=
  if fails && bool_decide (is_Some (trash_directories c !! (id +:+ ".evidence"))) then (c, false)
  else (MkCacheRoot (live_directories c) (delete (id +:+ ".evidence") (trash_directories c)), true).

(** [clean_trash], over the names in the order of the directory. *)
Fixpoint clean_entries (fails : string → bool) (names : list string) (trash : gmap string Directory) : gmap string Directory * bool :=
  match names with
  | [] => (trash, true)
  | name :: rest => if fails name then (trash, false) else clean_entries fails rest (delete name trash)
  end.
Definition clean_trash (fails : string → bool) (c : CacheRoot) : CacheRoot * bool :=
  let '(trash, ok) := clean_entries fails (map_to_list (trash_directories c)).*1 (trash_directories c) in
  (MkCacheRoot (live_directories c) trash, ok).

(** * Theorems *)

(** ** Names *)

Lemma durable_temporaries name : name ∈ durable_names → temporary_of name ∈ TEMPORARY_NAMES ∧ (name ∉ TEMPORARY_NAMES).
Proof.
  assert (Forall (fun name => temporary_of name ∈ TEMPORARY_NAMES ∧ (name ∉ TEMPORARY_NAMES)) durable_names) as Hall
    by (apply (bool_decide_eq_true_1 _); by vm_compute).
  intros Hin. by apply (proj1 (Forall_forall _ _) Hall).
Qed.

Lemma durable_temporaries_distinct : NoDup (temporary_of <$> durable_names).
Proof. apply (bool_decide_eq_true_1 _). by vm_compute. Qed.

Lemma lookup_foldr_delete {A} (l : list string) (d : gmap string A) name :
  foldr delete d l !! name = if decide (name ∈ l) then None else d !! name.
Proof.
  induction l as [|x l IH]; cbn; [by rewrite decide_False by apply not_elem_of_nil|].
  destruct (decide (name = x)) as [->|Hne].
  - rewrite lookup_delete_eq, decide_True by (by constructor). done.
  - rewrite lookup_delete_ne, IH by done. destruct (decide (name ∈ l)) as [Hin|Hout].
    + rewrite decide_True by (by constructor). done.
    + rewrite decide_False; [done|]. by rewrite elem_of_cons; intros [].
Qed.

Lemma lookup_cleanup d name :
  cleanup_temporary_files true d !! name = if decide (name ∈ TEMPORARY_NAMES) then None else d !! name.
Proof.
  unfold cleanup_temporary_files. rewrite lookup_foldr_delete. unfold temporary_files.
  destruct (decide (name ∈ TEMPORARY_NAMES)) as [Hin|Hout].
  - destruct (decide _) as [|Hnot]; [done|]. rewrite list_elem_of_filter, elem_of_elements in Hnot.
    apply not_elem_of_dom. intros Hdom. by apply Hnot.
  - rewrite decide_False; [done|]. by rewrite list_elem_of_filter; intros [].
Qed.

(** ** A crash at any point *)

Section replacement.
Context (name : string) (bytes : list Z) (old : Directory).

(** What the machine keeps, by phase. *)
Definition ReplaceInv (s : ReplacePhase * Directory) : Prop :=
  match s.1 with
  | Finished true => s.2 = <[name := bytes]> (delete (temporary_of name) old)
  | phase => delete (temporary_of name) s.2 = delete (temporary_of name) old ∧
      match phase with
      | Writing n => s.2 !! temporary_of name = Some (take n bytes)
      | Renaming => s.2 !! temporary_of name = Some bytes
      | _ => True
      end
  end.

Lemma replace_step_inv s s' : replace_step name bytes s s' → ReplaceInv s → ReplaceInv s'.
Proof.
  destruct 1 as [d Hnew|d|d n n' Hle|d n|d n Hall|d contents Htmp|d|d|d]; cbn; try by intros [].
  - intros [Hsame _]. by rewrite delete_insert_eq, lookup_insert_eq.
  - intros [Hsame _]. by rewrite delete_insert_eq, lookup_insert_eq.
  - intros [Hsame Hwritten]. by rewrite Hwritten, take_ge.
  - intros [Hsame Hwritten]. rewrite <- Hsame. congruence.
  - intros [Hsame _]. by rewrite delete_delete_eq.
Qed.

Lemma replace_inv s : rtc (replace_step name bytes) (Opening, old) s → ReplaceInv s.
Proof.
  assert (ReplaceInv (Opening, old)) as Hinit by done. revert Hinit. generalize (Opening, old).
  intros s0 Hinit Hreach. induction Hreach as [|x y z Hstep Hrest IH]; [done|]. apply IH. by eapply replace_step_inv.
Qed.
End replacement.

(** Without the leftovers of the machine, its directory is the old one or the new
    one. *)
Lemma cleanup_replace name bytes (old d : Directory) phase : temporary_of name ∈ TEMPORARY_NAMES →
  (name ∉ TEMPORARY_NAMES) → (∀ t, t ∈ TEMPORARY_NAMES → old !! t = None) →
  ReplaceInv name bytes old (phase, d) →
  cleanup_temporary_files true d = match phase with Finished true => <[name := bytes]> old | _ => old end.
Proof.
  intros Htmp Hname Hclean Hinv.
  assert (∀ d', delete (temporary_of name) d' = delete (temporary_of name) old → cleanup_temporary_files true d' = old) as Hold.
  { intros d' Hsame. apply map_eq. intros other. rewrite lookup_cleanup.
    destruct (decide (other ∈ TEMPORARY_NAMES)) as [Hin|Hout]; [by rewrite Hclean|].
    apply (f_equal (lookup other)) in Hsame. rewrite !lookup_delete_ne in Hsame by (intros <-; done). done. }
  destruct phase as [|n| | |[]]; cbn in Hinv; try (destruct Hinv; by apply Hold).
  subst d. apply map_eq. intros other. rewrite lookup_cleanup.
  destruct (decide (other ∈ TEMPORARY_NAMES)) as [Hin|Hout].
  - rewrite lookup_insert_ne by (intros <-; done). by rewrite Hclean.
  - destruct (decide (name = other)) as [<-|Hne]; [by rewrite !lookup_insert_eq|].
    rewrite !lookup_insert_ne by done. rewrite lookup_delete_ne by (intros <-; done). done.
Qed.

(** The function is a run of the machine. *)
Lemma write_bytes_atomic_runs fault remove_fails name bytes d d' ok :
  write_bytes_atomic fault remove_fails name bytes d = (d', ok) → rtc (replace_step name bytes) (Opening, d) (Finished ok, d').
Proof.
  assert (∀ d0 phase, replace_step name bytes (phase, d0) (Removing, d0) →
    rtc (replace_step name bytes) (phase, d0) (Finished false, if remove_fails then d0 else delete (temporary_of name) d0)) as Hfail.
  { intros d0 phase Hstep. eapply rtc_l; [exact Hstep|]. apply rtc_once. destruct remove_fails; constructor. }
  unfold write_bytes_atomic. destruct (d !! temporary_of name) as [stale|] eqn:Htmp.
  { intros [= <- <-]. apply Hfail. constructor. }
  assert (∀ n, rtc (replace_step name bytes) (Opening, d) (Writing n, <[temporary_of name := take n bytes]> d)) as Hwrite.
  { intros n. eapply rtc_l; [by constructor|]. apply rtc_once.
    rewrite <- (insert_insert_eq d (temporary_of name) (take n bytes) []). constructor. lia. }
  assert (rtc (replace_step name bytes) (Opening, d) (Renaming, <[temporary_of name := bytes]> d)) as Hall.
  { eapply rtc_r; [apply (Hwrite (length bytes))|]. rewrite take_ge by lia. constructor. lia. }
  destruct fault as [[|n|]|]; intros [= <- <-].
  - apply Hfail. constructor.
  - etrans; [apply Hwrite|]. apply Hfail. constructor.
  - etrans; [exact Hall|]. apply Hfail. constructor.
  - eapply rtc_r; [exact Hall|]. constructor. by rewrite lookup_insert_eq.
Qed.

(** C16: The replacement of a durable file is atomic: stopped by a crash after any
    of its system calls, or ended by the failure of any of them, it leaves a
    directory which, once the temporary files are removed on the next opening of
    the cache, is the old directory or the old directory with the new contents of
    the file, and it is the latter exactly when the replacement succeeded. *)
Theorem replacement_is_atomic name bytes (old d : Directory) phase
    (Hname : name ∈ durable_names) (Hclean : ∀ t, t ∈ TEMPORARY_NAMES → old !! t = None)
    (Hreach : rtc (replace_step name bytes) (Opening, old) (phase, d)) :
  (cleanup_temporary_files true d = old ∨ cleanup_temporary_files true d = <[name := bytes]> old) ∧
  (phase = Finished true → d = <[name := bytes]> old) ∧
  (∀ fault remove_fails ok d', write_bytes_atomic fault remove_fails name bytes old = (d', ok) →
     ok = bool_decide (fault = None) ∧ cleanup_temporary_files true d' = if ok then <[name := bytes]> old else old).
Proof.
  destruct (durable_temporaries name Hname) as [Htmp Hnot].
  pose proof (replace_inv name bytes old _ Hreach) as Hinv. split_and!.
  - rewrite (cleanup_replace name bytes old d phase) by done. destruct phase as [| | | |[]]; auto.
  - intros ->. cbn in Hinv. by rewrite delete_id in Hinv by (by apply Hclean).
  - intros fault remove_fails ok d' Hwrite. split.
    + revert Hwrite. unfold write_bytes_atomic. rewrite Hclean by done.
      destruct fault as [[]|]; intros [= <- <-]; done.
    + apply write_bytes_atomic_runs, (replace_inv name bytes old) in Hwrite.
      rewrite (cleanup_replace name bytes old d' (Finished ok)) by done. by destruct ok.
Qed.

(** ** Raw evidence *)

(** Staging moves files and loses none, whichever rename fails; a file is where it
    was or in the trash. *)
Lemma stage_files_moves fails sources d trash d' trash' ok : stage_files fails sources d trash = (d', trash', ok) →
  NoDup sources → ∀ name, (d' !! name = d !! name ∧ trash' !! name = trash !! name) ∨
                          (name ∈ sources ∧ d' !! name = None ∧ trash' !! name = d !! name).
Proof.
  revert d trash. induction sources as [|x sources IH]; intros d trash; cbn.
  { intros [= <- <- <-] _ name. by left. }
  destruct (fails x); [intros [= <- <- <-] _ name; by left|]. intros Hstage [Hx Hnodup]%NoDup_cons name.
  destruct (d !! x) as [bytes|] eqn:Hd; [|destruct (IH _ _ Hstage Hnodup name) as [|[]]; [by left|right; by split; [constructor|]]].
  destruct (decide (name = x)) as [->|Hne].
  - right. split; [by constructor|]. destruct (IH _ _ Hstage Hnodup x) as [[-> ->]|[Hin _]]; [|done].
    by rewrite lookup_delete_eq, lookup_insert_eq, Hd.
  - destruct (IH _ _ Hstage Hnodup name) as [[-> ->]|(Hin & -> & ->)]; rewrite lookup_delete_ne by done.
    + left. by rewrite lookup_insert_ne by done.
    + right. split; [by constructor|done].
Qed.

(** The manifest and the details stay where they are, and every file is in the
    directory or, unchanged, in the trash. *)
Lemma stage_raw_keeps fails d d' trash ok : stage_raw_files fails d = (d', trash, ok) →
  d' !! "manifest.json" = d !! "manifest.json" ∧ d' !! "details.json" = d !! "details.json" ∧
  ∀ name bytes, d !! name = Some bytes → d' !! name = Some bytes ∨ trash !! name = Some bytes.
Proof.
  intros Hstage. pose proof (stage_files_moves _ _ _ _ _ _ _ Hstage) as Hmoves.
  assert (NoDup raw_names) as Hnodup by (apply (bool_decide_eq_true_1 _); by vm_compute). specialize (Hmoves Hnodup). split_and!.
  - destruct (Hmoves "manifest.json") as [[]|[Hin _]]; [done|]. exfalso. apply (bool_decide_eq_true_2 _) in Hin. vm_compute in Hin. discriminate.
  - destruct (Hmoves "details.json") as [[]|[Hin _]]; [done|]. exfalso. apply (bool_decide_eq_true_2 _) in Hin. vm_compute in Hin. discriminate.
  - intros name bytes Hname. destruct (Hmoves name) as [[-> _]|(_ & _ & ->)]; auto.
Qed.

Lemma clean_entries_rest fails names trash : (∀ name, fails name = false) →
  clean_entries fails names trash = (foldr delete trash (reverse names), true).
Proof.
  intros Hworks. revert trash. induction names as [|name names IH]; intros trash; cbn [clean_entries]; [done|].
  by rewrite Hworks, IH, reverse_cons, foldr_app.
Qed.

(** A deletion is one rename: its directory is live or in the trash, never both,
    whatever fails; and cleaning the trash of the next start removes it for good,
    without touching a live directory. *)
Lemma deletion_is_one_rename fails id c d : live_directories c !! id = Some d →
  let '(c', moved) := rename_to_trash fails id c in
  (moved = None ∧ c' = c ∨
   moved = Some true ∧ live_directories c' !! id = None ∧ trash_directories c' !! id = Some d) ∧
  (∀ id', id' ≠ id → live_directories c' !! id' = live_directories c !! id') ∧
  clean_trash (fun _ => false) c' = (MkCacheRoot (live_directories c') ∅, true).
Proof.
  intros Hlive. unfold rename_to_trash. rewrite Hlive.
  assert (∀ c', clean_trash (fun _ => false) c' = (MkCacheRoot (live_directories c') ∅, true)) as Hclean.
  { intros c'. unfold clean_trash. rewrite clean_entries_rest by done. do 2 f_equal.
    apply map_eq. intros name. rewrite lookup_empty.
    rewrite lookup_foldr_delete. case_decide as Hin; [done|]. destruct (trash_directories c' !! name) as [d'|] eqn:Hd; [|done].
    destruct Hin. rewrite elem_of_reverse. apply list_elem_of_fmap. exists (name, d'). by rewrite elem_of_map_to_list. }
  destruct (fails || _); [by split; [left|]|]. cbn. split_and!; [right|intros id' Hne; by rewrite lookup_delete_ne|apply Hclean].
  by rewrite lookup_delete_eq, lookup_insert_eq.
Qed.

Module FilesExamples.
Definition before : Directory := {["manifest.json" := [1]; "stdout.log" := [7]]}.
Definition half_written : Directory := <["manifest.tmp" := take 1 [2; 3]]> (<["manifest.tmp" := []]> before).

(** A crash after one byte of the manifest. *)
Lemma replacement_is_atomic_witness :
  rtc (replace_step "manifest.json" [2; 3]) (Opening, before) (Writing 1, half_written) ∧
  (cleanup_temporary_files true half_written = before ∨
   cleanup_temporary_files true half_written = <["manifest.json" := [2; 3]]> before).
Proof.
  assert (rtc (replace_step "manifest.json" [2; 3]) (Opening, before) (Writing 1, half_written)) as Hreach.
  { eapply rtc_l; [by apply opened_new|]. apply rtc_once. apply (wrote_some "manifest.json" [2; 3] (<["manifest.tmp" := []]> before) 0 1). lia. }
  split; [exact Hreach|].
  refine (proj1 (replacement_is_atomic "manifest.json" [2; 3] before half_written (Writing 1) _ _ Hreach)).
  - by constructor.
  - apply Forall_forall. repeat constructor.
Defined.

(** A leftover makes the next replacement fail, and the failure removes it. *)
Example leftover_fails_once :
  (write_bytes_atomic None false "manifest.json" [9] half_written).2 = false ∧
  (write_bytes_atomic None false "manifest.json" [9] half_written).1 !! "manifest.tmp" = None ∧
  (write_bytes_atomic None false "manifest.json" [9] half_written).1 !! "manifest.json" = Some [1].
Proof. split_and!; vm_compute; reflexivity. Qed.

(** The last byte of the identifier names the shard, its first 48 bits the day. *)
Example paths_of_identifier :
  directory (invocation_paths (fun _ => "id") "/cache" (Z.shiftl (86400000 * 20000) 80 + 0x7d))
  = "/cache/invocations/00004e20/0d/id".
Proof. vm_compute. reflexivity. Qed.
End FilesExamples.
