(* ===== verification/Config.v ===== *)
(** * Server configuration (crates/bazel-mcp-server/src/config.rs,
    crates/bazel-mcp-store/src/config.rs)

    The flat configuration file is split into the raw settings of the policy, the
    runner, the store and the MCP transport; loading resolves every path, checks
    that the cache is not inside a workspace root and validates each part.  TOML,
    the environment and the file system are interfaces. *)

From S2P Require Import Prelude Collections Types Policy Redaction Text Runner Artifacts Response Tasks.
#[global] Open Scope Z_scope.

(** ** Retention (config.rs of the store) *)

Record RawRetentionConfig : Type := MkRawRetention {
  retention_days : Z;
  raw_maximum_storage_bytes : Z;
  retention_cleanup_interval_seconds : Z;
}.
Definition default_raw_retention : RawRetentionConfig := MkRawRetention 7 (10 * 1024 * 1024 * 1024) (60 * 60).

Record RetentionConfig : Type := MkRetention {
  maximum_age : Duration;
  maximum_storage_bytes : Z;
  cleanup_interval : Duration;
}.
Inductive RetentionConfigError : Type := ZeroMaximumStorageBytes | ZeroCleanupInterval.

Definition retention_try_from (raw : RawRetentionConfig) : result RetentionConfigError RetentionConfig :=
  _ ← reject_if (raw_maximum_storage_bytes raw =? 0) ZeroMaximumStorageBytes;
  _ ← reject_if (retention_cleanup_interval_seconds raw =? 0) ZeroCleanupInterval;
  Ok (MkRetention (from_secs (u64_mul (retention_days raw) (24 * 60 * 60))) (raw_maximum_storage_bytes raw)
        (from_secs (retention_cleanup_interval_seconds raw))).

(** ** Transport *)

Record RawMcpConfig : Type := MkRawMcp {
  progress_initial_seconds : Z;
  progress_interval_seconds : Z;
  raw_result_encoding : ResultEncoding;
  mcp_execution_policy : McpExecutionPolicy;
  task_ttl_seconds : Z;
  task_poll_interval_ms : Z;
}.
Definition default_raw_mcp : RawMcpConfig := MkRawMcp 30 60 EncToon Auto (24 * 60 * 60) 2000.

Record McpConfig : Type := MkMcp {
  mcp_result_encoding : ResultEncoding;
  progress_initial : Duration;
  progress_interval : Duration;
  mcp_policy : McpExecutionPolicy;
  task_ttl : Duration;
  mcp_poll_interval : Duration;
}.

(** The command line ([clap]). *)
Record Cli : Type := MkCli {
  cli_config : option PathBuf;
  cli_allowed_roots : list PathBuf;
  cli_cache_root : option PathBuf;
  cli_log : string;
}.

Record RawServerConfig : Type := MkRawServer {
  raw_cache_root : PathBuf;
  raw_policy : RawPolicyConfig;
  raw_runner : RawRunnerConfig;
  raw_retention : RawRetentionConfig;
  raw_mcp : RawMcpConfig;
}.

(** What the flat file deserializes to, the keys nobody claimed included. *)
Record RawServerConfigWire : Type := MkWire {
  wire_config : RawServerConfig;
  wire_unknown : gmap string unit;
}.

Record ValidatedServerConfig : Type := MkValidated {
  config_cache_root : PathBuf;
  config_runner : RunnerConfig;
  config_retention : RetentionConfig;
  config_mcp : McpConfig;
}.

(** The reasons for which a configuration is refused ([anyhow] errors, by the
    place they come from). *)
Inductive ConfigError (IoError RegexError : Type) : Type :=
| ReadConfiguration (path : PathBuf) (error : IoError)
| ParseConfiguration (path : PathBuf) (message : string)
| UnknownField (field : string)
| CurrentDirectory (error : IoError)
| CanonicalizePath (path : PathBuf) (error : IoError)
| NoExistingAncestor (path : PathBuf)
| NotARegularFile (path : PathBuf)
| DuplicateReducer (path : PathBuf)
| CacheInsideRoot
| ValidatePolicy (error : PolicyError IoError RegexError)
| ValidateRunner (error : RunnerError IoError RegexError)
| ValidateRetention (error : RetentionConfigError)
| ValidateMcp (message : string).
Arguments ReadConfiguration {_ _} _ _.
Arguments ParseConfiguration {_ _} _ _.
Arguments UnknownField {_ _} _.
Arguments CurrentDirectory {_ _} _.
Arguments CanonicalizePath {_ _} _ _.
Arguments NoExistingAncestor {_ _} _.
Arguments NotARegularFile {_ _} _.
Arguments DuplicateReducer {_ _} _.
Arguments CacheInsideRoot {_ _}.
Arguments ValidatePolicy {_ _} _.
Arguments ValidateRunner {_ _} _.
Arguments ValidateRetention {_ _} _.
Arguments ValidateMcp {_ _} _.

(** [RawStarlarkConfig::default] and [RawRunnerConfig::default]. *)
Definition default_raw_starlark : RawStarlarkConfig :=
  let l := default_limits in
  MkRawStarlark [] (max_source_bytes l) (max_input_bytes l) (max_events l) (max_output_bytes l) (max_output_items l)
    (max_ticks l) (max_heap_bytes l) (max_callstack_size l)
    (let ms := starlark_timeout l / 1000000 in if ms <=? u64_max then ms else 100).

Definition default_raw_runner (default_output_base_lock_root : PathBuf) : RawRunnerConfig :=
  let c := default_runner_config default_output_base_lock_root in
  MkRawRunner (as_secs (default_timeout c)) (as_secs (maximum_timeout c)) (maximum_run_output_bytes c)
    (as_secs (cancellation_interrupt_grace c)) (as_secs (cancellation_terminate_grace c)) (global_concurrency c)
    (output_user_root c) (as_secs (isolated_bazel_server_idle_timeout c)) (supported_bazel_major_versions c)
    (allow_unsupported_bazel_versions c) (as_secs (version_check_timeout c)) (maximum_pending_invocations c)
    (bep_transport c) (aspect c) default_raw_starlark.

Definition set_runner_paths (files : list PathBuf) (output_user_root aspect_executable : option PathBuf)
    (r : RawRunnerConfig) : RawRunnerConfig :=
  let s := raw_starlark r in
  let a := raw_aspect r in
  MkRawRunner (raw_default_timeout_seconds r) (raw_maximum_timeout_seconds r) (raw_maximum_run_output_bytes r)
    (raw_cancellation_interrupt_grace_seconds r) (raw_cancellation_terminate_grace_seconds r) (raw_global_concurrency r)
    output_user_root (raw_isolated_bazel_server_idle_seconds r) (raw_supported_bazel_major_versions r)
    (raw_allow_unsupported_bazel_versions r) (raw_version_check_timeout_seconds r) (raw_maximum_pending_invocations r)
    (raw_bep_transport r) (MkAspect aspect_executable (aspect_commands a) (allow_workspace_mutation a))
    (MkRawStarlark files (raw_max_source_bytes s) (raw_max_input_bytes s) (raw_max_events s) (raw_max_output_bytes s)
       (raw_max_output_items s) (raw_max_ticks s) (raw_max_heap_bytes s) (raw_max_callstack_size s) (raw_timeout_ms s)).

Definition set_policy_paths (roots : list PathBuf) (executable : option PathBuf) (p : RawPolicyConfig) : RawPolicyConfig :=
  MkRawPolicyConfig roots (raw_allowed_commands p) (raw_denied_commands p) (raw_environment_allowlist p)
    (raw_redaction_patterns p) executable.

Section config.
Context {IoError RegexError Regex : Type} `{FS : FileSystem IoError}.
Abbreviation ConfigError := (ConfigError IoError RegexError).
(** The environment: its variables, the current directory, the platform, and
    reading a file. *)
Context (var_os : string → option string) (current_dir : result IoError PathBuf) (macos : bool).
Context (read_to_string : PathBuf → result IoError string) (from_toml : string → result string RawServerConfigWire).
Context (compile : string → result RegexError Regex) (default_output_base_lock_root : PathBuf).

Definition nonzero_duration (seconds : Z) (message : string) : result ConfigError Duration :=
  _ ← reject_if (seconds =? 0) (ValidateMcp message); Ok (from_secs seconds).

Definition mcp_try_from (raw : RawMcpConfig) : result ConfigError McpConfig :=
  _ ← reject_if (negb ((100 <=? task_poll_interval_ms raw) && (task_poll_interval_ms raw <=? 60000)))
        (ValidateMcp "task poll interval must be between 100 and 60000 milliseconds");
  initial ← nonzero_duration (progress_initial_seconds raw) "progress timing must be greater than zero";
  interval ← nonzero_duration (progress_interval_seconds raw) "progress timing must be greater than zero";
  ttl ← nonzero_duration (task_ttl_seconds raw) "task TTL must be greater than zero";
  Ok (MkMcp (raw_result_encoding raw) initial interval (mcp_execution_policy raw) ttl
        (from_millis (task_poll_interval_ms raw))).

(** ** Paths *)

Definition absolute_path (path : PathBuf) : result ConfigError PathBuf :=
  if is_absolute path then Ok path
  else match current_dir with Ok dir => Ok (join dir path) | Err error => Err (CurrentDirectory error) end.

(** The loop of [canonicalize_with_missing_tail], on the reversed names. *)
Fixpoint existing_ancestor (normalized : PathBuf) (rooted : bool) (existing missing : list string)
    : result ConfigError PathBuf :=
  let path := render rooted (rev existing) in
  match symlink_metadata path with
  | Ok _ =>
      match canonicalize path with
      | Ok canonical => Ok (foldl join canonical missing)
      | Err error => Err (CanonicalizePath path error)
      end
  | Err error =>
      if is_not_found error then
        match existing with
        | [] => Err (NoExistingAncestor normalized)
        | name :: parent => existing_ancestor normalized rooted parent (name :: missing)
        end
      else Err (CanonicalizePath path error)
  end.

Definition canonicalize_config_path (path : PathBuf) : result ConfigError PathBuf :=
  path ← absolute_path path;
  let '(rooted, names) := normalize_absolute path in
  existing_ancestor (render rooted names) rooted (rev names) [].

Definition canonicalize_option (path : option PathBuf) : result ConfigError (option PathBuf) :=
  match path with Some path => canonical ← canonicalize_config_path path; Ok (Some canonical) | None => Ok None end.

(** [Path::parent] of the configuration file. *)
Definition parent (path : PathBuf) : option PathBuf :=
  match components path with
  | [] | [RootDir] => None
  | cs => Some (path_of (take (length cs - 1) cs))
  end.

(** [canonicalize_starlark_files]; [seen] are the paths before. *)
Fixpoint canonical_files (base : PathBuf) (seen : list PathBuf) (files : list PathBuf) : result ConfigError (list PathBuf) :=
  match files with
  | [] => Ok []
  | file :: rest =>
      let path := if is_absolute file then file else join base file in
      match canonicalize path with
      | Err error => Err (CanonicalizePath path error)
      | Ok path =>
          _ ← reject_if (negb (is_file path)) (NotARegularFile path);
          _ ← reject_if (existsb (path_eq path) seen) (DuplicateReducer path);
          files ← canonical_files base (path :: seen) rest;
          Ok (path :: files)
      end
  end.

Definition canonicalize_starlark_files (files : list PathBuf) (config_path : option PathBuf)
    : result ConfigError (list PathBuf) :=
  dir ← match current_dir with Ok dir => Ok dir | Err error => Err (CurrentDirectory error) end;
  canonical_files (default dir (config_path ≫= parent)) [] files.

Fixpoint canonical_roots (roots : list PathBuf) : result ConfigError (list PathBuf) :=
  match roots with
  | [] => Ok []
  | root :: rest =>
      match canonicalize root with
      | Err error => Err (CanonicalizePath root error)
      | Ok root => roots ← canonical_roots rest; Ok (root :: roots)
      end
  end.

Definition default_cache_root : PathBuf :=
  match var_os "XDG_CACHE_HOME" with
  | Some root => join root "bazel-mcp"
  | None =>
      let home := default "." (var_os "HOME") in
      join home (if macos then "Library/Caches/bazel-mcp" else ".cache/bazel-mcp")
  end.

Definition default_config_path_if_present : option PathBuf :=
  home ← var_os "HOME";
  let path := match var_os "XDG_CONFIG_HOME" with
              | Some root => join root "bazel-mcp/config.toml"
              | None => join home ".config/bazel-mcp/config.toml"
              end in
  if is_file path then Some path else None.

(** ** Loading *)

Definition map_error {E F A} (f : E → F) (r : result E A) : result F A :=
  match r with Ok a => Ok a | Err e => Err (f e) end.

(** [Deserialize for RawServerConfig]: the first unclaimed key, in order, is an
    error. *)
Definition deserialize (wire : RawServerConfigWire) : result ConfigError RawServerConfig :=
  match btree_items (wire_unknown wire) with
  | (field, _) :: _ => Err (UnknownField field)
  | [] => Ok (wire_config wire)
  end.

Definition server_try_from_raw (raw : RawServerConfig) (config_path : option PathBuf)
    : result ConfigError ValidatedServerConfig :=
  files ← canonicalize_starlark_files (raw_files (raw_starlark (raw_runner raw))) config_path;
  cache_root ← canonicalize_config_path (raw_cache_root raw);
  roots ← canonical_roots (raw_allowed_roots (raw_policy raw));
  output_user_root ← canonicalize_option (raw_output_user_root (raw_runner raw));
  executable ← canonicalize_option (raw_bazel_executable (raw_policy raw));
  aspect_executable ← canonicalize_option (aspect_executable (raw_aspect (raw_runner raw)));
  _ ← reject_if (existsb (fun root => path_starts_with cache_root root) roots) CacheInsideRoot;
  policy ← map_error ValidatePolicy (try_from_raw compile (set_policy_paths roots executable (raw_policy raw)));
  runner ← map_error ValidateRunner
    (runner_try_from default_output_base_lock_root
       (set_runner_paths files output_user_root aspect_executable (raw_runner raw)) policy);
  retention ← map_error ValidateRetention (retention_try_from (raw_retention raw));
  mcp ← mcp_try_from (raw_mcp raw);
  Ok (MkValidated cache_root runner retention mcp).

Definition read_raw (defaults : RawServerConfig) (config_path : option PathBuf) : result ConfigError RawServerConfig :=
  match config_path with
  | None => Ok defaults
  | Some path =>
      source ← map_error (ReadConfiguration path) (read_to_string path);
      wire ← map_error (ParseConfiguration path) (from_toml source);
      deserialize wire
  end.

Definition default_raw_server : RawServerConfig :=
  MkRawServer default_cache_root default_raw_policy_config (default_raw_runner default_output_base_lock_root)
    default_raw_retention default_raw_mcp.

Definition load_config (cli : Cli) : result ConfigError ValidatedServerConfig :=
  let config_path := match cli_config cli with Some path => Some path | None => default_config_path_if_present end in
  raw ← read_raw default_raw_server config_path;
  let p := raw_policy raw in
  let raw := MkRawServer (default (raw_cache_root raw) (cli_cache_root cli))
    (set_policy_paths (raw_allowed_roots p ++ cli_allowed_roots cli) (raw_bazel_executable p) p)
    (raw_runner raw) (raw_retention raw) (raw_mcp raw) in
  server_try_from_raw raw config_path.
End config.

Definition shutdown_wait (c : ValidatedServerConfig) : Duration :=
  duration_add (duration_add (cancellation_interrupt_grace (config_runner c)) (cancellation_terminate_grace (config_runner c)))
    (from_secs 5).

(** * Theorems *)

Section theorems.
Context {IoError RegexError Regex : Type} `{FS : FileSystem IoError}.
Context (var_os : string → option string) (current_dir : result IoError PathBuf) (macos : bool).
Context (read_to_string : PathBuf → result IoError string) (from_toml : string → result string RawServerConfigWire).
Context (compile : string → result RegexError Regex) (default_output_base_lock_root : PathBuf).
Abbreviation ConfigError := (ConfigError IoError RegexError).
Abbreviation load_config := (load_config var_os current_dir macos read_to_string from_toml compile default_output_base_lock_root).

Lemma canonical_roots_Ok roots canonical :
  canonical_roots roots = (Ok canonical : result ConfigError _) ↔ Forall2 (fun root real => canonicalize root = Ok real) roots canonical.
Proof.
  revert canonical. induction roots as [|root roots IH]; intros canonical; cbn [canonical_roots].
  { split; [by intros [= <-]|by inversion 1]. }
  destruct (canonicalize root) as [real|] eqn:Hreal; cycle 1.
  { split; [done|]. inversion 1; congruence. }
  destruct (canonical_roots roots) as [rest|] eqn:Hrest; cbn; split.
  - intros [= <-]. constructor; [done|]. by apply IH.
  - inversion 1 as [|? real' ? rest' Hreal' Hrest']; subst. apply IH in Hrest'. congruence.
  - done.
  - inversion 1 as [|? real' ? rest' Hreal' Hrest']; subst. apply IH in Hrest'. congruence.
Qed.

(** The files of reducers, as a configuration may list them. *)
Definition distinct_paths (paths : list PathBuf) : Prop := NoDup (components <$> paths).

Lemma canonical_files_Ok base seen files canonical : distinct_paths seen →
  canonical_files base seen files = (Ok canonical : result ConfigError _) →
  Forall2 (fun file real => canonicalize (if is_absolute file then file else join base file) = Ok real ∧ is_file real = true)
    files canonical ∧ distinct_paths (reverse canonical ++ seen).
Proof.
  revert seen canonical. induction files as [|file files IH]; intros seen canonical Hseen; cbn [canonical_files].
  { by intros [= <-]. }
  destruct (canonicalize _) as [real|] eqn:Hreal; [|done]. intros Hrest. inv_ok.
  match goal with H : canonical_files _ _ _ = Ok ?l |- _ => rename H into Htail; rename l into rest end.
  match goal with H : negb _ = false |- _ => apply negb_false_iff in H end.
  match goal with H : existsb _ _ = false |- _ => rename H into Hfresh end.
  injection Hrest as <-. assert (distinct_paths (real :: seen)) as Hseen'.
  { constructor; [|done]. intros (other & Heq & Hother)%list_elem_of_fmap.
    assert (existsb (path_eq real) seen = true) as Hex; [|congruence].
    apply existsb_exists. exists other. split; [by apply list_elem_of_In|]. by apply bool_decide_eq_true. }
  destruct (IH _ _ Hseen' Htail) as [Hall Hdistinct]. split; [by constructor|].
  by rewrite reverse_cons, <- app_assoc.
Qed.

Lemma map_error_Ok {E F A} (f : E → F) (r : result E A) a : map_error f r = Ok a ↔ r = Ok a.
Proof. destruct r; naive_solver. Qed.

Lemma mcp_try_from_Ok raw mcp : mcp_try_from raw = (Ok mcp : result ConfigError _) →
  from_millis 100 ≤ mcp_poll_interval mcp ≤ from_millis 60000 ∧
  progress_initial mcp ≠ 0 ∧ progress_interval mcp ≠ 0 ∧ task_ttl mcp ≠ 0.
Proof.
  unfold mcp_try_from, nonzero_duration. intros H. inv_ok. simplify_eq.
  cbn [mcp_poll_interval progress_initial progress_interval task_ttl]. unfold from_millis, from_secs. lia.
Qed.

Lemma retention_try_from_Ok raw retention : retention_try_from raw = Ok retention →
  maximum_storage_bytes retention ≠ 0 ∧ cleanup_interval retention ≠ 0.
Proof.
  unfold retention_try_from. intros H. inv_ok. simplify_eq. cbn [maximum_storage_bytes cleanup_interval].
  unfold from_secs. lia.
Qed.

Lemma try_from_raw_Ok raw p : try_from_raw compile raw = (Ok p : result (PolicyError IoError RegexError) _) →
  allowed_roots p = raw_allowed_roots raw ∧ Policy.bazel_executable p = raw_bazel_executable raw ∧
  is_ok (compile_patterns compile (redaction_patterns p) : result (PolicyError IoError RegexError) _) = true.
Proof.
  unfold try_from_raw, validate_config. intros H. inv_ok. simplify_eq. cbn in *.
  split_and!; [done|done|]. match goal with H : _ = Ok _ |- _ => by rewrite H end.
Qed.

Lemma runner_try_from_Ok raw p r :
  runner_try_from default_output_base_lock_root raw p = (Ok r : result (RunnerError IoError RegexError) _) →
  policy r = p ∧ reducer_files (starlark_reducers r) = raw_files (raw_starlark raw) ∧
  output_user_root r = raw_output_user_root raw ∧
  validate r = (Ok tt : result (RunnerError IoError RegexError) _) ∧ validate_limits (limits (starlark_reducers r)) = Ok tt.
Proof.
  unfold runner_try_from. intros H. inv_ok. destruct (starlark_try_from (raw_starlark raw)) as [starlark|] eqn:Hstarlark; [|done].
  simplify_eq. cbn [policy starlark_reducers output_user_root]. unfold starlark_try_from in Hstarlark. inv_ok. simplify_eq.
  cbn [reducer_files limits]. split_and!; try done; by repeat match goal with u : () |- _ => destruct u end.
Qed.

(** The paths of a validated configuration. *)
Lemma server_paths_Ok raw config_path c :
  server_try_from_raw current_dir compile default_output_base_lock_root raw config_path = (Ok c : result ConfigError _) →
  let r := config_runner c in
  Forall2 (fun root real => canonicalize root = Ok real) (raw_allowed_roots (raw_policy raw)) (allowed_roots (policy r)) ∧
  (∀ root, root ∈ allowed_roots (policy r) → ¬ components root `prefix_of` components (config_cache_root c)) ∧
  distinct_paths (reducer_files (starlark_reducers r)) ∧
  Forall (fun file => is_file file = true ∧ ∃ path, canonicalize path = Ok file) (reducer_files (starlark_reducers r)) ∧
  canonicalize_config_path current_dir (raw_cache_root raw) = (Ok (config_cache_root c) : result ConfigError _).
Proof.
  unfold server_try_from_raw. intros (files & Hfiles & Hload)%bind_Ok_inv.
  apply bind_Ok_inv in Hload as (cache_root & Hcache & Hload). apply bind_Ok_inv in Hload as (roots & Hroots%canonical_roots_Ok & Hload).
  do 3 apply bind_Ok_inv in Hload as (? & _ & Hload). apply bind_Ok_inv in Hload as (? & Houtside%reject_if_Ok & Hload).
  apply bind_Ok_inv in Hload as (p & Hp%map_error_Ok%try_from_raw_Ok & Hload). destruct Hp as (Hallowed & _ & _).
  apply bind_Ok_inv in Hload as (r & Hr%map_error_Ok%runner_try_from_Ok & Hload). destruct Hr as (Hpolicy & Hreducers & _).
  do 2 apply bind_Ok_inv in Hload as (? & _ & Hload). injection Hload as <-. cbn [config_runner config_cache_root].
  rewrite Hpolicy, Hallowed, Hreducers. cbn [raw_allowed_roots set_policy_paths raw_files raw_starlark set_runner_paths].
  unfold canonicalize_starlark_files in Hfiles. apply bind_Ok_inv in Hfiles as (dir & _ & Hfiles).
  apply canonical_files_Ok in Hfiles as [Hreal Hdistinct]; [|constructor]. split_and!; [done| | | |done].
  - intros root Hroot Hinside. enough (existsb (fun root => path_starts_with cache_root root) roots = true) by congruence.
    apply existsb_exists. exists root. split; [by apply list_elem_of_In|]. by apply bool_decide_eq_true.
  - unfold distinct_paths in *. rewrite app_nil_r in Hdistinct.
    by rewrite <- (reverse_Permutation files) .
  - apply Forall_forall. intros file Hfile. apply list_elem_of_lookup in Hfile as [i Hi].
    destruct (Forall2_lookup_r _ _ _ _ _ Hreal Hi) as (named & _ & Hcanonical & Hregular). eauto.
Qed.

(** The settings of a validated configuration. *)
Lemma server_settings_Ok raw config_path c :
  server_try_from_raw current_dir compile default_output_base_lock_root raw config_path = (Ok c : result ConfigError _) →
  let r := config_runner c in
  is_ok (compile_patterns compile (redaction_patterns (policy r)) : result (PolicyError IoError RegexError) _) = true ∧
  validate r = (Ok tt : result (RunnerError IoError RegexError) _) ∧ validate_limits (limits (starlark_reducers r)) = Ok tt ∧
  (maximum_storage_bytes (config_retention c) ≠ 0 ∧ cleanup_interval (config_retention c) ≠ 0) ∧
  (from_millis 100 ≤ mcp_poll_interval (config_mcp c) ≤ from_millis 60000 ∧ progress_initial (config_mcp c) ≠ 0 ∧
   progress_interval (config_mcp c) ≠ 0 ∧ task_ttl (config_mcp c) ≠ 0).
Proof.
  unfold server_try_from_raw. intros Hload. do 7 apply bind_Ok_inv in Hload as (? & _ & Hload).
  apply bind_Ok_inv in Hload as (p & Hp%map_error_Ok%try_from_raw_Ok & Hload). destruct Hp as (_ & _ & Hpatterns).
  apply bind_Ok_inv in Hload as (r & Hr%map_error_Ok%runner_try_from_Ok & Hload). destruct Hr as (Hpolicy & _ & _ & Hvalid & Hlimits).
  apply bind_Ok_inv in Hload as (retention & Hretention%map_error_Ok%retention_try_from_Ok & Hload).
  apply bind_Ok_inv in Hload as (mcp & Hmcp%mcp_try_from_Ok & [= <-]). cbn [config_runner config_retention config_mcp].
  by rewrite Hpolicy.
Qed.

(** C34: A configuration that loads is sound: the cache lies in none of the allowed
    roots, which are the real paths of the configured and the given ones; every
    reducer is a distinct regular file at its real path; the redaction patterns
    compile; the runner's and the reducers' limits are valid, so that no later
    step meets a zero timeout, concurrency or quota; polling stays between a
    tenth of a second and a minute; and the cache root of the command line wins. *)
Theorem loaded_configuration_sound cli c (Hload : load_config cli = Ok c) :
  let r := config_runner c in
  (∀ root, root ∈ allowed_roots (policy r) → ¬ components root `prefix_of` components (config_cache_root c)) ∧
  (∃ configured, Forall2 (fun root real => canonicalize root = Ok real) (configured ++ cli_allowed_roots cli)
     (allowed_roots (policy r))) ∧
  distinct_paths (reducer_files (starlark_reducers r)) ∧
  Forall (fun file => is_file file = true ∧ ∃ path, canonicalize path = Ok file) (reducer_files (starlark_reducers r)) ∧
  is_ok (compile_patterns compile (redaction_patterns (policy r)) : result (PolicyError IoError RegexError) _) = true ∧
  validate r = (Ok tt : result (RunnerError IoError RegexError) _) ∧ validate_limits (limits (starlark_reducers r)) = Ok tt ∧
  (maximum_storage_bytes (config_retention c) ≠ 0 ∧ cleanup_interval (config_retention c) ≠ 0) ∧
  (from_millis 100 ≤ mcp_poll_interval (config_mcp c) ≤ from_millis 60000 ∧ progress_initial (config_mcp c) ≠ 0 ∧
   progress_interval (config_mcp c) ≠ 0 ∧ task_ttl (config_mcp c) ≠ 0) ∧
  (∀ path, cli_cache_root cli = Some path →
     canonicalize_config_path current_dir path = (Ok (config_cache_root c) : result ConfigError _)).
Proof.
  intros r. subst r. apply bind_Ok_inv in Hload as (raw & _ & Hload).
  destruct (server_paths_Ok _ _ _ Hload) as (Hroots & Houtside & Hdistinct & Hfiles & Hcache).
  destruct (server_settings_Ok _ _ _ Hload) as (Hpatterns & Hvalid & Hlimits & Hretention & Hmcp).
  split_and!; try done; try apply Hretention; try apply Hmcp.
  - by exists (raw_allowed_roots (raw_policy raw)).
  - intros path Hpath. cbn [raw_cache_root] in Hcache. by rewrite Hpath in Hcache.
Qed.
End theorems.

Module ConfigExamples.
Definition existing : list string :=
  ["/"; "/w"; "/home/me"; "/home/me/.config/bazel-mcp/config.toml"; "/home/me/.config/bazel-mcp/reduce.star"].
#[local] Instance machine : FileSystem string := {|
  canonicalize path := if bool_decide (path ∈ existing) then Ok path else Err "not found";
  symlink_metadata path := if bool_decide (path ∈ existing) then Ok tt else Err "not found";
  metadata path := if bool_decide (path ∈ existing) then Some (true, 0) else None;
  is_not_found error := bool_decide (error = "not found");
  other_error message := message |}.

Definition home (name : string) : option string := if bool_decide (name = "HOME") then Some "/home/me" else None.

(** A file with one allowed root and a reducer next to it. *)
Definition example_wire : RawServerConfigWire :=
  MkWire (MkRawServer "/home/me/.cache/bazel-mcp"
    (set_policy_paths ["/w"] None default_raw_policy_config)
    (set_runner_paths ["reduce.star"] None None (default_raw_runner "/locks")) default_raw_retention default_raw_mcp) ∅.
Definition example_load (cli : Cli) : result (ConfigError string string) ValidatedServerConfig :=
  load_config home (Ok "/tmp") false (fun _ => Ok "") (fun _ => Ok example_wire) (fun pattern => Ok pattern) "/locks" cli.

Example loaded :
  (fun c => (config_cache_root c, reducer_files (starlark_reducers (config_runner c)), shutdown_wait c)) <$>
    example_load (MkCli None [] None "") =
    Ok ("/home/me/.cache/bazel-mcp", ["/home/me/.config/bazel-mcp/reduce.star"], from_secs 20) ∧
  example_load (MkCli None [] (Some "/w/cache") "") = Err CacheInsideRoot ∧
  example_load (MkCli None ["/missing"] None "") = Err (CanonicalizePath "/missing" "not found").
Proof. vm_compute. done. Qed.

Lemma loaded_configuration_sound_witness :
  match example_load (MkCli None [] None "") with
  | Ok c => distinct_paths (reducer_files (starlark_reducers (config_runner c)))
  | Err _ => False
  end.
Proof.
  destruct (example_load (MkCli None [] None "")) as [c|e] eqn:Hload; [|vm_compute in Hload; discriminate].
  apply (loaded_configuration_sound home (Ok "/tmp") false (fun _ => Ok "") (fun _ => Ok example_wire)
           (fun pattern => Ok pattern) "/locks" (MkCli None [] None "") c Hload).
Defined.
End ConfigExamples.
