(* ===== verification/Agent.v ===== *)
(** * Agent mode (crates/bazel-mcp-server/src/agent.rs)

    The program may also be started in the place of [bazel]: it then takes the
    arguments of Bazel apart, runs one invocation in a store of its own and exits
    with the code of the invocation.  Arguments of the platform are byte strings,
    which need not be UTF-8. *)

From S2P Require Import Prelude Collections Types Policy Redaction QueryPaging Text Runner Artifacts Config.
#[global] Open Scope Z_scope.

(** [OsStr::to_str]. *)
Definition to_str (argument : string) : option string := from_utf8 (bytes_of argument).

Definition NO_AGENT_MODE : string := "--no-agent-mode".

Inductive LaunchMode : Type := Mcp | Agent (arguments : list string).

(** [Path::file_name]. *)
Definition file_name (path : string) : option string :=
  match last (components path) with Some (Normal name) => Some name | _ => None end.

Definition detect_launch_with_mode (arguments : list string) (environment_mode : option string) : LaunchMode :=
  let executable := default "" (head arguments) in
  let remaining := tail arguments in
  let shim_name := match file_name executable ≫= to_str with
                   | Some name => bool_decide (name = "bazel" ∨ name = "bazel.exe") | None => false end in
  let environment_mode := bool_decide (environment_mode ≫= to_str = Some "agent") in
  let explicit_mode := bool_decide (head remaining = Some "passthrough") in
  if negb (shim_name || environment_mode || explicit_mode) then Mcp
  else if explicit_mode then
    let remaining := tail remaining in
    Agent (if bool_decide (head remaining = Some "--") then tail remaining else remaining)
  else Agent remaining.

(** ** Bazel's arguments *)

Record ParsedBazelArguments : Type := MkParsed {
  parsed_startup : list string;
  parsed_command : BazelCommand;
  parsed_arguments : list string;
  parsed_target : option string;
  parsed_program : list string;
}.

Inductive AgentError : Type := UnknownCommand | NotUtf8.

Definition command_names (config : PolicyConfig) : gset string := allowed_commands config ∪ denied_commands config.

(** [iter().position]. *)
Definition argument_position (P : string → bool) (l : list string) : option nat := fst <$> list_find (fun x => P x = true) l.

Fixpoint all_utf8 (arguments : list string) : result AgentError (list string) :=
  match arguments with
  | [] => Ok []
  | argument :: rest => s ← ok_or (to_str argument) NotUtf8; strings ← all_utf8 rest; Ok (s :: strings)
  end.

(** The program's arguments, after the first [--]. *)
Definition split_program (arguments : list string) : list string * list string :=
  match argument_position (fun a => bool_decide (a = "--")) arguments with
  | Some delimiter => (take delimiter arguments, drop (S delimiter) arguments)
  | None => (arguments, [])
  end.

(** The target, the first argument that is no option. *)
Definition split_target (arguments : list string) : list string * option string :=
  match argument_position (fun a => negb (starts_with a "-")) arguments with
  | Some index => (take index arguments ++ drop (S index) arguments, arguments !! index)
  | None => (arguments, None)
  end.

Definition parse_bazel_arguments (arguments : list string) (config : PolicyConfig) : result AgentError ParsedBazelArguments :=
  let commandless command := Ok (MkParsed [] command [] None []) in
  if decide (arguments = []) then commandless Help
  else if decide (arguments = ["--version"]) then commandless Version
  else if decide (arguments = ["--help"]) then commandless Help
  else
    match argument_position (fun a => match to_str a with Some a => bool_decide (a ∈ command_names config) | None => false end)
            arguments with
    | None => Err UnknownCommand
    | Some command_index =>
        strings ← all_utf8 arguments;
        let command := command_from_str (default "" (strings !! command_index)) in
        let rest := drop (S command_index) strings in
        let startup := take command_index strings in
        if decide (command = Run) then
          let '(rest, program) := split_program rest in
          let '(rest, target) := split_target rest in
          Ok (MkParsed startup command rest target program)
        else Ok (MkParsed startup command rest None [])
    end.

(** ** The invocation *)

(** [Path::ancestors], the nearest first. *)
Definition ancestors (path : string) : list string :=
  (fun n => if decide (n = length (components path)) then path else path_of (take n (components path)))
    <$> reverse (seq 1 (length (components path))).

Section workspace.
Context {IoError : Type} `{FS : FileSystem IoError}.

Definition has_marker (directory : string) : bool :=
  existsb (fun marker => is_file (join directory marker)) WORKSPACE_MARKERS.

Definition discover_workspace (start : string) : option string :=
  start ← ok_option (canonicalize start);
  find has_marker (ancestors start).
End workspace.

(** [with_agent_runtime]. *)
Definition with_agent_runtime (cache_root executable : PathBuf) (c : ValidatedServerConfig) : ValidatedServerConfig :=
  let r := config_runner c in
  let p := policy r in
  MkValidated cache_root
    (MkRunnerConfig (MkPolicyConfig (allowed_roots p) (allowed_commands p) (denied_commands p) (environment_allowlist p)
                       (redaction_patterns p) (Some executable))
       (default_timeout r) (maximum_timeout r) (maximum_run_output_bytes r) (cancellation_interrupt_grace r)
       (cancellation_terminate_grace r) (global_concurrency r) (output_user_root r) (isolated_bazel_server_idle_timeout r)
       (supported_bazel_major_versions r) (allow_unsupported_bazel_versions r) (version_check_timeout r)
       (maximum_pending_invocations r) (output_base_lock_root r) (bep_transport r) (aspect r) (starlark_reducers r))
    (config_retention c) (config_mcp c).

(** The request [run_agent_inner] submits. *)
Definition agent_request (id : InvocationId) (now : Z) (workspace : string) (p : ParsedBazelArguments) : InvocationRequest :=
  let q := new_request id now workspace (parsed_command p) (parsed_arguments p) in
  MkRequest (request_id q) (Types.workspace q) (parsed_startup p) (command q) (arguments q) (parsed_target p)
    (parsed_program p) (timeout_ms q) (environment q) (requested_at_ms q).

(** ** Exit codes *)

Definition i32_max : Z := 2 ^ 31 - 1.

Definition invocation_exit_code (record : InvocationRecord) : Z :=
  match termination record with
  | Some (Exit code) => code
  | Some (Signal signal) => Z.min (128 + signal) i32_max
  | Some Timeout => 124
  | Some TerminationCancelled => 130
  | Some (OutputLimit _) | Some (SpawnFailure _) | Some TerminationInterrupted | None => 1
  end.

(** [ExitStatus]: a code or, on Unix, a signal. *)
Definition status_exit_code (unix : bool) (code signal : option Z) : Z :=
  match code with
  | Some code => code
  | None => if unix then match signal with Some signal => 128 + signal | None => 1 end else 1
  end.

Definition process_exit_code (code : Z) : Z := if (0 <=? code) && (code <=? u8_max) then code else 1.

(** * Theorems *)

Lemma to_str_Some argument s : to_str argument = Some s → s = argument.
Proof.
  unfold to_str, from_utf8. case_bool_decide; [|done]. intros [= <-]. apply bytes_of_inj.
  apply bytes_of_string_of_bytes, bytes_of_u8.
Qed.

Lemma all_utf8_Ok arguments strings : all_utf8 arguments = Ok strings → strings = arguments ∧ Forall (fun a => to_str a = Some a) arguments.
Proof.
  revert strings. induction arguments as [|a arguments IH]; intros strings; cbn [all_utf8]; [by intros [= <-]|].
  intros H. inv_ok. simplify_eq.
  match goal with H : to_str a = Some ?s |- _ => pose proof (to_str_Some _ _ H); subst s end.
  match goal with H : all_utf8 _ = Ok _ |- _ => destruct (IH _ H) as [-> Hall] end. by split; [|constructor].
Qed.

Lemma position_of_Some P l i : argument_position P l = Some i →
  ∃ x, l = take i l ++ x :: drop (S i) l ∧ l !! i = Some x ∧ P x = true ∧ Forall (fun y => P y = false) (take i l).
Proof.
  unfold argument_position. intros ([j x] & (Hlook & Hx & Hbefore)%list_find_Some & ->)%fmap_Some. cbn [fst].
  exists x. split_and!; [by rewrite take_drop_middle|done|done|]. apply Forall_forall. intros y (k & Hk)%list_elem_of_lookup.
  apply lookup_take_Some in Hk as [Hk Hlt]. specialize (Hbefore k y Hk Hlt). by destruct (P y).
Qed.

Lemma position_of_None P l : argument_position P l = None → Forall (fun y => P y = false) l.
Proof.
  unfold argument_position. intros Hnone%fmap_None%list_find_None. eapply Forall_impl; [exact Hnone|]. intros y Hy. by apply not_true_is_false.
Qed.

Lemma split_program_spec l rest program : split_program l = (rest, program) →
  ("--" ∉ rest) ∧ (l = rest ∧ program = [] ∨ l = rest ++ "--" :: program).
Proof.
  unfold split_program. destruct (argument_position _ l) as [i|] eqn:Hpos; intros [= <- <-].
  - apply position_of_Some in Hpos as (x & Hl & _ & ->%bool_decide_eq_true & Hbefore). split; [|by right].
    intros Hin. rewrite Forall_forall in Hbefore. by apply Hbefore in Hin.
  - apply position_of_None in Hpos. split; [|by left]. intros Hin. rewrite Forall_forall in Hpos. by apply Hpos in Hin.
Qed.

Lemma split_target_spec l rest target : split_target l = (rest, target) →
  ∃ before after, l = before ++ option_list target ++ after ∧ rest = before ++ after ∧
    Forall (fun a => starts_with a "-" = true) before ∧
    match target with Some t => starts_with t "-" = false | None => after = [] end.
Proof.
  unfold split_target. destruct (argument_position _ l) as [i|] eqn:Hpos; intros [= <- <-].
  - apply position_of_Some in Hpos as (x & Hl & -> & Hx%negb_true_iff & Hbefore). exists (take i l), (drop (S i) l).
    split_and!; [done|done| |done]. eapply Forall_impl; [exact Hbefore|]. intros a ?%negb_false_iff. done.
  - apply position_of_None in Hpos. exists l, []. rewrite !app_nil_r. split_and!; [done|done| |done].
    eapply Forall_impl; [exact Hpos|]. intros a ?%negb_false_iff. done.
Qed.

(** C35: Agent mode hands Bazel's arguments over without losing, adding or reordering
    any: put together again around the command (the first argument the policy
    names) and, for [run], the target (the first argument that is no option) and
    the program's arguments (everything after the first [--]), they are the
    arguments it was given; only an empty command line, [--version] and [--help]
    stand for a command themselves. *)
Theorem agent_arguments_kept arguments config p (Hparse : parse_bazel_arguments arguments config = Ok p) :
  (arguments ∈ [[]; ["--version"]; ["--help"]]) ∧ parsed_startup p = [] ∧ parsed_arguments p = [] ∧
    parsed_target p = None ∧ parsed_program p = [] ∨
  ∃ name before after program,
    arguments = parsed_startup p ++ name :: before ++ option_list (parsed_target p) ++ after ++ program ∧
    parsed_arguments p = before ++ after ∧
    parsed_command p = command_from_str name ∧ (name ∈ command_names config) ∧
    Forall (fun a => a ∉ command_names config) (parsed_startup p) ∧
    (if decide (parsed_command p = Run) then
       Forall (fun a => starts_with a "-" = true) before ∧
       ("--" ∉ before ++ option_list (parsed_target p) ++ after) ∧
       match parsed_target p with Some t => starts_with t "-" = false | None => after = [] end ∧
       (program = [] ∧ parsed_program p = [] ∨ program = "--" :: parsed_program p)
     else parsed_target p = None ∧ program = [] ∧ parsed_program p = []).
Proof.
  unfold parse_bazel_arguments in Hparse.
  destruct (decide (arguments = [])) as [->|]; [injection Hparse as <-; left; split_and!; [set_solver|done..]|].
  destruct (decide (arguments = ["--version"])) as [->|]; [injection Hparse as <-; left; split_and!; [set_solver|done..]|].
  destruct (decide (arguments = ["--help"])) as [->|]; [injection Hparse as <-; left; split_and!; [set_solver|done..]|].
  right. destruct (argument_position _ arguments) as [i|] eqn:Hpos; [|done].
  apply bind_Ok_inv in Hparse as (strings & [-> Hutf8]%all_utf8_Ok & Hparse).
  apply position_of_Some in Hpos as (name & Hsplit & Hlook & Hname & Hbefore). rewrite Hlook in Hparse. cbn [default] in Hparse.
  assert (to_str name = Some name) as Hto by (rewrite Forall_forall in Hutf8; apply Hutf8; by eapply list_elem_of_lookup_2).
  rewrite Hto in Hname. apply bool_decide_eq_true in Hname.
  assert (Forall (fun a => a ∉ command_names config) (take i arguments)) as Hstartup.
  { apply Forall_forall. intros a Ha Hin. rewrite Forall_forall in Hbefore. specialize (Hbefore a Ha).
    rewrite Forall_forall in Hutf8. rewrite Hutf8 in Hbefore by (by eapply elem_of_take in Ha as (? & ? & ?); eapply list_elem_of_lookup_2).
    by rewrite bool_decide_true in Hbefore. }
  unfold Datatypes.id in Hparse. destruct (decide (command_from_str name = Run)) as [Hrun | Hrun].
  - destruct (split_program _) as [rest program] eqn:Hprogram. destruct (split_target rest) as [rest' target] eqn:Htarget.
    injection Hparse as <-. cbn [parsed_startup parsed_command parsed_arguments parsed_target parsed_program].
    apply split_program_spec in Hprogram as [Hdash Hprogram]. apply split_target_spec in Htarget as (before & after & -> & -> & Hoptions & Hfirst).
    exists name, before, after, (drop (length (before ++ option_list target ++ after)) (drop (S i) arguments)).
    rewrite decide_True by done. split_and!; [|done|done|done|done|done|done|done|].
    + rewrite Hsplit at 1. do 2 f_equal. destruct Hprogram as [[-> _] | ->].
      * by rewrite drop_all, app_nil_r.
      * by rewrite drop_app_length, <- !app_assoc.
    + destruct Hprogram as [[-> ->] | ->]; [left; by rewrite drop_all|right; by rewrite drop_app_length].
  - injection Hparse as <-. cbn [parsed_startup parsed_command parsed_arguments parsed_target parsed_program].
    exists name, (drop (S i) arguments), [], []. rewrite decide_False by done. cbn [option_list app]. by rewrite !app_nil_r.
Qed.

(** The nearest directory with a marker is the workspace. *)
Lemma discover_workspace_nearest {IoError} `{FS : FileSystem IoError} start directory :
  discover_workspace start = Some directory →
  ∃ real nearer farther, canonicalize start = Ok real ∧ ancestors real = nearer ++ directory :: farther ∧
    has_marker directory = true ∧ Forall (fun d => has_marker d = false) nearer.
Proof.
  unfold discover_workspace. destruct (canonicalize start) as [real|]; [|done]. cbn. intros Hfind.
  exists real. induction (ancestors real) as [|d ds IH]; cbn [find] in Hfind; [done|].
  destruct (has_marker d) eqn:Hd.
  - injection Hfind as <-. by exists [], ds.
  - destruct (IH Hfind) as (nearer & farther & Hreal & -> & Hmarker & Hnearer). exists (d :: nearer), farther.
    split_and!; [done|done|done|by constructor].
Qed.

Module AgentExamples.
Example launches :
  detect_launch_with_mode ["/tmp/bazel"; "test"; "//..."] None = Agent ["test"; "//..."] ∧
  detect_launch_with_mode ["bazel-mcp"; "build"; "//..."] (Some "agent") = Agent ["build"; "//..."] ∧
  detect_launch_with_mode ["bazel-mcp"; "passthrough"; "--"; "query"; "//..."] None = Agent ["query"; "//..."] ∧
  detect_launch_with_mode ["bazel-mcp"; "--config"; "config.toml"] None = Mcp.
Proof. vm_compute. done. Qed.

Definition example_arguments : list string :=
  ["--output_base"; "/tmp/out"; "run"; "--config=dev"; "//cmd:example"; "--"; "--token=secret"; "input.txt"].

Example parsed :
  parse_bazel_arguments example_arguments default_policy_config =
    Ok (MkParsed ["--output_base"; "/tmp/out"] Run ["--config=dev"] (Some "//cmd:example") ["--token=secret"; "input.txt"]) ∧
  parse_bazel_arguments ["--version"] default_policy_config = Ok (MkParsed [] Version [] None []) ∧
  parse_bazel_arguments ["--flag"] default_policy_config = Err UnknownCommand.
Proof. vm_compute. done. Qed.

Lemma agent_arguments_kept_witness :
  match parse_bazel_arguments example_arguments default_policy_config with
  | Ok p => ∃ name before after program,
      example_arguments = parsed_startup p ++ name :: before ++ option_list (parsed_target p) ++ after ++ program ∧
      parsed_arguments p = before ++ after
  | Err _ => False
  end.
Proof.
  destruct (parse_bazel_arguments example_arguments default_policy_config) as [p|] eqn:Hparse; [|vm_compute in Hparse; discriminate].
  destruct (agent_arguments_kept example_arguments default_policy_config p Hparse)
    as [[Hnone _] | (name & before & after & program & Harguments & Hrest & _)].
  - exfalso. apply (bool_decide_pack _) in Hnone. vm_compute in Hnone. exact Hnone.
  - exists name, before, after, program. exact (conj Harguments Hrest).
Defined.

#[local] Instance machine : FileSystem unit := {|
  canonicalize path := Ok path;
  symlink_metadata _ := Ok tt;
  metadata path := if bool_decide (path = "/w/MODULE.bazel") then Some (true, 0) else None;
  is_not_found _ := true;
  other_error _ := tt |}.

Example discovered : discover_workspace "/w/one/two" = Some "/w" ∧ ancestors "/w/one" = ["/w/one"; "/w"; "/"].
Proof. vm_compute. done. Qed.
End AgentExamples.
