(* ===== verification/AgentRun.v ===== *)
(** * One run in agent mode (run_agent and run_agent_inner of
    crates/bazel-mcp-server/src/agent.rs)

    The whole of a run: with [--no-agent-mode] Bazel itself, else one invocation of
    the service in a store that lives in a scratch directory.  What the operating
    system and the service answer is an argument; the result says which program
    was started with which arguments, what was submitted, and what became of the
    scratch directory (which is removed when it goes out of scope as well). *)

From S2P Require Import Prelude Collections Types Policy Text Runner Config Agent.
#[global] Open Scope Z_scope.

Inductive AgentFailure : Type :=
| NoCurrentDirectory | BadConfiguration | NoCurrentExecutable | NoExecutable | NoWorkspace
| BadArguments (error : AgentError) | NoScratch | StoreUnavailable | RunnerUnavailable
| RunFailed | NoOutput | ScratchNotRemoved | LaunchFailed.

Record AgentResult : Type := MkAgentResult { agent_output : option string; agent_exit_code : Z }.

Inductive Scratch : Type := NotCreated | RemovedScratch | LeftBehind.

(** What a run has done. *)
Record AgentRun : Type := MkAgentRun {
  launched : option (string * string * list string);
  submitted : option (ValidatedServerConfig * InvocationRequest);
  scratch : Scratch;
  agent_outcome : result AgentFailure AgentResult;
}.

Section run.
Context {IoError : Type} `{FS : FileSystem IoError} (unix : bool) (which_all : string → option (list string)).
Context (current_dir current_exe : option string) (loaded : option ValidatedServerConfig).
Context (tempdir : option string) (remove_fails : bool) (store_opens runner_starts : bool).
Context (id : InvocationId) (now : Z).
(** The service and the encoder of results. *)
Context (run_with_cancellation : ValidatedServerConfig → InvocationRequest → option InvocationRecord).
Context (build_cli : InvocationRecord → option string).
(** The exit status of a program run with the terminal of the agent. *)
Context (status : string → string → list string → option (option Z * option Z)).

Definition not_started (e : AgentFailure) : AgentRun := MkAgentRun None None NotCreated (Err e).

(** [run_unfiltered]. *)
Definition run_unfiltered (executable launch_directory : string) (arguments : list string) : AgentRun :=
  MkAgentRun (Some (executable, launch_directory, arguments)) None NotCreated
    (match status executable launch_directory arguments with
     | Some (code, signal) => Ok (MkAgentResult None (status_exit_code unix code signal))
     | None => Err LaunchFailed
     end).

(** What dropping the scratch directory leaves. *)
Definition dropped : Scratch := if remove_fails then LeftBehind else RemovedScratch.

(** [run_agent_inner] once the scratch directory exists. *)
Definition run_filtered (config : ValidatedServerConfig) (executable workspace scratch_path : string) (p : ParsedBazelArguments) : AgentRun :=
  let config := with_agent_runtime scratch_path executable config in
  let failed e := MkAgentRun None None dropped (Err e) in
  if negb store_opens then failed StoreUnavailable
  else if negb runner_starts then failed RunnerUnavailable
  else
    let request := agent_request id now workspace p in
    let ended := MkAgentRun None (Some (config, request)) in
    match run_with_cancellation config request with
    | None => ended dropped (Err RunFailed)
    | Some record =>
        match build_cli record with
        | None => ended dropped (Err NoOutput)
        | Some output =>
            if remove_fails then ended LeftBehind (Err ScratchNotRemoved)
            else ended RemovedScratch (Ok (MkAgentResult (Some output) (invocation_exit_code record)))
        end
    end.

(** [run_agent_inner]. *)
Definition run_agent_inner (arguments : list string) : AgentRun :=
  let raw := bool_decide (head arguments = Some NO_AGENT_MODE) in
  let arguments := if raw then tail arguments else arguments in
  match current_dir, loaded, current_exe with
  | None, _, _ => not_started NoCurrentDirectory
  | _, None, _ => not_started BadConfiguration
  | _, _, None => not_started NoCurrentExecutable
  | Some launch_directory, Some config, Some executable_of_agent =>
      let workspace := discover_workspace launch_directory in
      match resolve_bazel_executable_excluding (RegexError := unit) unix which_all (default launch_directory workspace)
              (policy (config_runner config)) (Some executable_of_agent) with
      | Err _ => not_started NoExecutable
      | Ok executable =>
          if raw then run_unfiltered executable launch_directory arguments
          else
            match workspace, parse_bazel_arguments arguments (policy (config_runner config)), tempdir with
            | None, _, _ => not_started NoWorkspace
            | _, Err error, _ => not_started (BadArguments error)
            | _, _, None => not_started NoScratch
            | Some workspace, Ok p, Some scratch_path => run_filtered config executable workspace scratch_path p
            end
      end
  end.

(** [run_agent]: the exit code of the process; writing the output may fail. *)
Definition run_agent (write_fails : bool) (arguments : list string) : Z :=
  match agent_outcome (run_agent_inner arguments) with
  | Ok result =>
      if bool_decide (is_Some (agent_output result)) && write_fails then 1 else process_exit_code (agent_exit_code result)
  | Err _ => 2
  end.
End run.

(** * Theorems *)

Section spec.
Context {IoError : Type} `{FS : FileSystem IoError} (unix : bool) (which_all : string → option (list string)).
Context (current_dir current_exe : option string) (loaded : option ValidatedServerConfig).
Context (tempdir : option string) (remove_fails store_opens runner_starts : bool) (id : InvocationId) (now : Z).
Context (run_with_cancellation : ValidatedServerConfig → InvocationRequest → option InvocationRecord).
Context (build_cli : InvocationRecord → option string) (status : string → string → list string → option (option Z * option Z)).
Abbreviation run_agent_inner := (run_agent_inner unix which_all current_dir current_exe loaded tempdir remove_fails store_opens
  runner_starts id now run_with_cancellation build_cli status).

(** The program that runs Bazel: never the agent itself. *)
Definition resolved (config : ValidatedServerConfig) (executable : string) : Prop :=
  ∃ directory agent, current_dir = Some directory ∧ current_exe = Some agent ∧ loaded = Some config ∧
    resolve_bazel_executable_excluding (RegexError := unit) unix which_all (default directory (discover_workspace directory))
      (policy (config_runner config)) (Some agent) = Ok executable ∧ is_excluded executable (Some agent) = false.

Inductive Ran (arguments : list string) : AgentRun → Prop :=
(** Nothing was started. *)
| ran_nothing e : Ran arguments (MkAgentRun None None NotCreated (Err e))
(** Bazel ran with the arguments behind [--no-agent-mode]. *)
| ran_bazel config executable directory rest outcome :
    arguments = NO_AGENT_MODE :: rest → current_dir = Some directory → resolved config executable →
    (∀ r, outcome = Ok r → agent_output r = None ∧ ∃ code signal,
       status executable directory rest = Some (code, signal) ∧ agent_exit_code r = status_exit_code unix code signal) →
    Ran arguments (MkAgentRun (Some (executable, directory, rest)) None NotCreated outcome)
(** The scratch directory was made, and no invocation was submitted. *)
| ran_scratch left e : left ≠ NotCreated → (remove_fails = false → left = RemovedScratch) →
    Ran arguments (MkAgentRun None None left (Err e))
(** One invocation was submitted, in a store of its own. *)
| ran_invocation config executable directory workspace p path left outcome :
    head arguments ≠ Some NO_AGENT_MODE → resolved config executable → current_dir = Some directory →
    discover_workspace directory = Some workspace → tempdir = Some path →
    parse_bazel_arguments arguments (policy (config_runner config)) = Ok p →
    (remove_fails = false → left = RemovedScratch) →
    (∀ r, outcome = Ok r → left = RemovedScratch ∧ ∃ record,
       run_with_cancellation (with_agent_runtime path executable config) (agent_request id now workspace p) = Some record ∧
       agent_output r = build_cli record ∧ is_Some (agent_output r) ∧ agent_exit_code r = invocation_exit_code record) →
    Ran arguments (MkAgentRun None (Some (with_agent_runtime path executable config, agent_request id now workspace p)) left outcome).

Lemma run_filtered_ran arguments config executable directory workspace p path :
  head arguments ≠ Some NO_AGENT_MODE → resolved config executable → current_dir = Some directory →
  discover_workspace directory = Some workspace → tempdir = Some path →
  parse_bazel_arguments arguments (policy (config_runner config)) = Ok p →
  Ran arguments (run_filtered remove_fails store_opens runner_starts id now run_with_cancellation build_cli config executable workspace path p).
Proof.
  intros Hraw Hresolved Hdir Hworkspace Htemp Hparse. unfold run_filtered.
  assert (dropped remove_fails ≠ NotCreated ∧ (remove_fails = false → dropped remove_fails = RemovedScratch)) as [Hmade Hdropped]
    by (unfold dropped; by destruct remove_fails).
  destruct store_opens; [|by apply ran_scratch]. destruct runner_starts; [|by apply ran_scratch]. cbn [negb].
  destruct (run_with_cancellation _ _) as [record|] eqn:Hrun; [|by eapply ran_invocation].
  destruct (build_cli record) as [output|] eqn:Hbuild; [|by eapply ran_invocation].
  destruct remove_fails eqn:Hremove; eapply ran_invocation; try (done || congruence).
  intros r [= <-]. cbn. split; [done|]. exists record. by split_and!.
Qed.

End spec.
