(* ===== verification/CorpusSanitize.v ===== *)
(** * Sanitizing recorded evidence (crates/bazel-mcp-reducer-cases/src/sanitize.rs)

    The corpus of reducer cases keeps what real invocations left behind, with
    paths, user names and process numbers replaced by placeholders.  Binary
    evidence keeps its length, since its frames are prefixed with their lengths;
    whatever the forbidden patterns still find is refused. *)

From Stdlib Require Import Ascii.
From S2P Require Import Prelude Collections Types QueryPaging Text.
#[global] Open Scope Z_scope.

(** [b'_'], [b'('], [b')'] and the text behind a thread number. *)
Definition UNDERSCORE : Z := 95.
Definition PANICKED : list Z := bytes_of " panicked".

(** [replace_all]: the windows that equal the needle, from the left; [skip] bytes
    of a window already replaced are still to be passed over. *)
Fixpoint replace_windows (needle replacement : list Z) (skip : nat) (input : list Z) : list Z :=
  match input, skip with
  | [], _ => []
  | _ :: rest, S skip => replace_windows needle replacement skip rest
  | byte :: rest, O =>
      if bool_decide (take (length needle) input = needle)
      then replacement ++ replace_windows needle replacement (length needle - 1) rest
      else byte :: replace_windows needle replacement 0 rest
  end.
Definition replace_needle (input needle replacement : list Z) : list Z :=
  if bool_decide (needle = []) then input else replace_windows needle replacement 0 input.

(** [fixed_placeholder]. *)
Definition placeholder (label : string) : list Z := bytes_of ("<" +:+ label +:+ ">").
Definition fixed_placeholder (label : string) (length_ : nat) : result string (list Z) :=
  let prefix := placeholder label in
  if (length_ <? length prefix)%nat then Err "placeholder is longer than its source"
  else Ok (prefix ++ replicate (length_ - length prefix) UNDERSCORE).

(** The length of [([0-9]{3,})] when the input starts with a match of the pattern
    of thread numbers. *)
Definition is_digit (b : Z) : bool := (48 <=? b) && (b <=? 57).
Fixpoint take_digits (input : list Z) : nat :=
  match input with b :: rest => if is_digit b then S (take_digits rest) else 0%nat | [] => 0%nat end.
Definition thread_id (input : list Z) : option nat :=
  match input with
  | 40 :: rest =>
      let digits := take_digits rest in
      if (3 <=? digits)%nat && bool_decide (take (S (length PANICKED)) (drop digits rest) = 41 :: PANICKED)
      then Some (digits + 2)%nat else None
  | _ => None
  end.

(** [normalize_rust_thread_ids]. *)
Fixpoint normalize_from (preserve_length : bool) (skip : nat) (input : list Z) : result string (list Z) :=
  match input, skip with
  | [], _ => Ok []
  | _ :: rest, S skip => normalize_from preserve_length skip rest
  | byte :: rest, O =>
      match thread_id input with
      | Some identifier_length =>
          replacement ← (if preserve_length then fixed_placeholder "PID" identifier_length else Ok (placeholder "PID"));
          output ← normalize_from preserve_length (identifier_length + length PANICKED - 1) rest;
          Ok (replacement ++ PANICKED ++ output)
      | None => output ← normalize_from preserve_length 0 rest; Ok (byte :: output)
      end
  end.
Definition normalize_rust_thread_ids (input : list Z) (preserve_length : bool) : result string (list Z) :=
  normalize_from preserve_length 0 input.

(** The order of replacements: the longest sources first. *)
Definition longest_first (replacements : list (string * list Z)) : list (string * list Z) :=
  stable_sort (fun a b => (length b.2 <=? length a.2)%nat) replacements.

Section sanitize.
(** The forbidden patterns: whether each matches somewhere. *)
Context (forbidden : list (list Z → bool)).

Definition reject_forbidden (output : list Z) : result string unit :=
  if existsb (fun matches => matches output) forbidden
  then Err "sanitized evidence still contains forbidden material" else Ok tt.
Definition verify_sanitized_evidence (input : list Z) : result string unit := reject_forbidden input.

Fixpoint replace_fixed (replacements : list (string * list Z)) (output : list Z) : result string (list Z) :=
  match replacements with
  | [] => Ok output
  | (label, source) :: rest =>
      if bool_decide (source = []) then replace_fixed rest output
      else replacement ← fixed_placeholder label (length source);
           replace_fixed rest (replace_needle output source replacement)
  end.

Definition sanitize_binary (input : list Z) (replacements : list (string * list Z)) : result string (list Z) :=
  output ← replace_fixed (longest_first replacements) input;
  output ← normalize_rust_thread_ids output true;
  _ ← reject_forbidden output;
  Ok output.

(** [while normalized.ends_with("\n\n") { normalized.pop(); }] on lines that each
    end in a line feed: the empty lines at the end go, but for a first one. *)
Fixpoint trim_empty_end (lines : list string) : list string :=
  match lines with
  | [] => []
  | line :: rest =>
      match trim_empty_end rest with
      | [] => if bool_decide (line = "") then [] else [line]
      | kept => line :: kept
      end
  end.
Definition joined_lines (lines : list string) : string := foldr (fun line rest => line +:+ String newline rest) "" lines.

Definition normalized_text (text : string) : string :=
  let all := trim_end <$> lines text in
  match trim_empty_end all, all with
  | [], _ :: _ => String newline ""
  | kept, _ => joined_lines kept
  end.

Definition sanitize_text (input : list Z) (replacements : list (string * list Z)) : result string (list Z) :=
  let replaced := foldl (fun output '(label, source) => replace_needle output source (placeholder label)) input
                    (longest_first replacements) in
  output ← normalize_rust_thread_ids replaced false;
  let output := bytes_of (normalized_text (string_of_bytes (from_utf8_lossy output))) in
  _ ← reject_forbidden output;
  Ok output.
End sanitize.

(** * Theorems *)

Lemma replace_windows_length needle replacement skip input : needle ≠ [] → length replacement = length needle →
  length (replace_windows needle replacement skip input) = (length input - skip)%nat.
Proof.
  intros Hneedle Hlength. revert skip. induction input as [|byte rest IH]; intros skip; [by destruct skip|].
  destruct skip as [|skip]; cbn [replace_windows]; [|rewrite IH; cbn; lia].
  case_bool_decide as Hmatch; [|cbn; rewrite IH; lia].
  apply (f_equal length) in Hmatch. rewrite length_take in Hmatch. rewrite length_app, IH, Hlength. cbn in *.
  destruct needle; [done|]. cbn in *. lia.
Qed.

(** Bytes that no window covers stay in place. *)
Lemma replace_all_absent input needle replacement :
  (∀ n, (n < length input)%nat → take (length needle) (drop n input) ≠ needle) → replace_needle input needle replacement = input.
Proof.
  intros Habsent. unfold replace_needle. case_bool_decide; [done|]. revert Habsent.
  induction input as [|byte rest IH]; intros Habsent; [done|]. cbn [replace_windows].
  rewrite bool_decide_false by (apply (Habsent 0%nat); cbn; lia). rewrite IH; [done|].
  intros n Hn. apply (Habsent (S n)). cbn. lia.
Qed.

Lemma fixed_placeholder_length label n output : fixed_placeholder label n = Ok output → length output = n.
Proof.
  unfold fixed_placeholder. generalize (placeholder label). intros prefix. cbv zeta.
  destruct (Nat.ltb_spec n (length prefix)); [done|]. intros [= <-]. rewrite length_app, length_replicate. lia.
Qed.

Lemma take_digits_bound input : (take_digits input ≤ length input)%nat.
Proof. induction input as [|b rest IH]; cbn; [lia|]. destruct (is_digit b); cbn; lia. Qed.

Lemma thread_id_bound input n : thread_id input = Some n → (5 ≤ n)%nat ∧ (n + length PANICKED ≤ length input)%nat.
Proof.
  unfold thread_id. destruct input as [|b rest]; [done|].
  assert (∀ o : option nat, (match b with 40 => o | _ => None end) = Some n → o = Some n) as Hcase.
  { intros o. by repeat case_match. }
  intros H%Hcase. destruct (Nat.leb_spec 3 (take_digits rest)) as [Hdigits|]; [|done]. cbn [andb] in H.
  case_bool_decide as Hrest; [|done]. injection H as <-.
  apply (f_equal length) in Hrest. rewrite length_take, length_drop in Hrest. pose proof (take_digits_bound rest).
  change (length (41 :: PANICKED)) with (S (length PANICKED)) in Hrest. cbn [length]. lia.
Qed.

(** Thread numbers always have room for their placeholder. *)
Lemma pid_placeholder n : (5 ≤ n)%nat → ∃ output, fixed_placeholder "PID" n = Ok output.
Proof.
  intros Hn. unfold fixed_placeholder. change (length (placeholder "PID")) with 5%nat.
  destruct (Nat.ltb_spec n 5); [lia|]. by eexists.
Qed.

Lemma normalize_total preserve_length skip input : ∃ output, normalize_from preserve_length skip input = Ok output ∧
  (preserve_length = true → length output = (length input - skip)%nat).
Proof.
  revert skip. induction input as [|byte rest IH]; intros skip; [exists []; by destruct skip|].
  destruct skip as [|skip]; cbn [normalize_from].
  2: { destruct (IH skip) as (output & -> & Hlength). exists output. split; [done|]. intros Hp. rewrite Hlength by done. cbn. lia. }
  destruct (thread_id (byte :: rest)) as [n|] eqn:Hid.
  - apply thread_id_bound in Hid as [Hn Hfit]. destruct (IH (n + length PANICKED - 1)%nat) as (output & -> & Hlength).
    destruct (pid_placeholder n Hn) as [replacement Hreplacement]. destruct preserve_length; cbn [mbind result_bind].
    + rewrite Hreplacement. cbn [mbind result_bind]. eexists. split; [done|]. intros _.
      apply fixed_placeholder_length in Hreplacement. rewrite !length_app, Hreplacement, Hlength by done. cbn [length] in *. lia.
    + eexists. split; [done|]. done.
  - destruct (IH 0%nat) as (output & -> & Hlength). cbn [mbind result_bind]. eexists. split; [done|]. intros Hp.
    cbn [length]. rewrite Hlength by done. lia.
Qed.

Lemma replace_fixed_length replacements input output : replace_fixed replacements input = Ok output → length output = length input.
Proof.
  revert input. induction replacements as [|[label source] rest IH]; intros input; cbn [replace_fixed]; [by intros [= <-]|].
  case_bool_decide as Hsource; [apply IH|]. intros (replacement & Hfixed & Hrest)%bind_Ok_inv.
  rewrite (IH _ Hrest). unfold replace_needle. rewrite bool_decide_false by done.
  rewrite replace_windows_length; [lia|done|by apply fixed_placeholder_length in Hfixed].
Qed.

(** Sanitized binary evidence has the length of the evidence, so the length
    prefixes of its frames still fit, and passes the check that every recorded
    case is verified with; the only ways to be refused are a placeholder longer
    than its source and material that a forbidden pattern still finds. *)
Theorem sanitize_binary_sound forbidden input replacements :
  match sanitize_binary forbidden input replacements with
  | Ok output => length output = length input ∧ verify_sanitized_evidence forbidden output = Ok tt
  | Err _ =>
      (∃ label source, (label, source) ∈ replacements ∧ source ≠ [] ∧ (length source < length (placeholder label))%nat) ∨
      (∃ output matches, length output = length input ∧ matches ∈ forbidden ∧ matches output = true)
  end.
Proof.
  unfold sanitize_binary, normalize_rust_thread_ids.
  destruct (replace_fixed (longest_first replacements) input) as [replaced|] eqn:Hreplace; cbn [mbind result_bind].
  - destruct (normalize_total true 0 replaced) as (output & -> & Hlength). specialize (Hlength eq_refl).
    apply replace_fixed_length in Hreplace. cbn [mbind result_bind].
    destruct (reject_forbidden forbidden output) as [[]|] eqn:Hreject; cbn [mbind result_bind].
    + split; [lia|exact Hreject].
    + right. unfold reject_forbidden in Hreject. destruct (existsb _ forbidden) eqn:Hexists; [|done].
      apply existsb_exists in Hexists as (matches & Hin & Hmatches). exists output, matches.
      split_and!; [lia|by apply list_elem_of_In|done].
  - left. assert (∃ label source, (label, source) ∈ longest_first replacements ∧ source ≠ [] ∧
      (length source < length (placeholder label))%nat) as (label & source & Hin & Hrest).
    { clear -Hreplace. revert input Hreplace. induction (longest_first replacements) as [|[label source] rest IH]; intros input; [done|].
      cbn [replace_fixed]. case_bool_decide as Hsource.
      - intros (l & s & Hin & Hs)%IH. exists l, s. split; [by constructor|done].
      - destruct (fixed_placeholder label (length source)) as [replacement|] eqn:Hfixed; cbn [mbind result_bind].
        + intros (l & s & Hin & Hs)%IH. exists l, s. split; [by constructor|done].
        + intros _. exists label, source. split_and!; [by constructor|done|]. unfold fixed_placeholder in Hfixed.
          by destruct (Nat.ltb_spec (length source) (length (placeholder label))). }
    exists label, source. split; [|done]. unfold longest_first in Hin. by rewrite (stable_sort_perm _ replacements) in Hin.
Qed.

Module CorpusSanitizeExamples.
Definition home : list Z := bytes_of "/home/alice".

Example binary_paths :
  string_of_bytes <$> sanitize_binary [] (bytes_of "at /home/alice/x (12345) panicked") [("HOME", home)]
  = Ok "at <HOME>_____/x <PID>__ panicked".
Proof. vm_compute. reflexivity. Qed.

Example text_lines :
  string_of_bytes <$> sanitize_text [] (bytes_of ("a  " +:+ String newline (String newline (String newline "")))) []
  = Ok ("a" +:+ String newline "").
Proof. vm_compute. reflexivity. Qed.
End CorpusSanitizeExamples.
