(* ===== verification/Corpus.v ===== *)
(** * The corpus of reducer cases (crates/bazel-mcp-reducer-cases/src/manifest.rs)

    A case is a manifest, in a directory of its own, with the evidence recorded
    for it: what to run and what to expect.  The corpus is a tree of directories;
    discovery collects the manifests, parses each (the TOML library is a
    parameter), validates it and checks that its identifier is its place in the
    tree.  Error texts are shortened to what they say of the field. *)

From Stdlib Require Import Ascii.
From S2P Require Import Prelude Collections Types Policy Text Artifacts.
#[global] Open Scope Z_scope.

(** ** Manifests *)

Definition CASE_SCHEMA_VERSION : Z := 1.

Record EvidenceSpec : Type := MkEvidenceSpec {
  spec_bep : string; spec_stdout : string; spec_stderr : string; spec_exit : string;
  spec_test_logs : list string; spec_expected : string; spec_provenance : string;
}.
Definition default_evidence_spec : EvidenceSpec :=
  MkEvidenceSpec "events.bep" "stdout.txt" "stderr.txt" "exit.code" [] "expected.json" "provenance.json".

Record ReplaySpec : Type := MkReplaySpec { replay_max_items : Z; replay_max_bytes : Z }.
Definition default_replay_spec : ReplaySpec := MkReplaySpec 100 (64 * 1024).

Record DiagnosticExpectation : Type := MkDiagnosticExpectation {
  expected_rank : option nat;
  expected_severity : option string;
  expected_category : option string;
  message_equals : option string;
  message_prefix : option string;
  message_contains : option string;
  expected_path : option string;
  expected_line : option Z;
  expected_column : option Z;
  expected_target : option string;
  expected_action : option string;
  expected_repetition_count : option Z;
}.

Record ArtifactExpectation : Type := MkArtifactExpectation {
  name_equals : option string;
  name_contains : option string;
  expected_kind : option string;
  uri_contains : option string;
  expected_locally_available : option bool;
}.

Record AbsentExpectation : Type := MkAbsent {
  absent_message_contains : list string;
  absent_path_contains : list string;
  absent_target_contains : list string;
  absent_artifact_uri_contains : list string;
  absent_raw_contains : list string;
}.

Record CaseExpectation : Type := MkExpectation {
  expected_state : string;
  expected_exit_code : option Z;
  headline_equals : option string;
  headline_contains : option string;
  expected_inspect_hint : option string;
  max_visible_bytes : Z;
  max_diagnostics : nat;
  expected_diagnostics : list DiagnosticExpectation;
  expected_artifacts : list ArtifactExpectation;
  absent : AbsentExpectation;
}.

Record ProvenanceSpec : Type := MkProvenance {
  provenance_tool : string;
  provenance_tool_version : string;
  provenance_rules : gmap string string;
  origin_repository : option string;
  origin_commit : option string;
}.

Record CaseManifest : Type := MkCase {
  case_schema_version : Z;
  case_id : string;
  case_issue : option Z;
  case_workspace : string;
  case_command : string;
  case_args : list string;
  case_startup_args : list string;
  case_tags : list string;
  case_platforms : list string;
  timeout_seconds : Z;
  case_bazel_version : option string;
  test_target : option string;
  case_evidence : option EvidenceSpec;
  case_replay : ReplaySpec;
  expect : CaseExpectation;
  case_provenance : ProvenanceSpec;
}.

(** [EvidenceSpec::paths]. *)
Definition evidence_paths (e : EvidenceSpec) : list string :=
  [spec_bep e; spec_stdout e; spec_stderr e; spec_exit e; spec_expected e; spec_provenance e] ++ spec_test_logs e.

(** [ensure!]. *)
Definition ensure (condition : bool) (message : string) : result string unit := reject_if (negb condition) message.

(** [^[a-z0-9][a-z0-9._/-]*$]. *)
Definition id_start (c : ascii) : bool :=
  let b := byte_of c in ((97 <=? b) && (b <=? 122)) || ((48 <=? b) && (b <=? 57)).
Definition id_char (c : ascii) : bool := id_start c || bool_decide (c ∈ ["."%char; "_"%char; "/"%char; "-"%char]).
Definition valid_case_id (id : string) : bool :=
  match id with String first rest => id_start first && forallb id_char (String.list_ascii_of_string rest) | EmptyString => false end.

Definition is_normal (c : Component) : bool := match c with Normal _ => true | _ => false end.
Definition validate_relative_path (path : string) : result string unit :=
  _ ← ensure (bool_decide (path ≠ "")) "path cannot be empty";
  _ ← ensure (negb (is_absolute path)) "path must be relative";
  ensure (forallb is_normal (components path)) "path cannot contain dot or parent components".

(** The loops of [validate] that insert into a [BTreeSet]; paths are equal when
    their components are. *)
Fixpoint ensure_each {A B} `{EqDecision B} (check : A → result string unit) (key : A → option B) (seen : list B) (l : list A)
    : result string unit :=
  match l with
  | [] => Ok tt
  | x :: rest =>
      _ ← check x;
      match key x with
      | Some k => _ ← ensure (negb (bool_decide (k ∈ seen))) "repeated"; ensure_each check key (k :: seen) rest
      | None => ensure_each check key seen rest
      end
  end.

Definition diagnostic_selected (d : DiagnosticExpectation) : bool :=
  bool_decide (is_Some (message_equals d)) || bool_decide (is_Some (message_prefix d))
  || bool_decide (is_Some (message_contains d)) || bool_decide (is_Some (expected_path d))
  || bool_decide (is_Some (expected_category d)).
Definition severity_names : list string := ["error"; "warning"; "note"].
Definition category_names : list string :=
  ["workspace"; "loading"; "analysis"; "visibility"; "action"; "compilation"; "test"; "bazel"; "unknown"].
Definition in_names (names : list string) (value : option string) : bool :=
  match value with Some value => bool_decide (value ∈ names) | None => true end.

Definition nonblank (s : string) : bool := negb (bool_decide (trim s = "")).

(** The checks of a diagnostic expectation after its rank was recorded. *)
Definition check_names (d : DiagnosticExpectation) : result string unit :=
  _ ← ensure (in_names severity_names (expected_severity d)) "invalid severity";
  ensure (in_names category_names (expected_category d)) "invalid diagnostic category".
Fixpoint ensure_diagnostics (seen : list nat) (l : list DiagnosticExpectation) : result string unit :=
  match l with
  | [] => Ok tt
  | d :: rest =>
      _ ← ensure (diagnostic_selected d) "a diagnostic expectation with no selector";
      match expected_rank d with
      | Some rank =>
          _ ← ensure (negb (bool_decide (rank ∈ seen))) "repeats diagnostic rank";
          _ ← check_names d;
          ensure_diagnostics (rank :: seen) rest
      | None => _ ← check_names d; ensure_diagnostics seen rest
      end
  end.

Definition validate_evidence (m : CaseManifest) : result string unit :=
  match case_evidence m with
  | None => Ok tt
  | Some e =>
      _ ← ensure_each validate_relative_path (fun path => Some (components path)) [] (evidence_paths e);
      ensure (bool_decide (spec_test_logs e = []) || bool_decide (is_Some (test_target m))) "test logs without test_target"
  end.

Definition validate_origin (p : ProvenanceSpec) : result string unit :=
  match origin_repository p, origin_commit p with
  | Some repository, Some commit =>
      _ ← ensure (nonblank repository) "empty origin"; ensure (nonblank commit) "empty origin commit"
  | None, None => Ok tt
  | _, _ => Err "must set both origin_repository and origin_commit"
  end.

(** [CaseManifest::validate]. *)
Definition validate_case (m : CaseManifest) : result string unit :=
  _ ← ensure (case_schema_version m =? CASE_SCHEMA_VERSION) "schema";
  _ ← ensure (valid_case_id (case_id m)) "invalid case ID";
  _ ← validate_relative_path (case_workspace m);
  _ ← ensure (bool_decide (case_command m ∈ ["build"; "test"; "coverage"; "query"; "cquery"; "aquery"])) "unsupported command";
  _ ← ensure (0 <? timeout_seconds m) "timeout must be positive";
  _ ← ensure ((512 <=? max_visible_bytes (expect m)) && (max_visible_bytes (expect m) <=? 65536)) "max_visible_bytes";
  _ ← ensure ((1 <=? max_diagnostics (expect m))%nat && (max_diagnostics (expect m) <=? 1000)%nat) "max_diagnostics";
  _ ← ensure ((0 <? replay_max_items (case_replay m)) && (0 <? replay_max_bytes (case_replay m))) "replay budgets";
  _ ← ensure (bool_decide (expected_state (expect m) ∈ ["succeeded"; "failed"; "timed_out"; "cancelled"; "interrupted"])) "state";
  _ ← ensure (negb (bool_decide (case_platforms m = []))) "no platforms";
  _ ← ensure_each (fun p => ensure (bool_decide (p ∈ ["any"; "linux"; "macos"; "windows"])) "platform") Some [] (case_platforms m);
  _ ← ensure_each (fun t => ensure (bool_decide (t ≠ "")) "empty tag") Some [] (case_tags m);
  _ ← ensure_diagnostics [] (expected_diagnostics (expect m));
  _ ← validate_evidence m;
  _ ← ensure (negb (bool_decide (is_Some (test_target m))) || bool_decide (case_command m = "test")
              || bool_decide (case_command m = "coverage")) "test_target for non-test command";
  _ ← ensure (nonblank (provenance_tool (case_provenance m))) "no tool";
  _ ← ensure (nonblank (provenance_tool_version (case_provenance m))) "no tool version";
  validate_origin (case_provenance m).


(** [CaseManifest::supports_current_platform], for the [target_os]. *)
Definition supports_current_platform (target_os : string) (m : CaseManifest) : bool :=
  existsb (fun platform => bool_decide (platform = "any")
    || (bool_decide (platform = "linux") && bool_decide (target_os = "linux"))
    || (bool_decide (platform = "macos") && bool_decide (target_os = "macos"))
    || (bool_decide (platform = "windows") && bool_decide (target_os = "windows"))) (case_platforms m).

(** ** Discovery *)

(** An entry of the corpus: a link to a file or to something else (or one whose
    metadata cannot be read), a directory, a file, or another kind of file. *)
Inductive CorpusEntry : Type :=
| CorpusLink (to_file : option bool)
| CorpusDirectory (entries : list (string * CorpusEntry))
| CorpusFile
| CorpusOther.

(** [collect_manifests]: the directories below the corpus root that hold a
    manifest, as the names on the way. *)
Fixpoint collect_manifests (directory : list string) (entry : CorpusEntry) : result string (list (list string)) :=
  match entry with
  | CorpusDirectory entries =>
      (fix each (entries : list (string * CorpusEntry)) : result string (list (list string)) :=
         match entries with
         | [] => Ok []
         | (name, entry) :: rest =>
             found ← match entry with
                     | CorpusLink to_file =>
                         if bool_decide (name = "case.toml") then
                           match to_file with
                           | Some is_file => Ok (if is_file then [directory] else [])
                           | None => Err "metadata"
                           end
                         else Ok []
                     | CorpusDirectory _ => collect_manifests (directory ++ [name]) entry
                     | CorpusFile => Ok (if bool_decide (name = "case.toml") then [directory] else [])
                     | CorpusOther => Ok []
                     end;
             more ← each rest;
             Ok (found ++ more)
         end) entries
  | _ => Ok []
  end.

(** [PathBuf] compares by components: the manifests as [names ++ ["case.toml"]]. *)
Fixpoint path_leb (a b : list string) : bool :=
  match a, b with
  | [], _ => true
  | _ :: _, [] => false
  | x :: a, y :: b => if bool_decide (x = y) then path_leb a b else str_leb x y
  end.
Definition sort_manifests : list (list string) → list (list string) :=
  stable_sort (fun a b => path_leb (a ++ ["case.toml"]) (b ++ ["case.toml"])).

Record LoadedCase : Type := MkLoaded { manifest_path : string; case_directory : string; case_manifest : CaseManifest }.

(** [LoadedCase::evidence_path]. *)
Definition evidence_path (c : LoadedCase) (relative : string) : string := Policy.join (case_directory c) relative.

(** The directory with these names below the root, and the identifier it gives. *)
Definition directory_path (root : string) (names : list string) : string := foldl Policy.join root names.
Fixpoint directory_id (names : list string) : string :=
  match names with [] => "" | [name] => name | name :: rest => name +:+ "/" +:+ directory_id rest end.

Section discovery.
Context (corpus_root : string).
Context (read_manifest : list string → result string CaseManifest).

(** The loop of [discover_cases]. *)
Fixpoint load_cases (ids : list string) (manifests : list (list string)) : result string (list LoadedCase) :=
  match manifests with
  | [] => Ok []
  | names :: rest =>
      m ← read_manifest names;
      _ ← validate_case m;
      _ ← ensure (negb (bool_decide (case_id m ∈ ids))) "duplicate reducer case ID";
      _ ← ensure (bool_decide (case_id m = directory_id names)) "case ID must match its corpus directory";
      let directory := directory_path corpus_root names in
      cases ← load_cases (case_id m :: ids) rest;
      Ok (MkLoaded (Policy.join directory "case.toml") directory m :: cases)
  end.

(** [discover_cases], for what the corpus root is, if it exists. *)
Definition discover_cases (corpus : option CorpusEntry) : result string (list LoadedCase) :=
  manifests ← match corpus with Some entry => collect_manifests [] entry | None => Ok [] end;
  load_cases [] (sort_manifests manifests).
End discovery.

(** [find_repository_root], over the ancestors of the canonical start. *)
Definition find_repository_root (is_file : string → bool) (ancestors : list string) : option string :=
  find (fun directory => is_file (Policy.join directory "Cargo.toml") && is_file (Policy.join directory "MODULE.bazel")) ancestors.

(** * Properties *)

(** A path below a directory, by names only. *)
Definition names_only (path : string) : Prop := path ≠ "" ∧ is_absolute path = false ∧ Forall (fun c => is_normal c = true) (components path).

Ltac units := repeat match goal with u : unit |- _ => destruct u end.

Lemma ensure_Ok c m u : ensure c m = Ok u ↔ c = true.
Proof. unfold ensure. rewrite reject_if_Ok. apply negb_false_iff. Qed.

Lemma validate_relative_path_names path u : validate_relative_path path = Ok u → names_only path.
Proof.
  unfold validate_relative_path, names_only. intros H. inv_ok. rewrite !ensure_Ok in *. rewrite bool_decide_eq_true in *.
  rewrite negb_true_iff in *. split_and!; [done|done|]. rewrite forallb_forall in H. apply Forall_forall.
  intros c Hc. apply H. by apply list_elem_of_In.
Qed.

(** Names only: joined to a directory they stay below it. *)
Lemma names_only_below base path : base ≠ "" → names_only path →
  components (Policy.join base path) = components base ++ components path.
Proof.
  intros Hbase (Hpath & Hrelative & Hnormal). apply components_join_relative; [done|].
  rewrite components_lead in Hnormal. unfold lead in *. rewrite Hrelative in *. case_bool_decide; [|done].
  by apply Forall_app in Hnormal as [[]%Forall_cons_1 _].
Qed.

Lemma ensure_each_Ok {A B} `{EqDecision B} (check : A → result string unit) (key : A → B) seen l u :
  ensure_each check (Some ∘ key) seen l = Ok u →
  NoDup (key <$> l) ∧ (∀ x, x ∈ l → check x = Ok tt ∧ (key x ∉ seen)).
Proof.
  revert seen. induction l as [|x l IH]; intros seen; cbn [ensure_each compose fmap list_fmap]; [split; [constructor|set_solver]|].
  intros H. inv_ok. rewrite ensure_Ok, negb_true_iff, bool_decide_eq_false in *. destruct (IH _ H) as [Hnd Hall]. split.
  - apply NoDup_cons. split; [|done]. intros (y & Hy & Hin)%list_elem_of_fmap. apply Hall in Hin as [_ Hin]. set_solver.
  - intros y [->|Hin]%elem_of_cons; [by units|]. apply Hall in Hin as [? ?]. set_solver.
Qed.

(** The evidence of an accepted manifest: other names for other files. *)
Lemma validate_evidence_paths m u e : validate_case m = Ok u → case_evidence m = Some e →
  NoDup (components <$> evidence_paths e) ∧ ∀ path, path ∈ evidence_paths e → names_only path.
Proof.
  unfold validate_case. intros H He. inv_ok.
  match goal with H : validate_evidence m = Ok _ |- _ => unfold validate_evidence in H; rewrite He in H; inv_ok end.
  match goal with H : ensure_each validate_relative_path _ _ _ = Ok _ |- _ => apply (ensure_each_Ok _ components) in H as [Hnd Hall] end.
  split; [done|]. intros path Hpath. apply Hall in Hpath as [Hpath _]. by apply validate_relative_path_names in Hpath.
Qed.

Lemma policy_join_nonempty base path : base ≠ "" → Policy.join base path ≠ "".
Proof.
  intros Hbase. unfold Policy.join. rewrite (bool_decide_false (base = "")) by done. rewrite orb_false_r.
  destruct (is_absolute path) eqn:Ha; [by destruct path|]. by case_bool_decide; destruct base.
Qed.
Lemma directory_path_nonempty root names : root ≠ "" → directory_path root names ≠ "".
Proof.
  revert root. induction names as [|name names IH]; intros root Hroot; [done|]. by apply IH, policy_join_nonempty.
Qed.

(** What loading promises of one case. *)
Record Placed (root : string) (read_manifest : list string → result string CaseManifest) (names : list string) (c : LoadedCase) : Prop := MkPlaced {
  placed_manifest : read_manifest names = Ok (case_manifest c);
  placed_valid : validate_case (case_manifest c) = Ok tt;
  placed_id : case_id (case_manifest c) = directory_id names;
  placed_directory : case_directory c = directory_path root names;
}.

Lemma load_cases_placed root read ids manifests cases : load_cases root read ids manifests = Ok cases →
  Forall2 (Placed root read) manifests cases ∧
  NoDup ((case_id ∘ case_manifest) <$> cases) ∧ (∀ c, c ∈ cases → case_id (case_manifest c) ∉ ids).
Proof.
  revert ids cases. induction manifests as [|names manifests IH]; intros ids cases; cbn [load_cases].
  { intros [= <-]. split_and!; [constructor|constructor|set_solver]. }
  intros H. inv_ok. rewrite !ensure_Ok in *. rewrite negb_true_iff, bool_decide_eq_false, bool_decide_eq_true in *.
  injection H as <-.
  match goal with H : load_cases _ _ _ _ = Ok _ |- _ => destruct (IH _ _ H) as (Hplaced & Hnd & Hfresh) end.
  split_and!.
  - constructor; [|done]. by split; [| units | |].
  - cbn. apply NoDup_cons. split; [|done]. intros (c & Hc & Hin)%list_elem_of_fmap. apply Hfresh in Hin. set_solver.
  - intros c [->|Hin]%elem_of_cons; [done|]. apply Hfresh in Hin. set_solver.
Qed.

(** Discovery succeeds only on a corpus in order.  There is one case for each
    manifest of the tree, no two with one identifier; each was read, is valid and
    is identified by its place in the corpus; and the evidence it names lies in
    different files, all of them below the directory of the case. *)
Theorem discovered_cases_are_contained corpus_root read_manifest corpus cases :
  corpus_root ≠ "" → discover_cases corpus_root read_manifest corpus = Ok cases →
  NoDup ((case_id ∘ case_manifest) <$> cases) ∧
  (∃ manifests, match corpus with Some entry => collect_manifests [] entry | None => Ok [] end = Ok manifests ∧
     Forall2 (Placed corpus_root read_manifest) (sort_manifests manifests) cases ∧ length cases = length manifests) ∧
  ∀ c e, c ∈ cases → case_evidence (case_manifest c) = Some e →
    NoDup ((components ∘ evidence_path c) <$> evidence_paths e) ∧
    ∀ path, path ∈ evidence_paths e →
      Forall (fun k => is_normal k = true) (components path) ∧
      components (evidence_path c path) = components (case_directory c) ++ components path.
Proof.
  intros Hroot H. unfold discover_cases in H. apply bind_Ok_inv in H as (manifests & Hm & H).
  apply load_cases_placed in H as (Hplaced & Hnd & _). split_and!; [done| |].
  { exists manifests. split_and!; [done|done|]. rewrite <- (Forall2_length _ _ _ Hplaced).
    apply Permutation_length, stable_sort_perm. }
  intros c e (i & Hc)%list_elem_of_lookup He. destruct (Forall2_lookup_r _ _ _ _ _ Hplaced Hc) as (names & _ & [_ Hvalid _ Hdir]).
  destruct (validate_evidence_paths _ _ _ Hvalid He) as [Hdistinct Hnames].
  assert (∀ path, path ∈ evidence_paths e →
            components (evidence_path c path) = components (case_directory c) ++ components path) as Hbelow.
  { intros path Hpath. apply names_only_below; [|by apply Hnames]. rewrite Hdir. by apply directory_path_nonempty. }
  split; [|intros path Hpath; split; [by apply Hnames|by apply Hbelow]].
  apply (NoDup_fmap_1 (drop (length (components (case_directory c))))). rewrite <- list_fmap_compose.
  erewrite list_fmap_ext; [exact Hdistinct|]. intros j path Hj. cbn. rewrite Hbelow by (by eapply list_elem_of_lookup_2).
  by rewrite drop_app_length.
Qed.

Module CorpusExamples.
Definition conversion : DiagnosticExpectation :=
  MkDiagnosticExpectation (Some 0%nat) (Some "error") (Some "compilation") None None (Some "conversion")
    (Some "cases/type_mismatch.cc") (Some 5) None None None None.
Definition valid_manifest (id : string) (e : EvidenceSpec) : CaseManifest :=
  MkCase 1 id None "examples/cpp" "build" ["//cases:type_mismatch"] [] ["cpp"] ["linux"; "macos"] 60 (Some "9.2.0") None
    (Some e) default_replay_spec
    (MkExpectation "failed" (Some 1) None (Some "conversion") None 8192 20 [conversion] [] (MkAbsent [] [] [] [] []))
    (MkProvenance "clang" "17" ∅ None None).

Definition read_all (names : list string) : result string CaseManifest :=
  Ok (valid_manifest (directory_id names) default_evidence_spec).
Definition corpus : CorpusEntry :=
  CorpusDirectory [
    ("rust", CorpusDirectory [("case.toml", CorpusLink (Some true)); ("loop", CorpusLink None)]);
    ("cpp", CorpusDirectory [("compiler", CorpusDirectory [("case.toml", CorpusFile); ("events.bep", CorpusFile)])])].

Example discovered_corpus :
  match discover_cases "/corpus" read_all (Some corpus) with
  | Ok cases => map (fun c => (manifest_path c, case_id (case_manifest c))) cases
  | Err _ => []
  end = [("/corpus/cpp/compiler/case.toml", "cpp/compiler"); ("/corpus/rust/case.toml", "rust")].
Proof. vm_compute. reflexivity. Qed.

(** Paths that leave the case, an identifier elsewhere in the tree and a file named
    twice are refused. *)
Example refused :
  validate_case (valid_manifest "cpp" (MkEvidenceSpec "events.bep" "stdout.txt" "../secret" "exit.code" [] "expected.json" "provenance.json"))
    = Err "path cannot contain dot or parent components" ∧
  validate_case (valid_manifest "cpp" (MkEvidenceSpec "events.bep" "a//b" "a/b" "exit.code" [] "expected.json" "provenance.json"))
    = Err "repeated" ∧
  discover_cases "/corpus" (fun _ => Ok (valid_manifest "cpp" default_evidence_spec)) (Some corpus)
    = Err "case ID must match its corpus directory".
Proof. vm_compute. auto. Qed.

Lemma discovered_cases_are_contained_witness :
  NoDup ((case_id ∘ case_manifest) <$>
    [MkLoaded "/corpus/cpp/case.toml" "/corpus/cpp" (valid_manifest "cpp" default_evidence_spec)]).
Proof.
  apply (discovered_cases_are_contained "/corpus" read_all
    (Some (CorpusDirectory [("cpp", CorpusDirectory [("case.toml", CorpusFile)])]))); [done|vm_compute; reflexivity].
Defined.
End CorpusExamples.
