(* ===== verification/CorpusReplay.v ===== *)
(** * Verifying recorded cases
    (crates/bazel-mcp-reducer-cases/src/semantics.rs and replay.rs)

    The evidence of a case is replayed through the reducer, once all events
    together and once event by event; what comes out is compared with the
    expectations of the manifest, with the recorded output, or with a live run of
    the same case.  A failure is the expectation it reports, not its text.  The
    protobuf decoder, the JSON library, the file system and the reducer of test
    logs are parameters. *)

From Stdlib Require Import Ascii.
From S2P Require Import Prelude Collections Types Policy Text Diagnostics QueryPaging Framing Reduction Outcome Artifacts BazelText Starlark TestEvidence CorpusSanitize Corpus.
#[global] Open Scope Z_scope.

#[export] Instance InspectHint_decision : EqDecision InspectHint.
Proof. solve_decision. Defined.
#[export] Instance TargetResult_decision : EqDecision TargetResult.
Proof. solve_decision. Defined.
#[export] Instance TargetCounts_decision : EqDecision TargetCounts.
Proof. solve_decision. Defined.
#[export] Instance TestCase_decision : EqDecision TestCase.
Proof. solve_decision. Defined.
#[export] Instance TestResult_decision : EqDecision TestResult.
Proof. solve_decision. Defined.
#[export] Instance TestCounts_decision : EqDecision TestCounts.
Proof. solve_decision. Defined.
#[export] Instance CoverageFile_decision : EqDecision CoverageFile.
Proof. solve_decision. Defined.
#[export] Instance CoverageSummary_decision : EqDecision CoverageSummary.
Proof. solve_decision. Defined.
#[export] Instance QueryRow_decision : EqDecision QueryRow.
Proof. solve_decision. Defined.
#[export] Instance Severity_decision : EqDecision Severity.
Proof. solve_decision. Defined.
#[export] Instance Diagnostic_decision : EqDecision Diagnostic.
Proof. solve_decision. Defined.
#[export] Instance Artifact_decision : EqDecision Artifact.
Proof. solve_decision. Defined.
#[export] Instance InvocationSummary_decision : EqDecision InvocationSummary.
Proof. solve_decision. Defined.

(** ** Semantics *)

Record CaseObservation : Type := MkObservation {
  observed_state : string;
  observed_exit_code : option Z;
  observed_headline : string;
  observed_hint : option string;
  observed_diagnostics : list Diagnostic;
  observed_artifacts : list Artifact;
  visible_bytes : Z;
  raw_text : string;
}.

(** What a message of [VerificationFailure] reports. *)
Inductive Failure : Type :=
| StateDiffers | ExitCodeDiffers | HeadlineDiffers | HeadlineLacks | HintDiffers
| TooManyBytes | TooManyDiagnostics
| NoSuchRank (rank : nat) | RankMismatch (rank : nat) | NoDiagnostic (e : DiagnosticExpectation)
| NoArtifact (e : ArtifactExpectation)
| ForbiddenMessage (text : string) | ForbiddenPath (text : string) | ForbiddenTarget (text : string)
| ForbiddenUri (text : string) | ForbiddenRaw (text : string)
| PrimaryDiffers | PrimaryMissing | ArtifactsDiffer.

(** [Option::is_none_or], and a message pushed when a condition holds. *)
Definition none_or {A} (o : option A) (f : A → bool) : bool := match o with Some x => f x | None => true end.
Definition failing (condition : bool) (f : Failure) : list Failure := if condition then [f] else [].
Definition verdict (failures : list Failure) : result (list Failure) unit :=
  if bool_decide (length failures = 0%nat) then Ok tt else Err failures.

(** [serde_name] of an [ArtifactKind]. *)
Definition artifact_kind_name (k : ArtifactKind) : string :=
  match k with
  | File => "file" | Directory => "directory" | Types.TestLog => "test_log" | CoverageArtifact => "coverage" | Remote => "remote"
  end.

Definition diagnostic_matches (actual : Diagnostic) (e : DiagnosticExpectation) : bool :=
  none_or (expected_severity e) (fun v => bool_decide (severity_name (severity actual) = v))
  && none_or (expected_category e) (fun v => bool_decide (category_name (category actual) = v))
  && none_or (message_equals e) (fun v => bool_decide (message actual = v))
  && none_or (message_prefix e) (fun v => starts_with (message actual) v)
  && none_or (message_contains e) (fun v => contains_str (message actual) v)
  && none_or (expected_path e) (fun v => bool_decide (location_path <$> location actual = Some v))
  && none_or (expected_line e) (fun v => bool_decide (location actual ≫= location_line = Some v))
  && none_or (expected_column e) (fun v => bool_decide (location actual ≫= location_column = Some v))
  && none_or (expected_target e) (fun v => bool_decide (diagnostic_target actual = Some v))
  && none_or (expected_action e) (fun v => bool_decide (action actual = Some v))
  && none_or (expected_repetition_count e) (fun v => repetition_count actual =? v).

Definition artifact_matches (actual : Artifact) (e : ArtifactExpectation) : bool :=
  none_or (name_equals e) (fun v => bool_decide (artifact_name actual = v))
  && none_or (name_contains e) (fun v => contains_str (artifact_name actual) v)
  && none_or (expected_kind e) (fun v => bool_decide (artifact_kind_name (artifact_kind actual) = v))
  && none_or (uri_contains e) (fun v => contains_str (uri actual) v)
  && none_or (expected_locally_available e) (fun v => Bool.eqb (locally_available actual) v).

Definition verify_diagnostic (e : DiagnosticExpectation) (ds : list Diagnostic) : list Failure :=
  match expected_rank e with
  | Some rank =>
      match ds !! rank with
      | None => [NoSuchRank rank]
      | Some actual => failing (negb (diagnostic_matches actual e)) (RankMismatch rank)
      end
  | None => failing (negb (existsb (fun d => diagnostic_matches d e) ds)) (NoDiagnostic e)
  end.

Definition verify_expectations (expected : CaseExpectation) (actual : CaseObservation) : result (list Failure) unit :=
  let ds := observed_diagnostics actual in
  let forbidden (found : string → bool) (f : string → Failure) (texts : list string) :=
    texts ≫= fun text => failing (found text) (f text) in
  verdict (
    failing (negb (bool_decide (observed_state actual = expected_state expected))) StateDiffers
    ++ failing (negb (none_or (expected_exit_code expected) (fun c => bool_decide (observed_exit_code actual = Some c)))) ExitCodeDiffers
    ++ failing (negb (none_or (headline_equals expected) (fun h => bool_decide (observed_headline actual = h)))) HeadlineDiffers
    ++ failing (negb (none_or (headline_contains expected) (fun f => contains_str (observed_headline actual) f))) HeadlineLacks
    ++ failing (negb (none_or (expected_inspect_hint expected) (fun h => bool_decide (observed_hint actual = Some h)))) HintDiffers
    ++ failing (max_visible_bytes expected <? visible_bytes actual) TooManyBytes
    ++ failing (max_diagnostics expected <? length ds)%nat TooManyDiagnostics
    ++ (expected_diagnostics expected ≫= fun e => verify_diagnostic e ds)
    ++ (expected_artifacts expected ≫= fun e =>
          failing (negb (existsb (fun a => artifact_matches a e) (observed_artifacts actual))) (NoArtifact e))
    ++ forbidden (fun t => existsb (fun d => contains_str (message d) t) ds) ForbiddenMessage
         (absent_message_contains (absent expected))
    ++ forbidden (fun t => existsb (fun d => match location d with Some l => contains_str (location_path l) t | None => false end) ds)
         ForbiddenPath (absent_path_contains (absent expected))
    ++ forbidden (fun t => existsb (fun d => match diagnostic_target d with Some target => contains_str target t | None => false end) ds)
         ForbiddenTarget (absent_target_contains (absent expected))
    ++ forbidden (fun t => existsb (fun a => contains_str (uri a) t) (observed_artifacts actual)) ForbiddenUri
         (absent_artifact_uri_contains (absent expected))
    ++ forbidden (fun t => contains_str (raw_text actual) t) ForbiddenRaw (absent_raw_contains (absent expected))).

(** [normalize_placeholders]: [<(?:WORKSPACE|workspace)>_*] becomes [<workspace>].
    [skip] characters of a match are still to be passed over, [padding] tells that
    only underscores are left of it. *)
Fixpoint normalize_from (skip : nat) (padding : bool) (s : string) : string :=
  match s, skip with
  | EmptyString, _ => ""
  | String _ rest, S skip => normalize_from skip padding rest
  | String c rest, O =>
      if padding && Ascii.eqb c "_" then normalize_from 0 true rest
      else if starts_with s "<WORKSPACE>" || starts_with s "<workspace>"
      then "<workspace>" +:+ normalize_from 10 true rest
      else String c (normalize_from 0 false rest)
  end.
Definition normalize_placeholders (value : string) : string := normalize_from 0 false value.

Definition diagnostic_classification_matches (live replay : Diagnostic) : bool :=
  if bool_decide (category live = category replay) && bool_decide (diagnostic_target live = diagnostic_target replay) then true
  else match category live, category replay with
       | CatCompilation, CatTest | CatTest, CatCompilation =>
           bool_decide (diagnostic_target live = None) || bool_decide (diagnostic_target replay = None)
       | _, _ => false
       end.

Definition primary_matches (live replay : Diagnostic) : bool :=
  bool_decide (severity live = severity replay) && diagnostic_classification_matches live replay
  && bool_decide (normalize_placeholders (message live) = normalize_placeholders (message replay))
  && bool_decide (location live = location replay) && bool_decide (action live = action replay)
  && (repetition_count live =? repetition_count replay).

Definition verify_live_replay_parity (live replay : CaseObservation) : result (list Failure) unit :=
  let hints_match := bool_decide (observed_hint live = observed_hint replay)
    || (bool_decide (observed_hint live = Some "log") && bool_decide (observed_hint replay = None)) in
  let named := fmap (fun a => (artifact_name a, artifact_kind a)) in
  verdict (
    failing (negb (bool_decide (observed_state live = observed_state replay))) StateDiffers
    ++ failing (negb (bool_decide (observed_exit_code live = observed_exit_code replay))) ExitCodeDiffers
    ++ failing (negb (bool_decide (normalize_placeholders (observed_headline live)
                                 = normalize_placeholders (observed_headline replay)))) HeadlineDiffers
    ++ failing (negb hints_match) HintDiffers
    ++ match head (observed_diagnostics live), head (observed_diagnostics replay) with
       | Some l, Some r => failing (negb (primary_matches l r)) PrimaryDiffers
       | None, None => []
       | _, _ => [PrimaryMissing]
       end
    ++ failing (negb (bool_decide (named (observed_artifacts live) = named (observed_artifacts replay)))) ArtifactsDiffer).

(** ** Replay *)

Record ReplayOutput : Type := MkReplayOutput {
  event_count : Z; replay_terminal_error : option string; replay_summary : InvocationSummary; replay_artifacts : list Artifact;
}.

Record RecordedProvenance : Type := MkRecorded {
  recorded_schema_version : Z; recorded_case : string; recorded_workspace : string; recorded_command : string;
  recorded_args : list string; recorded_bazel_version : option string; recorded_platform : string;
  recorded_architecture : string; recorded_tool : string; recorded_tool_version : string;
  recorded_rules : gmap string string; recorded_origin_repository : option string; recorded_origin_commit : option string;
}.

Inductive ReplayError : Type :=
| ReadFailed (path : string)
| Unsanitized (path : string)
| BadExitCode (path : string)
| BadProvenance
| SummariesDiffer
| StreamArtifactsDiffer
| NoTestTarget
| NoEvidence
| Unexpected (failures : list Failure)
| ProvenanceDiffers (field : string)
| GoldenChanged.

(** [str::parse::<i32>]. *)
Definition parse_i32 (s : string) : option Z :=
  match s with
  | String "-" rest => if starts_with rest "+" then None else Z.opp <$> parse_unsigned (2 ^ 31) rest
  | _ => parse_unsigned (2 ^ 31 - 1) s
  end.

(** [observe_replay], for the length of the encoded summary. *)
Definition observe_replay (encoded_len : InvocationSummary → Z) (output : ReplayOutput) (exit_code : Z) (raw : string) : CaseObservation :=
  let s := replay_summary output in
  MkObservation (if success s then "succeeded" else "failed") (Some exit_code) (headline s)
    (inspect_hint_name <$> inspect_hint s) (diagnostics s) (replay_artifacts output) (encoded_len s) raw.

(** The workspaces are compared as paths. *)
Definition check_provenance (m : CaseManifest) (p : RecordedProvenance) : result ReplayError unit :=
  let must (condition : bool) (field : string) : result ReplayError unit := reject_if (negb condition) (ProvenanceDiffers field) in
  let declared := case_provenance m in
  _ ← must (recorded_schema_version p =? 1) "schema_version";
  _ ← must (bool_decide (recorded_case p = case_id m)) "case";
  _ ← must (bool_decide (components (recorded_workspace p) = components (case_workspace m))) "workspace";
  _ ← must (bool_decide (recorded_command p = case_command m)) "command";
  _ ← must (bool_decide (recorded_args p = case_args m)) "args";
  _ ← must (bool_decide (is_Some (recorded_bazel_version p))) "bazel_version";
  _ ← must (nonblank (recorded_platform p)) "platform";
  _ ← must (nonblank (recorded_architecture p)) "architecture";
  _ ← must (bool_decide (recorded_tool p = provenance_tool declared)) "tool";
  _ ← must (bool_decide (recorded_tool_version p = provenance_tool_version declared)) "tool_version";
  _ ← must (bool_decide (recorded_rules p = provenance_rules declared)) "rules";
  _ ← must (bool_decide (recorded_origin_repository p = origin_repository declared)) "origin_repository";
  must (bool_decide (recorded_origin_commit p = origin_commit declared)) "origin_commit".

Definition with_diagnostics (ds : list Diagnostic) (s : InvocationSummary) : InvocationSummary := set_tests (tests s) ds s.

(** [push_test_diagnostic]; the diagnostics it replaces are those the runner
    replaces ([superseded]). *)
Definition push_test_diagnostic (target : string) (s : InvocationSummary) (d : Diagnostic) : InvocationSummary :=
  let d := MkDiagnostic (severity d) CatTest (message d) (location d) (Some target) (action d) (repetition_count d) in
  with_diagnostics (filter (fun existing => superseded d existing = false) (diagnostics s) ++ [d]) s.

(** A case added to the first test with the label of the target. *)
Fixpoint add_test_case (target : string) (c : TestCase) (ts : list TestResult) : list TestResult :=
  match ts with
  | [] => []
  | t :: rest =>
      if bool_decide (test_label t = target) then
        (if (length (cases t) <? 20)%nat
            && negb (existsb (fun k => bool_decide (case_name k = case_name c) && bool_decide (case_message k = case_message c)) (cases t))
         then set_log (cases t ++ [c]) (test_log_available t) (test_log_unavailable_reason t) t else t) :: rest
      else t :: add_test_case target c rest
  end.

(** A failure of a test log, with the framework that reported it. *)
Record RecordedFailure : Type := MkRecordedFailure { framework : option string; recorded_failure : TestFailure }.

Definition push_failure (target : string) (s : InvocationSummary) (f : RecordedFailure) : InvocationSummary :=
  let failure := recorded_failure f in
  let s :=
    if bool_decide (framework f = Some "go-test") then
      set_tests
        (add_test_case target (MkTestCase (TestEvidence.failure_name failure) TestFailed None (Some (failure_message failure))) (tests s))
        (filter (fun existing =>
           bool_decide (category existing = CatTest) && bool_decide (diagnostic_target existing = Some target)
           && bool_decide (location existing = failure_location failure)
           && contains_str (failure_message failure) (message existing) = false) (diagnostics s)) s
    else s in
  push_test_diagnostic target s
    (MkDiagnostic SevError CatTest (failure_message failure) (failure_location failure) (Some target) None 1).

(** [summary.elapsed_ms = 0], and no test has a duration. *)
Definition without_times (s : InvocationSummary) : InvocationSummary :=
  let untimed (c : TestCase) := MkTestCase (case_name c) (case_status c) None (case_message c) in
  let untimed_test (t : TestResult) :=
    MkTestResult (test_label t) (test_status t) None (attempts t) (shard t) (untimed <$> cases t) (test_log_available t)
      (test_log_unavailable_reason t) in
  MkSummary (success s) (headline s) (targets s) (target_counts s) (diagnostics s) (untimed_test <$> tests s) (test_counts s)
    (coverage s) (query_sample s) (query_result_count s) 0 (truncated s) (inspect_hint s).

Definition hint_at_test_log (s : InvocationSummary) : InvocationSummary :=
  if negb (success s) && bool_decide (inspect_hint s = None)
  then set_diagnostics (diagnostics s) (headline s) (truncated s) (Some HintTestLog) s else s.

Section replay.
Context {D I : Type} (decode_event : list Z → result D BepEvent) (capacity : list Z → Z).
Context (error_text : FrameError D I → string).
Context `{Text : TextDiagnostics} `{Terminal : TerminalText}.
(** [TestLogReducer], given every line under the label of the target and told that
    the log is complete. *)
Context (reduce_log : string → list string → list RecordedFailure * list CoreDiagnostic).
Context (forbidden : list (list Z → bool)).
Context (encoded_len : InvocationSummary → Z).
Context (decode_provenance : list Z → option RecordedProvenance).
Context (print_output : ReplayOutput → string).
(** [fs::read], and what reading the opened BEP file gives, chunk by chunk. *)
Context (read : string → option (list Z)) (open_bep : string → option (list (result I (list Z)))).
Context (c : LoadedCase).

Definition read_file (relative : string) : result ReplayError (list Z) :=
  ok_or (read (evidence_path c relative)) (ReadFailed (evidence_path c relative)).

(** [fs::read_to_string(..)?.trim().parse::<i32>()?]. *)
Definition read_exit (relative : string) : result ReplayError Z :=
  bytes ← read_file relative;
  text ← ok_or (from_utf8 bytes) (ReadFailed (evidence_path c relative));
  ok_or (parse_i32 (trim text)) (BadExitCode (evidence_path c relative)).

Definition enrich_from_test_log (target : string) (relative : string) (s : InvocationSummary) : result ReplayError InvocationSummary :=
  contents ← read_file relative;
  let '(failures, found) := reduce_log target (lines (normalize_terminal_text contents)) in
  let s := if decide (failures = []) then foldl (push_test_diagnostic target) s (map_diagnostic <$> found) else s in
  Ok (foldl (push_failure target) s failures).

Fixpoint enrich_logs (target : string) (logs : list string) (s : InvocationSummary) : result ReplayError InvocationSummary :=
  match logs with
  | [] => Ok s
  | log :: rest => s ← enrich_from_test_log target log s; enrich_logs target rest s
  end.

(** What the recorded test logs add to the summary. *)
Definition enrich_summary (e : EvidenceSpec) (budget : Budget) (s : InvocationSummary) : result ReplayError InvocationSummary :=
  if decide (spec_test_logs e = []) then Ok s
  else target ← ok_or (test_target (case_manifest c)) NoTestTarget;
       s ← enrich_logs target (spec_test_logs e) s;
       Ok (hint_at_test_log (finalize_diagnostics s budget)).

(** [replay_with_evidence] once the stream is decoded. *)
Definition replay_events (e : EvidenceSpec) (partial : PartialStream D I BepEvent) : result ReplayError ReplayOutput :=
  let events := Framing.events _ _ _ partial in
  stdout ← read_file (spec_stdout e);
  stderr ← read_file (spec_stderr e);
  exit_code ← read_exit (spec_exit e);
  let budget := MkBudget (replay_max_items (case_replay (case_manifest c))) (replay_max_bytes (case_replay (case_manifest c))) in
  let summary := reduce_invocation (MkInput events stdout stderr (Some exit_code) 0 budget) in
  let artifacts := reduce_artifacts events in
  let streaming := Reduction.finish (foldl observe default_accumulator events) stdout stderr (Some exit_code) 0 budget in
  _ ← reject_if (negb (bool_decide (out_summary streaming = summary))) SummariesDiffer;
  _ ← reject_if (negb (bool_decide (out_artifacts streaming = artifacts))) StreamArtifactsDiffer;
  summary ← enrich_summary e budget summary;
  Ok (MkReplayOutput (Z.of_nat (length events)) (error_text <$> partial_terminal_error _ _ _ partial) (without_times summary) artifacts).

(** [replay_with_evidence]. *)
Definition replay_with_evidence (e : EvidenceSpec) : option (result ReplayError ReplayOutput) :=
  match open_bep (evidence_path c (spec_bep e)) with
  | None => Some (Err (ReadFailed (evidence_path c (spec_bep e))))
  | Some reads =>
      partial ← decode_stream_partial_bounded decode_event capacity reads
                  DEFAULT_MAX_FRAME_BYTES DEFAULT_MAX_STREAM_BYTES DEFAULT_MAX_STREAM_EVENTS;
      Some (replay_events e partial)
  end.

Fixpoint check_sanitized (paths : list string) : result ReplayError unit :=
  match paths with
  | [] => Ok tt
  | path :: rest =>
      bytes ← read_file path;
      match verify_sanitized_evidence forbidden bytes with
      | Ok _ => check_sanitized rest
      | Err _ => Err (Unsanitized (evidence_path c path))
      end
  end.

Fixpoint read_raw_text (paths : list string) : result ReplayError string :=
  match paths with
  | [] => Ok ""
  | path :: rest =>
      bytes ← read_file path;
      more ← read_raw_text rest;
      Ok (string_of_bytes (from_utf8_lossy bytes) +:+ more)
  end.

Definition verify_provenance (e : EvidenceSpec) : result ReplayError unit :=
  bytes ← read_file (spec_provenance e);
  p ← ok_or (decode_provenance bytes) BadProvenance;
  check_provenance (case_manifest c) p.

(** The checks of [verify_case_contract] behind the replay. *)
Definition check_output (e : EvidenceSpec) (output : ReplayOutput) : result ReplayError ReplayOutput :=
  exit_code ← read_exit (spec_exit e);
  raw ← read_raw_text (spec_stdout e :: spec_stderr e :: spec_test_logs e);
  _ ← match verify_expectations (expect (case_manifest c)) (observe_replay encoded_len output exit_code raw) with
      | Ok _ => Ok tt
      | Err failures => Err (Unexpected failures)
      end;
  _ ← verify_provenance e;
  Ok output.

(** [verify_case_contract]. *)
Definition verify_case_contract (e : EvidenceSpec) : option (result ReplayError ReplayOutput) :=
  match check_sanitized (evidence_paths e) with
  | Err error => Some (Err error)
  | Ok _ => r ← replay_with_evidence e; Some (r ≫= check_output e)
  end.

(** [verify_case_evidence]. *)
Definition check_golden (e : EvidenceSpec) (output : ReplayOutput) : result ReplayError ReplayOutput :=
  bytes ← read_file (spec_expected e);
  expected ← ok_or (from_utf8 bytes) (ReadFailed (evidence_path c (spec_expected e)));
  _ ← reject_if (negb (bool_decide (print_output output +:+ String newline "" = expected))) GoldenChanged;
  Ok output.
Definition verify_case_evidence (e : EvidenceSpec) : option (result ReplayError ReplayOutput) :=
  r ← verify_case_contract e; Some (r ≫= check_golden e).

(** [verify_recorded_case]. *)
Definition verify_recorded_case : option (result ReplayError ReplayOutput) :=
  match case_evidence (case_manifest c) with
  | None => Some (Err NoEvidence)
  | Some e => verify_case_evidence e
  end.
End replay.

(** * Properties *)

Lemma contains_str_true s p : contains_str s p = true ↔ ∃ before after, s = before +:+ p +:+ after.
Proof.
  unfold contains_str. rewrite bool_decide_eq_true. split.
  - revert p. induction s as [|a s IH]; intros p [[l r] H]; cbn [split_once_str] in H.
    + destruct (strip_prefix p "") eqn:Hp; [|done]. apply strip_prefix_Some in Hp. by exists "", s.
    + destruct (strip_prefix p (String a s)) eqn:Hp; [apply strip_prefix_Some in Hp; by exists "", s0|].
      destruct (split_once_str p s) as [[l' r']|] eqn:Hs; [|done].
      destruct (IH p) as (before & after & ->); [by eexists|]. by exists (String a before), after.
  - intros (before & after & ->). induction before as [|a before IH].
    + assert (strip_prefix p ("" +:+ p +:+ after) = Some after) as Hp by (by apply strip_prefix_Some).
      destruct ("" +:+ p +:+ after); cbn [split_once_str]; rewrite Hp; by eexists.
    + change (String a before +:+ p +:+ after) with (String a (before +:+ p +:+ after)). cbn [split_once_str].
      destruct (strip_prefix _ _); [by eexists|]. destruct IH as [[l r] ->]. by eexists.
Qed.
Definition includes (s p : string) : Prop := ∃ before after, s = before +:+ p +:+ after.

(** What an expectation asks for, where it asks for something. *)
Definition asked {A} (o : option A) (P : A → Prop) : Prop := ∀ x, o = Some x → P x.
Lemma none_or_true {A} (o : option A) f (P : A → Prop) : (∀ x, f x = true ↔ P x) → none_or o f = true ↔ asked o P.
Proof. unfold asked. destruct o; cbn; naive_solver. Qed.

#[export] Instance asked_proper {A} (o : option A) : Proper (pointwise_relation A iff ==> iff) (asked o).
Proof. intros P Q HPQ. unfold asked. by setoid_rewrite HPQ. Qed.

Record Described (e : DiagnosticExpectation) (d : Diagnostic) : Prop := MkDescribed {
  described_severity : asked (expected_severity e) (fun v => severity_name (severity d) = v);
  described_category : asked (expected_category e) (fun v => category_name (category d) = v);
  described_message : asked (message_equals e) (fun v => message d = v);
  described_prefix : asked (message_prefix e) (fun v => ∃ after, message d = v +:+ after);
  described_fragment : asked (message_contains e) (fun v => includes (message d) v);
  described_path : asked (expected_path e) (fun v => ∃ l, location d = Some l ∧ v = location_path l);
  described_line : asked (expected_line e) (fun v => ∃ l, location d = Some l ∧ location_line l = Some v);
  described_column : asked (expected_column e) (fun v => ∃ l, location d = Some l ∧ location_column l = Some v);
  described_target : asked (expected_target e) (fun v => diagnostic_target d = Some v);
  described_action : asked (expected_action e) (fun v => action d = Some v);
  described_count : asked (expected_repetition_count e) (fun v => repetition_count d = v);
}.

Lemma diagnostic_matches_true d e : diagnostic_matches d e = true ↔ Described e d.
Proof.
  unfold diagnostic_matches. rewrite !andb_true_iff.
  rewrite !(none_or_true _ _ _ (fun v => bool_decide_eq_true _)), !(none_or_true _ _ _ (starts_with_true _)),
    !(none_or_true _ _ _ (contains_str_true _)), !(none_or_true _ _ _ (Z.eqb_eq _)).
  setoid_rewrite fmap_Some. setoid_rewrite bind_Some.
  split; [intros; destruct_and?; by split|by intros []; repeat split].
Qed.

Record Listed (e : ArtifactExpectation) (a : Artifact) : Prop := MkListed {
  listed_name : asked (name_equals e) (fun v => artifact_name a = v);
  listed_fragment : asked (name_contains e) (fun v => includes (artifact_name a) v);
  listed_kind : asked (expected_kind e) (fun v => artifact_kind_name (artifact_kind a) = v);
  listed_uri : asked (uri_contains e) (fun v => includes (uri a) v);
  listed_local : asked (expected_locally_available e) (fun v => locally_available a = v);
}.

Lemma artifact_matches_true a e : artifact_matches a e = true ↔ Listed e a.
Proof.
  unfold artifact_matches. rewrite !andb_true_iff.
  rewrite !(none_or_true _ _ _ (fun v => bool_decide_eq_true _)), !(none_or_true _ _ _ (contains_str_true _)),
    !(none_or_true _ _ _ (Bool.eqb_true_iff _)).
  split; [intros; destruct_and?; by split|by intros []; repeat split].
Qed.

(** The diagnostic an expectation is about: the one of its rank, or any. *)
Definition Reported (e : DiagnosticExpectation) (ds : list Diagnostic) : Prop :=
  match expected_rank e with
  | Some rank => ∃ d, ds !! rank = Some d ∧ Described e d
  | None => ∃ d, d ∈ ds ∧ Described e d
  end.

Record Meets (expected : CaseExpectation) (actual : CaseObservation) : Prop := MkMeets {
  meets_state : observed_state actual = expected_state expected;
  meets_exit : asked (expected_exit_code expected) (fun code => observed_exit_code actual = Some code);
  meets_headline : asked (headline_equals expected) (fun h => observed_headline actual = h);
  meets_fragment : asked (headline_contains expected) (fun f => includes (observed_headline actual) f);
  meets_hint : asked (expected_inspect_hint expected) (fun h => observed_hint actual = Some h);
  meets_bytes : visible_bytes actual ≤ max_visible_bytes expected;
  meets_count : (length (observed_diagnostics actual) ≤ max_diagnostics expected)%nat;
  meets_diagnostics : Forall (fun e => Reported e (observed_diagnostics actual)) (expected_diagnostics expected);
  meets_artifacts : Forall (fun e => ∃ a, a ∈ observed_artifacts actual ∧ Listed e a) (expected_artifacts expected);
  absent_messages : ∀ t d, t ∈ absent_message_contains (absent expected) → d ∈ observed_diagnostics actual → ¬ includes (message d) t;
  absent_paths : ∀ t d l, t ∈ absent_path_contains (absent expected) → d ∈ observed_diagnostics actual →
    location d = Some l → ¬ includes (location_path l) t;
  absent_targets : ∀ t d target, t ∈ absent_target_contains (absent expected) → d ∈ observed_diagnostics actual →
    diagnostic_target d = Some target → ¬ includes target t;
  absent_uris : ∀ t a, t ∈ absent_artifact_uri_contains (absent expected) → a ∈ observed_artifacts actual → ¬ includes (uri a) t;
  absent_raw : ∀ t, t ∈ absent_raw_contains (absent expected) → ¬ includes (raw_text actual) t;
}.

Lemma verdict_Ok fs : verdict fs = Ok tt ↔ fs = [].
Proof. unfold verdict. case_bool_decide; destruct fs; naive_solver. Qed.
Lemma failing_nil b f : failing b f = [] ↔ b = false.
Proof. by destruct b. Qed.
Lemma bind_nil {A B} (f : A → list B) l : l ≫= f = [] ↔ Forall (fun x => f x = []) l.
Proof.
  induction l as [|x l IH]; [by split|]. rewrite Forall_cons, <- IH. cbn [mbind list_bind]. apply app_nil.
Qed.
Lemma existsb_true {A} (f : A → bool) (P : A → Prop) l : (∀ x, f x = true ↔ P x) →
  existsb f l = true ↔ ∃ x, x ∈ l ∧ P x.
Proof.
  intros Hf. rewrite existsb_exists. by setoid_rewrite <- list_elem_of_In; setoid_rewrite Hf.
Qed.

Lemma verify_diagnostic_nil e ds : verify_diagnostic e ds = [] ↔ Reported e ds.
Proof.
  unfold verify_diagnostic, Reported. destruct (expected_rank e) as [rank|].
  - destruct (ds !! rank) as [d|]; [|naive_solver]. rewrite failing_nil, negb_false_iff, diagnostic_matches_true. naive_solver.
  - rewrite failing_nil, negb_false_iff. apply existsb_true. intros d. apply diagnostic_matches_true.
Qed.

(** Nothing forbidden was found. *)
Lemma forbidden_nil {A} (f : string → A → bool) (P : string → A → Prop) mk texts l : (∀ t x, f t x = true ↔ P t x) →
  (texts ≫= fun t => failing (existsb (f t) l) (mk t)) = [] ↔ ∀ t x, t ∈ texts → x ∈ l → ¬ P t x.
Proof.
  intros Hf. rewrite bind_nil, Forall_forall. setoid_rewrite failing_nil. setoid_rewrite <- not_true_iff_false.
  setoid_rewrite (fun t => existsb_true (f t) (P t) l (Hf t)). naive_solver.
Qed.

Lemma expected_diagnostics_nil es ds : (es ≫= fun e => verify_diagnostic e ds) = [] ↔ Forall (fun e => Reported e ds) es.
Proof. rewrite bind_nil, !Forall_forall. by setoid_rewrite verify_diagnostic_nil. Qed.

Lemma expected_artifacts_nil es l :
  (es ≫= fun e => failing (negb (existsb (fun a => artifact_matches a e) l)) (NoArtifact e)) = [] ↔
  Forall (fun e => ∃ a, a ∈ l ∧ Listed e a) es.
Proof.
  rewrite bind_nil, !Forall_forall. setoid_rewrite failing_nil. setoid_rewrite negb_false_iff.
  by setoid_rewrite (fun e => existsb_true _ _ l (fun a => artifact_matches_true a e)).
Qed.

(** A text within an optional one. *)
Lemma some_contains {A} (o : option A) (text : A → string) t :
  match o with Some x => contains_str (text x) t | None => false end = true ↔ ∃ x, o = Some x ∧ includes (text x) t.
Proof.
  destruct o as [x|]; [rewrite contains_str_true|split; [done|by intros (? & ? & _)]].
  split; [by exists x|by intros (? & [= <-] & ?)].
Qed.

Lemma forbidden_raw_nil texts s :
  (texts ≫= fun t => failing (contains_str s t) (ForbiddenRaw t)) = [] ↔ ∀ t, t ∈ texts → ¬ includes s t.
Proof.
  rewrite bind_nil, Forall_forall. setoid_rewrite failing_nil. setoid_rewrite <- not_true_iff_false.
  by setoid_rewrite contains_str_true.
Qed.

Lemma verify_expectations_meets expected actual : verify_expectations expected actual = Ok tt ↔ Meets expected actual.
Proof.
  unfold verify_expectations. rewrite verdict_Ok, !app_nil, expected_diagnostics_nil, expected_artifacts_nil.
  rewrite (forbidden_nil _ _ _ _ _ (fun t d => contains_str_true (message d) t)),
    (forbidden_nil _ _ _ _ _ (fun t d => some_contains (location d) location_path t)),
    (forbidden_nil _ _ _ _ _ (fun t d => some_contains (diagnostic_target d) id t)),
    (forbidden_nil _ _ _ _ _ (fun t a => contains_str_true (uri a) t)).
  rewrite forbidden_raw_nil, !failing_nil, !negb_false_iff, bool_decide_eq_true, Z.ltb_ge, Nat.ltb_ge.
  rewrite !(none_or_true _ _ _ (fun v => bool_decide_eq_true _)), (none_or_true _ _ _ (contains_str_true _)).
  split; [intros; destruct_and?; split; try done; intros; intro; naive_solver|].
  intros []; repeat split; try done; intros ? ? ? ? (? & ? & ?); naive_solver.
Qed.

(** ** Replay *)

(** Reading a stream to its end always ends. *)
Lemma visit_reads_Some {D I Event V} (decode_event : list Z → result D Event) capacity (reads : list (result I (list Z))) d (v : V) visitor :
  ∃ r, visit_reads decode_event capacity reads d v visitor = Some r.
Proof.
  revert d v. induction reads as [|[chunk|error] reads IH]; intros d v; cbn [visit_reads]; [by eexists| |by eexists].
  destruct chunk as [|b chunk]; [by eexists|]. unfold push.
  destruct (push_frames_Some decode_event (continue_visitor visitor) capacity d v (b :: chunk)) as (d' & v' & ->).
  cbn [mbind option_bind]. destruct (is_terminal d'); [by eexists|apply IH].
Qed.

(** The recorded provenance says what the manifest says. *)
Record Agrees (m : CaseManifest) (p : RecordedProvenance) : Prop := MkAgrees {
  agrees_schema : recorded_schema_version p = 1;
  agrees_case : recorded_case p = case_id m;
  agrees_workspace : components (recorded_workspace p) = components (case_workspace m);
  agrees_command : recorded_command p = case_command m;
  agrees_args : recorded_args p = case_args m;
  agrees_version : is_Some (recorded_bazel_version p);
  agrees_platform : trim (recorded_platform p) ≠ "";
  agrees_architecture : trim (recorded_architecture p) ≠ "";
  agrees_declared : MkProvenance (recorded_tool p) (recorded_tool_version p) (recorded_rules p)
                      (recorded_origin_repository p) (recorded_origin_commit p) = case_provenance m;
}.

Lemma check_provenance_agrees m p u : check_provenance m p = Ok u ↔ Agrees m p.
Proof.
  unfold check_provenance, nonblank. destruct u. split.
  - intros H. inv_ok. rewrite !negb_false_iff, ?negb_true_iff, ?bool_decide_eq_true, ?bool_decide_eq_false, ?Z.eqb_eq in *.
    split; try done. destruct (case_provenance m); cbn in *; congruence.
  - intros [H1 H2 H3 H4 H5 H6 H7 H8 H9]. rewrite <- H9. cbn.
    rewrite (proj2 (Z.eqb_eq _ _) H1). cbn [negb reject_if mbind result_bind].
    by repeat (first [rewrite bool_decide_true by done | rewrite bool_decide_false by done]; cbn [negb reject_if mbind result_bind]).
Qed.

Section verified.
Context {D I : Type} (decode_event : list Z → result D BepEvent) (capacity : list Z → Z).
Context (error_text : FrameError D I → string).
Context `{Text : TextDiagnostics} `{Terminal : TerminalText}.
Context (reduce_log : string → list string → list RecordedFailure * list CoreDiagnostic).
Context (forbidden : list (list Z → bool)) (encoded_len : InvocationSummary → Z).
Context (decode_provenance : list Z → option RecordedProvenance) (print_output : ReplayOutput → string).
Context (read : string → option (list Z)) (open_bep : string → option (list (result I (list Z)))).
Context (c : LoadedCase).

Lemma replay_with_evidence_total e :
  ∃ r, replay_with_evidence decode_event capacity error_text reduce_log read open_bep c e = Some r.
Proof.
  unfold replay_with_evidence. destruct (open_bep _) as [reads|]; [|by eexists].
  unfold decode_stream_partial_bounded, visit_stream_partial_bounded.
  match goal with |- context [visit_reads _ _ ?r ?d ?v ?f] =>
    destruct (visit_reads_Some decode_event capacity r d v f) as [[d' events] ->] end. by eexists.
Qed.

Lemma read_file_Ok relative bytes : read_file read c relative = Ok bytes ↔ read (evidence_path c relative) = Some bytes.
Proof. apply ok_or_Ok. Qed.

Definition Sanitized (bytes : list Z) : Prop := Forall (fun matches => matches bytes = false) forbidden.
Lemma verify_sanitized_true bytes u : verify_sanitized_evidence forbidden bytes = Ok u ↔ Sanitized bytes.
Proof.
  unfold verify_sanitized_evidence, reject_forbidden, Sanitized. rewrite Forall_forall. destruct u.
  destruct (existsb _ forbidden) eqn:Hf.
  - split; [done|]. apply existsb_exists in Hf as (f & Hin%list_elem_of_In & Hf). intros H. apply H in Hin. congruence.
  - split; [intros _|done]. intros f Hin. apply not_true_iff_false. intros Ht.
    apply not_true_iff_false in Hf. apply Hf, existsb_exists. exists f. by rewrite <- list_elem_of_In.
Qed.

Lemma check_sanitized_Ok paths : check_sanitized forbidden read c paths = Ok tt ↔
  Forall (fun path => ∃ bytes, read (evidence_path c path) = Some bytes ∧ Sanitized bytes) paths.
Proof.
  induction paths as [|path paths IH]; cbn [check_sanitized]; [by split|]. rewrite Forall_cons, <- IH. split.
  - intros H. apply bind_Ok_inv in H as (bytes & Hread%read_file_Ok & H).
    destruct (verify_sanitized_evidence forbidden bytes) eqn:Hs; [|done]. apply verify_sanitized_true in Hs. naive_solver.
  - intros ((bytes & Hread%read_file_Ok & Hs%(verify_sanitized_true _ tt)) & Hrest).
    rewrite Hread. cbn [mbind result_bind]. by rewrite Hs.
Qed.

Let budget : Budget := MkBudget (replay_max_items (case_replay (case_manifest c))) (replay_max_bytes (case_replay (case_manifest c))).

(** What a replay that gives an output has read and computed. *)
Record Replayed (e : EvidenceSpec) (output : ReplayOutput) : Prop := MkReplayed {
  replayed_reads : ∃ reads partial stdout stderr exit_code s,
    open_bep (evidence_path c (spec_bep e)) = Some reads ∧
    decode_stream_partial_bounded decode_event capacity reads
      DEFAULT_MAX_FRAME_BYTES DEFAULT_MAX_STREAM_BYTES DEFAULT_MAX_STREAM_EVENTS = Some partial ∧
    read (evidence_path c (spec_stdout e)) = Some stdout ∧ read (evidence_path c (spec_stderr e)) = Some stderr ∧
    read_exit read c (spec_exit e) = Ok exit_code ∧
    let events := Framing.events _ _ _ partial in
    let batch := reduce_invocation (MkInput events stdout stderr (Some exit_code) 0 budget) in
    let streaming := Reduction.finish (foldl observe default_accumulator events) stdout stderr (Some exit_code) 0 budget in
    out_summary streaming = batch ∧ out_artifacts streaming = reduce_artifacts events ∧
    enrich_summary reduce_log read c e budget batch = Ok s ∧
    output = MkReplayOutput (Z.of_nat (length events)) (error_text <$> partial_terminal_error _ _ _ partial)
               (without_times s) (reduce_artifacts events);
}.

Lemma replay_with_evidence_Ok e output :
  replay_with_evidence decode_event capacity error_text reduce_log read open_bep c e = Some (Ok output) ↔ Replayed e output.
Proof.
  unfold replay_with_evidence. split.
  - destruct (open_bep _) as [reads|] eqn:Hopen; [|done].
    destruct (decode_stream_partial_bounded _ _ _ _ _ _) as [partial|] eqn:Hdecode; [|done]. cbn [mbind option_bind].
    intros [= H]. unfold replay_events in H.
    apply bind_Ok_inv in H as (stdout & Hout%read_file_Ok & H).
    apply bind_Ok_inv in H as (stderr & Herr%read_file_Ok & H).
    apply bind_Ok_inv in H as (exit_code & Hexit & H). inv_ok. injection H as <-.
    rewrite !negb_false_iff, !bool_decide_eq_true in *. split. by exists reads, partial, stdout, stderr, exit_code, x1.
  - intros [(reads & partial & stdout & stderr & exit_code & s & Hopen & Hdecode & Hout%read_file_Ok & Herr%read_file_Ok & Hexit &
      Hsummary & Hartifacts & Henrich & ->)].
    rewrite Hopen, Hdecode. cbn [mbind option_bind]. do 2 f_equal. unfold replay_events.
    rewrite Hout, Herr, Hexit. cbn [mbind result_bind]. fold budget. cbn zeta in *.
    rewrite Hsummary, Hartifacts, !bool_decide_true by done. cbn [negb reject_if]. by rewrite Henrich.
Qed.

(** The contract of a case and its recorded output. *)
Record Verified (e : EvidenceSpec) (output : ReplayOutput) : Prop := MkVerified {
  verified_sanitized : Forall (fun path => ∃ bytes, read (evidence_path c path) = Some bytes ∧ Sanitized bytes) (evidence_paths e);
  verified_replay : Replayed e output;
  verified_expectations : ∃ exit_code raw,
    read_exit read c (spec_exit e) = Ok exit_code ∧
    read_raw_text read c (spec_stdout e :: spec_stderr e :: spec_test_logs e) = Ok raw ∧
    Meets (expect (case_manifest c)) (observe_replay encoded_len output exit_code raw);
  verified_provenance : ∃ bytes p, read (evidence_path c (spec_provenance e)) = Some bytes ∧
    decode_provenance bytes = Some p ∧ Agrees (case_manifest c) p;
  verified_golden : ∃ bytes, read (evidence_path c (spec_expected e)) = Some bytes ∧
    from_utf8 bytes = Some (print_output output +:+ String newline "");
}.

Lemma verify_provenance_Ok e : verify_provenance decode_provenance read c e = Ok tt ↔
  ∃ bytes p, read (evidence_path c (spec_provenance e)) = Some bytes ∧ decode_provenance bytes = Some p ∧ Agrees (case_manifest c) p.
Proof.
  unfold verify_provenance. split.
  - intros H. apply bind_Ok_inv in H as (bytes & Hread%read_file_Ok & H).
    apply bind_Ok_inv in H as (p & Hp%ok_or_Ok & H%check_provenance_agrees). eauto.
  - intros (bytes & p & Hread%read_file_Ok & Hp & Ha%(check_provenance_agrees _ _ tt)). rewrite Hread. cbn [mbind result_bind].
    by rewrite Hp.
Qed.

Lemma check_output_Ok e output output' :
  check_output encoded_len decode_provenance read c e output = Ok output' ↔ output' = output ∧
  (∃ exit_code raw, read_exit read c (spec_exit e) = Ok exit_code ∧
     read_raw_text read c (spec_stdout e :: spec_stderr e :: spec_test_logs e) = Ok raw ∧
     Meets (expect (case_manifest c)) (observe_replay encoded_len output exit_code raw)) ∧
  verify_provenance decode_provenance read c e = Ok tt.
Proof.
  unfold check_output. split.
  - intros H. apply bind_Ok_inv in H as (exit_code & Hexit & H). apply bind_Ok_inv in H as (raw & Hraw & H).
    destruct (verify_expectations _ _) as [[]|] eqn:Hmeets; [|done]. apply verify_expectations_meets in Hmeets.
    cbn [mbind result_bind] in H. apply bind_Ok_inv in H as ([] & Hp & [= <-]). naive_solver.
  - intros (-> & (exit_code & raw & -> & Hraw & Hmeets%verify_expectations_meets) & Hp).
    cbn [mbind result_bind]. rewrite Hraw. cbn [mbind result_bind]. by rewrite Hmeets, Hp.
Qed.

Lemma check_golden_Ok e output output' : check_golden print_output read c e output = Ok output' ↔ output' = output ∧
  ∃ bytes, read (evidence_path c (spec_expected e)) = Some bytes ∧ from_utf8 bytes = Some (print_output output +:+ String newline "").
Proof.
  unfold check_golden. split.
  - intros H. apply bind_Ok_inv in H as (bytes & Hread%read_file_Ok & H). inv_ok. injection H as <-.
    rewrite negb_false_iff, bool_decide_eq_true in *. naive_solver.
  - intros (-> & bytes & Hread%read_file_Ok & Htext). rewrite Hread. cbn [mbind result_bind].
    rewrite Htext. cbn [ok_or mbind result_bind]. by rewrite bool_decide_true.
Qed.

End verified.

(** A stream written frame by frame, within the limits of the accumulator and with
    no test to recover, never failing the comparison of the two reductions. *)
Lemma recorded_stream_replays {D I} (decode_event : list Z → result D BepEvent) capacity (error_text : FrameError D I → string)
    `{Text : TextDiagnostics} `{Terminal : TerminalText} reduce_log read open_bep c e bodies evs chunks stdout stderr exit_code :
  Forall (fun b => len b ≤ DEFAULT_MAX_FRAME_BYTES) bodies → total_len bodies ≤ DEFAULT_MAX_STREAM_BYTES →
  len bodies ≤ DEFAULT_MAX_STREAM_EVENTS → Forall2 (fun b ev => decode_event b = Ok ev) bodies evs →
  Forall (.≠ []) chunks → concat chunks = concat (map encode_frame bodies) →
  open_bep (evidence_path c (spec_bep e)) = Some (Ok <$> chunks) →
  read (evidence_path c (spec_stdout e)) = Some stdout → read (evidence_path c (spec_stderr e)) = Some stderr →
  read_exit read c (spec_exit e) = Ok exit_code →
  Forall event_fits evs → acc_truncated (foldl observe default_accumulator evs) = false →
  let budget := MkBudget (replay_max_items (case_replay (case_manifest c))) (replay_max_bytes (case_replay (case_manifest c))) in
  recovered_test_targets (out_run_bep (Reduction.finish (foldl observe default_accumulator evs) stdout stderr (Some exit_code) 0 budget)) = 0 →
  replay_with_evidence decode_event capacity error_text reduce_log read open_bep c e =
    Some (s ← enrich_summary reduce_log read c e budget (reduce_invocation (MkInput evs stdout stderr (Some exit_code) 0 budget));
          Ok (MkReplayOutput (Z.of_nat (length evs)) None (without_times s) (reduce_artifacts evs))).
Proof.
  intros Hb Ht Hn Hd Hne Hc Hopen Hout Herr Hexit Hfits Htr budget Hrec. unfold replay_with_evidence. rewrite Hopen.
  rewrite (decode_stream_encoded decode_event capacity _ _ _ bodies evs chunks) by first [done | vm_compute; discriminate]. cbn [mbind option_bind].
  f_equal. unfold replay_events. rewrite (proj2 (read_file_Ok _ _ _ _) Hout). cbn [mbind result_bind].
  rewrite (proj2 (read_file_Ok _ _ _ _) Herr). cbn [mbind result_bind]. rewrite Hexit. cbn [mbind result_bind Framing.events].
  destruct (stream_reduction_matches_batch_lemma default_accumulator evs stdout stderr (Some exit_code) 0 budget) as (Hs & Ha & _); [done..|].
  fold budget. by rewrite (Hs Hrec), Ha, !bool_decide_true.
Qed.

Lemma bool_decide_same {A} (x : A) `{!Decision (x = x)} : bool_decide (x = x) = true.
Proof. by apply bool_decide_eq_true. Qed.

(** A case agrees with itself, whatever its sizes and its raw text. *)
Lemma parity_ignores_volatile o bytes raw :
  verify_live_replay_parity o (MkObservation (observed_state o) (observed_exit_code o) (observed_headline o) (observed_hint o)
    (observed_diagnostics o) (observed_artifacts o) bytes raw) = Ok tt.
Proof.
  unfold verify_live_replay_parity. cbn [observed_state observed_exit_code observed_headline observed_hint observed_diagnostics observed_artifacts].
  rewrite !bool_decide_same. cbn [orb negb failing app]. destruct (head (observed_diagnostics o)) as [d|]; [|done].
  unfold primary_matches, diagnostic_classification_matches. by rewrite !bool_decide_same, Z.eqb_refl.
Qed.

Module CorpusReplayExamples.
Definition expected : CaseExpectation :=
  MkExpectation "failed" (Some 1) None (Some "missing symbol") None 8192 20
    [MkDiagnosticExpectation (Some 0%nat) (Some "error") (Some "compilation") None None (Some "missing symbol")
       (Some "src/main.cc") (Some 7) None None None None] [] (MkAbsent ["linker command failed"] [] [] [] []).
Definition observation (state message : string) : CaseObservation :=
  MkObservation state (Some 1) "Bazel failed: missing symbol invoice_total" None
    [MkDiagnostic SevError CatCompilation message (Some (MkLocation "src/main.cc" (Some 7) None)) None None 1] [] 200 "".

Example verifies_structured_and_negative_expectations :
  verify_expectations expected (observation "failed" "missing symbol invoice_total") = Ok tt.
Proof. vm_compute. reflexivity. Qed.
Example reports_all_semantic_mismatches :
  verify_expectations expected (observation "succeeded" "missing symbol linker command failed") =
    Err [StateDiffers; ForbiddenMessage "linker command failed"].
Proof. vm_compute. reflexivity. Qed.
Example placeholders : normalize_placeholders "<WORKSPACE>___/a <workspace>_b_" = "<workspace>/a <workspace>b_".
Proof. vm_compute. reflexivity. Qed.

(** Exit codes are read at 32 bits. *)
Example exit_codes : map parse_i32 ["1"; "-2147483648"; "2147483648"; "-+1"; "-"; "+7"] = [Some 1; Some (-2147483648); None; None; None; Some 7].
Proof. vm_compute. reflexivity. Qed.
End CorpusReplayExamples.
